(* ===== verification/_CoqProject ===== *)
-Q . S2P
Prelude.v
GoStrings.v
GoTime.v
Prog.v
Embed.v
Golden.v
Limits.v
Proto.v
Validate.v
Crypto.v
Jwx.v
ToyJwx.v
Token.v
Verify.v
Legacy.v
Redis.v
Quota.v
Limiter.v
Json.v
Enrich.v
Http.v
Batch.v
BatchFacts.v
BatchProps.v
ControlPlane.v
Keys.v
Attest.v
TokenEndpoint.v
Insert.v
Table.v
MigrationFiles.v
PgMigrate.v
PgOverlap.v
ChMigrate.v
Boundaries.v
System.v
Storage.v
Service.v
Jwks.v
Provenance.v
Main.v
Accepted.v
