(* ===== verification/Prelude.v ===== *)
(** * Event-tracking ingest service: root of the development

    The repository is a multi-tenant event-tracking backend in Go.  One service exists,
    services/ingest: clients exchange a public client id for a short-lived token
    (POST /v1/auth/token), then send batches of events (POST /v1/batch), which the
    service authenticates, meters, validates, dates and writes to ClickHouse.  Postgres
    holds the control plane (tenants, limits, installs, session offsets, signing keys),
    Redis the counters and the attestation challenges.  Replicas are stateless and any
    number of requests run at once.

    ** Shape of the model

    Pure Go functions are Gallina functions.  A handler is a [Prog E A] ([Prog]): a
    finite tree of atomic calls with their possible answers.  The semantics of the calls
    is a relation on a world, in which a call may also fail, or take effect and lose its
    reply; [any_env] is the semantics that promises nothing.  Requests and replicas that
    run at the same time are a pool, stepped one call at a time in any order
    ([pool_run]).  [pool_prefix] turns what holds of every run of one program into what
    holds of it in every interleaving; [pool_rely_guarantee], [pool_balance],
    [pool_covered], [pool_event] and [pool_every] are the ways to reason about a pool as
    a whole, [pool_step_acc] its termination, and [Embed] projects a pool to a
    sub-program of its members ([pool_part]), or to some of its members ([pool_part_slack]),
    the steps of the others becoming time that passes.  Code outside the repository is an interface (a class)
    with its documented laws, and every interface has a concrete instance (Toy...) on
    which the hypotheses of each theorem are met.

    ** Files, in dependency order

    - [Prelude], [GoStrings], [GoTime]: shared lemmas and tactics; the parts of strings,
      strconv, fmt and time that the code uses.  int64 arithmetic wraps explicitly
      ([add64]); Duration and Unix arithmetic keep Go's truncation.
    - [Prog], [Embed]: programs, runs, pools, sub-programs.
    - [Golden]: pkg/testsupport, the paths of the shared test fixtures.
    - [Limits]: pkg/limits.  [Proto]: the messages of gen/go/tracking/v1 and their
      nil-safe getters.  [Validate]: services/ingest/internal/validate.
    - [Crypto]: SHA-256 and hex, executable.  [Jwx], [ToyJwx]: the JOSE library as an
      interface, and an instance.
    - [Token], [Verify], [Legacy]: pkg/tenant (token.go, verify.go, legacy.go).  The
      JWKS cache of the verifier is its state, the fetch an effect.
    - [Redis], [Quota]: Redis as an interface with laws (values, times to live, INCRBY
      overflow, Lua's float64 numbers), and services/ingest/internal/quota, whose two
      Lua scripts are functions on it.  [Limiter]: the specification the two counters
      implement, a fixed window per second and per day, and what a client that obeys
      Retry-After can rely on.
    - [Json], [Enrich]: the property object of encoding/json, and
      services/ingest/internal/enrich (clock correction, the two offset stores behind
      one class, the storage row).
    - [Http], [Batch], [BatchFacts], [BatchProps]: services/ingest/internal/handler,
      batch.go: body limits, the whole handler, its outcomes on every branch, its
      properties.
    - [ControlPlane], [Keys]: pkg/controlplane (store.go, keys.go), the tables as finite
      maps with their unique indexes.
    - [Attest], [TokenEndpoint]: services/ingest/internal/attest, and token.go and
      jwks.go of the handlers.
    - [Insert]: pkg/clickhouse/insert.go over the driver's batch, and the months by which
      pkg/clickhouse/sql/0001_events.sql partitions the table.  [Table]: its columns,
      sorting key, version and TTL, with the merging of the server as an interface.
    - [MigrationFiles], [PgMigrate], [ChMigrate]: the two migration runners.
      [PgOverlap]: the Postgres runner where the advisory lock excludes nobody.
    - [Boundaries]: tools/checkboundaries.
    - [System]: the batch endpoint wired to the definitions of all its dependencies, on
      one world, where between two of its calls time passes and others use Redis without
      touching the quota keys ([meanwhile]).  [Storage]: what a pool of batch requests
      leaves in the table.  [Service]: token, challenge and batch requests on that world;
      the first two stay within their own keys ([own_keys]), so a run of the service is
      one of [System] to the batch requests in it.  [Jwks]: the service with the path of
      its keys: the signing_keys table, the handler that publishes them, the fetch and
      the cache of each replica.  [Provenance]: a row traced through the token to its
      exchange and install.
    - [Main]: services/ingest/cmd/main.go, pkg/clickhouse/pool.go and the
      connection of pkg/controlplane.
    - [Accepted]: from [Main]'s start-up through an exchange to the batches its token
      pays for.

    ** What is proved

    - The system.  [System.acknowledged_is_in_the_table]: an acknowledged batch is in
      the events table, and by [Storage.acknowledged_event_is_seen_once] a query of the
      merged table sees each of its events, whatever was retried: exactly once when no
      delivery of it was clamped to its receipt, and never twice with one time;
      [Storage.table_stays_well_typed]: nothing that fits no column is ever inserted.
      [Service.service_refines_system]: the three POST endpoints on one world refine the
      batch system; with it [Service.service_within_daily_budget]: the rows stored for a
      tenant and a day never exceed its limit, which joins the handlers, the Lua script,
      the control plane and the insert.  [Provenance.rows_have_provenance]: every row
      has the tenant, install and tier of a legacy key or of one exchange of the run (or
      of a token that was outstanding when the run began), through the signed token and
      the key it was checked with;
      [Provenance.noop_attestor_means_tier1]: as wired, no row is Tier 0.
      [Accepted.exchanged_token_is_accepted] is the other direction: the token of an
      exchange opens the batch endpoint for its lifetime, at whichever replica, and what
      it stores belongs to the exchange.  [Main.serving_replicas_agree]: a replica that serves has the complete
      schema and signs with the one active key; [Main.serves_only_when_ready] and
      [Main.readyz_reports] are about start-up, shutdown and the probe.
    - The batch endpoint ([BatchProps]): acknowledgement, deduplication of retries,
      tenant isolation, the order of admission and insert, each status with its
      own cause, what is charged, and the size limits, exactly.
    - Quota ([Quota], [Limiter]): the script admits exactly within both limits and
      changes nothing otherwise; over any history no day and no second of an install is
      overspent, and the answers are those of a fixed window that counts what it
      admitted; a batch that fits gets through when its client obeys Retry-After.
    - Tokens ([Verify], [Legacy], [Keys]): acceptance is characterised exactly, minting
      and verifying round-trip through the published key set, fetches are rate-limited,
      cached keys expire, there is never more than one active key and exactly one once
      a cold start succeeded.
    - Exchange ([TokenEndpoint], [Attest]): a challenge buys Tier 0 once, tokens carry
      the resolved tenant and issued install, every refusal has its cause.
    - Data ([Validate], [Enrich]): events are accepted exactly when they are storable,
      rejects are truthful, corrected times stay in their bounds, properties are stored
      flat, an offset is that of the session's first contact until a retention sweep
      finds the session quiet for 30 days.
    - Storage and tools ([Insert], [PgMigrate], [ChMigrate], [Boundaries],
      [ControlPlane]): a successful insert adds exactly its rows, and a failed flush
      may leave some of its months; the Postgres runner refines the sequence of its files
      under any interleaving and always comes to an end, and the sequence is kept even
      where transactions overlap ([PgOverlap]); the
      ClickHouse runner resumes a broken file; the boundary check prints exactly
      one line per breach; install identities are stable.

    The modelling also showed places where code and documents disagree; the theorems
    [Verify.missing_nbf_is_not_checked], [Enrich.clamped_replay_moves_row],
    [Keys.EnsureSigningKey_alone], [ChMigrate.ch_replicas_apply_twice] and
    [Quota.oversized_batch_never_admitted] state what the code does there.

    ** Bounds and fuel

    Programs are finite trees, so handlers return; their recursions are structural.  The
    one loop with fuel is the decoder of checkboundaries, whose fuel is the length of the
    output plus one: every decoded package consumes input ([decode_loop_total]).  Budgets
    are assumed below 2^52, where Lua's float64 arithmetic is exact, and the clocks of
    pods and Redis to agree within half a day (half a second for the per-second rate and
    for the limiter's specification).  The types of rows are shown for receipt clocks of
    the years 1901 to 2298, within which the corrected time is a DateTime64.
    [Provenance] supposes that signatures are not forged ([unforged]): a token that
    checks against a key the verifier was given was given out by the service, in the run
    or before it ([outstanding]).  Claim strings are taken to survive their JSON encoding
    ([sign_parse_token]), as valid UTF-8 does: they are ids, scopes and tiers that the
    service makes itself, is configured with, or reads from Postgres text columns, which
    hold nothing else.  Which key
    that is, is proved: in [Jwks] the verifiers fetch the set from the service's own
    endpoint, as main's default JWKS_URL has it, and no published key is retired during
    a run ([rotated]; no statement of the service retires one).  A fetch may fail where
    [outages] allows it; [Accepted] excludes that, since a replica without a set refuses
    every token.  The statement that deletes quiet sessions may run at any time; so
    [Storage] follows an event for 30 days of Postgres's clock, within which its offset
    cannot be forgotten.  A failed Send may have stored part of its block: ClickHouse
    writes a block of up to [max_insert_block_size] rows partition by partition, and a
    batch has at most 500.  In [PgMigrate] the advisory lock is held until it is released;
    when its connection drops before that, what remains true is [PgOverlap].  A query of the merged table is asked within 362 days of receipt: 13
    months are at least 393 days, and an event may be dated 30 days before its receipt.

    ** Not modelled

    net/http itself (routing, deadlines, header canonicalisation beyond what handlers
    set), TLS, logging, Go's scheduler within a request; protojson, gzip, UUID parsing,
    jwx, pgx, go-redis, the ClickHouse driver and the merging of its server, which are
    interfaces; the bloom filter indexes of the events table, which change no answer;
    descriptors and registration code of gen/; the query messages, which nothing uses;
    the embedding of the migration files into the binary; the SQL text of migrations,
    whose effect is a parameter; the Flutter SDK and the query service, which do not
    exist yet. *)
From Stdlib Require Export Ascii.
From stdpp Require Export base tactics numbers option list strings pretty gmap fin_maps.

(** ** Fallible Go results *)

(** A Go function returning [(T, error)]: the model keeps exactly one of the
    two, since every caller in the repository inspects [err] first. *)
Inductive result (E A : Type) : Type :=
| Ok (a : A)
| Err (e : E).
Arguments Ok {E A} a.
Arguments Err {E A} e.
#[export] Instance result_eq_dec `{EqDecision E, EqDecision A} : EqDecision (result E A).
Proof. solve_decision. Defined.

Definition is_ok {E A} (r : result E A) : bool :=
  match r with Ok _ => true | Err _ => false end.

Definition result_bind {E A B} (r : result E A) (f : A → result E B) : result E B :=
  match r with Ok a => f a | Err e => Err e end.

Declare Scope go_scope.
Delimit Scope go_scope with go.

(** [let? x := r in k]: the [if err != nil { return err }] idiom. *)
Notation "'let?' x ':=' r 'in' k" := (result_bind r (λ x, k))
  (at level 10, x name, r at level 100, k at level 200) : go_scope.

(** [guard b e k]: an early return with [e] when the guard [b] holds. *)
Definition guard_err {E A} (b : bool) (e : E) (k : result E A) : result E A :=
  if b then Err e else k.

Notation "'refuse' e 'when' b ';;' k" := (guard_err b e k)
  (at level 10, e at level 99, b at level 99, k at level 200) : go_scope.

(** ** Automation shared by every file *)

Create HintDb et.
Create Rewrite HintDb et.
Create Rewrite HintDb gostr.

(** Case analysis on every guard, match or option the goal or a hypothesis is
    blocked on, closing the contradictory branches. *)
Ltac split_guards :=
  repeat (first
    [ progress simplify_eq/=
    | progress unfold guard_err, result_bind in *
    | case_bool_decide
    | case_decide
    | case_match ]).

(** Linear arithmetic with division and remainder by constants. *)
Ltac divlia := Z.div_mod_to_equations; lia.

Lemma guard_err_ok {E A} b (e : E) (k : result E A) a :
  guard_err b e k = Ok a ↔ b = false ∧ k = Ok a.
Proof. unfold guard_err. destruct b; naive_solver. Qed.

Lemma result_bind_ok {E A B} (r : result E A) (f : A → result E B) b :
  result_bind r f = Ok b ↔ ∃ a, r = Ok a ∧ f a = Ok b.
Proof. destruct r; naive_solver. Qed.

(** ** Lists *)

Section lists.
Context {A : Type}.

Lemma partition_permutation (p : A → bool) (xs : list A) :
  base.filter (λ x, p x = true) xs ++ base.filter (λ x, p x = false) xs ≡ₚ xs.
Proof.
  induction xs as [|x xs IH]; [done|]. rewrite !filter_cons.
  destruct (p x); repeat case_decide; try done; simpl.
  - by rewrite IH.
  - by rewrite <-Permutation_middle, IH.
Qed.
End lists.

(** A list has one place that satisfies [P]. *)
Lemma split_unique {A} (P : A → Prop) (l l' k k' : list A) x y :
  l ++ x :: l' = k ++ y :: k' → P x → Forall (λ z, ¬ P z) k → Forall (λ z, ¬ P z) k' →
  l = k ∧ x = y ∧ l' = k'.
Proof.
  intros H Hx Hk Hk'. revert l H. induction Hk as [|z k Hz _ IH]; intros [|z' l]; simpl.
  - by intros [= -> ->].
  - intros [= _ <-]. apply Forall_app in Hk' as [_ [[] _]%Forall_cons]. done.
  - intros [= <- _]. done.
  - intros [= -> H]. by destruct (IH l H) as (-> & -> & ->).
Qed.

Lemma sum_list_with_omap {A B} (f : A → option B) (g : B → nat) (l : list A) :
  sum_list_with (λ x, from_option g 0 (f x)) l = sum_list_with g (omap f l).
Proof. induction l as [|x l IH]; [done|]. simpl. rewrite IH. by destruct (f x). Qed.

Lemma list_elem_of_concat {A} (x : A) (ls : list (list A)) : x ∈ concat ls ↔ ∃ l, x ∈ l ∧ l ∈ ls.
Proof.
  rewrite list_elem_of_In, in_concat. setoid_rewrite list_elem_of_In. split; intros (l & ? & ?); by exists l.
Qed.

(** ** Lists without two elements of one key *)

Lemma NoDup_fmap_finer {A B C} (f : A → B) (g : A → C) l :
  NoDup (g <$> l) → (∀ x y, x ∈ l → y ∈ l → f x = f y → g x = g y) → NoDup (f <$> l).
Proof.
  induction l as [|x l IH]; [constructor|]. rewrite !fmap_cons, !NoDup_cons. intros [Hx Hl] Hfg. split.
  - intros (y & Hy & Hin)%list_elem_of_fmap. apply Hx, list_elem_of_fmap. exists y.
    split; [|done]. apply Hfg; [left|by right|done].
  - apply IH; [done|]. intros y z Hy Hz. apply Hfg; by right.
Qed.
Lemma NoDup_fmap_alike {A C} (g : A → C) l :
  NoDup (g <$> l) → (∀ x y, x ∈ l → y ∈ l → g x = g y) → (length l ≤ 1)%nat.
Proof.
  destruct l as [|x [|y l]]; simpl; [lia|lia|]. rewrite !NoDup_cons. intros [Hx _] Hall.
  destruct Hx. rewrite (Hall x y); [left|left|right; left].
Qed.
