(* ===== verification/GoStrings.v ===== *)
(** * The parts of Go's [strings], [strconv] and [fmt] packages the service uses

    A Go string is a byte string, here Rocq's [string] of 8-bit [ascii]. *)
From S2P Require Import Prelude.

(** ** Bytes *)

Definition byteZ (c : ascii) : Z := Z.of_N (N_of_ascii c).
Definition asciiZ (z : Z) : ascii := ascii_of_N (Z.to_N z).

Lemma asciiZ_byteZ c : asciiZ (byteZ c) = c.
Proof. unfold asciiZ, byteZ. by rewrite N2Z.id, ascii_N_embedding. Qed.

Fixpoint bytes (s : string) : list ascii :=
  match s with EmptyString => [] | String c s => c :: bytes s end.
Fixpoint of_bytes (l : list ascii) : string :=
  match l with [] => EmptyString | c :: l => String c (of_bytes l) end.

(** [len(s)] *)
Definition len (s : string) : Z := Z.of_nat (String.length s).

Lemma of_bytes_bytes s : of_bytes (bytes s) = s.
Proof. induction s; simpl; congruence. Qed.
Lemma bytes_of_bytes l : bytes (of_bytes l) = l.
Proof. induction l; simpl; congruence. Qed.

#[export] Hint Rewrite of_bytes_bytes bytes_of_bytes asciiZ_byteZ : et.

(** ** Concatenation *)

Lemma app_nil_l_string s : "" +:+ s = s.
Proof. done. Qed.
Lemma app_cons_string c s t : String c s +:+ t = String c (s +:+ t).
Proof. done. Qed.
Lemma app_nil_r_string s : s +:+ "" = s.
Proof. induction s; [done|]. rewrite app_cons_string. congruence. Qed.
Lemma app_assoc_string a b c : (a +:+ b) +:+ c = a +:+ (b +:+ c).
Proof. induction a; [done|]. rewrite !app_cons_string. congruence. Qed.
Lemma length_app_string a b :
  String.length (a +:+ b) = String.length a + String.length b.
Proof. induction a; [done|]. rewrite app_cons_string. simpl. congruence. Qed.

#[export] Hint Rewrite app_nil_l_string app_cons_string app_nil_r_string
  app_assoc_string length_app_string : gostr.

(** Concatenations whose left parts have equal length split uniquely. *)
Lemma app_split_string a b c d :
  String.length a = String.length b →
  a +:+ c = b +:+ d → a = b ∧ c = d.
Proof.
  revert b. induction a as [|x a IH]; intros [|y b] Hl H; try discriminate Hl; [done|].
  injection Hl as Hl.
  rewrite !app_cons_string in H. injection H as -> H.
  destruct (IH b Hl H) as [-> ->]. done.
Qed.

(** So do those whose right parts have equal length. *)
Lemma app_split_r_string a b c d :
  String.length c = String.length d →
  a +:+ c = b +:+ d → a = b ∧ c = d.
Proof.
  intros Hl H. apply app_split_string; [|done].
  apply (f_equal String.length) in H. rewrite !length_app_string in H. lia.
Qed.

(** A separator byte absent from the left parts makes a join unambiguous. *)
Fixpoint has_byte (c : ascii) (s : string) : bool :=
  match s with
  | EmptyString => false
  | String x s => bool_decide (x = c) || has_byte c s
  end.

Lemma app_sep_string a b c d sep :
  has_byte sep a = false → has_byte sep b = false →
  a +:+ String sep c = b +:+ String sep d → a = b ∧ c = d.
Proof.
  revert b. induction a as [|x a IH]; intros [|y b] Ha Hb H; simpl in *.
  - rewrite !app_nil_l_string in H. by simplify_eq.
  - rewrite app_nil_l_string, app_cons_string in H. injection H as -> H.
    by rewrite bool_decide_true in Hb.
  - rewrite app_nil_l_string, app_cons_string in H. injection H as -> H.
    by rewrite bool_decide_true in Ha.
  - rewrite !app_cons_string in H. injection H as -> H.
    apply orb_false_iff in Ha as [_ Ha], Hb as [_ Hb].
    destruct (IH b Ha Hb H) as [-> ->]. done.
Qed.

Lemma has_byte_app c a b : has_byte c (a +:+ b) = has_byte c a || has_byte c b.
Proof.
  induction a as [|x a IH]; [done|].
  rewrite app_cons_string. simpl. by rewrite IH, orb_assoc.
Qed.

(** ** strings.HasPrefix, CutPrefix, Cut, Split, SplitN *)

(** [strings.CutPrefix(s, p)] when it succeeds *)
Fixpoint CutPrefix (s p : string) {struct p} : option string :=
  match p, s with
  | EmptyString, _ => Some s
  | String x p, String y s => if decide (x = y) then CutPrefix s p else None
  | String _ _, EmptyString => None
  end.

Definition HasPrefix (s p : string) : bool :=
  match CutPrefix s p with Some _ => true | None => false end.

Lemma CutPrefix_Some s p r : CutPrefix s p = Some r ↔ s = p +:+ r.
Proof.
  revert s. induction p as [|x p IH]; intros s; simpl.
  - rewrite app_nil_l_string. split; congruence.
  - rewrite app_cons_string. destruct s as [|y s]; [done|].
    case_decide; [|split; congruence]. subst.
    rewrite IH. split; congruence.
Qed.

Lemma HasPrefix_spec s p : HasPrefix s p = true ↔ ∃ r, s = p +:+ r.
Proof.
  unfold HasPrefix. destruct (CutPrefix s p) as [r|] eqn:E.
  - apply CutPrefix_Some in E. naive_solver.
  - split; [done|]. intros [r Hr%CutPrefix_Some]. congruence.
Qed.

(** [strings.Cut(s, sep)] for a one-byte separator: the parts around its first
    occurrence, [None] when it is absent. *)
Fixpoint Cut (s : string) (sep : ascii) : option (string * string) :=
  match s with
  | EmptyString => None
  | String c s =>
      if decide (c = sep) then Some ("", s)
      else match Cut s sep with
           | Some (a, b) => Some (String c a, b)
           | None => None
           end
  end.

Lemma Cut_Some s sep a b :
  Cut s sep = Some (a, b) ↔ s = a +:+ String sep b ∧ has_byte sep a = false.
Proof.
  revert a. induction s as [|c s IH]; intros a; simpl.
  - split; [done|]. intros [H _]. destruct a; done.
  - case_decide as Hc.
    + subst. split; [intros; by simplify_eq|]. intros [H Ha].
      destruct a as [|x a]; [rewrite app_nil_l_string in H; by simplify_eq|].
      rewrite app_cons_string in H. simpl in Ha. injection H as -> _.
      by rewrite bool_decide_true in Ha.
    + destruct (Cut s sep) as [[a' b']|] eqn:E.
      * split.
        { intros. simplify_eq/=. destruct (proj1 (IH a') eq_refl) as [-> ?].
          rewrite app_cons_string, bool_decide_false by done. done. }
        { intros [H Ha]. destruct a as [|x a];
            [rewrite app_nil_l_string in H; by simplify_eq|].
          rewrite app_cons_string in H. injection H as -> H. simpl in Ha.
          apply orb_false_iff in Ha as [_ Ha].
          assert (Some (a', b') = Some (a, b)) by (apply IH; done). congruence. }
      * split; [done|]. intros [H Ha]. destruct a as [|x a];
          [rewrite app_nil_l_string in H; by simplify_eq|].
        rewrite app_cons_string in H. injection H as -> H. simpl in Ha.
        apply orb_false_iff in Ha as [_ Ha].
        assert (None = Some (a, b)) by (apply IH; done). done.
Qed.

(** [strings.SplitN(s, sep, 2)[0]] *)
Definition before_first (s : string) (sep : ascii) : string :=
  match Cut s sep with Some (a, _) => a | None => s end.

(** [strings.Split(s, sep)] for a one-byte separator *)
Fixpoint Split (s : string) (sep : ascii) : list string :=
  match s with
  | EmptyString => [""]
  | String c s =>
      if decide (c = sep) then "" :: Split s sep
      else match Split s sep with
           | x :: xs => String c x :: xs
           | [] => [String c ""]
           end
  end.

(** [strings.Join(xs, sep)] *)
Fixpoint Join (xs : list string) (sep : string) : string :=
  match xs with
  | [] => ""
  | [x] => x
  | x :: xs => x +:+ sep +:+ Join xs sep
  end.

(** ** White space: strings.TrimSpace and strings.Fields *)

(** The UTF-8 encodings of the runes [unicode.IsSpace] holds for: the ASCII
    blanks, U+0085, U+00A0, U+1680, U+2000 to U+200A, U+2028, U+2029, U+202F,
    U+205F and U+3000.  None of them is a suffix or an infix of another valid
    encoding, so matching bytes is matching runes. *)
Definition utf8_2 (a b : Z) : list ascii := [asciiZ a; asciiZ b].
Definition utf8_3 (a b c : Z) : list ascii := [asciiZ a; asciiZ b; asciiZ c].

Definition space_runes : list (list ascii) :=
  ((λ z, [asciiZ z]) <$> [9; 10; 11; 12; 13; 32]%Z) ++
  [utf8_2 0xC2 0x85; utf8_2 0xC2 0xA0; utf8_3 0xE1 0x9A 0x80] ++
  (utf8_3 0xE2 0x80 <$> [0x80; 0x81; 0x82; 0x83; 0x84; 0x85; 0x86; 0x87; 0x88;
                         0x89; 0x8A; 0xA8; 0xA9; 0xAF]%Z) ++
  [utf8_3 0xE2 0x81 0x9F; utf8_3 0xE3 0x80 0x80].

Fixpoint is_prefix (p l : list ascii) : bool :=
  match p, l with
  | [], _ => true
  | x :: p, y :: l => bool_decide (x = y) && is_prefix p l
  | _ :: _, [] => false
  end.

(** The width of the space rune a byte list starts with, 0 when none. *)
Definition space_width (runes : list (list ascii)) (l : list ascii) : nat :=
  match list_find (λ p, is_prefix p l = true) runes with
  | Some (_, p) => length p
  | None => 0
  end.

(** Drops leading space runes; [skip] counts the bytes of the current one
    still to drop. *)
Fixpoint trim_left (runes : list (list ascii)) (skip : nat) (l : list ascii) : list ascii :=
  match l with
  | [] => []
  | c :: l' =>
      match skip with
      | S skip => trim_left runes skip l'
      | O => match space_width runes l with
             | O => l
             | S w => trim_left runes w l'
             end
      end
  end.

(** [strings.TrimSpace] *)
Definition TrimSpace (s : string) : string :=
  let l := trim_left space_runes 0 (bytes s) in
  of_bytes (reverse (trim_left (reverse <$> space_runes) 0 (reverse l))).

Definition flush (cur : list ascii) : list string :=
  match cur with [] => [] | _ => [of_bytes (rev cur)] end.

(** [strings.Fields] *)
Fixpoint fields_go (skip : nat) (cur l : list ascii) : list string :=
  match l with
  | [] => flush cur
  | c :: l' =>
      match skip with
      | S skip => fields_go skip cur l'
      | O => match space_width space_runes l with
             | O => fields_go 0 (c :: cur) l'
             | S w => flush cur ++ fields_go w [] l'
             end
      end
  end.
Definition Fields (s : string) : list string := fields_go 0 [] (bytes s).

Example TrimSpace_ex : TrimSpace "  a b	" = "a b".
Proof. reflexivity. Qed.
Example Fields_ex : Fields " read:x  write:events " = ["read:x"; "write:events"].
Proof. reflexivity. Qed.

(** A byte string free of the first bytes of space runes. *)
Definition no_space (s : string) : Prop :=
  Forall (λ c, ∀ p, p ∈ space_runes → head p ≠ Some c ∧ last p ≠ Some c) (bytes s).

Lemma space_width_no_space runes c l :
  (∀ p, p ∈ runes → head p ≠ Some c ∧ p ≠ []) → space_width runes (c :: l) = 0.
Proof.
  intros H. unfold space_width.
  destruct (list_find _ runes) as [[i p]|] eqn:E; [|done].
  apply list_find_Some in E as (Hp & Hpre & _).
  apply list_elem_of_lookup_2 in Hp. destruct (H p Hp) as [Hh Hn].
  destruct p as [|x p]; [done|]. simpl in Hpre.
  apply andb_true_iff in Hpre as [->%bool_decide_eq_true _]. done.
Qed.

Lemma space_runes_nonempty p : p ∈ space_runes → p ≠ [].
Proof.
  intros Hp ->. assert (Forall (λ p, p ≠ []) space_runes) as HF.
  { repeat constructor; done. }
  rewrite Forall_forall in HF. by apply (HF []).
Qed.

Lemma TrimSpace_no_space s : no_space s → TrimSpace s = s.
Proof.
  unfold no_space, TrimSpace. intros H.
  assert (Hhead : ∀ runes l c, (∀ p, p ∈ runes → head p ≠ Some c ∧ p ≠ []) →
    trim_left runes 0 (c :: l) = c :: l).
  { intros runes l c Hc. simpl. by rewrite (space_width_no_space _ _ _ Hc). }
  assert (Hl : trim_left space_runes 0 (bytes s) = bytes s).
  { destruct (bytes s) as [|c l]; [done|]. apply Hhead. intros p Hp.
    apply Forall_cons in H as [Hc _]. split; [by apply Hc|].
    by apply space_runes_nonempty. }
  rewrite Hl. destruct (reverse (bytes s)) as [|c l] eqn:E.
  - simpl. apply (f_equal reverse) in E. rewrite reverse_involutive in E.
    by rewrite <-(of_bytes_bytes s), E.
  - rewrite Hhead, <-E, reverse_involutive; [by rewrite of_bytes_bytes|].
    intros p [q [-> Hq]]%list_elem_of_fmap.
    assert (c ∈ bytes s) as Hc.
    { apply elem_of_reverse. rewrite E. by left. }
    rewrite Forall_forall in H. destruct (H _ Hc q Hq) as [_ Hlast].
    split; [by rewrite head_reverse|].
    intros Hr%(f_equal reverse). rewrite reverse_involutive in Hr. subst q.
    by apply (space_runes_nonempty []).
Qed.

(** ** strings.EqualFold against an ASCII word

    Simple case folding maps a non-ASCII rune to ASCII only for k and s, which
    the one word the service folds ("Bearer") does not contain. *)
Definition lower_ascii (c : ascii) : ascii :=
  let z := byteZ c in
  if bool_decide (65 ≤ z ∧ z ≤ 90)%Z then asciiZ (z + 32) else c.
Definition lower (s : string) : string := of_bytes (lower_ascii <$> bytes s).
Definition EqualFold (s t : string) : bool := bool_decide (lower s = lower t).

Example EqualFold_ex : EqualFold "bEARER" "Bearer" = true.
Proof. reflexivity. Qed.

(** ** Decimal printing: %d, and the zero-padded fields of time.Format *)

Definition digit (z : Z) : ascii := asciiZ (48 + z).

Fixpoint replicate_string (n : nat) (c : ascii) : string :=
  match n with O => "" | S n => String c (replicate_string n c) end.

Definition zero_pad (width : nat) (s : string) : string :=
  replicate_string (width - String.length s) "0" +:+ s.

(** [appendInt(b, x, width)] of package time *)
Definition appendInt (x : Z) (width : nat) : string :=
  if bool_decide (x < 0)%Z then "-" +:+ zero_pad width (pretty (- x)%Z)
  else zero_pad width (pretty x).

(** Reading back a decimal string; only used to state that printing loses
    nothing. *)
Fixpoint undec (acc : Z) (s : string) : Z :=
  match s with
  | EmptyString => acc
  | String c s => undec (10 * acc + (byteZ c - 48)) s
  end.

Lemma undec_pretty_go x s : undec 0 (pretty_N_go x s) = undec (Z.of_N x) s.
Proof.
  revert s. induction (N.lt_wf_0 x) as [x _ IH]; intros s.
  destruct (decide (x = 0)%N) as [->|]; [by rewrite pretty_N_go_0|].
  rewrite pretty_N_go_step, IH by (try apply N.div_lt; lia). simpl. f_equal.
  assert (∀ d, (d < 10)%N → byteZ (pretty_N_char d) = 48 + Z.of_N d)%Z as Hd.
  { intros d Hd. assert (d = 0 ∨ d = 1 ∨ d = 2 ∨ d = 3 ∨ d = 4 ∨ d = 5 ∨ d = 6
      ∨ d = 7 ∨ d = 8 ∨ d = 9)%N as Hd' by lia.
    by repeat destruct Hd' as [->|Hd']; [..|subst]. }
  rewrite Hd by (apply N.mod_lt; lia).
  rewrite N2Z.inj_div, N2Z.inj_mod. pose proof (Z.div_mod (Z.of_N x) 10). lia.
Qed.

Lemma length_pretty_go w x s :
  (x < 10 ^ N.of_nat w)%N → String.length (pretty_N_go x s) ≤ w + String.length s.
Proof.
  revert x s. induction w as [|w IH]; intros x s Hx.
  { assert (x = 0)%N as -> by (simpl in Hx; lia). by rewrite pretty_N_go_0. }
  destruct (decide (x = 0)%N) as [->|]; [rewrite pretty_N_go_0; lia|].
  rewrite pretty_N_go_step by lia. etrans; [apply IH|simpl; lia].
  rewrite Nat2N.inj_succ, N.pow_succ_r' in Hx. by apply N.Div0.div_lt_upper_bound.
Qed.

Lemma pretty_nonneg x :
  (0 ≤ x)%Z → pretty x = pretty (Z.to_N x).
Proof. by destruct x. Qed.

Lemma undec_pretty x : (0 ≤ x)%Z → undec 0 (pretty x) = x.
Proof.
  intros Hx. rewrite pretty_nonneg by done. unfold pretty, pretty_N.
  case_decide as H0; [change (undec 0 "0") with 0%Z; lia|].
  rewrite undec_pretty_go. simpl. lia.
Qed.

Lemma undec_zero_pad w s : undec 0 (zero_pad w s) = undec 0 s.
Proof. unfold zero_pad. by induction (w - String.length s). Qed.

Lemma undec_appendInt x w : (0 ≤ x)%Z → undec 0 (appendInt x w) = x.
Proof.
  intros. unfold appendInt. rewrite bool_decide_false by lia.
  by rewrite undec_zero_pad, undec_pretty.
Qed.

Lemma length_zero_pad w s :
  String.length s ≤ w → String.length (zero_pad w s) = w.
Proof.
  intros. unfold zero_pad. rewrite length_app_string.
  assert (∀ n, String.length (replicate_string n "0") = n) as ->;
    [intros n; induction n; simpl; lia|lia].
Qed.

Lemma length_appendInt x w :
  (0 < w) → (0 ≤ x < 10 ^ Z.of_nat w)%Z → String.length (appendInt x w) = w.
Proof.
  intros Hw Hx. unfold appendInt. rewrite bool_decide_false by lia.
  apply length_zero_pad. rewrite pretty_nonneg by lia. unfold pretty, pretty_N.
  case_decide; [simpl; lia|]. etrans; [apply (length_pretty_go w)|simpl; lia].
  apply N2Z.inj_lt. rewrite N2Z.inj_pow, Z2N.id, nat_N_Z by lia. simpl. lia.
Qed.

(** Fixed-width fields of non-negative numbers determine the number. *)
Lemma appendInt_inj x y w :
  (0 ≤ x)%Z → (0 ≤ y)%Z → appendInt x w = appendInt y w → x = y.
Proof. intros Hx Hy H%(f_equal (undec 0)). by rewrite !undec_appendInt in H. Qed.

(** The decimal digits contain no other byte. *)
Lemma pretty_N_go_has_byte c x s :
  (∀ d, pretty_N_char d ≠ c) → has_byte c s = false → has_byte c (pretty_N_go x s) = false.
Proof.
  intros Hc. revert s. induction (N.lt_wf_0 x) as [x _ IH]; intros s Hs.
  destruct (decide (x = 0)%N) as [->|]; [by rewrite pretty_N_go_0|].
  rewrite pretty_N_go_step by lia. apply IH; [apply N.div_lt; lia|].
  simpl. by rewrite bool_decide_false by apply Hc.
Qed.
Lemma pretty_pos_has_byte c (p : positive) :
  (∀ d, pretty_N_char d ≠ c) → has_byte c (pretty (Npos p)) = false.
Proof.
  intros Hc. unfold pretty, pretty_N. rewrite decide_False by done.
  by apply pretty_N_go_has_byte.
Qed.
Lemma pretty_Z_has_byte c (z : Z) :
  (∀ d, pretty_N_char d ≠ c) → c ≠ "-"%char → has_byte c (pretty z) = false.
Proof.
  intros Hc Hm. destruct z as [|p|p].
  - change (has_byte c "0" = false). simpl. rewrite bool_decide_false; [done|apply (Hc 0%N)].
  - by apply pretty_pos_has_byte.
  - change (has_byte c (String "-" (pretty (Npos p))) = false). simpl.
    rewrite bool_decide_false by congruence. by apply pretty_pos_has_byte.
Qed.
