(* ===== verification/GoTime.v ===== *)
(** * Go's int64 and the parts of package [time] the service uses

    A [time.Time] is its instant: nanoseconds since the Unix epoch.  Every
    instant of the program comes from a clock, a JWT or [time.UnixMilli], all
    far inside the range where Go's (seconds, nanoseconds) pair is exact, and
    [UTC()] strips the monotonic reading, so [Sub] compares wall clocks. *)
From S2P Require Import Prelude GoStrings.
#[local] Open Scope Z_scope.

(** ** int64 *)

Definition int64_min : Z := - 2 ^ 63.
Definition int64_max : Z := 2 ^ 63 - 1.
Definition in_int64 (z : Z) : Prop := int64_min ≤ z ≤ int64_max.
#[export] Instance in_int64_dec z : Decision (in_int64 z).
Proof. unfold in_int64. apply _. Defined.

(** Two's complement wrap-around of an int64 operation's exact result. *)
Definition wrap64 (z : Z) : Z := (z + 2 ^ 63) `mod` 2 ^ 64 - 2 ^ 63.

Definition add64 (a b : Z) : Z := wrap64 (a + b).
Definition sub64 (a b : Z) : Z := wrap64 (a - b).

Lemma wrap64_range z : in_int64 (wrap64 z).
Proof.
  unfold in_int64, int64_min, int64_max, wrap64.
  pose proof (Z.mod_pos_bound (z + 2 ^ 63) (2 ^ 64)). lia.
Qed.
Lemma wrap64_id z : in_int64 z → wrap64 z = z.
Proof.
  unfold in_int64, int64_min, int64_max, wrap64. intros.
  rewrite Z.mod_small by lia. lia.
Qed.
Lemma wrap64_mod z : wrap64 z `mod` 2 ^ 64 = z `mod` 2 ^ 64.
Proof.
  unfold wrap64. rewrite Zminus_mod_idemp_l. f_equal. lia.
Qed.
#[export] Hint Resolve wrap64_range : et.

(** ** time.Duration: int64 nanoseconds *)

Definition Nanosecond : Z := 1.
Definition Millisecond : Z := 1000000.
Definition Second : Z := 1000000000.
Definition Minute : Z := 60 * Second.
Definition Hour : Z := 60 * Minute.

Definition Milliseconds (d : Z) : Z := Z.quot d Millisecond.

(** [int(d.Seconds())].  [Seconds] is the float64 [sec + nsec/1e9]; with
    [|sec| < 2^23] the sum is exact to 2^-29 s, so truncating it gives the whole
    seconds.  Every duration the service converts is at most 48 hours. *)
Definition SecondsInt (d : Z) : Z := Z.quot d Second.

(** ** time.Time *)

Definition Time : Type := Z.

(** The zero [time.Time]: January 1, year 1, 00:00:00 UTC. *)
Definition zeroTime : Time := - 62135596800 * Second.

(** [time.UnixMilli(ms)] and [t.UnixMilli()] *)
Definition FromUnixMilli (ms : Z) : Time := ms * Millisecond.
Definition UnixMilli (t : Time) : Z := wrap64 (t `div` Millisecond).

(** [t.Unix()] *)
Definition Unix (t : Time) : Z := wrap64 (t `div` Second).

Definition Add (t : Time) (d : Z) : Time := t + d.

(** [t.Sub(u)]: the difference, saturating at the ends of [Duration]. *)
Definition Sub (t u : Time) : Z := int64_min `max` (int64_max `min` (t - u)).

Definition After (t u : Time) : bool := bool_decide (u < t).
Definition Before (t u : Time) : bool := bool_decide (t < u).

(** [t.Truncate(d)] rounds down to a multiple of [d] since the zero time. *)
Definition Truncate (t : Time) (d : Z) : Time := t - (t - zeroTime) `mod` d.

Lemma Sub_in_range t u : in_int64 (Sub t u).
Proof. unfold in_int64, Sub, int64_min, int64_max. lia. Qed.

(** Saturation is invisible to a comparison with a representable bound. *)
Lemma Sub_gt t u d : int64_min ≤ d < int64_max → Sub t u > d ↔ t - u > d.
Proof. unfold Sub, int64_min, int64_max. lia. Qed.
Lemma Sub_ge t u d : int64_min < d ≤ int64_max → Sub t u >= d ↔ t - u >= d.
Proof. unfold Sub, int64_min, int64_max. lia. Qed.
Lemma Sub_exact t u : in_int64 (t - u) → Sub t u = t - u.
Proof. unfold in_int64, Sub. lia. Qed.

Lemma UnixMilli_FromUnixMilli ms : in_int64 ms → UnixMilli (FromUnixMilli ms) = ms.
Proof.
  intros. unfold UnixMilli, FromUnixMilli, Millisecond.
  rewrite Z.div_mul by lia. by apply wrap64_id.
Qed.

(** ** Calendar: the proleptic Gregorian date of an instant *)

Definition Day : Z := 24 * Hour.

(** Days since the Unix epoch. *)
Definition unix_day (t : Time) : Z := t `div` Day.

(** Year, month and day of a day of a 400-year era.  Eras start on March 1, so
    the leap day is the last day of its year, century and era: 36524 days are a
    century, 1461 four years, and the last century and the last year of a
    period may be one day longer. *)
Definition civil_of_doe (doe : Z) : Z * Z * Z :=
  let century := 3 `min` (doe `div` 36524) in
  let doc := doe - century * 36524 in
  let quad := doc `div` 1461 in
  let doq := doc - quad * 1461 in
  let year := 3 `min` (doq `div` 365) in
  let doy := doq - year * 365 in
  let mp := (5 * doy + 2) `div` 153 in
  let d := doy - (153 * mp + 2) `div` 5 + 1 in
  let m := if bool_decide (mp < 10) then mp + 3 else mp - 9 in
  (century * 100 + quad * 4 + year + (if bool_decide (m ≤ 2) then 1 else 0), m, d).

Definition civil_of_days (z : Z) : Z * Z * Z :=
  let z' := z + 719468 in
  let '(y, m, d) := civil_of_doe (z' `mod` 146097) in
  (y + 400 * (z' `div` 146097), m, d).

Definition days_of_civil (y m d : Z) : Z :=
  let y' := if bool_decide (m ≤ 2) then y - 1 else y in
  let era := y' `div` 400 in
  let yoe := y' `mod` 400 in
  let mp := if bool_decide (m > 2) then m - 3 else m + 9 in
  let doy := (153 * mp + 2) `div` 5 + d - 1 in
  let doe := yoe * 365 + yoe `div` 4 - yoe `div` 100 + doy in
  era * 146097 + doe - 719468.

(** [time.Date(y, m, d, h, mi, s, ns, time.UTC)] *)
Definition Date (y m d h mi s ns : Z) : Time :=
  days_of_civil y m d * Day + h * Hour + mi * Minute + s * Second + ns.

(** [t.Format("2006-01-02")] *)
Definition FormatDate (t : Time) : string :=
  let '(y, m, d) := civil_of_days (unix_day t) in
  appendInt y 4 +:+ "-" +:+ appendInt m 2 +:+ "-" +:+ appendInt d 2.

Example Date_epoch : Date 1970 1 1 0 0 0 0 = 0.
Proof. reflexivity. Qed.
Example FormatDate_ex : FormatDate (Date 2026 8 2 10 0 0 0) = "2026-08-02".
Proof. reflexivity. Qed.
Example FormatDate_leap : FormatDate (Date 2024 2 29 23 59 59 0) = "2024-02-29".
Proof. reflexivity. Qed.

(** Within an era the date determines the day. *)
Lemma doe_roundtrip doe :
  0 ≤ doe < 146097 →
  let '(y, m, d) := civil_of_doe doe in
  days_of_civil y m d + 719468 = doe ∧ 1 ≤ m ≤ 12 ∧ 1 ≤ d ≤ 31.
Proof.
  intros Hd. unfold civil_of_doe.
  set (c := 3 `min` (doe `div` 36524)). set (doc := doe - c * 36524).
  set (q := doc `div` 1461). set (doq := doc - q * 1461).
  set (a := 3 `min` (doq `div` 365)). set (doy := doq - a * 365).
  assert (0 ≤ c ≤ 3 ∧ 0 ≤ doc ≤ 36524) as [Hc Hdoc] by (unfold doc, c; divlia).
  assert (0 ≤ q ≤ 24 ∧ 0 ≤ doq ≤ 1460) as [Hq Hdoq]
    by (unfold doq, q; clearbody doc; divlia).
  assert (0 ≤ a ≤ 3 ∧ 0 ≤ doy ≤ 365) as [Ha Hdoy]
    by (unfold doy, a; clearbody doq; divlia).
  assert (doe = c * 36524 + doc) as Edoc by (unfold doc; lia).
  assert (doc = q * 1461 + doq) as Edoq by (unfold doq; lia).
  assert (doq = a * 365 + doy) as Edoy by (unfold doy; lia).
  clearbody doy a doq q doc c.
  set (mp := (5 * doy + 2) `div` 153).
  assert (0 ≤ mp ≤ 11 ∧ 153 * mp ≤ 5 * doy + 2 < 153 * mp + 153) as [Hmp Hmp']
    by (unfold mp; divlia).
  clearbody mp. unfold days_of_civil. set (y := c * 100 + q * 4 + a).
  assert (y `div` 400 = 0 ∧ y `mod` 400 = y ∧ y `div` 4 = c * 25 + q ∧ y `div` 100 = c)
    as (E1 & E2 & E3 & E4) by (unfold y; divlia).
  assert (0 ≤ doy - (153 * mp + 2) `div` 5 ≤ 30) as Hday by divlia.
  assert (doe = y * 365 + (c * 25 + q) - c + doy) as Edoe by (unfold y; lia).
  assert (y + 1 - 1 = y) as Ey by lia. assert (y + 0 = y) as Ey' by lia.
  assert (mp - 9 + 9 = mp) as Emp by lia. assert (mp + 3 - 3 = mp) as Emp' by lia.
  clearbody y. repeat case_bool_decide; try lia;
    rewrite ?Ey, ?Ey', ?Emp, ?Emp', E2, E1, E3, E4; lia.
Qed.

Lemma days_of_civil_era y m d k :
  days_of_civil (y + 400 * k) m d = days_of_civil y m d + 146097 * k.
Proof.
  unfold days_of_civil. case_bool_decide.
  - replace (y + 400 * k - 1) with (y - 1 + k * 400) by lia.
    rewrite Z.div_add, Z.mod_add by lia. lia.
  - replace (y + 400 * k) with (y + k * 400) by lia.
    rewrite Z.div_add, Z.mod_add by lia. lia.
Qed.

(** The calendar loses no day. *)
Lemma civil_roundtrip z :
  let '(y, m, d) := civil_of_days z in
  days_of_civil y m d = z ∧ 1 ≤ m ≤ 12 ∧ 1 ≤ d ≤ 31.
Proof.
  unfold civil_of_days.
  pose proof (Z.mod_pos_bound (z + 719468) 146097 ltac:(lia)) as Hb.
  pose proof (doe_roundtrip _ Hb) as H.
  destruct (civil_of_doe _) as [[y m] d].
  rewrite days_of_civil_era. pose proof (Z.div_mod (z + 719468) 146097). lia.
Qed.

Definition year_of (t : Time) : Z := (civil_of_days (unix_day t)).1.1.

(** Two instants of years 0 to 9999 print the same date exactly when they are
    on the same UTC day. *)
Lemma FormatDate_inj t u :
  0 ≤ year_of t < 10000 → 0 ≤ year_of u < 10000 →
  FormatDate t = FormatDate u ↔ unix_day t = unix_day u.
Proof.
  unfold year_of, FormatDate. intros Ht Hu.
  split; [|by intros ->].
  pose proof (civil_roundtrip (unix_day t)) as Rt.
  pose proof (civil_roundtrip (unix_day u)) as Ru.
  destruct (civil_of_days (unix_day t)) as [[y m] d],
    (civil_of_days (unix_day u)) as [[y' m'] d']. simpl in *.
  intros H. apply app_split_string in H as [Hy H];
    [|rewrite !length_appendInt; [done|lia..]].
  apply appendInt_inj in Hy; [|lia..]. apply (inj (String.append "-")) in H.
  apply app_split_string in H as [Hm H]; [|rewrite !length_appendInt; [done|lia..]].
  apply appendInt_inj in Hm; [|lia..]. apply (inj (String.append "-")) in H.
  apply appendInt_inj in H; [|lia..]. simplify_eq. lia.
Qed.

Lemma length_FormatDate t :
  0 ≤ year_of t < 10000 → String.length (FormatDate t) = 10%nat.
Proof.
  unfold year_of, FormatDate. intros Ht.
  pose proof (civil_roundtrip (unix_day t)) as Rt.
  destruct (civil_of_days (unix_day t)) as [[y m] d]. simpl in *.
  rewrite !length_app_string, !length_appendInt; [done|lia..].
Qed.

(** Truncating to 24 hours is rounding down to midnight UTC. *)
Lemma Truncate_day t : Truncate t Day = unix_day t * Day.
Proof.
  unfold Truncate, unix_day, zeroTime.
  replace (t - -62135596800 * Second) with (t + 719162 * Day)
    by (unfold Day, Hour, Minute, Second; lia).
  rewrite Z.mod_add by (unfold Day, Hour, Minute, Second; lia).
  pose proof (Z.div_mod t Day). unfold Day, Hour, Minute, Second in *. lia.
Qed.

Lemma unix_day_bounds t : unix_day t * Day ≤ t < unix_day t * Day + Day.
Proof.
  unfold unix_day. pose proof (Z.div_mod t Day ltac:(done)).
  pose proof (Z.mod_pos_bound t Day ltac:(done)). lia.
Qed.

(** The years 0 to 9999 fit every counter of the package. *)
Lemma civil_of_doe_year doe :
  0 ≤ doe < 146097 → 0 ≤ (civil_of_doe doe).1.1 ≤ 404.
Proof.
  intros Hd. unfold civil_of_doe. simpl.
  assert (0 ≤ doe `div` 36524 ≤ 4 ∧ 0 ≤ doe - doe `div` 36524 * 36524 ≤ 36523) as [Hq Hr] by divlia.
  assert (0 ≤ 3 `min` (doe `div` 36524) ≤ 3) by lia.
  assert (0 ≤ doe - 3 `min` (doe `div` 36524) * 36524 ≤ 36524) by lia.
  set (doc := doe - 3 `min` (doe `div` 36524) * 36524) in *. clearbody doc.
  assert (0 ≤ doc `div` 1461 ≤ 25) by divlia.
  assert (0 ≤ doc - doc `div` 1461 * 1461) by divlia.
  set (doq := doc - doc `div` 1461 * 1461) in *. clearbody doq.
  assert (0 ≤ 3 `min` (doq `div` 365) ≤ 3) by divlia.
  case_match; lia.
Qed.

Lemma year_bounds t : 0 ≤ year_of t < 10000 → - 1100000 * Day ≤ t < 3700000 * Day.
Proof.
  unfold year_of, civil_of_days. intros Hy. pose proof (unix_day_bounds t) as Hb.
  set (z := unix_day t + 719468) in *.
  pose proof (Z.mod_pos_bound z 146097 ltac:(lia)) as Hm.
  pose proof (civil_of_doe_year _ Hm) as Hc.
  destruct (civil_of_doe (z `mod` 146097)) as [[y m] d]. simpl in *.
  pose proof (Z.div_mod z 146097 ltac:(lia)).
  assert (-2 ≤ z `div` 146097 ≤ 24) by lia.
  unfold Day, Hour, Minute, Second in *. lia.
Qed.

Lemma Unix_year t : 0 ≤ year_of t < 10000 → Unix t = t `div` Second.
Proof.
  intros Hy%year_bounds. unfold Unix. apply wrap64_id.
  unfold in_int64, int64_min, int64_max, Day, Hour, Minute, Second in *. divlia.
Qed.
