(* ===== verification/Prog.v ===== *)
(** * Effectful Go code as programs of atomic calls

    A handler is a [Prog E A]: a finite tree of calls to the services it uses
    (an effect [e : E X] answered by a value of [X]), ending in a result of
    [A].  The trees are inductive, so a handler always returns.  Each call is
    one atomic step on the shared world; what a call may answer and do is a
    relation [semantics], so faults and lost replies are ordinary answers.
    Requests running at the same time are a pool whose calls interleave. *)
From S2P Require Import Prelude.

(** ** Programs *)

Inductive Prog (E : Type → Type) (A : Type) : Type :=
| Ret (a : A)
| Call {X : Type} (e : E X) (k : X → Prog E A).
Arguments Ret {E A} a.
Arguments Call {E A X} e k.

(** An effect signature [E] is offered by a larger one [F]. *)
Class SubEffect (E F : Type → Type) := inject : ∀ {X}, E X → F X.
#[export] Hint Mode SubEffect ! ! : typeclass_instances.
#[export] Instance sub_effect_refl E : SubEffect E E | 100 := λ X e, e.

Definition call {E F} `{!SubEffect E F} {X} (e : E X) : Prog F X := Call (inject e) Ret.

#[export] Instance Prog_ret E : MRet (Prog E) := λ A a, Ret a.
#[export] Instance Prog_bind E : MBind (Prog E) :=
  λ A B f, fix go p :=
    match p with
    | Ret a => f a
    | Call e k => Call e (λ x, go (k x))
    end.

Lemma bind_Ret {E A B} (a : A) (f : A → Prog E B) : mbind f (Ret a) = f a.
Proof. done. Qed.
Lemma bind_Call {E A B X} (e : E X) (k : X → Prog E A) (f : A → Prog E B) :
  mbind f (Call e k) = Call e (λ x, mbind f (k x)).
Proof. done. Qed.
Lemma bind_call {E F A} `{!SubEffect E F} {X} (e : E X) (f : X → Prog F A) :
  mbind f (call e) = Call (inject e) f.
Proof. done. Qed.
Arguments mbind : simpl never.

(** Sequencing with an error exit: the [if err != nil { return ..., err }] of a
    call made for its value. *)
Definition try {F E A B} (p : Prog F (result E A)) (f : A → Prog F (result E B)) :
    Prog F (result E B) :=
  r ← p; match r with Ok a => f a | Err e => Ret (Err e) end.

(** ** Traces and semantics *)

(** One call and its answer. *)
Record event (E : Type → Type) := Ev { ev_type : Type; ev_call : E ev_type; ev_answer : ev_type }.
Arguments Ev {E ev_type} ev_call ev_answer.
Arguments ev_type {E} _.
Arguments ev_call {E} _.
Arguments ev_answer {E} _.

(** Which answers a call may get, and how it moves the world [W]. *)
Definition semantics (E : Type → Type) (W : Type) := ∀ X, E X → W → X → W → Prop.

(** The semantics that promises nothing: any answer at all.  A property proved
    under it holds whatever the services do, under any interleaving. *)
Definition any_env {E} : semantics E unit := λ X e w x w', True.
(** The semantics that only promises answers in [R]. *)
Definition rely {E} (R : ∀ X, E X → X → Prop) : semantics E unit := λ X e w x w', R X e x.

Section semantics.
Context {E : Type → Type} {W : Type} (H : semantics E W).

(** [exec p w tr a w']: [p] may run from [w] to [w'], calling [tr], with
    result [a]. *)
Fixpoint exec {A} (p : Prog E A) (w : W) (tr : list (event E)) (a : A) (w' : W) : Prop :=
  match p with
  | Ret x => tr = [] ∧ a = x ∧ w' = w
  | Call e k => ∃ x w1 tr', H _ e w x w1 ∧ tr = Ev e x :: tr' ∧ exec (k x) w1 tr' a w'
  end.

(** Weakest precondition of a postcondition on trace, result and world. *)
Fixpoint wp {A} (p : Prog E A) (Q : list (event E) → A → W → Prop) (w : W) : Prop :=
  match p with
  | Ret a => Q [] a w
  | Call e k => ∀ x w', H _ e w x w' → wp (k x) (λ tr, Q (Ev e x :: tr)) w'
  end.

Lemma wp_exec {A} (p : Prog E A) Q w :
  wp p Q w ↔ ∀ tr a w', exec p w tr a w' → Q tr a w'.
Proof.
  revert Q w. induction p as [a|X e k IH]; intros Q w; simpl.
  - naive_solver.
  - split.
    + intros Hk tr a w' (x & w1 & tr' & Hx & -> & Hexec).
      by eapply (IH x (λ tr, Q (Ev e x :: tr))); eauto.
    + intros Hk x w' Hx. apply IH. intros tr a w'' Hexec.
      apply Hk. eauto 10.
Qed.

Lemma wp_mono {A} (p : Prog E A) (Q Q' : list (event E) → A → W → Prop) w :
  (∀ tr a w', Q tr a w' → Q' tr a w') → wp p Q w → wp p Q' w.
Proof. rewrite !wp_exec. naive_solver. Qed.

Lemma wp_bind {A B} (p : Prog E A) (f : A → Prog E B) Q w :
  wp p (λ tr a, wp (f a) (λ tr', Q (tr ++ tr'))) w → wp (mbind f p) Q w.
Proof.
  revert Q w. induction p as [a|X e k IH]; intros Q w; simpl; [done|].
  intros Hk x w' Hx. apply IH. by apply Hk.
Qed.

Lemma wp_call {A X} (e : E X) (k : X → Prog E A) Q w :
  (∀ x w', H _ e w x w' → wp (k x) (λ tr, Q (Ev e x :: tr)) w') → wp (Call e k) Q w.
Proof. done. Qed.

Lemma exec_bind {A B} (p : Prog E A) (f : A → Prog E B) w tr b w' :
  exec (mbind f p) w tr b w' ↔
  ∃ tr1 a w1 tr2, exec p w tr1 a w1 ∧ exec (f a) w1 tr2 b w' ∧ tr = tr1 ++ tr2.
Proof.
  revert w tr. induction p as [a|X e k IH]; intros w tr; simpl.
  - split; [intros; by exists [], a, w, tr|].
    by intros (? & ? & ? & ? & (-> & -> & ->) & ? & ->).
  - split.
    + intros (x & w1 & tr' & Hx & -> & Hk%IH).
      destruct Hk as (tr1 & a & w2 & tr2 & ? & ? & ->).
      exists (Ev e x :: tr1), a, w2, tr2. naive_solver.
    + intros (? & a & w1 & tr2 & (x & w2 & tr1 & Hx & -> & Hk) & Hf & ->).
      exists x, w2, (tr1 ++ tr2). split_and!; [done..|]. apply IH. eauto 10.
Qed.

(** A semantics that can always answer never blocks a program. *)
Lemma exec_total {A} (p : Prog E A) w :
  (∀ X (e : E X) w, ∃ x w', H _ e w x w') → ∃ tr a w', exec p w tr a w'.
Proof.
  intros Htot. revert w. induction p as [a|X e k IH]; intros w; simpl.
  - by exists [], a, w.
  - destruct (Htot X e w) as (x & w1 & Hx).
    destruct (IH x w1) as (tr & a & w' & ?). eauto 10.
Qed.
End semantics.

(** A run under any semantics is a run in an arbitrary environment. *)
Lemma exec_any {E W A} (H : semantics E W) (p : Prog E A) w tr a w' :
  exec H p w tr a w' → exec any_env p tt tr a tt.
Proof.
  revert w tr. induction p as [x|X e k IH]; intros w tr; simpl.
  - naive_solver.
  - intros (x & w1 & tr' & _ & -> & Hk). exists x, tt, tr'. unfold any_env. eauto.
Qed.

Lemma exec_rely {E A} (R : ∀ X, E X → X → Prop) (p : Prog E A) tr a :
  exec (rely R) p tt tr a tt → Forall (λ ev, R _ ev.(ev_call) ev.(ev_answer)) tr.
Proof.
  revert tr. induction p as [x|X e k IH]; intros tr; simpl; [by intros (-> & _); constructor|].
  intros (x & [] & tr' & Hx & -> & Hk). constructor; [done|by eapply IH].
Qed.

(** Running against a deterministic world, for examples and witnesses. *)
Fixpoint run {E W A} (h : ∀ X, E X → W → X * W) (p : Prog E A) (w : W) :
    list (event E) * A * W :=
  match p with
  | Ret a => ([], a, w)
  | Call e k =>
      let '(x, w1) := h _ e w in
      let '(tr, a, w') := run h (k x) w1 in
      (Ev e x :: tr, a, w')
  end.

Definition det {E W} (h : ∀ X, E X → W → X * W) : semantics E W :=
  λ X e w x w', h X e w = (x, w').

Lemma run_exec {E W A} (h : ∀ X, E X → W → X * W) (p : Prog E A) w :
  exec (det h) p w (run h p w).1.1 (run h p w).1.2 (run h p w).2.
Proof.
  revert w. induction p as [a|X e k IH]; intros w; simpl; [done|].
  destruct (h X e w) as [x w1] eqn:Hx. specialize (IH x w1).
  destruct (run h (k x) w1) as [[tr a] w']. simpl in *.
  exists x, w1, tr. done.
Qed.

Lemma run_exec_any {E W A} (h : ∀ X, E X → W → X * W) (p : Prog E A) w tr a w' :
  run h p w = (tr, a, w') → exec any_env p tt tr a tt.
Proof.
  intros Hrun. eapply exec_any. pose proof (run_exec h p w) as H.
  rewrite Hrun in H. exact H.
Qed.

(** Such a run is one of a richer semantics, if its events and worlds allow it. *)
Lemma det_exec {E W A} (h : ∀ X, E X → W → X * W) (H : semantics E W) (P : event E → bool) (I : W → Prop)
    (p : Prog E A) w tr a w' :
  (∀ X (e : E X) w x w', I w → h X e w = (x, w') → P (Ev e x) = true → H X e w x w' ∧ I w') →
  run h p w = (tr, a, w') → forallb P tr = true → I w → exec H p w tr a w' ∧ I w'.
Proof.
  intros Hh. revert w tr. induction p as [y|X e k IH]; intros w tr; simpl.
  - by intros [= <- <- <-].
  - destruct (h X e w) as [x w1] eqn:Hx. destruct (run h (k x) w1) as [[tr1 a1] w2] eqn:Hk.
    intros [= <- -> ->] [Hp Htr]%andb_true_iff Hw.
    destruct (Hh _ _ _ _ _ Hw Hx Hp) as [HH Hw1]. destruct (IH x w1 tr1 Hk Htr Hw1) as [Hex Hi].
    split; [|done]. by exists x, w1, tr1.
Qed.

(** What every call of a run may answer. *)
Lemma exec_answers {E W A} (H : semantics E W) (R : event E → Prop) (p : Prog E A) w tr a w' :
  (∀ X (e : E X) w x w', H X e w x w' → R (Ev e x)) → exec H p w tr a w' → Forall R tr.
Proof.
  intros HR. revert w tr. induction p as [b|X e k IH]; intros w tr; simpl; [by intros (-> & _)|].
  intros (x & w1 & tr' & Hx & -> & Hk). constructor; [by eapply HR|by eapply IH].
Qed.

(** ** Equal programs: the same calls and answers, pointwise *)

Inductive prog_eq {E A} : Equiv (Prog E A) :=
| prog_eq_ret a : Ret a ≡ Ret a
| prog_eq_call X (e : E X) k k' : (∀ x, k x ≡ k' x) → Call e k ≡ Call e k'.
#[export] Existing Instance prog_eq.

#[export] Instance prog_eq_refl {E A} : Reflexive (≡@{Prog E A}).
Proof. intros p. induction p; by constructor. Qed.
#[export] Instance prog_eq_sym {E A} : Symmetric (≡@{Prog E A}).
Proof. induction 1; by constructor. Qed.

(** Equal programs have the same runs. *)
Lemma prog_eq_exec {E W A} (H : semantics E W) (p q : Prog E A) w tr a w' :
  p ≡ q → exec H p w tr a w' ↔ exec H q w tr a w'.
Proof.
  intros Hpq. revert w tr. induction Hpq as [|X e k k' _ IH]; intros w tr; [done|].
  simpl. by setoid_rewrite IH.
Qed.

#[export] Instance bind_proper {E A B} :
  Proper (pointwise_relation A (≡) ==> (≡) ==> (≡)) (mbind (M:=Prog E) (A:=A) (B:=B)).
Proof.
  intros f g Hfg p q Hpq. induction Hpq as [a|X e k k' _ IH].
  - rewrite !bind_Ret. apply Hfg.
  - rewrite !bind_Call. by constructor.
Qed.

Lemma bind_ret_r {E A} (p : Prog E A) : mbind Ret p ≡ p.
Proof.
  induction p as [a|X e k IH]; [by rewrite bind_Ret|].
  rewrite bind_Call. by constructor.
Qed.

Lemma bind_assoc {E A B C} (p : Prog E A) (f : A → Prog E B) (g : B → Prog E C) :
  mbind g (mbind f p) ≡ mbind (λ a, mbind g (f a)) p.
Proof.
  induction p as [a|X e k IH]; [by rewrite !bind_Ret|].
  rewrite !bind_Call. by constructor.
Qed.

(** ** Concurrent requests: interleaving of atomic calls *)

Section pool.
Context {E : Type → Type} {W A : Type} (H : semantics E W).

(** One call of one request of the pool. *)
Inductive pool_step : list (Prog E A) * W → nat * event E → list (Prog E A) * W → Prop :=
| pool_step_call ps w i X (e : E X) k x w' :
    ps !! i = Some (Call e k) → H X e w x w' →
    pool_step (ps, w) (i, Ev e x) (<[i := k x]> ps, w').

Inductive pool_run : list (Prog E A) * W → list (nat * event E) → list (Prog E A) * W → Prop :=
| pool_done c : pool_run c [] c
| pool_more c l c' ls c'' :
    pool_step c l c' → pool_run c' ls c'' → pool_run c (l :: ls) c''.

(** The calls of request [i]. *)
Definition calls_of (i : nat) (log : list (nat * event E)) : list (event E) :=
  (filter (λ l, l.1 = i) log).*2.

(** A state predicate every call preserves holds along any interleaving. *)
Lemma pool_invariant (I : W → Prop) c log c' :
  (∀ X (e : E X) w x w', I w → H X e w x w' → I w') →
  pool_run c log c' → I c.2 → I c'.2.
Proof.
  intros HI. induction 1 as [|? ? ? ? ? Hstep _ IH]; [done|]. intros Hc.
  apply IH. inversion Hstep; subst; simpl in *. eauto.
Qed.

Lemma pool_run_length c log c' : pool_run c log c' → length c'.1 = length c.1.
Proof.
  induction 1 as [|c l c1 ls c2 Hstep _ IH]; [done|]. rewrite IH.
  inversion Hstep; subst. simpl. by rewrite length_insert.
Qed.

(** What an event establishes, and every call keeps, holds at the end. *)
Lemma pool_event (Q : W → Prop) (P : event E → Prop) c log c' i ev :
  (∀ X (e : E X) w x w', H X e w x w' → P (Ev e x) → Q w') →
  (∀ X (e : E X) w x w', Q w → H X e w x w' → Q w') →
  pool_run c log c' → (i, ev) ∈ log → P ev → Q c'.2.
Proof.
  intros HP HQ. induction 1 as [c|c l c1 ls c2 Hstep Hrun IH]; intros Hin Hev;
    [by apply elem_of_nil in Hin|].
  apply elem_of_cons in Hin as [<-|Hin]; [|by apply IH].
  eapply pool_invariant; [exact HQ|exact Hrun|].
  inversion Hstep; subst. by eapply HP.
Qed.

(** Rely and guarantee: a program whose calls all satisfy [G] as long as the answers
    satisfy [R]. *)
Fixpoint guarantees (R : ∀ X, E X → X → Prop) (G : ∀ X, E X → Prop) (p : Prog E A) : Prop :=
  match p with
  | Ret _ => True
  | Call e k => G _ e ∧ ∀ x, R _ e x → guarantees R G (k x)
  end.

(** An invariant kept by the guaranteed calls is kept by a pool of such programs. *)
Lemma pool_rely_guarantee R G (I : W → Prop) c log c' :
  (∀ X (e : E X) w x w', I w → G X e → H X e w x w' → R X e x ∧ I w') →
  pool_run c log c' → Forall (guarantees R G) c.1 → I c.2 → I c'.2.
Proof.
  intros HI. induction 1 as [|c l c1 ls c2 Hstep _ IH]; [done|]. intros Hps Hc.
  inversion Hstep as [ps w i X e k x w' Hi Hx]; subst. simpl in *.
  pose proof Hps as Hp. rewrite Forall_lookup in Hp. destruct (Hp _ _ Hi) as [Hg Hk].
  destruct (HI _ _ _ _ _ Hc Hg Hx) as [Hr Hc'].
  apply IH; [|done]. apply Forall_insert; [done|]. by apply Hk.
Qed.

(** A potential: if every call pays for its cost, so does the whole run. *)
Definition total (f : event E → nat) (log : list (nat * event E)) : nat :=
  sum_list_with (λ l, f l.2) log.

Lemma pool_balance R G (I : W → nat) (cost gain : event E → nat) c log c' :
  (∀ X (e : E X) w x w', G X e → H X e w x w' →
     R X e x ∧ I w' + cost (Ev e x) ≤ I w + gain (Ev e x))%nat →
  pool_run c log c' → Forall (guarantees R G) c.1 →
  (I c'.2 + total cost log ≤ I c.2 + total gain log)%nat.
Proof.
  intros HI. unfold total. induction 1 as [|c l c1 ls c2 Hstep _ IH]; simpl; [lia|].
  intros Hps. inversion Hstep as [ps w i X e k x w' Hi Hx]; subst. simpl in *.
  pose proof Hps as Hp. rewrite Forall_lookup in Hp. destruct (Hp _ _ Hi) as [Hg Hk].
  destruct (HI _ _ _ _ _ Hg Hx) as [Hr Hpay].
  assert (Forall (guarantees R G) (<[i:=k x]> ps)) as Hps' by (apply Forall_insert; [done|by apply Hk]).
  specialize (IH Hps'). lia.
Qed.

(** Adding up a pool: what holds of each request's calls holds of all. *)
Lemma total_split (f : event E → nat) i log :
  total f log = (sum_list_with f (calls_of i log) + total f (filter (λ l, l.1 ≠ i) log))%nat.
Proof.
  unfold total, calls_of. induction log as [|[j ev] log IH]; [done|]. rewrite !filter_cons. simpl.
  rewrite IH. repeat case_decide; try done; rewrite ?fmap_cons; cbn [sum_list_with]; cbn [snd]; lia.
Qed.

Lemma calls_of_filter i j log :
  calls_of j (filter (λ l, l.1 ≠ i) log) = if decide (j = i) then [] else calls_of j log.
Proof.
  unfold calls_of. induction log as [|[k ev] log IH]; [by destruct (decide (j = i))|].
  rewrite !filter_cons. simpl. destruct (decide (j = i)) as [->|Hji].
  - destruct (decide (k ≠ i)) as [Hk|Hk]; [|done]. by rewrite filter_cons, decide_False.
  - destruct (decide (k ≠ i)) as [Hk|Hk].
    + rewrite filter_cons. simpl. destruct (decide (k = j)); [|done].
      rewrite !fmap_cons. by rewrite IH.
    + rewrite decide_False by (intros ->; naive_solver). done.
Qed.

Lemma total_by_request (f g : event E → nat) log :
  (∀ i, sum_list_with f (calls_of i log) ≤ sum_list_with g (calls_of i log))%nat →
  (total f log ≤ total g log)%nat.
Proof.
  remember (length log) as n eqn:Hn. revert log Hn.
  induction (Nat.lt_wf_0 n) as [n _ IH]. intros log -> Hi.
  destruct log as [|[i ev] log]; [done|]. rewrite (total_split f i), (total_split g i).
  specialize (Hi i) as Hii. assert (total f (filter (λ l, l.1 ≠ i) ((i, ev) :: log)) ≤
    total g (filter (λ l, l.1 ≠ i) ((i, ev) :: log)))%nat; [|lia].
  eapply IH; [|done|].
  - rewrite filter_cons, decide_False by naive_solver. simpl. apply Nat.lt_succ_r, length_filter.
  - intros j. rewrite calls_of_filter. destruct (decide (j = i)); [done|apply Hi].
Qed.

(** Two requests that each paid the same one-off cost. *)
Lemma total_two (f : event E → nat) log i j ev ev' :
  (i, ev) ∈ log → (j, ev') ∈ log → (0 < f ev)%nat → (0 < f ev')%nat → (total f log ≤ 1)%nat → i = j.
Proof.
  unfold total. induction log as [|[k e] log IH]; simpl; [by intros ?%elem_of_nil|].
  assert (∀ i ev, (i, ev) ∈ log → (f ev ≤ sum_list_with (λ l, f l.2) log)%nat) as Hle.
  { clear. induction log as [|[k e] log IH]; simpl; intros i ev; [by intros ?%elem_of_nil|].
    intros [[= <- <-]|Hin]%elem_of_cons; [lia|]. specialize (IH _ _ Hin). lia. }
  intros [[= -> ->]|Hi]%elem_of_cons [[= -> ->]|Hj]%elem_of_cons Hf Hf' Hsum; [done|..].
  - specialize (Hle _ _ Hj). lia.
  - specialize (Hle _ _ Hi). lia.
  - apply IH; [done..|lia].
Qed.

Lemma calls_of_elem i ev log : ev ∈ calls_of i log ↔ (i, ev) ∈ log.
Proof.
  unfold calls_of. rewrite list_elem_of_fmap. split.
  - intros ([j e] & -> & [Hj Hin]%list_elem_of_filter). simpl in *. by subst.
  - intros Hin. exists (i, ev). split; [done|]. by apply list_elem_of_filter.
Qed.

(** Whatever the others do in between, the calls of a request so far begin a run of
    its own program, among services that answer as the world's do. *)
Lemma pool_prefix (R : ∀ X, E X → X → Prop) ps w log ps' w' i p p' tr a :
  (∀ X (e : E X) w x w', H X e w x w' → R X e x) →
  pool_run (ps, w) log (ps', w') → ps !! i = Some p → ps' !! i = Some p' →
  exec (rely R) p' tt tr a tt → exec (rely R) p tt (calls_of i log ++ tr) a tt.
Proof.
  intros HR. remember (ps, w) as c eqn:Hc. remember (ps', w') as c' eqn:Hc'. intros Hrun.
  revert ps w Hc p. induction Hrun as [c|c l c1 ls c2 Hstep _ IH]; intros ps w -> p Hp Ha Htr.
  - by simplify_eq.
  - inversion Hstep as [ps0 w0 j X e k x w1 Hj Hx Hps Hl Hc1]. subst. simplify_eq.
    unfold calls_of. rewrite filter_cons. destruct (decide (j = i)) as [->|Hne].
    + rewrite decide_True by done. simplify_eq/=.
      exists x, tt, (calls_of i ls ++ tr). split_and!; [by eapply HR|done|].
      eapply IH; [done..|by apply list_lookup_insert_eq, lookup_lt_is_Some_1; eauto|done|done].
    + rewrite decide_False by done. eapply IH; [done..| |done|done].
      by rewrite list_lookup_insert_ne.
Qed.

(** The calls of a finished request are a run of its own program in an arbitrary
    environment. *)
Lemma pool_local ps w log ps' w' i p a :
  pool_run (ps, w) log (ps', w') →
  ps !! i = Some p → ps' !! i = Some (Ret a) →
  exec any_env p tt (calls_of i log) a tt.
Proof.
  intros Hrun Hp Ha. rewrite <-(app_nil_r (calls_of i log)).
  by apply (pool_prefix (λ _ _ _, True) _ _ _ _ _ _ _ _ _ _ (λ _ _ _ _ _ _, I) Hrun Hp Ha).
Qed.

Lemma pool_local_none ps w log ps' w' i :
  pool_run (ps, w) log (ps', w') → ps !! i = None → calls_of i log = [].
Proof.
  remember (ps, w) as c eqn:Hc. remember (ps', w') as c' eqn:Hc'. intros Hrun.
  revert ps w Hc. induction Hrun as [c|c l c1 ls c2 Hstep _ IH]; intros ps w -> Hi; [done|].
  inversion Hstep as [ps0 w0 j X e k x w1 Hj Hx Hps Hl Hc1]. subst. simplify_eq.
  unfold calls_of. rewrite filter_cons, decide_False by (simpl; congruence).
  eapply IH; [done..|]. by rewrite list_lookup_insert_ne by congruence.
Qed.

(** Every event of a run is an answer the world may give. *)
Lemma pool_answers (R : event E → Prop) c log c' :
  (∀ X (e : E X) w x w', H X e w x w' → R (Ev e x)) →
  pool_run c log c' → Forall (λ l, R l.2) log.
Proof.
  intros HR. induction 1 as [|c l c1 ls c2 Hstep _ IH]; constructor; [|done].
  inversion Hstep; subst. by eapply HR.
Qed.

Lemma pool_run_complete (R : ∀ X, E X → X → Prop) ps w log ps' w' i p :
  (∀ X (e : E X) w x w', H X e w x w' → R X e x) → (∀ X (e : E X), ∃ x, R X e x) →
  pool_run (ps, w) log (ps', w') → ps !! i = Some p →
  ∃ tr a, exec (rely R) p tt (calls_of i log ++ tr) a tt.
Proof.
  intros HR Hans Hrun Hp.
  assert (is_Some (ps' !! i)) as [p' Hp'].
  { apply lookup_lt_is_Some. pose proof (pool_run_length _ _ _ Hrun) as Hlen. simpl in Hlen.
    rewrite Hlen. by eapply lookup_lt_Some. }
  destruct (exec_total (rely R) p' tt) as (tr & a & [] & Htr).
  { intros X e []. destruct (Hans X e) as [x Hx]. by exists x, tt. }
  exists tr, a. by eapply pool_prefix.
Qed.

(** If in every run of every request what it costs is covered at each point by what it
    gained before, then so are the costs of the whole pool. *)
Lemma pool_covered (R : ∀ X, E X → X → Prop) (cost gain : event E → nat) ps w log ps' w' :
  (∀ X (e : E X) w x w', H X e w x w' → R X e x) → (∀ X (e : E X), ∃ x, R X e x) →
  (∀ i p pre post a, ps !! i = Some p → exec (rely R) p tt (pre ++ post) a tt →
     (sum_list_with cost pre ≤ sum_list_with gain pre)%nat) →
  pool_run (ps, w) log (ps', w') → (total cost log ≤ total gain log)%nat.
Proof.
  intros HR Hans Hcov Hrun. apply total_by_request. intros i.
  destruct (ps !! i) as [p|] eqn:Hp; [|by rewrite (pool_local_none _ _ _ _ _ _ Hrun Hp)].
  destruct (pool_run_complete R ps w log ps' w' i p HR Hans Hrun Hp) as (tr & a & Htr).
  by eapply Hcov.
Qed.

(** What holds of every call of every request holds of the pool's calls. *)
Lemma pool_every (R : ∀ X, E X → X → Prop) (P : event E → Prop) ps w log ps' w' :
  (∀ X (e : E X) w x w', H X e w x w' → R X e x) → (∀ X (e : E X), ∃ x, R X e x) →
  (∀ i p tr a, ps !! i = Some p → exec (rely R) p tt tr a tt → Forall P tr) →
  pool_run (ps, w) log (ps', w') → Forall (λ l, P l.2) log.
Proof.
  intros HR Hans HP Hrun. apply Forall_forall. intros [i ev] Hin%calls_of_elem. simpl.
  destruct (ps !! i) as [p|] eqn:Hp;
    [|rewrite (pool_local_none _ _ _ _ _ _ Hrun Hp) in Hin; by apply elem_of_nil in Hin].
  destruct (pool_run_complete R ps w log ps' w' i p HR Hans Hrun Hp) as (tr & a & Htr).
  specialize (HP _ _ _ _ Hp Htr). rewrite Forall_app, !Forall_forall in HP. destruct HP as [HP _]. by apply HP.
Qed.

(** Running one request of the pool to its end. *)
Lemma exec_pool ps i p w tr a w' :
  ps !! i = Some p → exec H p w tr a w' →
  pool_run (ps, w) (pair i <$> tr) (<[i := Ret a]> ps, w').
Proof.
  revert ps w tr. induction p as [x|X e k IH]; intros ps w tr Hi; simpl.
  - intros (-> & -> & ->). rewrite list_insert_id by done. apply pool_done.
  - intros (x & w1 & tr' & Hx & -> & Hexec). rewrite fmap_cons.
    eapply pool_more; [by eapply pool_step_call|].
    rewrite <-(list_insert_insert_eq ps i (Ret a) (k x)). apply (IH x); [|exact Hexec].
    apply list_lookup_insert_eq. by eapply lookup_lt_Some.
Qed.

Lemma pool_run_app c log c' log' c'' :
  pool_run c log c' → pool_run c' log' c'' → pool_run c (log ++ log') c''.
Proof. induction 1 as [|c l c1 ls c2 Hl _ IH]; [done|]. intros. eapply pool_more; eauto. Qed.

Lemma calls_of_own i tr : calls_of i (pair i <$> tr) = tr.
Proof.
  unfold calls_of. induction tr as [|ev tr IH]; [done|].
  rewrite fmap_cons, filter_cons, decide_True, fmap_cons by done. by rewrite IH.
Qed.
Lemma calls_of_other i j tr : i ≠ j → calls_of i (pair j <$> tr) = [].
Proof.
  intros Hne. unfold calls_of. induction tr as [|ev tr IH]; [done|].
  rewrite fmap_cons, filter_cons, decide_False by (simpl; congruence). exact IH.
Qed.
Lemma calls_of_app i log log' : calls_of i (log ++ log') = calls_of i log ++ calls_of i log'.
Proof. unfold calls_of. by rewrite filter_app, fmap_app. Qed.
End pool.

(** The steps of a pool, knowing an invariant. *)
Lemma pool_run_knowing {E W A} (H : semantics E W) (I : W → Prop) (c c' : list (Prog E A) * W) log :
  (∀ X (e : E X) w x w', I w → H X e w x w' → I w') →
  pool_run H c log c' → I c.2 → pool_run (λ X e w x w', H X e w x w' ∧ I w) c log c'.
Proof.
  intros HI. induction 1 as [|c l c1 ls c2 Hstep _ IH]; intros Hc; [constructor|].
  inversion Hstep; subst. simpl in *. eapply pool_more; [by constructor|]. apply IH. by eapply HI.
Qed.

(** A pool seen through a projection of its world. *)
Lemma pool_map {E W V A} (H : semantics E W) (H' : semantics E V) (f : W → V)
    (ps ps' : list (Prog E A)) w w' log :
  (∀ X (e : E X) w x w', H X e w x w' → H' X e (f w) x (f w')) →
  pool_run H (ps, w) log (ps', w') → pool_run H' (ps, f w) log (ps', f w').
Proof.
  intros HH. remember (ps, w) as c eqn:Hc. remember (ps', w') as c' eqn:Hc'. intros Hrun.
  revert ps w Hc. induction Hrun as [c|c l c1 ls c2 Hstep _ IH]; intros ps w ->.
  - simplify_eq. constructor.
  - inversion Hstep; subst. eapply pool_more; [constructor; [done|by apply HH]|]. by apply IH.
Qed.

(** ** Termination: every interleaving of a pool is finite *)

Section termination.
Context {E : Type → Type} {A : Type}.

Definition prog_child (p' p : Prog E A) : Prop := ∃ X (e : E X) k x, p = Call e k ∧ p' = k x.
Definition pool_child (ps' ps : list (Prog E A)) : Prop :=
  ∃ i p p', ps !! i = Some p ∧ prog_child p' p ∧ ps' = <[i:=p']> ps.

Lemma prog_child_acc p : Acc prog_child p.
Proof.
  induction p as [a|X e k IH]; constructor; intros p' (Y & e' & k' & x & Hp & ->); [done|].
  assert (∀ q q' : Prog E A, q = q' → ∀ Z (f : E Z) h, q' = Call f h →
    (match q with Ret _ => False | Call _ k => ∀ x, Acc prog_child (k x) end) →
    ∀ z, Acc prog_child (h z)) as Hinv by by intros q q' -> Z f h ->.
  by eapply (Hinv _ _ eq_refl _ _ _ Hp).
Qed.

Lemma pool_child_cons p ps :
  Acc prog_child p → Acc pool_child ps → Acc pool_child (p :: ps).
Proof.
  intros Hp. revert ps. induction Hp as [p _ IHp]. intros ps Hps. induction Hps as [ps Hps IHps].
  constructor. intros ps' ([|i] & q & q' & Hi & Hq & ->); simpl in *.
  - injection Hi as ->. apply IHp; [done|]. by constructor.
  - apply IHps. by exists i, q, q'.
Qed.

Lemma pool_child_acc ps : Acc pool_child ps.
Proof.
  induction ps as [|p ps IH]; [|by apply pool_child_cons; [apply prog_child_acc|]].
  constructor. by intros ps' (i & p & p' & [=] & _).
Qed.

Lemma pool_step_acc {W} (H : semantics E W) (c : list (Prog E A) * W) : Acc (λ c' c, ∃ l, pool_step H c l c') c.
Proof.
  destruct c as [ps w]. revert w. induction (pool_child_acc ps) as [ps _ IH]. intros w.
  constructor. intros c' [l Hstep]. inversion Hstep as [ps0 w0 i X e k x w' Hi Hx]; subst.
  apply IH. exists i, (Call e k), (k x). split_and!; [done| |done]. by exists X, e, k, x.
Qed.
End termination.

Lemma guarantees_bind {E A B} R G (p : Prog E A) (f : A → Prog E B) :
  guarantees R G p → (∀ a, guarantees R G (f a)) → guarantees R G (mbind f p).
Proof.
  induction p as [a|X e k IH]; intros Hp Hf; [apply Hf|].
  destruct Hp as [He Hk]. split; [done|]. intros x Hx. by apply IH; [apply Hk|].
Qed.

Lemma guarantees_trivial {E A} R (G : ∀ X, E X → Prop) (p : Prog E A) :
  (∀ X (e : E X), G X e) → guarantees R G p.
Proof. intros HG. induction p as [a|X e k IH]; [done|]. split; [apply HG|]. intros x _. apply IH. Qed.

Lemma exec_guarantees {E A} R (G : ∀ X, E X → Prop) (p : Prog E A) tr a :
  guarantees R G p → exec (rely R) p tt tr a tt → Forall (λ ev, G _ ev.(ev_call)) tr.
Proof.
  revert tr. induction p as [b|X e k IH]; intros tr Hp; [by intros (-> & _); constructor|].
  destruct Hp as [He Hk]. intros (x & [] & tr' & Hx & -> & H). constructor; [done|].
  by eapply IH; [apply Hk|].
Qed.

(** The steps of [try] that lead to a value. *)
Lemma try_exec {E A B X} (p : Prog E (result X A)) (f : A → Prog E (result X B)) tr b :
  exec any_env (try p f) tt tr (Ok b) tt →
  ∃ tr1 a tr2, exec any_env p tt tr1 (Ok a) tt ∧ exec any_env (f a) tt tr2 (Ok b) tt ∧ tr = tr1 ++ tr2.
Proof.
  unfold try. intros (tr1 & [a|e] & [] & tr2 & H1 & H2 & ->)%exec_bind; [by exists tr1, a, tr2|].
  by destruct H2 as (_ & [=] & _).
Qed.

Lemma exec_weaken {E W A} (H H' : semantics E W) (p : Prog E A) w tr a w' :
  (∀ X (e : E X) w x w', H X e w x w' → H' X e w x w') →
  exec H p w tr a w' → exec H' p w tr a w'.
Proof.
  intros HH. revert w tr. induction p as [x|X e k IH]; intros w tr; simpl; [done|].
  intros (x & w1 & tr' & ? & -> & ?). exists x, w1, tr'. eauto.
Qed.

(** The requests of a pool one after the other: the log, from request [n] on, the results
    and the last world. *)
Fixpoint log_after {E W A} (h : ∀ X, E X → W → X * W) (n : nat) (ps : list (Prog E A)) (w : W) :
    list (nat * event E) :=
  match ps with
  | [] => []
  | p :: ps => (pair n <$> (run h p w).1.1) ++ log_after h (S n) ps (run h p w).2
  end.
Fixpoint results_after {E W A} (h : ∀ X, E X → W → X * W) (ps : list (Prog E A)) (w : W) : list (Prog E A) :=
  match ps with
  | [] => []
  | p :: ps => Ret (run h p w).1.2 :: results_after h ps (run h p w).2
  end.
Fixpoint world_after {E W A} (h : ∀ X, E X → W → X * W) (ps : list (Prog E A)) (w : W) : W :=
  match ps with
  | [] => w
  | p :: ps => world_after h ps (run h p w).2
  end.

(** It is a run of the pool, if its events and worlds allow it. *)
Lemma det_pool_from {E W A} (h : ∀ X, E X → W → X * W) (H : semantics E W) (P : event E → bool) (I : W → Prop)
    (ended ps : list (Prog E A)) w :
  (∀ X (e : E X) w x w', I w → h X e w = (x, w') → P (Ev e x) = true → H X e w x w' ∧ I w') →
  forallb (λ l, P l.2) (log_after h (length ended) ps w) = true → I w →
  pool_run H (ended ++ ps, w) (log_after h (length ended) ps w)
    (ended ++ results_after h ps w, world_after h ps w).
Proof.
  intros Hh. revert ended w. induction ps as [|p ps IH]; intros ended w; simpl; [constructor|].
  rewrite forallb_app, andb_true_iff. intros [Htr Hlog] Hw.
  assert (forallb P (run h p w).1.1 = true) as Htr'.
  { clear -Htr. induction (run h p w).1.1 as [|ev tr IH]; [done|]. simpl in *.
    apply andb_true_iff in Htr as [-> Htr]. by apply IH. }
  destruct (det_exec h H P I p w (run h p w).1.1 (run h p w).1.2 (run h p w).2 Hh) as [Hexec Hw1];
    [by destruct (run h p w) as [[]]|done..|].
  eapply pool_run_app.
  - apply (exec_pool H _ (length ended) p); [by rewrite list_lookup_middle|exact Hexec].
  - rewrite insert_app_r_alt, Nat.sub_diag by done. simpl.
    specialize (IH (ended ++ [Ret (run h p w).1.2]) (run h p w).2).
    rewrite length_app, Nat.add_1_r in IH. simpl in IH. rewrite <-!(assoc_L (++)) in IH. by apply IH.
Qed.

Lemma det_pool {E W A} (h : ∀ X, E X → W → X * W) (H : semantics E W) (P : event E → bool) (I : W → Prop)
    (ps : list (Prog E A)) w :
  (∀ X (e : E X) w x w', I w → h X e w = (x, w') → P (Ev e x) = true → H X e w x w' ∧ I w') →
  forallb (λ l, P l.2) (log_after h 0 ps w) = true → I w →
  pool_run H (ps, w) (log_after h 0 ps w) (results_after h ps w, world_after h ps w).
Proof. intros Hh. by apply (det_pool_from h H P I []). Qed.

(** One call of a concrete interleaving. *)
Ltac pool_tick := eapply pool_more; [eapply pool_step_call; [reflexivity|] |].
(** ... that moves the world to [w]. *)
Tactic Notation "pool_tick" "to" uconstr(w) :=
  eapply (pool_more _ _ _ (_, w)); [eapply pool_step_call; [reflexivity|] |].
