(* ===== verification/Embed.v ===== *)
(** * Programs inside programs

    A program over the effects [E] run as a part of one over larger effects [F], and
    the projection of a pool of the latter to a pool of the former: what was proved of
    the part holds wherever it is used. *)
From S2P Require Import Prelude Prog.

(** The calls of [F] that are calls of [E]. *)
Class Part (E F : Type → Type) `{!SubEffect E F} := {
  part : ∀ X, F X → option (E X);
  part_inject X (e : E X) : part X (inject e) = Some e
}.
Arguments part {E F _ _ X} _.

Section lift.
Context {E F : Type → Type} `{!SubEffect E F}.

Fixpoint lift {A} (p : Prog E A) : Prog F A :=
  match p with
  | Ret a => Ret a
  | Call e k => Call (inject e) (λ x, lift (k x))
  end.

Definition lift_event (ev : event E) : event F := Ev (inject ev.(ev_call)) ev.(ev_answer).

Lemma lift_exec {A} (p : Prog E A) tr a :
  exec any_env (lift p) tt tr a tt ↔ ∃ tr0, tr = lift_event <$> tr0 ∧ exec any_env p tt tr0 a tt.
Proof.
  revert tr. induction p as [b|X e k IH]; intros tr; simpl.
  - split; [intros (-> & -> & _); by exists []|]. by intros (? & -> & -> & -> & _).
  - split.
    + intros (x & [] & tr' & _ & -> & (tr0 & -> & H)%IH). exists (Ev e x :: tr0).
      split; [done|]. by exists x, tt, tr0.
    + intros (? & -> & x & [] & tr0 & _ & -> & H). exists x, tt, (lift_event <$> tr0).
      split_and!; [done..|]. apply IH. by exists tr0.
Qed.

Lemma lift_guarantees {A} R G R' G' (p : Prog E A) :
  guarantees R G p → (∀ X (e : E X), G X e → G' X (inject e)) →
  (∀ X (e : E X) x, R' X (inject e) x → R X e x) → guarantees R' G' (lift p).
Proof.
  intros Hp HG HR. induction p as [a|X e k IH]; [done|]. destruct Hp as [He Hk].
  split; [by apply HG|]. intros x Hx. apply IH, Hk. by apply HR.
Qed.
End lift.

Section embed.
Context {E F : Type → Type} `{!SubEffect E F} `{P : !Part E F} {A : Type}.
(** Some calls of [F] are only made once the part ended in a good result. *)
Context (gate : ∀ X, F X → Prop) (good : A → Prop).

(** [runs_part q p Q]: the [E] calls of [q] are those of [p], in order; when [q] ends
    with [c], what is left of [p] satisfies [Q c]. *)
Fixpoint runs_part {C} (q : Prog F C) (p : Prog E A) (Q : C → Prog E A → Prop) : Prop :=
  match q with
  | Ret c => Q c p
  | @Call _ _ X f k =>
      (gate X f → ∃ a, p = Ret a ∧ good a) ∧
      match part f with
      | None => ∀ x, runs_part (k x) p Q
      | Some e => ∃ k', p = Call e k' ∧ ∀ x, runs_part (k x) (k' x) Q
      end
  end.

(** Programs that make neither calls of the part nor guarded ones. *)
Definition is_apart (X : Type) (f : F X) : Prop := ¬ gate X f ∧ part f = None.
Abbreviation apart := (guarantees (λ _ _ _, True) is_apart).

Lemma runs_part_bind {C D} (q : Prog F C) (f : C → Prog F D) p Q :
  runs_part q p (λ c p', runs_part (f c) p' Q) → runs_part (mbind f q) p Q.
Proof.
  revert p. induction q as [c|X g k IH]; intros p Hq; [exact Hq|]. rewrite bind_Call.
  destruct Hq as [Hg Hk]. split; [done|]. destruct (part g).
  - destruct Hk as (k' & -> & Hk). exists k'. split; [done|]. intros x. by apply IH.
  - intros x. by apply IH.
Qed.

Lemma runs_part_mono {C} (q : Prog F C) p (Q Q' : C → Prog E A → Prop) :
  (∀ c p, Q c p → Q' c p) → runs_part q p Q → runs_part q p Q'.
Proof.
  intros HQ. revert p. induction q as [c|X g k IH]; intros p Hq; [by apply HQ|].
  destruct Hq as [Hg Hk]. split; [done|]. destruct (part g).
  - destruct Hk as (k' & -> & Hk). exists k'. split; [done|]. intros x. by apply IH.
  - intros x. by apply IH.
Qed.

Lemma runs_part_apart {C} (q : Prog F C) p (Q : C → Prog E A → Prop) :
  apart q → (∀ c, Q c p) → runs_part q p Q.
Proof.
  intros Hq HQ. induction q as [c|X g k IH]; [apply HQ|]. destruct Hq as [[Hg Hn] Hk].
  split; [done|]. rewrite Hn. intros x. by apply IH, Hk.
Qed.

(** The part itself. *)
Lemma runs_part_lift (p : Prog E A) (Q : A → Prog E A → Prop) :
  (∀ X (e : E X), ¬ gate X (inject e)) → (∀ a, Q a (Ret a)) → runs_part (lift p) p Q.
Proof.
  intros Hgate HQ. induction p as [a|X e k IH]; [apply HQ|].
  split; [intros []%Hgate|]. rewrite part_inject. by exists k.
Qed.

(** ** Pools *)

Context {B W V : Type} (HF : semantics F W) (HE : semantics E V) (proj : W → V).
Context (Hproj : ∀ X (f : F X) w x w', HF X f w x w' →
  match part f with Some e => HE X e (proj w) x (proj w') | None => proj w' = proj w end).

Abbreviation within := (λ (q : Prog F B) p, runs_part q p (λ _ _, True)).

Lemma pool_part qs w log qs' w' ps :
  pool_run HF (qs, w) log (qs', w') → Forall2 within qs ps →
  ∃ log' ps', pool_run HE (ps, proj w) log' (ps', proj w') ∧ Forall2 within qs' ps' ∧
    (∀ i a, ps !! i = Some (Ret a) → ps' !! i = Some (Ret a)) ∧
    ∀ i ev, (i, ev) ∈ log → gate _ ev.(ev_call) → ∃ a, ps' !! i = Some (Ret a) ∧ good a.
Proof.
  remember (qs, w) as c eqn:Hc. remember (qs', w') as c' eqn:Hc'. intros Hrun.
  revert qs w Hc ps. induction Hrun as [c|c l c1 ls c2 Hstep _ IH]; intros qs w -> ps Hps.
  { simplify_eq. exists [], ps. split_and!; [constructor|done|done|]. by intros i ev ?%elem_of_nil. }
  inversion Hstep as [qs0 w0 i X f k x w1 Hi Hx]; subst.
  destruct (Forall2_lookup_l _ _ _ _ _ Hps Hi) as (p & Hp & [Hgate Hpart]).
  apply Hproj in Hx. destruct (part f) as [e|] eqn:Hf.
  - destruct Hpart as (k' & -> & Hk).
    destruct (IH eq_refl (<[i:=k x]> qs) w1 eq_refl (<[i:=k' x]> ps)) as (log' & ps' & Hr & Hps' & Hret & Hg).
    { by apply Forall2_insert. }
    exists ((i, Ev e x) :: log'), ps'. split_and!; [|done| |].
    + eapply pool_more; [|exact Hr]. by constructor.
    + intros j a Hj. apply Hret. rewrite list_lookup_insert_ne; [done|]. intros ->. congruence.
    + intros j ev [[= -> ->]|Hin]%elem_of_cons; [|by apply Hg].
      simpl. intros Hgx. by destruct (Hgate Hgx) as (a & [=] & _).
  - destruct (IH eq_refl (<[i:=k x]> qs) w1 eq_refl ps) as (log' & ps' & Hr & Hps' & Hret & Hg).
    { rewrite <-(list_insert_id ps i p) by done. by apply Forall2_insert. }
    rewrite Hx in Hr. exists log', ps'. split_and!; [done..|].
    intros j ev [[= -> ->]|Hin]%elem_of_cons; [|by apply Hg].
    simpl. intros Hgx. destruct (Hgate Hgx) as (a & -> & Ha). exists a. split; [|done]. by apply Hret.
Qed.
End embed.

(** ** Projections with slack

    The world of the part may also move between its calls, by steps it absorbs. *)
Section slack.
Context {E F : Type → Type} `{!SubEffect E F} `{P : !Part E F} {A B W V : Type}.
Context (HF : semantics F W) (HE : semantics E V) (proj : W → V) (G : ∀ X, F X → Prop).
Context (slack : V → V → Prop) `{!PreOrder slack}.
Context (Habsorb : ∀ X (e : E X) v v1 x v2, slack v v1 → HE X e v1 x v2 → HE X e v x v2).
Context (Hproj : ∀ X (f : F X) w x w', G X f → HF X f w x w' →
  match part f with Some e => HE X e (proj w) x (proj w') | None => slack (proj w) (proj w') end).
(** What is left of the [i]-th part when its program ends. *)
Context (Q : nat → B → Prog E A → Prop).

Abbreviation no_gate := (λ (X : Type) (_ : F X), False).
Abbreviation any_good := (λ _ : A, True).

Definition aligned (qs : list (Prog F B)) (ps : list (Prog E A)) : Prop :=
  length qs = length ps ∧
  ∀ i q p, qs !! i = Some q → ps !! i = Some p → runs_part no_gate any_good q p (Q i).

Definition part_event (l : nat * event F) : option (nat * event E) :=
  (λ e, (l.1, Ev e l.2.(ev_answer))) <$> part l.2.(ev_call).

Lemma aligned_insert qs ps i q p :
  aligned qs ps → runs_part no_gate any_good q p (Q i) → aligned (<[i:=q]> qs) (<[i:=p]> ps).
Proof.
  intros [Hlen Hal] Hqp. split; [by rewrite !length_insert|]. intros j q' p' Hq Hp.
  destruct (decide (j = i)) as [->|Hne].
  - apply list_lookup_insert_Some in Hq as [(_ & -> & _)|[? _]]; [|done].
    by apply list_lookup_insert_Some in Hp as [(_ & -> & _)|[? _]].
  - rewrite list_lookup_insert_ne in Hq by done. rewrite list_lookup_insert_ne in Hp by done.
    by eapply Hal.
Qed.

Lemma pool_part_slack qs w log qs' w' ps v :
  pool_run HF (qs, w) log (qs', w') → aligned qs ps →
  Forall (guarantees (λ _ _ _, True) G) qs → slack v (proj w) →
  ∃ ps' v', pool_run HE (ps, v) (omap part_event log) (ps', v') ∧ slack v' (proj w') ∧
    aligned qs' ps'.
Proof.
  remember (qs, w) as c eqn:Hc. remember (qs', w') as c' eqn:Hc'. intros Hrun.
  revert qs w Hc ps v. induction Hrun as [c|c l c1 ls c2 Hstep _ IH]; intros qs w -> ps v Hal Hg Hv.
  { simplify_eq. exists ps, v. split_and!; [constructor|done|done]. }
  inversion Hstep as [qs0 w0 i X f k x w1 Hi Hx]; subst.
  pose proof Hg as Hgi. rewrite Forall_lookup in Hgi. destruct (Hgi _ _ Hi) as [Hf Hk].
  assert (is_Some (ps !! i)) as [p Hp].
  { apply lookup_lt_is_Some. rewrite <-(proj1 Hal). by eapply lookup_lt_Some. }
  pose proof (proj2 Hal _ _ _ Hi Hp) as [_ Hpart].
  assert (Forall (guarantees (λ _ _ _, True) G) (<[i:=k x]> qs)) as Hg'
    by (apply Forall_insert; [done|by apply Hk]).
  apply (Hproj _ _ _ _ _ Hf) in Hx.
  change (omap part_event ((i, Ev f x) :: ls)) with
    (match (λ e, (i, Ev e x)) <$> part f with
     | Some l => l :: omap part_event ls | None => omap part_event ls end).
  destruct (part f) as [e|]; simpl.
  - destruct Hpart as (k' & -> & Hk'). apply (Habsorb _ _ _ _ _ _ Hv) in Hx.
    destruct (IH eq_refl (<[i:=k x]> qs) w1 eq_refl (<[i:=k' x]> ps) (proj w1)) as (ps' & v' & Hr & Hv' & Hal');
      [by apply aligned_insert|done|done|].
    exists ps', v'. split; [|done]. eapply pool_more; [by constructor|exact Hr].
  - apply (IH eq_refl (<[i:=k x]> qs) w1 eq_refl); [|done|by etrans].
    rewrite <-(list_insert_id ps i p) by done. by apply aligned_insert.
Qed.
End slack.
