(* ===== verification/Golden.v ===== *)
(** * Package testsupport, golden.go: the shared fixtures

    The file functions of path/filepath on Unix that [GoldenPath] uses, and the helper
    the Go tests read the shared fixtures with. *)
From S2P Require Import Prelude GoStrings Prog.

(** ** path/filepath *)

(** One element of [Clean]'s loop, on the elements kept so far, the last one first. *)
Definition clean_elem (rooted : bool) (out : list string) (elem : string) : list string :=
  if bool_decide (elem = "" ∨ elem = ".") then out
  else if bool_decide (elem = "..") then
    match out with
    | [] => if rooted then [] else [".."]
    | top :: rest => if bool_decide (top = "..") then ".." :: out else rest
    end
  else elem :: out.

(** [filepath.Clean(path)] *)
Definition Clean (path : string) : string :=
  if bool_decide (path = "") then "."
  else
    let rooted := HasPrefix path "/" in
    let out := Join (rev (foldl (clean_elem rooted) [] (Split path "/"))) "/" in
    if rooted then "/" +:+ out else if bool_decide (out = "") then "." else out.

(** [s[:strings.LastIndexByte(s, c)+1]] *)
Fixpoint through_last (s : string) (c : ascii) : string :=
  match s with
  | EmptyString => ""
  | String x s => if has_byte c s then String x (through_last s c)
                  else if bool_decide (x = c) then String x "" else ""
  end.

(** [filepath.Dir(path)] *)
Definition Dir (path : string) : string := Clean (through_last path "/").

(** [filepath.Join(elem...)] *)
Fixpoint path_Join (elems : list string) : string :=
  match elems with
  | [] => ""
  | e :: rest => if bool_decide (e = "") then path_Join rest else Clean (Join elems "/")
  end.

Example Clean_ex :
  Clean "" = "." ∧ Clean "a//b/./c/.." = "a/b" ∧ Clean "/../a" = "/a" ∧ Clean "../../x/.." = "../.." ∧
  Clean "a/.." = "." ∧ Clean "//" = "/".
Proof. by vm_compute. Qed.

(** ** The helper *)

(** [GoldenPath(name)], in the source file [self] that runtime.Caller reports. *)
Definition GoldenPath (self name : string) : string :=
  let repoRoot := Dir (Dir (Dir self)) in
  path_Join [repoRoot; "testdata"; "golden"; name].

Inductive GoldenE : Type → Type :=
| GReadFile (path : string) : GoldenE (result () string)
| GFatal (name : string) : GoldenE ().       (* t.Fatalf: the test ends here *)

(** [LoadGolden(t, name)]: the fixture, unless the test was ended. *)
Definition LoadGolden (self name : string) : Prog GoldenE (option string) :=
  b ← Call (GReadFile (GoldenPath self name)) Ret;
  match b with
  | Err _ => _ ← Call (GFatal name) Ret; Ret None
  | Ok b => Ret (Some b)
  end.

(** ** Facts *)

Lemma Split_cons s c : ∃ x xs, Split s c = x :: xs.
Proof. destruct s as [|y s]; simpl; [by eauto|]. case_decide; [by eauto|]. destruct (Split s c); by eauto. Qed.
Lemma Split_app a c b : Split (a +:+ String c b) c = Split a c ++ Split b c.
Proof.
  induction a as [|x a IH]; simpl; [by rewrite decide_True|]. rewrite IH.
  case_decide; [done|]. by destruct (Split_cons a c) as (? & ? & ->).
Qed.
Lemma Split_whole a c : has_byte c a = false → Split a c = [a].
Proof.
  induction a as [|x a IH]; simpl; [done|]. intros [Hx Ha]%orb_false_iff.
  apply bool_decide_eq_false in Hx. rewrite decide_False by done. by rewrite IH.
Qed.
Lemma Split_Join l : l ≠ [] → Forall (λ e, has_byte "/" e = false) l → Split (Join l "/") "/" = l.
Proof.
  induction l as [|x [|y l] IH]; intros Hne Hl; [done|..]; apply Forall_cons in Hl as [Hx Hl].
  - by apply Split_whole.
  - change (Join (x :: y :: l) "/") with (x +:+ String "/" (Join (y :: l) "/")).
    by rewrite Split_app, Split_whole, IH.
Qed.

Lemma through_last_app a c b : has_byte c b = false → through_last (a +:+ String c b) c = a +:+ String c "".
Proof.
  intros Hb. induction a as [|x a IH]; simpl; [by rewrite Hb, bool_decide_true|].
  assert (has_byte c (a +:+ String c b) = true) as ->.
  { clear IH. induction a as [|y a IHa]; simpl; [by rewrite bool_decide_true|]. by rewrite IHa, orb_true_r. }
  by rewrite IH.
Qed.

(** The name of a file or directory. *)
Definition plain (e : string) : Prop := e ≠ "" ∧ e ≠ "." ∧ e ≠ ".." ∧ has_byte "/" e = false.
Definition absolute (l : list string) : string := "/" +:+ Join l "/".

Lemma clean_plain rooted out es :
  Forall (λ e, e = "" ∨ plain e) es →
  foldl (clean_elem rooted) out es = rev (filter (λ e, e ≠ "") es) ++ out.
Proof.
  revert out. induction es as [|e es IH]; intros out Hes; [done|].
  apply Forall_cons in Hes as [He Hes]. simpl. rewrite IH by done. unfold clean_elem.
  rewrite filter_cons. destruct He as [->|(H1 & H2 & H3 & _)].
  - by rewrite bool_decide_true, decide_False by auto.
  - rewrite bool_decide_false, bool_decide_false, decide_True by tauto. simpl. by rewrite <-(assoc_L (++)).
Qed.

Lemma Clean_rooted s es :
  Split s "/" = "" :: es → es ≠ [] → Forall (λ e, e = "" ∨ plain e) es →
  Clean s = absolute (filter (λ e, e ≠ "") es).
Proof.
  intros Hs Hne Hes. unfold Clean, absolute.
  assert (∃ s', s = String "/" s') as [s' ->].
  { destruct s as [|c s]; simpl in Hs; [by injection Hs as <-|].
    case_decide as Hc; [subst; by eexists|]. destruct (Split s "/"); by injection Hs. }
  rewrite bool_decide_false by done. change (HasPrefix (String "/" s') "/") with true. cbv iota zeta.
  rewrite Hs. cbn [foldl]. change (clean_elem true [] "") with (@nil string).
  by rewrite clean_plain, app_nil_r, rev_involutive.
Qed.

Lemma filter_plain l : Forall plain l → filter (λ e, e ≠ "") l = l.
Proof.
  induction 1 as [|e l [He _] _ IH]; [done|]. by rewrite filter_cons, decide_True, IH.
Qed.

Lemma Split_absolute l :
  Forall plain l → Split (absolute l) "/" = "" :: match l with [] => [""] | _ => l end.
Proof.
  intros Hl. unfold absolute. change ("/" +:+ Join l "/") with ("" +:+ String "/" (Join l "/")).
  rewrite Split_app. destruct l as [|e l]; [done|]. rewrite Split_Join; [done|done|].
  eapply Forall_impl; [exact Hl|]. by intros e' (_ & _ & _ & ?).
Qed.

Lemma Join_snoc l x : l ≠ [] → Join (l ++ [x]) "/" = Join l "/" +:+ String "/" x.
Proof.
  induction l as [|y [|z l] IH]; [done|done|]. intros _.
  change (Join ((y :: z :: l) ++ [x]) "/") with (y +:+ "/" +:+ Join ((z :: l) ++ [x]) "/").
  change (Join (y :: z :: l) "/") with (y +:+ "/" +:+ Join (z :: l) "/").
  rewrite IH by done. by rewrite !app_assoc_string.
Qed.

(** The directory of a file. *)
Lemma Dir_absolute l x : Forall plain l → plain x → Dir (absolute (l ++ [x])) = absolute l.
Proof.
  intros Hl (_ & _ & _ & Hx). unfold Dir.
  assert (through_last (absolute (l ++ [x])) "/" = absolute l +:+ if bool_decide (l = []) then "" else "/") as ->.
  { destruct l as [|e l]; unfold absolute.
    - change ("/" +:+ Join ([] ++ [x]) "/") with ("" +:+ String "/" x). by rewrite through_last_app.
    - rewrite Join_snoc, <-app_assoc_string, through_last_app by done. by rewrite bool_decide_false. }
  case_bool_decide as Hne.
  - subst l. by vm_compute.
  - change (absolute l +:+ "/") with (absolute l +:+ String "/" "").
    rewrite (Clean_rooted _ (l ++ [""])).
    + rewrite filter_app, filter_plain by done. by rewrite app_nil_r.
    + rewrite Split_app, Split_absolute by done. by destruct l.
    + by destruct l.
    + apply Forall_app. split; [|by repeat constructor]. eapply Forall_impl; [exact Hl|]. by right.
Qed.

(** The fixtures of a repository at [root] are in its testdata/golden, wherever the test
    runs. *)
Lemma GoldenPath_in_testdata root name :
  Forall plain root → plain name →
  GoldenPath (absolute (root ++ ["pkg"; "testsupport"; "golden.go"])) name =
  absolute (root ++ ["testdata"; "golden"; name]).
Proof.
  intros Hroot Hname. unfold GoldenPath.
  assert (plain "pkg" ∧ plain "testsupport" ∧ plain "golden.go" ∧ plain "testdata" ∧ plain "golden")
    as (H1 & H2 & H3 & H4 & H5) by done.
  assert (Forall plain (root ++ ["pkg"]) ∧ Forall plain ((root ++ ["pkg"]) ++ ["testsupport"])) as [Hp Ht].
  { split; rewrite !Forall_app; auto using Forall_cons_2. }
  replace (root ++ ["pkg"; "testsupport"; "golden.go"])
    with (((root ++ ["pkg"]) ++ ["testsupport"]) ++ ["golden.go"]) by by rewrite <-!(assoc_L (++)).
  rewrite !Dir_absolute by done. cbn [path_Join]. rewrite bool_decide_false by done.
  change (Join _ "/") with (absolute root +:+ String "/" (Join ["testdata"; "golden"; name] "/")).
  assert (Forall plain ["testdata"; "golden"; name]) as Hrest by (by auto using Forall_cons_2, Forall_nil_2).
  rewrite (Clean_rooted _ ((match root with [] => [""] | _ => root end) ++ ["testdata"; "golden"; name])).
  - rewrite filter_app, (filter_plain ["testdata"; "golden"; name]) by done.
    destruct root as [|e root]; [done|]. by rewrite (filter_plain (e :: root)).
  - rewrite Split_app, Split_absolute, Split_Join; [done|done| |done].
    eapply Forall_impl; [exact Hrest|]. by intros e (_ & _ & _ & ?).
  - by destruct root.
  - apply Forall_app. split.
    + destruct root; [by repeat constructor; left|]. eapply Forall_impl; [exact Hroot|]. by right.
    + eapply Forall_impl; [exact Hrest|]. by right.
Qed.
