(* ===== verification/Limits.v ===== *)
(** * Package limits: the numeric constants of the public contract *)
From S2P Require Import Prelude.
#[local] Open Scope Z_scope.

Definition MaxEventsPerBatch : Z := 500.
Definition MaxBatchBytes : Z := Z.shiftl 1 20.
Definition MaxPropsPerEvent : Z := 50.
Definition MaxOutboxRows : Z := 10000.
Definition MaxRetryAttempts : Z := 20.

(** The per-tenant budget, read by the control plane and enforced by the
    ingest quota checker. *)
Record Quota := { DailyEvents : Z; RPS : Z; LegacyRPS : Z }.

#[export] Instance Quota_eq_dec : EqDecision Quota.
Proof. solve_decision. Defined.

Definition DefaultQuota : Quota :=
  {| DailyEvents := 1000000; RPS := 50; LegacyRPS := 5 |}.

Definition DefaultRPSTier1 : Z := 10.

(** [lim.RPS = rps] on a copy of the struct. *)
Definition with_RPS (lim : Quota) (rps : Z) : Quota :=
  {| DailyEvents := lim.(DailyEvents); RPS := rps; LegacyRPS := lim.(LegacyRPS) |}.
