(* ===== verification/Proto.v ===== *)
(** * The wire messages (gen/go/tracking/v1) and their nil-safe getters

    A message pointer is an [option]; a getter on nil returns the zero value.
    A [double] is an IEEE-754 binary64 datum ([spec_float]), an [int64] or
    [uint64] the integer it denotes, a Go map a [gmap]. *)
From Stdlib Require Export SpecFloat.
From S2P Require Import Prelude.

(** ** event.proto *)

Inductive isValue_Kind :=
| Value_StringValue (s : string)
| Value_NumberValue (f : spec_float)
| Value_BoolValue (b : bool).

Record Value := mkValue { Kind : option isValue_Kind }.

Definition Value_GetKind (v : option Value) : option isValue_Kind :=
  match v with Some v => v.(Kind) | None => None end.

Record EventContext := {
  ctx_SdkVersion : string;
  ctx_AppVersion : string;
  ctx_Os : string;
  ctx_OsVersion : string;
  ctx_Locale : string
}.

(** [if x != nil { return x.F }; return zero] *)
Definition nil_get {M A} (x : option M) (f : M → A) (zero : A) : A :=
  match x with Some m => f m | None => zero end.

Definition Context_GetSdkVersion (x : option EventContext) := nil_get x ctx_SdkVersion "".
Definition Context_GetAppVersion (x : option EventContext) := nil_get x ctx_AppVersion "".
Definition Context_GetOs (x : option EventContext) := nil_get x ctx_Os "".
Definition Context_GetOsVersion (x : option EventContext) := nil_get x ctx_OsVersion "".
Definition Context_GetLocale (x : option EventContext) := nil_get x ctx_Locale "".

(** The ingestion envelope.  There is no tenant field. *)
Record Event := {
  ev_EventId : string;
  ev_Name : string;
  ev_TsClient : Z;
  ev_Seq : Z;
  ev_DeviceId : string;
  ev_SessionId : string;
  ev_AnonymousId : string;
  ev_UserId : string;
  ev_Props : gmap string (option Value);
  ev_Context : option EventContext
}.

Definition Event_GetEventId (x : option Event) := nil_get x ev_EventId "".
Definition Event_GetName (x : option Event) := nil_get x ev_Name "".
Definition Event_GetTsClient (x : option Event) := nil_get x ev_TsClient 0%Z.
Definition Event_GetSeq (x : option Event) := nil_get x ev_Seq 0%Z.
Definition Event_GetDeviceId (x : option Event) := nil_get x ev_DeviceId "".
Definition Event_GetSessionId (x : option Event) := nil_get x ev_SessionId "".
Definition Event_GetAnonymousId (x : option Event) := nil_get x ev_AnonymousId "".
Definition Event_GetUserId (x : option Event) := nil_get x ev_UserId "".
Definition Event_GetProps (x : option Event) := nil_get x ev_Props ∅.
Definition Event_GetContext (x : option Event) := nil_get x ev_Context None.

(** ** ingest.proto *)

Record BatchRequest := { SentAt : Z; Events : list (option Event) }.

Record Reject := { rej_EventId : string; rej_Code : string; rej_Message : string }.

Record BatchResponse := {
  ReceivedAt : Z;
  Accepted : list string;
  Rejected : list Reject
}.

Record TokenRequest := {
  ClientId : string;
  Platform : string;
  Attestation : string;
  Challenge : string;
  DeviceHint : string
}.

Record TokenResponse := { AccessToken : string; ExpiresIn : Z; tok_TrustTier : Z }.
