(* ===== verification/Validate.v ===== *)
(** * Package validate: one event at a time

    [validate_Event] follows the code check by check and returns the first
    problem as a [Reject].  Go iterates a map in an unspecified order, so the
    order of the properties is an argument; [storable] is the order-free
    predicate the checks amount to. *)
From S2P Require Import Prelude GoStrings GoTime Limits Proto.
#[local] Open Scope Z_scope.

(** github.com/google/uuid: the parser and printer the id check relies on. *)
Class UUIDLib := {
  UUID : Type;
  uuid_Parse : string → option UUID;
  uuid_String : UUID → string
}.

Definition CodeMissingEventID := "MISSING_EVENT_ID".
Definition CodeBadEventID := "BAD_EVENT_ID".
Definition CodeMissingName := "MISSING_NAME".
Definition CodeNameTooLong := "NAME_TOO_LONG".
Definition CodeMissingDeviceID := "MISSING_DEVICE_ID".
Definition CodeBadTsClient := "BAD_TS_CLIENT".
Definition CodeTooManyProps := "TOO_MANY_PROPS".
Definition CodePropKeyTooLong := "PROP_KEY_TOO_LONG".
Definition CodeInvalidPropertyType := "INVALID_PROPERTY_TYPE".

Definition maxNameLen : Z := 255.
Definition maxPropKeyLen : Z := 128.

(** The range of ClickHouse's DateTime64(3, 'UTC'). *)
Definition minTsClientMS : Z := UnixMilli (Date 1900 1 1 0 0 0 0).
Definition maxTsClientMS : Z := UnixMilli (Date 2299 12 31 23 59 59 999000000).

(** [math.IsNaN(f)], [math.IsInf(f, 0)] *)
Definition IsNaN (f : spec_float) : bool := match f with S754_nan => true | _ => false end.
Definition IsInf (f : spec_float) : bool :=
  match f with S754_infinity _ => true | _ => false end.

(** One iteration of the loop over the properties: the code and message of the
    reject, if any. *)
Definition check_prop (k : string) (v : option Value) : option (string * string) :=
  if bool_decide (len k > maxPropKeyLen) then
    Some (CodePropKeyTooLong,
      "props." +:+ k +:+ ": key exceeds " +:+ pretty maxPropKeyLen +:+ " bytes")
  else match Value_GetKind v with
  | Some (Value_StringValue _) | Some (Value_BoolValue _) => None
  | Some (Value_NumberValue f) =>
      if IsNaN f || IsInf f then
        Some (CodeInvalidPropertyType, "props." +:+ k +:+ ": must be a finite number")
      else None
  | None => Some (CodeInvalidPropertyType, "props." +:+ k +:+ ": no value set")
  end.

Fixpoint check_props (order : list (string * option Value)) : option (string * string) :=
  match order with
  | [] => None
  | (k, v) :: order =>
      match check_prop k v with Some r => Some r | None => check_props order end
  end.

Section validate.
Context `{U : UUIDLib}.

(** [err != nil || id.String() != s], negated *)
Definition canonical_uuid (s : string) : bool :=
  match uuid_Parse s with
  | Some id => bool_decide (uuid_String id = s)
  | None => false
  end.

(** [validate.Event(e)], the properties visited in [order] *)
Definition validate_Event (order : list (string * option Value)) (e : option Event) :
    option Reject :=
  let reject code msg :=
    Some {| rej_EventId := Event_GetEventId e; rej_Code := code; rej_Message := msg |} in
  if bool_decide (Event_GetEventId e = "") then
    reject CodeMissingEventID "event_id is required"
  else if negb (canonical_uuid (Event_GetEventId e)) then
    reject CodeBadEventID "event_id must be a canonical UUID"
  else if bool_decide (Event_GetName e = "") then
    reject CodeMissingName "name is required"
  else if bool_decide (len (Event_GetName e) > maxNameLen) then
    reject CodeNameTooLong ("name exceeds " +:+ pretty maxNameLen +:+ " bytes")
  else if bool_decide (Event_GetDeviceId e = "") then
    reject CodeMissingDeviceID "device_id is required"
  else if bool_decide (Event_GetTsClient e < minTsClientMS
                       ∨ Event_GetTsClient e > maxTsClientMS) then
    reject CodeBadTsClient "ts_client is out of range"
  else if bool_decide (Z.of_nat (size (Event_GetProps e)) > MaxPropsPerEvent) then
    reject CodeTooManyProps
      ("props: " +:+ pretty (size (Event_GetProps e)) +:+
       " exceeds limit of " +:+ pretty MaxPropsPerEvent)
  else match check_props order with
  | Some (code, msg) => reject code msg
  | None => None
  end.

(** ** What an accepted event satisfies *)

Definition finite_scalar (v : option Value) : Prop :=
  match Value_GetKind v with
  | Some (Value_NumberValue f) => IsNaN f = false ∧ IsInf f = false
  | Some _ => True
  | None => False
  end.

Definition prop_ok (k : string) (v : option Value) : Prop :=
  len k ≤ maxPropKeyLen ∧ finite_scalar v.

Record storable (e : option Event) : Prop := {
  st_id : Event_GetEventId e ≠ "";
  st_uuid : canonical_uuid (Event_GetEventId e) = true;
  st_name : Event_GetName e ≠ "" ∧ len (Event_GetName e) ≤ maxNameLen;
  st_device : Event_GetDeviceId e ≠ "";
  st_ts : minTsClientMS ≤ Event_GetTsClient e ≤ maxTsClientMS;
  st_nprops : Z.of_nat (size (Event_GetProps e)) ≤ MaxPropsPerEvent;
  st_props : map_Forall prop_ok (Event_GetProps e)
}.

Lemma check_prop_None k v : check_prop k v = None ↔ prop_ok k v.
Proof.
  unfold check_prop, prop_ok, finite_scalar.
  case_bool_decide; [split; [done|lia]|].
  assert (len k ≤ maxPropKeyLen) as Hk by lia.
  destruct (Value_GetKind v) as [[s|f|b]|]; [done| |done|].
  - destruct (IsNaN f), (IsInf f); simpl; split; try done;
      try (by intros (_ & ? & ?)).
  - split; [done|by intros []].
Qed.

Lemma check_props_None order :
  check_props order = None ↔ Forall (λ kv, prop_ok kv.1 kv.2) order.
Proof.
  induction order as [|[k v] order IH]; simpl; [done|].
  rewrite Forall_cons. simpl. rewrite <-check_prop_None, <-IH.
  destruct (check_prop k v); naive_solver.
Qed.

Lemma check_props_map order (m : gmap string (option Value)) :
  order ≡ₚ map_to_list m → check_props order = None ↔ map_Forall prop_ok m.
Proof.
  intros Hperm. rewrite check_props_None, Hperm, map_Forall_to_list.
  apply Forall_proper; [|done]. by intros [k v].
Qed.

(** ** What a reject code says *)

(** The fact about [e] each public reject code stands for. *)
Inductive violates (e : option Event) : string → Prop :=
| bad_missing_id : Event_GetEventId e = "" → violates e CodeMissingEventID
| bad_id : canonical_uuid (Event_GetEventId e) = false → violates e CodeBadEventID
| bad_missing_name : Event_GetName e = "" → violates e CodeMissingName
| bad_name : len (Event_GetName e) > maxNameLen → violates e CodeNameTooLong
| bad_missing_device : Event_GetDeviceId e = "" → violates e CodeMissingDeviceID
| bad_ts : ¬ minTsClientMS ≤ Event_GetTsClient e ≤ maxTsClientMS → violates e CodeBadTsClient
| bad_nprops : Z.of_nat (size (Event_GetProps e)) > MaxPropsPerEvent →
    violates e CodeTooManyProps
| bad_key k v : Event_GetProps e !! k = Some v → len k > maxPropKeyLen →
    violates e CodePropKeyTooLong
| bad_value k v : Event_GetProps e !! k = Some v → ¬ finite_scalar v →
    violates e CodeInvalidPropertyType.

Lemma check_prop_Some k v code msg :
  check_prop k v = Some (code, msg) →
  code = CodePropKeyTooLong ∧ len k > maxPropKeyLen ∨
  code = CodeInvalidPropertyType ∧ ¬ finite_scalar v.
Proof.
  unfold check_prop, finite_scalar.
  case_bool_decide; [intros [= <- _]; by left|].
  destruct (Value_GetKind v) as [[s|f|b]|]; try done.
  - destruct (IsNaN f), (IsInf f); intros [= <- _]; right; (split; [done|by intros []]).
  - intros [= <- _]. right. split; [done|by intros []].
Qed.

Lemma check_props_Some order (m : gmap string (option Value)) e code msg :
  order ⊆ map_to_list m → m = Event_GetProps e →
  check_props order = Some (code, msg) → violates e code.
Proof.
  intros Hsub ->. induction order as [|[k v] order IH]; [done|]. simpl.
  assert (Event_GetProps e !! k = Some v) as Hkv.
  { apply elem_of_map_to_list, Hsub. left. }
  destruct (check_prop k v) as [[c m]|] eqn:Hc.
  - intros [= -> ->]. apply check_prop_Some in Hc as [[-> ?]|[-> ?]]; by econstructor.
  - apply IH. intros x Hx. apply Hsub. by right.
Qed.

Lemma violates_not_storable e code : violates e code → ¬ storable e.
Proof.
  intros Hv [Hid Huuid [Hn Hnl] Hd Hts Hnp Hp]. destruct Hv as
    [?|Hu|?|?|?|?|?|k v Hk Hl|k v Hk Hf]; try done; try lia; try congruence.
  - destruct (Hp k v Hk) as [? _]. lia.
  - by destruct (Hp k v Hk).
Qed.

Lemma validate_None order e :
  order ≡ₚ map_to_list (Event_GetProps e) → validate_Event order e = None ↔ storable e.
Proof.
  intros Hperm. unfold validate_Event. split.
  - intros H. repeat (case_bool_decide; [done|]).
    destruct (canonical_uuid _) eqn:Hcan; [|done]. cbn [negb] in H.
    repeat (case_bool_decide; [done|]).
    destruct (check_props order) as [[]|] eqn:Hc; [done|].
    split; try done; try lia.
    by apply (check_props_map order).
  - intros [Hid Huuid [Hn Hnl] Hd Hts Hnp Hp]. rewrite Huuid.
    rewrite !bool_decide_false by (done || lia).
    by rewrite (proj2 (check_props_map order _ Hperm)).
Qed.

Lemma validate_Some order e r :
  order ≡ₚ map_to_list (Event_GetProps e) → validate_Event order e = Some r →
  rej_EventId r = Event_GetEventId e ∧ violates e (rej_Code r).
Proof.
  intros Hperm. unfold validate_Event. intros H.
  case_bool_decide; [injection H as <-; split; [done|by constructor]|].
  destruct (canonical_uuid _) eqn:Hcan; cbn [negb] in H;
    [|injection H as <-; split; [done|by constructor]].
  do 5 (case_bool_decide; [injection H as <-; split; [done|constructor; (done || lia)]|]).
  destruct (check_props order) as [[]|] eqn:Hc; [|done].
  injection H as <-. split; [done|]. simpl.
  eapply (check_props_Some order); [|done..]. intros x. by rewrite Hperm.
Qed.

(** ** Properties *)

(** C18: an event is accepted exactly when it can be stored: its id is a canonical
    UUID, name and device id are present and bounded, ts_client fits the
    DateTime64 column, it has at most 50 properties, all with bounded keys and
    finite scalar values, whatever order the property map is visited in. *)
Theorem Event_accepts_iff_storable order e :
  order ≡ₚ map_to_list (Event_GetProps e) →
  validate_Event order e = None ↔ storable e.
Proof. apply validate_None. Qed.

(** C25: a reject echoes the event's own id and its code is one of the nine public
    codes, naming a defect the event really has; so an event is never both
    rejected and storable, and two visiting orders of the properties can differ
    in the code but not in the decision. *)
Theorem Event_reject_is_truthful order order' e r :
  order ≡ₚ map_to_list (Event_GetProps e) →
  order' ≡ₚ map_to_list (Event_GetProps e) →
  validate_Event order e = Some r →
  rej_EventId r = Event_GetEventId e ∧ violates e (rej_Code r) ∧ ¬ storable e ∧
  ∃ r', validate_Event order' e = Some r'.
Proof.
  intros Hperm Hperm' Hr. destruct (validate_Some _ _ _ Hperm Hr) as [Hid Hv].
  pose proof (violates_not_storable _ _ Hv) as Hns. split_and!; try done.
  destruct (validate_Event order' e) as [r'|] eqn:Hr'; [by exists r'|].
  by apply (validate_None _ _ Hperm') in Hr'.
Qed.
End validate.

(** ** Witnesses *)

(** A parser that, like the library, accepts upper case and prints lower case. *)
Definition toy_parse (s : string) : option string :=
  if bool_decide (String.length s = 36%nat) then Some (lower s) else None.
#[export] Instance ToyUUID : UUIDLib :=
  {| UUID := string; uuid_Parse := toy_parse; uuid_String := id |}.

Definition toy_value (k : isValue_Kind) : option Value := Some {| Kind := Some k |}.
Definition toy_event (id : string) (props : gmap string (option Value)) : option Event := Some {|
  ev_EventId := id; ev_Name := "checkout"; ev_TsClient := 1800000000000; ev_Seq := 1;
  ev_DeviceId := "d1"; ev_SessionId := "s1"; ev_AnonymousId := "a1"; ev_UserId := "";
  ev_Props := props; ev_Context := None |}.
Definition toy_id := "0191f4a2-1c3d-7000-8000-000000000001".
Definition toy_props : gmap string (option Value) :=
  <["currency" := toy_value (Value_StringValue "IDR")]>
  (<["first" := toy_value (Value_BoolValue true)]> ∅).

Lemma Event_accepts_iff_storable_witness :
  validate_Event (map_to_list toy_props) (toy_event toy_id toy_props) = None ∧
  storable (toy_event toy_id toy_props).
Proof.
  assert (validate_Event (map_to_list toy_props) (toy_event toy_id toy_props) = None) as H
    by reflexivity.
  split; [exact H|].
  apply (Event_accepts_iff_storable (map_to_list toy_props) (toy_event toy_id toy_props));
    [reflexivity|exact H].
Defined.

(** Two bad properties: the two orders give different codes. *)
Definition toy_bad_props : gmap string (option Value) :=
  <["x" := None]> (<[String.concat "" (repeat "k" 129) := toy_value (Value_BoolValue true)]> ∅).

Lemma Event_reject_is_truthful_witness :
  let e := toy_event toy_id toy_bad_props in
  let codes o := rej_Code <$> validate_Event o e in
  codes (map_to_list toy_bad_props) ≠ codes (reverse (map_to_list toy_bad_props)) ∧
  ∃ r, validate_Event (map_to_list toy_bad_props) e = Some r ∧ violates e (rej_Code r).
Proof.
  intros e codes. split; [by vm_compute|].
  destruct (validate_Event (map_to_list toy_bad_props) e) as [r|] eqn:Hr; [|by vm_compute in Hr].
  exists r. split; [reflexivity|].
  apply (Event_reject_is_truthful (map_to_list toy_bad_props)
    (reverse (map_to_list toy_bad_props)) e r); [reflexivity| |exact Hr].
  apply reverse_Permutation.
Defined.
