(* ===== verification/Crypto.v ===== *)
(** * crypto/sha256 and encoding/hex

    SHA-256 (FIPS 180-4) on byte strings, with 32-bit words as [Z] and the
    wrap-around written out, and the lower-case hexadecimal encoding. *)
From S2P Require Import Prelude GoStrings.
#[local] Open Scope Z_scope.

(** ** encoding/hex *)

Definition hex_digit (z : Z) : ascii :=
  if bool_decide (z < 10) then asciiZ (48 + z) else asciiZ (87 + z).

(** [hex.EncodeToString] *)
Fixpoint hex_encode (bs : list Z) : string :=
  match bs with
  | [] => ""
  | b :: bs => String (hex_digit (b `div` 16)) (String (hex_digit (b `mod` 16)) (hex_encode bs))
  end.

Definition is_byte (b : Z) : Prop := 0 ≤ b < 256.

(** Read back one digit; only used to state that the encoding is injective. *)
Definition hex_value (c : ascii) : Z :=
  let z := byteZ c in if bool_decide (z < 58) then z - 48 else z - 87.

Lemma hex_value_digit z : 0 ≤ z < 16 → hex_value (hex_digit z) = z.
Proof.
  intros Hz. assert (Forall (λ z, hex_value (hex_digit z) = z) (seqZ 0 16)) as HF.
  { repeat constructor. }
  rewrite Forall_forall in HF. apply HF, elem_of_seqZ. lia.
Qed.

Lemma hex_encode_inj bs cs :
  Forall is_byte bs → Forall is_byte cs → hex_encode bs = hex_encode cs → bs = cs.
Proof.
  unfold is_byte. intros Hbs. revert cs.
  induction Hbs as [|b bs Hb _ IH]; intros [|c cs] Hcs H; try done.
  apply Forall_cons in Hcs as [Hc Hcs]. simpl in H. injection H as H1 H2 H3.
  apply (f_equal hex_value) in H1, H2.
  rewrite !hex_value_digit in H1 by divlia. rewrite !hex_value_digit in H2 by divlia.
  f_equal; [divlia|by apply IH].
Qed.

Lemma length_hex_encode bs : String.length (hex_encode bs) = (2 * length bs)%nat.
Proof. induction bs as [|b bs IH]; simpl; [done|]. rewrite IH. lia. Qed.

(** No byte outside the hexadecimal alphabet appears in an encoding. *)
Lemma hex_encode_alphabet c bs :
  Forall is_byte bs → (∀ z, 0 ≤ z < 16 → hex_digit z ≠ c) →
  has_byte c (hex_encode bs) = false.
Proof.
  unfold is_byte. intros Hbs Hc. induction Hbs as [|b bs Hb _ IH]; [done|]. simpl.
  rewrite !bool_decide_false by (apply Hc; divlia). done.
Qed.

(** ** crypto/sha256 *)

Module sha256.
Definition w32 (z : Z) : Z := z `mod` 2 ^ 32.
Definition add (a b : Z) : Z := w32 (a + b).
Definition shr (n x : Z) : Z := Z.shiftr x n.
Definition rotr (n x : Z) : Z := Z.lor (Z.shiftr x n) (w32 (Z.shiftl x (32 - n))).
Definition not32 (x : Z) : Z := Z.lxor x (2 ^ 32 - 1).

Definition Ch (x y z : Z) : Z := Z.lxor (Z.land x y) (Z.land (not32 x) z).
Definition Maj (x y z : Z) : Z :=
  Z.lxor (Z.lxor (Z.land x y) (Z.land x z)) (Z.land y z).
Definition Sigma0 (x : Z) : Z := Z.lxor (Z.lxor (rotr 2 x) (rotr 13 x)) (rotr 22 x).
Definition Sigma1 (x : Z) : Z := Z.lxor (Z.lxor (rotr 6 x) (rotr 11 x)) (rotr 25 x).
Definition sigma0 (x : Z) : Z := Z.lxor (Z.lxor (rotr 7 x) (rotr 18 x)) (shr 3 x).
Definition sigma1 (x : Z) : Z := Z.lxor (Z.lxor (rotr 17 x) (rotr 19 x)) (shr 10 x).

(** The constants are the first 32 bits of the fractional parts of the cube roots
    of the first 64 primes, and of the square roots of the first 8. *)
Definition is_prime (n : nat) : bool :=
  forallb (λ d, negb (bool_decide (n mod d = 0)%nat)) (seq 2 (n - 2)).
Definition primes : list nat := base.filter is_prime (seq 2 310).

(** The integer cube root below [2 ^ k]. *)
Fixpoint cbrt_below (k : nat) (n r : Z) : Z :=
  match k with
  | O => r
  | S k =>
      let r' := r + 2 ^ Z.of_nat k in
      cbrt_below k n (if bool_decide (r' ^ 3 ≤ n) then r' else r)
  end.

Definition K : list Z := Eval vm_compute in
  (λ p, w32 (cbrt_below 36 (Z.of_nat p * 2 ^ 96) 0)) <$> primes.
Definition H0 : list Z := Eval vm_compute in
  (λ p, w32 (Z.sqrt (Z.of_nat p * 2 ^ 64))) <$> take 8 primes.

Fixpoint be_bytes (n : nat) (z : Z) : list Z :=
  match n with
  | O => []
  | S n => be_bytes n (z `div` 256) ++ [z `mod` 256]
  end.

Definition pad (m : list Z) : list Z :=
  let l := Z.of_nat (length m) in
  m ++ 0x80 :: replicate (Z.to_nat ((55 - l) `mod` 64)) 0 ++ be_bytes 8 (8 * l).

Fixpoint words (bs : list Z) : list Z :=
  match bs with
  | a :: b :: c :: d :: bs => (Z.lor (Z.lor (Z.shiftl a 24) (Z.shiftl b 16))
                                     (Z.lor (Z.shiftl c 8) d)) :: words bs
  | _ => []
  end.

(** The message schedule, newest word first. *)
Fixpoint schedule (n : nat) (w : list Z) : list Z :=
  match n with
  | O => w
  | S n =>
      let at_ i := default 0 (w !! i) in
      schedule n (add (add (sigma1 (at_ 1%nat)) (at_ 6%nat))
                      (add (sigma0 (at_ 14%nat)) (at_ 15%nat)) :: w)
  end.

Definition round (st : list Z) (kw : Z * Z) : list Z :=
  match st with
  | [a; b; c; d; e; f; g; h] =>
      let t1 := add (add (add h (Sigma1 e)) (add (Ch e f g) kw.1)) kw.2 in
      let t2 := add (Sigma0 a) (Maj a b c) in
      [add t1 t2; a; b; c; add d t1; e; f; g]
  | _ => st
  end.

Definition block (st : list Z) (ws : list Z) : list Z :=
  let w := rev (schedule 48 (rev ws)) in
  zip_with add st (foldl round st (zip K w)).

Fixpoint blocks (n : nat) (st ws : list Z) : list Z :=
  match n with
  | O => st
  | S n => blocks n (block st (take 16 ws)) (drop 16 ws)
  end.

Definition Sum256_bytes (m : list Z) : list Z :=
  let p := pad m in
  mjoin (be_bytes 4 <$> blocks (length p / 64)%nat H0 (words p)).
End sha256.

(** [sha256.Sum256([]byte(s))] *)
Definition Sum256 (s : string) : list Z := sha256.Sum256_bytes (byteZ <$> bytes s).

Example Sum256_abc :
  hex_encode (Sum256 "abc") =
  "ba7816bf8f01cfea414140de5dae2223b00361a396177a9cb410ff61f20015ad".
Proof. vm_compute. reflexivity. Qed.
Example Sum256_empty :
  hex_encode (Sum256 "") =
  "e3b0c44298fc1c149afbf4c8996fb92427ae41e4649b934ca495991b7852b855".
Proof. vm_compute. reflexivity. Qed.
Example Sum256_two_blocks :
  hex_encode (Sum256 "abcdbcdecdefdefgefghfghighijhijkijkljklmklmnlmnomnopnopq") =
  "248d6a61d20638b8e5c026930c3e6039a33ce45964ff2167f6ecedd419db06c1".
Proof. vm_compute. reflexivity. Qed.

(** A digest is 32 bytes. *)
Lemma be_bytes_length n z : length (sha256.be_bytes n z) = n.
Proof.
  revert z. induction n as [|n IH]; intros z; simpl; [done|].
  rewrite length_app, IH. simpl. lia.
Qed.
Lemma be_bytes_is_byte n z : Forall is_byte (sha256.be_bytes n z).
Proof.
  revert z. induction n as [|n IH]; intros z; simpl; [constructor|].
  apply Forall_app. split; [apply IH|]. constructor; [|constructor].
  unfold is_byte. apply Z.mod_pos_bound. lia.
Qed.

Lemma round_length st kw : length st = 8%nat → length (sha256.round st kw) = 8%nat.
Proof. by do 9 (destruct st as [|? st]; try done). Qed.

Lemma foldl_round_length st kws : length st = 8%nat → length (foldl sha256.round st kws) = 8%nat.
Proof.
  revert st. induction kws as [|kw kws IH]; intros st Hst; [done|].
  simpl. by apply IH, round_length.
Qed.

Lemma blocks_length n st ws : length st = 8%nat → length (sha256.blocks n st ws) = 8%nat.
Proof.
  revert st ws. induction n as [|n IH]; intros st ws Hst; [done|].
  simpl. apply IH. unfold sha256.block.
  by rewrite length_zip_with, foldl_round_length, Hst.
Qed.

Lemma Sum256_bytes_ok s : length (Sum256 s) = 32%nat ∧ Forall is_byte (Sum256 s).
Proof.
  unfold Sum256, sha256.Sum256_bytes.
  set (l := sha256.blocks _ _ _).
  assert (length l = 8%nat) as Hl by by apply blocks_length.
  clearbody l. split.
  - do 9 (destruct l as [|? l]; try done).
  - clear Hl. induction l as [|z l IH]; [constructor|].
    apply Forall_app. split; [apply be_bytes_is_byte|done].
Qed.
