(* ===== verification/Jwx.v ===== *)
(** * The JOSE library (github.com/lestrrat-go/jwx/v3) as an interface

    The code under src/ calls this library to parse, verify and sign tokens and
    to look keys up in a key set; the class names exactly the calls it makes.
    [JWXLaws] states the documented behaviour the mint/verify round trip relies
    on. *)
From S2P Require Import Prelude GoStrings GoTime Proto.
#[local] Open Scope Z_scope.

(** A claim value: as given to the builder ([CInt]), or as decoded by
    encoding/json (numbers are float64). *)
Inductive claim_value :=
| CString (s : string)
| CInt (z : Z)
| CNumber (f : spec_float)
| CNull
| COther.

(** The protected headers of one signature, read with their typed getters:
    [None] is an absent or ill-typed header. *)
Record Headers := {
  hdr_alg : option string;
  hdr_typ : option string;
  hdr_kid : option string
}.

(** A [jwt.Token]: registered claims through their getters, private ones by name. *)
Record Token := {
  tok_iss : option string;
  tok_aud : list string;
  tok_iat : option Time;
  tok_nbf : option Time;
  tok_exp : option Time;
  tok_claims : gmap string claim_value
}.

(** [float64(z)] and [int(f)].  Out of range, [int] is implementation-defined;
    the value is amd64's. *)
Definition int_to_float (z : Z) : spec_float := binary_normalize 53 1024 z 0 false.
Definition float_to_int (f : spec_float) : Z :=
  match f with
  | S754_zero _ => 0
  | S754_finite s m e =>
      let a := if bool_decide (0 ≤ e) then Zpos m * 2 ^ e else Zpos m `div` 2 ^ (- e) in
      let z := if s then - a else a in
      if decide (in_int64 z) then z else int64_min
  | S754_infinity _ | S754_nan => int64_min
  end.

Class JWX := {
  JKey : Type;                                      (* jwk.Key *)
  JSet : Type;                                      (* jwk.Set *)
  LookupKeyID : JSet → string → option JKey;
  KeyUsage : JKey → option string;
  KeyType : JKey → string;
  KeyCrv : JKey → option string;                    (* k.Get("crv", &crv) *)
  jws_Parse : string → option (list Headers);
  jwt_Parse : string → JKey → option Token;         (* WithKey(EdDSA, k), WithValidate(false) *)
  jwt_Sign : Token → Headers → JKey → option string (* WithKey(EdDSA, k, headers) *)
}.

(** What a built token looks like after the wire: NumericDates carry whole
    seconds, and numbers come back as float64. *)
Definition wire_time (t : Time) : Time := t `div` Second * Second.
Definition wire_claim (c : claim_value) : claim_value :=
  match c with CInt z => CNumber (int_to_float z) | c => c end.
Definition wire_token (t : Token) : Token := {|
  tok_iss := t.(tok_iss);
  tok_aud := t.(tok_aud);
  tok_iat := wire_time <$> t.(tok_iat);
  tok_nbf := wire_time <$> t.(tok_nbf);
  tok_exp := wire_time <$> t.(tok_exp);
  tok_claims := wire_claim <$> t.(tok_claims)
|}.

(** Signing sets the algorithm header and keeps the given ones. *)
Definition signed_headers (h : Headers) : Headers :=
  {| hdr_alg := Some "EdDSA"; hdr_typ := h.(hdr_typ); hdr_kid := h.(hdr_kid) |}.

Class JWXLaws (J : JWX) := {
  (** [keypair sk pk]: [pk] is the public half of [sk]. *)
  keypair : JKey → JKey → Prop;
  sign_parse_headers t h sk raw :
    jwt_Sign t h sk = Some raw → jws_Parse raw = Some [signed_headers h];
  (** For claims whose strings are valid UTF-8, which is all the service signs. *)
  sign_parse_token t h sk pk raw :
    jwt_Sign t h sk = Some raw → keypair sk pk → jwt_Parse raw pk = Some (wire_token t);
  (** Compact serialisation: base64url segments joined by dots, starting with
      the encoding of an opening brace. *)
  sign_compact t h sk raw :
    jwt_Sign t h sk = Some raw → no_space raw ∧ has_byte " " raw = false
      ∧ HasPrefix raw "ey" = true
}.

(** Building keys and sets: jwk.Import, key.Set, jwk.NewSet and set.AddKey.  The
    code ignores the error of [Set]; [jwk_Set] is the key it leaves. *)
Class JWK `{J : JWX} := {
  jwk_Import_private : string → option JKey;
  jwk_Import_public : string → option JKey;
  jwk_Set : string → string → JKey → JKey;
  jwk_NewSet : JSet;
  jwk_AddKey : JKey → JSet → option JSet
}.

Class JWKLaws (J : JWX) (L : JWXLaws J) (K : JWK) := {
  KeyID : JKey → option string;
  (** [ed25519_pair pub priv]: what ed25519.GenerateKey returns. *)
  ed25519_pair : string → string → Prop;
  import_pair pub priv pk sk :
    ed25519_pair pub priv → jwk_Import_public pub = Some pk →
    jwk_Import_private priv = Some sk → keypair sk pk;
  import_shape pub pk :
    jwk_Import_public pub = Some pk → KeyType pk = "OKP" ∧ KeyCrv pk = Some "Ed25519";
  set_pair f v sk pk : keypair sk pk → keypair sk (jwk_Set f v pk);
  set_shape f v pk :
    f = "kid" ∨ f = "use" →
    KeyType (jwk_Set f v pk) = KeyType pk ∧ KeyCrv (jwk_Set f v pk) = KeyCrv pk;
  set_kid v pk : KeyID (jwk_Set "kid" v pk) = Some v;
  set_use v pk : KeyUsage (jwk_Set "use" v pk) = Some v;
  set_use_kid v pk : KeyID (jwk_Set "use" v pk) = KeyID pk;
  new_set_empty kid : LookupKeyID jwk_NewSet kid = None;
  add_key_lookup k set set' kid :
    jwk_AddKey k set = Some set' →
    LookupKeyID set' kid =
      match LookupKeyID set kid with
      | Some k' => Some k'
      | None => if decide (KeyID k = Some kid) then Some k else None
      end
}.
