(* ===== verification/ToyJwx.v ===== *)
(** * A concrete JOSE library

    An executable instance of [JWX] satisfying [JWXLaws]: it shows the laws can
    hold, and the witnesses evaluate on it.  A token is the text of its own
    encoding as a number; signing records the key's material, and parsing checks it. *)
From S2P Require Import Prelude GoStrings GoTime Proto Jwx.
#[local] Open Scope Z_scope.

(** ** Encoding numbers as text *)

Fixpoint pos_bits (p : positive) : string :=
  match p with
  | xH => ""
  | xO p => String "0" (pos_bits p)
  | xI p => String "1" (pos_bits p)
  end.
Fixpoint bits_pos (s : string) : positive :=
  match s with
  | EmptyString => xH
  | String c s => if bool_decide (c = "1"%char) then xI (bits_pos s) else xO (bits_pos s)
  end.

Lemma bits_pos_bits p : bits_pos (pos_bits p) = p.
Proof. induction p; simpl; congruence. Qed.

(** ** Countability of tokens *)

#[export] Instance spec_float_eq_dec : EqDecision spec_float.
Proof. solve_decision. Defined.
#[export] Instance spec_float_countable : Countable spec_float.
Proof.
  apply (inj_countable'
    (λ f, match f with
          | S754_zero s => inl (inl s)
          | S754_infinity s => inl (inr s)
          | S754_nan => inr (inl ())
          | S754_finite s m e => inr (inr (s, m, e))
          end : (bool + bool) + (() + (bool * positive * Z)))
    (λ x, match x with
          | inl (inl s) => S754_zero s
          | inl (inr s) => S754_infinity s
          | inr (inl _) => S754_nan
          | inr (inr (s, m, e)) => S754_finite s m e
          end)).
  by intros [].
Defined.

#[export] Instance claim_value_eq_dec : EqDecision claim_value.
Proof. solve_decision. Defined.
#[export] Instance claim_value_countable : Countable claim_value.
Proof.
  apply (inj_countable'
    (λ c, match c with
          | CString s => inl (inl s)
          | CInt z => inl (inr z)
          | CNumber f => inr (inl f)
          | CNull => inr (inr true)
          | COther => inr (inr false)
          end : (string + Z) + (spec_float + bool))
    (λ x, match x with
          | inl (inl s) => CString s
          | inl (inr z) => CInt z
          | inr (inl f) => CNumber f
          | inr (inr true) => CNull
          | inr (inr false) => COther
          end)).
  by intros [].
Defined.

#[export] Instance Headers_eq_dec : EqDecision Headers.
Proof. solve_decision. Defined.
#[export] Instance Headers_countable : Countable Headers.
Proof.
  apply (inj_countable' (λ h, (h.(hdr_alg), h.(hdr_typ), h.(hdr_kid)))
    (λ '(a, t, k), {| hdr_alg := a; hdr_typ := t; hdr_kid := k |})).
  by intros [].
Defined.

Definition token_tuple (t : Token) : option string * list string * option Z * option Z
    * option Z * gmap string claim_value :=
  (t.(tok_iss), t.(tok_aud), t.(tok_iat), t.(tok_nbf), t.(tok_exp), t.(tok_claims)).
#[export] Instance token_tuple_inj : Inj (=) (=) token_tuple.
Proof. intros [] [] H. unfold token_tuple in H. by simplify_eq/=. Qed.
#[export] Instance Token_eq_dec : EqDecision Token := inj_eq_dec token_tuple.
#[export] Instance Token_countable : Countable Token.
Proof.
  apply (inj_countable' token_tuple
    (λ '(iss, aud, iat, nbf, exp, claims),
      {| tok_iss := iss; tok_aud := aud; tok_iat := iat; tok_nbf := nbf;
         tok_exp := exp; tok_claims := claims |})).
  by intros [].
Defined.

(** ** The library *)

Record ToyKey := {
  tk_material : string;                 (* shared by the two halves of a pair *)
  tk_kid : string;
  tk_use : option string;
  tk_kty : string;
  tk_crv : option string
}.

Definition toy_text (x : Token * Headers * string) : string := "ey" +:+ pos_bits (encode x).
Definition toy_read (raw : string) : option (Token * Headers * string) :=
  match CutPrefix raw "ey" with Some s => decode (bits_pos s) | None => None end.

#[export] Instance ToyJWX : JWX := {
  JKey := ToyKey;
  JSet := list ToyKey;
  LookupKeyID set kid := snd <$> list_find (λ k, k.(tk_kid) = kid) set;
  KeyUsage := tk_use;
  KeyType := tk_kty;
  KeyCrv := tk_crv;
  jws_Parse raw := match toy_read raw with Some (_, h, _) => Some [h] | None => None end;
  jwt_Parse raw k :=
    match toy_read raw with
    | Some (t, _, m) => if bool_decide (m = k.(tk_material)) then Some t else None
    | None => None
    end;
  jwt_Sign t h k := Some (toy_text (wire_token t, signed_headers h, k.(tk_material)))
}.

Lemma toy_read_text x : toy_read (toy_text x) = Some x.
Proof.
  unfold toy_read, toy_text. rewrite (proj2 (CutPrefix_Some _ _ _) eq_refl).
  by rewrite bits_pos_bits, decode_encode.
Qed.

Lemma pos_bits_chars p : Forall (λ c, c = "0" ∨ c = "1")%char (bytes (pos_bits p)).
Proof. induction p; simpl; constructor; auto. Qed.

Lemma toy_text_chars x :
  Forall (λ c, c ∈ ["e"; "y"; "0"; "1"]%char) (bytes (toy_text x)).
Proof.
  unfold toy_text. rewrite !app_cons_string, app_nil_l_string. simpl.
  constructor; [set_solver|]. constructor; [set_solver|].
  eapply Forall_impl; [apply pos_bits_chars|]. set_solver.
Qed.

Lemma toy_text_compact x :
  no_space (toy_text x) ∧ has_byte " " (toy_text x) = false
    ∧ HasPrefix (toy_text x) "ey" = true.
Proof.
  pose proof (toy_text_chars x) as Hc. split_and!.
  - unfold no_space. eapply Forall_impl; [exact Hc|]. intros c Hin p Hp.
    assert (Forall (λ c, Forall (λ p, head p ≠ Some c ∧ last p ≠ Some c) space_runes)
      ["e"; "y"; "0"; "1"]%char) as HF by (repeat constructor; done).
    rewrite Forall_forall in HF. specialize (HF c Hin).
    rewrite Forall_forall in HF. by apply HF.
  - clear -Hc. induction (toy_text x) as [|c s IH]; [done|]. simpl in *.
    apply Forall_cons in Hc as [Hin Hc]. rewrite IH by done.
    rewrite bool_decide_false by (intros ->; set_solver). done.
  - apply HasPrefix_spec. by eexists.
Qed.

#[export] Program Instance ToyJWXLaws : JWXLaws ToyJWX := {
  keypair sk pk := tk_material sk = tk_material pk
}.
Next Obligation.
  intros t h sk raw [= <-]. cbn [jws_Parse ToyJWX]. by rewrite toy_read_text.
Qed.
Next Obligation.
  intros t h sk pk raw [= <-] Hkid. cbn [jwt_Parse ToyJWX]. rewrite toy_read_text.
  by rewrite bool_decide_true.
Qed.
Next Obligation. intros t h sk raw [= <-]. apply toy_text_compact. Qed.

(** A raw key is its own material: the halves of a pair have the same text. *)
Definition toy_raw_key (text : string) : ToyKey :=
  {| tk_material := text; tk_kid := ""; tk_use := None; tk_kty := "OKP";
     tk_crv := Some "Ed25519" |}.
Definition toy_set (f v : string) (k : ToyKey) : ToyKey := {|
  tk_material := k.(tk_material);
  tk_kid := if bool_decide (f = "kid") then v else k.(tk_kid);
  tk_use := if bool_decide (f = "use") then Some v else k.(tk_use);
  tk_kty := k.(tk_kty);
  tk_crv := k.(tk_crv)
|}.

#[export] Instance ToyJWK : JWK (J:=ToyJWX) := {
  jwk_Import_private := λ s, Some (toy_raw_key s);
  jwk_Import_public := λ s, Some (toy_raw_key s);
  jwk_Set := toy_set;
  jwk_NewSet := ([] : list ToyKey);
  jwk_AddKey := λ (k : ToyKey) (set : list ToyKey), Some (set ++ [k])
}.

Lemma toy_lookup_app (set : list ToyKey) k kid :
  LookupKeyID (JWX:=ToyJWX) (set ++ [k]) kid =
    match LookupKeyID (JWX:=ToyJWX) set kid with
    | Some k' => Some k'
    | None => if decide (k.(tk_kid) = kid) then Some k else None
    end.
Proof.
  simpl. induction set as [|k0 set IH]; simpl; [by case_decide|].
  destruct (decide (tk_kid k0 = kid)); [done|]. destruct (list_find _ (set ++ [k])) as [[]|];
    destruct (list_find _ set) as [[]|]; simpl in *; exact IH.
Qed.

#[local] Obligation Tactic := idtac.
#[export] Program Instance ToyJWKLaws : JWKLaws ToyJWX ToyJWXLaws ToyJWK := {
  KeyID k := Some (tk_kid k);
  ed25519_pair pub priv := pub = priv
}.
Next Obligation. by intros pub priv pk sk -> [= <-] [= <-]. Qed.
Next Obligation. by intros pub pk [= <-]. Qed.
Next Obligation. by intros f v sk pk H. Qed.
Next Obligation. done. Qed.
Next Obligation. done. Qed.
Next Obligation. done. Qed.
Next Obligation. done. Qed.
Next Obligation. done. Qed.
Next Obligation.
  intros k set set' kid [= <-]. rewrite toy_lookup_app.
  destruct (LookupKeyID _ kid); [done|]. case_decide; case_decide; naive_solver.
Qed.
