(* ===== verification/Token.v ===== *)
(** * Package tenant, token.go: claims and the minter *)
From S2P Require Import Prelude GoStrings GoTime Jwx.
#[local] Open Scope Z_scope.

Definition TokenType := "at+jwt".
Definition ScopeWriteEvents := "write:events".

(** The tenant identity facts of a verified token; [TrustTier] is a uint8. *)
Record Claims := {
  TenantID : string;
  InstallID : string;
  Scope : string;
  TrustTier : Z
}.

Definition zeroClaims : Claims :=
  {| TenantID := ""; InstallID := ""; Scope := ""; TrustTier := 0 |}.

Section minter.
Context `{J : JWX}.

Record Minter := {
  m_kid : string;
  m_key : JKey;
  m_issuer : string;
  m_audience : string;
  m_ttl : Z
}.

(** [NewMinter(kid, priv, issuer, audience, ttl)] *)
Definition NewMinter `{K : !JWK} (kid priv issuer audience : string) (ttl : Z) : option Minter :=
  match jwk_Import_private priv with
  | Some key => Some {| m_kid := kid; m_key := key; m_issuer := issuer;
                        m_audience := audience; m_ttl := ttl |}
  | None => None
  end.

(** The token [Mint] builds. *)
Definition mint_token (m : Minter) (c : Claims) (now : Time) : Token := {|
  tok_iss := Some m.(m_issuer);
  tok_aud := [m.(m_audience)];
  tok_iat := Some now;
  tok_nbf := Some now;
  tok_exp := Some (Add now m.(m_ttl));
  tok_claims :=
    <["tenant_id" := CString c.(TenantID)]>
    (<["install_id" := CString c.(InstallID)]>
    (<["scope" := CString c.(Scope)]>
    (<["trust_tier" := CInt c.(TrustTier)]> ∅)))
|}.

Definition mint_headers (m : Minter) : Headers :=
  {| hdr_alg := None; hdr_typ := Some TokenType; hdr_kid := Some m.(m_kid) |}.

(** [m.Mint(c, now)]: the signed token and its lifetime in seconds. *)
Definition Mint (m : Minter) (c : Claims) (now : Time) : option (string * Z) :=
  match jwt_Sign (mint_token m c now) (mint_headers m) m.(m_key) with
  | Some signed => Some (signed, SecondsInt m.(m_ttl))
  | None => None
  end.
End minter.
