(* ===== verification/Verify.v ===== *)
(** * Package tenant, verify.go: token verification and the JWKS cache

    [Verifier] holds the mutable cache the mutex guards.  [key] runs entirely
    under that mutex, so it is one atomic step for concurrent requests; the only
    effect inside it is the JWKS fetch.  [Verify] is the whole acceptance check;
    its only effect is the call of [key]. *)
From Stdlib Require Import Sorted.
From S2P Require Import Prelude GoStrings GoTime Proto Prog Jwx ToyJwx Token.
#[local] Open Scope Z_scope.

(** The sentinel errors, which the callers test by identity. *)
Inductive VerifyErr :=
| ErrBadAlg | ErrBadType | ErrBadIssuer | ErrBadAudience | ErrExpired | ErrBadScope
| ErrUnknownKID | ErrMalformed | ErrLegacyCutoff | ErrResolveLegacy.

#[export] Instance VerifyErr_eq_dec : EqDecision VerifyErr.
Proof. solve_decision. Defined.

Definition clockSkew : Z := 60 * Second.
Definition jwksMinRefetch : Z := 30 * Second.
Definition jwksTTL : Z := 10 * Minute.
Definition jwksStaleGrace : Z := 5 * Minute.

(** ** The bearer credential and the scope *)

(** [stripBearer(bearer)] *)
Definition stripBearer (bearer : string) : string :=
  match Cut bearer " " with
  | Some (scheme, rest) => if EqualFold scheme "Bearer" then TrimSpace rest else bearer
  | None => bearer
  end.

(** [hasScope(scope, want)] *)
Definition hasScope (scope want : string) : bool :=
  existsb (λ s, bool_decide (s = want)) (Fields scope).

Section verify.
Context `{J : JWX}.

(** ** The key cache *)

Record Verifier := {
  v_issuer : string;
  v_audience : string;
  v_set : option JSet;
  v_fetchedAt : Time;
  v_lastRefetch : Time
}.

Definition NewVerifier (issuer audience : string) : Verifier := {|
  v_issuer := issuer; v_audience := audience;
  v_set := None; v_fetchedAt := zeroTime; v_lastRefetch := zeroTime |}.

(** [jwk.Fetch(ctx, v.url)]: the set, or an error. *)
Inductive FetchE : Type → Type :=
| EFetch : FetchE (option JSet).

(** [lookup(set, kid)]: only a signing key of type OKP on Ed25519 is a match. *)
Definition jwks_lookup (set : option JSet) (kid : string) : option JKey :=
  match set with
  | None => None
  | Some set =>
      match LookupKeyID set kid with
      | None => None
      | Some k =>
          if negb (bool_decide (KeyUsage k = Some "sig")) then None
          else if negb (bool_decide (KeyType k = "OKP")) then None
          else if negb (bool_decide (KeyCrv k = Some "Ed25519")) then None
          else Some k
      end
  end.

Definition set_lastRefetch (v : Verifier) (now : Time) : Verifier := {|
  v_issuer := v.(v_issuer); v_audience := v.(v_audience);
  v_set := v.(v_set); v_fetchedAt := v.(v_fetchedAt); v_lastRefetch := now |}.
Definition set_fetched (v : Verifier) (s : JSet) (now : Time) : Verifier := {|
  v_issuer := v.(v_issuer); v_audience := v.(v_audience);
  v_set := Some s; v_fetchedAt := now; v_lastRefetch := v.(v_lastRefetch) |}.
Definition drop_set (v : Verifier) : Verifier := {|
  v_issuer := v.(v_issuer); v_audience := v.(v_audience);
  v_set := None; v_fetchedAt := v.(v_fetchedAt); v_lastRefetch := v.(v_lastRefetch) |}.

(** [v.refetchLocked(ctx, now)]: whether it succeeded, and the new cache. *)
Definition refetchLocked (v : Verifier) (now : Time) : Prog FetchE (bool * Verifier) :=
  let v := set_lastRefetch v now in
  s ← call EFetch;
  match s with
  | None => Ret (false, v)
  | Some s => Ret (true, set_fetched v s now)
  end.

(** [now.Sub(v.lastRefetch) >= jwksMinRefetch] *)
Definition may_refetch (v : Verifier) (now : Time) : bool :=
  bool_decide (Sub now v.(v_lastRefetch) >= jwksMinRefetch).

(** [v.set == nil || now.Sub(v.fetchedAt) > d] *)
Definition older_than (v : Verifier) (now : Time) (d : Z) : bool :=
  bool_decide (v.(v_set) = None) || bool_decide (Sub now v.(v_fetchedAt) > d).

(** The part of [key] after the staleness check: the lookup, and the
    rate-limited refetch on a miss. *)
Definition key_lookup (v : Verifier) (kid : string) (now : Time) :
    Prog FetchE (result VerifyErr JKey * Verifier) :=
  match jwks_lookup v.(v_set) kid with
  | Some k => Ret (Ok k, v)
  | None =>
      if may_refetch v now then
        r ← refetchLocked v now;
        let '(ok, v) := r in
        if ok : bool then
          match jwks_lookup v.(v_set) kid with
          | Some k => Ret (Ok k, v)
          | None => Ret (Err ErrUnknownKID, v)
          end
        else Ret (Err ErrUnknownKID, v)
      else Ret (Err ErrUnknownKID, v)
  end.

(** [v.key(ctx, kid, now)] *)
Definition key (v : Verifier) (kid : string) (now : Time) :
    Prog FetchE (result VerifyErr JKey * Verifier) :=
  if bool_decide (kid = "") then Ret (Err ErrUnknownKID, v)
  else if older_than v now jwksTTL then
    r ← (if may_refetch v now then refetchLocked v now else Ret (false, v));
    let '(ok, v) := r in
    if negb ok && older_than v now (jwksTTL + jwksStaleGrace)
    then Ret (Err ErrUnknownKID, drop_set v)
    else key_lookup v kid now
  else key_lookup v kid now.

(** ** Claim checks *)

(** [safeGet(tok, name, &dst)] into a string: an absent claim, another type or
    a recovered panic is an error. *)
Definition safeGet_string (tok : Token) (name : string) : option string :=
  match tok.(tok_claims) !! name with Some (CString s) => Some s | _ => None end.

(** [safeGet(tok, name, &dst)] into an [any]: null panics, and is an error. *)
Definition safeGet_any (tok : Token) (name : string) : option claim_value :=
  match tok.(tok_claims) !! name with
  | Some CNull | None => None
  | Some c => Some c
  end.

(** The closed trust_tier claim: exactly the float64 values 0 and 1. *)
Definition trust_tier (tok : Token) : option Z :=
  match safeGet_any tok "trust_tier" with
  | Some (CNumber f) =>
      let tier := float_to_int f in
      if negb (SFeqb (int_to_float tier) f) || negb (bool_decide (tier = 0 ∨ tier = 1))
      then None else Some (tier `mod` 256)
  | _ => None
  end.

Definition nonempty (o : option string) : option string :=
  match o with Some s => if bool_decide (s = "") then None else Some s | None => None end.

(** The checks [Verify] makes on the signed claims, in order. *)
Definition check_claims (v : Verifier) (tok : Token) (now : Time) : result VerifyErr Claims :=
  (refuse ErrBadIssuer when negb (bool_decide (tok.(tok_iss) = Some v.(v_issuer))) ;;
   refuse ErrBadAudience when negb (bool_decide (tok.(tok_aud) = [v.(v_audience)])) ;;
   refuse ErrExpired when
     match tok.(tok_exp) with
     | Some exp => After now (Add exp clockSkew)
     | None => true
     end ;;
   refuse ErrExpired when
     match tok.(tok_nbf) with
     | Some nbf => Before (Add now clockSkew) nbf
     | None => false
     end ;;
   let scope := default "" (safeGet_string tok "scope") in
   refuse ErrBadScope when negb (hasScope scope ScopeWriteEvents) ;;
   match nonempty (safeGet_string tok "tenant_id") with
   | None => Err ErrMalformed
   | Some tenant =>
       match nonempty (safeGet_string tok "install_id") with
       | None => Err ErrMalformed
       | Some install =>
           match trust_tier tok with
           | None => Err ErrMalformed
           | Some tier =>
               Ok {| TenantID := tenant; InstallID := install;
                     Scope := scope; TrustTier := tier |}
           end
       end
   end)%go.

(** ** Verify *)

(** [v.key(ctx, kid, now)] as one atomic call of a request. *)
Inductive KeyE : Type → Type :=
| EKey (kid : string) (now : Time) : KeyE (result VerifyErr JKey).

Context {F : Type → Type} `{!SubEffect KeyE F}.

(** [v.Verify(ctx, bearer, now)] *)
Definition Verify (v : Verifier) (bearer : string) (now : Time) :
    Prog F (result VerifyErr Claims) :=
  let raw := stripBearer bearer in
  match jws_Parse raw with
  | Some [hdr] =>
      if negb (bool_decide (hdr.(hdr_alg) = Some "EdDSA")) then Ret (Err ErrBadAlg)
      else if negb (bool_decide (hdr.(hdr_typ) = Some TokenType)) then Ret (Err ErrBadType)
      else
        try (call (EKey (default "" hdr.(hdr_kid)) now)) (λ key,
          match jwt_Parse raw key with
          | None => Ret (Err ErrMalformed)
          | Some tok => Ret (check_claims v tok now)
          end)
  | _ => Ret (Err ErrMalformed)
  end.
End verify.

(** ** The cache: one call of [key] *)

Section cache.
Context `{J : JWX}.
#[local] Arguments jwks_lookup : simpl never.

Definition fetch_answer (ev : event FetchE) : option JSet :=
  match ev_call ev in FetchE X return X → option JSet with EFetch => λ a, a end (ev_answer ev).

(** A key is trusted at [now] when its set is at most TTL plus grace old. *)
Definition trusted (v : Verifier) (now : Time) : Prop :=
  now - v.(v_fetchedAt) ≤ jwksTTL + jwksStaleGrace.

Lemma may_refetch_true v now :
  may_refetch v now = true ↔ now - v.(v_lastRefetch) >= jwksMinRefetch.
Proof.
  unfold may_refetch. rewrite bool_decide_eq_true. apply Sub_ge.
  unfold jwksMinRefetch, int64_min, int64_max, Second. lia.
Qed.

Lemma older_than_false v now d :
  int64_min ≤ d < int64_max →
  older_than v now d = false ↔ is_Some v.(v_set) ∧ now - v.(v_fetchedAt) ≤ d.
Proof.
  intros Hd. unfold older_than.
  rewrite orb_false_iff, !bool_decide_eq_false, (Sub_gt _ _ _ Hd), not_eq_None_Some.
  intuition lia.
Qed.

Lemma older_than_TTL v now :
  older_than v now jwksTTL = false ↔ is_Some v.(v_set) ∧ now - v.(v_fetchedAt) ≤ jwksTTL.
Proof.
  apply older_than_false. unfold jwksTTL, int64_min, int64_max, Minute, Second. lia.
Qed.
Lemma older_than_grace v now :
  older_than v now (jwksTTL + jwksStaleGrace) = false ↔ is_Some v.(v_set) ∧ trusted v now.
Proof.
  apply older_than_false.
  unfold jwksTTL, jwksStaleGrace, int64_min, int64_max, Minute, Second. lia.
Qed.

(** How one call moves the cache: without a fetch, or with one fetch that the
    rate limit admitted. *)
Definition cache_moved (v v' : Verifier) (now : Time) (tr : list (event FetchE)) : Prop :=
  (tr = [] ∧ v'.(v_lastRefetch) = v.(v_lastRefetch) ∧ v'.(v_fetchedAt) = v.(v_fetchedAt)
    ∧ (v'.(v_set) = v.(v_set) ∨ v'.(v_set) = None)) ∨
  (∃ a, tr = [Ev EFetch a] ∧ may_refetch v now = true ∧ v'.(v_lastRefetch) = now ∧
    match a with
    | Some s => v'.(v_set) = Some s ∧ v'.(v_fetchedAt) = now
    | None => v'.(v_fetchedAt) = v.(v_fetchedAt)
              ∧ (v'.(v_set) = v.(v_set) ∨ v'.(v_set) = None)
    end).

Definition key_post (v : Verifier) (kid : string) (now : Time)
    (tr : list (event FetchE)) (rv : result VerifyErr JKey * Verifier) (_ : unit) : Prop :=
  cache_moved v rv.2 now tr ∧
  (∀ k, rv.1 = Ok k →
    kid ≠ "" ∧ jwks_lookup rv.2.(v_set) kid = Some k ∧ trusted rv.2 now) ∧
  (∀ e, rv.1 = Err e → e = ErrUnknownKID).

Lemma moved_still v now : cache_moved v v now [].
Proof. left. auto. Qed.
Lemma moved_drop v now : cache_moved v (drop_set v) now [].
Proof. left. auto. Qed.
Lemma moved_fetched v now s :
  may_refetch v now = true →
  cache_moved v (set_fetched (set_lastRefetch v now) s now) now [Ev EFetch (Some s)].
Proof. right. exists (Some s). auto. Qed.
Lemma moved_failed v now :
  may_refetch v now = true → cache_moved v (set_lastRefetch v now) now [Ev EFetch None].
Proof. right. exists None. split_and!; simpl; auto. Qed.
Lemma moved_failed_drop v now :
  may_refetch v now = true →
  cache_moved v (drop_set (set_lastRefetch v now)) now [Ev EFetch None].
Proof. right. exists None. split_and!; simpl; auto. Qed.

Lemma post_ok v v' kid now tr k :
  cache_moved v v' now tr → kid ≠ "" → jwks_lookup v'.(v_set) kid = Some k →
  trusted v' now → key_post v kid now tr (Ok k, v') tt.
Proof. intros. split_and!; [done| |done]. simpl. intros k' Hk. by simplify_eq. Qed.
Lemma post_err v v' kid now tr :
  cache_moved v v' now tr → key_post v kid now tr (Err ErrUnknownKID, v') tt.
Proof. intros. split_and!; [done|done|]. simpl. intros e He. by simplify_eq. Qed.

Hint Resolve moved_still moved_drop moved_fetched moved_failed moved_failed_drop
  post_ok post_err : et.
Ltac cache_cases := unfold inject, sub_effect_refl; simpl; eauto with et.

Lemma may_refetch_just_now v now : may_refetch (set_lastRefetch v now) now = false.
Proof.
  apply not_true_iff_false. rewrite may_refetch_true. simpl.
  unfold jwksMinRefetch, Second. lia.
Qed.

Lemma trusted_now v s now : trusted (set_fetched v s now) now.
Proof. unfold trusted, jwksTTL, jwksStaleGrace, Minute, Second. simpl. lia. Qed.
Lemma trusted_now_ v s now : trusted (set_fetched (set_lastRefetch v now) s now) now.
Proof. apply (trusted_now (set_lastRefetch v now)). Qed.
Hint Resolve trusted_now_ : et.

(** The lookup phase, from a cache no older than the grace period. *)
Lemma wp_key_lookup v kid now :
  kid ≠ "" → trusted v now →
  wp any_env (key_lookup v kid now) (key_post v kid now) tt.
Proof.
  intros Hkid Ht. unfold key_lookup. destruct (jwks_lookup _ kid) as [k|] eqn:Hk.
  { cache_cases. }
  destruct (may_refetch v now) eqn:Hm; [|cache_cases].
  unfold refetchLocked. rewrite bind_call, bind_Call. intros [s|] [] _; rewrite bind_Ret.
  - destruct (jwks_lookup (v_set (set_fetched _ s now)) kid) eqn:Hl; cache_cases.
  - cache_cases.
Qed.

Lemma wp_key v kid now : wp any_env (key v kid now) (key_post v kid now) tt.
Proof.
  unfold key. case_bool_decide as Hkid; [cache_cases|].
  destruct (older_than v now jwksTTL) eqn:Hold; cycle 1.
  { apply older_than_TTL in Hold as [_ Hold]. apply wp_key_lookup; [done|].
    unfold trusted, jwksStaleGrace, Minute, Second in *. lia. }
  destruct (may_refetch v now) eqn:Hm.
  - unfold refetchLocked. rewrite bind_call, bind_Call. intros [s|] [] _; rewrite bind_Ret; simpl.
    + unfold key_lookup.
      destruct (jwks_lookup (v_set (set_fetched _ s now)) kid) as [k|] eqn:Hk.
      { cache_cases. }
      change (may_refetch _ now) with (may_refetch (set_lastRefetch v now) now).
      rewrite may_refetch_just_now. cache_cases.
    + destruct (older_than (set_lastRefetch v now) now (jwksTTL + jwksStaleGrace)) eqn:Hg; [cache_cases|]. simpl.
      unfold key_lookup. rewrite may_refetch_just_now.
      apply older_than_grace in Hg as [_ Hg].
      destruct (jwks_lookup (v_set (set_lastRefetch v now)) kid) eqn:Hk; cache_cases.
  - rewrite bind_Ret. simpl. destruct (older_than v now (jwksTTL + jwksStaleGrace)) eqn:Hg; [cache_cases|].
    apply older_than_grace in Hg as [_ Hg]. by apply wp_key_lookup.
Qed.

Lemma key_exec v kid now tr rv :
  exec any_env (key v kid now) tt tr rv tt → key_post v kid now tr rv tt.
Proof. apply (proj1 (wp_exec _ _ _ _)), wp_key. Qed.
End cache.

(** ** Histories of the cache *)

Section history.
Context `{J : JWX}.

(** The fetches of one call at [now], newest first. *)
Definition fetch_log (now : Time) (tr : list (event FetchE)) : list (Time * option JSet) :=
  (λ ev, (now, fetch_answer ev)) <$> reverse tr.

(** The caches a verifier can reach, with all the fetches made so far (newest
    first): any kids, any instants (concurrent requests read their clock before
    they get the mutex, so instants need not increase), any fetch results. *)
Inductive cache_reach : list (Time * option JSet) → Verifier → Prop :=
| reach_new issuer audience : cache_reach [] (NewVerifier issuer audience)
| reach_key log v kid now tr r v' :
    cache_reach log v → exec any_env (key v kid now) tt tr (r, v') tt →
    cache_reach (fetch_log now tr ++ log) v'.

(** The newer fetch is at least the refetch interval after the older one. *)
Definition spaced (newer older : Time * option JSet) : Prop :=
  newer.1 - older.1 >= jwksMinRefetch.

(** The cached set was fetched at [fetchedAt], and [lastRefetch] is the last
    fetch. *)
Record cache_ok (log : list (Time * option JSet)) (v : Verifier) : Prop := {
  ok_set s : v.(v_set) = Some s → (v.(v_fetchedAt), Some s) ∈ log;
  ok_last x log' : log = x :: log' → v.(v_lastRefetch) = x.1;
  ok_spaced : StronglySorted spaced log
}.

Lemma spaced_trans x y z : spaced x y → spaced y z → spaced x z.
Proof. unfold spaced, jwksMinRefetch, Second. lia. Qed.

Lemma cache_ok_moved log v v' now tr :
  cache_ok log v → cache_moved v v' now tr → cache_ok (fetch_log now tr ++ log) v'.
Proof.
  intros [Hset Hlast Hsp] [(-> & Hl & Hf & Hs)|(a & -> & Hm & Hl & Ha)].
  - split; simpl; [|intros ?? ->; rewrite Hl; eauto|done].
    intros s Hs'. rewrite Hf. rewrite Hs' in Hs. destruct Hs as [Hs|Hs]; [|done].
    by apply Hset.
  - apply may_refetch_true in Hm. unfold fetch_log.
    change (_ <$> reverse [Ev EFetch a]) with [(now, a)]. simpl. split.
    + intros s Hs. apply elem_of_cons. destruct a as [s'|].
      * destruct Ha as [Ha ->]. left. congruence.
      * rewrite Hs in Ha. destruct Ha as [-> [Ha|Ha]]; [|done]. right. by apply Hset.
    + intros x log' [= <- <-]. done.
    + constructor; [done|]. destruct log as [|x log']; [constructor|].
      assert (spaced (now, a) x) as Hx.
      { unfold spaced. simpl. by rewrite <-(Hlast _ _ eq_refl). }
      constructor; [done|]. apply StronglySorted_inv in Hsp as [_ Hsp].
      eapply Forall_impl; [done|]. intros y Hy. by eapply spaced_trans.
Qed.

Lemma cache_reach_ok log v : cache_reach log v → cache_ok log v.
Proof.
  induction 1 as [issuer audience|log v kid now tr r v' _ IH Hexec].
  - split; [done|done|constructor].
  - apply key_exec in Hexec as (Hmv & _). by eapply cache_ok_moved.
Qed.

Lemma jwks_lookup_shape set kid k :
  jwks_lookup set kid = Some k →
  KeyUsage k = Some "sig" ∧ KeyType k = "OKP" ∧ KeyCrv k = Some "Ed25519".
Proof. unfold jwks_lookup. intros. repeat (case_match || case_bool_decide; simplify_eq/=). done. Qed.
End history.

(** A new verifier fetches the set on its first lookup. *)
Lemma key_first_fetch `{J : JWX} issuer audience kid now s k :
  0 ≤ now → kid ≠ "" → jwks_lookup (Some s) kid = Some k →
  exec any_env (key (NewVerifier issuer audience) kid now) tt [Ev EFetch (Some s)]
    (Ok k, set_fetched (set_lastRefetch (NewVerifier issuer audience) now) s now) tt.
Proof.
  intros Hnow Hkid Hk. unfold key. rewrite bool_decide_false by done.
  change (older_than (NewVerifier issuer audience) now jwksTTL) with true. cbv iota.
  rewrite (proj2 (may_refetch_true _ _)); cycle 1.
  { cbn. unfold zeroTime, jwksMinRefetch, Second in *. lia. }
  unfold refetchLocked. rewrite bind_call, bind_Call.
  exists (Some s), tt, []. split_and!; [done..|]. rewrite bind_Ret. cbn [negb andb].
  unfold key_lookup. cbn [v_set set_fetched]. by rewrite Hk.
Qed.

(** ** The claims [Verify] accepts *)

Section claims.
Context `{J : JWX}.

(** The acceptance conditions, without their order. *)
Record accepted (v : Verifier) (tok : Token) (now : Time) (c : Claims) : Prop := {
  acc_iss : tok.(tok_iss) = Some v.(v_issuer);
  acc_aud : tok.(tok_aud) = [v.(v_audience)];
  acc_exp : ∃ exp, tok.(tok_exp) = Some exp ∧ now ≤ exp + clockSkew;
  acc_nbf : ∀ nbf, tok.(tok_nbf) = Some nbf → nbf ≤ now + clockSkew;
  acc_scope : Scope c = default "" (safeGet_string tok "scope")
              ∧ ScopeWriteEvents ∈ Fields (Scope c);
  acc_tenant : tok.(tok_claims) !! "tenant_id" = Some (CString (TenantID c))
               ∧ TenantID c ≠ "";
  acc_install : tok.(tok_claims) !! "install_id" = Some (CString (InstallID c))
                ∧ InstallID c ≠ "";
  acc_tier : ∃ f, tok.(tok_claims) !! "trust_tier" = Some (CNumber f)
               ∧ (TrustTier c = 0 ∨ TrustTier c = 1)
               ∧ SFeqb (int_to_float (TrustTier c)) f = true
}.

Lemma hasScope_spec scope want : hasScope scope want = true ↔ want ∈ Fields scope.
Proof.
  unfold hasScope. rewrite existsb_exists. setoid_rewrite bool_decide_eq_true.
  setoid_rewrite <-list_elem_of_In. naive_solver.
Qed.

Lemma nonempty_get tok name s :
  nonempty (safeGet_string tok name) = Some s ↔
  tok.(tok_claims) !! name = Some (CString s) ∧ s ≠ "".
Proof.
  unfold nonempty, safeGet_string.
  destruct (_ !! _) as [[]|]; try naive_solver. case_bool_decide; naive_solver.
Qed.

(** The floats equal to 0 and to 1. *)
Lemma SFeqb_0 f : SFeqb (int_to_float 0) f = true ↔ ∃ s, f = S754_zero s.
Proof. destruct f as [| [] | | []]; cbn; naive_solver. Qed.
Lemma SFeqb_1 f :
  SFeqb (int_to_float 1) f = true ↔ f = S754_finite false 4503599627370496 (-52).
Proof.
  split; [|by intros ->]. change (int_to_float 1) with (S754_finite false 4503599627370496 (-52)).
  destruct f as [s|s| |[] m e]; [done|by destruct s|done|done|].
  unfold SFeqb, SFcompare. destruct (Z.compare (-52) e) eqn:He; try done.
  apply Z.compare_eq in He as <-.
  destruct (PosDef.Pos.compare_cont Eq 4503599627370496 m) eqn:Hm; try done.
  by apply Pos.compare_eq in Hm as <-.
Qed.

Lemma trust_tier_spec tok z :
  trust_tier tok = Some z ↔
  ∃ f, tok.(tok_claims) !! "trust_tier" = Some (CNumber f)
    ∧ (z = 0 ∨ z = 1) ∧ SFeqb (int_to_float z) f = true.
Proof.
  unfold trust_tier, safeGet_any. split.
  - destruct (tok_claims tok !! "trust_tier") as [[s|n|f| |]|] eqn:Hc; try done.
    destruct (SFeqb _ f) eqn:Hf; [|done]. simpl.
    case_bool_decide as Ht; [|done]. intros Hz. exists f. simplify_eq/=.
    destruct Ht as [Ht|Ht]; rewrite Ht in *; auto.
  - intros (f & -> & [-> | ->] & Hf).
    + apply SFeqb_0 in Hf as [s ->]. by destruct s.
    + apply SFeqb_1 in Hf as ->. done.
Qed.

Lemma check_claims_spec v tok now c :
  check_claims v tok now = Ok c ↔ accepted v tok now c.
Proof.
  unfold check_claims. rewrite !guard_err_ok, !negb_false_iff, !bool_decide_eq_true.
  rewrite hasScope_spec. split.
  - intros (Hiss & Haud & Hexp & Hnbf & Hscope & H).
    destruct (nonempty (safeGet_string tok "tenant_id")) as [t|] eqn:Ht; [|done].
    destruct (nonempty (safeGet_string tok "install_id")) as [i|] eqn:Hi; [|done].
    destruct (trust_tier tok) as [z|] eqn:Hz; [|done]. injection H as <-.
    apply nonempty_get in Ht, Hi. apply trust_tier_spec in Hz.
    split; simpl; try done.
    + destruct (tok_exp tok) as [exp|]; [|done]. exists exp. split; [done|].
      apply bool_decide_eq_false in Hexp. unfold Add in Hexp. lia.
    + intros nbf Hn. rewrite Hn in Hnbf. apply bool_decide_eq_false in Hnbf.
      unfold Add in Hnbf. lia.
  - intros [Hiss Haud (exp & Hexp & Hle) Hnbf [Hs Hscope] Ht Hi Hz].
    apply nonempty_get in Ht, Hi. apply trust_tier_spec in Hz.
    rewrite Hexp, Ht, Hi, Hz, <-Hs. split_and!; try done.
    + apply bool_decide_eq_false. unfold Add. lia.
    + destruct (tok_nbf tok) as [nbf|]; [|done].
      apply bool_decide_eq_false. unfold Add. specialize (Hnbf _ eq_refl). lia.
    + by destruct c.
Qed.
End claims.

(** ** Accepting runs of [Verify] *)

Section accepting.
Context `{J : JWX} {F : Type → Type} `{!SubEffect KeyE F}.

Lemma Verify_Ok v bearer now tr c :
  exec any_env (Verify (F:=F) v bearer now) tt tr (Ok c) tt ↔
  ∃ hdr k tok,
    jws_Parse (stripBearer bearer) = Some [hdr] ∧
    hdr.(hdr_alg) = Some "EdDSA" ∧ hdr.(hdr_typ) = Some TokenType ∧
    tr = [Ev (inject (EKey (default "" hdr.(hdr_kid)) now)) (Ok k)] ∧
    jwt_Parse (stripBearer bearer) k = Some tok ∧
    accepted v tok now c.
Proof.
  unfold Verify. setoid_rewrite <-check_claims_spec.
  destruct (jws_Parse (stripBearer bearer)) as [[|hdr [|h2 hs]]|];
    try (split; [by intros (_ & ? & _)|by intros (? & ? & ? & ? & _)]).
  case_bool_decide as Halg; [|split; [by intros (_ & ? & _)|naive_solver]].
  case_bool_decide as Htyp; [|split; [by intros (_ & ? & _)|naive_solver]].
  cbn [negb]. unfold try. rewrite bind_call. split.
  - intros (x & [] & tr' & _ & -> & H). destruct x as [k|e]; [|by destruct H as (_ & ? & _)].
    destruct (jwt_Parse _ k) as [tok|] eqn:Htok; [|by destruct H as (_ & ? & _)].
    destruct H as (-> & H & _). exists hdr, k, tok. done.
  - intros (hdr' & k & tok & [= <-] & _ & _ & -> & Htok & Hc).
    exists (Ok k), tt, []. split_and!; [done|done|]. by rewrite Htok, Hc.
Qed.
End accepting.

(** ** Properties *)

Section properties.
Context `{J : JWX}.

(** C20: the JWKS endpoint sees at most one fetch per key resolution, and any two
    fetches of one verifier are at least 30 s apart, whatever kids are presented,
    however request clocks interleave and whatever the endpoint answers. *)
Theorem jwks_fetches_rate_limited log v kid now tr r v' :
  cache_reach log v →
  exec any_env (key v kid now) tt tr (r, v') tt →
  (length tr ≤ 1)%nat ∧ StronglySorted spaced (fetch_log now tr ++ log).
Proof.
  intros Hreach Hexec. split.
  - apply key_exec in Hexec as ([[-> _]|(a & -> & _)] & _); simpl; lia.
  - eapply ok_spaced, cache_reach_ok, reach_key; done.
Qed.

(** C21: a key is only ever returned from a set that was really fetched, at most
    15 minutes (TTL plus grace) before, under the requested non-empty kid, and
    with the shape use=sig, kty=OKP, crv=Ed25519. *)
Theorem key_is_fresh_and_shaped log v kid now tr k v' :
  cache_reach log v →
  exec any_env (key v kid now) tt tr (Ok k, v') tt →
  kid ≠ "" ∧
  (∃ t s, (t, Some s) ∈ fetch_log now tr ++ log ∧ LookupKeyID s kid = Some k
      ∧ now - t ≤ 15 * Minute) ∧
  KeyUsage k = Some "sig" ∧ KeyType k = "OKP" ∧ KeyCrv k = Some "Ed25519".
Proof.
  intros Hreach Hexec. pose proof (key_exec _ _ _ _ _ Hexec) as (_ & Hok & _).
  destruct (Hok k eq_refl) as (Hkid & Hl & Ht). split_and!;
    [done| |by eapply jwks_lookup_shape..].
  pose proof (cache_reach_ok _ _ (reach_key _ _ _ _ _ _ _ Hreach Hexec)) as [Hset _ _].
  simpl in *. destruct (v_set v') as [s|] eqn:Hs; [|done].
  exists (v_fetchedAt v'), s. split_and!; [by apply Hset| |].
  - unfold jwks_lookup in Hl. repeat (case_match || case_bool_decide; simplify_eq/=). done.
  - unfold trusted, jwksTTL, jwksStaleGrace in Ht. lia.
Qed.

(** C22: during a JWKS outage a cached key keeps resolving up to 15 minutes after
    the last successful fetch, and after that no kid resolves and the cached set
    is discarded. *)
Theorem key_outage v s kid k now tr r v' :
  v.(v_set) = Some s → kid ≠ "" → jwks_lookup (Some s) kid = Some k →
  exec any_env (key v kid now) tt tr (r, v') tt →
  Forall (λ ev, fetch_answer ev = None) tr →
  (now - v.(v_fetchedAt) ≤ 15 * Minute → r = Ok k ∧ v'.(v_set) = Some s) ∧
  (now - v.(v_fetchedAt) > 15 * Minute → r = Err ErrUnknownKID ∧ v'.(v_set) = None).
Proof.
  intros Hs Hkid Hk Hexec Hfail.
  assert (jwksTTL + jwksStaleGrace = 15 * Minute) as Hd by done.
  assert (∀ v0, v0.(v_set) = Some s → key_lookup v0 kid now = Ret (Ok k, v0)) as Hhit.
  { intros v0 Hv0. unfold key_lookup. by rewrite Hv0, Hk. }
  assert (∀ v0 d, v0.(v_set) = Some s → v0.(v_fetchedAt) = v.(v_fetchedAt) →
    older_than v0 now d = bool_decide (Sub now v.(v_fetchedAt) > d)) as Hold.
  { intros v0 d Hv0 Hf. unfold older_than. rewrite Hv0, Hf, bool_decide_false; done. }
  pose proof (Sub_gt now v.(v_fetchedAt) (jwksTTL + jwksStaleGrace) ltac:(done)) as Hg.
  pose proof (Sub_gt now v.(v_fetchedAt) jwksTTL ltac:(done)) as Ht.
  unfold key in Hexec. rewrite bool_decide_false in Hexec by done.
  rewrite Hold in Hexec by done. case_bool_decide as Hstale; cycle 1.
  { rewrite Hhit in Hexec by done. destruct Hexec as (_ & [= -> ->] & _).
    split; [done|]. unfold jwksTTL, jwksStaleGrace, Minute, Second in *. lia. }
  apply exec_bind in Hexec as (tr1 & [ok v1] & [] & tr2 & H1 & H2 & ->).
  assert (ok = false ∧ v1.(v_set) = Some s ∧ v1.(v_fetchedAt) = v.(v_fetchedAt))
    as (-> & Hv1 & Hf1).
  { destruct (may_refetch v now).
    - unfold refetchLocked in H1. rewrite bind_call in H1.
      destruct H1 as ([s'|] & [] & tr' & _ & -> & H1); [|by destruct H1 as (_ & [= -> ->] & _)].
      apply Forall_app in Hfail as [Hfail _]. by apply Forall_cons in Hfail as [? _].
    - by destruct H1 as (_ & [= -> ->] & _). }
  simpl in H2. rewrite Hold in H2 by done. case_bool_decide as Hgrace.
  - destruct H2 as (_ & [= -> ->] & _). split; [lia|done].
  - rewrite Hhit in H2 by done. destruct H2 as (_ & [= -> ->] & _). split; [done|lia].
Qed.

Context {F : Type → Type} `{!SubEffect KeyE F}.

(** C16: [Verify] accepts exactly the tokens that meet every acceptance condition:
    one signature, alg EdDSA, typ at+jwt, a kid that resolves, a signature the
    resolved key verifies, and the claim conditions of [accepted] for the
    returned claims. *)
Theorem Verify_accepts_iff v bearer now tr c :
  exec any_env (Verify (F:=F) v bearer now) tt tr (Ok c) tt ↔
  ∃ hdr k tok,
    jws_Parse (stripBearer bearer) = Some [hdr] ∧
    hdr.(hdr_alg) = Some "EdDSA" ∧ hdr.(hdr_typ) = Some TokenType ∧
    tr = [Ev (inject (EKey (default "" hdr.(hdr_kid)) now)) (Ok k)] ∧
    jwt_Parse (stripBearer bearer) k = Some tok ∧
    accepted v tok now c.
Proof. apply Verify_Ok. Qed.

(** no key is looked up, so no key material is touched and no fetch can be
    triggered, before the algorithm and type headers have been checked against
    the allowlist; and there is at most one lookup per token. *)
Theorem Verify_checks_alg_before_key v bearer now tr r :
  exec any_env (Verify (F:=F) v bearer now) tt tr r tt →
  tr ≠ [] →
  ∃ hdr a, jws_Parse (stripBearer bearer) = Some [hdr] ∧
    hdr.(hdr_alg) = Some "EdDSA" ∧ hdr.(hdr_typ) = Some TokenType ∧
    tr = [Ev (inject (EKey (default "" hdr.(hdr_kid)) now)) a].
Proof.
  unfold Verify. intros H Htr.
  destruct (jws_Parse (stripBearer bearer)) as [[|hdr [|h2 hs]]|];
    try by destruct H as [-> _].
  case_bool_decide as Halg; [|by destruct H as [-> _]].
  case_bool_decide as Htyp; [|by destruct H as [-> _]].
  cbn [negb] in H. unfold try in H. rewrite bind_call in H.
  destruct H as (x & [] & tr' & _ & -> & H). exists hdr, x. split_and!; [done..|].
  destruct x as [k|e]; [|by destruct H as (-> & _)].
  by destruct (jwt_Parse _ k); destruct H as (-> & _).
Qed.

(** The nbf claim is optional: a token without it is judged like the same
    token with any nbf already reached.  (ADR-0007 calls nbf required.) *)
Theorem missing_nbf_is_not_checked v tok now nbf :
  tok.(tok_nbf) = None → nbf ≤ now + clockSkew →
  check_claims v tok now =
  check_claims v {| tok_iss := tok.(tok_iss); tok_aud := tok.(tok_aud);
    tok_iat := tok.(tok_iat); tok_nbf := Some nbf; tok_exp := tok.(tok_exp);
    tok_claims := tok.(tok_claims) |} now.
Proof.
  intros Hn Hle. unfold check_claims. rewrite Hn. cbn [tok_iss tok_aud tok_nbf tok_exp tok_claims].
  unfold Before. rewrite (bool_decide_false (Add now clockSkew < nbf)); [done|].
  unfold Add. lia.
Qed.
End properties.

(** ** Witnesses *)

Definition toy_key : ToyKey :=
  {| tk_material := "k1"; tk_kid := "k1"; tk_use := Some "sig"; tk_kty := "OKP"; tk_crv := Some "Ed25519" |}.
Definition toy_now : Time := 1800000000 * Second.
Definition toy_verifier : Verifier := NewVerifier (J:=ToyJWX) "iss" "aud".

(** An endpoint in one fixed state: serving a set, or down. *)
Definition toy_endpoint (a : option (list ToyKey)) (X : Type) (e : FetchE (J:=ToyJWX) X) (w : unit) :
    X * unit :=
  match e with EFetch => (a, w) end.
Definition toy_fetched : Verifier := set_fetched (set_lastRefetch toy_verifier toy_now) [toy_key] toy_now.

Lemma toy_first_fetch :
  exec any_env (key toy_verifier "k1" toy_now) tt [Ev EFetch (Some [toy_key])]
    (Ok toy_key, toy_fetched) tt.
Proof.
  apply (run_exec_any (toy_endpoint (Some [toy_key]))
    (key toy_verifier "k1" toy_now) tt _ _ tt). reflexivity.
Defined.

Lemma toy_reach : cache_reach (fetch_log toy_now [Ev EFetch (Some [toy_key])] ++ []) toy_fetched.
Proof. eapply reach_key; [apply reach_new|apply toy_first_fetch]. Defined.

(** A forged kid 31 s later: one more fetch, and the two are 31 s apart. *)
Lemma jwks_fetches_rate_limited_witness :
  let later := toy_now + 31 * Second in
  (length [Ev EFetch (Some [toy_key])] ≤ 1)%nat ∧
  StronglySorted spaced
    (fetch_log later [Ev (E:=FetchE (J:=ToyJWX)) EFetch (Some [toy_key])]
     ++ fetch_log toy_now [Ev EFetch (Some [toy_key])] ++ []).
Proof.
  intros later.
  apply (jwks_fetches_rate_limited _ toy_fetched "forged" later _ (Err ErrUnknownKID)
    (set_fetched (set_lastRefetch toy_fetched later) [toy_key] later)); [apply toy_reach|].
  apply (run_exec_any (toy_endpoint (Some [toy_key]))
    (key toy_fetched "forged" later) tt _ _ tt). reflexivity.
Defined.

Lemma key_is_fresh_and_shaped_witness :
  "k1" ≠ "" ∧
  (∃ t s, (t, Some s) ∈ fetch_log toy_now [Ev (E:=FetchE (J:=ToyJWX)) EFetch (Some [toy_key])] ++ []
      ∧ LookupKeyID s "k1" = Some toy_key ∧ toy_now - t ≤ 15 * Minute) ∧
  KeyUsage toy_key = Some "sig" ∧ KeyType toy_key = "OKP" ∧ KeyCrv toy_key = Some "Ed25519".
Proof.
  apply (key_is_fresh_and_shaped (J:=ToyJWX) [] toy_verifier "k1" toy_now _ toy_key toy_fetched).
  - apply reach_new.
  - apply toy_first_fetch.
Defined.

(** The endpoint is down: the cached key still resolves after 12 minutes. *)
Lemma key_outage_witness :
  let later := toy_now + 12 * Minute in
  exec any_env (key toy_fetched "k1" later) tt [Ev EFetch None]
    (Ok toy_key, set_lastRefetch toy_fetched later) tt ∧
  (later - toy_now ≤ 15 * Minute →
    Ok toy_key = Ok (E:=VerifyErr) toy_key ∧ v_set (set_lastRefetch toy_fetched later) = Some [toy_key]).
Proof.
  intros later.
  assert (exec any_env (key toy_fetched "k1" later) tt [Ev EFetch None]
    (Ok toy_key, set_lastRefetch toy_fetched later) tt) as Hexec.
  { apply (run_exec_any (toy_endpoint None)
    (key toy_fetched "k1" later) tt _ _ tt). reflexivity. }
  split; [exact Hexec|].
  apply (key_outage (J:=ToyJWX) toy_fetched [toy_key] "k1" toy_key later [Ev EFetch None]
    (Ok toy_key) (set_lastRefetch toy_fetched later)); try done.
  repeat constructor.
Defined.

(** A signed token for the toy verifier. *)
Definition toy_minter : Minter (J:=ToyJWX) :=
  {| m_kid := "k1"; m_key := toy_raw_key "k1"; m_issuer := "iss"; m_audience := "aud";
     m_ttl := 3600 * Second |}.
Definition toy_claims : Claims :=
  {| TenantID := "t1"; InstallID := "i1"; Scope := ScopeWriteEvents; TrustTier := 1 |}.
Definition toy_token : string :=
  toy_text (wire_token (mint_token toy_minter toy_claims toy_now),
            signed_headers (mint_headers toy_minter), "k1").

Lemma toy_token_raw : stripBearer toy_token = toy_token.
Proof. vm_compute. reflexivity. Qed.
Lemma toy_token_parses :
  jws_Parse (JWX:=ToyJWX) (stripBearer toy_token) = Some [signed_headers (mint_headers toy_minter)].
Proof. rewrite toy_token_raw. cbn [jws_Parse ToyJWX]. unfold toy_token. by rewrite toy_read_text. Qed.

Lemma Verify_checks_alg_before_key_witness :
  let tr := [Ev (E:=KeyE) (inject (EKey "k1" toy_now)) (Err ErrUnknownKID)] in
  ∃ hdr a, jws_Parse (stripBearer toy_token) = Some [hdr] ∧
      hdr.(hdr_alg) = Some "EdDSA" ∧ hdr.(hdr_typ) = Some TokenType ∧
      tr = [Ev (inject (EKey (default "" hdr.(hdr_kid)) toy_now)) a].
Proof.
  apply (Verify_checks_alg_before_key (J:=ToyJWX) toy_verifier toy_token toy_now _
    (Err ErrUnknownKID)); [|done].
  unfold Verify. rewrite toy_token_parses, !bool_decide_true by done. cbn [negb].
  unfold try. rewrite bind_call.
  by exists (Err ErrUnknownKID), tt, [].
Defined.

Lemma missing_nbf_is_not_checked_witness :
  let tok := {| tok_iss := Some "iss"; tok_aud := ["aud"]; tok_iat := None; tok_nbf := None;
    tok_exp := Some toy_now;
    tok_claims := <["scope" := CString ScopeWriteEvents]> (<["tenant_id" := CString "t"]>
      (<["install_id" := CString "i"]> (<["trust_tier" := CNumber (int_to_float 0)]> ∅))) |} in
  is_ok (check_claims toy_verifier tok toy_now) = true ∧
  check_claims toy_verifier tok toy_now =
  check_claims toy_verifier {| tok_iss := Some "iss"; tok_aud := ["aud"]; tok_iat := None;
    tok_nbf := Some (toy_now + clockSkew); tok_exp := Some toy_now;
    tok_claims := tok.(tok_claims) |} toy_now.
Proof.
  intros tok. split; [reflexivity|].
  apply (missing_nbf_is_not_checked (J:=ToyJWX) toy_verifier tok toy_now (toy_now + clockSkew)).
  - reflexivity.
  - apply Z.le_refl.
Defined.
