(* ===== verification/Legacy.v ===== *)
(** * Package tenant, legacy.go: JWT or, during the cutover, a legacy write key *)
From S2P Require Import Prelude GoStrings GoTime Prog Crypto Jwx ToyJwx Token Verify.
#[local] Open Scope Z_scope.

Definition LegacyPrefix := "wk_live_".

(** [LegacyMode] is a string type: any value may come out of the database. *)
Definition ModeDualAccept := "dual_accept".
Definition ModeDeprecating := "deprecating".
Definition ModeCutoff := "cutoff".

(** [LegacyResolver.Resolve(ctx, key)]: tenant and mode, or an error. *)
Inductive LegacyE : Type → Type :=
| EResolve (key : string) : LegacyE (result unit (string * string)).

(** The install identity derived from a legacy key. *)
Definition legacy_install_id (raw : string) : string :=
  "legacy-" +:+ hex_encode (take 8 (Sum256 raw)).

Section legacy.
Context `{J : JWX} {F : Type → Type} `{!SubEffect KeyE F, !SubEffect LegacyE F}.

(** [v.VerifyOrLegacy(ctx, bearer, now, lr)]: the claims or error, and whether
    the legacy path was taken. *)
Definition VerifyOrLegacy (v : Verifier) (bearer : string) (now : Time) :
    Prog F (result VerifyErr Claims * bool) :=
  let raw := stripBearer bearer in
  if negb (HasPrefix raw LegacyPrefix) then
    c ← Verify v bearer now; Ret (c, false)
  else
    r ← call (EResolve raw);
    match r with
    | Err _ => Ret (Err ErrResolveLegacy, true)
    | Ok (tenantID, mode) =>
        if bool_decide (mode = ModeDualAccept) || bool_decide (mode = ModeDeprecating) then
          Ret (Ok {| TenantID := tenantID; InstallID := legacy_install_id raw;
                     Scope := ScopeWriteEvents; TrustTier := 1 |}, true)
        else if bool_decide (mode = ModeCutoff) then Ret (Err ErrLegacyCutoff, true)
        else Ret (Err ErrLegacyCutoff, true)
    end.

(** The outcomes of [VerifyOrLegacy], with the call each one makes. *)
Inductive auth_outcome (v : Verifier) (bearer : string) (now : Time) :
    list (event F) → result VerifyErr Claims * bool → Prop :=
| auth_jwt tr c :
    HasPrefix (stripBearer bearer) LegacyPrefix = false →
    exec any_env (Verify v bearer now) tt tr c tt →
    auth_outcome v bearer now tr (c, false)
| auth_legacy_unresolved e :
    HasPrefix (stripBearer bearer) LegacyPrefix = true →
    auth_outcome v bearer now [Ev (inject (EResolve (stripBearer bearer))) (Err e)]
      (Err ErrResolveLegacy, true)
| auth_legacy_accepted tenantID mode :
    HasPrefix (stripBearer bearer) LegacyPrefix = true →
    mode = ModeDualAccept ∨ mode = ModeDeprecating →
    auth_outcome v bearer now
      [Ev (inject (EResolve (stripBearer bearer))) (Ok (tenantID, mode))]
      (Ok {| TenantID := tenantID; InstallID := legacy_install_id (stripBearer bearer);
             Scope := ScopeWriteEvents; TrustTier := 1 |}, true)
| auth_legacy_cutoff tenantID mode :
    HasPrefix (stripBearer bearer) LegacyPrefix = true →
    mode ≠ ModeDualAccept → mode ≠ ModeDeprecating →
    auth_outcome v bearer now
      [Ev (inject (EResolve (stripBearer bearer))) (Ok (tenantID, mode))]
      (Err ErrLegacyCutoff, true).

Lemma VerifyOrLegacy_exec v bearer now tr r :
  exec any_env (VerifyOrLegacy v bearer now) tt tr r tt ↔ auth_outcome v bearer now tr r.
Proof.
  unfold VerifyOrLegacy. split.
  - destruct (HasPrefix (stripBearer bearer) LegacyPrefix) eqn:Hp; cbn [negb].
    + rewrite bind_call. intros ([[tenantID mode]|e] & [] & tr' & _ & -> & H);
        [|destruct H as (-> & -> & _); by constructor].
      repeat case_bool_decide; destruct H as (-> & -> & _); constructor; auto.
    + intros (tr1 & c & [] & tr2 & Hc & (-> & -> & _) & ->)%exec_bind.
      rewrite app_nil_r. by constructor.
  - destruct 1 as [tr c Hp Hc|e Hp|tenantID mode Hp Hm|tenantID mode Hp Hm1 Hm2];
      rewrite Hp; cbn [negb]; rewrite ?bind_call.
    + apply exec_bind. exists tr, c, tt, []. rewrite app_nil_r. done.
    + by exists (Err e), tt, [].
    + exists (Ok (tenantID, mode)), tt, []. split_and!; [done|done|].
      destruct Hm as [-> | ->]; done.
    + exists (Ok (tenantID, mode)), tt, []. split_and!; [done|done|].
      rewrite !bool_decide_false by done. by case_bool_decide.
Qed.
End legacy.

Lemma legacy_install_id_length raw : String.length (legacy_install_id raw) = 23%nat.
Proof.
  unfold legacy_install_id. rewrite length_app_string, length_hex_encode, length_take.
  by rewrite (proj1 (Sum256_bytes_ok raw)).
Qed.

Lemma stripBearer_scheme raw : no_space raw → stripBearer ("Bearer " +:+ raw) = raw.
Proof.
  intros Hraw. unfold stripBearer.
  replace ("Bearer " +:+ raw) with ("Bearer" +:+ String " " raw) by done.
  rewrite (proj2 (Cut_Some _ _ "Bearer" raw)) by done.
  change (EqualFold "Bearer" "Bearer") with true. by apply TrimSpace_no_space.
Qed.

Lemma HasPrefix_conflict s p q c d p' q' :
  p = String c p' → q = String d q' → c ≠ d → HasPrefix s p = true → HasPrefix s q = false.
Proof.
  intros -> -> Hcd [r ->]%HasPrefix_spec. unfold HasPrefix. simpl.
  by rewrite decide_False.
Qed.

(** What a verifier for the same issuer and audience makes of a minted token. *)
Lemma minted_accepted `{J : JWX} v m c now now' :
  m.(m_issuer) = v.(v_issuer) → m.(m_audience) = v.(v_audience) →
  c.(TenantID) ≠ "" → c.(InstallID) ≠ "" → hasScope c.(Scope) ScopeWriteEvents = true →
  c.(TrustTier) = 0 ∨ c.(TrustTier) = 1 →
  now - clockSkew ≤ now' ≤ wire_time (now + m.(m_ttl)) + clockSkew →
  accepted v (wire_token (mint_token m c now)) now' c.
Proof.
  intros Hiss Haud Ht Hi Hs Htier [Hlo Hhi].
  split; cbn [wire_token tok_iss tok_aud tok_nbf tok_exp tok_claims mint_token].
  - by rewrite Hiss.
  - by rewrite Haud.
  - eexists. split; [done|]. done.
  - intros nbf [= <-]. unfold wire_time, Second in *. divlia.
  - unfold safeGet_string. cbn [wire_token tok_claims mint_token].
    rewrite lookup_fmap. simplify_map_eq. by apply hasScope_spec in Hs.
  - rewrite lookup_fmap. by simplify_map_eq.
  - rewrite lookup_fmap. by simplify_map_eq.
  - exists (int_to_float c.(TrustTier)). rewrite lookup_fmap. simplify_map_eq.
    split_and!; [done|done|]. by destruct Htier as [-> | ->].
Qed.

Section minted.
Context `{J : JWX} `{L : !JWXLaws J} {F : Type → Type} `{!SubEffect KeyE F, !SubEffect LegacyE F}.

(** The run behind the round trip of [Mint] and [VerifyOrLegacy]. *)
Lemma minted_outcome v m c now raw expires_in pk now' :
  Mint m c now = Some (raw, expires_in) →
  keypair m.(m_key) pk →
  m.(m_issuer) = v.(v_issuer) → m.(m_audience) = v.(v_audience) →
  c.(TenantID) ≠ "" → c.(InstallID) ≠ "" → hasScope c.(Scope) ScopeWriteEvents = true →
  c.(TrustTier) = 0 ∨ c.(TrustTier) = 1 →
  now - clockSkew ≤ now' ≤ wire_time (now + m.(m_ttl)) + clockSkew →
  auth_outcome (F:=F) v ("Bearer " +:+ raw) now'
    [Ev (inject (EKey m.(m_kid) now')) (Ok pk)] (Ok c, false).
Proof.
  unfold Mint. intros Hmint Hpair Hiss Haud Ht Hi Hs Htier Hnow.
  destruct (jwt_Sign _ _ _) as [raw'|] eqn:Hsign; [|done]. simplify_eq.
  destruct (sign_compact _ _ _ _ Hsign) as (Hns & _ & Hey).
  constructor; rewrite ?stripBearer_scheme by done.
  { by eapply (HasPrefix_conflict raw "ey" LegacyPrefix). }
  apply Verify_Ok. rewrite stripBearer_scheme by done.
  eexists _, pk, _. split_and!; [by eapply sign_parse_headers|done|done|done|
    by eapply sign_parse_token|by apply minted_accepted].
Qed.

Lemma minted_headers m c now raw expires_in :
  Mint m c now = Some (raw, expires_in) → jws_Parse raw = Some [signed_headers (mint_headers m)].
Proof.
  unfold Mint. destruct (jwt_Sign _ _ _) as [raw'|] eqn:Hsign; [|done]. intros [= -> _].
  by eapply sign_parse_headers.
Qed.

(** Every run on a minted token asks for the minter's key once and goes by the answer. *)
Lemma minted_run v m c now raw expires_in now' tr r legacy :
  Mint m c now = Some (raw, expires_in) →
  exec any_env (VerifyOrLegacy (F:=F) v ("Bearer " +:+ raw) now') tt tr (r, legacy) tt →
  ∃ a, tr = [Ev (inject (EKey m.(m_kid) now')) a] ∧
    ∀ pk, a = Ok pk → keypair m.(m_key) pk →
      r = check_claims v (wire_token (mint_token m c now)) now'.
Proof.
  intros Hmint Hexec. pose proof (minted_headers _ _ _ _ _ Hmint) as Hhdr. unfold Mint in Hmint.
  destruct (jwt_Sign _ _ _) as [raw'|] eqn:Hsign; [|done]. injection Hmint as -> _.
  destruct (sign_compact _ _ _ _ Hsign) as (Hns & _ & Hey). unfold VerifyOrLegacy in Hexec.
  rewrite stripBearer_scheme, (HasPrefix_conflict raw "ey" LegacyPrefix "e" "w" "y" "k_live_") in Hexec by done.
  cbn [negb] in Hexec. apply exec_bind in Hexec as (tr1 & c1 & [] & tr2 & Hv & (-> & [= <- ->] & _) & ->).
  rewrite app_nil_r. unfold Verify in Hv. rewrite stripBearer_scheme, Hhdr, !bool_decide_true in Hv by done.
  cbn [negb] in Hv. unfold try in Hv. rewrite bind_call in Hv. destruct Hv as (a & [] & tr' & _ & -> & Hv).
  exists a. destruct a as [k|e].
  - destruct (jwt_Parse raw k) as [tok|] eqn:Htok; destruct Hv as (-> & -> & _); (split; [done|]);
      intros pk [= ->] Hpair; rewrite (sign_parse_token _ _ _ _ _ Hsign Hpair) in Htok; by simplify_eq.
  - destruct Hv as (-> & -> & _). by split.
Qed.
End minted.

(** ** Properties *)

(** C23: a legacy write key authenticates exactly when its tenant is in one of the
    two cutover modes that still allow it; it then always gets tier 1, the write
    scope and the install bucket derived from the key.  An error, the cutoff mode
    and any unknown mode are refusals, and the JWKS is never consulted. *)
Theorem legacy_key_fails_closed `{J : JWX} {F : Type → Type}
    `{!SubEffect KeyE F, !SubEffect LegacyE F} v bearer now tr r legacy :
  HasPrefix (stripBearer bearer) LegacyPrefix = true →
  exec any_env (VerifyOrLegacy (F:=F) v bearer now) tt tr (r, legacy) tt →
  legacy = true ∧
  ∃ a, tr = [Ev (inject (EResolve (stripBearer bearer))) a] ∧
  ∀ c, r = Ok c ↔
    (∃ tenantID mode, a = Ok (tenantID, mode) ∧
      (mode = ModeDualAccept ∨ mode = ModeDeprecating) ∧
      c = {| TenantID := tenantID; InstallID := legacy_install_id (stripBearer bearer);
             Scope := ScopeWriteEvents; TrustTier := 1 |}).
Proof.
  intros Hp H%VerifyOrLegacy_exec.
  inversion H as [? ? Hp' ?|e _|tenantID mode _ Hm|tenantID mode _ Hm1 Hm2]; subst;
    [congruence|split; [done|]; eexists; split; [done|]; intros c..].
  - split; [done|]. by intros (? & ? & ? & _).
  - split; [intros [= <-]; by eexists _, _|].
    intros (t & m & [= <- <-] & _ & ->). done.
  - split; [done|]. intros (t & m & [= <- <-] & [?|?] & _); done.
Qed.

(** C17: mint then verify is the identity on claims: a token minted for write
    claims by the key the JWKS publishes is accepted by the ingest endpoint as
    exactly those claims, from 60 s before it was minted until 60 s after it
    expires, and is never mistaken for a legacy key. *)
Theorem mint_verify_roundtrip `{J : JWX} `{L : !JWXLaws J} {F : Type → Type}
    `{!SubEffect KeyE F, !SubEffect LegacyE F} v m c now raw expires_in pk now' :
  Mint m c now = Some (raw, expires_in) →
  keypair m.(m_key) pk →
  m.(m_issuer) = v.(v_issuer) → m.(m_audience) = v.(v_audience) →
  c.(TenantID) ≠ "" → c.(InstallID) ≠ "" → hasScope c.(Scope) ScopeWriteEvents = true →
  c.(TrustTier) = 0 ∨ c.(TrustTier) = 1 →
  now - clockSkew ≤ now' →
  now' ≤ wire_time (now + m.(m_ttl)) + clockSkew →
  exec any_env (VerifyOrLegacy (F:=F) v ("Bearer " +:+ raw) now') tt
    [Ev (inject (EKey m.(m_kid) now')) (Ok pk)] (Ok c, false) tt.
Proof.
  intros. apply VerifyOrLegacy_exec. by eapply minted_outcome.
Qed.

(** ** Witnesses *)

(** The two effects side by side. *)
Definition AuthE (X : Type) : Type := KeyE (J:=ToyJWX) X + LegacyE X.
#[export] Instance AuthE_key : SubEffect KeyE AuthE := λ X e, inl e.
#[export] Instance AuthE_legacy : SubEffect LegacyE AuthE := λ X e, inr e.

(** Keys resolve to the toy key; legacy keys to tenant t1 in [mode]. *)
Definition toy_auth (mode : string) (X : Type) (e : AuthE X) (w : unit) : X * unit :=
  match e with
  | inl e => match e in KeyE X return X * unit with EKey _ _ => (Ok toy_key, w) end
  | inr e => match e in LegacyE X return X * unit with EResolve _ => (Ok ("t1", mode), w) end
  end.

Lemma legacy_key_fails_closed_witness :
  let raw := "wk_live_abc" in
  let tr := [Ev (E:=AuthE) (inject (EResolve raw)) (Ok ("t1", "paused"))] in
  true = true ∧
  ∃ a, tr = [Ev (inject (EResolve raw)) a] ∧
  ∀ c, Err ErrLegacyCutoff = Ok c ↔
    (∃ tenantID mode, a = Ok (tenantID, mode) ∧
      (mode = ModeDualAccept ∨ mode = ModeDeprecating) ∧
      c = {| TenantID := tenantID; InstallID := legacy_install_id raw;
             Scope := ScopeWriteEvents; TrustTier := 1 |}).
Proof.
  apply (legacy_key_fails_closed (F:=AuthE) toy_verifier "Bearer wk_live_abc" toy_now _
    (Err ErrLegacyCutoff) true); [reflexivity|].
  apply (run_exec_any (toy_auth "paused")
    (VerifyOrLegacy (F:=AuthE) toy_verifier "Bearer wk_live_abc" toy_now) tt _ _ tt). reflexivity.
Defined.

Lemma mint_verify_roundtrip_witness :
  Mint toy_minter toy_claims toy_now = Some (toy_token, 3600) ∧
  exec any_env (VerifyOrLegacy (F:=AuthE) toy_verifier ("Bearer " +:+ toy_token)
      (toy_now + 1800 * Second)) tt
    [Ev (inject (EKey "k1" (toy_now + 1800 * Second))) (Ok toy_key)] (Ok toy_claims, false) tt.
Proof.
  split; [reflexivity|].
  apply (mint_verify_roundtrip (F:=AuthE) toy_verifier toy_minter toy_claims toy_now toy_token 3600
    toy_key (toy_now + 1800 * Second)); try reflexivity; try done.
  - by right.
Defined.
