(* ===== verification/Redis.v ===== *)
(** * Redis as an interface

    The service keeps its counters and nonces in Redis through Lua scripts and
    plain commands.  [RedisLib] names the commands; [RedisLaws] states their
    documented effect on the value and the remaining time to live of every key.
    Time passes only through [rd_elapse].  [ToyRedis] is a concrete instance.

    Numbers inside a script are Lua numbers, that is float64: [lua_num] rounds an
    integer to the nearest one a float64 holds. *)
From S2P Require Import Prelude GoStrings GoTime Prog.
#[local] Open Scope Z_scope.

(** ** Lua numbers *)

(** [z] rounded to 53 significant bits, ties to even. *)
Definition lua_num (z : Z) : Z :=
  let e := Z.log2 (Z.abs z) - 52 in
  if bool_decide (e ≤ 0) then z
  else
    let q := Z.abs z / 2 ^ e in
    let r := Z.abs z `mod` 2 ^ e in
    let up := bool_decide (2 * r > 2 ^ e) || (bool_decide (2 * r = 2 ^ e) && Z.odd q) in
    Z.sgn z * ((if up then q + 1 else q) * 2 ^ e).

Definition lua_add (a b : Z) : Z := lua_num (a + b).

Example lua_num_ex : lua_num (2 ^ 53 + 1) = 2 ^ 53 ∧ lua_num (2 ^ 53 + 3) = 2 ^ 53 + 4.
Proof. done. Qed.

Definition lua_exact (z : Z) : Prop := Z.abs z < 2 ^ 53.

Lemma lua_num_exact z : lua_exact z → lua_num z = z.
Proof.
  unfold lua_exact, lua_num. intros Hz.
  rewrite bool_decide_true; [done|].
  destruct (decide (Z.abs z = 0)) as [->|Hne]; [done|].
  assert (Z.log2 (Z.abs z) < 53) by (apply Z.log2_lt_pow2; lia). lia.
Qed.

(** ** The commands *)

Class RedisLib := {
  Redis : Type;
  rd_get : string → Redis → option string;                (* GET *)
  rd_ttl : string → Redis → Z;                            (* TTL *)
  rd_incrby : string → Z → Redis → option (Z * Redis);    (* INCRBY; None: error reply *)
  rd_expire : string → Z → Redis → Redis;                 (* EXPIRE, seconds *)
  rd_set : string → string → Z → Redis → Redis;           (* SET with a TTL, ns *)
  rd_getdel : string → Redis → option string * Redis;     (* GETDEL *)
  rd_elapse : Z → Redis → Redis;                          (* that many ms pass *)
  lua_tonumber : string → option Z                        (* None: nil *)
}.

(** [rd_view r k]: the live value of [k] with its remaining ms, if it has any. *)
Class RedisLaws (R : RedisLib) := {
  rd_view : Redis → string → option (string * option Z);
  rd_get_view k r : rd_get k r = fst <$> rd_view r k;
  rd_ttl_view k r : rd_ttl k r < 0 ↔ rd_view r k ≫= snd = None;
  rd_incrby_new k n r :
    rd_view r k = None → in_int64 n →
    ∃ r', rd_incrby k n r = Some (n, r') ∧
      ∀ j, rd_view r' j = if decide (j = k) then Some (pretty n, None) else rd_view r j;
  rd_incrby_old k n r z ttl :
    rd_view r k = Some (pretty z, ttl) → in_int64 z → in_int64 n → in_int64 (z + n) →
    ∃ r', rd_incrby k n r = Some (z + n, r') ∧
      ∀ j, rd_view r' j = if decide (j = k) then Some (pretty (z + n), ttl) else rd_view r j;
  rd_incrby_overflow k n r z ttl :
    rd_view r k = Some (pretty z, ttl) → in_int64 z → in_int64 n → ¬ in_int64 (z + n) →
    rd_incrby k n r = None;
  (** INCRBY touches no other key and keeps the time to live of its own. *)
  rd_incrby_frame k n r z r' j :
    rd_incrby k n r = Some (z, r') → j ≠ k → rd_view r' j = rd_view r j;
  rd_expire_view k s r j :
    0 < s →
    rd_view (rd_expire k s r) j =
      if decide (j = k) then (λ vt, (vt.1, Some (s * 1000))) <$> rd_view r k else rd_view r j;
  rd_set_view k v ttl r j :
    Millisecond ≤ ttl →
    rd_view (rd_set k v ttl r) j =
      if decide (j = k) then Some (v, Some (ttl `div` Millisecond)) else rd_view r j;
  rd_set_value k v ttl r j :
    fst <$> rd_view (rd_set k v ttl r) j = if decide (j = k) then Some v else fst <$> rd_view r j;
  rd_getdel_view k r j :
    (rd_getdel k r).1 = fst <$> rd_view r k ∧
    rd_view (rd_getdel k r).2 j = if decide (j = k) then None else rd_view r j;
  rd_elapse_view d r k :
    0 ≤ d →
    rd_view (rd_elapse d r) k =
      match rd_view r k with
      | Some (v, Some t) => if decide (d < t) then Some (v, Some (t - d)) else None
      | x => x
      end;
  lua_tonumber_int z : in_int64 z → lua_tonumber (pretty z) = Some (lua_num z)
}.

(** ** A concrete instance: values with their remaining milliseconds *)

Definition parse_int (s : string) : option Z :=
  let z := match s with String "-" t => - undec 0 t | _ => undec 0 s end in
  if bool_decide (pretty z = s) then Some z else None.

Lemma parse_int_pretty z : parse_int (pretty z) = Some z.
Proof.
  assert (∀ s, undec 0 s = z → pretty z = s → (∀ t, s ≠ String "-" t) → parse_int s = Some z) as Hpos.
  { intros s Hu Hp Hs. unfold parse_int.
    assert (match s with String "-" t => - undec 0 t | _ => undec 0 s end = z) as ->
      by (destruct s as [|[[] [] [] [] [] [] [] []] s]; try done; by destruct (Hs s)).
    by rewrite bool_decide_true. }
  destruct (decide (0 ≤ z)) as [Hz|Hz].
  - apply Hpos; [by apply undec_pretty|done|].
    intros t Ht. assert (undec 0 (pretty z) = z) as Hu by by apply undec_pretty.
    rewrite Ht in Hu. clear -Ht Hz. rewrite pretty_nonneg in Ht by done.
    unfold pretty, pretty_N in Ht. case_decide; [done|]. revert Ht.
    generalize (Z.to_N z). intros x. 
    assert (∀ x s, (∀ u, s ≠ String "-" u) → pretty_N_go x s ≠ String "-" t) as Hgo.
    { clear. intros x. induction (N.lt_wf_0 x) as [x _ IH]. intros s Hs.
      destruct (decide (x = 0)%N) as [->|]; [by rewrite pretty_N_go_0|].
      rewrite pretty_N_go_step by lia. apply IH; [apply N.div_lt; lia|].
      intros u [= Hd _]. revert Hd. unfold pretty_N_char. by repeat case_match. }
    by apply Hgo.
  - destruct z as [|p|p]; [lia|lia|].
    change (pretty (Zneg p)) with (String "-" (pretty (Zpos p))). unfold parse_int.
    rewrite undec_pretty by lia. by rewrite bool_decide_true.
Qed.

Definition ToyStore : Type := gmap string (string * option Z).

#[export] Instance ToyRedis : RedisLib := {
  Redis := gmap string (string * option Z);
  rd_get k r := fst <$> r !! k;
  rd_ttl k r :=
    match r !! k with
    | None => -2
    | Some (_, None) => -1
    | Some (_, Some t) => Z.max 0 ((t + 500) `div` 1000)
    end;
  rd_incrby k n r :=
    match r !! k with
    | None => if decide (int64_min ≤ n ≤ int64_max) then Some (n, <[k := (pretty n, None)]> r) else None
    | Some (s, t) =>
        match parse_int s with
        | None => None
        | Some z =>
            if decide (int64_min ≤ z + n ≤ int64_max)
            then Some (z + n, <[k := (pretty (z + n), t)]> r) else None
        end
    end;
  rd_expire k s r :=
    match r !! k with
    | None => r
    | Some (v, _) => if decide (0 < s) then <[k := (v, Some (s * 1000))]> r else delete k r
    end;
  rd_set k v ttl r := <[k := (v, Some (ttl `div` Millisecond))]> r;
  rd_getdel k r := (fst <$> r !! k, delete k r);
  rd_elapse d r :=
    omap (λ vt : string * option Z, match vt with
      | (v, Some t) => if decide (d < t) then Some (v, Some (t - d)) else None
      | _ => Some vt
      end) r;
  lua_tonumber s := lua_num <$> parse_int s
}.

#[local] Obligation Tactic := idtac.
#[export] Program Instance ToyRedisLaws : RedisLaws ToyRedis := {
  rd_view r k := (r : gmap string (string * option Z)) !! k
}.
Next Obligation. done. Qed.
Next Obligation.
  intros k r. simpl. destruct ((r : gmap string (string * option Z)) !! k) as [[v [t|]]|]; simpl; split; try done;
    intros; first [lia | exfalso; lia].
Qed.
Next Obligation.
  intros k n r Hk Hn. simpl. rewrite Hk, decide_True by done. eexists; split; [done|].
  intros j. destruct (decide (j = k)) as [->|]; by simplify_map_eq.
Qed.
Next Obligation.
  intros k n r z ttl Hk Hz Hn Hzn. simpl. rewrite Hk, parse_int_pretty, decide_True by done.
  eexists; split; [done|]. intros j. destruct (decide (j = k)) as [->|]; by simplify_map_eq.
Qed.
Next Obligation.
  intros k n r z ttl Hk Hz Hn Hzn. simpl. by rewrite Hk, parse_int_pretty, decide_False.
Qed.
Next Obligation.
  intros k n r z r' j H Hj. simpl in H. repeat case_match; simplify_eq; by simplify_map_eq.
Qed.
Next Obligation.
  intros k s r j Hs. simpl. destruct ((r : gmap string (string * option Z)) !! k) as [[v t]|] eqn:Hk.
  - rewrite decide_True by done. destruct (decide (j = k)) as [->|]; by simplify_map_eq.
  - destruct (decide (j = k)) as [->|]; by simplify_map_eq.
Qed.
Next Obligation.
  intros k v ttl r j _. simpl. destruct (decide (j = k)) as [->|]; by simplify_map_eq.
Qed.
Next Obligation.
  intros k v ttl r j. simpl. destruct (decide (j = k)) as [->|]; by simplify_map_eq.
Qed.
Next Obligation.
  intros k r j. simpl. split; [done|]. destruct (decide (j = k)) as [->|]; by simplify_map_eq.
Qed.
Next Obligation.
  intros d r k _. simpl. rewrite lookup_omap.
  by destruct ((r : gmap string (string * option Z)) !! k) as [[v [t|]]|].
Qed.
Next Obligation. intros z Hz. simpl. by rewrite parse_int_pretty. Qed.

(** ** What a client sees

    One command or script runs atomically.  Its reply may be lost after it took
    effect, the client library may then send it again, time passes, and in the
    end the caller gets the reply of the last execution or an error. *)
Section served.
Context `{R : RedisLib} {X : Type} (op : Redis → X * Redis) (failed : X).

Inductive served : Redis → X → Redis → Prop :=
| served_now r : served r (op r).1 (op r).2
| served_error r : served r failed r
| served_lost r x r' : served (op r).2 x r' → served r x r'
| served_wait d r x r' : 0 ≤ d → served (rd_elapse d r) x r' → served r x r'.

Lemma served_answer r x r' : served r x r' → x = failed ∨ ∃ r0, x = (op r0).1.
Proof. induction 1; eauto. Qed.

(** A predicate kept by the command and by time is kept by any number of
    attempts. *)
Lemma served_invariant (I : Redis → Prop) r x r' :
  (∀ r, I r → I (op r).2) → (∀ d r, 0 ≤ d → I r → I (rd_elapse d r)) →
  served r x r' → I r → I r'.
Proof. intros Hop Hd. induction 1; eauto. Qed.
End served.
