(* ===== verification/Quota.v ===== *)
(** * Package quota: per-tenant daily budgets and per-install rate limits

    The two Lua scripts are functions on the Redis state; a script that raises an
    error answers [None] and keeps the writes it already made.  [Allow] and
    [AllowClient] are the Go code around them. *)
From S2P Require Import Prelude GoStrings GoTime Prog Limits Token Redis.
#[local] Open Scope Z_scope.

Section scripts.
Context `{R : RedisLib}.

(** [tonumber(redis.call('GET', key) or '0')]; [None] is nil. *)
Definition lua_counter (key : string) (r : Redis) : option Z :=
  lua_tonumber (default "0" (rd_get key r)).

(** [limit > 0 and cur + n > limit]; [None] is the error of arithmetic on nil. *)
Definition over_limit (limit : Z) (cur : option Z) (n : Z) : option bool :=
  if bool_decide (limit > 0) then
    match cur with
    | Some cur => Some (bool_decide (lua_add cur n > limit))
    | None => None
    end
  else Some false.

(** INCRBY then EXPIRE; [None] is the error of INCRBY. *)
Definition consume (key : string) (n ttl : Z) (r : Redis) : option Redis :=
  match rd_incrby key n r with
  | Some (_, r) => Some (rd_expire key ttl r)
  | None => None
  end.

(** [allowScript] *)
Definition allowScript (rate_key day_key : string) (n rps daily rate_ttl day_ttl : Z)
    (r : Redis) : option (Z * string) * Redis :=
  let n := lua_num n in
  let rps := lua_num rps in
  let daily := lua_num daily in
  match over_limit rps (lua_counter rate_key r) n with
  | None => (None, r)
  | Some true => (Some (0, "rate_limit"), r)
  | Some false =>
      match over_limit daily (lua_counter day_key r) n with
      | None => (None, r)
      | Some true => (Some (0, "daily_quota"), r)
      | Some false =>
          match consume rate_key n rate_ttl r with
          | None => (None, r)
          | Some r =>
              match consume day_key n day_ttl r with
              | None => (None, r)
              | Some r => (Some (1, ""), r)
              end
          end
      end
  end.

(** [clientRateScript] *)
Definition clientRateScript (key : string) (ttl : Z) (r : Redis) : option Z * Redis :=
  match rd_incrby key 1 r with
  | None => (None, r)
  | Some (n, r) =>
      (Some n,
       if bool_decide (n = 1) || bool_decide (rd_ttl key r < 0)
       then rd_expire key ttl r else r)
  end.
End scripts.

(** ** The Go side *)

(** One script run through the client; [None] is an error. *)
Inductive QuotaE : Type → Type :=
| EAllow (rate_key day_key : string) (n rps daily rate_ttl day_ttl : Z) :
    QuotaE (option (Z * string))
| EClientRate (key : string) (ttl : Z) : QuotaE (option Z).

Record Decision := { Allowed : bool; RetryAfter : Z; Reason : string }.

Definition rateKey (cl : Claims) (now : Time) : string :=
  "rl:{" +:+ cl.(TenantID) +:+ "}:" +:+ cl.(InstallID) +:+ ":" +:+ pretty (Unix now).
Definition dayKey (cl : Claims) (now : Time) : string :=
  "q:{" +:+ cl.(TenantID) +:+ "}:" +:+ FormatDate now.

(** [untilNextUTCDay(now)] *)
Definition untilNextUTCDay (now : Time) : Z :=
  let next := Add (Truncate now (24 * Hour)) (24 * Hour) in
  Sub next now.

(** The decision [Allow] makes of the script's answer. *)
Definition decision (now : Time) (res : Z * string) : Decision :=
  if bool_decide (res.1 = 1) then {| Allowed := true; RetryAfter := 0; Reason := "" |}
  else
    let retryAfter :=
      if bool_decide (res.2 = "daily_quota") then untilNextUTCDay now else Second in
    {| Allowed := false; RetryAfter := retryAfter; Reason := res.2 |}.

Section checker.
Context {F : Type → Type} `{!SubEffect QuotaE F}.

(** [c.Allow(ctx, cl, lim, n, now)]; the error is [unit]: the callers do not look
    into it. *)
Definition Allow (cl : Claims) (lim : Quota) (n : Z) (now : Time) :
    Prog F (result unit Decision) :=
  res ← call (EAllow (rateKey cl now) (dayKey cl now) n lim.(RPS) lim.(DailyEvents)
                2 (SecondsInt (48 * Hour)));
  match res with
  | None => Ret (Err ())
  | Some res => Ret (Ok (decision now res))
  end.

(** [c.AllowClient(ctx, key, limit, window)] *)
Definition AllowClient (key : string) (limit window : Z) : Prog F (result unit bool) :=
  n ← call (EClientRate key (SecondsInt window));
  match n with
  | None => Ret (Err ())
  | Some n => Ret (Ok (bool_decide (n ≤ limit)))
  end.
End checker.

(** What each script does to Redis. *)
Definition quota_exec `{R : RedisLib} {X} (e : QuotaE X) : Redis → X * Redis :=
  match e with
  | EAllow rk dk n rps daily rt dt => allowScript rk dk n rps daily rt dt
  | EClientRate k ttl => clientRateScript k ttl
  end.
Definition quota_failed {X} (e : QuotaE X) : X :=
  match e with EAllow _ _ _ _ _ _ _ => None | EClientRate _ _ => None end.
Definition quota_sem `{R : RedisLib} : semantics QuotaE Redis :=
  λ X e r x r', served (quota_exec e) (quota_failed e) r x r'.

(** ** Effect of one script run on one key *)

Section effects.
Context {R : RedisLib} {L : RedisLaws R}.

(** [holds k z ttl r]: the counter [k] reads [z]. *)
Definition holds (k : string) (z : Z) (r : Redis) : Prop :=
  (rd_view r k = None ∧ z = 0) ∨ ∃ ttl, rd_view r k = Some (pretty z, ttl).

Lemma lua_counter_holds k z r :
  holds k z r → in_int64 z → lua_counter k r = Some (lua_num z).
Proof.
  unfold lua_counter. rewrite rd_get_view. intros [[-> ->]|[ttl ->]] Hz; simpl.
  - change "0" with (pretty 0). by apply lua_tonumber_int.
  - by apply lua_tonumber_int.
Qed.

Lemma over_limit_exact limit z n :
  lua_exact z → lua_exact n → lua_exact (z + n) → lua_exact limit →
  over_limit (lua_num limit) (Some (lua_num z)) (lua_num n)
  = Some (bool_decide (0 < limit < z + n)).
Proof.
  intros Hz Hn Hzn Hl. unfold over_limit, lua_add.
  rewrite (lua_num_exact z), (lua_num_exact n), (lua_num_exact limit), (lua_num_exact (z + n)) by done.
  repeat case_bool_decide; first [done|exfalso; lia].
Qed.

(** What a key may see of one run that charges [n] to it under [limit] and arms
    [ttl] ms: nothing, or an admitted charge. *)
Inductive key_effect (k : string) (limit n ttl : Z) (r r' : Redis) (admitted : bool) : Prop :=
| key_kept : rd_view r' k = rd_view r k → admitted = false → key_effect k limit n ttl r r' admitted
| key_charged :
    over_limit (lua_num limit) (lua_counter k r) (lua_num n) = Some false →
    (∀ z, holds k z r → in_int64 z → in_int64 n → in_int64 (z + n) → lua_num n = n →
      rd_view r' k = Some (pretty (z + n), Some ttl)) →
    key_effect k limit n ttl r r' admitted.

Lemma consume_view k n ttl r r' z :
  consume k n ttl r = Some r' → 0 < ttl → holds k z r →
  in_int64 z → in_int64 n → in_int64 (z + n) →
  rd_view r' k = Some (pretty (z + n), Some (ttl * 1000)).
Proof.
  unfold consume. intros Hc Httl Hz Hz64 Hn Hzn.
  destruct (rd_incrby k n r) as [[y r1]|] eqn:Hi; [|done]. injection Hc as <-.
  rewrite rd_expire_view, decide_True by done.
  destruct Hz as [[Hv ->]|[t Hv]].
  - destruct (rd_incrby_new k n r Hv Hn) as (r2 & Hi' & Hr2). simplify_eq.
    rewrite Hr2, decide_True by done. done.
  - destruct (rd_incrby_old k n r z t Hv) as (r2 & Hi' & Hr2); [done..|]. simplify_eq.
    rewrite Hr2, decide_True by done. done.
Qed.

Lemma consume_succeeds k n ttl r z :
  holds k z r → in_int64 z → in_int64 n → in_int64 (z + n) → ∃ r', consume k n ttl r = Some r'.
Proof.
  unfold consume. intros [[Hv ->]|[t Hv]] Hz Hn Hzn.
  - destruct (rd_incrby_new k n r Hv Hn) as (r1 & -> & _). eauto.
  - destruct (rd_incrby_old k n r z t Hv) as (r1 & -> & _); eauto.
Qed.

Lemma consume_frame k n ttl r r' j :
  consume k n ttl r = Some r' → 0 < ttl → j ≠ k → rd_view r' j = rd_view r j.
Proof.
  unfold consume. intros Hc Httl Hj.
  destruct (rd_incrby k n r) as [[y r1]|] eqn:Hi; [|done]. injection Hc as <-.
  rewrite rd_expire_view, decide_False by done. by eapply rd_incrby_frame.
Qed.

(** The script answers 1 only after both checks passed. *)
Definition admitted (res : option (Z * string)) : bool := bool_decide (res = Some (1, "")).

Lemma allowScript_effects rk dk n rps daily rt dt r res r' :
  allowScript rk dk n rps daily rt dt r = (res, r') →
  rk ≠ dk → 0 < rt → 0 < dt →
  key_effect rk rps n (rt * 1000) r r' (admitted res) ∧
  key_effect dk daily n (dt * 1000) r r' (admitted res) ∧
  ∀ j, j ≠ rk → j ≠ dk → rd_view r' j = rd_view r j.
Proof.
  unfold allowScript. intros H Hne Hrt Hdt.
  destruct (over_limit (lua_num rps) _ _) as [[|]|] eqn:Hr;
    [simplify_eq; split_and!; by first [apply key_kept|done]| |
     simplify_eq; split_and!; by first [apply key_kept|done]].
  destruct (over_limit (lua_num daily) _ _) as [[|]|] eqn:Hd;
    [simplify_eq; split_and!; by first [apply key_kept|done]| |
     simplify_eq; split_and!; by first [apply key_kept|done]].
  destruct (consume rk _ rt r) as [r1|] eqn:H1;
    [|simplify_eq; split_and!; by first [apply key_kept|done]].
  assert (∀ j, j ≠ rk → rd_view r1 j = rd_view r j) as Hfr1
    by (intros; by eapply consume_frame).
  destruct (consume dk _ dt r1) as [r2|] eqn:H2; injection H as <- <-.
  - assert (∀ j, j ≠ dk → rd_view r2 j = rd_view r1 j) as Hfr2
      by (intros; by eapply consume_frame).
    split_and!.
    + apply key_charged; [done|]. intros z Hz ? ? ? Hn. rewrite Hn in *.
      rewrite Hfr2 by done. by eapply consume_view.
    + apply key_charged; [done|]. intros z Hz ? ? ? Hn. rewrite Hn in *.
      eapply consume_view; [done..| |done|done|done].
      unfold holds in *. by rewrite Hfr1.
    + intros. rewrite Hfr2, Hfr1; done.
  - split_and!.
    + apply key_charged; [done|]. intros z Hz ? ? ? Hn. rewrite Hn in *.
      by eapply consume_view.
    + apply key_kept; [by apply Hfr1|done].
    + intros. by apply Hfr1.
Qed.
End effects.

(** ** Budgets over any history

    A history is any sequence of script runs (of all requests of all pods, each
    atomic), waits, and changes by others to keys that are not quota keys.  A run
    whose reply is lost is a run like any other.  Clocks of the pods may differ
    from the clock of Redis by [skew]. *)
Record Run := {
  x_cl : Claims;
  x_lim : Quota;
  x_n : Z;
  x_now : Time;
  x_clock : Z;                       (* ms, on the clock of Redis *)
  x_res : option (Z * string)
}.

Definition quota_key (k : string) : Prop :=
  HasPrefix k "rl:{" = true ∨ HasPrefix k "q:{" = true.

Definition run_allow_script `{R : RedisLib} (cl : Claims) (lim : Quota) (n : Z) (now : Time) (r : Redis) :
    option (Z * string) * Redis :=
  allowScript (rateKey cl now) (dayKey cl now) n lim.(RPS) lim.(DailyEvents)
    2 (SecondsInt (48 * Hour)) r.

(** The events of the admitted runs of [log] that [p] selects. *)
Definition spent (p : Run → bool) (log : list Run) : Z :=
  foldr (λ x s, if p x && admitted x.(x_res) then x.(x_n) + s else s) 0 log.

Section budget.
Context {R : RedisLib} {L : RedisLaws R} (skew : Z).

Definition in_time (now : Time) (clock : Z) : Prop :=
  Z.abs (now - clock * Millisecond) ≤ skew ∧ 0 ≤ year_of now < 10000.

Inductive quota_run : list Run → Z → Redis → Prop :=
| run_start c r : (∀ k, quota_key k → rd_view r k = None) → quota_run [] c r
| run_wait log c r d : quota_run log c r → 0 ≤ d → quota_run log (c + d) (rd_elapse d r)
| run_other log c r r' :
    quota_run log c r → (∀ k, quota_key k → rd_view r' k = rd_view r k) → quota_run log c r'
| run_allow log c r cl lim n now res r' :
    quota_run log c r → 1 ≤ n ≤ MaxEventsPerBatch → in_time now c →
    run_allow_script cl lim n now r = (res, r') →
    quota_run ({| x_cl := cl; x_lim := lim; x_n := n; x_now := now; x_clock := c; x_res := res |}
               :: log) c r'.

Lemma quota_run_clock log c r : quota_run log c r → Forall (λ x, x.(x_clock) ≤ c) log.
Proof.
  induction 1 as [|log c r d _ IH Hd| |]; [constructor| |done|constructor; simpl; [lia|done]].
  eapply Forall_impl; [exact IH|]. simpl. lia.
Qed.

Lemma quota_run_entries log c r :
  quota_run log c r → ∀ x, x ∈ log → in_time x.(x_now) x.(x_clock).
Proof.
  induction 1 as [|log c r d _ IH _|log c r r' _ IH _|log c r cl lim n now res r' _ IH _ Ht _];
    intros x Hx; [by apply elem_of_nil in Hx|by apply IH|by apply IH|].
  apply elem_of_cons in Hx as [->|Hx]; [done|by apply IH].
Qed.

(** One family of keys: the key a run touches, its limit and its time to live. *)
Section family.
Context (touch : Claims → Time → string) (limit_of : Quota → Z) (ttl : Z).
Context (Hkey : ∀ cl now, quota_key (touch cl now)).
Context (Hwindow : ∀ cl now c cl' now' c', in_time now c → in_time now' c' →
  touch cl now = touch cl' now' → c' < c + ttl).
Context (Heffect : ∀ cl lim n now r res r',
  run_allow_script cl lim n now r = (res, r') → 0 ≤ year_of now < 10000 →
  key_effect (touch cl now) (limit_of lim) n ttl r r' (admitted res) ∧
  ∀ cl' now', touch cl' now' ≠ touch cl now →
    rd_view r' (touch cl' now') = rd_view r (touch cl' now')).

Definition touches (k : string) (x : Run) : bool :=
  bool_decide (touch x.(x_cl) x.(x_now) = k).

Definition charges (log : list Run) (k : string) (t : Z) : Prop :=
  ∀ x, x ∈ log → touches k x = true → admitted x.(x_res) = true → x.(x_clock) + ttl ≤ t.

Definition bucket (B : Z) (log : list Run) (c : Z) (r : Redis) (k : string) : Prop :=
  0 ≤ spent (touches k) log ≤ B ∧
  ((∃ z rem, rd_view r k = Some (pretty z, Some rem) ∧ spent (touches k) log ≤ z ≤ B
      ∧ charges log k (c + rem)) ∨
   (rd_view r k = None ∧ charges log k c)).

Definition within (B : Z) (log : list Run) (k : string) : Prop :=
  ∀ x, x ∈ log → touches k x = true → 0 < limit_of x.(x_lim) ≤ B.

Lemma within_cons B x log k : within B (x :: log) k → within B log k.
Proof. intros H y Hy. apply H. by right. Qed.

Lemma charges_cons x log k t :
  charges log k t → (touches k x = true → admitted x.(x_res) = true → x.(x_clock) + ttl ≤ t) →
  charges (x :: log) k t.
Proof. intros H Hx y [->|Hy]%elem_of_cons; [done|by apply H]. Qed.

Lemma charges_le log k t t' : charges log k t → t ≤ t' → charges log k t'.
Proof. intros H Ht x Hx Hk Ha. specialize (H x Hx Hk Ha). lia. Qed.

(** No admitted charge of the window has expired by the time of another use. *)
Lemma spent_expired log c k :
  charges log k c →
  (∀ x, x ∈ log → touches k x = true → c < x.(x_clock) + ttl) →
  spent (touches k) log = 0.
Proof.
  intros Hc Hw. unfold spent. induction log as [|x log IH]; simpl; [done|].
  destruct (touches k x && admitted (x_res x)) eqn:Hx.
  - apply andb_true_iff in Hx as [Hk Ha].
    specialize (Hc x ltac:(left) Hk Ha). specialize (Hw x ltac:(left) Hk). lia.
  - apply IH; intros y Hy; [apply Hc|apply Hw]; by right.
Qed.

Lemma bucket_charge B x log c r r' k :
  bucket B log c r k → 0 ≤ B < 2 ^ 52 → 0 < limit_of x.(x_lim) ≤ B →
  1 ≤ x.(x_n) ≤ MaxEventsPerBatch → touches k x = true → x.(x_clock) = c → 0 ≤ ttl →
  Forall (λ y, y.(x_clock) ≤ c) log →
  (∀ y, y ∈ log → touches k y = true → c < y.(x_clock) + ttl) →
  key_effect k (limit_of x.(x_lim)) x.(x_n) ttl r r' (admitted x.(x_res)) →
  bucket B (x :: log) c r' k.
Proof.
  intros [Hsp Hst] HB Hlim Hn Hk Hxc Httl Hclk Hw Heff.
  assert (MaxEventsPerBatch = 500) as HM by done.
  destruct Heff as [Hv Ha|Hov Hv].
  { unfold bucket, spent. simpl. rewrite Ha, andb_false_r. fold (spent (touches k) log).
    split; [done|]. rewrite Hv.
    destruct Hst as [(z & rem & ? & ? & ?)|[? ?]]; [left; exists z, rem|right];
      split_and!; first [done|lia|apply charges_cons; [done|intros; simpl in *; congruence]]. }
  assert (∃ z, holds k z r ∧ spent (touches k) log ≤ z ≤ B) as (z & Hz & Hzb).
  { destruct Hst as [(z & rem & Hz & ? & _)|[Hz Hc]].
    - exists z. split; [right; by exists (Some rem)|done].
    - exists 0. split; [by left|]. rewrite (spent_expired log c k); [lia|done|done]. }
  assert (in_int64 z) as Hz64 by (unfold in_int64, int64_min, int64_max; lia).
  rewrite (lua_counter_holds _ _ _ Hz Hz64), over_limit_exact in Hov
    by (unfold lua_exact; lia).
  injection Hov as Hov%bool_decide_eq_false.
  specialize (Hv z Hz Hz64). rewrite lua_num_exact in Hv by (unfold lua_exact; lia).
  assert (rd_view r' k = Some (pretty (z + x_n x), Some ttl)) as Hr'
    by (apply Hv; unfold in_int64, int64_min, int64_max; lia || done).
  assert (0 ≤ spent (touches k) (x :: log) ≤ z + x.(x_n)) as Hsp'.
  { unfold spent. simpl. fold (spent (touches k) log). case_match; lia. }
  split; [lia|]. left. exists (z + x.(x_n)), ttl. split_and!; [done|lia|lia|].
  apply charges_cons; [|lia]. intros y Hy _ _. rewrite Forall_forall in Hclk.
  specialize (Hclk y Hy). simpl in *. lia.
Qed.

Lemma bucket_run B log c r :
  quota_run log c r → 0 ≤ B < 2 ^ 52 → 0 ≤ ttl →
  ∀ cl now, within B log (touch cl now) → bucket B log c r (touch cl now).
Proof.
  intros Hrun HB Httl. induction Hrun as
    [c r Hfresh|log c r d Hrun IH Hd|log c r r' Hrun IH Hv|log c r cl' lim n now' res r' Hrun IH Hn Ht Hx];
    intros cl now Hwi.
  - split; [unfold spent; simpl; lia|]. right. split; [by apply Hfresh|].
    intros x Hx. by apply elem_of_nil in Hx.
  - destruct (IH cl now Hwi) as [Hsp Hst]. split; [done|].
    rewrite rd_elapse_view by done.
    destruct Hst as [(z & rem & -> & ? & Hc)|[-> Hc]].
    + destruct (decide (d < rem)) as [Hlt|Hge].
      * left. exists z, (rem - d). split_and!; [done|lia..|]. eapply charges_le; [done|lia].
      * right. split; [done|]. eapply charges_le; [done|lia].
    + right. split; [done|]. eapply charges_le; [done|lia].
  - unfold bucket. rewrite Hv by done. by apply IH.
  - specialize (IH cl now (within_cons _ _ _ _ Hwi)).
    destruct (Heffect _ _ _ _ _ _ _ Hx (proj2 Ht)) as [Heff Hframe].
    destruct (decide (touch cl' now' = touch cl now)) as [Heq|Hne].
    + eapply bucket_charge; simpl; [done|done| |done| |done|done|by eapply quota_run_clock| |].
      * apply (Hwi _ ltac:(left)). by apply bool_decide_eq_true.
      * by apply bool_decide_eq_true.
      * intros y Hy Hk%bool_decide_eq_true.
        pose proof (quota_run_entries _ _ _ Hrun y Hy) as Hyt.
        eapply (Hwindow y.(x_cl) y.(x_now)); [done|exact Ht|by rewrite Hk].
      * rewrite <-Heq. exact Heff.
    + unfold bucket, spent. simpl.
      assert (touches (touch cl now) {| x_cl := cl'; x_lim := lim; x_n := n; x_now := now';
        x_clock := c; x_res := res |} = false) as Hk by by apply bool_decide_eq_false.
      rewrite Hk. simpl. fold (spent (touches (touch cl now)) log).
      rewrite Hframe by done. destruct IH as [Hsp Hst]. split; [done|].
      destruct Hst as [(z & rem & ? & ? & ?)|[? ?]]; [left; exists z, rem|right];
        split_and!; first [done|lia|apply charges_cons; [done|intros; simpl in *; congruence]].
Qed.
End family.
End budget.

(** ** The two families *)

Lemma rate_not_day cl now cl' now' : rateKey cl now ≠ dayKey cl' now'.
Proof. done. Qed.

(** The text after the last separator. *)
Lemma after_last_sep a b d d' sep :
  has_byte sep d = false → has_byte sep d' = false →
  a +:+ String sep d = b +:+ String sep d' → a = b ∧ d = d'.
Proof.
  intros Hd Hd'. revert b. induction a as [|x a IH]; intros [|y b].
  - rewrite !app_nil_l_string. by intros [= ->].
  - rewrite app_nil_l_string, app_cons_string. intros [= <- ->].
    rewrite has_byte_app in Hd. simpl in Hd. rewrite bool_decide_true in Hd by done.
    by rewrite orb_true_r in Hd.
  - rewrite app_nil_l_string, app_cons_string. intros [= -> <-].
    rewrite has_byte_app in Hd'. simpl in Hd'. rewrite bool_decide_true in Hd' by done.
    by rewrite orb_true_r in Hd'.
  - rewrite !app_cons_string. intros [= -> H]. by destruct (IH b H) as [-> ->].
Qed.

Lemma pretty_no_colon (z : Z) : has_byte ":" (pretty z) = false.
Proof. apply pretty_Z_has_byte; [|done]. intros d. unfold pretty_N_char. by repeat case_match. Qed.

Lemma rateKey_split cl now cl' now' :
  rateKey cl now = rateKey cl' now' →
  cl.(TenantID) +:+ "}:" +:+ cl.(InstallID) = cl'.(TenantID) +:+ "}:" +:+ cl'.(InstallID)
  ∧ Unix now = Unix now'.
Proof.
  unfold rateKey. intros H.
  apply (inj (String.append "rl:{")) in H.
  assert (∀ t i u, t +:+ "}:" +:+ i +:+ ":" +:+ u = (t +:+ "}:" +:+ i) +:+ String ":" u) as Ha
    by (intros; by rewrite !app_assoc_string).
  rewrite !Ha in H. apply after_last_sep in H as [H1 H2]; [|apply pretty_no_colon..].
  split; [done|]. by apply (inj pretty) in H2.
Qed.

(** Tenant ids without a closing brace never share a rate key. *)
Lemma rateKey_inj cl now cl' now' :
  has_byte "}" cl.(TenantID) = false → has_byte "}" cl'.(TenantID) = false →
  rateKey cl now = rateKey cl' now' ↔
  cl.(TenantID) = cl'.(TenantID) ∧ cl.(InstallID) = cl'.(InstallID) ∧ Unix now = Unix now'.
Proof.
  intros Ht Ht'. split.
  - intros [H Hu]%rateKey_split.
    change ("}:" +:+ InstallID cl) with (String "}" (String ":" (InstallID cl))) in H.
    change ("}:" +:+ InstallID cl') with (String "}" (String ":" (InstallID cl'))) in H.
    apply app_sep_string in H as [? [= ?]]; done.
  - unfold rateKey. by intros (-> & -> & ->).
Qed.

(** Day keys name the tenant and the UTC day, for any tenant ids. *)
Lemma dayKey_inj cl now cl' now' :
  0 ≤ year_of now < 10000 → 0 ≤ year_of now' < 10000 →
  dayKey cl now = dayKey cl' now' ↔
  cl.(TenantID) = cl'.(TenantID) ∧ unix_day now = unix_day now'.
Proof.
  intros Hy Hy'. split.
  - unfold dayKey. intros H. apply (inj (String.append "q:{")) in H.
    rewrite <-!app_assoc_string in H.
    apply app_split_r_string in H as [H1 H2]; [|by rewrite !length_FormatDate].
    apply app_split_r_string in H1 as [H1 _]; [|done].
    split; [done|]. by apply FormatDate_inj in H2.
  - unfold dayKey. intros [-> H]. by apply FormatDate_inj in H as ->.
Qed.

(** ** Lemmas on spending *)

Lemma spent_ext p q log : (∀ x, x ∈ log → p x = q x) → spent p log = spent q log.
Proof.
  unfold spent. induction log as [|x log IH]; intros H; simpl; [done|].
  rewrite (H x) by left. rewrite IH; [done|]. intros y Hy. apply H. by right.
Qed.

Lemma spent_app p log log' : spent p (log ++ log') = spent p log + spent p log'.
Proof.
  unfold spent. induction log as [|x log IH]; simpl; [lia|]. rewrite IH. case_match; lia.
Qed.

Lemma spent_nonneg p log : (∀ x, x ∈ log → 0 ≤ x.(x_n)) → 0 ≤ spent p log.
Proof.
  unfold spent. induction log as [|x log IH]; intros H; simpl; [lia|].
  assert (0 ≤ foldr (λ x s, if p x && admitted x.(x_res) then x.(x_n) + s else s) 0 log)
    by (apply IH; intros y Hy; apply H; by right).
  specialize (H x ltac:(left)). case_match; lia.
Qed.

(** One admitted run of the selection is part of the sum. *)
Lemma spent_one p log x :
  (∀ y, y ∈ log → 0 ≤ y.(x_n)) → x ∈ log → p x = true → admitted x.(x_res) = true → x.(x_n) ≤ spent p log.
Proof.
  intros Hn (l1 & l2 & ->)%list_elem_of_split Hp Ha.
  assert (0 ≤ spent p l1 ∧ 0 ≤ spent p l2) as [? ?].
  { split; apply spent_nonneg; intros y Hy; apply Hn; apply elem_of_app; [by left|]. right. by right. }
  rewrite spent_app. unfold spent at 2. simpl. fold (spent p l2). rewrite Hp, Ha. simpl. lia.
Qed.

Lemma spent_none p log : (∀ x, x ∈ log → p x = false) → spent p log = 0.
Proof.
  unfold spent. induction log as [|x log IH]; intros H; simpl; [done|].
  rewrite (H x) by left. simpl. apply IH. intros y Hy. apply H. by right.
Qed.

(** A selection that is all of one key, or of none, is within that key's budget. *)
Lemma spent_by_key {K : Type} `{EqDecision K} (key : Run → K) p log B :
  0 ≤ B →
  (∀ x y, x ∈ log → y ∈ log → p x = true → p y = bool_decide (key y = key x)) →
  (∀ x, x ∈ log → p x = true → spent (λ y, bool_decide (key y = key x)) log ≤ B) →
  spent p log ≤ B.
Proof.
  intros HB Hp Hkey. destruct (decide (Exists (λ x, p x = true) log)) as [Hex|Hno].
  - apply Exists_exists in Hex as (x & Hx & Hpx).
    rewrite (spent_ext p (λ y, bool_decide (key y = key x))); [by apply Hkey|].
    intros y Hy. by apply Hp.
  - rewrite spent_none; [done|]. intros x Hx. destruct (p x) eqn:Hpx; [|done].
    destruct Hno. apply Exists_exists. by exists x.
Qed.

Section budgets.
Context {R : RedisLib} {L : RedisLaws R} (skew : Z).

Lemma effects_of_run cl lim n now r res r' :
  run_allow_script cl lim n now r = (res, r') →
  key_effect (rateKey cl now) lim.(RPS) n 2000 r r' (admitted res) ∧
  key_effect (dayKey cl now) lim.(DailyEvents) n 172800000 r r' (admitted res) ∧
  ∀ j, j ≠ rateKey cl now → j ≠ dayKey cl now → rd_view r' j = rd_view r j.
Proof. intros H. by apply (allowScript_effects _ _ _ _ _ _ _ _ _ _ H). Qed.

Lemma day_window cl now c cl' now' c' :
  skew ≤ 12 * Hour → in_time skew now c → in_time skew now' c' →
  dayKey cl now = dayKey cl' now' → c' < c + 172800000.
Proof.
  intros Hs [Ht Hy] [Ht' Hy'] Hk. apply dayKey_inj in Hk as [_ Hd]; [|done..].
  pose proof (unix_day_bounds now). pose proof (unix_day_bounds now'). rewrite Hd in *.
  unfold Day, Hour, Minute, Second, Millisecond in *. lia.
Qed.

Lemma rate_window cl now c cl' now' c' :
  skew ≤ 500 * Millisecond → in_time skew now c → in_time skew now' c' →
  rateKey cl now = rateKey cl' now' → c' < c + 2000.
Proof.
  intros Hs [Ht Hy] [Ht' Hy'] [_ Hu]%rateKey_split. rewrite !Unix_year in Hu by done.
  unfold Second, Millisecond in *.
  pose proof (Z.div_mod now 1000000000). pose proof (Z.div_mod now' 1000000000).
  pose proof (Z.mod_pos_bound now 1000000000). pose proof (Z.mod_pos_bound now' 1000000000).
  lia.
Qed.

Lemma day_bucket B log c r cl now :
  skew ≤ 12 * Hour → quota_run skew log c r → 0 ≤ B < 2 ^ 52 →
  within dayKey DailyEvents B log (dayKey cl now) →
  spent (touches dayKey (dayKey cl now)) log ≤ B.
Proof.
  intros Hs Hrun HB Hw.
  assert (bucket dayKey 172800000 B log c r (dayKey cl now)) as [Hsp _]; [|lia].
  eapply (bucket_run skew dayKey DailyEvents 172800000); [| | |done..|lia|done].
  - intros ? ?. by right.
  - intros. by eapply day_window.
  - intros cl0 lim n now0 r0 res r0' H _. destruct (effects_of_run _ _ _ _ _ _ _ H) as (_ & ? & Hf).
    split; [done|]. intros cl' now' Hne. by apply Hf.
Qed.

Lemma rate_bucket B log c r cl now :
  skew ≤ 500 * Millisecond → quota_run skew log c r → 0 ≤ B < 2 ^ 52 →
  within rateKey RPS B log (rateKey cl now) →
  spent (touches rateKey (rateKey cl now)) log ≤ B.
Proof.
  intros Hs Hrun HB Hw.
  assert (bucket rateKey 2000 B log c r (rateKey cl now)) as [Hsp _]; [|lia].
  eapply (bucket_run skew rateKey RPS 2000); [| | |done..|lia|done].
  - intros ? ?. by left.
  - intros. by eapply rate_window.
  - intros cl0 lim n now0 r0 res r0' H _. destruct (effects_of_run _ _ _ _ _ _ _ H) as (? & _ & Hf).
    split; [done|]. intros cl' now' Hne. by apply Hf.
Qed.

(** ** Properties *)

(** C14: the daily budget holds over any history: whatever requests, pods, lost
    replies and pauses, the events admitted for a tenant on one UTC day never
    exceed the tenant's daily limit, as long as the clocks of pods and Redis agree
    within 12 hours. *)
Theorem daily_budget_never_exceeded B log c r t d :
  skew ≤ 12 * Hour → quota_run skew log c r → 0 ≤ B < 2 ^ 52 →
  (∀ x, x ∈ log → x.(x_cl).(TenantID) = t → unix_day x.(x_now) = d →
     0 < x.(x_lim).(DailyEvents) ≤ B) →
  spent (λ x, bool_decide (x.(x_cl).(TenantID) = t ∧ unix_day x.(x_now) = d)) log ≤ B.
Proof.
  intros Hs Hrun HB Hlim.
  pose proof (quota_run_entries _ _ _ _ Hrun) as Ht.
  apply (spent_by_key (λ x, dayKey x.(x_cl) x.(x_now))); [lia| |].
  - intros x y Hx Hy [<- <-]%bool_decide_eq_true. apply bool_decide_ext.
    symmetry. apply dayKey_inj; by apply Ht.
  - intros x Hx [<- <-]%bool_decide_eq_true. eapply day_bucket; [done..|].
    intros y Hy [Hk Hd]%bool_decide_eq_true%dayKey_inj; [by apply Hlim|by apply Ht..].
Qed.

End budgets.

(** ** Decisions *)

Lemma untilNextUTCDay_eq now : untilNextUTCDay now = (unix_day now + 1) * Day - now.
Proof.
  unfold untilNextUTCDay, Add. change (24 * Hour) with Day. rewrite Truncate_day.
  rewrite Sub_exact; [lia|]. pose proof (unix_day_bounds now).
  unfold in_int64, int64_min, int64_max, Day, Hour, Minute, Second in *. lia.
Qed.

Lemma unix_day_unique t d : d * Day ≤ t < d * Day + Day → unix_day t = d.
Proof. unfold unix_day, Day, Hour, Minute, Second. intros. divlia. Qed.

(** Retry-After of an exhausted daily budget is honest: it is positive and at
    most 24 h, every retry before it elapses is counted on the same UTC day, and a
    retry when it has elapsed is counted on the next one. *)
Theorem daily_retry_after_is_honest now d :
  RetryAfter (decision now (0, "daily_quota")) = d →
  0 < d ≤ 24 * Hour ∧
  unix_day (Add now d) = unix_day now + 1 ∧
  ∀ e, 0 ≤ e < d → unix_day (Add now e) = unix_day now.
Proof.
  unfold decision. simpl. intros <-. rewrite untilNextUTCDay_eq.
  change (24 * Hour) with Day. pose proof (unix_day_bounds now). unfold Add.
  split_and!; [lia|lia| |].
  - apply unix_day_unique. lia.
  - intros e He. apply unix_day_unique. lia.
Qed.

Lemma lua_num_large z : 2 ^ 53 ≤ z → 2 ^ 53 ≤ lua_num z.
Proof.
  intros Hz. unfold lua_num.
  assert (53 ≤ Z.log2 z) as Hlog by (apply Z.log2_le_pow2; lia).
  rewrite Z.abs_eq, bool_decide_false by lia.
  set (e := Z.log2 z - 52) in *. assert (1 ≤ e) by lia.
  assert (2 ^ 52 ≤ z / 2 ^ e) as Hq.
  { apply Z.div_le_lower_bound; [lia|]. rewrite <-Z.pow_add_r by lia.
    replace (e + 52) with (Z.log2 z) by lia. apply Z.log2_spec. lia. }
  rewrite Z.sgn_pos, Z.mul_1_l by lia.
  assert (2 ^ 1 ≤ 2 ^ e) by (apply Z.pow_le_mono_r; lia).
  assert (2 ^ 53 ≤ z / 2 ^ e * 2 ^ e) by nia.
  case_match; nia.
Qed.

Section decisions.
Context {R : RedisLib} {L : RedisLaws R}.

(** C28: a batch with more valid events than the tenant's positive per-second rate is
    refused in every state of the counters, so no retry of it can ever succeed; the
    refusal charges nothing and asks the client to retry after one second. *)
Theorem oversized_batch_never_admitted cl lim n now r z :
  holds (rateKey cl now) z r → 0 ≤ z → in_int64 z →
  0 < lim.(RPS) < n → n < 2 ^ 53 →
  run_allow_script cl lim n now r = (Some (0, "rate_limit"), r) ∧
  decision now (0, "rate_limit")
    = {| Allowed := false; RetryAfter := Second; Reason := "rate_limit" |}.
Proof.
  intros Hz Hz0 Hz64 Hn Hn53. split; [|done].
  unfold run_allow_script, allowScript. rewrite (lua_counter_holds _ _ _ Hz Hz64).
  rewrite !(lua_num_exact n), (lua_num_exact (RPS lim)) by (unfold lua_exact; lia).
  unfold over_limit. rewrite bool_decide_true by lia.
  rewrite bool_decide_true; [done|]. unfold lua_add.
  destruct (decide (z < 2 ^ 53)) as [Hs|Hs].
  - rewrite (lua_num_exact z) by (unfold lua_exact; lia).
    destruct (decide (z + n < 2 ^ 53)) as [Hs'|Hs'].
    + rewrite lua_num_exact by (unfold lua_exact; lia). lia.
    + pose proof (lua_num_large (z + n)). lia.
  - pose proof (lua_num_large z). pose proof (lua_num_large (lua_num z + n)). lia.
Qed.

(** Consumption is all or nothing: when the counters read [rate] and [day], the
    script admits exactly when neither positive limit would be passed; it then adds
    [n] to both counters and re-arms both expiries, and otherwise it leaves the
    whole store as it was and names the limit it hit, the rate first. *)
Theorem allow_all_or_nothing cl lim n now r rate day :
  holds (rateKey cl now) rate r → holds (dayKey cl now) day r →
  lua_exact (rate + n) → lua_exact (day + n) → lua_exact lim.(RPS) →
  lua_exact lim.(DailyEvents) → 0 ≤ rate → 0 ≤ day → 0 ≤ n →
  let rate_hit := bool_decide (0 < lim.(RPS) < rate + n) in
  let day_hit := bool_decide (0 < lim.(DailyEvents) < day + n) in
  if rate_hit || day_hit then
    run_allow_script cl lim n now r
      = (Some (0, if rate_hit then "rate_limit" else "daily_quota"), r)
  else
    ∃ r', run_allow_script cl lim n now r = (Some (1, ""), r') ∧
      rd_view r' (rateKey cl now) = Some (pretty (rate + n), Some 2000) ∧
      rd_view r' (dayKey cl now) = Some (pretty (day + n), Some 172800000) ∧
      ∀ k, k ≠ rateKey cl now → k ≠ dayKey cl now → rd_view r' k = rd_view r k.
Proof.
  intros Hr Hd Hrn Hdn Hl1 Hl2 Hr0 Hd0 Hn0 rate_hit day_hit.
  unfold lua_exact in *.
  assert (in_int64 rate ∧ in_int64 day ∧ in_int64 n) as (Hr64 & Hd64 & Hn64)
    by (unfold in_int64, int64_min, int64_max; lia).
  unfold run_allow_script, allowScript.
  rewrite (lua_counter_holds _ _ _ Hr Hr64), (lua_counter_holds _ _ _ Hd Hd64).
  rewrite !over_limit_exact by (unfold lua_exact; lia).
  rewrite (lua_num_exact n) by (unfold lua_exact; lia).
  fold rate_hit day_hit. destruct rate_hit; [done|]. destruct day_hit; [done|]. simpl.
  assert (in_int64 (rate + n) ∧ in_int64 (day + n)) as [Hrn64 Hdn64]
    by (unfold in_int64, int64_min, int64_max; lia).
  destruct (consume_succeeds (rateKey cl now) n 2 r rate) as [r1 H1]; [done..|].
  rewrite H1.
  assert (holds (dayKey cl now) day r1) as Hd1.
  { unfold holds in *. by rewrite (consume_frame _ _ _ _ _ _ H1). }
  destruct (consume_succeeds (dayKey cl now) n (SecondsInt (48 * Hour)) r1 day) as [r2 H2];
    [done..|].
  rewrite H2. exists r2. split_and!; [done| | |].
  - rewrite (consume_frame _ _ _ _ _ _ H2) by done. by eapply (consume_view _ _ 2).
  - by eapply (consume_view _ _ (SecondsInt (48 * Hour))).
  - intros k Hk Hk'. by rewrite (consume_frame _ _ _ _ _ _ H2), (consume_frame _ _ _ _ _ _ H1).
Qed.

(** the exchange throttle cannot lock a client out: after any run of its script
    that answers, the key has an expiry, whether or not it had one before, and it
    is a full window when the count restarts. *)
Theorem client_counter_always_expires key ttl r z n r' :
  0 < ttl → holds key z r → in_int64 z → in_int64 (z + 1) →
  clientRateScript key ttl r = (Some n, r') →
  n = z + 1 ∧
  ∃ t, rd_view r' key = Some (pretty n, Some t) ∧
    (n = 1 ∨ rd_view r key ≫= snd = None → t = ttl * 1000) ∧
    (n ≠ 1 → ∀ t', rd_view r key ≫= snd = Some t' → t = t').
Proof.
  intros Httl Hz Hz64 Hz1 H. unfold clientRateScript in H.
  destruct (rd_incrby key 1 r) as [[n' r1]|] eqn:Hi; [|done].
  assert (n' = z + 1 ∧ rd_view r1 key = Some (pretty n', rd_view r key ≫= snd)) as [-> Hv].
  { assert (in_int64 1) by done. destruct Hz as [[Hv ->]|[t Hv]]; rewrite Hv; simpl.
    - destruct (rd_incrby_new key 1 r Hv) as (r2 & Hi' & Hr2); [done|]. simplify_eq.
      by rewrite Hr2, decide_True.
    - destruct (rd_incrby_old key 1 r z t Hv) as (r2 & Hi' & Hr2); [done..|]. simplify_eq.
      by rewrite Hr2, decide_True. }
  injection H as <- <-. split; [done|].
  assert (rd_ttl key r1 < 0 ↔ rd_view r key ≫= snd = None) as Hneg
    by (rewrite rd_ttl_view, Hv; done).
  case_bool_decide as H1; simpl.
  { exists (ttl * 1000). rewrite rd_expire_view, decide_True, Hv by done. done. }
  case_bool_decide as H2; simpl.
  - exists (ttl * 1000). rewrite rd_expire_view, decide_True, Hv by done.
    split_and!; [done|done|]. intros _ t' Ht'. apply Hneg in H2. congruence.
  - rewrite Hneg in H2. destruct (rd_view r key ≫= snd) as [t|] eqn:Ht; [|done].
    exists t. split_and!; [done| |by intros _ t' [= ->]]. by intros [?|?].
Qed.
End decisions.

(** ** Witnesses *)

Definition toy_cl (i : string) : Claims :=
  {| TenantID := "t1"; InstallID := i; Scope := ScopeWriteEvents; TrustTier := 1 |}.
Definition toy_lim : Quota := {| DailyEvents := 50; RPS := 40; LegacyRPS := 5 |}.
Definition toy_time : Time := Date 2026 8 2 23 59 59 250000000.
Definition toy_clock : Z := toy_time `div` Millisecond.
Definition toy_entry (i : string) (n c : Z) (now : Time) (res : option (Z * string)) : Run :=
  {| x_cl := toy_cl i; x_lim := toy_lim; x_n := n; x_now := now; x_clock := c; x_res := res |}.

(** Two installs take 30 and 20 events; a third batch of 1 hits the daily limit. *)
Definition toy_r1 : Redis (RedisLib:=ToyRedis) := (run_allow_script (toy_cl "a") toy_lim 30 toy_time ∅).2.
Definition toy_r2 := (run_allow_script (R:=ToyRedis) (toy_cl "b") toy_lim 20 toy_time toy_r1).2.
Definition toy_log : list Run :=
  [ toy_entry "c" 1 toy_clock toy_time (Some (0, "daily_quota"));
    toy_entry "b" 20 toy_clock toy_time (Some (1, ""));
    toy_entry "a" 30 toy_clock toy_time (Some (1, "")) ].

Lemma toy_in_time : in_time (500 * Millisecond) toy_time toy_clock.
Proof. split; [by vm_compute|]. vm_compute. split; [by intros|done]. Qed.

Lemma toy_run_a :
  run_allow_script (R:=ToyRedis) (toy_cl "a") toy_lim 30 toy_time ∅ = (Some (1, ""), toy_r1).
Proof. vm_cast_no_check (eq_refl (Some (1, ""), toy_r1)). Qed.
Lemma toy_run_b :
  run_allow_script (R:=ToyRedis) (toy_cl "b") toy_lim 20 toy_time toy_r1 = (Some (1, ""), toy_r2).
Proof. vm_cast_no_check (eq_refl (Some (1, ""), toy_r2)). Qed.
Lemma toy_run_c :
  run_allow_script (R:=ToyRedis) (toy_cl "c") toy_lim 1 toy_time toy_r2
    = (Some (0, "daily_quota"), toy_r2).
Proof. vm_cast_no_check (eq_refl (Some (0, "daily_quota"), toy_r2)). Qed.

Lemma toy_quota_run : quota_run (R:=ToyRedis) (500 * Millisecond) toy_log toy_clock toy_r2.
Proof.
  pose proof toy_in_time as Ht.
  apply (run_allow _ _ _ _ _ _ _ _ _ _) with (4 := toy_run_c); [|done|exact Ht].
  apply (run_allow _ _ _ _ _ _ _ _ _ _) with (4 := toy_run_b); [|done|exact Ht].
  apply (run_allow _ _ _ _ _ _ _ _ _ _) with (4 := toy_run_a); [|done|exact Ht].
  apply run_start. intros k _. reflexivity.
Qed.

Lemma daily_budget_never_exceeded_witness :
  let p x := bool_decide (x.(x_cl).(TenantID) = "t1" ∧ unix_day x.(x_now) = 20667) in
  spent p toy_log = 50 ∧ spent p toy_log ≤ 50.
Proof.
  intros p. split; [by vm_compute|].
  apply (daily_budget_never_exceeded (R:=ToyRedis) (500 * Millisecond) 50 toy_log toy_clock toy_r2).
  - by vm_compute.
  - apply toy_quota_run.
  - done.
  - intros x Hx _ _. by repeat (apply elem_of_cons in Hx as [->|Hx]; [by vm_compute|]);
      apply elem_of_nil in Hx.
Defined.


Lemma daily_retry_after_is_honest_witness :
  let d := 750000000 in
  0 < d ≤ 24 * Hour ∧ unix_day (Add toy_time d) = unix_day toy_time + 1 ∧
  ∀ e, 0 ≤ e < d → unix_day (Add toy_time e) = unix_day toy_time.
Proof. apply (daily_retry_after_is_honest toy_time 750000000). by vm_compute. Defined.

(** The default tier 0 rate and a full batch. *)
Lemma oversized_batch_never_admitted_witness :
  run_allow_script (R:=ToyRedis) (toy_cl "a") DefaultQuota MaxEventsPerBatch toy_time ∅
    = (Some (0, "rate_limit"), ∅) ∧
  decision toy_time (0, "rate_limit")
    = {| Allowed := false; RetryAfter := Second; Reason := "rate_limit" |}.
Proof.
  apply (oversized_batch_never_admitted (R:=ToyRedis) (toy_cl "a") DefaultQuota
    MaxEventsPerBatch toy_time ∅ 0); try done.
  left. split; reflexivity.
Defined.

Lemma allow_all_or_nothing_witness :
  let r := toy_r2 in
  run_allow_script (R:=ToyRedis) (toy_cl "b") toy_lim 20 toy_time r = (Some (0, "daily_quota"), r).
Proof.
  apply (allow_all_or_nothing (R:=ToyRedis) (toy_cl "b") toy_lim 20 toy_time toy_r2 20 50);
    try (by vm_compute).
  - right. exists (Some 2000). by vm_compute.
  - right. exists (Some 172800000). by vm_compute.
Defined.

(** A counter left without an expiry is given one. *)
Lemma client_counter_always_expires_witness :
  let r : Redis (RedisLib:=ToyRedis) := <["k" := ("7", None)]> ∅ in
  8 = 7 + 1 ∧
  ∃ t, rd_view (clientRateScript "k" 60 r).2 "k" = Some (pretty 8, Some t) ∧
    (8 = 1 ∨ rd_view r "k" ≫= snd = None → t = 60 * 1000) ∧
    (8 ≠ 1 → ∀ t', rd_view r "k" ≫= snd = Some t' → t = t').
Proof.
  intros r.
  apply (client_counter_always_expires (R:=ToyRedis) "k" 60 r 7 8); try done.
  right. exists None. reflexivity.
Defined.
