(* ===== verification/Limiter.v ===== *)
(** * The limiter as an abstract specification

    [fixed_window] is what the service promises its tenants: so many events per
    install and second, so many per tenant and UTC day, counted over the admitted
    calls and nothing else.  It knows no Redis, no keys and no times to live.  The
    script of package quota implements it: over any history of runs and waits, each
    run answers what [fixed_window] answers.  From there the progress of clients that
    obey Retry-After is a fact about windows. *)
From S2P Require Import Prelude GoStrings GoTime Prog Limits Token Redis Quota.
#[local] Open Scope Z_scope.

(** ** The specification *)

Definition same_second (cl : Claims) (now : Time) (x : Run) : bool :=
  bool_decide (x.(x_cl).(TenantID) = cl.(TenantID) ∧ x.(x_cl).(InstallID) = cl.(InstallID)
               ∧ Unix x.(x_now) = Unix now).
Definition same_day (cl : Claims) (now : Time) (x : Run) : bool :=
  bool_decide (x.(x_cl).(TenantID) = cl.(TenantID) ∧ unix_day x.(x_now) = unix_day now).

(** The answer to a call that charges [n] after the calls [log]. *)
Definition fixed_window (log : list Run) (cl : Claims) (lim : Quota) (n : Z) (now : Time) :
    Z * string :=
  if bool_decide (0 < lim.(RPS) < spent (same_second cl now) log + n) then (0, "rate_limit")
  else if bool_decide (0 < lim.(DailyEvents) < spent (same_day cl now) log + n)
  then (0, "daily_quota")
  else (1, "").

(** The histories of the specification. *)
Inductive fw_run : list Run → Prop :=
| fw_start : fw_run []
| fw_call log x :
    fw_run log →
    x.(x_res) = Some (fixed_window log x.(x_cl) x.(x_lim) x.(x_n) x.(x_now)) →
    fw_run (x :: log).

(** ** Counters are exact *)

(** What a history needs so that counters stay in the range where Lua's arithmetic
    is exact, and rate keys name one tenant. *)
Definition plain_run (x : Run) : Prop :=
  has_byte "}" x.(x_cl).(TenantID) = false ∧ lua_exact x.(x_lim).(RPS) ∧
  lua_exact x.(x_lim).(DailyEvents).

Lemma quota_run_sizes `{R : RedisLib} {L : RedisLaws R} skew log c r :
  quota_run skew log c r → Forall (λ x, 1 ≤ x.(x_n) ≤ MaxEventsPerBatch) log.
Proof. induction 1; [constructor|done|done|]. by constructor. Qed.

Lemma spent_bounds p log :
  Forall (λ x, 1 ≤ x.(x_n) ≤ MaxEventsPerBatch) log →
  0 ≤ spent p log ≤ MaxEventsPerBatch * Z.of_nat (length log).
Proof.
  change MaxEventsPerBatch with 500. unfold spent.
  induction 1 as [|x log Hx _ IH]; simpl; [lia|]. case_match; lia.
Qed.

Section exact.
Context {R : RedisLib} {L : RedisLaws R} (skew : Z).
Context (touch : Claims → Time → string) (ttl : Z).
Context (Hkey : ∀ cl now, quota_key (touch cl now)).
Context (Hwindow : ∀ cl now c cl' now' c', in_time skew now c → in_time skew now' c' →
  touch cl now = touch cl' now' → c' < c + ttl).

(** A counter is the admitted charges of its key, or has expired with them. *)
Definition exact_counter (log : list Run) (c : Z) (r : Redis) (k : string) : Prop :=
  (∃ rem, rd_view r k = Some (pretty (spent (touches touch k) log), Some rem) ∧
     charges touch ttl log k (c + rem)) ∨
  (rd_view r k = None ∧ charges touch ttl log k c).

Lemma exact_start c r cl now :
  (∀ k, quota_key k → rd_view r k = None) → exact_counter [] c r (touch cl now).
Proof. intros H. right. split; [by apply H|]. by intros x ?%elem_of_nil. Qed.

Lemma exact_wait log c r d k :
  0 ≤ d → exact_counter log c r k → exact_counter log (c + d) (rd_elapse d r) k.
Proof.
  intros Hd Hst. unfold exact_counter. rewrite rd_elapse_view by done.
  destruct Hst as [(rem & -> & Hc)|[-> Hc]].
  - destruct (decide (d < rem)) as [Hlt|Hge].
    + left. exists (rem - d). split; [done|]. eapply charges_le; [done|lia].
    + right. split; [done|]. eapply charges_le; [done|lia].
  - right. split; [done|]. eapply charges_le; [done|lia].
Qed.

(** A run that the key does not see: it was denied or has another key. *)
Lemma exact_kept log c r r' k x :
  rd_view r' k = rd_view r k → touches touch k x && admitted x.(x_res) = false →
  exact_counter log c r k → exact_counter (x :: log) c r' k.
Proof.
  intros Hv Hx Hst. unfold exact_counter, spent. simpl. rewrite Hx, Hv.
  destruct Hst as [(rem & ? & ?)|[? ?]]; [left; exists rem|right]; split; try done;
    (apply charges_cons; [done|]); intros Hk Ha; by rewrite Hk, Ha in Hx.
Qed.

Lemma exact_charged log c r' k x :
  touches touch k x = true → admitted x.(x_res) = true → x.(x_clock) = c → 0 ≤ ttl →
  Forall (λ y, y.(x_clock) ≤ c) log →
  rd_view r' k = Some (pretty (spent (touches touch k) log + x.(x_n)), Some ttl) →
  exact_counter (x :: log) c r' k.
Proof.
  intros Hk Ha Hc Httl Hclk Hv. left. exists ttl. unfold spent at 1. simpl. rewrite Hk, Ha. simpl.
  fold (spent (touches touch k) log). rewrite Z.add_comm. split; [done|].
  apply charges_cons; [|lia]. intros y Hy _ _. rewrite Forall_forall in Hclk.
  specialize (Hclk y Hy). simpl in *. lia.
Qed.

(** In its window, the counter reads the admitted charges. *)
Lemma exact_holds log c r cl now :
  quota_run skew log c r → in_time skew now c → exact_counter log c r (touch cl now) →
  holds (touch cl now) (spent (touches touch (touch cl now)) log) r.
Proof.
  intros Hrun Ht [(rem & Hv & _)|[Hv Hc]]; [right; by eexists|left].
  split; [done|]. apply (spent_expired touch ttl log c); [done|].
  intros x Hx Hk%bool_decide_eq_true. pose proof (quota_run_entries _ _ _ _ Hrun x Hx) as Hxt.
  by eapply Hwindow.
Qed.
End exact.

(** ** The script implements the specification *)

Section refinement.
Context {R : RedisLib} {L : RedisLaws R} (skew : Z) (Hskew : skew ≤ 500 * Millisecond).

Lemma rate_windows cl now c cl' now' c' :
  in_time skew now c → in_time skew now' c' → rateKey cl now = rateKey cl' now' → c' < c + 2000.
Proof. by apply rate_window. Qed.
Lemma day_windows cl now c cl' now' c' :
  in_time skew now c → in_time skew now' c' → dayKey cl now = dayKey cl' now' → c' < c + 172800000.
Proof. apply day_window. unfold Hour, Minute, Second, Millisecond in *. lia. Qed.

Lemma rate_quota_key cl now : quota_key (rateKey cl now).
Proof. by left. Qed.
Lemma day_quota_key cl now : quota_key (dayKey cl now).
Proof. by right. Qed.

(** The selections of the specification are the keys of the script. *)
Lemma touches_rate log cl now :
  Forall plain_run log → has_byte "}" cl.(TenantID) = false →
  spent (touches rateKey (rateKey cl now)) log = spent (same_second cl now) log.
Proof.
  intros Hlog Hcl. apply spent_ext. intros x Hx. rewrite Forall_forall in Hlog.
  apply bool_decide_ext, rateKey_inj; [by apply Hlog|done].
Qed.
Lemma touches_day log c r cl now :
  quota_run skew log c r → 0 ≤ year_of now < 10000 →
  spent (touches dayKey (dayKey cl now)) log = spent (same_day cl now) log.
Proof.
  intros Hrun Hy. apply spent_ext. intros x Hx.
  apply bool_decide_ext, dayKey_inj; [|done]. by apply (quota_run_entries _ _ _ _ Hrun x Hx).
Qed.

Definition counters (log : list Run) (c : Z) (r : Redis) : Prop :=
  ∀ cl now, exact_counter rateKey 2000 log c r (rateKey cl now) ∧
            exact_counter dayKey 172800000 log c r (dayKey cl now).

(** What one run does, seen from the counters: the answer of the specification, and
    both charges or none. *)
Lemma run_is_fixed_window log c r cl lim n now res r' :
  quota_run skew log c r → counters log c r → Forall plain_run log →
  MaxEventsPerBatch * (Z.of_nat (length log) + 1) < 2 ^ 52 →
  1 ≤ n ≤ MaxEventsPerBatch → in_time skew now c → has_byte "}" cl.(TenantID) = false →
  lua_exact lim.(RPS) → lua_exact lim.(DailyEvents) →
  run_allow_script cl lim n now r = (res, r') →
  res = Some (fixed_window log cl lim n now) ∧
  (admitted res = false ∧ r' = r ∨
   admitted res = true ∧
   rd_view r' (rateKey cl now) =
     Some (pretty (spent (touches rateKey (rateKey cl now)) log + n), Some 2000) ∧
   rd_view r' (dayKey cl now) =
     Some (pretty (spent (touches dayKey (dayKey cl now)) log + n), Some 172800000) ∧
   ∀ k, k ≠ rateKey cl now → k ≠ dayKey cl now → rd_view r' k = rd_view r k).
Proof.
  intros Hrun Hc Hplain Hlen Hn Ht Hcl Hr Hd Hx. destruct (Hc cl now) as [Hrate Hday].
  apply (exact_holds skew rateKey 2000 rate_windows) in Hrate; [|done..].
  apply (exact_holds skew dayKey 172800000 day_windows) in Hday; [|done..].
  pose proof (quota_run_sizes _ _ _ _ Hrun) as Hsz.
  pose proof (spent_bounds (touches rateKey (rateKey cl now)) log Hsz) as Hb1.
  pose proof (spent_bounds (touches dayKey (dayKey cl now)) log Hsz) as Hb2.
  pose proof (allow_all_or_nothing cl lim n now r _ _ Hrate Hday) as Hrun1.
  unfold fixed_window. rewrite <-(touches_rate log cl now Hplain Hcl).
  rewrite <-(touches_day log c r cl now Hrun (proj2 Ht)).
  change MaxEventsPerBatch with 500 in *.
  assert (∀ z, 0 ≤ z < 2 ^ 53 → lua_exact z) as Hex by (unfold lua_exact; lia).
  specialize (Hrun1 ltac:(apply Hex; lia) ltac:(apply Hex; lia) Hr Hd ltac:(lia) ltac:(lia) ltac:(lia)).
  cbv zeta in Hrun1. rewrite Hx in Hrun1.
  destruct (bool_decide (0 < RPS lim < _)); cbn [orb] in Hrun1;
    [injection Hrun1 as -> ->; split; [done|by left]|].
  destruct (bool_decide (0 < DailyEvents lim < _)); [injection Hrun1 as -> ->; split; [done|by left]|].
  destruct Hrun1 as (r1 & [= -> ->] & Hv). split; [done|]. by right.
Qed.

Lemma counters_step log c r cl lim n now res r' :
  quota_run skew log c r → counters log c r → Forall plain_run log →
  MaxEventsPerBatch * (Z.of_nat (length log) + 1) < 2 ^ 52 →
  1 ≤ n ≤ MaxEventsPerBatch → in_time skew now c → has_byte "}" cl.(TenantID) = false →
  lua_exact lim.(RPS) → lua_exact lim.(DailyEvents) →
  run_allow_script cl lim n now r = (res, r') →
  counters ({| x_cl := cl; x_lim := lim; x_n := n; x_now := now; x_clock := c; x_res := res |} :: log)
    c r'.
Proof.
  intros Hrun Hc Hplain Hlen Hn Ht Hcl Hr Hd Hx cl' now'. set (x := Build_Run _ _ _ _ _ _).
  destruct (run_is_fixed_window _ _ _ _ _ _ _ _ _ Hrun Hc Hplain Hlen Hn Ht Hcl Hr Hd Hx) as [_ Heff].
  pose proof (quota_run_clock _ _ _ _ Hrun) as Hclk. destruct (Hc cl' now') as [Hrate Hday].
  destruct Heff as [[Ha ->]|(Ha & H1 & H2 & Hf)].
  { split; (eapply exact_kept; [done|change (x_res x) with res; by rewrite Ha, andb_false_r|done]). }
  split.
  - destruct (decide (rateKey cl now = rateKey cl' now')) as [Heq|Hne].
    + rewrite <-Heq. eapply exact_charged; try done. by apply bool_decide_eq_true.
    + eapply exact_kept; [by apply Hf| |done]. unfold touches. by rewrite bool_decide_false.
  - destruct (decide (dayKey cl now = dayKey cl' now')) as [Heq|Hne].
    + rewrite <-Heq. eapply exact_charged; try done. by apply bool_decide_eq_true.
    + eapply exact_kept; [by apply Hf| |done]. unfold touches. by rewrite bool_decide_false.
Qed.

(** Over any history, the counters are exact and the answers those of the
    specification. *)
Lemma history_is_fixed_window log c r :
  quota_run skew log c r → Forall plain_run log →
  MaxEventsPerBatch * Z.of_nat (length log) < 2 ^ 52 → counters log c r ∧ fw_run log.
Proof.
  intros Hrun. induction Hrun as
    [c r Hfresh|log c r d Hrun IH Hd|log c r r' Hrun IH Hv|log c r cl lim n now res r' Hrun IH Hn Ht Hx];
    intros Hp Hlen.
  - split; [|constructor]. intros cl now.
    split; apply exact_start; by first [apply rate_quota_key|apply day_quota_key|done].
  - destruct (IH Hp Hlen) as [Hc Hfw]. split; [|done]. intros cl now.
    destruct (Hc cl now). split; by apply exact_wait.
  - destruct (IH Hp Hlen) as [Hc Hfw]. split; [|done]. intros cl now.
    unfold exact_counter. rewrite !Hv by apply rate_quota_key || apply day_quota_key. apply Hc.
  - apply Forall_cons in Hp as [(Hcl & Hr & Hd) Hp]. simpl in Hlen, Hcl, Hr, Hd.
    destruct (IH Hp ltac:(lia)) as [Hc Hfw]. split.
    + eapply counters_step; try done. lia.
    + constructor; [done|]. simpl. eapply (run_is_fixed_window log); try done. lia.
Qed.

(** C7: the limiter refines its specification: in any history of script runs, lost
    replies, waits and other uses of Redis, every run answered exactly what the
    fixed-window specification answers after the runs before it, and so does the next
    one: a denial is never spurious, an admission never excessive, and no answer is an
    error; whatever the limits are and however they change between calls, as long as
    the clocks agree within half a second. *)
Theorem limiter_refines_fixed_window log c r cl lim n now :
  quota_run skew log c r → Forall plain_run log →
  MaxEventsPerBatch * (Z.of_nat (length log) + 1) < 2 ^ 52 →
  1 ≤ n ≤ MaxEventsPerBatch → in_time skew now c → has_byte "}" cl.(TenantID) = false →
  lua_exact lim.(RPS) → lua_exact lim.(DailyEvents) →
  fw_run log ∧ (run_allow_script cl lim n now r).1 = Some (fixed_window log cl lim n now).
Proof.
  intros Hrun Hp Hlen Hn Ht Hcl Hr Hd.
  destruct (history_is_fixed_window log c r Hrun Hp ltac:(lia)) as [Hc Hfw]. split; [done|].
  destruct (run_allow_script cl lim n now r) as [res r'] eqn:Hx.
  by destruct (run_is_fixed_window _ _ _ _ _ _ _ _ _ Hrun Hc Hp Hlen Hn Ht Hcl Hr Hd Hx).
Qed.
End refinement.

(** ** Progress *)

(** Nothing of the window is spent when the tenant last called before it. *)
Lemma fresh_second cl now log t0 :
  Forall (λ x, admitted x.(x_res) = true → x.(x_cl).(TenantID) = cl.(TenantID) →
    0 ≤ year_of x.(x_now) < 10000 ∧ x.(x_now) ≤ t0) log →
  t0 `div` Second < now `div` Second → 0 ≤ year_of now < 10000 → spent (same_second cl now) log = 0.
Proof.
  intros Hlog Ht Hy. unfold spent. induction Hlog as [|x log Hx _ IH]; simpl; [done|].
  destruct (same_second cl now x && admitted (x_res x)) eqn:Hs; [exfalso|done].
  apply andb_true_iff in Hs as [(Htn & _ & Hu)%bool_decide_eq_true Ha].
  destruct (Hx Ha Htn) as [Hyx Hle]. rewrite !Unix_year in Hu by done.
  assert (x_now x `div` Second ≤ t0 `div` Second) by (by apply Z.div_le_mono). lia.
Qed.
Lemma fresh_day cl now log t0 :
  Forall (λ x, admitted x.(x_res) = true → x.(x_cl).(TenantID) = cl.(TenantID) →
    0 ≤ year_of x.(x_now) < 10000 ∧ x.(x_now) ≤ t0) log →
  unix_day t0 < unix_day now → spent (same_day cl now) log = 0.
Proof.
  intros Hlog Ht. unfold spent. induction Hlog as [|x log Hx _ IH]; simpl; [done|].
  destruct (same_day cl now x && admitted (x_res x)) eqn:Hs; [exfalso|done].
  apply andb_true_iff in Hs as [[Htn Hd]%bool_decide_eq_true Ha].
  destruct (Hx Ha Htn) as [_ Hle]. rewrite <-Hd in Ht. unfold unix_day in Ht.
  assert (x_now x `div` Day ≤ t0 `div` Day) by (apply Z.div_le_mono; [by vm_compute|done]). lia.
Qed.

Lemma fixed_window_fresh_second log cl lim n now :
  spent (same_second cl now) log = 0 → lim.(RPS) ≤ 0 ∨ n ≤ lim.(RPS) →
  fixed_window log cl lim n now = (0, "daily_quota") ∨ fixed_window log cl lim n now = (1, "").
Proof.
  intros Hs Hr. unfold fixed_window. rewrite Hs, bool_decide_false by lia.
  case_bool_decide; auto.
Qed.
Lemma fixed_window_fresh log cl lim n now :
  spent (same_second cl now) log = 0 → spent (same_day cl now) log = 0 →
  lim.(RPS) ≤ 0 ∨ n ≤ lim.(RPS) → lim.(DailyEvents) ≤ 0 ∨ n ≤ lim.(DailyEvents) →
  fixed_window log cl lim n now = (1, "").
Proof.
  intros Hs Hd Hr Hdl. unfold fixed_window. rewrite Hs, Hd, !bool_decide_false by lia. done.
Qed.

Lemma fw_suffix log log' : fw_run (log ++ log') → fw_run log'.
Proof.
  induction log as [|x log IH]; [done|]. rewrite <-app_comm_cons. intros H.
  inversion H; subst. by apply IH.
Qed.

(** What a refusal answers. *)
Lemma fixed_window_refuses log cl lim n now res :
  res = Some (fixed_window log cl lim n now) → admitted res = false →
  ∃ a, res = Some a ∧ (a = (0, "rate_limit") ∨ a = (0, "daily_quota")).
Proof.
  intros -> Ha. eexists. split; [done|]. revert Ha. unfold fixed_window.
  repeat case_bool_decide; auto. by intros ?%bool_decide_eq_false.
Qed.

Section progress.
Context (cl : Claims) (lim : Quota) (n : Z).
Context (Hrps : lim.(RPS) ≤ 0 ∨ n ≤ lim.(RPS)) (Hdaily : lim.(DailyEvents) ≤ 0 ∨ n ≤ lim.(DailyEvents)).

(** An attempt of the batch, and a pause until the Retry-After of its refusal is over,
    in which the tenant makes no other call. *)
Definition attempt (x : Run) : Prop := x.(x_cl) = cl ∧ x.(x_lim) = lim ∧ x.(x_n) = n.
Definition obeys (x x' : Run) : Prop :=
  ∀ res, x.(x_res) = Some res → Add x.(x_now) (RetryAfter (decision x.(x_now) res)) ≤ x'.(x_now).
Definition idle (log : list Run) : Prop :=
  Forall (λ x, x.(x_cl).(TenantID) ≠ cl.(TenantID)) log.
Definition before (t0 : Time) (log : list Run) : Prop :=
  Forall (λ x, admitted x.(x_res) = true → x.(x_cl).(TenantID) = cl.(TenantID) →
    0 ≤ year_of x.(x_now) < 10000 ∧ x.(x_now) ≤ t0) log.

Lemma before_idle t0 log log' : idle log → before t0 log' → before t0 (log ++ log').
Proof.
  intros Hi Hb. apply Forall_app. split; [|done]. eapply Forall_impl; [exact Hi|].
  intros x Hx _ Ht. by destruct Hx.
Qed.
Lemma before_denied t0 x log : admitted x.(x_res) = false → before t0 log → before t0 (x :: log).
Proof. intros Ha Hb. constructor; [|done]. intros. congruence. Qed.
Lemma before_le t0 t1 log : before t0 log → t0 ≤ t1 → before t1 log.
Proof.
  intros Hb Ht. eapply Forall_impl; [exact Hb|]. intros x Hx Ha Htn.
  destruct (Hx Ha Htn). split; [done|]. lia.
Qed.

(** A refused attempt and its pause: a second or the rest of the day has passed. *)
Lemma refused_pause x x' res :
  x.(x_res) = Some res → res = (0, "rate_limit") ∨ res = (0, "daily_quota") → obeys x x' →
  x.(x_now) ≤ x'.(x_now) ∧ x.(x_now) `div` Second < x'.(x_now) `div` Second ∧
  (res = (0, "daily_quota") → unix_day x.(x_now) < unix_day x'.(x_now)).
Proof.
  intros Hx Hres Ho. specialize (Ho res Hx).
  destruct Hres as [-> | ->]; unfold decision, Add in Ho; simpl in Ho.
  - unfold Second in *. split_and!; [lia|divlia|done].
  - rewrite untilNextUTCDay_eq in Ho. pose proof (unix_day_bounds (x_now x)).
    unfold unix_day, Day, Hour, Minute, Second in *. split_and!; [lia|divlia|intros _; divlia].
Qed.

(** One more attempt after a pause: only the daily budget can refuse it, and not on a
    day of which nothing is spent. *)
Lemma next_attempt t0 log x :
  fw_run (x :: log) → attempt x → before t0 log → t0 `div` Second < x.(x_now) `div` Second →
  0 ≤ year_of x.(x_now) < 10000 →
  admitted x.(x_res) = true ∨
  (admitted x.(x_res) = false ∧ x.(x_res) = Some (0, "daily_quota") ∧
   ¬ unix_day t0 < unix_day x.(x_now)).
Proof.
  intros Hfw (Hc & Hl & Hn) Hb Ht Hy. inversion Hfw as [|? ? _ Hres]; simplify_eq/=.
  rewrite Hc in Hres. pose proof (fresh_second cl _ _ _ Hb Ht Hy) as Hs.
  destruct (fixed_window_fresh_second _ _ _ _ _ Hs Hrps) as [Hw|Hw]; rewrite Hw in Hres;
    rewrite Hres; [|by left].
  right. split_and!; [done..|]. intros Hd.
  pose proof (fresh_day cl _ _ _ Hb Hd) as Hds.
  by rewrite (fixed_window_fresh _ _ _ _ _ Hs Hds Hrps Hdaily) in Hw.
Qed.

(** C8: a client that obeys Retry-After gets through: a batch that fits the limits at
    all, refused and sent again after the pause it was told, is admitted at the latest
    on the third attempt, when the tenant makes no other calls meanwhile; whatever was
    spent before, and whatever the other tenants do. *)
Theorem retries_get_through `{R : RedisLib} {L : RedisLaws R} skew c r x1 x2 x3 log0 log1 log2 :
  let log := x3 :: log2 ++ x2 :: log1 ++ x1 :: log0 in
  skew ≤ 500 * Millisecond → quota_run skew log c r → Forall plain_run log →
  MaxEventsPerBatch * Z.of_nat (length log) < 2 ^ 52 →
  attempt x1 → attempt x2 → attempt x3 → obeys x1 x2 → obeys x2 x3 → idle log1 → idle log2 →
  Forall (λ x, x.(x_cl).(TenantID) = cl.(TenantID) → x.(x_now) ≤ x1.(x_now)) log0 →
  admitted x1.(x_res) = true ∨ admitted x2.(x_res) = true ∨ admitted x3.(x_res) = true.
Proof.
  intros log Hskew Hrun Hp Hlen H1 H2 H3 Ho1 Ho2 Hi1 Hi2 Hbefore.
  pose proof (quota_run_entries _ _ _ _ Hrun) as Hin.
  destruct (history_is_fixed_window skew Hskew log c r Hrun Hp Hlen) as [_ Hf3].
  assert (∀ x, x ∈ log → 0 ≤ year_of x.(x_now) < 10000) as Hy by (intros x Hx; by apply Hin).
  assert (fw_run (x2 :: log1 ++ x1 :: log0)) as Hf2
    by (apply (fw_suffix (x3 :: log2)); done).
  assert (fw_run (x1 :: log0)) as Hf1 by (apply (fw_suffix (x2 :: log1)); done).
  destruct (admitted (x_res x1)) eqn:Ha1; [by left|]. right.
  inversion Hf1 as [|? ? _ Hr1]; subst.
  destruct (fixed_window_refuses _ _ _ _ _ _ Hr1 Ha1) as (res1 & Hres1 & Hd1).
  destruct (refused_pause _ _ _ Hres1 Hd1 Ho1) as (Hle1 & Hs1 & Hday1).
  assert (before (x_now x1) (log1 ++ x1 :: log0)) as Hb2.
  { apply before_idle; [done|]. apply before_denied; [done|].
    rewrite Forall_forall in Hbefore. apply Forall_forall. intros x Hx _ Ht.
    split; [|by apply Hbefore]. apply Hy. unfold log. set_solver. }
  destruct (next_attempt _ _ _ Hf2 H2 Hb2 Hs1) as [Ha2|(Ha2 & Hres2 & Hnd)];
    [apply Hy; unfold log; set_solver|by left|]. right.
  destruct (refused_pause _ _ _ Hres2 (or_intror eq_refl) Ho2) as (Hle2 & Hs2 & Hday2).
  assert (before (x_now x1) (log2 ++ x2 :: log1 ++ x1 :: log0)) as Hb3
    by (apply before_idle; [done|]; by apply before_denied).
  destruct (next_attempt _ _ _ Hf3 H3 Hb3) as [Ha3|(_ & _ & Hnd3)]; [lia|apply Hy; left|done|].
  destruct Hnd3. specialize (Hday2 eq_refl).
  assert (unix_day (x_now x1) ≤ unix_day (x_now x2)) by (by apply Z.div_le_mono). lia.
Qed.
End progress.

(** ** Witnesses *)

Lemma toy_log_plain : Forall plain_run toy_log.
Proof. repeat constructor. Qed.

(** After the two admitted batches of the toy history, an event more is refused. *)
Lemma limiter_refines_fixed_window_witness :
  fw_run toy_log ∧
  (run_allow_script (R:=ToyRedis) (toy_cl "d") toy_lim 7 toy_time toy_r2).1
    = Some (fixed_window toy_log (toy_cl "d") toy_lim 7 toy_time) ∧
  fixed_window toy_log (toy_cl "d") toy_lim 7 toy_time = (0, "daily_quota").
Proof.
  enough (fw_run toy_log ∧
    (run_allow_script (R:=ToyRedis) (toy_cl "d") toy_lim 7 toy_time toy_r2).1
      = Some (fixed_window toy_log (toy_cl "d") toy_lim 7 toy_time)) as [? ?]
    by (split_and!; [done|done|by vm_compute]).
  apply (limiter_refines_fixed_window (R:=ToyRedis) (500 * Millisecond) ltac:(by vm_compute)
    toy_log toy_clock toy_r2 (toy_cl "d") toy_lim 7 toy_time toy_quota_run toy_log_plain);
    by vm_compute || apply toy_in_time.
Defined.

(** A batch of 30 under 40 a second and 50 a day, after a batch of 30: refused for its
    second, a second later for its day, and admitted at midnight. *)
Definition retry_time1 : Time := toy_time - Second.
Definition retry_time3 : Time := toy_time + 750 * Millisecond.
Definition retry_clock : Z := toy_clock - 1000.
Definition retry_r0 : Redis (RedisLib:=ToyRedis) :=
  (run_allow_script (R:=ToyRedis) (toy_cl "a") toy_lim 30 retry_time1 ∅).2.
Definition retry_r2 : Redis (RedisLib:=ToyRedis) := rd_elapse 1000 retry_r0.
Definition retry_r3 : Redis (RedisLib:=ToyRedis) := rd_elapse 750 retry_r2.
Definition retry_end : Redis (RedisLib:=ToyRedis) :=
  (run_allow_script (R:=ToyRedis) (toy_cl "a") toy_lim 30 retry_time3 retry_r3).2.
Definition retry_x0 : Run := toy_entry "a" 30 retry_clock retry_time1 (Some (1, "")).
Definition retry_x1 : Run := toy_entry "a" 30 retry_clock retry_time1 (Some (0, "rate_limit")).
Definition retry_x2 : Run := toy_entry "a" 30 (retry_clock + 1000) toy_time (Some (0, "daily_quota")).
Definition retry_x3 : Run := toy_entry "a" 30 (retry_clock + 1000 + 750) retry_time3 (Some (1, "")).

Lemma retry_run0 :
  run_allow_script (R:=ToyRedis) (toy_cl "a") toy_lim 30 retry_time1 ∅ = (Some (1, ""), retry_r0).
Proof. vm_cast_no_check (eq_refl (Some (1, ""), retry_r0)). Qed.
Lemma retry_run1 :
  run_allow_script (R:=ToyRedis) (toy_cl "a") toy_lim 30 retry_time1 retry_r0
    = (Some (0, "rate_limit"), retry_r0).
Proof. vm_cast_no_check (eq_refl (Some (0, "rate_limit"), retry_r0)). Qed.
Lemma retry_run2 :
  run_allow_script (R:=ToyRedis) (toy_cl "a") toy_lim 30 toy_time retry_r2
    = (Some (0, "daily_quota"), retry_r2).
Proof. vm_cast_no_check (eq_refl (Some (0, "daily_quota"), retry_r2)). Qed.
Lemma retry_run3 :
  run_allow_script (R:=ToyRedis) (toy_cl "a") toy_lim 30 retry_time3 retry_r3
    = (Some (1, ""), retry_end).
Proof. vm_cast_no_check (eq_refl (Some (1, ""), retry_end)). Qed.

Lemma retry_in_time :
  in_time (500 * Millisecond) retry_time1 retry_clock ∧
  in_time (500 * Millisecond) toy_time (retry_clock + 1000) ∧
  in_time (500 * Millisecond) retry_time3 (retry_clock + 1000 + 750).
Proof. split_and!; (split; [by vm_compute|]); vm_compute; (split; [by intros|done]). Qed.

Lemma retry_history :
  quota_run (R:=ToyRedis) (500 * Millisecond) [retry_x3; retry_x2; retry_x1; retry_x0]
    (retry_clock + 1000 + 750) retry_end.
Proof.
  destruct retry_in_time as (H1 & H2 & H3).
  apply (run_allow _ _ _ _ _ _ _ _ _ _) with (4 := retry_run3); [|done|exact H3].
  apply run_wait; [|done].
  apply (run_allow _ _ _ _ _ _ _ _ _ _) with (4 := retry_run2); [|done|exact H2].
  apply run_wait; [|done].
  apply (run_allow _ _ _ _ _ _ _ _ _ _) with (4 := retry_run1); [|done|exact H1].
  apply (run_allow _ _ _ _ _ _ _ _ _ _) with (4 := retry_run0); [|done|exact H1].
  apply run_start. intros k _. reflexivity.
Qed.

Lemma retries_get_through_witness :
  fixed_window [retry_x0] (toy_cl "a") toy_lim 30 retry_time1 = (0, "rate_limit") ∧
  fixed_window [retry_x1; retry_x0] (toy_cl "a") toy_lim 30 toy_time = (0, "daily_quota") ∧
  (admitted retry_x1.(x_res) = true ∨ admitted retry_x2.(x_res) = true ∨
   admitted retry_x3.(x_res) = true).
Proof.
  split; [by vm_compute|]. split; [by vm_compute|].
  apply (retries_get_through (toy_cl "a") toy_lim 30 ltac:(by right) ltac:(by right) (R:=ToyRedis)
    (500 * Millisecond) (retry_clock + 1000 + 750) retry_end retry_x1 retry_x2 retry_x3
    [retry_x0] [] []); [by vm_compute|exact retry_history|repeat constructor|by vm_compute|done..| | | | |].
  - intros res [= <-]. by vm_compute.
  - intros res [= <-]. by vm_compute.
  - constructor.
  - constructor.
  - apply Forall_singleton. intros _. by vm_compute.
Defined.
