(* ===== verification/Json.v ===== *)
(** * encoding/json for the property object

    [json.Marshal] of a map from strings to strings, float64s and booleans: sorted
    keys, HTML-safe string escapes, shortest float formatting.  Executable, so an
    event's stored text can be computed. *)
From stdpp Require Import sorting.
From S2P Require Import Prelude GoStrings Proto Jwx.
#[local] Open Scope Z_scope.

(** ** Strings *)

Definition in_range (lo hi : Z) (c : ascii) : bool := bool_decide (lo ≤ byteZ c ≤ hi).

(** [utf8.DecodeRuneInString] on the first bytes of [l]: the width of a valid
    rune, or 0 for an invalid byte. *)
Definition rune_width (l : list ascii) : nat :=
  match l with
  | [] => 0%nat
  | a :: l =>
      let cont := in_range 0x80 0xBF in
      let second lo hi := match l with b :: _ => in_range lo hi b | _ => false end in
      let third := match l with _ :: b :: _ => cont b | _ => false end in
      let fourth := match l with _ :: _ :: b :: _ => cont b | _ => false end in
      if in_range 0 0x7F a then 1%nat
      else if in_range 0xC2 0xDF a then if second 0x80 0xBF then 2%nat else 0%nat
      else if in_range 0xE0 0xEF a then
        let lo := if bool_decide (byteZ a = 0xE0) then 0xA0 else 0x80 in
        let hi := if bool_decide (byteZ a = 0xED) then 0x9F else 0xBF in
        if second lo hi && third then 3%nat else 0%nat
      else if in_range 0xF0 0xF4 a then
        let lo := if bool_decide (byteZ a = 0xF0) then 0x90 else 0x80 in
        let hi := if bool_decide (byteZ a = 0xF4) then 0x8F else 0xBF in
        if second lo hi && third && fourth then 4%nat else 0%nat
      else 0%nat
  end.

Definition hex_digit_of (z : Z) : ascii := asciiZ (if bool_decide (z < 10) then 48 + z else 87 + z).
Definition bs : ascii := asciiZ 92.
Definition dq : ascii := asciiZ 34.
Definition lit (s : string) : list ascii := bytes s.

(** The escape of one ASCII byte, or the byte itself. *)
Definition escape_ascii (c : ascii) : list ascii :=
  let b := byteZ c in
  if bool_decide (b = 92 ∨ b = 34) then [bs; c]
  else if bool_decide (b = 8) then [bs; "b"%char]
  else if bool_decide (b = 12) then [bs; "f"%char]
  else if bool_decide (b = 10) then [bs; "n"%char]
  else if bool_decide (b = 13) then [bs; "r"%char]
  else if bool_decide (b = 9) then [bs; "t"%char]
  else if bool_decide (b < 32 ∨ b = 60 ∨ b = 62 ∨ b = 38) then
    bs :: lit "u00" ++ [hex_digit_of (b / 16); hex_digit_of (b `mod` 16)]
  else [c].

(** The bytes of a string between its quotes; [skip] bytes belong to a rune whose
    first byte was handled, copied if [copy] and else already written. *)
Fixpoint escape (copy : bool) (skip : nat) (l : list ascii) : list ascii :=
  match l with
  | [] => []
  | c :: rest =>
      match skip with
      | S skip => (if copy then [c] else []) ++ escape copy skip rest
      | O =>
          match rune_width l with
          | O => bs :: lit "ufffd" ++ escape true 0 rest
          | 1%nat => escape_ascii c ++ escape true 0 rest
          | S w =>
              if bool_decide (take 3 l = utf8_3 0xE2 0x80 0xA8) then
                bs :: lit "u2028" ++ escape false w rest
              else if bool_decide (take 3 l = utf8_3 0xE2 0x80 0xA9) then
                bs :: lit "u2029" ++ escape false w rest
              else c :: escape true w rest
          end
      end
  end.

Definition json_string (s : string) : string :=
  of_bytes (dq :: escape true 0 (bytes s) ++ [dq]).

(** ** Floats: strconv.AppendFloat(f, 'f' or 'e', -1, 64) *)

(** [x * 2 ^ e / 10 ^ p] as the fraction [num x e p / den e p]. *)
Definition num (x e p : Z) : Z := x * 2 ^ Z.max e 0 * 10 ^ Z.max (- p) 0.
Definition den (e p : Z) : Z := 2 ^ Z.max (- e) 0 * 10 ^ Z.max p 0.

(** The rounding interval of [m * 2 ^ e], in units of [2 ^ (e - 2)]: half way to
    each neighbour, closed when [m] is even. *)
Definition lower_of (m e : Z) : Z :=
  if bool_decide (m = 2 ^ 52 ∧ e > -1074) then 4 * m - 1 else 4 * m - 2.
Definition above (m e d p : Z) : bool :=
  let lo := num (lower_of m e) (e - 2) p in
  let x := d * den (e - 2) p in
  bool_decide (lo < x) || (Z.even m && bool_decide (lo = x)).
Definition below (m e d p : Z) : bool :=
  let hi := num (4 * m + 2) (e - 2) p in
  let x := d * den (e - 2) p in
  bool_decide (x < hi) || (Z.even m && bool_decide (x = hi)).

(** The scan for the shortest decimal [d * 10 ^ p] that rounds to [m * 2 ^ e]: it
    lowers [p] until the truncation of the value or its successor falls in the
    interval, and takes the nearest when both do. *)
Fixpoint shortest (fuel : nat) (p m e : Z) : Z * Z :=
  match fuel with
  | O => (0, 0)
  | S fuel =>
      let v := num (4 * m) (e - 2) p in
      let dn := den (e - 2) p in
      let d := v `div` dn in
      let okdown := above m e d p in
      let okup := below m e (d + 1) p in
      let r2 := 2 * (v - d * dn) in
      let nearest_up := bool_decide (r2 > dn) || bool_decide (r2 = dn) && Z.odd d in
      if okdown && okup then (if nearest_up then d + 1 else d, p)
      else if okdown then (d, p)
      else if okup then (d + 1, p)
      else shortest fuel (p - 1) m e
  end.

(** Where the scan starts, above every candidate, and where it must have ended. *)
Definition scan_from (m e : Z) : Z :=
  let x := Z.log2 m + e + 2 in
  if bool_decide (0 ≤ x) then x `div` 3 + 1 else x `div` 4 + 1.
Definition scan_to (e : Z) : Z :=
  if bool_decide (0 ≤ e - 2) then (e - 2) `div` 4 else (e - 2) `div` 3.
Definition float_digits (m e : Z) : Z * Z :=
  shortest (Z.to_nat (scan_from m e - scan_to e + 1)) (scan_from m e) m e.

(** Digits [ds] with the decimal point after the first [dp] of them. *)
Definition format_f (ds : string) (dp : Z) : string :=
  let nd := len ds in
  if bool_decide (dp ≤ 0) then
    "0." +:+ replicate_string (Z.to_nat (- dp)) "0" +:+ ds
  else if bool_decide (nd ≤ dp) then ds +:+ replicate_string (Z.to_nat (dp - nd)) "0"
  else of_bytes (take (Z.to_nat dp) (bytes ds)) +:+ "." +:+
       of_bytes (drop (Z.to_nat dp) (bytes ds)).

(** One digit, the others after a point, and the exponent without padding. *)
Definition format_e (ds : string) (dp : Z) : string :=
  let ex := dp - 1 in
  let frac := of_bytes (drop 1 (bytes ds)) in
  of_bytes (take 1 (bytes ds)) +:+ (if bool_decide (frac = "") then "" else "." +:+ frac)
  +:+ "e" +:+ (if bool_decide (ex < 0) then "-" else "+") +:+ pretty (Z.abs ex).

(** The JSON text of a float64; [None] is the UnsupportedValueError of NaN and the
    infinities. *)
Definition json_float (f : spec_float) : option string :=
  match f with
  | S754_nan | S754_infinity _ => None
  | S754_zero s => Some (if s then "-0" else "0")
  | S754_finite s m e =>
      let '(d, p) := float_digits (Zpos m) e in
      let ds := pretty d in
      let dp := len ds + p in
      let small := SFltb (SFabs f) (binary_normalize 53 1024 4722366482869645 (-72) false) in
      let large := negb (SFltb (SFabs f) (binary_normalize 53 1024 (10 ^ 21) 0 false)) in
      let text := if small || large then format_e ds dp else format_f ds dp in
      Some ((if s then "-" else "") +:+ text)
  end.

(** ** Objects *)

(** The values a property map flattens to. *)
Inductive scalar :=
| JString (s : string)
| JNumber (f : spec_float)
| JBool (b : bool).

Definition json_scalar (v : scalar) : option string :=
  match v with
  | JString s => Some (json_string s)
  | JNumber f => json_float f
  | JBool b => Some (if b then "true" else "false")
  end.

Definition key_le (a b : string * scalar) : Prop := String.leb a.1 b.1 = true.
#[export] Instance key_le_dec : RelDecision key_le.
Proof. intros a b. unfold key_le. apply _. Defined.

(** [json.Marshal] of a [map[string]any] of scalars. *)
Definition json_object (m : gmap string scalar) : option string :=
  entries ← mapM (λ kv, text ← json_scalar kv.2; Some (json_string kv.1 +:+ ":" +:+ text))
              (merge_sort key_le (map_to_list m));
  Some ("{" +:+ Join entries "," +:+ "}").

Example json_floats :
  json_float <$>
    [S754_finite false 5626684784446013 (-48); S754_finite false 7629394531250000 17;
     S754_finite true 7555786372591432 (-76); S754_finite false 8285044862877696 (-26); S754_finite false 7205759403792794 (-56);
     S754_finite false 4503599627370496 1;
     S754_finite false 5960464477539062 24; S754_zero true; int_to_float 100]
  = Some <$> ["19.99"; "1e+21"; "-1e-7"; "123456789"; "0.1";
     "9007199254740992"; "1e+23"; "-0"; "100"].
Proof. vm_compute. reflexivity. Qed.

Example json_object_ex :
  json_object (<["first" := JBool true]> (<["amount" := JNumber (S754_finite false 5626684784446013 (-48))]>
    (<["note" := JString ("<a" +:+ of_bytes (utf8_3 0xE2 0x80 0xA8) +:+ of_bytes [asciiZ 0xFF; asciiZ 9])]> ∅)))
  = Some (of_bytes (map (λ c, if bool_decide (c = "'"%char) then dq else c)
      (bytes "{'amount':19.99,'first':true,'note':'\u003ca\u2028\ufffd\t'}"))).
Proof. vm_compute. reflexivity. Qed.

(** ** A finite property map always has a text *)

Lemma json_scalar_some v :
  (∀ f, v = JNumber f → json_float f ≠ None) → is_Some (json_scalar v).
Proof. destruct v as [s|f|b]; intros Hf; simpl; [eauto| |eauto]. apply not_eq_None_Some. eauto. Qed.

Lemma json_object_some m :
  map_Forall (λ _ v, is_Some (json_scalar v)) m → is_Some (json_object m).
Proof.
  intros Hm. unfold json_object.
  destruct (mapM _ (merge_sort key_le (map_to_list m))) as [entries|] eqn:He; simpl; [eauto|].
  exfalso. apply mapM_None in He. apply Exists_exists in He as ([k v] & Hin & Hv).
  rewrite merge_sort_Permutation in Hin. apply elem_of_map_to_list in Hin.
  destruct (Hm k v Hin) as [t Ht]. simpl in Hv. by rewrite Ht in Hv.
Qed.

(** ** The digits are the shortest that read back *)

Lemma den_pos e p : 0 < den e p.
Proof. unfold den. apply Z.mul_pos_pos; lia. Qed.

Lemma num_mono e p x y : x < y → num x e p < num y e p.
Proof.
  intros Hxy. unfold num. apply Z.mul_lt_mono_pos_r; [lia|].
  apply Z.mul_lt_mono_pos_r; lia.
Qed.

Lemma lower_lt m e : lower_of m e < 4 * m.
Proof. unfold lower_of. case_bool_decide; lia. Qed.
Lemma lower_pos m e : 0 < m → 0 < lower_of m e.
Proof. unfold lower_of. case_bool_decide; lia. Qed.

(** One step finds a candidate exactly when the interval holds a multiple. *)
Lemma step_inside m e d p :
  0 < m → above m e d p = true → below m e d p = true →
  let q := num (4 * m) (e - 2) p `div` den (e - 2) p in
  above m e q p = true ∨ below m e (q + 1) p = true.
Proof.
  intros Hm Ha Hb q. unfold above, below in *.
  pose proof (den_pos (e - 2) p) as Hd. set (D := den (e - 2) p) in *.
  set (V := num (4 * m) (e - 2) p) in *.
  clearbody q V. rewrite !orb_true_iff, !andb_true_iff, !bool_decide_eq_true in *.
  destruct (decide (d ≤ q)) as [Hdq|Hdq]; [left|right].
  - assert (d * D ≤ q * D) as Hle by (apply Z.mul_le_mono_nonneg_r; lia).
    destruct Ha as [Ha|[He Ha]]; [left; lia|].
    apply Z.lt_eq_cases in Hle as [?|?]; [left; lia|right; split; [done|lia]].
  - assert ((q + 1) * D ≤ d * D) as Hle by (apply Z.mul_le_mono_nonneg_r; lia).
    destruct Hb as [Hb|[He Hb]]; [left; lia|].
    apply Z.lt_eq_cases in Hle as [?|?]; [left; lia|right; split; [done|lia]].
Qed.

Lemma trunc_below m e p :
  below m e (num (4 * m) (e - 2) p `div` den (e - 2) p) p = true.
Proof.
  unfold below. pose proof (den_pos (e - 2) p).
  pose proof (Z.mul_div_le (num (4 * m) (e - 2) p) (den (e - 2) p) ltac:(done)).
  pose proof (num_mono (e - 2) p (4 * m) (4 * m + 2) ltac:(lia)).
  rewrite orb_true_iff, bool_decide_eq_true. left. lia.
Qed.
Lemma succ_above m e p :
  above m e (num (4 * m) (e - 2) p `div` den (e - 2) p + 1) p = true.
Proof.
  unfold above. pose proof (den_pos (e - 2) p).
  pose proof (Z.mul_succ_div_gt (num (4 * m) (e - 2) p) (den (e - 2) p) ltac:(done)).
  pose proof (num_mono (e - 2) p _ _ (lower_lt m e)).
  rewrite orb_true_iff, bool_decide_eq_true. left. lia.
Qed.

(** The scan from [p] stops by [stop] if a step there must succeed. *)
Lemma shortest_spec fuel p stop m e :
  0 < m → stop ≤ p → p - stop < Z.of_nat fuel →
  den (e - 2) stop ≤ num (4 * m) (e - 2) stop - num (lower_of m e) (e - 2) stop →
  let '(d, q) := shortest fuel p m e in
  above m e d q = true ∧ below m e d q = true ∧ q ≤ p ∧
  ∀ d' q', q < q' ≤ p → above m e d' q' = true → below m e d' q' = true → False.
Proof.
  intros Hm. revert p. induction fuel as [|fuel IH]; intros p Hp Hf Hstop; [lia|].
  simpl. pose proof (trunc_below m e p) as Htb. pose proof (succ_above m e p) as Hsa.
  pose proof (step_inside m e) as Hin.
  assert (p = stop → above m e (num (4 * m) (e - 2) p `div` den (e - 2) p) p = true) as Hend.
  { intros ->. unfold above. pose proof (den_pos (e - 2) stop).
    pose proof (Z.mul_succ_div_gt (num (4 * m) (e - 2) stop) (den (e - 2) stop) ltac:(done)).
    rewrite orb_true_iff, bool_decide_eq_true. left. lia. }
  set (q := num (4 * m) (e - 2) p `div` den (e - 2) p) in *.
  destruct (above m e q p) eqn:Ha, (below m e (q + 1) p) eqn:Hb; simpl;
    [case_match; split_and!; (done || lia || (intros; lia))
    |split_and!; (done || lia || (intros; lia))
    |split_and!; (done || lia || (intros; lia))|].
  assert (p ≠ stop) as Hne by (intros ->; by specialize (Hend eq_refl)).
  specialize (IH (p - 1) ltac:(lia) ltac:(lia) Hstop).
  destruct (shortest fuel (p - 1) m e) as [d q0]. destruct IH as (H1 & H2 & H3 & H4).
  split_and!; [done|done|lia|]. intros d' q' Hq' Ha' Hb'.
  destruct (decide (q' = p)) as [->|Hq]; [|by apply (H4 d' q'); [lia|..]].
  destruct (Hin d' p Hm Ha' Hb') as [?|?]; subst q; congruence.
Qed.

Lemma pow_10_le_16 k : 0 ≤ k → 10 ^ k ≤ 2 ^ (4 * k).
Proof. intros. rewrite Z.pow_mul_r by lia. apply Z.pow_le_mono_l. lia. Qed.
Lemma pow_8_le_10 k : 0 ≤ k → 2 ^ (3 * k) ≤ 10 ^ k.
Proof. intros. rewrite Z.pow_mul_r by lia. apply Z.pow_le_mono_l. lia. Qed.

Lemma scan_to_stops m e :
  0 < m →
  den (e - 2) (scan_to e)
    ≤ num (4 * m) (e - 2) (scan_to e) - num (lower_of m e) (e - 2) (scan_to e).
Proof.
  intros Hm.
  assert (den (e - 2) (scan_to e) ≤ num 1 (e - 2) (scan_to e)) as H1.
  { unfold den, num, scan_to. case_bool_decide as He.
    - rewrite (Z.max_l (e - 2)), (Z.max_r (- (e - 2))) by lia.
      assert (0 ≤ (e - 2) `div` 4 ∧ 4 * ((e - 2) `div` 4) ≤ e - 2) as [? ?] by divlia.
      rewrite Z.max_l, Z.max_r by lia.
      pose proof (pow_10_le_16 ((e - 2) `div` 4) ltac:(done)).
      assert (2 ^ (4 * ((e - 2) `div` 4)) ≤ 2 ^ (e - 2)) by (apply Z.pow_le_mono_r; lia).
      rewrite Z.pow_0_r. lia.
    - rewrite (Z.max_r (e - 2)), (Z.max_l (- (e - 2))) by lia.
      assert ((e - 2) `div` 3 ≤ 0 ∧ - (e - 2) ≤ 3 * - ((e - 2) `div` 3)) as [? ?] by divlia.
      rewrite (Z.max_r ((e - 2) `div` 3)), Z.max_l by lia.
      pose proof (pow_8_le_10 (- ((e - 2) `div` 3)) ltac:(lia)).
      assert (2 ^ (- (e - 2)) ≤ 2 ^ (3 * - ((e - 2) `div` 3))) by (apply Z.pow_le_mono_r; lia).
      rewrite !Z.pow_0_r. lia. }
  etrans; [exact H1|]. unfold num. rewrite <-!Z.mul_sub_distr_r.
  pose proof (lower_lt m e).
  apply Z.mul_le_mono_nonneg_r; [lia|]. apply Z.mul_le_mono_nonneg_r; lia.
Qed.

(** No multiple of [10 ^ p] is in the interval above the start of the scan. *)
Lemma scan_from_above m e p :
  0 < m → scan_from m e ≤ p → num (4 * m + 2) (e - 2) p < den (e - 2) p.
Proof.
  intros Hm Hp.
  pose proof (Z.log2_spec m Hm) as [_ Hlog]. pose proof (Z.log2_nonneg m) as Hl0.
  set (l := Z.log2 m) in *.
  assert (4 * m + 2 ≤ 2 ^ (l + 4)) as Hhi.
  { replace (l + 4) with (Z.succ l + 3) by lia. rewrite Z.pow_add_r by lia. lia. }
  set (x := l + e + 2). set (B := Z.max (- (e - 2)) 0).
  assert (0 ≤ x + B ∧ 0 ≤ B) as [? ?] by lia.
  assert ((4 * m + 2) * 2 ^ Z.max (e - 2) 0 ≤ 2 ^ (x + B)) as Hn.
  { replace (x + B) with (l + 4 + Z.max (e - 2) 0) by lia. rewrite Z.pow_add_r by lia.
    apply Z.mul_le_mono_nonneg_r; lia. }
  unfold num, den. fold B.
  eapply Z.le_lt_trans; [apply Z.mul_le_mono_nonneg_r; [lia|exact Hn]|].
  unfold scan_from in Hp. fold l in Hp. fold x in Hp. clearbody x B.
  destruct (decide (0 ≤ p)) as [Hp0|Hp0].
  - rewrite (Z.max_r (- p)), (Z.max_l p), Z.pow_0_r, Z.mul_1_r by lia.
    case_bool_decide as Hx.
    + assert (x < 3 * p) by divlia. pose proof (pow_8_le_10 p Hp0).
      assert (2 ^ x < 2 ^ (3 * p)) by (apply Z.pow_lt_mono_r; lia).
      rewrite Z.pow_add_r, Z.mul_comm by lia. apply Z.mul_lt_mono_pos_l; lia.
    + assert (2 ^ (x + B) < 2 ^ B) by (apply Z.pow_lt_mono_r; lia).
      assert (1 ≤ 10 ^ p) by (assert (0 < 10 ^ p) by lia; lia). nia.
  - rewrite (Z.max_l (- p)), (Z.max_r p), Z.pow_0_r, Z.mul_1_r by lia.
    case_bool_decide as Hx; [divlia|].
    assert (4 * - p < - x) by divlia. pose proof (pow_10_le_16 (- p) ltac:(lia)).
    apply Z.le_lt_trans with (2 ^ (x + B) * 2 ^ (4 * - p)).
    + apply Z.mul_le_mono_nonneg_l; lia.
    + rewrite <-Z.pow_add_r by lia. apply Z.pow_lt_mono_r; lia.
Qed.

Lemma above_pos m e d p : 0 < m → above m e d p = true → 0 < d.
Proof.
  intros Hm. unfold above. pose proof (den_pos (e - 2) p).
  assert (0 < num (lower_of m e) (e - 2) p) as Hlo.
  { change 0 with (num 0 (e - 2) p). by apply num_mono, lower_pos. }
  rewrite orb_true_iff, andb_true_iff, !bool_decide_eq_true. nia.
Qed.

Lemma float_digits_spec m e :
  0 < m →
  let '(d, p) := float_digits m e in
  above m e d p = true ∧ below m e d p = true ∧
  ∀ d' p', p < p' → above m e d' p' = true → below m e d' p' = true → False.
Proof.
  intros Hm. unfold float_digits.
  assert (scan_to e ≤ scan_from m e) as Hle.
  { unfold scan_to, scan_from. pose proof (Z.log2_nonneg m).
    repeat case_bool_decide; divlia. }
  pose proof (shortest_spec (Z.to_nat (scan_from m e - scan_to e + 1)) (scan_from m e)
    (scan_to e) m e Hm Hle ltac:(lia) (scan_to_stops m e Hm)) as H.
  destruct (shortest _ _ m e) as [d p]. destruct H as (H1 & H2 & H3 & H4).
  split_and!; [done|done|]. intros d' p' Hp' Ha Hb.
  destruct (decide (p' ≤ scan_from m e)) as [Hs|Hs]; [by apply (H4 d' p')|].
  pose proof (scan_from_above m e p' Hm ltac:(lia)) as Hfar.
  pose proof (above_pos _ _ _ _ Hm Ha). pose proof (den_pos (e - 2) p').
  unfold below in Hb. rewrite orb_true_iff, andb_true_iff, !bool_decide_eq_true in Hb. nia.
Qed.

(** ** The text of an object, entry by entry *)

Definition entry_text (kt : string * string) : string := json_string kt.1 +:+ ":" +:+ kt.2.

#[export] Instance key_le_total : Total key_le.
Proof.
  intros a b. unfold key_le, String.leb.
  rewrite (String.compare_antisym b.1 a.1). destruct (String.compare a.1 b.1); simpl; auto.
Qed.

Lemma json_object_entries m text :
  json_object m = Some text →
  ∃ entries : list (string * string),
    text = "{" +:+ Join (entry_text <$> entries) "," +:+ "}" ∧
    entries.*1 ≡ₚ (map_to_list m).*1 ∧
    Sorted (λ a b : string * string, String.leb a.1 b.1 = true) entries ∧
    ∀ k t, (k, t) ∈ entries → ∃ v, m !! k = Some v ∧ json_scalar v = Some t.
Proof.
  unfold json_object. intros H.
  destruct (mapM _ (merge_sort key_le (map_to_list m))) as [ts|] eqn:He; [|done].
  simpl in H. injection H as <-.
  pose proof (Sorted_merge_sort key_le (map_to_list m)) as Hs.
  pose proof (merge_sort_Permutation key_le (map_to_list m)) as Hp.
  set (l := merge_sort key_le (map_to_list m)) in *. clearbody l.
  assert (∃ entries : list (string * string), ts = entry_text <$> entries ∧
    Forall2 (λ (kv : string * scalar) kt, kv.1 = kt.1 ∧ json_scalar kv.2 = Some kt.2) l entries)
    as (entries & -> & Hall).
  { clear Hs Hp. revert ts He. induction l as [|[k v] l IH]; intros ts He.
    - injection He as <-. exists []. by split.
    - simpl in He. destruct (json_scalar v) as [t|] eqn:Ht; [|done]. simpl in He.
      destruct (mapM _ l) as [ts'|]; [|done]. injection He as <-.
      destruct (IH ts' eq_refl) as (en & -> & Hen). exists ((k, t) :: en).
      split; [done|]. by constructor. }
  assert (entries.*1 = l.*1) as Hfst.
  { clear -Hall. induction Hall as [|? ? ? ? [Hk _] _ IH]; [done|].
    rewrite !fmap_cons, Hk. by f_equal. }
  exists entries. split_and!; [done|by rewrite Hfst, Hp| |].
  - clear -Hall Hs. induction Hall as [|[k v] [k' t] l en [Hk Ht] Hall IH]; [constructor|].
    apply Sorted_inv in Hs as [Hs Hh]. constructor; [by apply IH|].
    destruct Hall as [|[k2 v2] [k2' t2] l2 en2 [Hk2 _] _]; constructor.
    apply HdRel_inv in Hh. simpl in *. subst. exact Hh.
  - intros k t Hin. apply list_elem_of_lookup in Hin as [i Hi].
    destruct (Forall2_lookup_r _ _ _ _ _ Hall Hi) as ([k' v] & Hl & Hk & Hv).
    simpl in *. subst k'. exists v. split; [|done].
    apply elem_of_map_to_list. rewrite <-Hp. by apply list_elem_of_lookup_2 in Hl.
Qed.

(** The text of a finite nonzero number: the shortest decimal that reads back. *)
Definition shortest_text (s : bool) (m : positive) (e : Z) (t : string) : Prop :=
  ∃ d p,
    (t = (if s then "-" else "") +:+ format_f (pretty d) (len (pretty d) + p) ∨
     t = (if s then "-" else "") +:+ format_e (pretty d) (len (pretty d) + p)) ∧
    above (Zpos m) e d p = true ∧ below (Zpos m) e d p = true ∧
    ∀ d' p', p < p' → above (Zpos m) e d' p' = true → below (Zpos m) e d' p' = true → False.

Lemma json_float_shortest s m e t :
  json_float (S754_finite s m e) = Some t → shortest_text s m e t.
Proof.
  unfold json_float. pose proof (float_digits_spec (Zpos m) e ltac:(lia)) as H.
  destruct (float_digits (Zpos m) e) as [d p].
  generalize (SFltb (SFabs (S754_finite s m e)) (binary_normalize 53 1024 4722366482869645 (-72) false)
    || negb (SFltb (SFabs (S754_finite s m e)) (binary_normalize 53 1024 (10 ^ 21) 0 false))).
  intros big Ht. apply (inj Some) in Ht. exists d, p. split; [|exact H].
  rewrite <-Ht. destruct big; [by right|by left].
Qed.

Lemma json_float_None f : json_float f = None → f = S754_nan ∨ ∃ s, f = S754_infinity s.
Proof.
  destruct f as [s|s| |s m e]; [by intros [=]|by right; exists s|by left|].
  unfold json_float. destruct (float_digits (Zpos m) e) as [d p]. intros H. discriminate H.
Qed.
