(* ===== verification/Enrich.v ===== *)
(** * Package enrich: clock skew and the storage row

    [Correct] and [CandidateOffset] are the skew arithmetic on int64 milliseconds;
    [OffsetStore] is the interface of the session-offset stores, with the in-memory
    and the Postgres implementation as instances, and the statement that deletes quiet sessions;
    [Row] is the storage row. *)
From Stdlib Require Import Sorted.
From S2P Require Import Prelude GoStrings GoTime Limits Proto Validate Jwx Json Token.
#[local] Open Scope Z_scope.

Definition MaxFutureSkew : Z := 24 * Hour.
Definition MaxPastSkew : Z := 30 * 24 * Hour.

Record SessionKey := { sk_TenantID : string; sk_DeviceID : string; sk_SessionID : string }.
#[export] Instance SessionKey_eq_dec : EqDecision SessionKey.
Proof. solve_decision. Defined.
#[export] Instance SessionKey_countable : Countable SessionKey.
Proof.
  apply (inj_countable' (λ k, (k.(sk_TenantID), k.(sk_DeviceID), k.(sk_SessionID)))
    (λ '(t, d, s), {| sk_TenantID := t; sk_DeviceID := d; sk_SessionID := s |})).
  by intros [].
Defined.

(** [Correct(tsClientMS, offsetMS, receivedAt)] *)
Definition Correct (tsClientMS offsetMS : Z) (receivedAt : Time) : Time * bool :=
  let ts := FromUnixMilli (add64 tsClientMS offsetMS) in
  if bool_decide (Sub ts receivedAt > MaxFutureSkew) then (receivedAt, true)
  else if bool_decide (Sub receivedAt ts > MaxPastSkew) then (receivedAt, true)
  else (ts, false).

(** [CandidateOffset(sentAtMS, receivedAt)] *)
Definition CandidateOffset (sentAtMS : Z) (receivedAt : Time) : Z :=
  if bool_decide (sentAtMS ≤ 0) then 0
  else
    let offset := sub64 (UnixMilli receivedAt) sentAtMS in
    if bool_decide (offset > Milliseconds MaxPastSkew ∨ offset < - Milliseconds MaxFutureSkew)
    then 0 else offset.

(** ** Offset stores *)

(** The contract of [OffsetStore.GetOrSet]: atomic, and the first writer wins. *)
Class OffsetStore (S : Type) := {
  GetOrSet : SessionKey → Z → S → Z * S;
  os_view : S → gmap SessionKey Z;
  os_answer k candidate s : (GetOrSet k candidate s).1 = default candidate (os_view s !! k);
  os_update k candidate s :
    os_view (GetOrSet k candidate s).2 = <[k := default candidate (os_view s !! k)]> (os_view s)
}.

(** [MemoryOffsetStore]: the map the mutex guards. *)
Definition Memory_GetOrSet (k : SessionKey) (candidate : Z) (m : gmap SessionKey Z) :
    Z * gmap SessionKey Z :=
  match m !! k with
  | Some v => (v, m)
  | None => (candidate, <[k := candidate]> m)
  end.

#[local] Obligation Tactic := idtac.
#[export] Program Instance Memory_OffsetStore : OffsetStore (gmap SessionKey Z) := {
  GetOrSet := Memory_GetOrSet;
  os_view m := m
}.
Next Obligation. intros k c m. unfold Memory_GetOrSet. by destruct (m !! k). Qed.
Next Obligation.
  intros k c m. unfold Memory_GetOrSet. destruct (m !! k) as [v|] eqn:Hk; simpl; [|done].
  by rewrite insert_id.
Qed.

(** [PostgresOffsetStore]: the session_offsets table with its database clock.
    The statement inserts a row or, on a conflict of the primary key, keeps the
    stored offset and bumps last_seen. *)
Record OffsetRow := { or_offset_ms : Z; or_last_seen : Time }.
Record PgOffsets := { pg_rows : gmap SessionKey OffsetRow; pg_now : Time }.

Definition Postgres_GetOrSet (k : SessionKey) (candidate : Z) (db : PgOffsets) : Z * PgOffsets :=
  let offset := match db.(pg_rows) !! k with Some row => row.(or_offset_ms) | None => candidate end in
  (offset,
   {| pg_rows := <[k := {| or_offset_ms := offset; or_last_seen := db.(pg_now) |}]> db.(pg_rows);
      pg_now := db.(pg_now) |}).

#[export] Program Instance Postgres_OffsetStore : OffsetStore PgOffsets := {
  GetOrSet := Postgres_GetOrSet;
  os_view db := or_offset_ms <$> db.(pg_rows)
}.
Next Obligation. intros k c db. simpl. rewrite lookup_fmap. by destruct (_ !! k). Qed.
Next Obligation.
  intros k c db. simpl. rewrite fmap_insert, lookup_fmap. by destruct (pg_rows db !! k).
Qed.

(** Besides calls, time passes, and sql/0002_session_offsets_retention.sql has a
    statement to be run on a schedule:
    DELETE FROM session_offsets WHERE last_seen < now() - INTERVAL '30 days'. *)
Definition retention : Z := 30 * Day.
Definition sweep (db : PgOffsets) : PgOffsets :=
  {| pg_rows := base.filter (λ kr, ¬ kr.2.(or_last_seen) < db.(pg_now) - retention) db.(pg_rows);
     pg_now := db.(pg_now) |}.
Definition elapsed (d : Z) (db : PgOffsets) : PgOffsets :=
  {| pg_rows := db.(pg_rows); pg_now := db.(pg_now) + d |}.

(** ** The row *)

Record Row := mkRow {
  row_TenantID : string;
  row_EventID : string;
  row_Name : string;
  row_TS : Time;
  row_TSClient : Time;
  row_TSReceived : Time;
  row_UserID : string;
  row_AnonymousID : string;
  row_DeviceID : string;
  row_SessionID : string;
  row_Seq : Z;
  row_AppVersion : string;
  row_SDKVersion : string;
  row_OS : string;
  row_OSVersion : string;
  row_Locale : string;
  row_TrustTier : Z;
  row_InstallID : string;
  row_Props : string
}.

(** The switch on the union arm; a value without an arm is left out. *)
Definition flatten (v : option Value) : option scalar :=
  match Value_GetKind v with
  | Some (Value_StringValue s) => Some (JString s)
  | Some (Value_NumberValue f) => Some (JNumber f)
  | Some (Value_BoolValue b) => Some (JBool b)
  | None => None
  end.

Definition propsJSON (props : gmap string (option Value)) : string :=
  if bool_decide (size props = 0%nat) then "{}"
  else
    let flat := omap flatten props in
    match json_object flat with
    | None => "{}"
    | Some b => b
    end.

(** [Row(e, c, offsetMS, receivedAt)]: the row, and whether its time was clamped. *)
Definition enrich_Row (e : option Event) (c : Claims) (offsetMS : Z) (receivedAt : Time) :
    Row * bool :=
  let '(ts, clamped) := Correct (Event_GetTsClient e) offsetMS receivedAt in
  let ctx := Event_GetContext e in
  ({| row_TenantID := c.(TenantID);
      row_EventID := Event_GetEventId e;
      row_Name := Event_GetName e;
      row_TS := ts;
      row_TSClient := FromUnixMilli (Event_GetTsClient e);
      row_TSReceived := receivedAt;
      row_UserID := Event_GetUserId e;
      row_AnonymousID := Event_GetAnonymousId e;
      row_DeviceID := Event_GetDeviceId e;
      row_SessionID := Event_GetSessionId e;
      row_Seq := Event_GetSeq e;
      row_AppVersion := Context_GetAppVersion ctx;
      row_SDKVersion := Context_GetSdkVersion ctx;
      row_OS := Context_GetOs ctx;
      row_OSVersion := Context_GetOsVersion ctx;
      row_Locale := Context_GetLocale ctx;
      row_TrustTier := c.(TrustTier);
      row_InstallID := c.(InstallID);
      row_Props := propsJSON (Event_GetProps e) |}, clamped).

(** ** Skew arithmetic *)

(** What [Correct] computes when the sum does not wrap. *)
Definition in_window (ts receivedAt : Time) : Prop :=
  receivedAt - MaxPastSkew ≤ ts ≤ receivedAt + MaxFutureSkew.

Lemma Correct_spec tsClientMS offsetMS receivedAt :
  let ts := FromUnixMilli (add64 tsClientMS offsetMS) in
  in_window ts receivedAt ∧ Correct tsClientMS offsetMS receivedAt = (ts, false) ∨
  ¬ in_window ts receivedAt ∧ Correct tsClientMS offsetMS receivedAt = (receivedAt, true).
Proof.
  unfold Correct, in_window. set (ts := FromUnixMilli _). simpl.
  pose proof (Sub_gt ts receivedAt MaxFutureSkew ltac:(done)) as H1.
  pose proof (Sub_gt receivedAt ts MaxPastSkew ltac:(done)) as H2.
  repeat case_bool_decide; [right|right|left]; split; (done || lia).
Qed.

Lemma valid_ts_range e :
  minTsClientMS ≤ Event_GetTsClient e ≤ maxTsClientMS →
  - 2208988800000 ≤ Event_GetTsClient e ≤ 10413791999999.
Proof.
  assert (minTsClientMS = -2208988800000 ∧ maxTsClientMS = 10413791999999) as [-> ->]
    by (by vm_compute).
  done.
Qed.

Lemma CandidateOffset_range sentAtMS receivedAt :
  - 86400000 ≤ CandidateOffset sentAtMS receivedAt ≤ 2592000000.
Proof.
  unfold CandidateOffset.
  change (Milliseconds MaxPastSkew) with 2592000000.
  change (Milliseconds MaxFutureSkew) with 86400000.
  repeat case_bool_decide; lia.
Qed.

(** No wrap-around on the timestamps validation lets through. *)
Lemma valid_sum_exact e offset :
  minTsClientMS ≤ Event_GetTsClient e ≤ maxTsClientMS → - 86400000 ≤ offset ≤ 2592000000 →
  add64 (Event_GetTsClient e) offset = Event_GetTsClient e + offset.
Proof.
  intros Hts%valid_ts_range Ho. apply wrap64_id. unfold in_int64, int64_min, int64_max. lia.
Qed.

(** ** Offset stores as first-writer-wins registers *)

Section stores.
Context {S : Type} `{O : OffsetStore S}.

(** The answers of a sequence of calls, oldest first. *)
Fixpoint offsets_run (calls : list (SessionKey * Z)) (s : S) : list Z * S :=
  match calls with
  | [] => ([], s)
  | (k, c) :: calls =>
      let '(o, s1) := GetOrSet k c s in
      let '(os, s2) := offsets_run calls s1 in
      (o :: os, s2)
  end.

Lemma GetOrSet_stored k c s : os_view (GetOrSet k c s).2 !! k = Some (GetOrSet k c s).1.
Proof. by rewrite os_update, lookup_insert_eq, os_answer. Qed.

Lemma GetOrSet_keeps k c s k' o :
  os_view s !! k' = Some o → os_view (GetOrSet k c s).2 !! k' = Some o.
Proof.
  intros Ho. rewrite os_update. destruct (decide (k' = k)) as [->|Hne].
  - by rewrite lookup_insert_eq, Ho.
  - by rewrite lookup_insert_ne.
Qed.

Lemma offsets_run_stable calls s k o os s' :
  os_view s !! k = Some o → offsets_run calls s = (os, s') →
  os_view s' !! k = Some o ∧
  ∀ i c, calls !! i = Some (k, c) → os !! i = Some o.
Proof.
  revert s os. induction calls as [|[k' c'] calls IH]; intros s os Ho Hrun; simpl in Hrun.
  { injection Hrun as <- <-. split; [done|]. intros i c Hi. by rewrite lookup_nil in Hi. }
  destruct (GetOrSet k' c' s) as [o' s1] eqn:Hg.
  destruct (offsets_run calls s1) as [os1 s2] eqn:Hr. injection Hrun as <- <-.
  assert (os_view s1 !! k = Some o) as Ho1.
  { pose proof (GetOrSet_keeps k' c' s k o Ho) as H. by rewrite Hg in H. }
  destruct (IH _ _ Ho1 Hr) as [Hs2 Hall]. split; [done|].
  intros [|i] c Hi; simpl in *; [|by eapply Hall].
  injection Hi as -> ->. pose proof (os_answer k c s) as Ha. rewrite Hg, Ho in Ha.
  simpl in Ha. by rewrite Ha.
Qed.

(** While nothing is deleted a session has one clock offset: every call for a session
    that has an offset is answered with it, a fresh session gets the candidate of its
    first caller, and calls for other sessions do not matter.  Proved for the interface,
    so for both stores; the in-memory store never deletes. *)
Theorem calls_agree_on_the_offset calls s os s' i c k :
  offsets_run calls s = (os, s') →
  calls !! i = Some (k, c) → (∀ j c', (j < i)%nat → calls !! j ≠ Some (k, c')) →
  let o := default c (os_view s !! k) in
  ∀ j c', calls !! j = Some (k, c') → os !! j = Some o.
Proof.
  revert s os i. induction calls as [|[k0 c0] calls IH]; intros s os i Hrun Hi Hfirst o j c' Hj.
  { by rewrite lookup_nil in Hi. }
  simpl in Hrun. destruct (GetOrSet k0 c0 s) as [o0 s1] eqn:Hg.
  destruct (offsets_run calls s1) as [os1 s2] eqn:Hr. injection Hrun as <- <-.
  destruct i as [|i]; simpl in Hi.
  - injection Hi as -> ->.
    pose proof (os_answer k c s) as Ha. pose proof (GetOrSet_stored k c s) as Hs.
    rewrite Hg in Ha, Hs. simpl in Ha, Hs. fold o in Ha. subst o0.
    destruct j as [|j]; simpl in Hj |- *; [done|].
    by eapply (offsets_run_stable calls s1 k o).
  - assert (k0 ≠ k) as Hne by (intros ->; by apply (Hfirst 0%nat c0); [lia|]).
    destruct j as [|j]; simpl in Hj |- *; [by simplify_eq|].
    assert (o = default c (os_view s1 !! k)) as ->.
    { unfold o. pose proof (os_update k0 c0 s) as Hu. rewrite Hg in Hu. simpl in Hu.
      by rewrite Hu, lookup_insert_ne. }
    eapply (IH s1 os1 i); [done|done| |done].
    intros j' c'' Hj'. apply (Hfirst (Datatypes.S j') c''). lia.
Qed.
End stores.

(** ** The table of offsets over time *)

Inductive OffsetOp := OCall (k : SessionKey) (candidate : Z) | OSweep | OWait (d : Z).

(** What happens to the table, and the answers of the calls. *)
Fixpoint offsets_history (ops : list OffsetOp) (db : PgOffsets) : list (option Z) * PgOffsets :=
  match ops with
  | [] => ([], db)
  | op :: ops =>
      let '(a, db1) := match op with
        | OCall k c => let '(o, db1) := Postgres_GetOrSet k c db in (Some o, db1)
        | OSweep => (None, sweep db)
        | OWait d => (None, elapsed d db)
        end in
      let '(l, db2) := offsets_history ops db1 in
      (a :: l, db2)
  end.

(** How long [k] has not been called for, if it had not for [q] before. *)
Fixpoint quiet_for (k : SessionKey) (q : Z) (ops : list OffsetOp) : Z :=
  match ops with
  | [] => q
  | OCall k' _ :: ops => quiet_for k (if bool_decide (k' = k) then 0 else q) ops
  | OSweep :: ops => quiet_for k q ops
  | OWait d :: ops => quiet_for k (q + d) ops
  end.

(** [k] has the offset [o] and was last seen [q] ago. *)
Definition seen_ago (k : SessionKey) (o q : Z) (db : PgOffsets) : Prop :=
  db.(pg_rows) !! k = Some {| or_offset_ms := o; or_last_seen := db.(pg_now) - q |}.

Lemma sweep_lookup db k :
  (sweep db).(pg_rows) !! k =
    match db.(pg_rows) !! k with
    | Some row => if bool_decide (row.(or_last_seen) < db.(pg_now) - retention) then None else Some row
    | None => None
    end.
Proof.
  simpl. rewrite map_lookup_filter. destruct (pg_rows db !! k) as [row|]; [simpl|done].
  by case_guard; case_bool_decide.
Qed.
Lemma sweep_seen_ago k o q db :
  seen_ago k o q db → (sweep db).(pg_rows) !! k = if bool_decide (retention < q) then None else db.(pg_rows) !! k.
Proof.
  intros Hk. rewrite sweep_lookup, Hk. simpl. repeat case_bool_decide; (done || lia).
Qed.

Lemma GetOrSet_seen_ago k c db : seen_ago k (Postgres_GetOrSet k c db).1 0 (Postgres_GetOrSet k c db).2.
Proof. unfold seen_ago. simpl. by rewrite lookup_insert_eq, Z.sub_0_r. Qed.
Lemma history_kept k o ops : ∀ q db,
  seen_ago k o q db →
  (∀ mid rest, ops = mid ++ OSweep :: rest → quiet_for k q mid ≤ retention) →
  ∀ j c, ops !! j = Some (OCall k c) → (offsets_history ops db).1 !! j = Some (Some o).
Proof.
  induction ops as [|op ops IH]; intros q db Hk Hsweeps j c Hj; [by rewrite lookup_nil in Hj|].
  assert (∀ a db1 q', seen_ago k o q' db1 →
    (∀ mid rest, ops = mid ++ OSweep :: rest → quiet_for k q' mid = quiet_for k q (op :: mid)) →
    (j = 0%nat → a = Some o) →
    (let '(l, db2) := offsets_history ops db1 in (a :: l, db2)).1 !! j = Some (Some o)) as Hnext.
  { intros a db1 q' Hk' Hq Ha. specialize (IH q' db1 Hk').
    destruct (offsets_history ops db1) as [l db2]. destruct j as [|j]; simpl in *; [by rewrite Ha|].
    apply (IH) with c; [|done]. intros mid rest Hm. rewrite (Hq _ _ Hm). apply (Hsweeps (op :: mid) rest).
    by rewrite Hm. }
  destruct op as [k' c'| |d]; simpl.
  - apply Hnext with (if bool_decide (k' = k) then 0 else q); [|done|].
    + case_bool_decide as Hkk; [|unfold seen_ago; simpl; by rewrite lookup_insert_ne].
      subst k'. unfold seen_ago in *. simpl. by rewrite lookup_insert_eq, Hk, Z.sub_0_r.
    + intros ->. simpl in Hj. injection Hj as -> ->. by rewrite Hk.
  - apply Hnext with q; [|done|by intros ->]. unfold seen_ago. rewrite (sweep_seen_ago _ _ _ _ Hk).
    by rewrite bool_decide_false by (pose proof (Hsweeps [] ops eq_refl); simpl in *; lia).
  - apply Hnext with (q + d); [|done|by intros ->]. unfold seen_ago, elapsed in *. simpl.
    rewrite Hk. do 2 f_equal. lia.
Qed.

Lemma history_quiet k ops : ∀ q db,
  (db.(pg_rows) !! k = None ∨ ∃ o, seen_ago k o q db) →
  let db' := (offsets_history ops db).2 in
  db'.(pg_rows) !! k = None ∨ ∃ o, seen_ago k o (quiet_for k q ops) db'.
Proof.
  induction ops as [|op ops IH]; intros q db Hk; [done|].
  assert (∀ a db1 q', (db1.(pg_rows) !! k = None ∨ ∃ o, seen_ago k o q' db1) →
    quiet_for k q (op :: ops) = quiet_for k q' ops →
    let db' := (let '(l, db2) := offsets_history ops db1 in (a :: l, db2)).2 in
    db'.(pg_rows) !! k = None ∨ ∃ o, seen_ago k o (quiet_for k q (op :: ops)) db') as Hnext.
  { intros a db1 q' Hk' ->. specialize (IH q' db1 Hk'). by destruct (offsets_history ops db1). }
  destruct op as [k' c'| |d]; simpl.
  - eapply Hnext; [|reflexivity]. case_bool_decide as Hkk.
    + subst k'. right. eexists. apply GetOrSet_seen_ago.
    + unfold seen_ago in *. simpl. by rewrite lookup_insert_ne.
  - eapply Hnext; [|reflexivity]. destruct Hk as [Hk|[o Hk]].
    + left. by rewrite sweep_lookup, Hk.
    + unfold seen_ago. setoid_rewrite (sweep_seen_ago _ _ _ _ Hk). case_bool_decide; [by left|]. right. by exists o.
  - eapply Hnext; [|reflexivity]. destruct Hk as [Hk|[o Hk]]; [by left|right]. exists o.
    unfold seen_ago, elapsed in *. simpl. rewrite Hk. do 2 f_equal. lia.
Qed.

Lemma history_app ops ops' db :
  (offsets_history (ops ++ ops') db).2 = (offsets_history ops' (offsets_history ops db).2).2.
Proof.
  revert db. induction ops as [|op ops IH]; intros db; [done|]. simpl.
  destruct op as [k c| |d]; simpl;
    [set (db1 := Build_PgOffsets _ _)|set (db1 := sweep db)|set (db1 := elapsed d db)];
    specialize (IH db1); destruct (offsets_history (ops ++ ops') db1), (offsets_history ops db1); exact IH.
Qed.

(** C19: the life of a session's clock offset in Postgres, from a call for it on: the
    call is answered the stored offset, or its own candidate if there is none.  As long
    as no sweep runs while the session has been quiet for more than 30 days, every later
    call for it is answered the same, whatever other sessions do; and a sweep that does
    forgets the offset, so that the next call is a first contact again. *)
Theorem session_offset_lifetime db k c ops :
  let o := (Postgres_GetOrSet k c db).1 in
  let db1 := (Postgres_GetOrSet k c db).2 in
  o = default c (or_offset_ms <$> db.(pg_rows) !! k) ∧
  ((∀ mid rest, ops = mid ++ OSweep :: rest → quiet_for k 0 mid ≤ 30 * Day) →
    ∀ j c', ops !! j = Some (OCall k c') → (offsets_history ops db1).1 !! j = Some (Some o)) ∧
  (∀ mid rest, ops = mid ++ OSweep :: rest → 30 * Day < quiet_for k 0 mid →
    (offsets_history (mid ++ [OSweep]) db1).2.(pg_rows) !! k = None).
Proof.
  intros o db1. pose proof (GetOrSet_seen_ago k c db) as Hk. split_and!.
  - unfold o. simpl. by destruct (pg_rows db !! k).
  - by apply history_kept.
  - intros mid rest _ Hq. rewrite history_app. simpl.
    destruct (history_quiet k mid 0 db1 ltac:(right; by eexists)) as [Hn|[o' Ho]].
    + change (pg_rows (sweep (offsets_history mid db1).2) !! k = None). by rewrite sweep_lookup, Hn.
    + change (pg_rows (sweep (offsets_history mid db1).2) !! k = None).
      rewrite (sweep_seen_ago _ _ _ _ Ho). by rewrite bool_decide_true.
Qed.

(** What happens to the table between two calls of a client. *)
Inductive aged_step : relation PgOffsets :=
| aged_wait d db : 0 ≤ d → aged_step db (elapsed d db)
| aged_sweep db : aged_step db (sweep db).
Definition aged : relation PgOffsets := rtc aged_step.

(** A session that was seen less than 30 days ago is still there. *)
Lemma aged_keeps db db' :
  aged db db' → db.(pg_now) ≤ db'.(pg_now) ∧
  ∀ k row, db.(pg_rows) !! k = Some row → db'.(pg_now) ≤ row.(or_last_seen) + retention →
    db'.(pg_rows) !! k = Some row.
Proof.
  induction 1 as [db|db db1 db' Hstep _ [Hle IH]]; [done|].
  destruct Hstep as [d db Hd|db]; simpl in Hle; (split; [lia|]); intros k row Hk Hnow; apply IH; try done.
  rewrite sweep_lookup, Hk. by rewrite bool_decide_false by lia.
Qed.

(** Since [since], [k] has been called for and answered [o]: the table has the offset,
    unless more than 30 days have passed. *)
Definition remembers (since : Time) (k : SessionKey) (o : Z) (db : PgOffsets) : Prop :=
  since ≤ db.(pg_now) ∧
  (since + retention < db.(pg_now) ∨
   ∃ row, db.(pg_rows) !! k = Some row ∧ row.(or_offset_ms) = o ∧ since ≤ row.(or_last_seen)).

Lemma remembers_aged since k o db db' : remembers since k o db → aged db db' → remembers since k o db'.
Proof.
  intros [Hs H] [Hle Hkeep]%aged_keeps. split; [lia|]. destruct H as [?|(row & Hk & Ho & Hl)]; [left; lia|].
  destruct (decide (since + retention < db'.(pg_now))); [by left|right].
  exists row. split_and!; [apply Hkeep; [done|lia]|done..].
Qed.
Lemma remembers_GetOrSet since k o k' c db :
  remembers since k o db → remembers since k o (Postgres_GetOrSet k' c db).2.
Proof.
  intros [Hs H]. split; [done|]. destruct H as [?|(row & Hk & Ho & Hl)]; [by left|right].
  destruct (decide (k' = k)) as [->|Hne]; simpl.
  - rewrite lookup_insert_eq, Hk. by eexists.
  - rewrite lookup_insert_ne by done. by exists row.
Qed.
Lemma remembers_call since k c db :
  since ≤ db.(pg_now) → remembers since k (Postgres_GetOrSet k c db).1 (Postgres_GetOrSet k c db).2.
Proof. intros Hs. split; [done|]. right. simpl. rewrite lookup_insert_eq. by eexists. Qed.
Lemma remembers_view since k o db :
  remembers since k o db → db.(pg_now) ≤ since + retention → os_view db !! k = Some o.
Proof.
  intros [_ [?|(row & Hk & Ho & _)]] ?; [lia|]. change (os_view db) with (or_offset_ms <$> db.(pg_rows)).
  by rewrite lookup_fmap, Hk, <-Ho.
Qed.


(** ** The stored row *)

(** ORDER BY (tenant_id, name, ts, event_id) of the events table, its DateTime64(3)
    column in milliseconds, and the date the partition is derived from. *)
Definition sort_key (r : Row) : string * string * Z * string :=
  (r.(row_TenantID), r.(row_Name), UnixMilli r.(row_TS), r.(row_EventID)).
Definition event_date (r : Row) : Z := unix_day r.(row_TS).

Lemma enrich_Row_clamped e c offset receivedAt r clamped :
  enrich_Row e c offset receivedAt = (r, clamped) →
  r.(row_TenantID) = c.(TenantID) ∧ r.(row_Name) = Event_GetName e ∧
  r.(row_EventID) = Event_GetEventId e ∧
  (r.(row_TS), clamped) = Correct (Event_GetTsClient e) offset receivedAt.
Proof.
  unfold enrich_Row. destruct (Correct _ _ _) as [ts cl]. by intros [= <- <-].
Qed.

Lemma flatten_storable v : finite_scalar v → ∃ s, flatten v = Some s ∧ is_Some (json_scalar s).
Proof.
  unfold finite_scalar, flatten. intros Hv.
  destruct (Value_GetKind v) as [[s|f|b]|]; [| | |done]; (eexists; split; [done|]);
    apply json_scalar_some; try done.
  intros f' [= <-] [->|[s ->]]%json_float_None; by destruct Hv.
Qed.

Lemma elem_of_dom_keys {A} (m : gmap string A) k :
  k ∈ dom m ↔ k ∈ (map_to_list m).*1.
Proof.
  rewrite elem_of_dom, list_elem_of_fmap. split.
  - intros [v Hv]. exists (k, v). split; [done|]. by apply elem_of_map_to_list.
  - intros ([k' v] & -> & Hin). apply elem_of_map_to_list in Hin. eauto.
Qed.

Lemma propsJSON_storable props :
  map_Forall prop_ok props → props ≠ ∅ →
  ∃ text, json_object (omap flatten props) = Some text ∧ propsJSON props = text ∧
    dom (omap flatten props) = dom props.
Proof.
  intros Hok Hne. unfold propsJSON. rewrite bool_decide_false by by rewrite map_size_empty_iff.
  destruct (json_object_some (omap flatten props)) as [text Htext].
  { intros k s Hs. apply lookup_omap_Some in Hs as (v & Hf & Hv).
    destruct (flatten_storable v) as (s' & Hs' & Ht); [by apply (Hok k)|]. by simplify_eq. }
  exists text. rewrite Htext. split_and!; [done|done|].
  apply set_eq. intros k. rewrite !elem_of_dom, lookup_omap. split.
  - intros [s Hs]. destruct (props !! k); [eauto|done].
  - intros [v Hv]. rewrite Hv. simpl. destruct (flatten_storable v) as (s & -> & _); [|eauto].
    by apply (Hok k).
Qed.

(** ** Properties *)

(** C26: the corrected time can never leave the window of 30 days before to 24 hours
    after receipt, for any client time and offset, so a broken clock cannot create
    far partitions; a validated time with a stored offset is corrected without
    overflow, and is replaced by the receipt time exactly when it falls outside. *)
Theorem Correct_bounds_partitions tsClientMS offsetMS receivedAt ts clamped :
  Correct tsClientMS offsetMS receivedAt = (ts, clamped) →
  receivedAt - 30 * Day ≤ ts ≤ receivedAt + Day ∧
  (minTsClientMS ≤ tsClientMS ≤ maxTsClientMS → - 86400000 ≤ offsetMS ≤ 2592000000 →
   let exact := (tsClientMS + offsetMS) * Millisecond in
   if clamped then ts = receivedAt ∧ ¬ receivedAt - 30 * Day ≤ exact ≤ receivedAt + Day
   else ts = exact).
Proof.
  assert (MaxPastSkew = 30 * Day ∧ MaxFutureSkew = Day) as [Hp Hf] by done.
  intros H. split.
  - destruct (Correct_spec tsClientMS offsetMS receivedAt) as [[Hw Hc]|[_ Hc]];
      rewrite Hc in H; injection H as <- <-; unfold in_window in *;
      unfold Day, Hour, Minute, Second in *; lia.
  - intros Hts Ho exact.
    assert (add64 tsClientMS offsetMS = tsClientMS + offsetMS) as Hsum.
    { assert (minTsClientMS = -2208988800000 ∧ maxTsClientMS = 10413791999999) as [Hmin Hmax]
        by (by vm_compute).
      apply wrap64_id. unfold in_int64, int64_min, int64_max. lia. }
    destruct (Correct_spec tsClientMS offsetMS receivedAt) as [[Hw Hc]|[Hw Hc]];
      rewrite Hc in H; injection H as <- <-; rewrite Hsum in *; [done|].
    split; [done|]. by rewrite <-Hp, <-Hf.
Qed.

(** A first-contact offset estimate is always within the skew window, and it is
    the exact distance between receipt and a plausible positive send time. *)
Theorem CandidateOffset_is_bounded sentAtMS receivedAt :
  - 86400000 ≤ CandidateOffset sentAtMS receivedAt ≤ 2592000000 ∧
  (0 < sentAtMS → in_int64 (UnixMilli receivedAt - sentAtMS) →
   - 86400000 ≤ UnixMilli receivedAt - sentAtMS ≤ 2592000000 →
   CandidateOffset sentAtMS receivedAt = UnixMilli receivedAt - sentAtMS).
Proof.
  split; [apply CandidateOffset_range|]. intros Hs H64 Hr.
  unfold CandidateOffset, sub64. rewrite wrap64_id by done.
  change (Milliseconds MaxPastSkew) with 2592000000.
  change (Milliseconds MaxFutureSkew) with 86400000.
  rewrite !bool_decide_false; lia.
Qed.

(** With the session's offset unchanged, a replay of an event writes the same sort
    key and the same partition date as the original, whenever it is received, as
    long as neither delivery was clamped. *)
Theorem replay_keeps_sort_key e c c' offset r1 r2 row1 row2 :
  c.(TenantID) = c'.(TenantID) →
  enrich_Row e c offset r1 = (row1, false) → enrich_Row e c' offset r2 = (row2, false) →
  sort_key row1 = sort_key row2 ∧ event_date row1 = event_date row2.
Proof.
  intros Ht (Ht1 & Hn1 & Hi1 & Hc1)%enrich_Row_clamped (Ht2 & Hn2 & Hi2 & Hc2)%enrich_Row_clamped.
  assert (row_TS row1 = row_TS row2) as Hts.
  { destruct (Correct_spec (Event_GetTsClient e) offset r1) as [[_ H1]|[_ H1]];
      destruct (Correct_spec (Event_GetTsClient e) offset r2) as [[_ H2]|[_ H2]];
      congruence. }
  unfold sort_key, event_date. by rewrite Ht1, Ht2, Hn1, Hn2, Hi1, Hi2, Hts, Ht.
Qed.

(** a clamped event is not replay-stable: its row is keyed by the receipt time, so
    two deliveries received in different milliseconds never share a sort key.  (ADR-0003
    asks for every ordering field to be a function of the event.) *)
Theorem clamped_replay_moves_row e c offset r1 r2 row1 row2 :
  enrich_Row e c offset r1 = (row1, true) → enrich_Row e c offset r2 = (row2, true) →
  UnixMilli r1 ≠ UnixMilli r2 →
  sort_key row1 ≠ sort_key row2 ∧ sort_key row1 = (c.(TenantID), Event_GetName e, UnixMilli r1, Event_GetEventId e).
Proof.
  intros (Ht1 & Hn1 & Hi1 & Hc1)%enrich_Row_clamped (Ht2 & Hn2 & Hi2 & Hc2)%enrich_Row_clamped Hr.
  assert (row_TS row1 = r1 ∧ row_TS row2 = r2) as [H1 H2].
  { destruct (Correct_spec (Event_GetTsClient e) offset r1) as [[_ H1]|[_ H1]];
      destruct (Correct_spec (Event_GetTsClient e) offset r2) as [[_ H2]|[_ H2]];
      split; congruence. }
  unfold sort_key. rewrite Ht1, Ht2, Hn1, Hn2, Hi1, Hi2, H1, H2. split; [congruence|done].
Qed.

(** The JSON text [t] of one property value. *)
Definition value_text (v : option Value) (t : string) : Prop :=
  match Value_GetKind v with
  | Some (Value_StringValue s) => t = json_string s
  | Some (Value_BoolValue b) => t = if b then "true" else "false"
  | Some (Value_NumberValue (S754_zero s)) => t = if s then "-0" else "0"
  | Some (Value_NumberValue (S754_finite s m e)) => shortest_text s m e t
  | _ => False
  end.

Lemma flatten_text v s t : flatten v = Some s → json_scalar s = Some t → value_text v t.
Proof.
  unfold flatten, value_text. intros Hf Ht.
  destruct (Value_GetKind v) as [[u|f|b]|]; [..|done]; injection Hf as <-; simpl in Ht;
    [by injection Ht as <-| |by injection Ht as <-].
  destruct f; [by injection Ht as <-|done|done|]. by apply json_float_shortest.
Qed.

(** C27: the stored properties lose nothing and wrap nothing: for a validated event the
    JSON fallback is unreachable, the text is one flat object with exactly the event's
    keys, in byte order, each with the text of its bare value; a number is written as
    the shortest decimal that reads back as the same float64. *)
Theorem props_are_stored_flat e :
  storable e → Event_GetProps e ≠ ∅ →
  ∃ entries : list (string * string),
    propsJSON (Event_GetProps e) = "{" +:+ Join (entry_text <$> entries) "," +:+ "}" ∧
    entries.*1 ≡ₚ (map_to_list (Event_GetProps e)).*1 ∧
    Sorted (λ a b : string * string, String.leb a.1 b.1 = true) entries ∧
    ∀ k t, (k, t) ∈ entries → ∃ v, Event_GetProps e !! k = Some v ∧ value_text v t.
Proof.
  intros Hst Hne.
  destruct (propsJSON_storable _ (st_props _ Hst) Hne) as (text & H1 & -> & Hdom).
  destruct (json_object_entries _ _ H1) as (entries & -> & Hperm & Hsort & Htexts).
  exists entries. split_and!; [done| |done|].
  - rewrite Hperm. apply NoDup_Permutation; [apply NoDup_fst_map_to_list..|].
    intros k. rewrite <-!elem_of_dom_keys. by rewrite Hdom.
  - intros k t Hin. destruct (Htexts k t Hin) as (s & Hs & Ht).
    apply lookup_omap_Some in Hs as (v & Hf & Hv). exists v.
    split; [done|]. by eapply flatten_text.
Qed.

(** ** Witnesses *)

Definition toy_session (s : string) : SessionKey :=
  {| sk_TenantID := "t1"; sk_DeviceID := "d1"; sk_SessionID := s |}.

(** Two sessions interleaved; the retry's other candidate is ignored. *)

Definition toy_received : Time := Date 2026 8 2 10 0 0 0.

Lemma Correct_bounds_partitions_witness :
  Correct 1800000000000 60000 toy_received = (toy_received, true) ∧
  toy_received - 30 * Day ≤ toy_received ≤ toy_received + Day.
Proof.
  assert (Correct 1800000000000 60000 toy_received = (toy_received, true)) as H by reflexivity.
  split; [exact H|].
  apply (Correct_bounds_partitions 1800000000000 60000 toy_received toy_received true H).
Defined.

(** A retry after 29 days finds its offset, one after 31 more days does not. *)
Lemma session_offset_lifetime_witness :
  let db := {| pg_rows := ∅; pg_now := 0 |} in
  let s1 := toy_session "s1" in
  let early := [OWait (29 * Day); OSweep; OCall (toy_session "s2") 7; OCall s1 9999] in
  let late := early ++ [OWait (31 * Day); OSweep; OCall s1 4444] in
  let db1 := (Postgres_GetOrSet s1 5000 db).2 in
  (offsets_history late db1).1 = [None; None; Some 7; Some 5000; None; None; Some 4444] ∧
  (∀ j c', early !! j = Some (OCall s1 c') → (offsets_history early db1).1 !! j = Some (Some 5000)) ∧
  (offsets_history (early ++ [OWait (31 * Day); OSweep]) db1).2.(pg_rows) !! s1 = None.
Proof.
  intros db s1 early late db1. split; [vm_compute; reflexivity|]. split.
  - apply (session_offset_lifetime db s1 5000 early).
    intros mid rest Heq. destruct mid as [|op [|op' [|op2 [|op3 mid]]]]; try discriminate Heq.
    + injection Heq as <- _. vm_compute. discriminate.
    + apply (f_equal length) in Heq. rewrite length_app in Heq. simpl in Heq. lia.
  - apply (session_offset_lifetime db s1 5000 late) with (mid := early ++ [OWait (31 * Day)]) (rest := [OCall s1 4444]);
      [reflexivity|vm_compute; reflexivity].
Defined.

Lemma CandidateOffset_is_bounded_witness :
  let sent := UnixMilli toy_received - 5000 in
  CandidateOffset sent toy_received = 5000.
Proof.
  intros sent. change 5000 with (UnixMilli toy_received - sent).
  apply (CandidateOffset_is_bounded sent toy_received); by vm_compute.
Defined.

(** A late but plausible event, and one from a clock a year ahead. *)
Definition toy_late : option Event := Some {|
  ev_EventId := toy_id; ev_Name := "checkout"; ev_TsClient := UnixMilli toy_received - 5000;
  ev_Seq := 1; ev_DeviceId := "d1"; ev_SessionId := "s1"; ev_AnonymousId := ""; ev_UserId := "";
  ev_Props := ∅; ev_Context := None |}.
Definition toy_writer : Claims :=
  {| TenantID := "t1"; InstallID := "i1"; Scope := ScopeWriteEvents; TrustTier := 1 |}.

Lemma replay_keeps_sort_key_witness :
  let row1 := (enrich_Row toy_late toy_writer 60000 toy_received).1 in
  let row2 := (enrich_Row toy_late toy_writer 60000 (toy_received + 15 * Hour)).1 in
  row1.(row_TSReceived) ≠ row2.(row_TSReceived) ∧
  sort_key row1 = sort_key row2 ∧ event_date row1 = event_date row2.
Proof.
  intros row1 row2. split; [by vm_compute|].
  apply (replay_keeps_sort_key toy_late toy_writer toy_writer 60000 toy_received
    (toy_received + 15 * Hour) row1 row2); reflexivity.
Defined.

Lemma toy_event_storable : storable (toy_event toy_id toy_props).
Proof. apply (validate_None (map_to_list toy_props)); reflexivity. Qed.

Lemma clamped_replay_moves_row_witness :
  let e := toy_event toy_id toy_props in
  let row1 := (enrich_Row e toy_writer 0 toy_received).1 in
  let row2 := (enrich_Row e toy_writer 0 (toy_received + 15 * Hour)).1 in
  storable e ∧
  sort_key row1 ≠ sort_key row2 ∧
  sort_key row1 = ("t1", "checkout", UnixMilli toy_received, toy_id) ∧
  event_date row1 ≠ event_date row2.
Proof.
  intros e row1 row2. split.
  { apply (validate_None (map_to_list toy_props)); reflexivity. }
  assert (sort_key row1 ≠ sort_key row2 ∧
    sort_key row1 = ("t1", "checkout", UnixMilli toy_received, toy_id)) as [H1 H2].
  { apply (clamped_replay_moves_row e toy_writer 0 toy_received (toy_received + 15 * Hour)
      row1 row2); [reflexivity|reflexivity|by vm_compute]. }
  split; [exact H1|]. split; [exact H2|]. by vm_compute.
Defined.

Lemma props_are_stored_flat_witness :
  let props := Event_GetProps (toy_event toy_id toy_props) in
  size props = 2%nat ∧
  ∃ entries : list (string * string),
    propsJSON props = "{" +:+ Join (entry_text <$> entries) "," +:+ "}" ∧
    entries.*1 ≡ₚ (map_to_list props).*1 ∧
    Sorted (λ a b : string * string, String.leb a.1 b.1 = true) entries ∧
    ∀ k t, (k, t) ∈ entries → ∃ v, props !! k = Some v ∧ value_text v t.
Proof.
  intros props. split; [reflexivity|].
  exact (props_are_stored_flat (toy_event toy_id toy_props) toy_event_storable
    (proj1 (bool_decide_eq_false (props = ∅)) eq_refl)).
Defined.
