(* ===== verification/Http.v ===== *)
(** * Package handler: request bodies and responses

    A body is the byte stream it delivers, ending in EOF or a read error.
    [readBody] composes the readers of the standard library as the code does;
    gzip decompression is an argument. *)
From S2P Require Import Prelude GoStrings Limits Json.
#[local] Open Scope Z_scope.

(** ** Readers *)

Inductive read_err := MaxBytesError | OtherErr.
Inductive ending := EOF | Fails (e : read_err).
Record Stream := { s_bytes : string; s_end : ending }.

Definition string_take (n : Z) (s : string) : string := of_bytes (take (Z.to_nat n) (bytes s)).

(** [http.MaxBytesReader(nil, body, n)] *)
Definition MaxBytesReader (n : Z) (s : Stream) : Stream :=
  if bool_decide (len s.(s_bytes) ≤ n) then s
  else {| s_bytes := string_take n s.(s_bytes); s_end := Fails MaxBytesError |}.

(** [io.LimitReader(r, n)]: EOF after [n] bytes, without asking [r] again. *)
Definition LimitReader (n : Z) (s : Stream) : Stream :=
  if bool_decide (len s.(s_bytes) < n) then s
  else {| s_bytes := string_take n s.(s_bytes); s_end := EOF |}.

(** [io.ReadAll(r)] *)
Definition ReadAll (s : Stream) : result read_err string :=
  match s.(s_end) with EOF => Ok s.(s_bytes) | Fails e => Err e end.

(** [gzip.NewReader(r)]: a header error, or the decompressed stream. *)
Class Gzip := gunzip : Stream → result read_err Stream.

Inductive body_err := errTooLarge | errUnreadable.

Record Request := {
  r_Authorization : string;
  r_ContentEncoding : string;
  r_Body : Stream
}.

(** [readBody(r)] *)
Definition readBody `{Gzip} (r : Request) : result body_err string :=
  let src := MaxBytesReader MaxBatchBytes r.(r_Body) in
  let read_from (src : Stream) :=
    match ReadAll src with
    | Err MaxBytesError => Err errTooLarge
    | Err OtherErr => Err errUnreadable
    | Ok b => if bool_decide (len b > MaxBatchBytes) then Err errTooLarge else Ok b
    end in
  if bool_decide (r.(r_ContentEncoding) = "gzip") then
    match gunzip src with
    | Err _ => Err errUnreadable
    | Ok zr => read_from (LimitReader (MaxBatchBytes + 1) zr)
    end
  else read_from src.

(** ** Responses *)

Record Response := {
  w_status : Z;
  w_headers : gmap string string;
  w_body : string
}.

Definition StatusOK : Z := 200.
Definition StatusBadRequest : Z := 400.
Definition StatusUnauthorized : Z := 401.
Definition StatusRequestEntityTooLarge : Z := 413.
Definition StatusTooManyRequests : Z := 429.
Definition StatusInternalServerError : Z := 500.
Definition StatusServiceUnavailable : Z := 503.

(** [json.NewEncoder(w).Encode(map[string]string{k: v})] *)
Definition encode_one (k v : string) : string :=
  default "" (json_object {[ k := JString v ]}) +:+ of_bytes [asciiZ 10].

(** [httpError(w, code, msg)] on a writer whose headers so far are [h]. *)
Definition httpError (h : gmap string string) (code : Z) (msg : string) : Response :=
  {| w_status := code;
     w_headers := <["Content-Type" := "application/json"]> h;
     w_body := encode_one "error" msg |}.

(** [http.Error(w, msg, code)] *)
Definition http_Error (h : gmap string string) (msg : string) (code : Z) : Response :=
  {| w_status := code;
     w_headers := <["Content-Type" := "text/plain; charset=utf-8"]>
       (<["X-Content-Type-Options" := "nosniff"]> (delete "Content-Length" h));
     w_body := msg +:+ of_bytes [asciiZ 10] |}.

(** ** Facts *)

Lemma bytes_length s : length (bytes s) = String.length s.
Proof. induction s; simpl; congruence. Qed.

Lemma len_string_take n s : 0 ≤ n → len (string_take n s) = n `min` len s.
Proof.
  intros Hn. unfold string_take, len. rewrite <-!bytes_length, bytes_of_bytes, length_take. lia.
Qed.

Lemma MaxBatchBytes_eq : MaxBatchBytes = 1048576.
Proof. done. Qed.

(** What [readBody] accepts, and its two kinds of refusal. *)
Section readBody.
Context `{Gzip}.

Lemma readBody_plain r :
  r.(r_ContentEncoding) ≠ "gzip" →
  readBody r =
    if bool_decide (len r.(r_Body).(s_bytes) > MaxBatchBytes) then Err errTooLarge
    else match r.(r_Body).(s_end) with
         | EOF => Ok r.(r_Body).(s_bytes)
         | Fails MaxBytesError => Err errTooLarge
         | Fails OtherErr => Err errUnreadable
         end.
Proof.
  intros Hr. unfold readBody, MaxBytesReader, ReadAll. rewrite bool_decide_false by done.
  case_bool_decide as Hl; [rewrite bool_decide_false by lia|rewrite bool_decide_true by lia; done].
  destruct (s_end (r_Body r)) as [|[]]; [|done..]. rewrite bool_decide_false; [done|lia].
Qed.

Lemma readBody_gzip r zr :
  r.(r_ContentEncoding) = "gzip" → gunzip (MaxBytesReader MaxBatchBytes r.(r_Body)) = Ok zr →
  readBody r =
    if bool_decide (len zr.(s_bytes) > MaxBatchBytes) then Err errTooLarge
    else match zr.(s_end) with
         | EOF => Ok zr.(s_bytes)
         | Fails MaxBytesError => Err errTooLarge
         | Fails OtherErr => Err errUnreadable
         end.
Proof.
  intros Hr Hz. unfold readBody, LimitReader, ReadAll. rewrite bool_decide_true, Hz by done.
  case_bool_decide as Hl.
  - rewrite (bool_decide_false (len (s_bytes zr) > MaxBatchBytes)) by lia.
    destruct (s_end zr) as [|[]]; [|done..]. rewrite bool_decide_false; [done|lia].
  - rewrite (bool_decide_true (len (s_bytes zr) > MaxBatchBytes)) by lia. simpl.
    rewrite bool_decide_true; [done|]. rewrite len_string_take by done. lia.
Qed.

(** An accepted body is at most the limit long. *)
Lemma readBody_bound r b : readBody r = Ok b → len b ≤ MaxBatchBytes.
Proof.
  intros Hr. destruct (decide (r_ContentEncoding r = "gzip")) as [Hg|Hg].
  - destruct (gunzip (MaxBytesReader MaxBatchBytes (r_Body r))) as [zr|e] eqn:Hz.
    + rewrite (readBody_gzip _ _ Hg Hz) in Hr.
      case_bool_decide; [done|]. destruct (s_end zr) as [|[]]; [|done..].
      injection Hr as <-. lia.
    + unfold readBody in Hr. by rewrite bool_decide_true, Hz in Hr.
  - rewrite (readBody_plain _ Hg) in Hr. case_bool_decide; [done|].
    destruct (s_end (r_Body r)) as [|[]]; [|done..]. injection Hr as <-. lia.
Qed.
End readBody.
