(* ===== verification/Batch.v ===== *)
(** * Package handler, batch.go: POST /v1/batch

    [NewBatch] is the whole handler as a program over its dependencies' calls.
    Authentication, limits, quota, offsets, storage and the two counters are
    effects; validation, enrichment and the response are computed. *)
From S2P Require Import Prelude GoStrings GoTime Prog Limits Proto Validate Jwx Json.
From S2P Require Import Token Verify Legacy Redis Quota Enrich Http.
#[local] Open Scope Z_scope.

(** google.golang.org/protobuf/encoding/protojson on the two batch messages. *)
Class BatchCodec := {
  Unmarshal_BatchRequest : string → option BatchRequest;
  Marshal_BatchResponse : BatchResponse → option string
}.

(** The calls a request makes. *)
Inductive IngestE `{J : JWX} : Type → Type :=
| INow : IngestE Time
| IKey {X} (e : KeyE X) : IngestE X
| ILegacy {X} (e : LegacyE X) : IngestE X
| IOnLegacyUse (tenantID sdkVersion : string) : IngestE ()
| ILimitsFor (tenantID : string) (tier : Z) : IngestE (result () Quota)
| IQuota {X} (e : QuotaE X) : IngestE X
| IGetOrSet (k : SessionKey) (candidate : Z) : IngestE (result () Z)
| IOnClockSkew (tenantID deviceID : string) : IngestE ()
| IInsert (rows : list Row) : IngestE (result () ()).

#[export] Instance sub_key `{J : JWX} : SubEffect KeyE IngestE := λ X e, IKey e.
#[export] Instance sub_legacy `{J : JWX} : SubEffect LegacyE IngestE := λ X e, ILegacy e.
#[export] Instance sub_quota `{J : JWX} : SubEffect QuotaE IngestE := λ X e, IQuota e.

(** The configuration of the handler: the verifier, and whether the two optional
    counters are set. *)
Record Deps `{J : JWX} := {
  d_Verifier : Verifier;
  d_OnClockSkew : bool;
  d_OnLegacyUse : bool
}.

Section batch.
Context `{J : JWX} `{U : UUIDLib} `{Z0 : Gzip} `{C : BatchCodec}.

(** The order in which the property map of the [i]-th event is visited. *)
Context (order : nat → gmap string (option Value) → list (string * option Value)).

(** The body as a batch, or the response that refuses it. *)
Definition decode_batch (r : Request) : result Response BatchRequest :=
  match readBody r with
  | Err errTooLarge => Err (httpError ∅ StatusRequestEntityTooLarge "batch too large")
  | Err errUnreadable => Err (httpError ∅ StatusBadRequest "unreadable body")
  | Ok body =>
      match Unmarshal_BatchRequest body with
      | None => Err (httpError ∅ StatusBadRequest "malformed batch envelope")
      | Some req =>
          if bool_decide (Z.of_nat (length req.(Events)) > MaxEventsPerBatch)
          then Err (httpError ∅ StatusRequestEntityTooLarge "too many events")
          else Ok req
      end
  end.

(** The loop over validate.Event: the rejects and the valid events, in order. *)
Fixpoint validate_all (i : nat) (events : list (option Event)) :
    list Reject * list (option Event) :=
  match events with
  | [] => ([], [])
  | e :: events =>
      let '(rejected, valid) := validate_all (S i) events in
      match validate_Event (order i (Event_GetProps e)) e with
      | Some rej => (rej :: rejected, valid)
      | None => (rejected, e :: valid)
      end
  end.

Definition session_key (claims : Claims) (e : option Event) : SessionKey :=
  {| sk_TenantID := claims.(TenantID); sk_DeviceID := Event_GetDeviceId e;
     sk_SessionID := Event_GetSessionId e |}.

(** [if clamped && d.OnClockSkew != nil { d.OnClockSkew(...) }] *)
Definition on_clock_skew (d : Deps) (claims : Claims) (e : option Event) (clamped : bool) :
    Prog IngestE () :=
  if clamped && d.(d_OnClockSkew)
  then Call (IOnClockSkew claims.(TenantID) (Event_GetDeviceId e)) Ret
  else Ret ().

(** The memo lookup: the session's offset and the memo, asking the store on a miss. *)
Definition memo_offset (claims : Claims) (sentAt : Z) (receivedAt : Time)
    (offsets : gmap SessionKey Z) (e : option Event) :
    Prog IngestE (result () (Z * gmap SessionKey Z)) :=
  let key := session_key claims e in
  match offsets !! key with
  | Some offset => Ret (Ok (offset, offsets))
  | None =>
      offset ← Call (IGetOrSet key (CandidateOffset sentAt receivedAt)) Ret;
      match offset with
      | Err e => Ret (Err e)
      | Ok offset => Ret (Ok (offset, <[key := offset]> offsets))
      end
  end.

(** The loop over the valid events: the rows and the accepted ids, or [None] when
    the offset store fails. *)
Fixpoint enrich_all (d : Deps) (claims : Claims) (sentAt : Z) (receivedAt : Time)
    (offsets : gmap SessionKey Z) (valid : list (option Event)) :
    Prog IngestE (option (list Row * list string)) :=
  match valid with
  | [] => Ret (Some ([], []))
  | e :: valid =>
      memo ← memo_offset claims sentAt receivedAt offsets e;
      match memo with
      | Err _ => Ret None
      | Ok (offset, offsets) =>
          let '(row, clamped) := enrich_Row e claims offset receivedAt in
          _ ← on_clock_skew d claims e clamped;
          rest ← enrich_all d claims sentAt receivedAt offsets valid;
          match rest with
          | None => Ret None
          | Some (rows, accepted) => Ret (Some (row :: rows, Event_GetEventId e :: accepted))
          end
      end
  end.

(** [if isLegacy && d.OnLegacyUse != nil { ... }] *)
Definition sdk_version (req : BatchRequest) : string :=
  match req.(Events) with [] => "" | e :: _ => Context_GetSdkVersion (Event_GetContext e) end.
Definition on_legacy_use (d : Deps) (isLegacy : bool) (claims : Claims) (req : BatchRequest) :
    Prog IngestE () :=
  if isLegacy && d.(d_OnLegacyUse)
  then Call (IOnLegacyUse claims.(TenantID) (sdk_version req)) Ret
  else Ret ().

Definition chargeUnits (valid : list (option Event)) : Z :=
  if bool_decide (length valid = 0%nat) then 1 else Z.of_nat (length valid).

Definition effective_limits (isLegacy : bool) (lim : Quota) : Quota :=
  if isLegacy then with_RPS lim lim.(LegacyRPS) else lim.

(** The refusal of a batch over budget. *)
Definition too_many (dec : Decision) : Response :=
  httpError {[ "Retry-After" := pretty (SecondsInt dec.(RetryAfter) + 1) ]}
    StatusTooManyRequests dec.(Reason).

Definition respond (resp : BatchResponse) : Response :=
  let h := {[ "Content-Type" := "application/json" ]} in
  match Marshal_BatchResponse resp with
  | None => httpError h StatusInternalServerError "encode"
  | Some out => {| w_status := StatusOK; w_headers := h; w_body := out |}
  end.

(** The handler from the offsets on, for a batch within budget. *)
Definition store (d : Deps) (claims : Claims) (req : BatchRequest) (receivedAt : Time)
    (rejected : list Reject) (valid : list (option Event)) : Prog IngestE Response :=
  rows ← enrich_all d claims req.(SentAt) receivedAt ∅ valid;
  match rows with
  | None => Ret (httpError ∅ StatusServiceUnavailable "offset store unavailable")
  | Some (rows, accepted) =>
      ins ← Call (IInsert rows) Ret;
      match ins with
      | Err _ => Ret (httpError ∅ StatusServiceUnavailable "storage unavailable")
      | Ok _ =>
          Ret (respond {| ReceivedAt := UnixMilli receivedAt; Accepted := accepted;
                          Rejected := rejected |})
      end
  end.

(** The handler for an authenticated, well-formed batch. *)
Definition admission (d : Deps) (claims : Claims) (isLegacy : bool) (req : BatchRequest)
    (receivedAt : Time) : Prog IngestE Response :=
  _ ← on_legacy_use d isLegacy claims req;
  let '(rejected, valid) := validate_all 0 req.(Events) in
  lim ← Call (ILimitsFor claims.(TenantID) claims.(TrustTier)) Ret;
  match lim with
  | Err _ => Ret (httpError ∅ StatusServiceUnavailable "limits unavailable")
  | Ok lim =>
      let lim := effective_limits isLegacy lim in
      dec ← Allow claims lim (chargeUnits valid) receivedAt;
      match dec with
      | Err _ => Ret (httpError ∅ StatusServiceUnavailable "quota unavailable")
      | Ok dec =>
          if negb dec.(Allowed) then Ret (too_many dec)
          else store d claims req receivedAt rejected valid
      end
  end.

(** [NewBatch(d)] serving [r] *)
Definition NewBatch (d : Deps) (r : Request) : Prog IngestE Response :=
  receivedAt ← Call INow Ret;
  auth ← VerifyOrLegacy d.(d_Verifier) r.(r_Authorization) receivedAt;
  let '(claims, isLegacy) := auth in
  match claims with
  | Err _ => Ret (httpError ∅ StatusUnauthorized "invalid token")
  | Ok claims =>
      match decode_batch r with
      | Err resp => Ret resp
      | Ok req => admission d claims isLegacy req receivedAt
      end
  end.
End batch.
