(* ===== verification/BatchFacts.v ===== *)
(** * What the batch handler does, on every branch

    The runs of [NewBatch] in an arbitrary environment, as inductive outcomes; the
    facts about them; and the properties of the endpoint. *)
From Stdlib Require Import Sorted.
From S2P Require Import Prelude GoStrings GoTime Prog Limits Proto Validate Jwx Json.
From S2P Require Import Token Verify Legacy Redis Quota Enrich Http Batch.
#[local] Open Scope Z_scope.

(** ** Reading a trace *)

Section reading.
Context `{J : JWX}.

Definition as_offset (ev : event IngestE) : option (SessionKey * Z * result () Z) :=
  match ev_call ev in IngestE X return X → option (SessionKey * Z * result () Z) with
  | IGetOrSet k c => λ a, Some (k, c, a)
  | _ => λ _, None
  end (ev_answer ev).
Definition as_insert (ev : event IngestE) : option (list Row * result () ()) :=
  match ev_call ev in IngestE X return X → option (list Row * result () ()) with
  | IInsert rows => λ a, Some (rows, a)
  | _ => λ _, None
  end (ev_answer ev).

(** A quota call: its keys, units, limits and answer. *)
Record QuotaCall := {
  qc_rate_key : string; qc_day_key : string; qc_n : Z; qc_rps : Z; qc_daily : Z;
  qc_answer : option (Z * string)
}.
Definition as_quota_allow {X} (e : QuotaE X) : X → option QuotaCall :=
  match e in QuotaE X return X → option QuotaCall with
  | EAllow rk dk n rps daily _ _ => λ a, Some {| qc_rate_key := rk; qc_day_key := dk; qc_n := n;
      qc_rps := rps; qc_daily := daily; qc_answer := a |}
  | EClientRate _ _ => λ _, None
  end.
Definition as_quota (ev : event IngestE) : option QuotaCall :=
  match ev_call ev in IngestE X return X → option QuotaCall with
  | IQuota e => as_quota_allow e
  | _ => λ _, None
  end (ev_answer ev).
Definition as_skew (ev : event IngestE) : option (string * string) :=
  match ev_call ev with IOnClockSkew t d => Some (t, d) | _ => None end.

Definition offset_calls (tr : list (event IngestE)) := omap as_offset tr.
Definition inserts (tr : list (event IngestE)) := omap as_insert tr.
Definition quota_calls (tr : list (event IngestE)) := omap as_quota tr.
Definition skew_calls (tr : list (event IngestE)) := omap as_skew tr.

(** A call of the authentication. *)
Definition is_auth (ev : event IngestE) : Prop :=
  match ev_call ev with IKey _ | ILegacy _ => True | _ => False end.
(** A call of the enrichment loop. *)
Definition is_enrich (ev : event IngestE) : Prop :=
  match ev_call ev with IGetOrSet _ _ | IOnClockSkew _ _ => True | _ => False end.

Lemma omap_none {A B} (f : A → option B) (l : list A) : (∀ x, x ∈ l → f x = None) → omap f l = [].
Proof.
  induction l as [|x l IH]; intros H; [done|]. simpl. rewrite (H x) by left.
  apply IH. intros y Hy. apply H. by right.
Qed.

Lemma auth_calls_silent tr :
  Forall is_auth tr →
  offset_calls tr = [] ∧ inserts tr = [] ∧ quota_calls tr = [] ∧ skew_calls tr = [].
Proof.
  rewrite Forall_forall. intros H.
  split_and!; apply omap_none; intros [X e a] Hin; specialize (H _ Hin);
    unfold is_auth in H; simpl in *; by destruct e.
Qed.
Lemma enrich_calls_silent tr : Forall is_enrich tr → inserts tr = [] ∧ quota_calls tr = [].
Proof.
  rewrite Forall_forall. intros H.
  split; apply omap_none; intros [X e a] Hin; specialize (H _ Hin);
    unfold is_enrich in H; simpl in *; by destruct e.
Qed.

(** Authentication only makes authentication calls. *)
Lemma auth_exec_calls v bearer now tr res :
  exec any_env (VerifyOrLegacy (F:=IngestE) v bearer now) tt tr res tt → Forall is_auth tr.
Proof.
  intros H%VerifyOrLegacy_exec. destruct H as [tr c _ Hv| | |]; try (by repeat constructor).
  unfold Verify in Hv.
  destruct (jws_Parse _) as [[|hdr [|]]|]; try (destruct Hv as [-> _]; constructor).
  case_bool_decide; [|destruct Hv as [-> _]; constructor].
  case_bool_decide; [|destruct Hv as [-> _]; constructor].
  cbn [negb] in Hv. unfold try in Hv. rewrite bind_call in Hv.
  destruct Hv as ([k|e] & [] & tr' & _ & -> & Hv); constructor; try done.
  - destruct (jwt_Parse _ k); destruct Hv as [-> _]; constructor.
  - destruct Hv as [-> _]; constructor.
Qed.
End reading.

(** ** The loops *)

Section loops.
Context `{J : JWX} `{U : UUIDLib}.
Context (order : nat → gmap string (option Value) → list (string * option Value)).
Context (order_ok : ∀ i m, order i m ≡ₚ map_to_list m).

Lemma validate_all_spec i events :
  let '(rejected, valid) := validate_all order i events in
  Forall storable valid ∧
  (∀ e, e ∈ valid → e ∈ events) ∧
  Forall (λ rej, ∃ e, e ∈ events ∧ rej_EventId rej = Event_GetEventId e ∧
                      violates e (rej_Code rej)) rejected ∧
  Event_GetEventId <$> events ≡ₚ (Event_GetEventId <$> valid) ++ (rej_EventId <$> rejected) ∧
  (∀ e, e ∈ events → storable e → e ∈ valid).
Proof.
  revert i. induction events as [|e events IH]; intros i; simpl.
  { split_and!; try constructor; intros e He; by apply elem_of_nil in He. }
  specialize (IH (S i)). destruct (validate_all order (S i) events) as [rejected valid].
  destruct IH as (Hst & Hsub & Hrej & Hperm & Hall).
  assert (Forall (λ rej, ∃ e0, e0 ∈ e :: events ∧ rej_EventId rej = Event_GetEventId e0 ∧
    violates e0 (rej_Code rej)) rejected) as Hrej'.
  { eapply Forall_impl; [exact Hrej|]. intros rej (e0 & ? & ?). exists e0.
    split; [by right|done]. }
  destruct (validate_Event _ e) as [rej|] eqn:Hv.
  - destruct (validate_Some _ _ _ (order_ok i _) Hv) as [Hid Hvi]. split_and!.
    + done.
    + intros e0 He0. right. by apply Hsub.
    + constructor; [|done]. exists e. split; [left|done].
    + rewrite !fmap_cons, Hid, Hperm. by rewrite Permutation_middle.
    + intros e0 [->|He0]%elem_of_cons Hs; [|by apply Hall].
      by destruct (violates_not_storable _ _ Hvi).
  - apply (validate_None _ _ (order_ok i _)) in Hv. split_and!.
    + by constructor.
    + intros e0 [->|He0]%elem_of_cons; [left|right; by apply Hsub].
    + done.
    + by rewrite !fmap_cons, Hperm.
    + intros e0 [->|He0]%elem_of_cons Hs; [left|right; by apply Hall].
Qed.

Lemma validate_all_length i events :
  (length (validate_all order i events).2 ≤ length events)%nat.
Proof.
  revert i. induction events as [|e events IH]; intros i; simpl; [lia|].
  specialize (IH (S i)). destruct (validate_all order (S i) events) as [rejected valid].
  destruct (validate_Event _ e); simpl in *; lia.
Qed.

(** What one iteration did to the memo, with its calls. *)
Lemma memo_offset_exec claims sentAt t offsets e tr res :
  exec any_env (memo_offset claims sentAt t offsets e) tt tr res tt →
  let key := session_key claims e in
  (∃ o, offsets !! key = Some o ∧ tr = [] ∧ res = Ok (o, offsets)) ∨
  (offsets !! key = None ∧ ∃ a, tr = [Ev (IGetOrSet key (CandidateOffset sentAt t)) a] ∧
    res = match a with Ok o => Ok (o, <[key := o]> offsets) | Err u => Err u end).
Proof.
  unfold memo_offset. simpl. destruct (offsets !! _) as [o|] eqn:Ho.
  - intros (-> & -> & _). left. by exists o.
  - intros (a & [] & tr' & _ & -> & H). right. split; [done|]. exists a.
    destruct a as [o|u]; by destruct H as (-> & -> & _).
Qed.

Lemma on_clock_skew_exec d claims e clamped tr (u : ()) :
  exec any_env (on_clock_skew d claims e clamped) tt tr u tt →
  tr = if clamped && d.(d_OnClockSkew)
       then [Ev (IOnClockSkew claims.(TenantID) (Event_GetDeviceId e)) tt] else [].
Proof.
  unfold on_clock_skew. destruct (clamped && d_OnClockSkew d).
  - intros ([] & [] & tr' & _ & -> & (-> & _)). done.
  - by intros (-> & _).
Qed.

(** The rows of [valid] under the offsets [offs]. *)
Definition rows_of (claims : Claims) (t : Time) (offs : gmap SessionKey Z)
    (valid : list (option Event)) : list (Row * bool) :=
  (λ e, enrich_Row e claims (default 0 (offs !! session_key claims e)) t) <$> valid.

(** What the loop has made of [valid] when it completes: the rows use one memo, which
    extends the one it started from by answers of the calls it made. *)
Definition enriched_rows (d : Deps) (claims : Claims) (sentAt : Z) (t : Time)
    (offsets : gmap SessionKey Z) (valid : list (option Event))
    (tr : list (event IngestE)) (rows : list Row) (accepted : list string) : Prop :=
  accepted = Event_GetEventId <$> valid ∧
  ∃ offs, offsets ⊆ offs ∧
    rows = (rows_of claims t offs valid).*1 ∧
    (∀ e, e ∈ valid → is_Some (offs !! session_key claims e)) ∧
    (∀ k o, offs !! k = Some o → offsets !! k = Some o ∨
              (k, CandidateOffset sentAt t, Ok o) ∈ offset_calls tr) ∧
    skew_calls tr =
      (if d.(d_OnClockSkew)
       then (λ e, (claims.(TenantID), Event_GetDeviceId e)) <$>
            (base.filter (λ e, (enrich_Row e claims
              (default 0 (offs !! session_key claims e)) t).2 = true) valid)
       else []).

(** The outcome of the loop: the calls it made are one per session, and the rows use
    the answers. *)
Definition enriched (d : Deps) (claims : Claims) (sentAt : Z) (t : Time)
    (offsets : gmap SessionKey Z) (valid : list (option Event))
    (tr : list (event IngestE)) (res : option (list Row * list string)) : Prop :=
  Forall is_enrich tr ∧
  NoDup (offset_calls tr).*1.*1 ∧
  Forall (λ kca, offsets !! kca.1.1 = None ∧ kca.1.2 = CandidateOffset sentAt t ∧
                 ∃ e, e ∈ valid ∧ kca.1.1 = session_key claims e) (offset_calls tr) ∧
  match res with
  | None => ∃ k c u, (k, c, Err u) ∈ offset_calls tr
  | Some (rows, accepted) =>
      enriched_rows d claims sentAt t offsets valid tr rows accepted
  end.

Lemma calls_app (tr1 tr2 : list (event IngestE)) :
  offset_calls (tr1 ++ tr2) = offset_calls tr1 ++ offset_calls tr2 ∧
  inserts (tr1 ++ tr2) = inserts tr1 ++ inserts tr2 ∧
  quota_calls (tr1 ++ tr2) = quota_calls tr1 ++ quota_calls tr2 ∧
  skew_calls (tr1 ++ tr2) = skew_calls tr1 ++ skew_calls tr2.
Proof. unfold offset_calls, inserts, quota_calls, skew_calls. by rewrite !omap_app. Qed.

(** The skew part of one iteration. *)
Lemma skew_event_calls (b : bool) t dev :
  let tr := if b then [Ev (IOnClockSkew t dev) tt] else [] in
  Forall is_enrich tr ∧ offset_calls tr = [] ∧
  skew_calls tr = if b then [(t, dev)] else [].
Proof. destruct b; simpl; split_and!; by repeat constructor. Qed.

Lemma enriched_nil d claims sentAt t offsets :
  enriched d claims sentAt t offsets [] [] (Some ([], [])).
Proof.
  split_and!; [constructor..|]. split; [done|]. exists offsets. split_and!; [done|done| | |].
  - intros e He. by apply elem_of_nil in He.
  - intros k o Ho. by left.
  - simpl. by destruct (d_OnClockSkew d).
Qed.

(** What the memo lookup of one iteration does to the memo, by the calls [calls]. *)
Definition memo_step (offsets offsets' : gmap SessionKey Z) (key : SessionKey) (c o : Z)
    (calls : list (SessionKey * Z * result () Z)) : Prop :=
  calls = [] ∧ offsets' = offsets ∨
  calls = [(key, c, Ok o)] ∧ offsets !! key = None ∧ offsets' = <[key := o]> offsets.

Lemma memo_step_subseteq offsets offsets' key c o calls :
  memo_step offsets offsets' key c o calls → offsets ⊆ offsets'.
Proof. intros [[_ ->]|(_ & Hn & ->)]; [done|]. by apply insert_subseteq. Qed.

(** An entry of the new memo is an old one or an answer. *)
Lemma memo_step_lookup offsets offsets' key c o calls k o' :
  memo_step offsets offsets' key c o calls → offsets' !! k = Some o' →
  offsets !! k = Some o' ∨ (k, c, Ok o') ∈ calls.
Proof.
  intros [[_ ->]|(-> & Hn & ->)] Hk; [by left|].
  apply lookup_insert_Some in Hk as [[<- <-]|[_ Hk]]; [right; left|by left].
Qed.

(** The rows of one iteration in front of those of the rest. *)
Lemma enriched_rows_cons d claims sentAt t offsets offsets' e valid tr trr o rows accepted :
  let key := session_key claims e in
  let '(row, clamped) := enrich_Row e claims o t in
  ∀ calls, offset_calls tr = calls ++ offset_calls trr →
  skew_calls tr = (if clamped && d.(d_OnClockSkew)
                   then [(claims.(TenantID), Event_GetDeviceId e)] else []) ++ skew_calls trr →
  offsets' !! key = Some o → memo_step offsets offsets' key (CandidateOffset sentAt t) o calls →
  enriched_rows d claims sentAt t offsets' valid trr rows accepted →
  enriched_rows d claims sentAt t offsets (e :: valid) tr (row :: rows)
    (Event_GetEventId e :: accepted).
Proof.
  intros key. destruct (enrich_Row e claims o t) as [row clamped] eqn:Hrow.
  intros calls Hcalls Hskew Hkey Hm (-> & offs & Hsub & -> & Hall & Hfrom & Hskr).
  assert (offs !! key = Some o) as Ho by (by eapply lookup_weaken).
  assert (enrich_Row e claims (default 0 (offs !! key)) t = (row, clamped)) as Hrow'
    by (by rewrite Ho).
  split; [done|]. exists offs. split_and!.
  - etrans; [by eapply memo_step_subseteq|done].
  - unfold rows_of. rewrite !fmap_cons. fold key. by rewrite Hrow'.
  - intros e0 [->|He0]%elem_of_cons; [by exists o|by apply Hall].
  - intros k o' Hk'. rewrite Hcalls, elem_of_app. destruct (Hfrom k o' Hk') as [Hin|Hin]; [|tauto].
    destruct (memo_step_lookup _ _ _ _ _ _ _ _ Hm Hin); tauto.
  - rewrite Hskew, Hskr. destruct (d_OnClockSkew d); [|by rewrite andb_false_r].
    rewrite andb_true_r, filter_cons. fold key. rewrite Hrow'. simpl.
    destruct clamped; [by rewrite decide_True|by rewrite decide_False].
Qed.

(** The calls of one iteration in front of those of the rest: still one per session. *)
Lemma enriched_calls_cons claims sentAt t offsets offsets' key c o calls
    (e : option Event) valid rest :
  key = session_key claims e → c = CandidateOffset sentAt t →
  memo_step offsets offsets' key c o calls →
  NoDup rest.*1.*1 →
  Forall (λ kca : SessionKey * Z * result () Z, offsets' !! kca.1.1 = None ∧ kca.1.2 = c ∧
    ∃ e', e' ∈ valid ∧ kca.1.1 = session_key claims e') rest →
  NoDup (calls ++ rest).*1.*1 ∧
  Forall (λ kca : SessionKey * Z * result () Z, offsets !! kca.1.1 = None ∧ kca.1.2 = c ∧
    ∃ e', e' ∈ e :: valid ∧ kca.1.1 = session_key claims e') (calls ++ rest).
Proof.
  intros Hkey Hc Hm Hnd Hf. pose proof (memo_step_subseteq _ _ _ _ _ _ Hm) as Hsub. split.
  - destruct Hm as [[-> _]|(-> & Hn & ->)]; [done|]. simpl. constructor; [|done].
    intros Hin. apply list_elem_of_fmap in Hin as (kc & Hkc & Hin).
    apply list_elem_of_fmap in Hin as (kca & -> & Hin). rewrite Forall_forall in Hf.
    destruct (Hf _ Hin) as [Hn' _]. by rewrite <-Hkc, lookup_insert_eq in Hn'.
  - apply Forall_app. split.
    + destruct Hm as [[-> _]|(-> & Hn & _)]; repeat constructor; [done|].
      exists e. split; [left|done].
    + eapply Forall_impl; [exact Hf|]. intros kca (Hn & Hk & e0 & He0 & Hk0).
      split_and!; [|done|exists e0; split; [by right|done]].
      destruct (offsets !! kca.1.1) as [x|] eqn:Hx; [|done].
      by rewrite (lookup_weaken _ _ _ _ Hx Hsub) in Hn.
Qed.

(** One iteration in front of the rest of the loop. *)
Lemma enriched_cons d claims sentAt t offsets e valid tr1 trr offsets' o rest :
  let key := session_key claims e in
  let '(row, clamped) := enrich_Row e claims o t in
  let trs := if clamped && d.(d_OnClockSkew)
             then [Ev (IOnClockSkew claims.(TenantID) (Event_GetDeviceId e)) tt] else [] in
  offsets' !! key = Some o →
  memo_step offsets offsets' key (CandidateOffset sentAt t) o (offset_calls tr1) →
  Forall is_enrich tr1 → skew_calls tr1 = [] →
  enriched d claims sentAt t offsets' valid trr rest →
  enriched d claims sentAt t offsets (e :: valid) (tr1 ++ trs ++ trr)
    (match rest with
     | None => None
     | Some (rows, accepted) => Some (row :: rows, Event_GetEventId e :: accepted)
     end).
Proof.
  intros key. pose proof (enriched_rows_cons d claims sentAt t offsets offsets' e valid) as Hcons.
  specialize (λ tr rows accepted, Hcons tr trr o rows accepted). simpl in Hcons.
  destruct (enrich_Row e claims o t) as [row clamped]. intros trs Hkey Hm Htr1 Hsk1.
  destruct (skew_event_calls (clamped && d.(d_OnClockSkew)) claims.(TenantID) (Event_GetDeviceId e))
    as (Htrs & Hoffs & Hskews). fold trs in Htrs, Hoffs, Hskews.
  intros (Hk & Hnd & Hf & Hres).
  destruct (calls_app tr1 (trs ++ trr)) as (Ho1 & _ & _ & Hs1).
  destruct (calls_app trs trr) as (Ho2 & _ & _ & Hs2).
  rewrite Ho2, Hoffs in Ho1. rewrite Hs2, Hsk1, Hskews in Hs1. simpl in Ho1, Hs1.
  destruct (enriched_calls_cons claims sentAt t offsets offsets' key _ o _ e valid _
    eq_refl eq_refl Hm Hnd Hf) as [Hnd' Hf'].
  unfold enriched. rewrite Ho1. split_and!; [by repeat (apply Forall_app; split)|done..|].
  destruct rest as [[rows accepted]|].
  - by eapply Hcons.
  - destruct Hres as (k & c & u & Hin). exists k, c, u. apply elem_of_app. by right.
Qed.

Lemma enrich_all_exec d claims sentAt t offsets valid tr res :
  exec any_env (enrich_all d claims sentAt t offsets valid) tt tr res tt →
  enriched d claims sentAt t offsets valid tr res.
Proof.
  revert offsets tr res. induction valid as [|e valid IH]; intros offsets tr res; simpl.
  { intros (-> & -> & _). apply enriched_nil. }
  intros (tr1 & memo & [] & tr2 & Hmemo & Hrest & ->)%exec_bind.
  apply memo_offset_exec in Hmemo as [(o & Ho & -> & ->)|(Hn & a & -> & ->)].
  - pose proof (enriched_cons d claims sentAt t offsets e valid [] ) as Hcons.
    destruct (enrich_Row e claims o t) as [row clamped] eqn:Hrow.
    apply exec_bind in Hrest as (trs & [] & [] & tr3 & Hs%on_clock_skew_exec & Hr & ->).
    apply exec_bind in Hr as (trr & rest & [] & tr4 & Hr%IH & Hret & ->).
    specialize (Hcons trr offsets o rest). rewrite Hrow in Hcons. simpl in Hcons.
    rewrite <-Hs in Hcons. simpl.
    assert (tr4 = [] ∧ res = match rest with
      | None => None
      | Some (rows, accepted) => Some (row :: rows, Event_GetEventId e :: accepted) end) as [-> ->]
      by (destruct rest as [[rows accepted]|]; by destruct Hret as (-> & -> & _)).
    rewrite app_nil_r. apply Hcons; [done|by left|constructor|done|done].
  - destruct a as [o|u].
    + pose proof (enriched_cons d claims sentAt t offsets e valid
        [Ev (IGetOrSet (session_key claims e) (CandidateOffset sentAt t)) (Ok o)]) as Hcons.
      destruct (enrich_Row e claims o t) as [row clamped] eqn:Hrow.
      apply exec_bind in Hrest as (trs & [] & [] & tr3 & Hs%on_clock_skew_exec & Hr & ->).
      apply exec_bind in Hr as (trr & rest & [] & tr4 & Hr%IH & Hret & ->).
      specialize (Hcons trr (<[session_key claims e := o]> offsets) o rest).
      rewrite Hrow in Hcons. simpl in Hcons. rewrite <-Hs in Hcons.
      assert (tr4 = [] ∧ res = match rest with
        | None => None
        | Some (rows, accepted) => Some (row :: rows, Event_GetEventId e :: accepted) end) as [-> ->]
        by (destruct rest as [[rows accepted]|]; by destruct Hret as (-> & -> & _)).
      rewrite app_nil_r. apply Hcons; [apply lookup_insert_eq|by right| |done|done].
      by repeat constructor.
    + destruct Hrest as (-> & -> & _). rewrite app_nil_r. split_and!.
      * by repeat constructor.
      * simpl. apply NoDup_singleton.
      * simpl. constructor; [|constructor]. split_and!; [done|done|].
        exists e. split; [left|done].
      * exists (session_key claims e), (CandidateOffset sentAt t), u. left.
Qed.
End loops.

(** ** The outcomes of a request *)

Section outcomes.
Context `{J : JWX} `{U : UUIDLib} `{Z0 : Gzip} `{C : BatchCodec}.
Context (order : nat → gmap string (option Value) → list (string * option Value)).

Definition legacy_events (d : Deps) (isLegacy : bool) (claims : Claims) (req : BatchRequest) :
    list (event IngestE) :=
  if isLegacy && d.(d_OnLegacyUse)
  then [Ev (IOnLegacyUse claims.(TenantID) (sdk_version req)) tt] else [].

Definition limits_event (claims : Claims) (a : result () Quota) : event IngestE :=
  Ev (ILimitsFor claims.(TenantID) claims.(TrustTier)) a.

(** The single quota call of a batch. *)
Definition quota_event (claims : Claims) (lim : Quota) (n : Z) (t : Time)
    (a : option (Z * string)) : event IngestE :=
  Ev (IQuota (EAllow (rateKey claims t) (dayKey claims t) n lim.(RPS) lim.(DailyEvents)
                2 (SecondsInt (48 * Hour)))) a.

(** From the offsets on. *)
Inductive store_outcome (d : Deps) (claims : Claims) (req : BatchRequest) (t : Time)
    (rejected : list Reject) (valid : list (option Event)) :
    list (event IngestE) → Response → Prop :=
| so_offsets tro :
    enriched d claims req.(SentAt) t ∅ valid tro None →
    store_outcome d claims req t rejected valid tro
      (httpError ∅ StatusServiceUnavailable "offset store unavailable")
| so_insert tro rows accepted e :
    enriched d claims req.(SentAt) t ∅ valid tro (Some (rows, accepted)) →
    store_outcome d claims req t rejected valid (tro ++ [Ev (IInsert rows) (Err e)])
      (httpError ∅ StatusServiceUnavailable "storage unavailable")
| so_done tro rows accepted u :
    enriched d claims req.(SentAt) t ∅ valid tro (Some (rows, accepted)) →
    store_outcome d claims req t rejected valid (tro ++ [Ev (IInsert rows) (Ok u)])
      (respond {| ReceivedAt := UnixMilli t; Accepted := accepted; Rejected := rejected |}).

(** From the limits on. *)
Inductive admit_outcome (d : Deps) (claims : Claims) (isLegacy : bool) (t : Time)
    (req : BatchRequest) (rejected : list Reject) (valid : list (option Event)) :
    list (event IngestE) → Response → Prop :=
| ao_limits e :
    admit_outcome d claims isLegacy t req rejected valid [limits_event claims (Err e)]
      (httpError ∅ StatusServiceUnavailable "limits unavailable")
| ao_quota lim :
    admit_outcome d claims isLegacy t req rejected valid
      [limits_event claims (Ok lim);
       quota_event claims (effective_limits isLegacy lim) (chargeUnits valid) t None]
      (httpError ∅ StatusServiceUnavailable "quota unavailable")
| ao_denied lim res :
    Allowed (decision t res) = false →
    admit_outcome d claims isLegacy t req rejected valid
      [limits_event claims (Ok lim);
       quota_event claims (effective_limits isLegacy lim) (chargeUnits valid) t (Some res)]
      (too_many (decision t res))
| ao_store lim res trs resp :
    Allowed (decision t res) = true →
    store_outcome d claims req t rejected valid trs resp →
    admit_outcome d claims isLegacy t req rejected valid
      (limits_event claims (Ok lim) ::
       quota_event claims (effective_limits isLegacy lim) (chargeUnits valid) t (Some res) :: trs)
      resp.

Inductive batch_outcome (d : Deps) (r : Request) : list (event IngestE) → Response → Prop :=
| bo_unauthorized t tra e isLegacy :
    exec any_env (VerifyOrLegacy d.(d_Verifier) r.(r_Authorization) t) tt tra (Err e, isLegacy) tt →
    batch_outcome d r (Ev INow t :: tra) (httpError ∅ StatusUnauthorized "invalid token")
| bo_refused t tra claims isLegacy resp :
    exec any_env (VerifyOrLegacy d.(d_Verifier) r.(r_Authorization) t) tt tra (Ok claims, isLegacy) tt →
    decode_batch r = Err resp →
    batch_outcome d r (Ev INow t :: tra) resp
| bo_batch t tra claims isLegacy req rejected valid trb resp :
    exec any_env (VerifyOrLegacy d.(d_Verifier) r.(r_Authorization) t) tt tra (Ok claims, isLegacy) tt →
    decode_batch r = Ok req →
    validate_all order 0 req.(Events) = (rejected, valid) →
    admit_outcome d claims isLegacy t req rejected valid trb resp →
    batch_outcome d r (Ev INow t :: tra ++ legacy_events d isLegacy claims req ++ trb) resp.

Lemma store_exec d claims req t rejected valid tr resp :
  exec any_env (store d claims req t rejected valid) tt tr resp tt →
  store_outcome d claims req t rejected valid tr resp.
Proof.
  unfold store. intros (tro & rows & [] & tr2 & Ho%enrich_all_exec & Hr & ->)%exec_bind.
  destruct rows as [[rows accepted]|].
  - destruct Hr as (ins & [] & tr3 & _ & -> & Hr).
    destruct ins as [u|e]; destruct Hr as (-> & -> & _); [by apply so_done|by eapply so_insert].
  - destruct Hr as (-> & -> & _). rewrite app_nil_r. by apply so_offsets.
Qed.

Lemma admit_exec d claims isLegacy req t tr resp rejected valid :
  validate_all order 0 req.(Events) = (rejected, valid) →
  exec any_env (admission order d claims isLegacy req t) tt tr resp tt →
  ∃ trb, tr = legacy_events d isLegacy claims req ++ trb ∧
    admit_outcome d claims isLegacy t req rejected valid trb resp.
Proof.
  intros Hv. unfold admission.
  intros (trl & [] & [] & tr2 & Hl & Hr & ->)%exec_bind. rewrite Hv in Hr.
  assert (trl = legacy_events d isLegacy claims req) as ->.
  { unfold on_legacy_use, legacy_events in *. destruct (isLegacy && d_OnLegacyUse d).
    - destruct Hl as ([] & [] & tr' & _ & -> & -> & _). done.
    - by destruct Hl as (-> & _). }
  exists tr2. split; [done|]. rewrite bind_Call in Hr.
  destruct Hr as (lim & [] & tr3 & _ & -> & Hr). rewrite bind_Ret in Hr.
  destruct lim as [lim|e]; [|destruct Hr as (-> & -> & _); apply ao_limits].
  unfold Allow in Hr. rewrite bind_call, bind_Call in Hr.
  destruct Hr as (res & [] & tr4 & _ & -> & Hr).
  destruct res as [res|]; [|destruct Hr as (-> & -> & _); apply ao_quota].
  cbv beta iota in Hr. rewrite bind_Ret in Hr. destruct (Allowed (decision t res)) eqn:Ha; cbn [negb] in Hr.
  - apply ao_store; [done|]. by apply store_exec.
  - destruct Hr as (-> & -> & _). by apply ao_denied.
Qed.

Lemma NewBatch_exec d r tr resp :
  exec any_env (NewBatch order d r) tt tr resp tt → batch_outcome d r tr resp.
Proof.
  unfold NewBatch. rewrite bind_Call. intros (t & [] & tr1 & _ & -> & Hr).
  rewrite bind_Ret in Hr.
  apply exec_bind in Hr as (tra & [auth isLegacy] & [] & trb & Ha & Hr & ->).
  destruct auth as [claims|e]; cycle 1.
  { destruct Hr as (-> & -> & _). rewrite app_nil_r. by eapply bo_unauthorized. }
  destruct (decode_batch r) as [req|resp0] eqn:Hd; cycle 1.
  { destruct Hr as (-> & -> & _). rewrite app_nil_r. by eapply bo_refused. }
  destruct (validate_all order 0 (Events req)) as [rejected valid] eqn:Hv.
  destruct (admit_exec _ _ _ _ _ _ _ _ _ Hv Hr) as (trb' & -> & Hout).
  by eapply bo_batch.
Qed.
End outcomes.

(** ** Reading the outcomes *)

Section stories.
Context `{J : JWX} `{U : UUIDLib} `{Z0 : Gzip} `{C : BatchCodec}.
Context (order : nat → gmap string (option Value) → list (string * option Value)).

Lemma auth_silent v bearer t tra res :
  exec any_env (VerifyOrLegacy (F:=IngestE) v bearer t) tt tra res tt →
  offset_calls tra = [] ∧ inserts tra = [] ∧ quota_calls tra = [] ∧ skew_calls tra = [].
Proof. intros H. by eapply auth_calls_silent, auth_exec_calls. Qed.

(** The calls up to the limits lookup are silent for storage, offsets and quota. *)
Lemma prefix_calls v bearer t tra res d isLegacy claims req trb :
  exec any_env (VerifyOrLegacy (F:=IngestE) v bearer t) tt tra res tt →
  let tr := Ev INow t :: tra ++ legacy_events d isLegacy claims req ++ trb in
  offset_calls tr = offset_calls trb ∧ inserts tr = inserts trb ∧
  quota_calls tr = quota_calls trb ∧ skew_calls tr = skew_calls trb.
Proof.
  intros (H1 & H2 & H3 & H4)%auth_silent tr. unfold tr.
  change (Ev INow t :: tra ++ legacy_events d isLegacy claims req ++ trb)
    with ([Ev INow t] ++ tra ++ legacy_events d isLegacy claims req ++ trb).
  unfold offset_calls, inserts, quota_calls, skew_calls in *. rewrite !omap_app, H1, H2, H3, H4.
  unfold legacy_events. by destruct (isLegacy && d_OnLegacyUse d).
Qed.

Lemma httpError_status h code msg : w_status (httpError h code msg) = code.
Proof. done. Qed.

Lemma respond_status resp :
  w_status (respond resp) = StatusOK ∨ w_status (respond resp) = StatusInternalServerError.
Proof. unfold respond. destruct (Marshal_BatchResponse resp); auto. Qed.

Lemma respond_ok resp :
  w_status (respond resp) = StatusOK → Marshal_BatchResponse resp = Some (w_body (respond resp)).
Proof. unfold respond. by destruct (Marshal_BatchResponse resp). Qed.

(** The Retry-After of a denial is between 1 s and one day. *)
Lemma denied_retry_range t res :
  Allowed (decision t res) = false →
  1 ≤ SecondsInt (RetryAfter (decision t res)) + 1 ≤ 86401.
Proof.
  unfold decision. case_bool_decide; [done|]. simpl. intros _.
  case_bool_decide; [|by vm_compute]. rewrite untilNextUTCDay_eq.
  pose proof (unix_day_bounds t). unfold SecondsInt, Day, Hour, Minute, Second in *.
  pose proof (Z.quot_le_mono 0 ((unix_day t + 1) * (24 * (60 * (60 * 1000000000))) - t) 1000000000).
  pose proof (Z.quot_le_mono ((unix_day t + 1) * (24 * (60 * (60 * 1000000000))) - t)
    (86400 * 1000000000) 1000000000).
  change (0 ÷ 1000000000) with 0 in *.
  change ((86400 * 1000000000) ÷ 1000000000) with 86400 in *. lia.
Qed.

Lemma decode_refusal_status r resp :
  decode_batch r = Err resp →
  w_status resp = StatusBadRequest ∨ w_status resp = StatusRequestEntityTooLarge.
Proof.
  unfold decode_batch. intros H. destruct (readBody r) as [b|[]]; [|injection H as <-; auto..].
  destruct (Unmarshal_BatchRequest b) as [req|]; [|injection H as <-; auto].
  case_bool_decide; [injection H as <-; auto|done].
Qed.

(** The two ways a body is refused, and the one it is decoded. *)
Definition unreadable (r : Request) : Prop :=
  readBody r = Err errUnreadable ∨
  ∃ body, readBody r = Ok body ∧ Unmarshal_BatchRequest body = None.
Definition oversized (r : Request) : Prop :=
  readBody r = Err errTooLarge ∨
  ∃ body req, readBody r = Ok body ∧ Unmarshal_BatchRequest body = Some req ∧
    500 < Z.of_nat (length req.(Events)).
Definition well_sized (r : Request) (req : BatchRequest) : Prop :=
  ∃ body, readBody r = Ok body ∧ Unmarshal_BatchRequest body = Some req ∧
    Z.of_nat (length req.(Events)) ≤ 500.

Lemma decode_batch_cases r :
  match decode_batch r with
  | Ok req => well_sized r req
  | Err resp => (w_status resp = 400 ∧ unreadable r) ∨ (w_status resp = 413 ∧ oversized r)
  end.
Proof.
  unfold decode_batch. destruct (readBody r) as [body|[]] eqn:Hb; [|right; split; [done|by left]|left; split; [done|by left]].
  destruct (Unmarshal_BatchRequest body) as [req|] eqn:Hu; [|left; split; [done|right; by exists body]].
  change MaxEventsPerBatch with 500. case_bool_decide.
  - right. split; [done|]. right. exists body, req. split_and!; [done|done|lia].
  - exists body. split_and!; [done|done|lia].
Qed.

Lemma decode_length r req :
  decode_batch r = Ok req → Z.of_nat (length req.(Events)) ≤ MaxEventsPerBatch.
Proof.
  unfold decode_batch. intros H. destruct (readBody r) as [b|[]]; [|done..].
  destruct (Unmarshal_BatchRequest b) as [q|]; [|done].
  case_bool_decide; [done|]. injection H as <-. lia.
Qed.

(** A batch that reached storage. *)
Record stored (d : Deps) (r : Request) (tr : list (event IngestE)) (resp : Response)
    (t : Time) (claims : Claims) (isLegacy : bool) (req : BatchRequest)
    (rejected : list Reject) (valid : list (option Event)) (rows : list Row)
    (accepted : list string) (a : result () ()) : Prop := {
  st_auth : ∃ tra tro lim res,
    exec any_env (VerifyOrLegacy d.(d_Verifier) r.(r_Authorization) t) tt tra (Ok claims, isLegacy) tt ∧
    Allowed (decision t res) = true ∧
    enriched d claims req.(SentAt) t ∅ valid tro (Some (rows, accepted)) ∧
    tr = Ev INow t :: tra ++ legacy_events d isLegacy claims req ++
         limits_event claims (Ok lim) ::
         quota_event claims (effective_limits isLegacy lim) (chargeUnits valid) t (Some res) ::
         tro ++ [Ev (IInsert rows) a];
  st_decoded : decode_batch r = Ok req;
  st_validated : validate_all order 0 req.(Events) = (rejected, valid);
  st_response : resp = match a with
    | Ok _ => respond {| ReceivedAt := UnixMilli t; Accepted := accepted; Rejected := rejected |}
    | Err _ => httpError ∅ StatusServiceUnavailable "storage unavailable"
    end
}.

Lemma inserts_enriched d claims sentAt t offsets valid tro res :
  enriched d claims sentAt t offsets valid tro res → inserts tro = [] ∧ quota_calls tro = [].
Proof. intros [H _]. by apply enrich_calls_silent. Qed.

(** The insert is the last call, after the one quota call, which admitted. *)
Lemma stored_calls d r tr resp t claims isLegacy req rejected valid rows accepted a :
  stored d r tr resp t claims isLegacy req rejected valid rows accepted a →
  ∃ pre lim res,
    tr = pre ++ [Ev (IInsert rows) a] ∧ inserts pre = [] ∧ res.1 = 1 ∧
    quota_calls pre = [ {| qc_rate_key := rateKey claims t; qc_day_key := dayKey claims t;
      qc_n := chargeUnits valid; qc_rps := RPS (effective_limits isLegacy lim);
      qc_daily := DailyEvents (effective_limits isLegacy lim); qc_answer := Some res |} ] ∧
    ∃ offs, rows = (rows_of claims t offs valid).*1.
Proof.
  intros [(tra & tro & lim & res & Hauth & Hal & He & ->) _ _ _].
  destruct (inserts_enriched _ _ _ _ _ _ _ _ He) as [Hti Htq].
  destruct (prefix_calls _ _ _ _ _ d isLegacy claims req
    (limits_event claims (Ok lim) ::
     quota_event claims (effective_limits isLegacy lim) (chargeUnits valid) t (Some res) :: tro)
    Hauth) as (_ & Hi & Hq & _).
  destruct He as (_ & _ & _ & _ & offs & _ & Hrows & _).
  eexists _, lim, res. split_and!.
  - rewrite !app_comm_cons, !app_assoc. reflexivity.
  - rewrite <-!app_assoc, <-!app_comm_cons. rewrite Hi. exact Hti.
  - unfold decision in Hal. by case_bool_decide.
  - rewrite <-!app_assoc, <-!app_comm_cons. rewrite Hq. unfold quota_calls in *. simpl.
    f_equal. exact Htq.
  - by exists offs.
Qed.

(** Either nothing was inserted, or exactly one insert was made, last. *)
Lemma outcome_inserts d r tr resp :
  batch_outcome order d r tr resp →
  (inserts tr = [] ∧ (w_status resp = StatusOK → False) ∧
     (w_status resp = StatusInternalServerError → False)) ∨
  ∃ t claims isLegacy req rejected valid rows accepted a,
    inserts tr = [(rows, a)] ∧
    stored d r tr resp t claims isLegacy req rejected valid rows accepted a.
Proof.
  destruct 1 as [t tra e isLegacy Ha|t tra claims isLegacy resp Ha Hd|
    t tra claims isLegacy req rejected valid trb resp Ha Hd Hv Hout].
  - left. destruct (auth_silent _ _ _ _ _ Ha) as (_ & Hi & _). done.
  - left. destruct (auth_silent _ _ _ _ _ Ha) as (_ & Hi & _). split; [done|].
    by destruct (decode_refusal_status _ _ Hd) as [-> | ->].
  - destruct (prefix_calls _ _ _ _ _ d isLegacy claims req trb Ha) as (_ & -> & _).
    destruct Hout as [e|lim|lim res Hal|lim res trs resp Hal Hs]; [by left..|].
    destruct Hs as [tro He|tro rows accepted e He|tro rows accepted u He];
      destruct (inserts_enriched _ _ _ _ _ _ _ _ He) as [Hi _].
    + left. by rewrite <-Hi.
    + right. exists t, claims, isLegacy, req, rejected, valid, rows, accepted, (Err e). split.
      { unfold inserts in *. simpl. by rewrite omap_app, Hi. }
      split; [|done..]. exists tra, tro, lim, res. done.
    + right. exists t, claims, isLegacy, req, rejected, valid, rows, accepted, (Ok u). split.
      { unfold inserts in *. simpl. by rewrite omap_app, Hi. }
      split; [|done..]. exists tra, tro, lim, res. done.
Qed.

Lemma rows_of_facts claims t offs valid :
  let rows := (rows_of claims t offs valid).*1 in
  row_EventID <$> rows = Event_GetEventId <$> valid ∧
  Forall (λ row, row.(row_TenantID) = claims.(TenantID) ∧ row.(row_InstallID) = claims.(InstallID)
                 ∧ row.(row_TrustTier) = claims.(TrustTier) ∧ row.(row_TSReceived) = t) rows.
Proof.
  simpl. unfold rows_of. induction valid as [|e valid [IH1 IH2]]; [by split|].
  rewrite !fmap_cons. unfold enrich_Row at 1 3.
  destruct (Correct _ _ _) as [ts clamped]. simpl. rewrite IH1. split; [done|].
  by constructor.
Qed.

(** What an acknowledgement stands for. *)
Lemma outcome_acked (order_ok : ∀ i m, order i m ≡ₚ map_to_list m) d r tr resp :
  batch_outcome order d r tr resp → w_status resp = StatusOK →
  ∃ t req rejected rows u,
    decode_batch r = Ok req ∧ inserts tr = [(rows, Ok u)] ∧
    Marshal_BatchResponse {| ReceivedAt := UnixMilli t; Accepted := row_EventID <$> rows;
                             Rejected := rejected |} = Some (w_body resp) ∧
    Event_GetEventId <$> req.(Events) ≡ₚ (row_EventID <$> rows) ++ (rej_EventId <$> rejected).
Proof.
  intros Hout Hok. destruct (outcome_inserts _ _ _ _ Hout) as [(_ & Hno & _)|H]; [done|].
  destruct H as (t & claims & isLegacy & req & rejected & valid & rows & accepted & a & Hins & Hst).
  destruct Hst as [(tra & tro & lim & res & _ & _ & He & _) Hd Hv Hresp].
  destruct He as (_ & _ & _ & -> & offs & _ & -> & _).
  destruct a as [u|e]; [|by rewrite Hresp in Hok].
  destruct (rows_of_facts claims t offs valid) as [Hids _].
  pose proof (validate_all_spec order order_ok 0 (Events req)) as Hval. rewrite Hv in Hval.
  destruct Hval as (_ & _ & _ & Hperm & _).
  exists t, req, rejected, (rows_of claims t offs valid).*1, u.
  rewrite Hids. split_and!; [done|done| |done].
  rewrite Hresp in Hok |- *. by apply respond_ok.
Qed.

(** Whose rows they are. *)
Definition carries (claims : Claims) (row : Row) : Prop :=
  row.(row_TenantID) = claims.(TenantID) ∧ row.(row_InstallID) = claims.(InstallID) ∧
  row.(row_TrustTier) = claims.(TrustTier).

Lemma store_authenticated d claims req t rejected valid tr resp :
  store_outcome d claims req t rejected valid tr resp →
  w_status resp ≠ StatusUnauthorized ∧ ∀ rows a, (rows, a) ∈ inserts tr → Forall (carries claims) rows.
Proof.
  assert (∀ tro rows accepted rows' (a a' : result () ()),
    enriched d claims req.(SentAt) t ∅ valid tro (Some (rows, accepted)) →
    (rows', a') ∈ inserts (tro ++ [Ev (IInsert rows) a]) → Forall (carries claims) rows') as Hrows.
  { intros tro rows accepted rows' a a' He. destruct (inserts_enriched _ _ _ _ _ _ _ _ He) as [Hi _].
    unfold inserts in *. rewrite omap_app, Hi. intros [= -> ->]%list_elem_of_singleton.
    destruct He as (_ & _ & _ & _ & offs & _ & -> & _).
    destruct (rows_of_facts claims t offs valid) as [_ Hall].
    eapply Forall_impl; [exact Hall|]. by intros row (? & ? & ? & _). }
  destruct 1 as [tro He|tro rows accepted e He|tro rows accepted u He].
  - split; [done|]. intros rows a. rewrite (proj1 (inserts_enriched _ _ _ _ _ _ _ _ He)). by intros ?%elem_of_nil.
  - split; [done|]. intros rows' a'. by apply Hrows with accepted.
  - split; [|intros rows' a'; by apply Hrows with accepted].
    by destruct (respond_status {| ReceivedAt := UnixMilli t; Accepted := accepted; Rejected := rejected |}) as [-> | ->].
Qed.

(** The authentication of a request and what follows from its result. *)
Lemma outcome_authentication d r tr resp :
  batch_outcome order d r tr resp →
  ∃ t tra auth isLegacy rest, tr = Ev INow t :: tra ++ rest ∧
    exec any_env (VerifyOrLegacy (F:=IngestE) d.(d_Verifier) r.(r_Authorization) t) tt tra (auth, isLegacy) tt ∧
    ∀ claims, auth = Ok claims → w_status resp ≠ StatusUnauthorized ∧
      ∀ rows a, (rows, a) ∈ inserts tr → Forall (carries claims) rows.
Proof.
  destruct 1 as [t tra e isLegacy Ha|t tra claims isLegacy resp Ha Hd|
    t tra claims isLegacy req rejected valid trb resp Ha Hd Hv Hout].
  - exists t, tra, (Err e), isLegacy, []. by rewrite app_nil_r.
  - exists t, tra, (Ok claims), isLegacy, []. rewrite app_nil_r. split_and!; [done..|].
    intros c _. split; [by destruct (decode_refusal_status _ _ Hd) as [-> | ->]|].
    intros rows a. destruct (auth_silent _ _ _ _ _ Ha) as (_ & Hi & _).
    change (inserts (Ev INow t :: tra)) with (inserts tra). rewrite Hi. by intros ?%elem_of_nil.
  - exists t, tra, (Ok claims), isLegacy, (legacy_events d isLegacy claims req ++ trb).
    split_and!; [done..|]. intros c [= <-].
    destruct (prefix_calls _ _ _ _ _ d isLegacy claims req trb Ha) as (_ & -> & _).
    destruct Hout as [e|lim|lim res Hal|lim res trs resp Hal Hs];
      [by split; [|intros rows a ?%elem_of_nil]..|].
    exact (store_authenticated _ _ _ _ _ _ _ _ Hs).
Qed.

(** Where an inserted row comes from. *)
Definition row_origin (t : Time) (claims : Claims) (req : BatchRequest)
    (tr : list (event IngestE)) (row : Row) : Prop :=
  ∃ e o c, e ∈ req.(Events) ∧ storable e ∧ enrich_Row e claims o t = (row, c) ∧
    (session_key claims e, CandidateOffset req.(SentAt) t, Ok o) ∈ offset_calls tr.

Lemma outcome_rows (order_ok : ∀ i m, order i m ≡ₚ map_to_list m) d r tr resp rows a :
  batch_outcome order d r tr resp → (rows, a) ∈ inserts tr →
  ∃ t claims isLegacy tra req,
    exec any_env (VerifyOrLegacy (F:=IngestE) d.(d_Verifier) r.(r_Authorization) t) tt tra
      (Ok claims, isLegacy) tt ∧
    decode_batch r = Ok req ∧
    Z.of_nat (length rows) ≤ MaxEventsPerBatch ∧
    Forall (row_origin t claims req tr) rows.
Proof.
  intros Hout Hin.
  destruct (outcome_inserts _ _ _ _ Hout) as [(Hno & _)|H];
    [rewrite Hno in Hin; by apply elem_of_nil in Hin|].
  destruct H as (t & claims & isLegacy & req & rejected & valid & rows' & accepted & a' & Hins & Hst).
  rewrite Hins in Hin. apply list_elem_of_singleton in Hin as [= -> ->].
  destruct Hst as [(tra & tro & lim & res & Hauth & _ & He & Htr) Hd Hv _].
  pose proof (validate_all_spec order order_ok 0 (Events req)) as Hval. rewrite Hv in Hval.
  destruct Hval as (Hstor & Hsub & _).
  pose proof (validate_all_length order 0 (Events req)) as Hlen. rewrite Hv in Hlen. simpl in Hlen.
  pose proof (decode_length _ _ Hd) as Hmax.
  destruct He as (_ & _ & _ & _ & offs & _ & -> & Hall & Hfrom & _).
  exists t, claims, isLegacy, tra, req. split_and!; [done|done| |].
  { unfold rows_of. rewrite !length_fmap. lia. }
  rewrite Forall_forall. intros row Hrow.
  apply list_elem_of_fmap in Hrow as ([row' c] & -> & Hrow).
  unfold rows_of in Hrow. apply list_elem_of_fmap in Hrow as (e & Hre & Hev).
  destruct (Hall e Hev) as [o Ho]. exists e, o, c. rewrite Ho in Hre. split_and!.
  - by apply Hsub.
  - rewrite Forall_forall in Hstor. by apply Hstor.
  - done.
  - destruct (Hfrom _ _ Ho) as [Hn|Hn]; [done|]. rewrite Htr.
    destruct (prefix_calls _ _ _ _ _ d isLegacy claims req
      (limits_event claims (Ok lim) ::
       quota_event claims (effective_limits isLegacy lim) (chargeUnits valid) t (Some res) ::
       tro ++ [Ev (IInsert (rows_of claims t offs valid).*1) a']) Hauth) as (-> & _).
    unfold offset_calls. simpl. rewrite omap_app. apply elem_of_app. by left.
Qed.

(** The offset calls of a request: none, or those of its loop. *)
Lemma outcome_offsets d r tr resp :
  batch_outcome order d r tr resp →
  offset_calls tr = [] ∨
  ∃ t claims isLegacy tra req rejected valid tro res,
    exec any_env (VerifyOrLegacy (F:=IngestE) d.(d_Verifier) r.(r_Authorization) t) tt tra
      (Ok claims, isLegacy) tt ∧
    decode_batch r = Ok req ∧ validate_all order 0 req.(Events) = (rejected, valid) ∧
    enriched d claims req.(SentAt) t ∅ valid tro res ∧ offset_calls tr = offset_calls tro.
Proof.
  destruct 1 as [t tra e isLegacy Ha|t tra claims isLegacy resp Ha Hd|
    t tra claims isLegacy req rejected valid trb resp Ha Hd Hv Hout].
  - left. by destruct (auth_silent _ _ _ _ _ Ha).
  - left. by destruct (auth_silent _ _ _ _ _ Ha).
  - destruct (prefix_calls _ _ _ _ _ d isLegacy claims req trb Ha) as (-> & _).
    destruct Hout as [e|lim|lim res Hal|lim res trs resp Hal Hs]; [by left..|right].
    exists t, claims, isLegacy, tra, req, rejected, valid.
    destruct Hs as [tro He|tro rows accepted e He|tro rows accepted u He];
      eexists tro, _; (split_and!; [done|done|done|exact He|]);
      unfold offset_calls; simpl; by rewrite ?omap_app, ?app_nil_r.
Qed.
End stories.

(** ** Concurrent requests over one offset store *)

Section retries.
Context `{J : JWX} {S : Type} `{O : OffsetStore S}.

(** The world is the offset store; a lost reply may or may not have taken effect,
    and every other call may be answered in any way. *)
Definition ingest_sem : semantics IngestE S :=
  λ X e s x s',
    match e in IngestE X return X → Prop with
    | IGetOrSet k c => λ a,
        (a = Ok (GetOrSet k c s).1 ∧ s' = (GetOrSet k c s).2) ∨
        (a = Err () ∧ (s' = s ∨ s' = (GetOrSet k c s).2))
    | _ => λ _, s' = s
    end x.

Lemma ingest_sem_keeps X (e : IngestE X) s x s' k o :
  ingest_sem X e s x s' → os_view s !! k = Some o → os_view s' !! k = Some o.
Proof.
  intros Hs Ho. destruct e; simpl in Hs; try by subst s'.
  destruct Hs as [[_ ->]|[_ [->| ->]]]; [|done|]; by apply GetOrSet_keeps.
Qed.

(** All answered offsets of one session are the one the store ends with. *)
Lemma pool_offsets (c : list (Prog IngestE Response) * S) log c' i ev k cand o :
  pool_run ingest_sem c log c' → (i, ev) ∈ log → as_offset ev = Some (k, cand, Ok o) →
  os_view c'.2 !! k = Some o.
Proof.
  induction 1 as [c|c l c1 ls c2 Hstep Hrun IH]; intros Hin Hev; [by apply elem_of_nil in Hin|].
  apply elem_of_cons in Hin as [<-|Hin]; [|by apply IH].
  inversion Hstep as [ps s j X e kk x s1 Hj Hx]; subst.
  assert (os_view s1 !! k = Some o) as Hs1.
  { unfold as_offset in Hev. simpl in Hev. destruct e; simpl in Hev; try done.
    injection Hev as -> -> ->. simpl in Hx. destruct Hx as [[[= ->] ->]|[[=] _]].
    apply GetOrSet_stored. }
  refine (pool_invariant ingest_sem (λ s, os_view s !! k = Some o) _ _ _ _ Hrun Hs1).
  intros X' e' w x' w' Hw Hs. by eapply ingest_sem_keeps.
Qed.
End retries.
