(* ===== verification/BatchProps.v ===== *)
(** * Properties of POST /v1/batch *)
From S2P Require Import Prelude GoStrings GoTime Prog Limits Proto Validate Jwx ToyJwx Json.
From S2P Require Import Token Verify Legacy Redis Quota Enrich Http Batch BatchFacts.
#[local] Open Scope Z_scope.

Section properties.
Context `{J : JWX} `{U : UUIDLib} `{Z0 : Gzip} `{C : BatchCodec}.
Context (order : nat → gmap string (option Value) → list (string * option Value)).
Context (order_ok : ∀ i m, order i m ≡ₚ map_to_list m).

(** C11: an acknowledgement is a durability claim: a 200 is only ever sent after one
    insert that returned without error, its accepted ids are exactly the ids of the
    inserted rows, and together with the rejected ids they are a permutation of the
    ids of the request: no event is lost, duplicated or invented. *)
Theorem ack_means_stored d r tr resp :
  exec any_env (NewBatch order d r) tt tr resp tt → w_status resp = StatusOK →
  ∃ t req rejected rows u,
    decode_batch r = Ok req ∧ inserts tr = [(rows, Ok u)] ∧
    Marshal_BatchResponse {| ReceivedAt := UnixMilli t; Accepted := row_EventID <$> rows;
                             Rejected := rejected |} = Some (w_body resp) ∧
    Event_GetEventId <$> req.(Events) ≡ₚ (row_EventID <$> rows) ++ (rej_EventId <$> rejected).
Proof.
  intros Hexec%NewBatch_exec Hok. by eapply outcome_acked.
Qed.

(** An event only reaches storage as the caller's own: every inserted row carries
    the tenant, install and tier of the verified credential of the request, is the
    enrichment of a storable event of the body under one offset of the caller's
    session, and at most 500 rows are written. *)
Theorem rows_belong_to_the_caller d r tr resp rows a :
  exec any_env (NewBatch order d r) tt tr resp tt → (rows, a) ∈ inserts tr →
  ∃ t claims isLegacy tra req,
    exec any_env (VerifyOrLegacy (F:=IngestE) d.(d_Verifier) r.(r_Authorization) t) tt tra (Ok claims, isLegacy) tt ∧
    decode_batch r = Ok req ∧
    Z.of_nat (length rows) ≤ MaxEventsPerBatch ∧
    ∀ row, row ∈ rows →
      row.(row_TenantID) = claims.(TenantID) ∧ row.(row_InstallID) = claims.(InstallID) ∧
      row.(row_TrustTier) = claims.(TrustTier) ∧
      ∃ e o c, e ∈ req.(Events) ∧ storable e ∧ enrich_Row e claims o t = (row, c) ∧
        (session_key claims e, CandidateOffset req.(SentAt) t, Ok o) ∈ offset_calls tr.
Proof.
  intros Hexec%NewBatch_exec Hin.
  destruct (outcome_rows order order_ok _ _ _ _ _ _ Hexec Hin)
    as (t & claims & isLegacy & tra & req & Hauth & Hd & Hlen & Hrows).
  exists t, claims, isLegacy, tra, req. split_and!; [done..|].
  intros row Hrow. rewrite Forall_forall in Hrows. destruct (Hrows _ Hrow) as (e & o & c & ? & ? & He & ?).
  assert (row.(row_TenantID) = claims.(TenantID) ∧ row.(row_InstallID) = claims.(InstallID) ∧
    row.(row_TrustTier) = claims.(TrustTier)) as (? & ? & ?).
  { unfold enrich_Row in He. destruct (Correct _ _ _). by injection He as <- <-. }
  split_and!; [done..|]. by exists e, o, c.
Qed.

(** C12: storage is written last and only under admission: the insert is the final call
    of the request, after the one quota call, which admitted the batch, and a row is
    durable exactly when the response is a 200 or the 500 of an unencodable reply, so
    no retryable status (401, 413, 429, 503) ever follows a successful write. *)
Theorem insert_is_last_and_admitted d r tr resp rows a :
  exec any_env (NewBatch order d r) tt tr resp tt → (rows, a) ∈ inserts tr →
  (∃ pre qc, tr = pre ++ [Ev (IInsert rows) a] ∧ inserts pre = [] ∧
     quota_calls pre = [qc] ∧ ∃ reason, qc_answer qc = Some (1, reason)) ∧
  (is_ok a = true ↔
     w_status resp = StatusOK ∨ w_status resp = StatusInternalServerError).
Proof.
  intros Hexec%NewBatch_exec Hin.
  destruct (outcome_inserts order _ _ _ _ Hexec) as [(Hno & _)|H];
    [rewrite Hno in Hin; by apply elem_of_nil in Hin|].
  destruct H as (t & claims & isLegacy & req & rejected & valid & rows' & accepted & a' & Hins & Hst).
  rewrite Hins in Hin. apply list_elem_of_singleton in Hin as [= -> ->].
  destruct (stored_calls _ _ _ _ _ _ _ _ _ _ _ _ _ _ Hst) as (pre & lim & res & -> & Hi & Hr & Hq & _).
  destruct Hst as [_ _ _ Hresp]. split.
  - exists pre. eexists. split_and!; [done|done|exact Hq|]. exists res.2. destruct res. simpl in *. by subst.
  - destruct a' as [u|e]; subst resp; simpl; split; try done.
    + intros _. apply respond_status.
    + by intros [?|?].
Qed.

(** The quota is charged at most once per request, with one unit per valid event and
    never less than one, under the caller's own keys; a legacy key is held to its own
    rate, and malformed events are never charged. *)
Theorem quota_charged_once d r tr resp :
  exec any_env (NewBatch order d r) tt tr resp tt →
  quota_calls tr = [] ∨
  ∃ t claims isLegacy tra req rejected valid lim a,
    exec any_env (VerifyOrLegacy (F:=IngestE) d.(d_Verifier) r.(r_Authorization) t) tt tra (Ok claims, isLegacy) tt ∧
    decode_batch r = Ok req ∧
    quota_calls tr = [ {| qc_rate_key := rateKey claims t; qc_day_key := dayKey claims t;
      qc_n := 1 `max` Z.of_nat (length valid);
      qc_rps := if isLegacy : bool then lim.(LegacyRPS) else lim.(RPS);
      qc_daily := lim.(DailyEvents); qc_answer := a |} ] ∧
    (length valid + length rejected = length req.(Events))%nat ∧
    Forall storable valid ∧
    Forall (λ rej, ∃ e, e ∈ req.(Events) ∧ violates e (rej_Code rej)) rejected.
Proof.
  intros Hexec%NewBatch_exec.
  destruct Hexec as [t tra e isLegacy Ha|t tra claims isLegacy resp Ha Hd|
    t tra claims isLegacy req rejected valid trb resp Ha Hd Hv Hout].
  - left. by destruct (auth_silent _ _ _ _ _ Ha) as (_ & _ & Hq & _).
  - left. by destruct (auth_silent _ _ _ _ _ Ha) as (_ & _ & Hq & _).
  - destruct (prefix_calls _ _ _ _ _ d isLegacy claims req trb Ha) as (_ & _ & -> & _).
    pose proof (validate_all_spec order order_ok 0 (Events req)) as Hval. rewrite Hv in Hval.
    destruct Hval as (Hstor & _ & Hrej & Hperm & _).
    assert ((length valid + length rejected)%nat = length (Events req)) as Hlen.
    { apply Permutation_length in Hperm. rewrite length_app, !length_fmap in Hperm. lia. }
    assert (Forall (λ rej, ∃ e, e ∈ req.(Events) ∧ violates e (rej_Code rej)) rejected) as Hrej'.
    { eapply Forall_impl; [exact Hrej|]. intros rej (e & ? & _ & ?). by exists e. }
    assert (quota_calls trb = [] ∨ ∃ lim a, quota_calls trb = [ {| qc_rate_key := rateKey claims t;
      qc_day_key := dayKey claims t; qc_n := chargeUnits valid;
      qc_rps := RPS (effective_limits isLegacy lim);
      qc_daily := DailyEvents (effective_limits isLegacy lim); qc_answer := a |} ]) as [Hq|Hq].
    { destruct Hout as [e|lim|lim res Hal|lim res trs resp Hal Hs]; [by left|right..].
      - by exists lim, None.
      - by exists lim, (Some res).
      - exists lim, (Some res). unfold quota_calls. simpl. f_equal.
        destruct Hs as [tro He|tro rows accepted e He|tro rows accepted u He];
          destruct (inserts_enriched _ _ _ _ _ _ _ _ He) as [_ Hq]; [done|..];
          unfold quota_calls in Hq; by rewrite omap_app, Hq. }
    { by left. }
    right. destruct Hq as (lim & a & Hq).
    exists t, claims, isLegacy, tra, req, rejected, valid, lim, a.
    rewrite Hq. split_and!; [done|done| |done|done|done]. do 2 f_equal.
    + unfold chargeUnits. case_bool_decide; lia.
    + by destruct isLegacy.
    + by destruct isLegacy.
Qed.

(** What [respond] makes of a reply. *)
Lemma respond_cases reply (P : BatchResponse → Prop) :
  P reply →
  (w_status (respond reply) = 500 ∧ ∃ reply, P reply ∧ Marshal_BatchResponse reply = None) ∨
  (w_status (respond reply) = 200 ∧ ∃ reply', P reply' ∧
    Marshal_BatchResponse reply' = Some (w_body (respond reply))).
Proof.
  intros HP. unfold respond. destruct (Marshal_BatchResponse reply) as [out|] eqn:Hm; [right|left];
    (split; [done|]); by exists reply.
Qed.

(** A batch of which all was stored, and the reply that says so. *)
Definition stored_with_reply (tr : list (event IngestE)) (reply : BatchResponse) : Prop :=
  ∃ rows u, inserts tr = [(rows, Ok u)] ∧ reply.(Accepted) = row_EventID <$> rows.

Lemma stored_reply d claims req t offsets valid tr tro rows accepted u rejected :
  enriched d claims req.(SentAt) t offsets valid tro (Some (rows, accepted)) →
  inserts tr = inserts (tro ++ [Ev (IInsert rows) (Ok u)]) →
  stored_with_reply tr
    {| ReceivedAt := UnixMilli t; Accepted := accepted; Rejected := rejected |}.
Proof.
  intros He Htr. exists rows, u. destruct (inserts_enriched _ _ _ _ _ _ _ _ He) as [Hi _].
  split; [rewrite Htr; unfold inserts in *; by rewrite omap_app, Hi|].
  destruct He as (_ & _ & _ & -> & offs & _ & -> & _). by destruct (rows_of_facts claims t offs valid) as [-> _].
Qed.

(** C13: the statuses mean what the SDK keys its retries on, each with its own cause.
    401: the credential was refused, and nothing but authentication was done.  400: the
    credential was good and the body could not be read or is no batch; 413: it is over a
    size limit; neither makes a limit, quota, offset or storage call.  429: the quota
    refused; Retry-After is at least one second, and nothing was written.  503: a
    dependency answered with an error.  500: everything was stored, but the reply cannot
    be encoded.  200: everything was stored, and the body is the encoded reply with the
    accepted ids.  There is no other status. *)
Theorem status_contract d r tr resp :
  exec any_env (NewBatch order d r) tt tr resp tt →
  let nothing_written := inserts tr = [] ∧ offset_calls tr = [] in
  let authenticated res := ∃ t tra l,
    exec any_env (VerifyOrLegacy (F:=IngestE) d.(d_Verifier) r.(r_Authorization) t) tt tra (res, l) tt in
  (w_status resp = 401 ∧ nothing_written ∧ quota_calls tr = [] ∧ ∃ e, authenticated (Err e)) ∨
  (w_status resp = 400 ∧ nothing_written ∧ quota_calls tr = [] ∧ (∃ c, authenticated (Ok c)) ∧ unreadable r) ∨
  (w_status resp = 413 ∧ nothing_written ∧ quota_calls tr = [] ∧ (∃ c, authenticated (Ok c)) ∧ oversized r) ∨
  (w_status resp = 429 ∧ nothing_written ∧
    ∃ t res secs, qc_answer <$> quota_calls tr = [Some res] ∧ res.1 ≠ 1 ∧
      w_headers resp !! "Retry-After" = Some (pretty secs) ∧
      secs = SecondsInt (RetryAfter (decision t res)) + 1 ∧ 1 ≤ secs ≤ 86401) ∨
  (w_status resp = 503 ∧
    (Exists (λ ev, ∃ claims e, ev = limits_event claims (Err e)) tr ∨
     None ∈ qc_answer <$> quota_calls tr ∨
     (∃ k c e, (k, c, Err e) ∈ offset_calls tr) ∨
     (∃ rows e, (rows, Err e) ∈ inserts tr))) ∨
  (w_status resp = 500 ∧ ∃ reply, stored_with_reply tr reply ∧ Marshal_BatchResponse reply = None) ∨
  (w_status resp = 200 ∧ ∃ reply, stored_with_reply tr reply ∧
    Marshal_BatchResponse reply = Some (w_body resp)).
Proof.
  intros Hexec%NewBatch_exec nothing_written authenticated. unfold nothing_written, authenticated.
  destruct Hexec as [t tra e isLegacy Ha|t tra claims isLegacy resp Ha Hd|
    t tra claims isLegacy req rejected valid trb resp Ha Hd Hv Hout].
  - destruct (auth_silent _ _ _ _ _ Ha) as (Ho & Hi & Hq & _).
    left. split_and!; [done..|]. by exists e, t, tra, isLegacy.
  - destruct (auth_silent _ _ _ _ _ Ha) as (Ho & Hi & Hq & _).
    pose proof (decode_batch_cases r) as Hc. rewrite Hd in Hc. right.
    assert (∃ c t tra l, exec any_env (VerifyOrLegacy (F:=IngestE) d.(d_Verifier) r.(r_Authorization) t)
      tt tra (Ok c, l) tt) as Hauth by by exists claims, t, tra, isLegacy.
    destruct Hc as [[Hst Hc]|[Hst Hc]]; [left|right; left]; by split_and!.
  - destruct (prefix_calls _ _ _ _ _ d isLegacy claims req trb Ha) as (Ho & Hi & Hq & _).
    rewrite Ho, Hi, Hq. do 3 right. destruct Hout as [e|lim|lim res Hal|lim res trs resp Hal Hs].
    + right; left. split; [done|]. left.
      apply Exists_cons. right. rewrite !Exists_app. right; right.
      apply Exists_cons. left. by exists claims, e.
    + right; left. split; [done|]. right; left. left.
    + left. split_and!; [done..|].
      exists t, res, (SecondsInt (RetryAfter (decision t res)) + 1).
      split_and!; [done| |done|done| |]; [|apply denied_retry_range; done..].
      intros H. unfold decision in Hal. by rewrite H in Hal.
    + destruct Hs as [tro He|tro rows accepted e He|tro rows accepted u He].
      * right; left. split; [done|]. right; right; left.
        destruct He as (_ & _ & _ & k & c & x & Hin). by exists k, c, x.
      * right; left. split; [done|]. right; right; right.
        exists rows, e. unfold inserts. simpl. rewrite omap_app. apply elem_of_app. right. left.
      * do 2 right. apply respond_cases. eapply stored_reply; [exact He|exact Hi].
Qed.

(** a batch makes one offset round-trip per session: no session is asked for twice,
    every asked session is one of the caller's tenant and of a valid event, and every
    call carries the same first-contact estimate. *)
Theorem one_offset_call_per_session d r tr resp :
  exec any_env (NewBatch order d r) tt tr resp tt →
  NoDup (offset_calls tr).*1.*1 ∧
  (offset_calls tr = [] ∨ ∃ t claims isLegacy tra req,
    exec any_env (VerifyOrLegacy (F:=IngestE) d.(d_Verifier) r.(r_Authorization) t) tt tra
      (Ok claims, isLegacy) tt ∧
    decode_batch r = Ok req ∧
    Forall (λ kca, kca.1.1.(sk_TenantID) = claims.(TenantID) ∧
                   kca.1.2 = CandidateOffset req.(SentAt) t ∧
                   ∃ e, e ∈ req.(Events) ∧ storable e ∧ kca.1.1 = session_key claims e)
      (offset_calls tr)).
Proof.
  intros Hexec%NewBatch_exec%outcome_offsets.
  destruct Hexec as [->|H]; [split; [constructor|by left]|].
  destruct H as (t & claims & isLegacy & tra & req & rejected & valid & tro & res & Ha & Hd & Hv & He & ->).
  destruct He as (_ & Hnd & Hf & _). split; [done|]. right.
  exists t, claims, isLegacy, tra, req. split_and!; [done..|].
  pose proof (validate_all_spec order order_ok 0 (Events req)) as Hval. rewrite Hv in Hval.
  destruct Hval as (Hstor & Hsub & _). rewrite Forall_forall in Hstor.
  eapply Forall_impl; [exact Hf|]. intros [[k c] a] (_ & Hc & e & Hin & Hk). simpl in *.
  split_and!; [by rewrite Hk|done|]. exists e. auto.
Qed.

(** Retries deduplicate: in any interleaving of any number of batch requests over one
    offset store, with faults and lost replies, two rows written for the same event of
    the same session (the same ids, name and device time) get the same sort key and the
    same partition date, unless one was clamped to its own receipt time. *)
Theorem retries_deduplicate {S : Type} `{O : OffsetStore S}
    ps (s : S) log ps' s' d i j ri rj respi respj rowsi rowsj ai aj rowi rowj :
  pool_run ingest_sem (ps, s) log (ps', s') →
  ps !! i = Some (NewBatch order d ri) → ps' !! i = Some (Ret respi) →
  ps !! j = Some (NewBatch order d rj) → ps' !! j = Some (Ret respj) →
  (rowsi, ai) ∈ inserts (calls_of i log) → (rowsj, aj) ∈ inserts (calls_of j log) →
  rowi ∈ rowsi → rowj ∈ rowsj →
  row_TenantID rowi = row_TenantID rowj → row_DeviceID rowi = row_DeviceID rowj →
  row_SessionID rowi = row_SessionID rowj → row_EventID rowi = row_EventID rowj →
  row_Name rowi = row_Name rowj → row_TSClient rowi = row_TSClient rowj →
  row_TS rowi ≠ row_TSReceived rowi → row_TS rowj ≠ row_TSReceived rowj →
  sort_key rowi = sort_key rowj ∧ event_date rowi = event_date rowj.
Proof.
  intros Hrun Hi Hi' Hj Hj' Hini Hinj Hri Hrj Ht Hdev Hses Hid Hname Htsc Hci Hcj.
  assert (∀ n r resp rows a row,
    ps !! n = Some (NewBatch order d r) → ps' !! n = Some (Ret resp) →
    (rows, a) ∈ inserts (calls_of n log) → row ∈ rows → row_TS row ≠ row_TSReceived row →
    ∃ ms o, os_view s' !! {| sk_TenantID := row_TenantID row; sk_DeviceID := row_DeviceID row;
                             sk_SessionID := row_SessionID row |} = Some o ∧
      row_TSClient row = FromUnixMilli ms ∧ row_TS row = FromUnixMilli (add64 ms o)) as Hrow.
  { intros n r resp rows a row Hn Hn' Hin Hr Hc.
    pose proof (pool_local _ _ _ _ _ _ _ _ _ Hrun Hn Hn') as Hexec%NewBatch_exec.
    destruct (outcome_rows order order_ok _ _ _ _ _ _ Hexec Hin)
      as (t & claims & isLegacy & tra & req & _ & _ & _ & Hrows).
    rewrite Forall_forall in Hrows. destruct (Hrows _ Hr) as (e & o & c & _ & _ & He & Hoff).
    exists (Event_GetTsClient e), o.
    assert (os_view s' !! session_key claims e = Some o) as Ho.
    { unfold offset_calls in Hoff. apply list_elem_of_omap in Hoff as (ev & Hev & Has).
      by eapply (pool_offsets _ _ _ n ev _ _ _ Hrun), Has; apply calls_of_elem. }
    unfold enrich_Row in He.
    destruct (Correct_spec (Event_GetTsClient e) o t) as [[_ Hco]|[_ Hco]];
      rewrite Hco in He; injection He as <- <-; [|done]. done. }
  destruct (Hrow i ri respi rowsi ai rowi) as (msi & oi & Hoi & Hmi & Htsi); [done..|].
  destruct (Hrow j rj respj rowsj aj rowj) as (msj & oj & Hoj & Hmj & Htsj); [done..|].
  rewrite Ht, Hdev, Hses, Hoj in Hoi. injection Hoi as ->.
  assert (msi = msj) as -> by (rewrite Hmi, Hmj in Htsc; unfold FromUnixMilli, Millisecond in *; lia).
  unfold sort_key, event_date. by rewrite Ht, Hname, Hid, Htsi, Htsj.
Qed.
End properties.

Section sizes.
Context `{Z0 : Gzip} `{C : BatchCodec}.

(** C24: the size limits are on decompressed bytes and are inclusive, and exceeding one
    is a 413.  A batch is decoded exactly when its body can be read, is a batch and has
    at most 500 events; more than 500 are a 413 "too many events", and a body that is no
    batch is a 400.  An uncompressed body of up to 1 MiB is read whole and one byte more
    is a 413 "batch too large"; a gzip body is read when it inflates to at most 1 MiB and
    is a 413 when it inflates to more, however small it is on the wire. *)
Theorem body_limits r :
  (∀ req, decode_batch r = Ok req ↔ well_sized r req) ∧
  (∀ body req, readBody r = Ok body → Unmarshal_BatchRequest body = Some req →
     500 < Z.of_nat (length req.(Events)) →
     decode_batch r = Err (httpError ∅ 413 "too many events")) ∧
  (∀ body, readBody r = Ok body → Unmarshal_BatchRequest body = None →
     decode_batch r = Err (httpError ∅ 400 "malformed batch envelope")) ∧
  (∀ body, readBody r = Ok body → len body ≤ 1048576) ∧
  (r.(r_ContentEncoding) ≠ "gzip" → r.(r_Body).(s_end) = EOF →
     if bool_decide (len r.(r_Body).(s_bytes) ≤ 1048576)
     then readBody r = Ok r.(r_Body).(s_bytes)
     else decode_batch r = Err (httpError ∅ 413 "batch too large")) ∧
  (∀ zr, r.(r_ContentEncoding) = "gzip" →
     gunzip (MaxBytesReader 1048576 r.(r_Body)) = Ok zr →
     if bool_decide (len zr.(s_bytes) ≤ 1048576)
     then zr.(s_end) = EOF → readBody r = Ok zr.(s_bytes)
     else decode_batch r = Err (httpError ∅ 413 "batch too large")).
Proof.
  split_and!.
  - intros req. split.
    + intros Hd. pose proof (decode_batch_cases r) as Hc. by rewrite Hd in Hc.
    + intros (body & Hb & Hu & Hlen). unfold decode_batch. rewrite Hb, Hu.
      by rewrite bool_decide_false by (change MaxEventsPerBatch with 500; lia).
  - intros body req Hb Hu Hlen. unfold decode_batch. rewrite Hb, Hu.
    by rewrite bool_decide_true by (change MaxEventsPerBatch with 500; lia).
  - intros body Hb Hu. unfold decode_batch. by rewrite Hb, Hu.
  - intros body Hb%readBody_bound. by rewrite MaxBatchBytes_eq in Hb.
  - intros Hg He. pose proof (readBody_plain _ Hg) as Hb. rewrite He, MaxBatchBytes_eq in Hb.
    destruct (decide (len r.(r_Body).(s_bytes) ≤ 1048576)) as [Hl|Hl].
    + rewrite bool_decide_true by done. by rewrite bool_decide_false in Hb by lia.
    + rewrite bool_decide_false by done. rewrite bool_decide_true in Hb by lia.
      unfold decode_batch. by rewrite Hb.
  - intros zr Hg Hz. rewrite <-MaxBatchBytes_eq in Hz. pose proof (readBody_gzip _ _ Hg Hz) as Hb.
    rewrite MaxBatchBytes_eq in Hb. destruct (decide (len zr.(s_bytes) ≤ 1048576)) as [Hl|Hl].
    + rewrite bool_decide_true by done. intros He. by rewrite bool_decide_false, He in Hb by lia.
    + rewrite bool_decide_false by done. rewrite bool_decide_true in Hb by lia. unfold decode_batch. by rewrite Hb.
Qed.
End sizes.

(** ** Witnesses *)

(** A gzip stand-in with a two-byte header, and a codec that knows one body. *)
#[export] Instance ToyGzip : Gzip := λ s,
  match CutPrefix s.(s_bytes) "z:" with
  | Some rest => Ok {| s_bytes := rest; s_end := s.(s_end) |}
  | None => Err OtherErr
  end.

Definition toy_invalid : option Event := Some {|
  ev_EventId := "not-a-uuid"; ev_Name := "n"; ev_TsClient := UnixMilli toy_received; ev_Seq := 2;
  ev_DeviceId := "d1"; ev_SessionId := "s1"; ev_AnonymousId := ""; ev_UserId := "";
  ev_Props := ∅; ev_Context := None |}.
Definition toy_batch : BatchRequest :=
  {| SentAt := UnixMilli toy_received - 1000; Events := [toy_late; toy_invalid; toy_event toy_id toy_props] |}.
#[export] Instance ToyCodec : BatchCodec := {|
  Unmarshal_BatchRequest body := if bool_decide (body = "batch") then Some toy_batch else None;
  Marshal_BatchResponse resp := Some (Join resp.(Accepted) " " +:+ "|" +:+
    Join (rej_EventId <$> resp.(Rejected)) " ")
|}.

Definition toy_order (i : nat) (m : gmap string (option Value)) := map_to_list m.
Lemma toy_order_ok i m : toy_order i m ≡ₚ map_to_list m.
Proof. done. Qed.

Definition toy_deps : Deps (J:=ToyJWX) :=
  {| d_Verifier := toy_verifier; d_OnClockSkew := true; d_OnLegacyUse := true |}.
Definition toy_request (encoding body : string) : Request := {|
  r_Authorization := "Bearer wk_live_abc"; r_ContentEncoding := encoding;
  r_Body := {| s_bytes := body; s_end := EOF |} |}.

(** Dependencies in a fixed state; the quota answers [q]. *)
Definition toy_world (q : Z * string) (X : Type) (e : IngestE (J:=ToyJWX) X) (w : ()) : X * () :=
  match e in IngestE X return X * () with
  | INow => (toy_received, w)
  | IKey e => (match e in KeyE X return X with EKey _ _ => Err ErrUnknownKID end, w)
  | ILegacy e => (match e in LegacyE X return X with EResolve _ => Ok ("t1", ModeDualAccept) end, w)
  | IOnLegacyUse _ _ | IOnClockSkew _ _ => (tt, w)
  | ILimitsFor _ _ => (Ok DefaultQuota, w)
  | IQuota e => (match e in QuotaE X return X with
                 | EAllow _ _ _ _ _ _ _ => Some q
                 | EClientRate _ _ => None
                 end, w)
  | IGetOrSet _ c => (Ok c, w)
  | IInsert _ => (Ok tt, w)
  end.

Definition toy_run (q : Z * string) :=
  run (toy_world q) (NewBatch toy_order toy_deps (toy_request "gzip" "z:batch")) tt.

Lemma toy_run_exec q :
  exec any_env (NewBatch toy_order toy_deps (toy_request "gzip" "z:batch")) tt
    (toy_run q).1.1 (toy_run q).1.2 tt.
Proof. eapply exec_any, run_exec. Qed.

Lemma ack_means_stored_witness :
  let out := toy_run (1, "") in
  w_body out.1.2 = toy_id +:+ " " +:+ toy_id +:+ "|not-a-uuid" ∧
  ∃ t req rejected rows u,
    decode_batch (toy_request "gzip" "z:batch") = Ok req ∧ inserts out.1.1 = [(rows, Ok u)] ∧
    Marshal_BatchResponse {| ReceivedAt := UnixMilli t; Accepted := row_EventID <$> rows;
                             Rejected := rejected |} = Some (w_body out.1.2) ∧
    Event_GetEventId <$> req.(Events) ≡ₚ (row_EventID <$> rows) ++ (rej_EventId <$> rejected).
Proof.
  intros out. split; [by vm_compute|].
  apply (ack_means_stored toy_order toy_order_ok toy_deps (toy_request "gzip" "z:batch")
    out.1.1 out.1.2); [apply toy_run_exec|by vm_compute].
Defined.

Definition toy_batch_rows (tr : list (event (IngestE (J:=ToyJWX)))) : list Row :=
  default [] (fst <$> head (inserts tr)).

Lemma toy_batch_inserts :
  inserts (toy_run (1, "")).1.1 = [(toy_batch_rows (toy_run (1, "")).1.1, Ok ())].
Proof. vm_compute. reflexivity. Qed.

Lemma rows_belong_to_the_caller_witness :
  let tr := (toy_run (1, "")).1.1 in
  (row_InstallID <$> toy_batch_rows tr) = ["legacy-9196f19b6111c13f"; "legacy-9196f19b6111c13f"] ∧
  ∃ t claims isLegacy tra req,
    exec any_env (VerifyOrLegacy (F:=IngestE) toy_verifier "Bearer wk_live_abc" t) tt tra
      (Ok claims, isLegacy) tt ∧
    decode_batch (toy_request "gzip" "z:batch") = Ok req ∧
    Z.of_nat (length (toy_batch_rows tr)) ≤ MaxEventsPerBatch ∧
    ∀ row, row ∈ toy_batch_rows tr →
      row.(row_TenantID) = claims.(TenantID) ∧ row.(row_InstallID) = claims.(InstallID) ∧
      row.(row_TrustTier) = claims.(TrustTier) ∧
      ∃ e o c, e ∈ req.(Events) ∧ storable e ∧ enrich_Row e claims o t = (row, c) ∧
        (session_key claims e, CandidateOffset req.(SentAt) t, Ok o) ∈ offset_calls tr.
Proof.
  intros tr. split; [vm_compute; reflexivity|].
  apply (rows_belong_to_the_caller toy_order toy_order_ok toy_deps (toy_request "gzip" "z:batch")
    tr (toy_run (1, "")).1.2 (toy_batch_rows tr) (Ok ())); [apply toy_run_exec|].
  unfold tr. rewrite toy_batch_inserts. left.
Defined.

Lemma insert_is_last_and_admitted_witness :
  let tr := (toy_run (1, "")).1.1 in
  (∃ pre qc, tr = pre ++ [Ev (IInsert (toy_batch_rows tr)) (Ok ())] ∧ inserts pre = [] ∧
     quota_calls pre = [qc] ∧ ∃ reason, qc_answer qc = Some (1, reason)) ∧
  (is_ok (Ok (E:=()) ()) = true ↔
     w_status (toy_run (1, "")).1.2 = StatusOK ∨
     w_status (toy_run (1, "")).1.2 = StatusInternalServerError).
Proof.
  intros tr.
  apply (insert_is_last_and_admitted toy_order toy_deps (toy_request "gzip" "z:batch")
    tr (toy_run (1, "")).1.2 (toy_batch_rows tr) (Ok ())); [apply toy_run_exec|].
  unfold tr. rewrite toy_batch_inserts. left.
Defined.

Lemma quota_charged_once_witness :
  let tr := (toy_run (1, "")).1.1 in
  (λ qc, (qc_n qc, qc_rps qc)) <$> quota_calls tr = [(2, 5)] ∧
  (quota_calls tr = [] ∨
   ∃ t claims isLegacy tra req rejected valid lim a,
    exec any_env (VerifyOrLegacy (F:=IngestE) toy_verifier "Bearer wk_live_abc" t) tt tra
      (Ok claims, isLegacy) tt ∧
    decode_batch (toy_request "gzip" "z:batch") = Ok req ∧
    quota_calls tr = [ {| qc_rate_key := rateKey claims t; qc_day_key := dayKey claims t;
      qc_n := 1 `max` Z.of_nat (length valid);
      qc_rps := if isLegacy : bool then lim.(LegacyRPS) else lim.(RPS);
      qc_daily := lim.(DailyEvents); qc_answer := a |} ] ∧
    (length valid + length rejected = length req.(Events))%nat ∧
    Forall storable valid ∧
    Forall (λ rej, ∃ e, e ∈ req.(Events) ∧ violates e (rej_Code rej)) rejected).
Proof.
  intros tr. split; [vm_compute; reflexivity|].
  apply (quota_charged_once toy_order toy_order_ok toy_deps (toy_request "gzip" "z:batch")
    tr (toy_run (1, "")).1.2). apply toy_run_exec.
Defined.

(** A daily denial at 10:00 UTC asks for the 14 hours to midnight. *)
Lemma status_contract_witness :
  let out := toy_run (0, "daily_quota") in
  w_status out.1.2 = 429 ∧
  w_headers out.1.2 !! "Retry-After" = Some "50401" ∧
  ∃ t res secs, qc_answer <$> quota_calls out.1.1 = [Some res] ∧ res.1 ≠ 1 ∧
    w_headers out.1.2 !! "Retry-After" = Some (pretty secs) ∧
    secs = SecondsInt (RetryAfter (decision t res)) + 1 ∧ 1 ≤ secs ≤ 86401.
Proof.
  intros out. assert (w_status out.1.2 = 429) as Hst by (vm_compute; reflexivity).
  split; [exact Hst|]. split; [vm_compute; reflexivity|].
  destruct (status_contract toy_order toy_deps (toy_request "gzip" "z:batch") out.1.1 out.1.2)
    as [[H _]|[[H _]|[[H _]|[(_ & _ & H)|[[H _]|[[H _]|[H _]]]]]]]; [apply toy_run_exec| | | |exact H| | |];
    rewrite Hst in H; discriminate H.
Defined.

Lemma one_offset_call_per_session_witness :
  let tr := (toy_run (1, "")).1.1 in
  length (offset_calls tr) = 1%nat ∧ NoDup (offset_calls tr).*1.*1.
Proof.
  intros tr. split; [vm_compute; reflexivity|].
  apply (one_offset_call_per_session toy_order toy_order_ok toy_deps
    (toy_request "gzip" "z:batch") tr (toy_run (1, "")).1.2). apply toy_run_exec.
Defined.

Lemma body_limits_witness :
  readBody (toy_request "" "batch") = Ok "batch" ∧
  (∀ req, decode_batch (toy_request "" "batch") = Ok req ↔ well_sized (toy_request "" "batch") req).
Proof.
  pose proof (body_limits (toy_request "" "batch")) as (H1 & _ & _ & _ & H2 & _).
  split; [|exact H1]. apply H2; [done|reflexivity].
Defined.

(** Two deliveries of the batch, an hour apart, over one offset store. *)
Definition retry_world (t : Time) (X : Type) (e : IngestE (J:=ToyJWX) X) (s : gmap SessionKey Z) :
    X * gmap SessionKey Z :=
  match e in IngestE X return X * gmap SessionKey Z with
  | INow => (t, s)
  | IGetOrSet k c => (Ok (GetOrSet k c s).1, (GetOrSet k c s).2)
  | e => ((toy_world (1, "") _ e tt).1, s)
  end.

Lemma retry_world_sem t X (e : IngestE X) s x s' :
  det (retry_world t) X e s x s' → ingest_sem X e s x s'.
Proof.
  unfold det. intros H. destruct e; simpl in H; try (injection H as <- <-; done).
  injection H as <- <-. by left.
Qed.

Definition toy_delivery : Prog (IngestE (J:=ToyJWX)) Response :=
  NewBatch toy_order toy_deps (toy_request "gzip" "z:batch").
Definition delivery1 := run (retry_world toy_received) toy_delivery ∅.
Definition delivery2 := run (retry_world (toy_received + Hour)) toy_delivery delivery1.2.
Definition delivery_log := (pair 0%nat <$> delivery1.1.1) ++ (pair 1%nat <$> delivery2.1.1).

Lemma deliveries_run :
  pool_run ingest_sem ([toy_delivery; toy_delivery], ∅) delivery_log
    ([Ret delivery1.1.2; Ret delivery2.1.2], delivery2.2).
Proof.
  eapply pool_run_app.
  - apply (exec_pool ingest_sem [toy_delivery; toy_delivery] 0 toy_delivery); [done|].
    eapply exec_weaken; [apply (retry_world_sem toy_received)|apply run_exec].
  - apply (exec_pool ingest_sem [Ret delivery1.1.2; toy_delivery] 1 toy_delivery); [done|].
    eapply exec_weaken; [apply (retry_world_sem (toy_received + Hour))|apply run_exec].
Qed.

Lemma delivery_calls :
  calls_of 0 delivery_log = delivery1.1.1 ∧ calls_of 1 delivery_log = delivery2.1.1.
Proof.
  unfold delivery_log. rewrite !calls_of_app, !calls_of_own, !calls_of_other by done.
  by rewrite app_nil_r.
Qed.

(** The row of the first event of a delivery. *)
Definition first_row (tr : list (event (IngestE (J:=ToyJWX)))) : option Row :=
  head (toy_batch_rows tr).

Lemma retries_deduplicate_witness :
  ∃ row1 row2, first_row delivery1.1.1 = Some row1 ∧ first_row delivery2.1.1 = Some row2 ∧
    row_TSReceived row1 ≠ row_TSReceived row2 ∧
    sort_key row1 = sort_key row2 ∧ event_date row1 = event_date row2.
Proof.
  destruct (first_row delivery1.1.1) as [row1|] eqn:H1; [|by vm_compute in H1].
  destruct (first_row delivery2.1.1) as [row2|] eqn:H2; [|by vm_compute in H2].
  exists row1, row2. split; [done|]. split; [done|].
  destruct delivery_calls as [Hc1 Hc2].
  assert (inserts delivery1.1.1 = [(toy_batch_rows delivery1.1.1, Ok ())]) as Hi1
    by (vm_compute; reflexivity).
  assert (inserts delivery2.1.1 = [(toy_batch_rows delivery2.1.1, Ok ())]) as Hi2
    by (vm_compute; reflexivity).
  assert (row1 ∈ toy_batch_rows delivery1.1.1) as Hin1 by by apply head_Some_elem_of.
  assert (row2 ∈ toy_batch_rows delivery2.1.1) as Hin2 by by apply head_Some_elem_of.
  assert ((toy_batch_rows delivery1.1.1, Ok ()) ∈ inserts (calls_of 0 delivery_log)) as Hs1
    by (rewrite Hc1, Hi1; left).
  assert ((toy_batch_rows delivery2.1.1, Ok ()) ∈ inserts (calls_of 1 delivery_log)) as Hs2
    by (rewrite Hc2, Hi2; left).
  vm_compute in H1. vm_compute in H2. injection H1 as <-. injection H2 as <-.
  split; [done|].
  match type of Hin1 with ?r ∈ _ => assert (row_TS r ≠ row_TSReceived r) as Hne1 by done end.
  match type of Hin2 with ?r ∈ _ => assert (row_TS r ≠ row_TSReceived r) as Hne2 by done end.
  exact (retries_deduplicate toy_order toy_order_ok [toy_delivery; toy_delivery] ∅ delivery_log
    [Ret delivery1.1.2; Ret delivery2.1.2] delivery2.2 toy_deps 0 1
    (toy_request "gzip" "z:batch") (toy_request "gzip" "z:batch") delivery1.1.2 delivery2.1.2
    (toy_batch_rows delivery1.1.1) (toy_batch_rows delivery2.1.1) (Ok ()) (Ok ()) _ _
    deliveries_run eq_refl eq_refl eq_refl eq_refl Hs1 Hs2 Hin1 Hin2
    eq_refl eq_refl eq_refl eq_refl eq_refl eq_refl Hne1 Hne2).
Defined.
