(* ===== verification/ControlPlane.v ===== *)
(** * Package controlplane, store.go: tenants, limits and installs

    The tables are finite maps from their primary key; each SQL statement of the
    code is a function on them, with the unique indexes and foreign keys of
    migrations/postgres deciding its outcome.  [pgx.ErrNoRows] is [ErrNotFound]. *)
From S2P Require Import Prelude GoStrings Limits Crypto.
#[local] Open Scope Z_scope.

(** ** The schema *)

Record ClientRow := {
  c_tenant : string;
  c_revoked : bool;                     (* revoked_at IS NOT NULL *)
  c_legacy_hash : option (list Z)
}.
Record QuotaRow := { q_daily : Z; q_rps0 : Z; q_rps1 : Z; q_rps_legacy : Z }.
Record InstallRow := {
  i_tenant : string;
  i_platform : string;
  i_tier : Z;
  i_subject : option string;
  i_device_key : string
}.
Record DB := {
  tenants : gmap string string;         (* legacy_key_mode *)
  client_ids : gmap string ClientRow;
  quotas : gmap string QuotaRow;
  installs : gmap string InstallRow
}.

Definition set_installs (db : DB) (m : gmap string InstallRow) : DB := {|
  tenants := db.(tenants); client_ids := db.(client_ids); quotas := db.(quotas); installs := m |}.

Inductive db_err := ErrNotFound | ErrConstraint.

(** [SELECT ... WHERE p LIMIT 1]: a row that satisfies [p]. *)
Definition select_one {A} (p : string → A → bool) (m : gmap string A) : option (string * A) :=
  snd <$> list_find (λ kv, p kv.1 kv.2 = true) (map_to_list m).

(** ** Queries *)

(** [s.ResolveTenant(ctx, clientID)] *)
Definition ResolveTenant (db : DB) (clientID : string) : result db_err string :=
  match db.(client_ids) !! clientID with
  | Some row => if row.(c_revoked) then Err ErrNotFound else Ok row.(c_tenant)
  | None => Err ErrNotFound
  end.

(** [s.LimitsFor(ctx, tenantID, tier)] *)
Definition LimitsFor (db : DB) (tenantID : string) (tier : Z) : result db_err Quota :=
  let '(lim, rps0, rps1) :=
    match db.(quotas) !! tenantID with
    | Some q => ({| DailyEvents := q.(q_daily); RPS := 0; LegacyRPS := q.(q_rps_legacy) |},
                 q.(q_rps0), q.(q_rps1))
    | None => (DefaultQuota, DefaultQuota.(RPS), DefaultRPSTier1)
    end in
  let lim := with_RPS lim rps0 in
  Ok (if bool_decide (tier = 1) then with_RPS lim rps1 else lim).

(** [s.ResolveLegacy(ctx, key)]: the unrevoked client row with the key's digest,
    joined with its tenant. *)
Definition ResolveLegacy (db : DB) (key : string) : result db_err (string * string) :=
  let sum := Sum256 key in
  let joined (_ : string) (row : ClientRow) :=
    bool_decide (row.(c_legacy_hash) = Some sum) && negb row.(c_revoked) &&
    bool_decide (is_Some (db.(tenants) !! row.(c_tenant))) in
  match select_one joined db.(client_ids) with
  | Some (_, row) =>
      match db.(tenants) !! row.(c_tenant) with
      | Some mode => Ok (row.(c_tenant), mode)
      | None => Err ErrNotFound
      end
  | None => Err ErrNotFound
  end.

(** ** Installs *)

(** The identity an exchange presents: the attestation subject, or without one the
    device key. *)
Definition same_identity (tenantID subject deviceKey : string) (row : InstallRow) : bool :=
  bool_decide (row.(i_tenant) = tenantID) &&
  (if bool_decide (subject = "")
   then bool_decide (row.(i_subject) = None) && bool_decide (row.(i_device_key) = deviceKey)
   else bool_decide (row.(i_subject) = Some subject)).

Definition with_tier (row : InstallRow) (tier : Z) : InstallRow := {|
  i_tenant := row.(i_tenant); i_platform := row.(i_platform); i_tier := tier;
  i_subject := row.(i_subject); i_device_key := row.(i_device_key) |}.

(** [s.IssueInstall(...)] with the random [newID]: INSERT ... ON CONFLICT on the
    partial index of the presented identity DO UPDATE SET trust_tier RETURNING
    install_id.  Another constraint is an error. *)
Definition IssueInstall (db : DB) (tenantID platform subject deviceKey : string) (tier : Z)
    (newID : list Z) : result db_err (string * DB) :=
  let candidate := "ins_" +:+ hex_encode newID in
  match select_one (λ _, same_identity tenantID subject deviceKey) db.(installs) with
  | Some (id, row) => Ok (id, set_installs db (<[id := with_tier row tier]> db.(installs)))
  | None =>
      if bool_decide (is_Some (db.(installs) !! candidate)) then Err ErrConstraint
      else if negb (bool_decide (is_Some (db.(tenants) !! tenantID))) then Err ErrConstraint
      else
        let row := {| i_tenant := tenantID; i_platform := platform; i_tier := tier;
                      i_subject := if bool_decide (subject = "") then None else Some subject;
                      i_device_key := deviceKey |} in
        Ok (candidate, set_installs db (<[candidate := row]> db.(installs)))
  end.

(** ** Facts *)

Lemma select_one_Some {A} p (m : gmap string A) k v :
  select_one p m = Some (k, v) → m !! k = Some v ∧ p k v = true.
Proof.
  unfold select_one. intros H. apply fmap_Some in H as ([i [k' v']] & Hf & [= <- <-]).
  apply list_find_Some in Hf as (Hl & Hp & _). split; [|done].
  by apply list_elem_of_lookup_2, elem_of_map_to_list in Hl.
Qed.

Lemma select_one_None {A} p (m : gmap string A) :
  select_one p m = None ↔ ∀ k v, m !! k = Some v → p k v = false.
Proof.
  unfold select_one. rewrite fmap_None, list_find_None, Forall_forall. split.
  - intros H k v Hk. apply elem_of_map_to_list in Hk. specialize (H _ Hk). simpl in H.
    by destruct (p k v).
  - intros H [k v] Hk%elem_of_map_to_list. simpl. by rewrite (H k v Hk).
Qed.

Lemma select_one_unique {A} p (m : gmap string A) k v :
  m !! k = Some v → p k v = true →
  (∀ k' v', m !! k' = Some v' → p k' v' = true → k' = k) →
  select_one p m = Some (k, v).
Proof.
  intros Hk Hp Hu. destruct (select_one p m) as [[k' v']|] eqn:Hs.
  - apply select_one_Some in Hs as [Hk' Hp']. pose proof (Hu _ _ Hk' Hp') as ->. congruence.
  - rewrite select_one_None in Hs. specialize (Hs _ _ Hk). congruence.
Qed.

(** The partial unique indexes: one install per tenant and attested subject, and one
    per tenant and device key without a subject. *)
Definition identity_of (row : InstallRow) : string * option string * string :=
  (row.(i_tenant), row.(i_subject),
   match row.(i_subject) with Some _ => "" | None => row.(i_device_key) end).

Definition installs_ok (m : gmap string InstallRow) : Prop :=
  (∀ k k' row row', m !! k = Some row → m !! k' = Some row' →
     identity_of row = identity_of row' → k = k') ∧
  (∀ k row, m !! k = Some row → row.(i_subject) ≠ Some "").

(** The identity [IssueInstall] looks for. *)
Definition presented (tenantID subject deviceKey : string) : string * option string * string :=
  (tenantID, if bool_decide (subject = "") then None else Some subject,
   if bool_decide (subject = "") then deviceKey else "").

Lemma same_identity_spec tenantID subject deviceKey row :
  same_identity tenantID subject deviceKey row = true ↔
  identity_of row = presented tenantID subject deviceKey.
Proof.
  unfold same_identity, identity_of, presented.
  rewrite andb_true_iff, bool_decide_eq_true. case_bool_decide as Hs.
  - rewrite andb_true_iff, !bool_decide_eq_true.
    destruct (i_subject row); naive_solver.
  - rewrite bool_decide_eq_true. destruct (i_subject row); naive_solver.
Qed.

Lemma identity_with_tier row tier : identity_of (with_tier row tier) = identity_of row.
Proof. done. Qed.

(** The outcome of an exchange on a well-indexed table. *)
Lemma IssueInstall_spec db tenantID platform subject deviceKey tier newID id db' :
  installs_ok db.(installs) →
  IssueInstall db tenantID platform subject deviceKey tier newID = Ok (id, db') →
  ∃ row, identity_of row = presented tenantID subject deviceKey ∧ row.(i_tier) = tier ∧
    db' = set_installs db (<[id := row]> db.(installs)) ∧
    ((∃ old, db.(installs) !! id = Some old ∧ identity_of old = identity_of row) ∨
     (db.(installs) !! id = None ∧ id = "ins_" +:+ hex_encode newID ∧
      ∀ k old, db.(installs) !! k = Some old → identity_of old ≠ identity_of row)).
Proof.
  intros [Hu Hne] H. unfold IssueInstall in H.
  destruct (select_one _ _) as [[k row]|] eqn:Hs.
  - apply select_one_Some in Hs as [Hk Hid%same_identity_spec]. injection H as <- <-.
    exists (with_tier row tier). split_and!; [done|done|done|]. left. by exists row.
  - rewrite select_one_None in Hs.
    case_bool_decide as Hc; [done|]. destruct (bool_decide (is_Some (tenants db !! tenantID))); [|done].
    cbn [negb] in H. injection H as <- <-.
    eexists. split_and!; cycle 2; [reflexivity| |cycle 1|done].
    + right. split_and!; [by apply eq_None_not_Some|done|].
      intros k old Hk Hid. specialize (Hs k old Hk).
      apply not_true_iff_false in Hs. apply Hs, same_identity_spec. rewrite Hid.
      unfold identity_of, presented. simpl. by case_bool_decide.
    + unfold identity_of, presented. simpl. by case_bool_decide.
Qed.

Lemma IssueInstall_preserves db tenantID platform subject deviceKey tier newID id db' :
  installs_ok db.(installs) →
  IssueInstall db tenantID platform subject deviceKey tier newID = Ok (id, db') →
  installs_ok db'.(installs).
Proof.
  intros Hok H. destruct (IssueInstall_spec _ _ _ _ _ _ _ _ _ Hok H) as (row & Hid & _ & -> & Hold).
  destruct Hok as [Hu Hne]. cbn [installs set_installs].
  assert (∀ k old, db.(installs) !! k = Some old → identity_of old = identity_of row → k = id) as Hrow.
  { intros k old Hk Heq. destruct Hold as [(o & Ho & Hoid)|(_ & _ & Hno)].
    - by apply (Hu k id old o); [..|congruence].
    - by destruct (Hno k old Hk). }
  split.
  - intros k k' r r' Hk Hk' Heq.
    apply lookup_insert_Some in Hk as [[<- <-]|[Hne1 Hk]];
      apply lookup_insert_Some in Hk' as [[<- <-]|[Hne2 Hk']].
    + done.
    + symmetry. by eapply Hrow.
    + by eapply Hrow.
    + by eapply Hu.
  - intros k r Hk. apply lookup_insert_Some in Hk as [[<- <-]|[_ Hk]]; [|by eapply Hne].
    intros Hsub. unfold identity_of, presented in Hid. rewrite Hsub in Hid.
    case_bool_decide; by simplify_eq.
Qed.

(** Ids are never taken away from their identity. *)
Lemma IssueInstall_keeps db tenantID platform subject deviceKey tier newID id db' k row :
  installs_ok db.(installs) →
  IssueInstall db tenantID platform subject deviceKey tier newID = Ok (id, db') →
  db.(installs) !! k = Some row →
  ∃ row', db'.(installs) !! k = Some row' ∧ identity_of row' = identity_of row.
Proof.
  intros Hok H Hk. destruct (IssueInstall_spec _ _ _ _ _ _ _ _ _ Hok H) as (new & _ & _ & -> & Hold).
  cbn [installs set_installs]. destruct (decide (k = id)) as [->|Hne].
  - exists new. rewrite lookup_insert_eq. split; [done|].
    destruct Hold as [(old & Ho & Hoid)|(Hn & _)]; congruence.
  - exists row. by rewrite lookup_insert_ne.
Qed.

(** ** Histories of exchanges *)

Record Exchange := {
  ex_tenant : string; ex_platform : string; ex_subject : string; ex_device_key : string;
  ex_tier : Z; ex_newID : list Z
}.
Definition exchange (db : DB) (x : Exchange) : result db_err (string * DB) :=
  IssueInstall db x.(ex_tenant) x.(ex_platform) x.(ex_subject) x.(ex_device_key) x.(ex_tier)
    x.(ex_newID).
Definition ex_identity (x : Exchange) : string * option string * string :=
  presented x.(ex_tenant) x.(ex_subject) x.(ex_device_key).

(** The successful exchanges so far with the ids they got, newest first.  A failed one
    changes nothing. *)
Inductive exchanges (db0 : DB) : list (Exchange * string) → DB → Prop :=
| ex_none : exchanges db0 [] db0
| ex_more log db x id db' :
    exchanges db0 log db → exchange db x = Ok (id, db') → exchanges db0 ((x, id) :: log) db'.

Lemma exchanges_ok db0 log db :
  installs_ok db0.(installs) → exchanges db0 log db →
  installs_ok db.(installs) ∧
  ∀ x id, (x, id) ∈ log → ∃ row, db.(installs) !! id = Some row ∧ identity_of row = ex_identity x.
Proof.
  intros H0. induction 1 as [|log db x id db' Hrun [Hok IH] Hx].
  { split; [done|]. intros x id Hin. by apply elem_of_nil in Hin. }
  split; [by eapply IssueInstall_preserves|].
  destruct (IssueInstall_spec _ _ _ _ _ _ _ _ _ Hok Hx) as (row & Hid & _ & -> & Hold).
  cbn [installs set_installs]. intros y j [[= -> ->]|Hin]%elem_of_cons.
  - exists row. by rewrite lookup_insert_eq.
  - destruct (IH y j Hin) as (r & Hr & <-).
    exact (IssueInstall_keeps _ _ _ _ _ _ _ _ _ _ _ Hok Hx Hr).
Qed.

(** ** Properties *)

(** C30: an install id is a stable, unforgeable rate-limit bucket: over any history of
    exchanges by any clients, two exchanges get the same id exactly when they present
    the same identity (tenant and attested subject, or tenant and device key without
    one); the platform, the tier and the fresh random id do not matter. *)
Theorem install_identity_is_stable db0 log db x id y id' :
  installs_ok db0.(installs) → exchanges db0 log db →
  (x, id) ∈ log → (y, id') ∈ log →
  id = id' ↔ ex_identity x = ex_identity y.
Proof.
  intros H0 Hrun Hx Hy. destruct (exchanges_ok _ _ _ H0 Hrun) as [[Hu _] Hlog].
  destruct (Hlog _ _ Hx) as (r & Hr & Hrx). destruct (Hlog _ _ Hy) as (r' & Hr' & Hry).
  split.
  - intros ->. congruence.
  - intros Heq. apply (Hu id id' r r'); [done|done|congruence].
Qed.

(** Limits are total and tiered: a tenant without a quota row gets the documented
    default instead of an error, tier 1 always gets the tier-1 rate and every other
    tier the tier-0 rate, and the daily and legacy budgets do not depend on the tier. *)
Theorem LimitsFor_total db tenantID tier :
  ∃ lim, LimitsFor db tenantID tier = Ok lim ∧
  match db.(quotas) !! tenantID with
  | Some q => lim = {| DailyEvents := q.(q_daily);
                       RPS := if bool_decide (tier = 1) then q.(q_rps1) else q.(q_rps0);
                       LegacyRPS := q.(q_rps_legacy) |}
  | None => lim = {| DailyEvents := 1000000;
                     RPS := if bool_decide (tier = 1) then 10 else 50; LegacyRPS := 5 |}
  end.
Proof.
  unfold LimitsFor. destruct (db.(quotas) !! tenantID) as [q|];
    (eexists; split; [done|]); by case_bool_decide.
Qed.

(** A legacy key resolves only through the digest of an unrevoked client row of an
    existing tenant, and revocation or an unknown key is always a refusal. *)
Theorem ResolveLegacy_by_digest db key tenantID mode :
  (ResolveLegacy db key = Ok (tenantID, mode) →
   ∃ id row, db.(client_ids) !! id = Some row ∧ row.(c_legacy_hash) = Some (Sum256 key) ∧
     row.(c_revoked) = false ∧ row.(c_tenant) = tenantID ∧ db.(tenants) !! tenantID = Some mode) ∧
  ((∀ id row, db.(client_ids) !! id = Some row → row.(c_legacy_hash) = Some (Sum256 key) →
     row.(c_revoked) = true) → ResolveLegacy db key = Err ErrNotFound).
Proof.
  unfold ResolveLegacy. split.
  - destruct (select_one _ _) as [[id row]|] eqn:Hs; [|done].
    apply select_one_Some in Hs as [Hid Hp].
    rewrite !andb_true_iff, !bool_decide_eq_true, negb_true_iff in Hp.
    destruct Hp as [[Hh Hr] _]. destruct (tenants db !! c_tenant row) as [m|] eqn:Hm; [|done].
    intros [= <- <-]. by exists id, row.
  - intros Hall. destruct (select_one _ _) as [[id row]|] eqn:Hs; [|done].
    apply select_one_Some in Hs as [Hid Hp].
    rewrite !andb_true_iff, !bool_decide_eq_true, negb_true_iff in Hp.
    destruct Hp as [[Hh Hr] _]. rewrite (Hall id row Hid Hh) in Hr. done.
Qed.

(** ** Witnesses *)

Definition toy_db : DB := {|
  tenants := {[ "t1" := "dual_accept" ]};
  client_ids := {[ "pk_live_demo" :=
    {| c_tenant := "t1"; c_revoked := false; c_legacy_hash := Some (Sum256 "wk_live_abc") |} ]};
  quotas := ∅;
  installs := ∅
|}.
Definition toy_exchange (subject deviceKey : string) (tier : Z) (newID : list Z) : Exchange := {|
  ex_tenant := "t1"; ex_platform := "ios"; ex_subject := subject; ex_device_key := deviceKey;
  ex_tier := tier; ex_newID := newID
|}.

(** A device exchanges, comes back, and then attests. *)
Definition toy_x1 := toy_exchange "" "dev" 1 [1; 2].
Definition toy_x2 := toy_exchange "" "dev" 1 [3; 4].
Definition toy_x3 := toy_exchange "subject" "dev" 0 [5; 6].
Definition toy_history : list (Exchange * string) :=
  [(toy_x3, "ins_0506"); (toy_x2, "ins_0102"); (toy_x1, "ins_0102")].

Lemma toy_history_run : ∃ db, exchanges toy_db toy_history db.
Proof.
  eexists. unfold toy_history.
  eapply ex_more; [eapply ex_more; [eapply ex_more; [apply ex_none|] |] |]; vm_compute; reflexivity.
Defined.

Lemma install_identity_is_stable_witness :
  ("ins_0102" = "ins_0102" ↔ ex_identity toy_x1 = ex_identity toy_x2) ∧
  ("ins_0102" = "ins_0506" ↔ ex_identity toy_x1 = ex_identity toy_x3).
Proof.
  destruct toy_history_run as [db Hrun].
  assert (installs_ok toy_db.(installs)) as H0 by (split; [intros ? ? ? ? [=]|intros ? ? [=]]).
  split; apply (install_identity_is_stable toy_db toy_history db); try done;
    unfold toy_history; repeat first [left|right].
Defined.

Lemma ResolveLegacy_by_digest_witness :
  ResolveLegacy toy_db "wk_live_abc" = Ok ("t1", "dual_accept") ∧
  ∃ id row, toy_db.(client_ids) !! id = Some row ∧
    row.(c_legacy_hash) = Some (Sum256 "wk_live_abc") ∧ row.(c_revoked) = false ∧
    row.(c_tenant) = "t1" ∧ toy_db.(tenants) !! "t1" = Some "dual_accept".
Proof.
  assert (ResolveLegacy toy_db "wk_live_abc" = Ok ("t1", "dual_accept")) as H
    by (vm_compute; reflexivity).
  split; [exact H|]. exact (proj1 (ResolveLegacy_by_digest _ _ _ _) H).
Defined.
