(* ===== verification/Keys.v ===== *)
(** * Package controlplane, keys.go: the signing keys and the published JWKS

    The signing_keys table is shared by all replicas, so its statements are atomic
    calls of a program and replicas interleave.  The bootstrap INSERT ... SELECT is two
    atomic steps, the snapshot of its WHERE NOT EXISTS and the insert that meets the
    unique constraints, which is where replicas can race. *)
From S2P Require Import Prelude GoStrings GoTime Proto Prog Jwx Token Verify Legacy ControlPlane.
#[local] Open Scope Z_scope.

Record KeyRow := {
  k_public : string;
  k_private : string;
  k_active : bool;
  k_retired : bool                      (* retired_at IS NOT NULL *)
}.

(** [active AND retired_at IS NULL] *)
Definition is_active (row : KeyRow) : bool := row.(k_active) && negb row.(k_retired).
Definition active_exists (keys : gmap string KeyRow) : bool :=
  bool_decide (is_Some (select_one (λ _, is_active) keys)).

(** INSERT ... ON CONFLICT DO NOTHING: the rows affected.  The row conflicts on its
    primary key or on the signing_keys_one_active index. *)
Definition insert_key (kid : string) (row : KeyRow) (keys : gmap string KeyRow) : Z * gmap string KeyRow :=
  if bool_decide (is_Some (keys !! kid)) || (is_active row && active_exists keys)
  then (0, keys) else (1, <[kid := row]> keys).

Record SigningKey := { KID : string; Private : string }.

(** [SELECT kid, private_key ... WHERE active AND retired_at IS NULL LIMIT 1] *)
Definition select_active (keys : gmap string KeyRow) : option SigningKey :=
  (λ kr : string * KeyRow, {| KID := kr.1; Private := kr.2.(k_private) |})
  <$> select_one (λ _, is_active) keys.

(** The calls: key generation, and the statements.  A query of many rows answers the
    rows it delivered, and whether it then ended in an error. *)
Inductive KeysE : Type → Type :=
| EGenerateKey : KeysE (result () (string * string))
| EActiveExists : KeysE (result () bool)
| EInsertKey (kid : string) (row : KeyRow) : KeysE (result () Z)
| ESelectActive : KeysE (result () (option SigningKey))
| ESelectPublic : KeysE (result () (list (string * string) * bool)).

Inductive keys_err := KeyNotFound | KeyFailed.

(** [s.ActiveSigningKey(ctx)] *)
Definition ActiveSigningKey : Prog KeysE (result keys_err SigningKey) :=
  k ← Call ESelectActive Ret;
  match k with
  | Err _ => Ret (Err KeyFailed)
  | Ok None => Ret (Err KeyNotFound)
  | Ok (Some k) => Ret (Ok k)
  end.

(** [s.EnsureSigningKey(ctx, kid)] *)
Definition EnsureSigningKey (kid : string) : Prog KeysE (result keys_err ()) :=
  g ← Call EGenerateKey Ret;
  match g with
  | Err _ => Ret (Err KeyFailed)
  | Ok (pub, priv) =>
      let row := {| k_public := pub; k_private := priv; k_active := true; k_retired := false |} in
      ex ← Call EActiveExists Ret;
      match ex with
      | Err _ => Ret (Err KeyFailed)
      | Ok ex =>
          affected ← (if ex : bool then Ret (Ok 0) else Call (EInsertKey kid row) Ret);
          match affected with
          | Err _ => Ret (Err KeyFailed)
          | Ok n =>
              if bool_decide (n > 0) then Ret (Ok ())
              else
                k ← ActiveSigningKey;
                match k with Err e => Ret (Err e) | Ok _ => Ret (Ok ()) end
          end
      end
  end.

(** [SELECT kid, public_key ... WHERE retired_at IS NULL], in any order. *)
Definition published (keys : gmap string KeyRow) : list (string * string) :=
  (λ kr : string * KeyRow, (kr.1, kr.2.(k_public)))
  <$> filter (λ kr, kr.2.(k_retired) = false) (map_to_list keys).

Section jwks.
Context `{J : JWX} `{K : !JWK}.

Definition signing_jwk (kid : string) (key : JKey) : JKey :=
  jwk_Set "use" "sig" (jwk_Set "kid" kid key).

Fixpoint add_keys (rows : list (string * string)) (set : JSet) : option JSet :=
  match rows with
  | [] => Some set
  | (kid, pub) :: rows =>
      match jwk_Import_public pub with
      | None => None
      | Some key =>
          match jwk_AddKey (signing_jwk kid key) set with
          | None => None
          | Some set => add_keys rows set
          end
      end
  end.

(** [s.PublicJWKS(ctx)]; the callers drop a set that comes with an error. *)
Definition PublicJWKS : Prog KeysE (result keys_err JSet) :=
  rows ← Call ESelectPublic Ret;
  match rows with
  | Err _ => Ret (Err KeyFailed)
  | Ok (rows, failed) =>
      match add_keys rows jwk_NewSet with
      | None => Ret (Err KeyFailed)
      | Some set => Ret (if failed : bool then Err KeyFailed else Ok set)
      end
  end.
End jwks.

(** The database: a statement takes effect and answers, or answers an error, having
    taken effect or not.  Generated keys are [genuine] pairs. *)
Definition keys_sem (genuine : string → string → Prop) : semantics KeysE (gmap string KeyRow) :=
  λ X e keys x keys',
    match e in KeysE X return X → Prop with
    | EGenerateKey => λ a, keys' = keys ∧
        match a with Ok (pub, priv) => genuine pub priv | Err _ => True end
    | EActiveExists => λ a, keys' = keys ∧ (a = Ok (active_exists keys) ∨ a = Err ())
    | EInsertKey kid row => λ a,
        (a = Ok (insert_key kid row keys).1 ∧ keys' = (insert_key kid row keys).2) ∨
        (a = Err () ∧ (keys' = keys ∨ keys' = (insert_key kid row keys).2))
    | ESelectActive => λ a, keys' = keys ∧ (a = Ok (select_active keys) ∨ a = Err ())
    | ESelectPublic => λ a, keys' = keys ∧
        match a with
        | Ok (rows, false) => rows ≡ₚ published keys
        | _ => True
        end
    end x.

(** ** The one-active invariant *)

Definition one_active (keys : gmap string KeyRow) : Prop :=
  ∀ kid kid' row row', keys !! kid = Some row → keys !! kid' = Some row' →
    is_active row = true → is_active row' = true → kid = kid'.

Lemma active_exists_spec keys :
  active_exists keys = true ↔ ∃ kid row, keys !! kid = Some row ∧ is_active row = true.
Proof.
  unfold active_exists. rewrite bool_decide_eq_true. split.
  - intros [[kid row] Hs]. apply select_one_Some in Hs. by exists kid, row.
  - intros (kid & row & Hk & Ha). destruct (select_one _ keys) eqn:Hs; [eauto|].
    rewrite select_one_None in Hs. by rewrite (Hs kid row Hk) in Ha.
Qed.

Lemma insert_key_one_active kid row keys :
  one_active keys → one_active (insert_key kid row keys).2.
Proof.
  unfold insert_key. intros Hone. destruct (_ || _) eqn:Hc; [done|]. simpl.
  apply orb_false_iff in Hc as [Hk Hc]. apply bool_decide_eq_false, eq_None_not_Some in Hk.
  intros k k' r r' Hr Hr' Ha Ha'.
  apply lookup_insert_Some in Hr as [[<- <-]|[Hne Hr]];
    apply lookup_insert_Some in Hr' as [[<- <-]|[Hne' Hr']]; [done| | |by eapply Hone].
  - rewrite Ha in Hc. simpl in Hc. apply not_true_iff_false in Hc. destruct Hc.
    apply active_exists_spec. by exists k', r'.
  - rewrite Ha' in Hc. simpl in Hc. apply not_true_iff_false in Hc. destruct Hc.
    apply active_exists_spec. by exists k, r.
Qed.

Lemma insert_key_keeps kid row keys k r :
  keys !! k = Some r → (insert_key kid row keys).2 !! k = Some r.
Proof.
  unfold insert_key. intros Hk. destruct (_ || _) eqn:Hc; [done|]. simpl.
  apply orb_false_iff in Hc as [Hn _]. apply bool_decide_eq_false, eq_None_not_Some in Hn.
  rewrite lookup_insert_ne; [done|]. intros ->. congruence.
Qed.

Lemma select_active_Some keys k :
  select_active keys = Some k →
  ∃ row, keys !! k.(KID) = Some row ∧ is_active row = true ∧ row.(k_private) = k.(Private).
Proof.
  unfold select_active. intros H. apply fmap_Some in H as ([kid row] & Hs & ->).
  apply select_one_Some in Hs as [? ?]. by exists row.
Qed.

Lemma select_active_unique keys kid row :
  one_active keys → keys !! kid = Some row → is_active row = true →
  select_active keys = Some {| KID := kid; Private := row.(k_private) |}.
Proof.
  intros Hone Hk Ha. unfold select_active.
  rewrite (select_one_unique (λ _, is_active) keys kid row); [done..|].
  intros k' r' Hk' Ha'. by apply (Hone k' kid r' row).
Qed.

(** An event that shows an active key in the table. *)
Definition shows_active (ev : event KeysE) : Prop :=
  match ev.(ev_call) in KeysE X return X → Prop with
  | EInsertKey _ row => λ a, is_active row = true ∧ ∃ n, n > 0 ∧ a = Ok n
  | ESelectActive => λ a, ∃ k, a = Ok (Some k)
  | _ => λ _, False
  end ev.(ev_answer).

Lemma ActiveSigningKey_calls tr k :
  exec any_env ActiveSigningKey tt tr (Ok k) tt → tr = [Ev ESelectActive (Ok (Some k))].
Proof.
  unfold ActiveSigningKey. rewrite bind_Call.
  intros (a & [] & tr' & _ & -> & H). rewrite bind_Ret in H.
  by destruct a as [[k'|]|]; destruct H as (-> & [= ->] & _).
Qed.

(** A bootstrap that returns nil has seen an active key, whatever the others did. *)
Lemma EnsureSigningKey_calls kid tr :
  exec any_env (EnsureSigningKey kid) tt tr (Ok ()) tt → ∃ ev, ev ∈ tr ∧ shows_active ev.
Proof.
  unfold EnsureSigningKey. rewrite bind_Call.
  intros (g & [] & tr1 & _ & -> & H). rewrite bind_Ret in H.
  destruct g as [[pub priv]|e]; [|by destruct H as (_ & ? & _)].
  rewrite bind_Call in H. destruct H as (ex & [] & tr2 & _ & -> & H). rewrite bind_Ret in H.
  destruct ex as [ex|e]; [|by destruct H as (_ & ? & _)].
  apply exec_bind in H as (tri & aff & [] & trs & Hi & Hs & ->).
  destruct aff as [n|e]; [|by destruct Hs as (_ & ? & _)].
  case_bool_decide as Hn.
  - destruct ex; [destruct Hi as (_ & [= ->] & _); lia|].
    destruct Hi as (x & [] & tr' & _ & -> & _ & [= <-] & _).
    eexists. split; [do 2 right; apply elem_of_app; left; left|]. split; [done|]. by exists n.
  - apply exec_bind in Hs as (trk & k & [] & tre & Hk & He & ->).
    destruct k as [k|e]; [|by destruct He as (_ & ? & _)].
    apply ActiveSigningKey_calls in Hk as ->.
    eexists. split; [do 2 right; apply elem_of_app; right; left|]. by exists k.
Qed.

(** ** Replicas *)

Section replicas.
Context (genuine : string → string → Prop).

Definition keys_ok (keys : gmap string KeyRow) : Prop :=
  one_active keys ∧ map_Forall (λ _ row, genuine row.(k_public) row.(k_private)) keys.

Lemma keys_sem_keeps X (e : KeysE X) keys x keys' k r :
  keys_sem genuine X e keys x keys' → keys !! k = Some r → keys' !! k = Some r.
Proof.
  intros Hs Hk. destruct e; simpl in Hs; try by destruct Hs as [-> _].
  destruct Hs as [[_ ->]|[_ [->| ->]]]; [|done|]; by apply insert_key_keeps.
Qed.

Lemma insert_key_ok kid row keys :
  keys_ok keys → genuine row.(k_public) row.(k_private) → keys_ok (insert_key kid row keys).2.
Proof.
  intros [Hone Hall] Hg. split; [by apply insert_key_one_active|].
  unfold insert_key. destruct (_ || _); [done|]. by apply map_Forall_insert_2.
Qed.

(** What the program is told and what it writes. *)
Definition told (X : Type) (e : KeysE X) : X → Prop :=
  match e with
  | EGenerateKey => λ a, match a with Ok (pub, priv) => genuine pub priv | Err _ => True end
  | _ => λ _, True
  end.
Definition writes (X : Type) (e : KeysE X) : Prop :=
  match e with EInsertKey _ row => genuine row.(k_public) row.(k_private) | _ => True end.

Lemma EnsureSigningKey_writes kid : guarantees told writes (EnsureSigningKey kid).
Proof.
  split; [done|]. intros [[pub priv]|e] Hg; [|done]. split; [done|]. intros [[]|e] _; [| |done].
  - split; [done|]. by intros [[k|]|].
  - split; [done|]. intros [n|e] _; [|done]. unfold mbind, Prog_bind.
    case_bool_decide; [done|]. split; [done|]. by intros [[k|]|].
Qed.

Lemma keys_sem_ok X (e : KeysE X) keys x keys' :
  keys_ok keys → writes X e → keys_sem genuine X e keys x keys' → told X e x ∧ keys_ok keys'.
Proof.
  intros Hw Hg Hs. destruct e; simpl in *; try by destruct Hs as [-> ?].
  split; [done|]. destruct Hs as [[_ ->]|[_ [->| ->]]]; [|done|]; by apply insert_key_ok.
Qed.

Lemma pool_keys_ok kids keys0 log ps keys :
  keys_ok keys0 → pool_run (keys_sem genuine) (EnsureSigningKey <$> kids, keys0) log (ps, keys) →
  keys_ok keys.
Proof.
  intros H0 Hrun. eapply (pool_rely_guarantee _ told writes keys_ok) in Hrun; [done| | |done].
  - intros X e w x w' Hw Hg Hs. by apply (keys_sem_ok X e w x w').
  - apply Forall_fmap, Forall_true. intros kid. apply EnsureSigningKey_writes.
Qed.

Lemma pool_keeps {A} (c c' : list (Prog KeysE A) * gmap string KeyRow) log k r :
  pool_run (keys_sem genuine) c log c' → c.2 !! k = Some r → c'.2 !! k = Some r.
Proof.
  apply (pool_invariant _ (λ keys, keys !! k = Some r)).
  intros X e w x w' Hw Hs. by eapply keys_sem_keeps.
Qed.

(** An event that showed an active key leaves one in the table for good. *)
Lemma pool_active {A} (c c' : list (Prog KeysE A) * gmap string KeyRow) log i ev :
  pool_run (keys_sem genuine) c log c' → (i, ev) ∈ log → shows_active ev →
  active_exists c'.2 = true.
Proof.
  apply (pool_event _ (λ keys, active_exists keys = true)).
  - intros X e w x w' Hx Hev. apply active_exists_spec. destruct e; try done; simpl in *.
    + destruct Hev as (Ha & n & Hn & Hxn). cbn in Hxn. subst x. destruct Hx as [[[= Hn'] ->]|[[=] _]].
      exists kid, row. split; [|done]. revert Hn Hn'. unfold insert_key.
      destruct (_ || _); simpl; [lia|]. intros _ _. apply lookup_insert_eq.
    + destruct Hev as [k Hxn]. cbn in Hxn. subst x. destruct Hx as [-> [[= Hk]|[=]]]. symmetry in Hk.
      apply select_active_Some in Hk as (row & ? & ? & _). by exists k.(KID), row.
  - intros X e w x w' (kid & row & Hk & Ha)%active_exists_spec Hx.
    apply active_exists_spec. exists kid, row. split; [|done]. by eapply keys_sem_keeps.
Qed.
End replicas.

(** ** The published set *)

Section published.
Context `{J : JWX} `{L : !JWXLaws J} `{K : !JWK} `{KL : !JWKLaws J L K}.

Lemma signing_jwk_shape kid pub pk :
  jwk_Import_public pub = Some pk →
  KeyID (signing_jwk kid pk) = Some kid ∧ KeyUsage (signing_jwk kid pk) = Some "sig" ∧
  KeyType (signing_jwk kid pk) = "OKP" ∧ KeyCrv (signing_jwk kid pk) = Some "Ed25519".
Proof.
  intros [Hty Hcrv]%import_shape. unfold signing_jwk.
  rewrite set_use_kid, set_kid, set_use.
  destruct (set_shape "use" "sig" (jwk_Set "kid" kid pk)) as [-> ->]; [by right|].
  destruct (set_shape "kid" kid pk) as [-> ->]; by auto.
Qed.

Lemma add_keys_lookup rows set set' kid :
  add_keys rows set = Some set' → NoDup rows.*1 →
  LookupKeyID set' kid =
    match LookupKeyID set kid with
    | Some k => Some k
    | None => match list_find (λ r, r.1 = kid) rows with
              | Some (_, (_, pub)) => signing_jwk kid <$> jwk_Import_public pub
              | None => None
              end
    end.
Proof.
  revert set. induction rows as [|[kid0 pub] rows IH]; intros set Hadd Hnd; simpl in *.
  { simplify_eq. by destruct (LookupKeyID set' kid). }
  destruct (jwk_Import_public pub) as [pk|] eqn:Hpk; [|done].
  destruct (jwk_AddKey _ _) as [set1|] eqn:Hset1; [|done].
  apply NoDup_cons in Hnd as [Hnin Hnd]. rewrite (IH _ Hadd Hnd).
  rewrite (add_key_lookup _ _ _ kid Hset1).
  destruct (LookupKeyID set kid) as [k|]; [done|].
  destruct (signing_jwk_shape kid0 pub pk Hpk) as [-> _].
  destruct (decide (kid0 = kid)) as [->|Hne].
  - by rewrite decide_True, Hpk by done.
  - rewrite decide_False by congruence. destruct (list_find _ rows) as [[i [k p]]|]; done.
Qed.
End published.

Lemma jwks_lookup_signing `{J : JWX} `{L : !JWXLaws J} `{K : !JWK} `{KL : !JWKLaws J L K}
    set kid pub pk :
  jwk_Import_public pub = Some pk → LookupKeyID set kid = Some (signing_jwk kid pk) →
  jwks_lookup (Some set) kid = Some (signing_jwk kid pk).
Proof.
  intros Hpk Hl. destruct (signing_jwk_shape kid pub pk Hpk) as (_ & Hu & Ht & Hc).
  unfold jwks_lookup. by rewrite Hl, !bool_decide_true.
Qed.

Lemma add_keys_import `{J : JWX} `{K : !JWK} rows set set' kid pub :
  add_keys rows set = Some set' → (kid, pub) ∈ rows → is_Some (jwk_Import_public pub).
Proof.
  revert set. induction rows as [|[k0 p0] rows IH]; intros set Hadd Hin; [by apply elem_of_nil in Hin|].
  simpl in Hadd. destruct (jwk_Import_public p0) as [pk|] eqn:Hpk; [|done].
  destruct (jwk_AddKey _ _); [|done].
  apply elem_of_cons in Hin as [[= -> ->]|Hin]; [by rewrite Hpk|by eapply IH].
Qed.

Lemma published_elem keys kid pub :
  (kid, pub) ∈ published keys ↔
  ∃ row, keys !! kid = Some row ∧ row.(k_retired) = false ∧ row.(k_public) = pub.
Proof.
  unfold published. rewrite list_elem_of_fmap. split.
  - intros ([k row] & [= -> ->] & [Hr Hin]%list_elem_of_filter).
    apply elem_of_map_to_list in Hin. by exists row.
  - intros (row & Hk & Hr & <-). exists (kid, row). split; [done|].
    apply list_elem_of_filter. split; [done|]. by apply elem_of_map_to_list.
Qed.

Lemma published_NoDup keys rows : rows ≡ₚ published keys → NoDup rows.*1.
Proof.
  intros ->. unfold published. rewrite <-list_fmap_compose.
  apply (sublist_NoDup _ (map_to_list keys).*1); [apply NoDup_fst_map_to_list|].
  apply (fmap_sublist fst), sublist_filter.
Qed.

(** What the endpoint publishes: the import of every key that is not retired. *)
Lemma PublicJWKS_lookup `{J : JWX} `{L : !JWXLaws J} `{K : !JWK} `{KL : !JWKLaws J L K}
    genuine keys tr set keys' kid :
  exec (keys_sem genuine) PublicJWKS keys tr (Ok set) keys' →
  LookupKeyID set kid =
    match keys !! kid with
    | Some row => if row.(k_retired) then None else signing_jwk kid <$> jwk_Import_public row.(k_public)
    | None => None
    end ∧
  ∀ row, keys !! kid = Some row → row.(k_retired) = false → is_Some (jwk_Import_public row.(k_public)).
Proof.
  unfold PublicJWKS. rewrite bind_Call. intros (a & keys1 & tr' & Hs & _ & H). rewrite bind_Ret in H.
  destruct a as [[rows [] ]|e]; [|destruct Hs as [_ Hrows]|];
    [destruct (add_keys rows jwk_NewSet)|destruct (add_keys rows jwk_NewSet) as [s|] eqn:Hadd|];
    destruct H as (_ & [= <-] & _) || by destruct H as (_ & ? & _).
  split; cycle 1.
  { intros row Hk Hr. eapply add_keys_import; [exact Hadd|]. rewrite Hrows.
    apply published_elem. by exists row. }
  rewrite (add_keys_lookup _ _ _ kid Hadd) by by eapply published_NoDup.
  rewrite new_set_empty. destruct (list_find _ rows) as [[i [k pub]]|] eqn:Hf.
  - apply list_find_Some in Hf as (Hi & Hk & _). simpl in Hk. subst k.
    apply list_elem_of_lookup_2 in Hi. rewrite Hrows in Hi.
    apply published_elem in Hi as (row & -> & Hr & <-). by rewrite Hr.
  - rewrite list_find_None, Forall_forall in Hf.
    destruct (keys !! kid) as [row|] eqn:Hk; [|done]. destruct (k_retired row) eqn:Hr; [done|].
    destruct (Hf (kid, row.(k_public))); [|done]. rewrite Hrows. apply published_elem. by exists row.
Qed.

(** A healthy database and the generated pair [g]. *)
Definition keys_step (g : string * string) (X : Type) (e : KeysE X) (keys : gmap string KeyRow) :
    X * gmap string KeyRow :=
  match e in KeysE X return X * gmap string KeyRow with
  | EGenerateKey => (Ok g, keys)
  | EActiveExists => (Ok (active_exists keys), keys)
  | EInsertKey kid row => (Ok (insert_key kid row keys).1, (insert_key kid row keys).2)
  | ESelectActive => (Ok (select_active keys), keys)
  | ESelectPublic => (Ok (published keys, false), keys)
  end.

Lemma keys_step_sem (genuine : string → string → Prop) g X (e : KeysE X) keys x keys' :
  genuine g.1 g.2 → det (keys_step g) X e keys x keys' → keys_sem genuine X e keys x keys'.
Proof. destruct g. intros Hg. destruct e; intros [= <- <-]; simpl; auto. Qed.

Lemma select_active_exists keys :
  active_exists keys = true ↔ ∃ k, select_active keys = Some k.
Proof.
  unfold active_exists, select_active. rewrite bool_decide_eq_true. split.
  - intros [kr ->]. by eexists.
  - intros [k Hk]. apply fmap_Some in Hk as (kr & -> & _). by eexists.
Qed.

(** ** Properties *)

(** C29: cold start is safe for any number of replicas: however their statements
    interleave and even when replies are lost, at every point of the run, whether or not
    any bootstrap has returned or succeeded, there is at most one active key, no key the
    table had is changed or removed, and every key is a genuine pair; and as soon as any
    replica's bootstrap has returned nil there is exactly one active key. *)
Theorem bootstrap_leaves_one_key genuine kids keys0 log ps keys :
  keys_ok genuine keys0 →
  pool_run (keys_sem genuine) (EnsureSigningKey <$> kids, keys0) log (ps, keys) →
  (∀ kid kid' row row', keys !! kid = Some row → keys !! kid' = Some row' →
    is_active row = true → is_active row' = true → kid = kid') ∧
  (∀ kid row, keys0 !! kid = Some row → keys !! kid = Some row) ∧
  (∀ kid row, keys !! kid = Some row → genuine row.(k_public) row.(k_private)) ∧
  (∀ i kid, kids !! i = Some kid → ps !! i = Some (Ret (Ok ())) →
    ∃ k row, select_active keys = Some k ∧ keys !! k.(KID) = Some row ∧ is_active row = true ∧
      row.(k_private) = k.(Private)).
Proof.
  intros H0 Hrun. destruct (pool_keys_ok _ _ _ _ _ _ H0 Hrun) as [Hone Hall]. split_and!.
  - exact Hone.
  - intros kid row Hk. by apply (pool_keeps _ _ _ _ _ _ Hrun).
  - intros kid row Hk. exact (Hall _ _ Hk).
  - intros i kid Hi Hret.
    assert (exec any_env (EnsureSigningKey kid) tt (calls_of i log) (Ok ()) tt) as Hexec.
    { eapply pool_local; [exact Hrun| |done]. by rewrite list_lookup_fmap, Hi. }
    apply EnsureSigningKey_calls in Hexec as (ev & Hin%calls_of_elem & Hev).
    pose proof (pool_active _ _ _ _ _ _ Hrun Hin Hev) as [k Hk]%select_active_exists.
    destruct (select_active_Some _ _ Hk) as (row & Hrow & Ha & Hp). by exists k, row.
Qed.

(** a replica bootstrapping alone on a healthy database: an active key makes it a
    no-op, an empty or fully retired table gets the new key as its active one, and a
    kid already taken while no key is active is an error that leaves the table as it
    was.  (The comment in keys.go says such a kid needs nothing done for it.) *)
Theorem EnsureSigningKey_alone kid pub priv keys :
  let '(_, r, keys') := run (keys_step (pub, priv)) (EnsureSigningKey kid) keys in
  if active_exists keys then r = Ok () ∧ keys' = keys
  else match keys !! kid with
       | Some _ => r = Err KeyNotFound ∧ keys' = keys
       | None => r = Ok () ∧ select_active keys' = Some {| KID := kid; Private := priv |} ∧
                 delete kid keys' = keys
       end.
Proof.
  set (row := {| k_public := pub; k_private := priv; k_active := true; k_retired := false |}).
  destruct (active_exists keys) eqn:Ha.
  - pose proof Ha as [k Hk]%select_active_exists.
    simpl. rewrite Ha. simpl. rewrite Hk. done.
  - assert (select_active keys = None) as Hn.
    { apply eq_None_not_Some. intros Hs. apply select_active_exists in Hs. congruence. }
    simpl. rewrite Ha. fold row. destruct (keys !! kid) as [old|] eqn:Hk.
    + assert (insert_key kid row keys = (0, keys)) as Hins
        by (unfold insert_key; by rewrite Hk, bool_decide_true).
      simpl. rewrite Hins. simpl. by rewrite Hn.
    + assert (insert_key kid row keys = (1, <[kid := row]> keys)) as Hins
        by (unfold insert_key; rewrite Hk, Ha, bool_decide_false; [done|by intros [? ?]]).
      simpl. rewrite Hins. simpl. split_and!; [done| |by apply delete_insert_id].
      assert (one_active (insert_key kid row keys).2) as Hone.
      { apply insert_key_one_active. intros k k' r r' Hr _ Hact _.
        assert (active_exists keys = true) by (apply active_exists_spec; by exists k, r). congruence. }
      rewrite Hins in Hone. apply (select_active_unique _ kid row Hone); [apply lookup_insert_eq|done].
Qed.

(** The service accepts its own tokens: a token minted with the active key of the
    table verifies, against the set the JWKS endpoint publishes then or at any later
    time before that key is retired, as exactly the minted claims; already the first
    lookup of a fresh verifier finds the key. *)
Theorem service_accepts_own_tokens `{J : JWX} `{L : !JWXLaws J} `{K : !JWK}
    `{KL : !JWKLaws J L K} {F : Type → Type} `{!SubEffect KeyE F, !SubEffect LegacyE F}
    keys sk issuer audience ttl m c now raw expires_in keys' tr set keys'' now' :
  keys_ok ed25519_pair keys → select_active keys = Some sk → sk.(KID) ≠ "" →
  NewMinter sk.(KID) sk.(Private) issuer audience ttl = Some m →
  Mint m c now = Some (raw, expires_in) →
  (∀ row, keys !! sk.(KID) = Some row →
    ∃ row', keys' !! sk.(KID) = Some row' ∧ row'.(k_public) = row.(k_public) ∧
      row'.(k_retired) = false) →
  exec (keys_sem ed25519_pair) PublicJWKS keys' tr (Ok set) keys'' →
  c.(TenantID) ≠ "" → c.(InstallID) ≠ "" → hasScope c.(Scope) ScopeWriteEvents = true →
  c.(TrustTier) = 0 ∨ c.(TrustTier) = 1 →
  now - clockSkew ≤ now' ≤ wire_time (now + ttl) + clockSkew → 0 ≤ now' →
  ∃ pk v',
    exec any_env (key (NewVerifier issuer audience) sk.(KID) now') tt
      [Ev EFetch (Some set)] (Ok pk, v') tt ∧
    exec any_env (VerifyOrLegacy (F:=F) (NewVerifier issuer audience) ("Bearer " +:+ raw) now') tt
      [Ev (inject (EKey sk.(KID) now')) (Ok pk)] (Ok c, false) tt.
Proof.
  intros [_ Hall] Hsk Hkid Hm Hmint Hlater Hset Ht Hi Hs Htier Hnow Hpos.
  destruct (select_active_Some _ _ Hsk) as (row & Hrow & _ & Hpriv).
  destruct (Hlater row Hrow) as (row' & Hrow' & Hpub & Hret).
  destruct (PublicJWKS_lookup _ _ _ _ _ sk.(KID) Hset) as [Hk Himp].
  destruct (Himp _ Hrow' Hret) as [pk Hpk]. rewrite Hrow', Hret, Hpk in Hk. simpl in Hk.
  pose proof (jwks_lookup_signing _ _ _ _ Hpk Hk) as Hj.
  unfold NewMinter in Hm. destruct (jwk_Import_private _) as [priv|] eqn:Hp; [|done].
  injection Hm as <-. exists (signing_jwk sk.(KID) pk). eexists. split.
  - by apply key_first_fetch.
  - apply VerifyOrLegacy_exec. eapply (minted_outcome (NewVerifier issuer audience)
      {| m_kid := sk.(KID); m_key := priv; m_issuer := issuer; m_audience := audience;
         m_ttl := ttl |}); [exact Hmint|..]; try done.
    unfold signing_jwk. do 2 apply set_pair. eapply import_pair; [|exact Hpk|exact Hp].
    rewrite <-Hpriv, Hpub. by apply (Hall _ _ Hrow).
Qed.

(** ** Witnesses *)

From S2P Require Import ToyJwx.

Definition toy_row : KeyRow :=
  {| k_public := "p1"; k_private := "p1"; k_active := true; k_retired := false |}.
Definition toy_keys : gmap string KeyRow := {[ "kid-1" := toy_row ]}.

(** Two replicas start cold at the same time: both pass the check, one inserts. *)
Definition toy_race : list (nat * event KeysE) :=
  [(0%nat, Ev EGenerateKey (Ok ("p1", "p1"))); (1%nat, Ev EGenerateKey (Ok ("p2", "p2")));
   (0%nat, Ev EActiveExists (Ok false)); (1%nat, Ev EActiveExists (Ok false));
   (0%nat, Ev (EInsertKey "kid-1" toy_row) (Ok 1));
   (1%nat, Ev (EInsertKey "kid-1" {| k_public := "p2"; k_private := "p2"; k_active := true;
                                     k_retired := false |}) (Ok 0));
   (1%nat, Ev ESelectActive (Ok (Some {| KID := "kid-1"; Private := "p1" |})))].

Lemma toy_race_run :
  pool_run (keys_sem eq) (EnsureSigningKey <$> ["kid-1"; "kid-1"], ∅) toy_race
    ([Ret (Ok ()); Ret (Ok ())], toy_keys).
Proof.
  unfold toy_race. pool_tick; [done|]. pool_tick; [done|]. pool_tick; [split; [done|by left]|].
  pool_tick; [split; [done|by left]|]. pool_tick; [by left|]. pool_tick; [by left|].
  pool_tick; [split; [done|by left]|]. apply pool_done.
Defined.

Lemma bootstrap_leaves_one_key_witness :
  (∀ kid kid' row row', toy_keys !! kid = Some row → toy_keys !! kid' = Some row' →
    is_active row = true → is_active row' = true → kid = kid') ∧
  (∀ kid row, (∅ : gmap string KeyRow) !! kid = Some row → toy_keys !! kid = Some row) ∧
  (∀ kid row, toy_keys !! kid = Some row → row.(k_public) = row.(k_private)) ∧
  (∀ i kid, ["kid-1"; "kid-1"] !! i = Some kid →
    [Ret (E:=KeysE) (Ok (E:=keys_err) ()); Ret (Ok ())] !! i = Some (Ret (Ok ())) →
    ∃ k row, select_active toy_keys = Some k ∧ toy_keys !! k.(KID) = Some row ∧ is_active row = true ∧
      row.(k_private) = k.(Private)).
Proof.
  apply (bootstrap_leaves_one_key eq ["kid-1"; "kid-1"] ∅ toy_race
    [Ret (Ok ()); Ret (Ok ())] toy_keys).
  - split; [intros ? ? ? ? [=]|apply map_Forall_empty].
  - apply toy_race_run.
Defined.

Definition toy_service_minter : Minter (J:=ToyJWX) :=
  {| m_kid := "kid-1"; m_key := toy_raw_key "p1"; m_issuer := "iss"; m_audience := "aud";
     m_ttl := 2700 * Second |}.
Definition toy_service_token : string :=
  toy_text (wire_token (mint_token toy_service_minter toy_claims toy_now),
            signed_headers (mint_headers toy_service_minter), "p1").
Definition toy_published : list ToyKey := [signing_jwk "kid-1" (toy_raw_key "p1")].

Lemma toy_published_run :
  exec (keys_sem eq) (PublicJWKS (J:=ToyJWX)) toy_keys
    [Ev ESelectPublic (Ok ([("kid-1", "p1")], false))] (Ok toy_published) toy_keys.
Proof.
  exists (Ok ([("kid-1", "p1")], false)), toy_keys, []. split; [split; [done|]|done].
  reflexivity.
Defined.

(** A token minted at start-up, half an hour later. *)
Lemma service_accepts_own_tokens_witness :
  let later := toy_now + 1800 * Second in
  ∃ pk v',
    exec any_env (key (NewVerifier "iss" "aud") "kid-1" later) tt
      [Ev EFetch (Some toy_published)] (Ok pk, v') tt ∧
    exec any_env (VerifyOrLegacy (F:=AuthE) (NewVerifier "iss" "aud")
        ("Bearer " +:+ toy_service_token) later) tt
      [Ev (inject (EKey "kid-1" later)) (Ok pk)] (Ok toy_claims, false) tt.
Proof.
  intros later.
  apply (service_accepts_own_tokens (F:=AuthE) toy_keys {| KID := "kid-1"; Private := "p1" |}
    "iss" "aud" (2700 * Second) toy_service_minter toy_claims toy_now toy_service_token 2700
    toy_keys [Ev ESelectPublic (Ok ([("kid-1", "p1")], false))] toy_published toy_keys later);
    try reflexivity; try done.
  - split; [|by apply map_Forall_singleton].
    intros k k' r r' H H' _ _. unfold toy_keys in H, H'.
    by apply lookup_singleton_Some in H as [<- _], H' as [<- _].
  - intros row Hrow. exists row. unfold toy_keys in Hrow.
    by apply lookup_singleton_Some in Hrow as [_ <-].
  - apply toy_published_run.
  - by right.
Defined.
