(* ===== verification/Attest.v ===== *)
(** * Package attest: attestation challenges

    [Issue] and [Consume] are programs over Redis SET and GETDEL; concurrent
    exchanges interleave their commands.  An attestor is an external service,
    [Noop] the one of local development. *)
From S2P Require Import Prelude GoStrings GoTime Prog Crypto Redis.
#[local] Open Scope Z_scope.

(** ** Attestors *)

(** [Attestor.Verify(ctx, platform, blob, challenge)]: the subject, and whether the
    blob verified. *)
Inductive AttestorE : Type → Type :=
| AVerify (platform blob challenge : string) : AttestorE (string * bool).

(** [Noop.Verify] *)
Definition Noop (X : Type) (e : AttestorE X) : X :=
  match e with AVerify _ _ _ => ("", false) end.

(** ** base64.RawURLEncoding *)

Definition url_char (z : Z) : ascii :=
  if bool_decide (z < 26) then asciiZ (65 + z)
  else if bool_decide (z < 52) then asciiZ (71 + z)
  else if bool_decide (z < 62) then asciiZ (z - 4)
  else if bool_decide (z = 62) then "-"%char else "_"%char.

Fixpoint RawURLEncode (bs : list Z) : string :=
  match bs with
  | a :: b :: c :: bs =>
      String (url_char (a `div` 4)) (String (url_char (a `mod` 4 * 16 + b `div` 16))
        (String (url_char (b `mod` 16 * 4 + c `div` 64)) (String (url_char (c `mod` 64))
          (RawURLEncode bs))))
  | [a; b] =>
      String (url_char (a `div` 4)) (String (url_char (a `mod` 4 * 16 + b `div` 16))
        (String (url_char (b `mod` 16 * 4)) ""))
  | [a] => String (url_char (a `div` 4)) (String (url_char (a `mod` 4 * 16)) "")
  | [] => ""
  end.

Example RawURLEncode_ex :
  RawURLEncode [255; 239; 1; 104] = "_-8BaA" ∧ RawURLEncode [77; 97] = "TWE".
Proof. split; reflexivity. Qed.

(** ** The challenge store *)

(** Entropy, and the two commands; [Ok None] is the nil reply. *)
Inductive AttestE : Type → Type :=
| ARandom (n : nat) : AttestE (result () (list Z))
| ASet (k v : string) (ttl : Z) : AttestE (result () ())
| AGetDel (k : string) : AttestE (result () (option string)).

(** [c.key(clientID, platform)] *)
Definition challenge_key (clientID platform : string) : string :=
  "att:{" +:+ clientID +:+ "}:" +:+ platform.

Section challenges.
Context {F : Type → Type} `{!SubEffect AttestE F} (TTL : Z).

(** [c.Issue(ctx, clientID, platform)] *)
Definition Issue (clientID platform : string) : Prog F (result () string) :=
  raw ← call (ARandom 32);
  match raw with
  | Err _ => Ret (Err ())
  | Ok raw =>
      let nonce := RawURLEncode raw in
      stored ← call (ASet (challenge_key clientID platform) nonce TTL);
      match stored with
      | Err _ => Ret (Err ())
      | Ok _ => Ret (Ok nonce)
      end
  end.

(** [c.Consume(ctx, clientID, platform, challenge)] *)
Definition Consume (clientID platform challenge : string) : Prog F bool :=
  if bool_decide (challenge = "") then Ret false
  else
    got ← call (AGetDel (challenge_key clientID platform));
    match got with
    | Ok (Some got) => Ret (bool_decide (got = challenge))
    | _ => Ret false
    end.
End challenges.

(** ** What the commands do *)

Section semantics.
Context {R : RedisLib} {L : RedisLaws R}.

Definition set_op (k v : string) (ttl : Z) (r : Redis) : result () () * Redis :=
  (Ok (), rd_set k v ttl r).
Definition getdel_op (k : string) (r : Redis) : result () (option string) * Redis :=
  (Ok (rd_getdel k r).1, (rd_getdel k r).2).

Definition attest_sem : semantics AttestE Redis :=
  λ X e r x r',
    match e in AttestE X return X → Prop with
    | ARandom n => λ a, r' = r ∧
        match a with Ok raw => length raw = n ∧ Forall is_byte raw | Err _ => True end
    | ASet k v ttl => λ a, served (set_op k v ttl) (Err ()) r a r'
    | AGetDel k => λ a, served (getdel_op k) (Err ()) r a r'
    end x.

(** [outstanding k v r]: the live challenge of [k] is [v]. *)
Definition outstanding (k v : string) (r : Redis) : nat :=
  if decide (fst <$> rd_view r k = Some v) then 1 else 0.

(** A command that wrote, or that delivered, the challenge [v] of [k]. *)
Definition is_issue (k v : string) {X} (e : AttestE X) : bool :=
  match e with ASet j w _ => bool_decide (j = k) && bool_decide (w = v) | _ => false end.
Definition is_spend (k v : string) {X} (e : AttestE X) : X → bool :=
  match e with
  | AGetDel j => λ a, bool_decide (j = k) &&
      match a with Ok (Some w) => bool_decide (w = v) | _ => false end
  | _ => λ _, false
  end.

Lemma outstanding_elapse k v d r : 0 ≤ d → (outstanding k v (rd_elapse d r) ≤ outstanding k v r)%nat.
Proof.
  intros Hd. unfold outstanding. rewrite rd_elapse_view by done.
  destruct (rd_view r k) as [[w [t|]]|]; repeat case_decide; simpl in *; try lia; done.
Qed.

Lemma outstanding_set k v j w ttl r :
  (outstanding k v (rd_set j w ttl r) ≤
   outstanding k v r `max` if is_issue k v (ASet j w ttl) then 1 else 0)%nat.
Proof.
  unfold outstanding. rewrite rd_set_value. simpl.
  destruct (decide (k = j)) as [->|Hne]; [|lia].
  rewrite (bool_decide_true (j = j)) by done.
  case_decide as Hw; [|lia]. injection Hw as ->. rewrite bool_decide_true by done. simpl. lia.
Qed.

Lemma outstanding_getdel k v j r :
  (outstanding k v (rd_getdel j r).2 +
   (if is_spend k v (AGetDel j) (Ok (rd_getdel j r).1) then 1 else 0) ≤ outstanding k v r)%nat.
Proof.
  unfold outstanding. destruct (rd_getdel_view j r k) as [Hgot ->]. simpl.
  rewrite Hgot. destruct (decide (k = j)) as [->|Hne].
  - rewrite (bool_decide_true (j = j)) by done.
    destruct (rd_view r j) as [[w t]|]; simpl; [|repeat case_decide; simpl; try lia; done].
    case_bool_decide; repeat case_decide; simpl; try lia; congruence.
  - rewrite (bool_decide_false (j = k)) by congruence. simpl. lia.
Qed.

(** A challenge is spent at most as often as it was written, whatever is retried. *)
Lemma attest_sem_balance k v X (e : AttestE X) r x r' :
  attest_sem X e r x r' →
  (outstanding k v r' + (if is_spend k v e x then 1 else 0) ≤
   outstanding k v r + (if is_issue k v e then 1 else 0))%nat.
Proof.
  intros H. destruct e as [n|j w ttl|j]; simpl in H.
  - destruct H as [-> _]. simpl. lia.
  - assert (outstanding k v r' ≤
      outstanding k v r `max` if is_issue k v (ASet j w ttl) then 1 else 0)%nat; [|simpl in *; lia].
    induction H as [r|r|r a r' H IH|d r a r' Hd H IH].
    + apply outstanding_set.
    + lia.
    + pose proof (outstanding_set k v j w ttl r). simpl in *. lia.
    + pose proof (outstanding_elapse k v d r Hd). lia.
  - rewrite Nat.add_0_r. induction H as [r|r|r a r' H IH|d r a r' Hd H IH].
    + apply outstanding_getdel.
    + simpl. rewrite andb_false_r. lia.
    + pose proof (outstanding_getdel k v j r). simpl in *. lia.
    + pose proof (outstanding_elapse k v d r Hd). lia.
Qed.
End semantics.

(** A healthy store, and the next entropy. *)
Definition attest_step `{R : RedisLib} (raw : list Z) (X : Type) (e : AttestE X) (r : Redis) :
    X * Redis :=
  match e with
  | ARandom _ => (Ok raw, r)
  | ASet k v ttl => set_op k v ttl r
  | AGetDel k => getdel_op k r
  end.

Lemma RawURLEncode_nonempty raw : raw ≠ [] → RawURLEncode raw ≠ "".
Proof. by destruct raw as [|a [|b [|c raw]]]. Qed.

(** ** Properties *)

(** A challenge lives for its TTL and for one attempt: after an issue, an attempt
    [d] ms later succeeds exactly when it presents the issued nonce before the TTL
    has passed, and any attempt that presents something, right or wrong, leaves no
    challenge behind. *)
Theorem challenge_lifetime {R : RedisLib} {L : RedisLaws R} TTL client platform raw r d challenge :
  raw ≠ [] → Millisecond ≤ TTL → 0 ≤ d →
  let '(_, issued, r1) := run (attest_step raw) (Issue TTL client platform) r in
  let '(_, spent, r2) :=
    run (attest_step raw) (Consume client platform challenge) (rd_elapse d r1) in
  issued = Ok (RawURLEncode raw) ∧
  spent = bool_decide (challenge = RawURLEncode raw ∧ d < TTL `div` Millisecond) ∧
  (challenge ≠ "" → rd_view r2 (challenge_key client platform) = None).
Proof.
  intros Hraw Httl Hd. pose proof (RawURLEncode_nonempty raw Hraw) as Hne.
  unfold Issue. rewrite bind_call. cbn [run attest_step inject sub_effect_refl]. rewrite bind_call.
  cbn [run attest_step set_op inject sub_effect_refl].
  set (k := challenge_key client platform). set (r1 := rd_set k (RawURLEncode raw) TTL r).
  unfold Consume. fold k. case_bool_decide as Hc.
  { cbn [run]. split_and!; [done| |done]. subst. rewrite bool_decide_false; [done|]. intros [H _]. congruence. }
  rewrite bind_call. cbn [run attest_step getdel_op inject sub_effect_refl].
  destruct (rd_getdel_view k (rd_elapse d r1) k) as [Hg Hv]. rewrite decide_True in Hv by done.
  rewrite rd_elapse_view in Hg by done. unfold r1 in Hg at 2.
  rewrite rd_set_view, decide_True in Hg by done.
  rewrite Hg. case_decide as Hlt; cbn; (split_and!; [done| |done]).
  - case_bool_decide as H; case_bool_decide as H'; naive_solver.
  - rewrite bool_decide_false; [done|]. naive_solver.
Qed.

(** ** Witnesses *)

Lemma challenge_lifetime_witness :
  let raw := seqZ 0 32 in
  let '(_, issued, r1) := run (attest_step (R:=ToyRedis) raw) (Issue (5 * Minute) "pk" "ios")
    (∅ : gmap string (string * option Z)) in
  let '(_, spent, r2) := run (attest_step raw) (Consume "pk" "ios" (RawURLEncode raw))
    (rd_elapse 299999 r1) in
  issued = Ok (RawURLEncode raw) ∧
  spent = bool_decide (RawURLEncode raw = RawURLEncode raw ∧ 299999 < 5 * Minute `div` Millisecond) ∧
  (RawURLEncode raw ≠ "" → rd_view r2 (challenge_key "pk" "ios") = None).
Proof.
  exact (challenge_lifetime (R:=ToyRedis) (5 * Minute) "pk" "ios" (seqZ 0 32) ∅ 299999
    (RawURLEncode (seqZ 0 32)) ltac:(done) ltac:(done) ltac:(done)).
Defined.
