(* ===== verification/TokenEndpoint.v ===== *)
(** * Package handler, token.go and jwks.go: the exchange, the challenge and the JWKS

    The handlers are programs over the calls of their dependencies.  Challenges and
    the throttle run on the same Redis, and concurrent requests interleave. *)
From S2P Require Import Prelude GoStrings GoTime Prog Limits Proto Crypto Jwx Json.
From S2P Require Import Token Verify Legacy Redis Quota Http Attest.
#[local] Open Scope Z_scope.

(** protojson on the two token messages, and encoding/json on a key set. *)
Class TokenCodec := {
  Unmarshal_TokenRequest : string → option TokenRequest;
  Marshal_TokenResponse : TokenResponse → option string
}.
Class SetCodec `{J : JWX} := Encode_JWKS : JSet → string.

(** The calls of an exchange. *)
Inductive TokenE : Type → Type :=
| TNow : TokenE Time
| TResolveTenant (clientID : string) : TokenE (result () string)
| TQuota {X} (e : QuotaE X) : TokenE X
| TChallenges {X} (e : AttestE X) : TokenE X
| TAttestor {X} (e : AttestorE X) : TokenE X
| TIssueInstall (tenantID platform subject deviceKey : string) (tier : Z) :
    TokenE (result () string).

#[export] Instance token_quota : SubEffect QuotaE TokenE := λ X e, TQuota e.
#[export] Instance token_challenges : SubEffect AttestE TokenE := λ X e, TChallenges e.

Definition tokenRatePerMinute : Z := 30.
Definition tokenRateWindow : Z := Minute.

(** [deviceKey(req)] *)
Definition deviceKey (req : TokenRequest) : string :=
  hex_encode (Sum256 (Join [req.(ClientId); req.(Platform); req.(DeviceHint)]
    (of_bytes [asciiZ 0]))).

Record TokenDeps `{J : JWX} := {
  td_Minter : Minter;
  td_TTL : Z;                           (* of the challenges *)
  td_RateLimit : bool                   (* RateLimit != nil *)
}.

Section token.
Context `{J : JWX} `{Z0 : Gzip} `{C : TokenCodec}.

(** The body as a request, or the response that refuses it. *)
Definition decode_token (r : Request) : result Response TokenRequest :=
  match readBody r with
  | Err _ => Err (httpError ∅ StatusBadRequest "unreadable body")
  | Ok body =>
      match Unmarshal_TokenRequest body with
      | None => Err (httpError ∅ StatusBadRequest "malformed request")
      | Some req => Ok req
      end
  end.

(** [if d.RateLimit != nil { ... }]: the response that refuses the client, if any. *)
Definition throttle (d : TokenDeps) (prefix clientID : string) : Prog TokenE (option Response) :=
  if d.(td_RateLimit) then
    ok ← AllowClient (prefix +:+ clientID) tokenRatePerMinute tokenRateWindow;
    match ok with
    | Err _ => Ret (Some (httpError ∅ StatusServiceUnavailable "rate limit unavailable"))
    | Ok ok =>
        if ok : bool then Ret None
        else Ret (Some (httpError {[ "Retry-After" := "60" ]} StatusTooManyRequests "rate_limit"))
    end
  else Ret None.

(** The attested subject and the tier. *)
Definition attest_tier (d : TokenDeps) (req : TokenRequest) : Prog TokenE (string * Z) :=
  fresh ← Consume req.(ClientId) req.(Platform) req.(Challenge);
  if fresh : bool then
    v ← Call (TAttestor (AVerify req.(Platform) req.(Attestation) req.(Challenge))) Ret;
    let '(s, ok) := v in
    Ret (if ok : bool then (s, 0) else ("", 1))
  else Ret ("", 1).

Definition token_headers : gmap string string :=
  <["Cache-Control" := "no-store"]> {[ "Content-Type" := "application/json" ]}.

Definition token_respond (d : TokenDeps) (tenantID installID : string) (tier : Z) (now : Time) :
    Response :=
  let claims := {| TenantID := tenantID; InstallID := installID; Scope := ScopeWriteEvents;
                   TrustTier := tier |} in
  match Mint d.(td_Minter) claims now with
  | None => httpError ∅ StatusInternalServerError "mint failed"
  | Some (token, expiresIn) =>
      match Marshal_TokenResponse
              {| AccessToken := token; ExpiresIn := expiresIn; tok_TrustTier := tier |} with
      | None => httpError ∅ StatusInternalServerError "encode"
      | Some out => {| w_status := StatusOK; w_headers := token_headers; w_body := out |}
      end
  end.

(** The exchange of an admitted client. *)
Definition exchange_token (d : TokenDeps) (req : TokenRequest) (tenantID : string) :
    Prog TokenE Response :=
  st ← attest_tier d req;
  let '(subject, tier) := st in
  id ← Call (TIssueInstall tenantID req.(Platform) subject (deviceKey req) tier) Ret;
  match id with
  | Err _ => Ret (httpError ∅ StatusServiceUnavailable "install issuance unavailable")
  | Ok installID =>
      now ← Call TNow Ret;
      Ret (token_respond d tenantID installID tier now)
  end.

(** What both endpoints do before their own work [k]. *)
Definition admit_client (d : TokenDeps) (prefix : string) (r : Request)
    (k : TokenRequest → string → Prog TokenE Response) : Prog TokenE Response :=
  match decode_token r with
  | Err resp => Ret resp
  | Ok req =>
      t ← Call (TResolveTenant req.(ClientId)) Ret;
      match t with
      | Err _ => Ret (httpError ∅ StatusUnauthorized "unknown client_id")
      | Ok tenantID =>
          refused ← throttle d prefix req.(ClientId);
          match refused with
          | Some resp => Ret resp
          | None => k req tenantID
          end
      end
  end.

(** [NewToken(d)] serving [r] *)
Definition NewToken (d : TokenDeps) (r : Request) : Prog TokenE Response :=
  admit_client d "rl:token:" r (exchange_token d).

(** [NewChallenge(d)] serving [r] *)
Definition NewChallenge (d : TokenDeps) (r : Request) : Prog TokenE Response :=
  admit_client d "rl:challenge:" r (λ req _,
    nonce ← Issue d.(td_TTL) req.(ClientId) req.(Platform);
    match nonce with
    | Err _ => Ret (httpError ∅ StatusServiceUnavailable "challenge unavailable")
    | Ok nonce =>
        Ret {| w_status := StatusOK; w_headers := token_headers;
               w_body := encode_one "challenge" nonce |}
    end).
End token.

(** [NewJWKS(store)], given what [store.PublicJWKS] returned. *)
Definition NewJWKS `{J : JWX} `{S : !SetCodec} {E : Type} (set : result E JSet) : Response :=
  match set with
  | Err _ => http_Error ∅ "jwks unavailable" StatusServiceUnavailable
  | Ok set =>
      {| w_status := StatusOK;
         w_headers := <["Cache-Control" := "public, max-age=60"]>
           {[ "Content-Type" := "application/jwk-set+json" ]};
         w_body := Encode_JWKS set |}
  end.

(** ** The runs of the endpoints *)

(** The throttle let the client through. *)
Inductive admitted `{J : JWX} (d : TokenDeps) (prefix clientID : string) :
    list (event TokenE) → Prop :=
| admitted_unlimited : d.(td_RateLimit) = false → admitted d prefix clientID []
| admitted_counted n :
    d.(td_RateLimit) = true → n ≤ 30 →
    admitted d prefix clientID [Ev (TQuota (EClientRate (prefix +:+ clientID) 60)) (Some n)].

(** The refusals before the endpoint's own work. *)
Inductive refused `{J : JWX} `{Z0 : Gzip} `{C : TokenCodec} (d : TokenDeps) (prefix : string)
    (r : Request) : list (event TokenE) → Response → Prop :=
| refused_body resp : decode_token r = Err resp → refused d prefix r [] resp
| refused_client req :
    decode_token r = Ok req →
    refused d prefix r [Ev (TResolveTenant req.(ClientId)) (Err ())]
      (httpError ∅ StatusUnauthorized "unknown client_id")
| refused_counter req t :
    decode_token r = Ok req → d.(td_RateLimit) = true →
    refused d prefix r
      [Ev (TResolveTenant req.(ClientId)) (Ok t);
       Ev (TQuota (EClientRate (prefix +:+ req.(ClientId)) 60)) None]
      (httpError ∅ StatusServiceUnavailable "rate limit unavailable")
| refused_rate req t n :
    decode_token r = Ok req → d.(td_RateLimit) = true → 30 < n →
    refused d prefix r
      [Ev (TResolveTenant req.(ClientId)) (Ok t);
       Ev (TQuota (EClientRate (prefix +:+ req.(ClientId)) 60)) (Some n)]
      (httpError {[ "Retry-After" := "60" ]} StatusTooManyRequests "rate_limit").

(** How an exchange came to its subject and tier. *)
Inductive tier_calls (req : TokenRequest) : string → Z → list (event TokenE) → Prop :=
| tier_attested s :
    req.(Challenge) ≠ "" →
    tier_calls req s 0
      [Ev (TChallenges (AGetDel (challenge_key req.(ClientId) req.(Platform))))
         (Ok (Some req.(Challenge)));
       Ev (TAttestor (AVerify req.(Platform) req.(Attestation) req.(Challenge))) (s, true)]
| tier_no_challenge : req.(Challenge) = "" → tier_calls req "" 1 []
| tier_stale a :
    a ≠ Ok (Some req.(Challenge)) →
    tier_calls req "" 1
      [Ev (TChallenges (AGetDel (challenge_key req.(ClientId) req.(Platform)))) a]
| tier_unattested s :
    tier_calls req "" 1
      [Ev (TChallenges (AGetDel (challenge_key req.(ClientId) req.(Platform))))
         (Ok (Some req.(Challenge)));
       Ev (TAttestor (AVerify req.(Platform) req.(Attestation) req.(Challenge))) (s, false)].

Section runs.
Context `{J : JWX} `{Z0 : Gzip} `{C : TokenCodec}.

Lemma throttle_exec d prefix clientID tr a :
  exec any_env (throttle d prefix clientID) tt tr a tt →
  match a with
  | None => admitted d prefix clientID tr
  | Some resp => d.(td_RateLimit) = true ∧
      ((tr = [Ev (TQuota (EClientRate (prefix +:+ clientID) 60)) None] ∧
        resp = httpError ∅ StatusServiceUnavailable "rate limit unavailable") ∨
       ∃ n, 30 < n ∧ tr = [Ev (TQuota (EClientRate (prefix +:+ clientID) 60)) (Some n)] ∧
         resp = httpError {[ "Retry-After" := "60" ]} StatusTooManyRequests "rate_limit")
  end.
Proof.
  unfold throttle. destruct (td_RateLimit d) eqn:Hr; [|by intros (-> & -> & _); constructor].
  unfold AllowClient. rewrite bind_call, bind_Call.
  intros (n & [] & tr' & _ & -> & H). destruct n as [n|]; rewrite bind_Ret in H; simpl in H.
  - case_bool_decide as Hn; destruct H as (-> & -> & _).
    + by constructor.
    + split; [done|]. right. exists n. split_and!; [|done..]. unfold tokenRatePerMinute in Hn. lia.
  - destruct H as (-> & -> & _). split; [done|]. by left.
Qed.

Lemma attest_tier_exec d req tr st :
  exec any_env (attest_tier d req) tt tr st tt → tier_calls req st.1 st.2 tr.
Proof.
  unfold attest_tier, Consume. case_bool_decide as Hc; [by intros (-> & -> & _); constructor|].
  rewrite bind_call, bind_Call. intros (a & [] & tr' & _ & -> & H).
  assert (a ≠ Ok (Some req.(Challenge)) → tr' = [] ∧ st = ("", 1)) as Hstale.
  { intros Ha. destruct a as [[got|]|e]; rewrite bind_Ret in H; [|by destruct H as (-> & -> & _)..].
    rewrite bool_decide_false in H by congruence. by destruct H as (-> & -> & _). }
  destruct (decide (a = Ok (Some req.(Challenge)))) as [->|Hne].
  - rewrite bind_Ret, bool_decide_true, bind_Call in H by done.
    destruct H as ([s ok] & [] & tr2 & _ & -> & H). rewrite bind_Ret in H.
    destruct ok; destruct H as (-> & -> & _); by constructor.
  - destruct (Hstale Hne) as [-> ->]. by constructor.
Qed.

Lemma admit_client_exec d prefix r k tr resp :
  exec any_env (admit_client d prefix r k) tt tr resp tt →
  refused d prefix r tr resp ∨
  ∃ req t pre tr', decode_token r = Ok req ∧ admitted d prefix req.(ClientId) pre ∧
    exec any_env (k req t) tt tr' resp tt ∧
    tr = Ev (TResolveTenant req.(ClientId)) (Ok t) :: pre ++ tr'.
Proof.
  unfold admit_client. destruct (decode_token r) as [req|resp'] eqn:Hd; cycle 1.
  { intros (-> & -> & _). left. by constructor. }
  rewrite bind_Call. intros (t & [] & tr1 & _ & -> & H). rewrite bind_Ret in H.
  destruct t as [t|[]]; [|destruct H as (-> & -> & _); left; by constructor].
  apply exec_bind in H as (pre & a & [] & tr' & Hth & H & ->).
  apply throttle_exec in Hth. destruct a as [resp'|].
  - left. destruct H as (-> & -> & _). rewrite app_nil_r.
    destruct Hth as [Hr [[-> ->]|(n & Hn & -> & ->)]]; by constructor.
  - right. by exists req, t, pre, tr'.
Qed.

(** Every run of the exchange. *)
Inductive token_outcome (d : TokenDeps) (r : Request) : list (event TokenE) → Response → Prop :=
| token_refused tr resp : refused d "rl:token:" r tr resp → token_outcome d r tr resp
| token_no_install req t pre subject tier mid :
    decode_token r = Ok req → admitted d "rl:token:" req.(ClientId) pre →
    tier_calls req subject tier mid →
    token_outcome d r
      (Ev (TResolveTenant req.(ClientId)) (Ok t) :: pre ++ mid ++
       [Ev (TIssueInstall t req.(Platform) subject (deviceKey req) tier) (Err ())])
      (httpError ∅ StatusServiceUnavailable "install issuance unavailable")
| token_issued req t pre subject tier mid id now :
    decode_token r = Ok req → admitted d "rl:token:" req.(ClientId) pre →
    tier_calls req subject tier mid →
    token_outcome d r
      (Ev (TResolveTenant req.(ClientId)) (Ok t) :: pre ++ mid ++
       [Ev (TIssueInstall t req.(Platform) subject (deviceKey req) tier) (Ok id); Ev TNow now])
      (token_respond d t id tier now).

Lemma NewToken_exec d r tr resp :
  exec any_env (NewToken d r) tt tr resp tt → token_outcome d r tr resp.
Proof.
  intros [H|(req & t & pre & tr' & Hd & Hpre & H & ->)]%admit_client_exec; [by apply token_refused|].
  unfold exchange_token in H.
  apply exec_bind in H as (mid & [subject tier] & [] & tr2 & Hmid & H & ->).
  apply attest_tier_exec in Hmid. simpl in Hmid.
  rewrite bind_Call in H. destruct H as (id & [] & tr3 & _ & -> & H). rewrite bind_Ret in H.
  destruct id as [id|[]].
  - rewrite bind_Call in H. destruct H as (now & [] & tr4 & _ & -> & -> & -> & _).
    by apply token_issued.
  - destruct H as (-> & -> & _). by apply token_no_install.
Qed.
End runs.

(** ** Concurrent requests on one Redis *)

Inductive token_request := AskToken (r : Request) | AskChallenge (r : Request).

Section concurrent.
Context `{J : JWX} `{Z0 : Gzip} `{C : TokenCodec}.
Context {R : RedisLib} {L : RedisLaws R}.

Definition serve (d : TokenDeps) (q : token_request) : Prog TokenE Response :=
  match q with AskToken r => NewToken d r | AskChallenge r => NewChallenge d r end.

(** Challenges and throttle work on Redis; the other services answer anything. *)
Definition token_sem : semantics TokenE Redis :=
  λ X e r x r',
    match e in TokenE X return X → Prop with
    | TQuota e => λ x, quota_sem _ e r x r'
    | TChallenges e => λ x, attest_sem _ e r x r'
    | _ => λ _, r' = r
    end x.

(** The only keys these endpoints touch are their own: throttle keys and challenges. *)
Definition own_keys (d : TokenDeps) (X : Type) (e : TokenE X) : Prop :=
  match e with
  | TQuota (EClientRate key ttl) =>
      (HasPrefix key "rl:token:" = true ∨ HasPrefix key "rl:challenge:" = true) ∧ 0 < ttl
  | TQuota _ => False
  | TChallenges (ASet k _ ttl) => HasPrefix k "att:{" = true ∧ ttl = d.(td_TTL)
  | TChallenges (AGetDel k) => HasPrefix k "att:{" = true
  | _ => True
  end.

Abbreviation own_program d := (guarantees (λ _ _ _, True) (own_keys d)).

Lemma throttle_guarantees d prefix clientID :
  prefix = "rl:token:" ∨ prefix = "rl:challenge:" → own_program d (throttle d prefix clientID).
Proof.
  intros Hp. unfold throttle. destruct (td_RateLimit d); [|done].
  apply guarantees_bind; [|by intros [[]|]]. unfold AllowClient. rewrite bind_call.
  split; [|by intros [n|] _]. split; [|done].
  rewrite !HasPrefix_spec. destruct Hp as [-> | ->]; [left|right]; by exists clientID.
Qed.

Lemma admit_client_guarantees d prefix r k :
  prefix = "rl:token:" ∨ prefix = "rl:challenge:" → (∀ req t, own_program d (k req t)) →
  own_program d (admit_client d prefix r k).
Proof.
  intros Hp Hk. unfold admit_client. destruct (decode_token r) as [req|]; [|done].
  split; [done|]. intros [t|] _; [|done].
  apply guarantees_bind; [by apply throttle_guarantees|]. intros [resp|]; [done|]. apply Hk.
Qed.

Lemma challenge_key_prefix client platform : HasPrefix (challenge_key client platform) "att:{" = true.
Proof. apply HasPrefix_spec. by eexists. Qed.

Lemma exchange_token_guarantees d req t : own_program d (exchange_token d req t).
Proof.
  apply guarantees_bind; [|intros [s tier]; split; [done|]; by intros [id|] _].
  apply guarantees_bind.
  - unfold Consume. case_bool_decide; [done|]. split; [apply challenge_key_prefix|].
    by intros [[got|]|] _.
  - intros []; [|done]. split; [done|]. by intros [s []] _.
Qed.

Lemma serve_guarantees d q : own_program d (serve d q).
Proof.
  destruct q as [r|r]; (apply admit_client_guarantees; [by (left + right)|]); intros req t.
  - apply exchange_token_guarantees.
  - split; [done|]. intros [raw|] _; [|done]. split; [split; [apply challenge_key_prefix|done]|].
    by intros [[]|] _.
Qed.

(** The challenges of [k] with value [v] that a call wrote or delivered. *)
Definition issued (k v : string) (ev : event TokenE) : nat :=
  match ev.(ev_call) with
  | TChallenges e => if is_issue k v e then 1 else 0
  | _ => 0
  end.
Definition spent (k v : string) (ev : event TokenE) : nat :=
  match ev.(ev_call) in TokenE X return X → nat with
  | TChallenges e => λ x, if is_spend k v e x then 1 else 0
  | _ => λ _, 0
  end%nat ev.(ev_answer).

(** The call for a Tier 0 install. *)
Definition asks_tier0 (ev : event TokenE) : Prop :=
  match ev.(ev_call) with TIssueInstall _ _ _ _ tier => tier = 0 | _ => False end.

(** An exchange that asks for Tier 0 has spent its challenge. *)
Lemma tier0_spends d r tr resp ev :
  token_outcome d r tr resp → ev ∈ tr → asks_tier0 ev →
  ∃ req, decode_token r = Ok req ∧
    Ev (TChallenges (AGetDel (challenge_key req.(ClientId) req.(Platform))))
      (Ok (Some req.(Challenge))) ∈ tr.
Proof.
  assert (∀ prefix c pre, admitted d prefix c pre → ev ∈ pre → ¬ asks_tier0 ev) as Hpre.
  { intros prefix c pre [] Hin; [by apply elem_of_nil in Hin|].
    apply list_elem_of_singleton in Hin as ->. by intros []. }
  assert (∀ req s tier mid, tier_calls req s tier mid → ev ∈ mid → ¬ asks_tier0 ev) as Hmid.
  { intros req s tier mid Hm Hin Hev. destruct Hm; set_unfold; destruct_or?; subst; done. }
  assert (∀ req s mid, tier_calls req s 0 mid → ∀ pre post : list (event TokenE),
    Ev (TChallenges (AGetDel (challenge_key req.(ClientId) req.(Platform))))
      (Ok (Some req.(Challenge))) ∈ pre ++ mid ++ post) as Hgot.
  { intros req s mid Hm pre post. inversion Hm; subst; [set_solver|done..]. }
  assert (∀ req t pre s tier mid a post, admitted d "rl:token:" req.(ClientId) pre →
    tier_calls req s tier mid → Forall (λ ev, ¬ asks_tier0 ev) post →
    let tr := Ev (TResolveTenant req.(ClientId)) (Ok t) :: pre ++ mid ++
      Ev (TIssueInstall t req.(Platform) s (deviceKey req) tier) a :: post in
    ev ∈ tr → asks_tier0 ev →
    Ev (TChallenges (AGetDel (challenge_key req.(ClientId) req.(Platform))))
      (Ok (Some req.(Challenge))) ∈ tr) as Hrun.
  { intros req t pre s tier mid a post Hp Hm Hpost tr0 Hin Hev. unfold tr0 in *.
    apply elem_of_cons in Hin as [->|[Hin|[Hin|[->|Hin]%elem_of_cons]%elem_of_app]%elem_of_app];
      [done|by destruct (Hpre _ _ _ Hp Hin)|by destruct (Hmid _ _ _ _ Hm Hin)| |].
    - cbn in Hev. subst tier. right. by eapply Hgot.
    - rewrite Forall_forall in Hpost. by destruct (Hpost ev Hin). }
  intros [tr' resp' Href|req t pre s tier mid Hd Hp Hm|req t pre s tier mid id now Hd Hp Hm] Hin Hev.
  - exfalso. destruct Href; set_unfold; destruct_or?; subst; done.
  - exists req. split; [done|]. eapply Hrun; eauto.
  - exists req. split; [done|]. eapply Hrun; eauto.
Qed.

Lemma clientRateScript_frame key ttl r j :
  0 < ttl → j ≠ key → rd_view (clientRateScript key ttl r).2 j = rd_view r j.
Proof.
  intros Ht Hne. unfold clientRateScript. destruct (rd_incrby key 1 r) as [[n r1]|] eqn:Hi; [|done].
  pose proof (rd_incrby_frame _ _ _ _ _ j Hi Hne) as Hf. simpl.
  destruct (_ || _); [|done]. by rewrite rd_expire_view, decide_False.
Qed.

Lemma token_sem_balance d client platform v X (e : TokenE X) r x r' :
  let k := challenge_key client platform in
  own_keys d X e → token_sem X e r x r' →
  True ∧ (outstanding k v r' + spent k v (Ev e x) ≤ outstanding k v r + issued k v (Ev e x))%nat.
Proof.
  intros k He H. split; [done|]. destruct e as [|c|X [rk dk n rps daily rt dt|key ttl]|X e|X e|];
    unfold spent, issued; simpl in *; try (subst; lia); try done.
  - destruct He as [Hp Ht]. rewrite !Nat.add_0_r.
    apply (served_invariant _ _ (λ r1, outstanding k v r1 ≤ outstanding k v r)%nat) in H; [done| |
      |done].
    + intros r1 Hr1. unfold outstanding. cbn [quota_exec].
      rewrite clientRateScript_frame; [exact Hr1|done|].
      intros <-. pose proof (challenge_key_prefix client platform) as Ha. fold k in Ha.
      destruct Hp as [Hp|Hp]; by rewrite (HasPrefix_conflict k "att:{" _ _ _ _ _ eq_refl eq_refl) in Hp.
    + intros d0 r1 Hd Hr1. pose proof (outstanding_elapse k v d0 r1 Hd). lia.
  - by apply attest_sem_balance.
Qed.
End concurrent.

Lemma decode_token_refusal `{Z0 : Gzip} `{C : TokenCodec} r resp :
  decode_token r = Err resp → resp.(w_status) = StatusBadRequest.
Proof.
  unfold decode_token. destruct (readBody r) as [b|]; [|by intros [= <-]].
  destruct (Unmarshal_TokenRequest b); by intros [= <-].
Qed.

Lemma token_respond_status `{J : JWX} `{C : TokenCodec} d t id tier now :
  (token_respond d t id tier now).(w_status) = StatusOK ∨
  (token_respond d t id tier now).(w_status) = StatusInternalServerError.
Proof.
  unfold token_respond. destruct (Mint _ _ _) as [[token exp]|]; [|by right].
  destruct (Marshal_TokenResponse _); [by left|by right].
Qed.

Lemma Join_cons_inj c x y xs x' y' xs' :
  has_byte c x = false → has_byte c x' = false →
  Join (x :: y :: xs) (of_bytes [c]) = Join (x' :: y' :: xs') (of_bytes [c]) →
  x = x' ∧ Join (y :: xs) (of_bytes [c]) = Join (y' :: xs') (of_bytes [c]).
Proof.
  intros Hx Hx' H.
  pose proof (proj2 (Cut_Some _ c x (Join (y :: xs) (of_bytes [c]))) (conj eq_refl Hx)) as H1.
  pose proof (proj2 (Cut_Some _ c x' (Join (y' :: xs') (of_bytes [c]))) (conj eq_refl Hx')) as H2.
  change (Join (x :: y :: xs) (of_bytes [c])) with (x +:+ String c (Join (y :: xs) (of_bytes [c]))) in H.
  change (Join (x' :: y' :: xs') (of_bytes [c])) with (x' +:+ String c (Join (y' :: xs') (of_bytes [c]))) in H.
  rewrite H in H1. rewrite H1 in H2. by injection H2.
Qed.

(** ** Properties *)

(** C32: a token is only ever issued for server-side facts: a 200 means the client id
    resolved to the tenant in the claims, the throttle (when there is one) counted at
    most 30 exchanges in the window, the install id in the claims is the one the
    control plane returned for that tenant, subject, device key and tier, the tier is
    0 exactly when the store delivered this challenge and the attestor verified the
    blob against it, and the body carries the minted token and must not be cached. *)
Theorem token_is_for_the_resolved_client `{J : JWX} `{Z0 : Gzip} `{C : TokenCodec}
    d r tr resp :
  exec any_env (NewToken d r) tt tr resp tt → resp.(w_status) = StatusOK →
  ∃ req tenantID pre subject tier mid installID now token expiresIn,
    decode_token r = Ok req ∧
    tr = Ev (TResolveTenant req.(ClientId)) (Ok tenantID) :: pre ++ mid ++
      [Ev (TIssueInstall tenantID req.(Platform) subject (deviceKey req) tier) (Ok installID);
       Ev TNow now] ∧
    admitted d "rl:token:" req.(ClientId) pre ∧ tier_calls req subject tier mid ∧
    Mint d.(td_Minter) {| TenantID := tenantID; InstallID := installID;
      Scope := ScopeWriteEvents; TrustTier := tier |} now = Some (token, expiresIn) ∧
    Marshal_TokenResponse {| AccessToken := token; ExpiresIn := expiresIn;
      tok_TrustTier := tier |} = Some resp.(w_body) ∧
    resp.(w_headers) !! "Cache-Control" = Some "no-store".
Proof.
  intros H%NewToken_exec Hs. destruct H as [tr resp Href| |req t pre subject tier mid id now Hd Hp Hm].
  - destruct Href as [resp Hd| | |]; try done.
    apply decode_token_refusal in Hd. by rewrite Hd in Hs.
  - done.
  - unfold token_respond in *. destruct (Mint _ _ _) as [[token expiresIn]|] eqn:Hmint; [|done].
    destruct (Marshal_TokenResponse _) as [out|] eqn:Hout; [|done].
    exists req, t, pre, subject, tier, mid, id, now, token, expiresIn. done.
Qed.

(** C33: attestation assigns a tier and never blocks, and nobody writes an install
    row unadmitted: a request is refused for its body (400), its client id (401) or
    its rate (429 with Retry-After 60), and then no challenge was spent and no install
    asked for; otherwise the only failures are those of the throttle's counter or of
    the control plane (503), or of signing and encoding (500). *)
Theorem exchange_refusals `{J : JWX} `{Z0 : Gzip} `{C : TokenCodec} d r tr resp :
  exec any_env (NewToken d r) tt tr resp tt →
  (resp.(w_status) = StatusBadRequest → decode_token r = Err resp ∧ tr = []) ∧
  (resp.(w_status) = StatusUnauthorized →
    ∃ req, decode_token r = Ok req ∧ tr = [Ev (TResolveTenant req.(ClientId)) (Err ())]) ∧
  (resp.(w_status) = StatusTooManyRequests →
    ∃ req t n, decode_token r = Ok req ∧ d.(td_RateLimit) = true ∧ 30 < n ∧
      tr = [Ev (TResolveTenant req.(ClientId)) (Ok t);
            Ev (TQuota (EClientRate ("rl:token:" +:+ req.(ClientId)) 60)) (Some n)] ∧
      resp.(w_headers) !! "Retry-After" = Some "60") ∧
  (resp.(w_status) = StatusServiceUnavailable →
    ∃ ev, last tr = Some ev ∧
      ((∃ key, ev = Ev (TQuota (EClientRate key 60)) None) ∨
       ∃ t p s k tier, ev = Ev (TIssueInstall t p s k tier) (Err ()))) ∧
  resp.(w_status) ∈ [StatusOK; StatusBadRequest; StatusUnauthorized; StatusTooManyRequests;
    StatusServiceUnavailable; StatusInternalServerError].
Proof.
  intros H%NewToken_exec.
  destruct H as [tr resp [resp' Hd|req Hd|req t Hd Hr|req t n Hd Hr Hn]|
    req t pre subject tier mid Hd Hp Hm|req t pre subject tier mid id now Hd Hp Hm].
  - pose proof (decode_token_refusal _ _ Hd) as Hs. rewrite Hs. split_and!; try done. set_solver.
  - split_and!; try done; [by exists req|set_solver].
  - split_and!; try done; [|set_solver]. intros _. eexists. split; [done|]. left. by eexists.
  - split_and!; try done; [|set_solver]. intros _. by exists req, t, n.
  - split_and!; try done; [|set_solver]. intros _. eexists. split.
    + by rewrite app_comm_cons, app_assoc, last_snoc.
    + right. by eexists _, _, _, _, _.
  - destruct (token_respond_status d t id tier now) as [Hs|Hs]; rewrite Hs;
      split_and!; try done; set_solver.
Qed.

(** C31: a captured attestation buys Tier 0 at most once: on one Redis, with any other
    exchanges and challenge requests interleaved and replies lost and commands
    repeated, two finished exchanges that asked for a Tier 0 install with the same
    client, platform and challenge are the same request, as long as the store issued
    that challenge once. *)
Theorem attestation_never_replayed `{J : JWX} `{Z0 : Gzip} `{C : TokenCodec}
    {R : RedisLib} {L : RedisLaws R} d qs r0 log ps r' i j ri rj reqi reqj respi respj evi evj :
  pool_run token_sem (serve d <$> qs, r0) log (ps, r') →
  qs !! i = Some (AskToken ri) → qs !! j = Some (AskToken rj) →
  ps !! i = Some (Ret respi) → ps !! j = Some (Ret respj) →
  decode_token ri = Ok reqi → decode_token rj = Ok reqj →
  (reqi.(ClientId), reqi.(Platform), reqi.(Challenge)) =
    (reqj.(ClientId), reqj.(Platform), reqj.(Challenge)) →
  (i, evi) ∈ log → (j, evj) ∈ log → asks_tier0 evi → asks_tier0 evj →
  (let k := challenge_key reqi.(ClientId) reqi.(Platform) in
   outstanding k reqi.(Challenge) r0 + total (issued k reqi.(Challenge)) log ≤ 1)%nat →
  i = j.
Proof.
  intros Hrun Hqi Hqj Hpi Hpj Hdi Hdj Hsame Hevi Hevj H0i H0j Honce. simpl in Honce.
  set (k := challenge_key reqi.(ClientId) reqi.(Platform)) in *.
  assert (∀ i r req resp ev, qs !! i = Some (AskToken r) → ps !! i = Some (Ret resp) →
    decode_token r = Ok req → (i, ev) ∈ log → asks_tier0 ev →
    (i, Ev (TChallenges (AGetDel (challenge_key req.(ClientId) req.(Platform))))
      (Ok (Some req.(Challenge)))) ∈ log) as Hspent.
  { clear -Hrun. intros i r req resp ev Hq Hp Hd Hin Hev.
    assert (exec any_env (NewToken d r) tt (calls_of i log) resp tt) as Hexec.
    { eapply pool_local; [exact Hrun| |done]. by rewrite list_lookup_fmap, Hq. }
    apply NewToken_exec in Hexec.
    destruct (tier0_spends _ _ _ _ ev Hexec) as (req' & Hd' & Hg); [by apply calls_of_elem|done|].
    rewrite Hd in Hd'. injection Hd' as <-. by apply calls_of_elem. }
  pose proof (Hspent _ _ _ _ _ Hqi Hpi Hdi Hevi H0i) as Hi.
  pose proof (Hspent _ _ _ _ _ Hqj Hpj Hdj Hevj H0j) as Hj.
  injection Hsame as Hs1 Hs2 Hs3. rewrite <-Hs1, <-Hs2, <-Hs3 in Hj. fold k in Hi, Hj.
  assert (0 < spent k reqi.(Challenge) (Ev (TChallenges (AGetDel k)) (Ok (Some reqi.(Challenge)))))%nat
    as Hpos by (unfold spent; simpl; rewrite !bool_decide_true by done; simpl; lia).
  eapply (total_two (spent k reqi.(Challenge))); [exact Hi|exact Hj|done|done|].
  pose proof (pool_balance token_sem (λ _ _ _, True) (own_keys d) (outstanding k reqi.(Challenge))
    (spent k reqi.(Challenge)) (issued k reqi.(Challenge)) _ _ _
    (λ X e w x w', token_sem_balance d _ _ _ X e w x w') Hrun) as Hbal.
  simpl in Hbal. assert (Forall (guarantees (λ _ _ _, True) (own_keys d)) (serve d <$> qs)) as Hqs.
  { apply Forall_fmap, Forall_true. intros q. apply serve_guarantees. }
  specialize (Hbal Hqs). lia.
Qed.

(** the Tier 1 anchor separates devices: two exchanges get the same device key
    exactly when client, platform and hint agree, unless SHA-256 has a collision;
    client ids and platforms carry no NUL. *)
Theorem deviceKey_separates req req' :
  has_byte (asciiZ 0) req.(ClientId) = false → has_byte (asciiZ 0) req.(Platform) = false →
  has_byte (asciiZ 0) req'.(ClientId) = false → has_byte (asciiZ 0) req'.(Platform) = false →
  (deviceKey req = deviceKey req' →
   (req.(ClientId), req.(Platform), req.(DeviceHint)) =
     (req'.(ClientId), req'.(Platform), req'.(DeviceHint)) ∨
   ∃ s s', s ≠ s' ∧ Sum256 s = Sum256 s') ∧
  ((req.(ClientId), req.(Platform), req.(DeviceHint)) =
     (req'.(ClientId), req'.(Platform), req'.(DeviceHint)) → deviceKey req = deviceKey req').
Proof.
  intros Hc Hp Hc' Hp'. split; cycle 1; [by unfold deviceKey; intros [= -> -> ->]|].
  unfold deviceKey. intros Hk. apply hex_encode_inj in Hk; [|apply Sum256_bytes_ok..].
  destruct (decide (Join [req.(ClientId); req.(Platform); req.(DeviceHint)] (of_bytes [asciiZ 0]) =
    Join [req'.(ClientId); req'.(Platform); req'.(DeviceHint)] (of_bytes [asciiZ 0]))) as [Hj|Hj];
    [left|by right; eexists _, _].
  apply Join_cons_inj in Hj as [H1 Hj]; [|done..]. apply Join_cons_inj in Hj as [H2 H3]; [|done..].
  simpl in H3. by rewrite H1, H2, H3.
Qed.

(** ** Witnesses *)

From S2P Require Import ToyJwx BatchProps.

Definition toy_exchange_req : TokenRequest := {|
  ClientId := "pk_live_demo"; Platform := "ios"; Attestation := "blob"; Challenge := "nonce";
  DeviceHint := "dev" |}.
#[export] Instance ToyTokenCodec : TokenCodec := {|
  Unmarshal_TokenRequest body := if bool_decide (body = "token") then Some toy_exchange_req else None;
  Marshal_TokenResponse resp := Some resp.(AccessToken)
|}.
Definition toy_token_request (body : string) : Request := {|
  r_Authorization := ""; r_ContentEncoding := ""; r_Body := {| s_bytes := body; s_end := EOF |} |}.
Definition toy_token_deps : TokenDeps (J:=ToyJWX) :=
  {| td_Minter := toy_minter; td_TTL := 5 * Minute; td_RateLimit := true |}.

(** Services in one fixed state: [n] exchanges counted, the challenge still there. *)
Definition toy_services (n : Z) (X : Type) (e : TokenE X) (w : unit) : X * unit :=
  match e in TokenE X return X * unit with
  | TNow => (toy_now, w)
  | TResolveTenant _ => (Ok "t1", w)
  | TQuota e => (match e in QuotaE X return X with
                 | EAllow _ _ _ _ _ _ _ => None | EClientRate _ _ => Some n end, w)
  | TChallenges e => (match e in AttestE X return X with
                      | ARandom _ => Err () | ASet _ _ _ => Ok () | AGetDel _ => Ok (Some "nonce") end, w)
  | TAttestor e => (match e in AttestorE X return X with AVerify _ _ _ => ("subject", true) end, w)
  | TIssueInstall _ _ _ _ _ => (Ok "ins_1", w)
  end.

Definition toy_exchange_trace : list (event TokenE) :=
  [Ev (TResolveTenant "pk_live_demo") (Ok "t1");
   Ev (TQuota (EClientRate "rl:token:pk_live_demo" 60)) (Some 3);
   Ev (TChallenges (AGetDel "att:{pk_live_demo}:ios")) (Ok (Some "nonce"));
   Ev (TAttestor (AVerify "ios" "blob" "nonce")) ("subject", true);
   Ev (TIssueInstall "t1" "ios" "subject" (deviceKey toy_exchange_req) 0) (Ok "ins_1");
   Ev TNow toy_now].
Definition toy_issued : Response :=
  token_respond (J:=ToyJWX) toy_token_deps "t1" "ins_1" 0 toy_now.

Lemma toy_exchange_run :
  exec any_env (NewToken toy_token_deps (toy_token_request "token")) tt toy_exchange_trace toy_issued tt.
Proof.
  apply (run_exec_any (toy_services 3) (NewToken toy_token_deps (toy_token_request "token"))
    tt _ _ tt). reflexivity.
Defined.

Lemma token_is_for_the_resolved_client_witness :
  ∃ req tenantID pre subject tier mid installID now,
    decode_token (toy_token_request "token") = Ok req ∧
    toy_exchange_trace = Ev (TResolveTenant req.(ClientId)) (Ok tenantID) :: pre ++ mid ++
      [Ev (TIssueInstall tenantID req.(Platform) subject (deviceKey req) tier) (Ok installID);
       Ev TNow now] ∧
    admitted toy_token_deps "rl:token:" req.(ClientId) pre ∧ tier_calls req subject tier mid.
Proof.
  destruct (token_is_for_the_resolved_client toy_token_deps (toy_token_request "token")
    toy_exchange_trace toy_issued toy_exchange_run eq_refl)
    as (req & t & pre & s & tier & mid & id & now & _ & _ & H1 & H2 & H3 & H4 & _).
  exists req, t, pre, s, tier, mid, id, now. auto.
Defined.

(** A client over its rate, with a challenge it never gets to spend. *)
Lemma exchange_refusals_witness :
  ∃ req t n, decode_token (toy_token_request "token") = Ok req ∧
    toy_token_deps.(td_RateLimit) = true ∧ 30 < n ∧
    [Ev (TResolveTenant "pk_live_demo") (Ok "t1");
     Ev (TQuota (EClientRate "rl:token:pk_live_demo" 60)) (Some 31)] =
    [Ev (TResolveTenant req.(ClientId)) (Ok t);
     Ev (TQuota (EClientRate ("rl:token:" +:+ req.(ClientId)) 60)) (Some n)] ∧
    ({[ "Retry-After" := "60" ]} : gmap string string) !! "Retry-After" = Some "60".
Proof.
  set (resp := httpError {[ "Retry-After" := "60" ]} StatusTooManyRequests "rate_limit").
  destruct (exchange_refusals toy_token_deps (toy_token_request "token")
    [Ev (TResolveTenant "pk_live_demo") (Ok "t1");
     Ev (TQuota (EClientRate "rl:token:pk_live_demo" 60)) (Some 31)] resp)
    as (_ & _ & H & _).
  - apply (run_exec_any (toy_services 31) (NewToken toy_token_deps (toy_token_request "token"))
      tt _ _ tt). reflexivity.
  - destruct (H eq_refl) as (req & t & n & H1 & H2 & H3 & H4 & _).
    exists req, t, n. auto.
Defined.

Lemma deviceKey_separates_witness :
  let other := {| ClientId := "pk_live_demo"; Platform := "ios"; Attestation := ""; Challenge := "";
                  DeviceHint := "dev2" |} in
  deviceKey toy_exchange_req = deviceKey other →
  ("pk_live_demo", "ios", "dev") = ("pk_live_demo", "ios", "dev2") ∨
  ∃ s s', s ≠ s' ∧ Sum256 s = Sum256 s'.
Proof.
  intros other. exact (proj1 (deviceKey_separates toy_exchange_req other
    eq_refl eq_refl eq_refl eq_refl)).
Defined.

(** The challenge is outstanding; one exchange spends it. *)
Definition toy_redis : Redis (RedisLib:=ToyRedis) :=
  ({[ "att:{pk_live_demo}:ios" := ("nonce", Some 300000) ]} : gmap string (string * option Z)).
Definition toy_counted : Redis (RedisLib:=ToyRedis) :=
  (clientRateScript "rl:token:pk_live_demo" 60 toy_redis).2.
Definition toy_spent : Redis (RedisLib:=ToyRedis) :=
  (getdel_op "att:{pk_live_demo}:ios" toy_counted).2.
Definition toy_exchange_log : list (nat * event TokenE) :=
  [(0%nat, Ev (TResolveTenant "pk_live_demo") (Ok "t1"));
   (0%nat, Ev (TQuota (EClientRate "rl:token:pk_live_demo" 60)) (Some 1));
   (0%nat, Ev (TChallenges (AGetDel "att:{pk_live_demo}:ios")) (Ok (Some "nonce")));
   (0%nat, Ev (TAttestor (AVerify "ios" "blob" "nonce")) ("subject", true));
   (0%nat, Ev (TIssueInstall "t1" "ios" "subject" (deviceKey toy_exchange_req) 0) (Ok "ins_1"));
   (0%nat, Ev TNow toy_now)].

Lemma toy_exchange_pool :
  pool_run token_sem (serve toy_token_deps <$> [AskToken (toy_token_request "token")], toy_redis)
    toy_exchange_log ([Ret toy_issued], toy_spent).
Proof.
  unfold toy_exchange_log. pool_tick; [done|].
  pool_tick; [exact (served_now (quota_exec (EClientRate "rl:token:pk_live_demo" 60)) None toy_redis)|].
  pool_tick; [exact (served_now (getdel_op "att:{pk_live_demo}:ios") (Err ()) toy_counted)|].
  pool_tick; [done|]. pool_tick; [done|]. pool_tick; [done|]. apply pool_done.
Defined.

Lemma attestation_never_replayed_witness :
  outstanding "att:{pk_live_demo}:ios" "nonce" toy_redis = 1%nat ∧ 0%nat = 0%nat.
Proof.
  split; [reflexivity|].
  apply (attestation_never_replayed toy_token_deps [AskToken (toy_token_request "token")] toy_redis
    toy_exchange_log [Ret toy_issued] toy_spent 0 0 (toy_token_request "token")
    (toy_token_request "token") toy_exchange_req toy_exchange_req toy_issued toy_issued
    (Ev (TIssueInstall "t1" "ios" "subject" (deviceKey toy_exchange_req) 0) (Ok "ins_1"))
    (Ev (TIssueInstall "t1" "ios" "subject" (deviceKey toy_exchange_req) 0) (Ok "ins_1"))
    toy_exchange_pool); try reflexivity.
  - unfold toy_exchange_log. by do 4 right; left.
  - unfold toy_exchange_log. by do 4 right; left.
Defined.
