(* ===== verification/Insert.v ===== *)
(** * Package clickhouse, insert.go: writing rows

    [InsertEvents] drives one batch of the driver.  Append is positional, so a row is
    sent as a list of cells and lands under the column names of the INSERT.  The server
    writes a block partition by partition, so a Send that fails may have stored the rows
    of some months. *)
From S2P Require Import Prelude GoTime Prog Limits Enrich.
#[local] Open Scope Z_scope.

(** ** Columns *)

Inductive cell :=
| CText (s : string)
| CTime (t : Time)
| CUInt (z : Z).

Definition insert_columns : list string :=
  ["tenant_id"; "event_id"; "name"; "ts"; "ts_client"; "ts_received";
   "user_id"; "anonymous_id"; "device_id"; "session_id"; "seq";
   "app_version"; "sdk_version"; "os"; "os_version"; "locale";
   "trust_tier"; "install_id"; "props"].

(** The arguments of [batch.Append]. *)
Definition row_cells (r : Row) : list cell :=
  [CText r.(row_TenantID); CText r.(row_EventID); CText r.(row_Name);
   CTime r.(row_TS); CTime r.(row_TSClient); CTime r.(row_TSReceived);
   CText r.(row_UserID); CText r.(row_AnonymousID); CText r.(row_DeviceID);
   CText r.(row_SessionID); CUInt r.(row_Seq);
   CText r.(row_AppVersion); CText r.(row_SDKVersion); CText r.(row_OS);
   CText r.(row_OSVersion); CText r.(row_Locale);
   CUInt r.(row_TrustTier); CText r.(row_InstallID); CText r.(row_Props)].

(** ** The driver's batch *)

Inductive ClickE : Type → Type :=
| CPrepare (columns : list string) : ClickE (result () ())
| CAppend (cells : list cell) : ClickE (result () ())
| CSend : ClickE (result () ())
| CAbort : ClickE ().

Inductive insert_err := ErrPrepare | ErrAppend (eventID : string) | ErrSend.

Fixpoint append_all (rows : list Row) : Prog ClickE (result insert_err ()) :=
  match rows with
  | [] => Ret (Ok ())
  | r :: rows =>
      a ← Call (CAppend (row_cells r)) Ret;
      match a with
      | Err _ => Ret (Err (ErrAppend r.(row_EventID)))
      | Ok _ => append_all rows
      end
  end.

(** [InsertEvents(ctx, conn, rows)]; the deferred Abort runs on every exit after
    the batch was prepared. *)
Definition InsertEvents (rows : list Row) : Prog ClickE (result insert_err ()) :=
  match rows with
  | [] => Ret (Ok ())
  | _ =>
      p ← Call (CPrepare insert_columns) Ret;
      match p with
      | Err _ => Ret (Err ErrPrepare)
      | Ok _ =>
          a ← append_all rows;
          res ← (match a with
                 | Err e => Ret (Err e)
                 | Ok _ =>
                     s ← Call CSend Ret;
                     Ret (match s with Err _ => Err ErrSend | Ok _ => Ok () end)
                 end);
          _ ← Call CAbort Ret;
          Ret res
      end
  end.

(** ** The server *)

Definition Stored : Type := gmap string cell.

(** The flushed rows, and the batch being built with its columns. *)
Record Click := {
  table : list (gmap string cell);
  batch : option (list string * list (list cell))
}.

Definition named (columns : list string) (cells : list cell) : gmap string cell :=
  list_to_map (zip columns cells).
Definition stored (r : Row) : gmap string cell := named insert_columns (row_cells r).

(** The partition of a row of the events table, [toYYYYMM(event_date)]: year and month. *)
Definition partition_key (row : gmap string cell) : option (Z * Z) :=
  match row !! "ts" with Some (CTime t) => Some (civil_of_days (unix_day t)).1 | _ => None end.

Lemma partition_key_stored r :
  partition_key (stored r) = Some (civil_of_days (unix_day r.(row_TS))).1.
Proof. reflexivity. Qed.

(** The rows an INSERT sends as one block, by default. *)
Definition max_insert_block_size : Z := 1048449.

(** What an INSERT of [rows] that fails may have written.  ClickHouse writes the rows of
    a block partition by partition, each of them as a whole or not at all; of rows in
    several blocks, any may be written. *)
Definition partly_written (rows new : list Stored) : Prop :=
  new `sublist_of` rows ∧
  (Z.of_nat (length rows) ≤ max_insert_block_size →
    ∃ parts : option (Z * Z) → bool, new = base.filter (λ row, parts (partition_key row) = true) rows).

(** With wait_for_async_insert=1 a successful Send has flushed the whole batch; one
    that errs may have flushed any part of it.  Abort drops what was not sent. *)
Definition click_sem : semantics ClickE Click :=
  λ X e w x w',
    match e in ClickE X return X → Prop with
    | CPrepare cols => λ a,
        match a with
        | Ok _ => w' = {| table := w.(table); batch := Some (cols, []) |}
        | Err _ => w' = w
        end
    | CAppend cells => λ a,
        match a, w.(batch) with
        | Ok _, Some (cols, l) => w' = {| table := w.(table); batch := Some (cols, l ++ [cells]) |}
        | Ok _, None => False
        | Err _, _ => w' = w
        end
    | CSend => λ a,
        match w.(batch) with
        | None => w' = w ∧ a = Err ()
        | Some (cols, l) =>
            (a = Ok () ∧ w' = {| table := w.(table) ++ (named cols <$> l); batch := None |}) ∨
            (a = Err () ∧ ∃ new, partly_written (named cols <$> l) new ∧
              w' = {| table := w.(table) ++ new; batch := None |})
        end
    | CAbort => λ _, w' = {| table := w.(table); batch := None |}
    end x.

Lemma append_all_exec rows w tr a w' cols l :
  w.(batch) = Some (cols, l) → exec click_sem (append_all rows) w tr a w' →
  w'.(table) = w.(table) ∧ match a with
  | Ok _ => w'.(batch) = Some (cols, l ++ (row_cells <$> rows))
  | Err e => ∃ r, r ∈ rows ∧ e = ErrAppend r.(row_EventID)
  end.
Proof.
  revert w tr l. induction rows as [|r rows IH]; intros w tr l Hb H; cbn [append_all] in H.
  { destruct H as (_ & -> & ->). by rewrite app_nil_r. }
  rewrite bind_Call in H. destruct H as (x & w1 & tr' & Hx & _ & H). rewrite bind_Ret in H.
  destruct x as [[]|e]; simpl in Hx.
  - rewrite Hb in Hx. subst w1. assert (batch {| table := w.(table); batch := Some (cols, l ++ [row_cells r]) |} =
      Some (cols, l ++ [row_cells r])) as Hb' by done.
    destruct (IH _ _ _ Hb' H) as [Ht Ha]. simpl in Ht.
    split; [done|]. destruct a.
    + by rewrite Ha, <-app_assoc.
    + destruct Ha as (r' & ? & ?). exists r'. split; [by right|done].
  - destruct H as (_ & -> & ->). subst. split; [done|]. exists r. split; [by left|done].
Qed.

Lemma partly_none rows : partly_written rows [].
Proof.
  split; [apply sublist_nil_l|]. intros _. exists (λ _, false). induction rows as [|row rows IH]; [done|]. by rewrite filter_cons, decide_False.
Qed.

Lemma InsertEvents_exec rows w tr a w' :
  exec click_sem (InsertEvents rows) w tr a w' →
  (w.(batch) = None → w'.(batch) = None) ∧
  match a with
  | Ok _ => w'.(table) = w.(table) ++ (stored <$> rows)
  | Err e => rows ≠ [] ∧ ∃ new, w'.(table) = w.(table) ++ new ∧ partly_written (stored <$> rows) new ∧
      (new ≠ [] → e = ErrSend)
  end.
Proof.
  assert (∀ (w0 : Click) rows (e : insert_err), rows ≠ [] → rows ≠ [] ∧ ∃ new,
    w0.(table) = w0.(table) ++ new ∧ partly_written (stored <$> rows) new ∧ (new ≠ [] → e = ErrSend)) as Hnone.
  { intros w0 rows0 e Hne. split; [done|]. exists []. split_and!; [by rewrite app_nil_r|apply partly_none|done]. }
  intros H. destruct rows as [|r rows]; [destruct H as (_ & -> & ->); by rewrite app_nil_r|].
  unfold InsertEvents in H. remember (r :: rows) as all eqn:Hall.
  rewrite bind_Call in H. destruct H as (p & w1 & tr1 & Hp & _ & H). rewrite bind_Ret in H.
  destruct p as [[]|e]; simpl in Hp; [|destruct H as (_ & -> & ->); subst w1; split; [done|]; apply Hnone; by subst].
  apply exec_bind in H as (tr2 & aa & w2 & tr3 & Happ & H & _).
  subst w1. assert (batch {| table := w.(table); batch := Some (insert_columns, []) |} =
    Some (insert_columns, [])) as Hb' by done.
  destruct (append_all_exec _ _ _ _ _ _ _ Hb' Happ) as [Ht Ha]. simpl in Ht, Ha. clear Happ.
  assert (all ≠ []) as Hne by by subst.
  apply exec_bind in H as (tr4 & res & w3 & tr5 & Hsend & Habort & _).
  rewrite bind_Call in Habort. destruct Habort as ([] & w4 & tr6 & Hw4 & _ & Hret). simpl in Hw4.
  destruct Hret as (_ & -> & ->). subst w4. split; [done|]. cbn [table].
  destruct aa as [[]|e].
  - rewrite bind_Call in Hsend. destruct Hsend as (s & w5 & tr7 & Hs & _ & _ & -> & ->).
    simpl in Hs. rewrite Ha in Hs. rewrite <-Ht.
    rewrite <-(list_fmap_compose row_cells (named insert_columns)) in Hs.
    destruct Hs as [[-> ->]|(-> & new & Hnew & ->)]; [done|]. split; [done|]. by exists new.
  - destruct Hsend as (_ & -> & ->). rewrite <-Ht. by apply Hnone.
Qed.

(** The driver and the server can accept any rows. *)
Lemma append_all_runs rows T cols l :
  ∃ tr, exec click_sem (append_all rows) {| table := T; batch := Some (cols, l) |} tr (Ok ())
    {| table := T; batch := Some (cols, l ++ (row_cells <$> rows)) |}.
Proof.
  revert l. induction rows as [|r rows IH]; intros l.
  { exists []. by rewrite app_nil_r. }
  destruct (IH (l ++ [row_cells r])) as [tr Htr]. rewrite <-app_assoc in Htr.
  exists (Ev (CAppend (row_cells r)) (Ok ()) :: tr). cbn [append_all]. rewrite bind_Call.
  by exists (Ok ()), {| table := T; batch := Some (cols, l ++ [row_cells r]) |}, tr.
Qed.

Lemma InsertEvents_runs rows T :
  ∃ tr, exec click_sem (InsertEvents rows) {| table := T; batch := None |} tr (Ok ())
    {| table := T ++ (stored <$> rows); batch := None |}.
Proof.
  destruct rows as [|r rows]; [exists []; by rewrite app_nil_r|].
  destruct (append_all_runs (r :: rows) T insert_columns []) as [tr Htr].
  exists (Ev (CPrepare insert_columns) (Ok ()) :: tr ++ [Ev CSend (Ok ()); Ev CAbort ()]).
  unfold InsertEvents. rewrite bind_Call.
  exists (Ok ()), {| table := T; batch := Some (insert_columns, []) |}, (tr ++ [Ev CSend (Ok ()); Ev CAbort ()]).
  split_and!; [done|done|]. rewrite bind_Ret. apply exec_bind.
  eexists tr, (Ok ()), _, [Ev CSend (Ok ()); Ev CAbort ()]. split_and!; [exact Htr| |done].
  rewrite bind_Call.
  eexists (Ok ()), {| table := T ++ (stored <$> r :: rows); batch := None |}, [Ev CAbort ()].
  split_and!; [left; split; [done|]|done|].
  - simpl. by rewrite <-list_fmap_compose.
  - by exists (), {| table := T ++ (stored <$> r :: rows); batch := None |}, [].
Qed.


Example stored_columns r :
  stored r !! "tenant_id" = Some (CText r.(row_TenantID)) ∧
  stored r !! "ts" = Some (CTime r.(row_TS)) ∧
  stored r !! "ts_received" = Some (CTime r.(row_TSReceived)) ∧
  stored r !! "trust_tier" = Some (CUInt r.(row_TrustTier)) ∧
  length insert_columns = length (row_cells r).
Proof. split_and!; reflexivity. Qed.

(** ** Witnesses *)

Definition toy_click : Click := {| table := []; batch := None |}.

Definition toy_click_row : Row := mkRow "t1" "e1" "n" 0 0 0 "" "" "d" "s" 1 "" "" "" "" "" 1 "i1" "{}".

Definition toy_click_later : Row := mkRow "t1" "e2" "n" (40 * Day) 0 0 "" "" "d" "s" 1 "" "" "" "" "" 1 "i1" "{}".

