(* ===== verification/Table.v ===== *)
(** * The events table (pkg/clickhouse/sql/0001_events.sql)

    The columns of the table with their types, its sorting key, version column and TTL.
    Its dates are those of the years 1970 to 2149, the range of Date.  The table is a
    ReplacingMergeTree: the server collapses the rows of one sorting key in a partition to
    one of the newest version, at a time of its own choosing, and a query with FINAL sees
    them collapsed.  The server is outside the repository:
    [Merging] is that view of a table, with the documented laws. *)
From stdpp Require Import fin_map_dom.
From S2P Require Import Prelude GoTime Proto Validate Token Enrich Insert.
#[local] Open Scope Z_scope.

(** ** Columns *)

Inductive column_type :=
| TString                    (* String, LowCardinality(String) *)
| TUUID
| TDateTime64                (* DateTime64(3, 'UTC') *)
| TDate
| TUInt64
| TUInt8.

(** A column, and whether the server computes it (MATERIALIZED). *)
Record column := { col_name : string; col_type : column_type; col_materialized : bool }.

Definition col (name : string) (ty : column_type) : column :=
  {| col_name := name; col_type := ty; col_materialized := false |}.

Definition events_columns : list column :=
  [col "tenant_id" TString; col "event_id" TUUID; col "name" TString;
   col "ts" TDateTime64; col "ts_client" TDateTime64; col "ts_received" TDateTime64;
   {| col_name := "event_date"; col_type := TDate; col_materialized := true |};
   col "user_id" TString; col "anonymous_id" TString; col "device_id" TString;
   col "session_id" TString; col "seq" TUInt64;
   col "app_version" TString; col "sdk_version" TString; col "os" TString;
   col "os_version" TString; col "locale" TString;
   col "trust_tier" TUInt8; col "install_id" TString; col "props" TString].

(** The columns an INSERT has to provide, in order. *)
Definition insertable : list column := base.filter (λ c, c.(col_materialized) = false) events_columns.

Lemma insert_columns_match : insert_columns = col_name <$> insertable.
Proof. reflexivity. Qed.

Section types.
Context `{U : UUIDLib}.

(** The values a column can hold.  DateTime64(3) keeps whole milliseconds of the years
    1900 to 2299. *)
Definition fits (ty : column_type) (c : cell) : bool :=
  match ty, c with
  | TString, CText _ => true
  | TUUID, CText s => canonical_uuid s
  | TDateTime64, CTime t =>
      bool_decide (minTsClientMS ≤ t `div` Millisecond ≤ maxTsClientMS)
  | TUInt64, CUInt z => bool_decide (0 ≤ z < 2 ^ 64)
  | TUInt8, CUInt z => bool_decide (0 ≤ z < 2 ^ 8)
  | _, _ => false
  end.

(** A row of the table: a fitting value for every insertable column and nothing else. *)
Definition well_typed (row : Stored) : Prop :=
  dom (row : gmap string cell) = (list_to_set (col_name <$> insertable) : gset string) ∧
  Forall (λ c, ∃ x, row !! c.(col_name) = Some x ∧ fits c.(col_type) x = true) insertable.

(** Cells that fit their columns one by one. *)
Lemma named_well_typed cells :
  Forall2 (λ c x, fits c.(col_type) x = true) insertable cells →
  well_typed (named insert_columns cells).
Proof.
  intros Hf. pose proof (Forall2_length _ _ _ Hf) as Hlen.
  assert ((zip insert_columns cells).*1 = insert_columns) as Hfst.
  { apply fst_zip. rewrite insert_columns_match, length_fmap. by rewrite Hlen. }
  assert (NoDup insert_columns) as Hnd by (by apply (bool_decide_unpack _); vm_compute).
  unfold well_typed, named. rewrite dom_list_to_map_L, Hfst, insert_columns_match. split; [done|].
  apply Forall_forall. intros c Hc. apply list_elem_of_lookup_1 in Hc as [i Hi].
  destruct (Forall2_lookup_l _ _ _ _ _ Hf Hi) as (x & Hx & Hfit). exists x. split; [|done].
  apply elem_of_list_to_map_1; [by rewrite <-insert_columns_match, Hfst|].
  apply list_elem_of_lookup. exists i. rewrite lookup_zip_with, list_lookup_fmap, Hi. simpl.
  by rewrite Hx.
Qed.
End types.

(** ** What the service writes is well typed *)

(** Receipt clocks of the years 1901 to 2298: a month before and a day after them is
    still a DateTime64. *)
Definition sane_clock (now : Time) : Prop :=
  Date 1901 1 1 0 0 0 0 ≤ now < Date 2299 1 1 0 0 0 0.

Lemma sane_window now ts : sane_clock now → in_window ts now →
  minTsClientMS ≤ ts `div` Millisecond ≤ maxTsClientMS.
Proof.
  unfold sane_clock, in_window.
  assert (Date 1901 1 1 0 0 0 0 = -2177452800000000000 ∧ Date 2299 1 1 0 0 0 0 = 10382256000000000000 ∧
    minTsClientMS = -2208988800000 ∧ maxTsClientMS = 10413791999999 ∧
    MaxPastSkew = 2592000000000000 ∧ MaxFutureSkew = 86400000000000) as (-> & -> & -> & -> & -> & ->)
    by (split_and!; vm_compute; done).
  unfold Millisecond. intros. split; divlia.
Qed.
Lemma sane_self now : sane_clock now → in_window now now.
Proof. intros _. unfold in_window, MaxPastSkew, MaxFutureSkew, Hour, Minute, Second. lia. Qed.

Lemma enriched_row_typed `{U : UUIDLib} e claims o now row clamped :
  storable e → 0 ≤ Event_GetSeq e < 2 ^ 64 → claims.(TrustTier) = 0 ∨ claims.(TrustTier) = 1 →
  sane_clock now → enrich_Row e claims o now = (row, clamped) → well_typed (stored row).
Proof.
  intros He Hseq Htier Hnow Hrow. unfold enrich_Row in Hrow.
  destruct (Correct (Event_GetTsClient e) o now) as [ts c] eqn:Hc. injection Hrow as <- <-.
  assert (minTsClientMS ≤ ts `div` Millisecond ≤ maxTsClientMS) as Hts.
  { destruct (Correct_spec (Event_GetTsClient e) o now) as [[Hw Hco]|[_ Hco]];
      rewrite Hco in Hc; injection Hc as <- <-.
    - by eapply sane_window.
    - by apply (sane_window now); [|apply sane_self]. }
  apply named_well_typed. unfold row_cells, insertable, events_columns. simpl.
  repeat (constructor; [try reflexivity|]); [..|constructor].
  - by apply He.
  - by apply bool_decide_eq_true.
  - apply bool_decide_eq_true. unfold FromUnixMilli. rewrite Z.div_mul by done. apply He.
  - apply bool_decide_eq_true. by apply (sane_window now); [|apply sane_self].
  - by apply bool_decide_eq_true.
  - apply bool_decide_eq_true. lia.
Qed.

(** ** Sorting key, partition and version *)

#[export] Instance cell_eq_dec : EqDecision cell.
Proof. solve_decision. Defined.

(** What a column compares: a DateTime64(3) its milliseconds. *)
Definition key_cell (c : cell) : cell := match c with CTime t => CUInt (UnixMilli t) | c => c end.

Definition order_by : list string := ["tenant_id"; "name"; "ts"; "event_id"].
Definition order_key (row : gmap string cell) : list (option cell) :=
  (λ c, key_cell <$> row !! c) <$> order_by.

(** The version column of ReplacingMergeTree(ts_received). *)
Definition version (row : gmap string cell) : Z :=
  match row !! "ts_received" with Some (CTime t) => UnixMilli t | _ => 0 end.

Lemma order_key_stored r :
  order_key (stored r) =
    [Some (CText r.(row_TenantID)); Some (CText r.(row_Name));
     Some (CUInt (UnixMilli r.(row_TS))); Some (CText r.(row_EventID))].
Proof. reflexivity. Qed.

Lemma order_key_sort_key r r' :
  order_key (stored r) = order_key (stored r') ↔ sort_key r = sort_key r'.
Proof. rewrite !order_key_stored. unfold sort_key. split; [by intros [= -> -> -> ->]|by intros [= -> -> -> ->]]. Qed.

(** ** TTL event_date + INTERVAL 13 MONTH DELETE *)

(** The month [n] months after month [m] of year [y]. *)
Definition month_after (y m n : Z) : Z * Z := (y + (m - 1 + n) `div` 12, (m - 1 + n) `mod` 12 + 1).
Definition days_in_month (y m : Z) : Z :=
  let '(y', m') := month_after y m 1 in days_of_civil y' m' 1 - days_of_civil y m 1.

(** A date plus months: the same day of a later month, or its last day. *)
Definition add_months (n day : Z) : Z :=
  let '(y, m, d) := civil_of_days day in
  let '(y', m') := month_after y m n in
  days_of_civil y' m' (d `min` days_in_month y' m').

(** From when on the server may delete a row. *)
Definition expiry (row : gmap string cell) : option Time :=
  match row !! "ts" with Some (CTime t) => Some (add_months 13 (unix_day t) * Day) | _ => None end.
Definition expired (now : Time) (row : gmap string cell) : bool :=
  match expiry row with Some t => bool_decide (t ≤ now) | None => false end.

Example add_months_ex :
  add_months 13 (days_of_civil 2023 1 31) = days_of_civil 2024 2 29 ∧
  add_months 13 (days_of_civil 2022 1 31) = days_of_civil 2023 2 28 ∧
  add_months 13 (days_of_civil 2026 8 2) = days_of_civil 2027 9 2.
Proof. by vm_compute. Qed.

(** The first day of March of year [y], from that of year 0, and of the months from it. *)
Definition year_start (y : Z) : Z :=
  y `div` 400 * 146097 + (y `mod` 400) * 365 + (y `mod` 400) `div` 4 - (y `mod` 400) `div` 100 - 719468.
Lemma year_start_next y : year_start y + 365 ≤ year_start (y + 1).
Proof. unfold year_start. divlia. Qed.

Lemma days_of_civil_start y m d :
  days_of_civil y m d =
    (if bool_decide (m ≤ 2) then year_start (y - 1) + (153 * (m + 9) + 2) `div` 5
     else year_start y + (153 * (m - 3) + 2) `div` 5) + d - 1.
Proof. unfold days_of_civil, year_start. repeat case_bool_decide; lia. Qed.

(** The days of a year that starts in March before each month. *)
Definition month_starts : list Z := [306; 337; 0; 31; 61; 92; 122; 153; 184; 214; 245; 275].
Lemma days_of_month y m d n :
  month_starts !! Z.to_nat (m - 1) = Some n → 1 ≤ m ≤ 12 →
  days_of_civil y m d = year_start (if bool_decide (m ≤ 2) then y - 1 else y) + n + d - 1.
Proof.
  intros Hn Hm. rewrite days_of_civil_start.
  assert (m = 1 ∨ m = 2 ∨ m = 3 ∨ m = 4 ∨ m = 5 ∨ m = 6 ∨ m = 7 ∨ m = 8 ∨ m = 9 ∨ m = 10 ∨ m = 11 ∨ m = 12)
    as Hcases by lia.
  repeat destruct Hcases as [->|Hcases]; try subst m; injection Hn as <-; case_bool_decide; try lia; divlia.
Qed.

Lemma month_after_13 y m : 1 ≤ m ≤ 12 →
  month_after y m 13 = if bool_decide (m = 12) then (y + 2, 1) else (y + 1, m + 1).
Proof. intros Hm. unfold month_after. case_bool_decide; f_equal; divlia. Qed.
Lemma month_after_1 y m : 1 ≤ m ≤ 12 →
  month_after y m 1 = if bool_decide (m = 12) then (y + 1, 1) else (y, m + 1).
Proof. intros Hm. unfold month_after. case_bool_decide; f_equal; divlia. Qed.

#[local] Ltac settle := repeat (case_bool_decide; try (exfalso; lia)).

(** Thirteen months are a year and a February at least. *)
Lemma add_13_months day : day + 393 ≤ add_months 13 day.
Proof.
  unfold add_months. pose proof (civil_roundtrip day) as H.
  destruct (civil_of_days day) as [[y m] d]. destruct H as (<- & Hm & Hd).
  rewrite month_after_13 by done.
  pose proof (year_start_next (y - 1)) as H1. pose proof (year_start_next y) as H2.
  pose proof (year_start_next (y + 1)) as H3.
  replace (y - 1 + 1) with y in H1 by lia. replace (y + 1 + 1) with (y + 2) in H3 by lia.
  assert (m = 1 ∨ m = 2 ∨ m = 3 ∨ m = 4 ∨ m = 5 ∨ m = 6 ∨ m = 7 ∨ m = 8 ∨ m = 9 ∨ m = 10 ∨ m = 11 ∨ m = 12)
    as Hcases by lia.
  repeat destruct Hcases as [->|Hcases]; try subst m;
    settle; unfold days_in_month; rewrite month_after_1 by lia; settle;
    repeat (erewrite days_of_month; [|reflexivity|lia]); settle;
    replace (y + 1 + 1 - 1) with (y + 1) by lia; replace (y + 1 - 1) with y by lia; replace (y + 2 - 1) with (y + 1) by lia; lia.
Qed.

Lemma stored_ts r : stored r !! "ts" = Some (CTime r.(row_TS)).
Proof. reflexivity. Qed.
Lemma expiry_stored r : expiry (stored r) = Some (add_months 13 (unix_day r.(row_TS)) * Day).
Proof. unfold expiry. by rewrite stored_ts. Qed.

(** A row the service stores is kept for 362 days and more after its receipt. *)
Lemma stored_not_expired r now :
  in_window r.(row_TS) r.(row_TSReceived) → now < r.(row_TSReceived) + 362 * Day → expired now (stored r) = false.
Proof.
  intros [Hw _] Hnow. unfold expired. rewrite expiry_stored. apply bool_decide_eq_false, Z.nle_gt.
  pose proof (add_13_months (unix_day r.(row_TS))) as H13. pose proof (unix_day_bounds r.(row_TS)) as Hday.
  revert H13. generalize (add_months 13 (unix_day r.(row_TS))) as later. intros later H13.
  assert (MaxPastSkew = 30 * Day) as Hskew by done. rewrite Hskew in Hw.
  assert (0 < Day) as Hpos by done. revert Hskew Hpos Hw Hnow Hday. generalize Day as D. intros D _. nia.
Qed.

Lemma enriched_row_kept `{U : UUIDLib} e claims o received row clamped now :
  enrich_Row e claims o received = (row, clamped) → now < received + 362 * Day → expired now (stored row) = false.
Proof.
  intros Hrow Hnow. assert (row.(row_TSReceived) = received) as Hr.
  { unfold enrich_Row in Hrow. destruct (Correct _ _ _). by injection Hrow as <- _. }
  apply stored_not_expired; rewrite Hr; [|done].
  apply enrich_Row_clamped in Hrow as (_ & _ & _ & Hc).
  destruct (Correct_spec (Event_GetTsClient e) o received) as [[Hw Hco]|[_ Hco]]; rewrite Hco in Hc; injection Hc as -> _.
  - exact Hw.
  - unfold in_window, MaxPastSkew, MaxFutureSkew, Hour, Minute, Second. lia.
Qed.

(** What a query with FINAL sees at a time of a table with these rows inserted. *)
Class Merging := final : Time → list (gmap string cell) → list (gmap string cell).

(** Rows are only ever replaced by rows of the same partition and sorting key with the
    same or a newer version, until their TTL is over. *)
Class MergingLaws (F : Merging) := {
  final_from now T row : row ∈ final now T → row ∈ T;
  final_covers now T row : row ∈ T → expired now row = false →
    ∃ row', row' ∈ final now T ∧ order_key row' = order_key row ∧
      partition_key row' = partition_key row ∧ version row ≤ version row';
  final_unique now T i j row row' :
    final now T !! i = Some row → final now T !! j = Some row' →
    order_key row = order_key row' → partition_key row = partition_key row' → i = j
}.

(** No two rows of the merged table agree on key and partition. *)
Definition full_key (row : gmap string cell) : list (option cell) * option (Z * Z) :=
  (order_key row, partition_key row).
Lemma final_NoDup `{F : Merging} {L : MergingLaws F} now T : NoDup (full_key <$> final now T).
Proof.
  apply NoDup_alt. intros i j k Hi Hj.
  apply list_lookup_fmap_Some in Hi as (ri & -> & Hi), Hj as (rj & Hk & Hj).
  apply (final_unique now T i j ri rj); [done|done|exact (f_equal fst Hk)|exact (f_equal snd Hk)].
Qed.

(** Rows of one sorting key have the same texts in its columns. *)
Lemma order_key_text row row' c s :
  order_key row = order_key row' → c ∈ order_by → row' !! c = Some (CText s) → row !! c = Some (CText s).
Proof.
  unfold order_key. intros Hk Hc Hs. apply list_elem_of_lookup in Hc as [i Hi].
  apply (f_equal (λ l, l !! i)) in Hk. rewrite !list_lookup_fmap, Hi in Hk. simpl in Hk. rewrite Hs in Hk. simpl in Hk. injection Hk as Hk.
  destruct (row !! c) as [[s'|t|z]|]; simpl in Hk; [|done..]. by injection Hk as ->.
Qed.

(** ** A concrete merge: the newest version in the place of the oldest row, and rows
    deleted as soon as they may be *)

Definition newer (row r : gmap string cell) : gmap string cell :=
  if bool_decide (version r < version row) then row else r.
Definition toy_merge (row : gmap string cell) (l : list (gmap string cell)) :
    list (gmap string cell) :=
  if bool_decide (full_key row ∈ full_key <$> l)
  then (λ r, if bool_decide (full_key r = full_key row) then newer row r else r) <$> l
  else row :: l.
#[export] Instance ToyMerging : Merging :=
  λ now T, foldr toy_merge [] (base.filter (λ row, expired now row = false) T).

Lemma toy_merge_keys row l :
  full_key <$> toy_merge row l = if bool_decide (full_key row ∈ full_key <$> l)
    then full_key <$> l else full_key row :: (full_key <$> l).
Proof.
  unfold toy_merge. case_bool_decide; [|done]. rewrite <-list_fmap_compose.
  apply list_fmap_ext. intros i r _. simpl. case_bool_decide as Hk; [|done].
  unfold newer. by case_bool_decide.
Qed.

Lemma toy_merge_from row l r : r ∈ toy_merge row l → r = row ∨ r ∈ l.
Proof.
  unfold toy_merge. case_bool_decide; [|by intros ?%elem_of_cons].
  intros (r0 & -> & Hr0)%list_elem_of_fmap. case_bool_decide; [|by right].
  unfold newer. case_bool_decide; [by left|by right].
Qed.

Lemma toy_merge_covers row l r :
  r = row ∨ r ∈ l →
  ∃ r', r' ∈ toy_merge row l ∧ full_key r' = full_key r ∧ version r ≤ version r'.
Proof.
  unfold toy_merge, newer. case_bool_decide as Hin.
  - intros [->|Hr].
    + apply list_elem_of_fmap in Hin as (r0 & Hk & Hr0).
      exists (if bool_decide (version r0 < version row) then row else r0).
      split; [|case_bool_decide; (split; [done|lia])].
      apply list_elem_of_fmap. exists r0. by rewrite (bool_decide_true (full_key r0 = _)).
    + exists (if bool_decide (full_key r = full_key row)
              then if bool_decide (version r < version row) then row else r else r).
      split; [apply list_elem_of_fmap; by exists r|].
      case_bool_decide; [|by split; [|lia]]. case_bool_decide; (split; [done|lia]).
  - intros Hr. exists r. split; [by rewrite elem_of_cons|]. split; [done|lia].
Qed.

Lemma toy_final_NoDup T : NoDup (full_key <$> foldr toy_merge [] T).
Proof.
  induction T as [|row0 T IH]; simpl; [constructor|]. rewrite toy_merge_keys.
  case_bool_decide; [done|by constructor].
Qed.

Lemma toy_final_from T row : row ∈ foldr toy_merge [] T → row ∈ T.
Proof.
  induction T as [|row0 T IH]; simpl; [done|].
  intros [->|Hr]%toy_merge_from; [left|right; by apply IH].
Qed.
Lemma toy_final_covers T row : row ∈ T →
  ∃ row', row' ∈ foldr toy_merge [] T ∧ full_key row' = full_key row ∧ version row ≤ version row'.
Proof.
  induction T as [|row0 T IH]; simpl; intros Hr; [by apply elem_of_nil in Hr|].
  apply elem_of_cons in Hr as [->|Hr]; [apply toy_merge_covers; by left|].
  destruct (IH Hr) as (r1 & Hr1 & Hk1 & Hv1).
  destruct (toy_merge_covers row0 _ r1 (or_intror Hr1)) as (r2 & Hr2 & Hk2 & Hv2).
  exists r2. split_and!; [done|congruence|lia].
Qed.

#[export] Instance ToyMergingLaws : MergingLaws ToyMerging.
Proof.
  split; unfold final, ToyMerging in *; intros now T.
  - intros row Hr%toy_final_from. by apply list_elem_of_filter in Hr as [_ ?].
  - intros row Hr Hlive. assert (row ∈ base.filter (λ row, expired now row = false) T) as Hin
      by by apply list_elem_of_filter.
    destruct (toy_final_covers _ _ Hin) as (row' & Hr' & Hk & Hv).
    exists row'. exact (conj Hr' (conj (f_equal fst Hk) (conj (f_equal snd Hk) Hv))).
  - intros i j row row' Hi Hj Hk Hp.
    eapply NoDup_lookup; [apply (toy_final_NoDup (base.filter (λ row, expired now row = false) T))|
      by rewrite list_lookup_fmap, Hi|].
    rewrite list_lookup_fmap, Hj. simpl. unfold full_key. by rewrite Hk, Hp.
Qed.
