(* ===== verification/MigrationFiles.v ===== *)
(** * The migration directory, as both migration runners read it

    A directory is the list of its entries and the contents of its files; the order
    of application is the byte-wise order of the names. *)
From stdpp Require Import sorting.
From S2P Require Import Prelude GoStrings.
#[local] Open Scope Z_scope.

Record DirEntry := { e_Name : string; e_IsDir : bool }.

(** [strings.HasSuffix(s, suffix)] *)
Definition HasSuffix (s suffix : string) : bool :=
  HasPrefix (of_bytes (rev (bytes s))) (of_bytes (rev (bytes suffix))).

(** [sort.Strings(names)] *)
Definition string_le (a b : string) : Prop := String.leb a b = true.
#[export] Instance string_le_dec : RelDecision string_le.
Proof. intros a b. unfold string_le. apply _. Defined.
#[export] Instance string_le_total : Total string_le.
Proof. intros a b. apply String.leb_total. Qed.
Definition sort_Strings (names : list string) : list string := merge_sort string_le names.

(** The names of the migrations, in the order they apply. *)
Definition migration_names (entries : list DirEntry) : list string :=
  sort_Strings (e_Name <$> filter (λ e, negb e.(e_IsDir) && HasSuffix e.(e_Name) ".sql" = true) entries).

Example migration_names_ex :
  migration_names [{| e_Name := "0002_b.sql"; e_IsDir := false |};
                   {| e_Name := "old.sql"; e_IsDir := true |};
                   {| e_Name := "0001_a.sql"; e_IsDir := false |};
                   {| e_Name := "README.md"; e_IsDir := false |}] = ["0001_a.sql"; "0002_b.sql"].
Proof. reflexivity. Qed.

Lemma migration_names_sorted entries : Sorted string_le (migration_names entries).
Proof. apply Sorted_merge_sort, _. Qed.

Lemma migration_names_elem entries name :
  name ∈ migration_names entries ↔
  {| e_Name := name; e_IsDir := false |} ∈ entries ∧ HasSuffix name ".sql" = true.
Proof.
  unfold migration_names, sort_Strings. rewrite merge_sort_Permutation, list_elem_of_fmap. split.
  - intros ([n d] & -> & [Hp Hin]%list_elem_of_filter). apply andb_true_iff in Hp as [Hd Hs].
    simpl in *. apply negb_true_iff in Hd. subst. done.
  - intros [Hin Hs]. eexists. split; [|apply list_elem_of_filter; split; [|exact Hin]]; [done|].
    simpl. done.
Qed.

(** ** The missing migrations *)

Section todo.
Context (entries : list DirEntry) (L0 : list string).

(** Those not in the ledger [L0], in order. *)
Definition todo : list string := filter (λ name, name ∉ L0) (migration_names entries).

Context (Hnames : NoDup (e_Name <$> entries)).

Lemma migration_names_NoDup : NoDup (migration_names entries).
Proof.
  unfold migration_names, sort_Strings. rewrite merge_sort_Permutation.
  eapply sublist_NoDup; [exact Hnames|]. apply fmap_sublist, sublist_filter.
Qed.

Lemma next_todo done name rest n :
  migration_names entries = done ++ name :: rest →
  (∀ x, x ∈ done → x ∈ L0 ++ take n todo) → name ∉ L0 ++ take n todo →
  todo !! n = Some name.
Proof.
  intros Hsplit Hdone Hname. pose proof migration_names_NoDup as Hnd. unfold todo in *.
  rewrite Hsplit in *. rewrite filter_app, filter_cons in *.
  rewrite not_elem_of_app in Hname. destruct Hname as [HL0 Hname].
  rewrite decide_True in Hname, Hdone |- * by done.
  set (fd := filter _ done) in *. set (fr := filter _ rest) in *.
  destruct (lt_eq_lt_dec n (length fd)) as [[Hlt|Heq]|Hgt].
  - destruct (lookup_lt_is_Some_2 fd n Hlt) as [x Hx].
    assert (x ∈ fd) as Hin by by eapply list_elem_of_lookup_2.
    apply list_elem_of_filter in Hin as [Hx0 Hin]. specialize (Hdone x Hin).
    apply elem_of_app in Hdone as [?|Hdone]; [done|].
    rewrite take_app_le in Hdone by lia.
    assert (NoDup fd) as Hfd by (apply NoDup_filter; by apply NoDup_app in Hnd as [? _]).
    apply elem_of_take in Hdone as (m & Hm & Hlt').
    pose proof (NoDup_lookup _ _ _ _ Hfd Hm Hx). lia.
  - subst n. by rewrite list_lookup_middle.
  - destruct Hname. rewrite take_app_ge by lia. apply elem_of_app. right.
    destruct (n - length fd)%nat eqn:E; [lia|]. simpl. left.
Qed.

Lemma todo_complete n :
  (∀ x, x ∈ migration_names entries → x ∈ L0 ++ take n todo) → (length todo ≤ n)%nat.
Proof.
  intros Hall. destruct (decide (length todo ≤ n)%nat) as [|Hlt]; [done|].
  destruct (lookup_lt_is_Some_2 todo n) as [x Hx]; [lia|].
  pose proof (list_elem_of_lookup_2 _ _ _ Hx) as Hin.
  apply list_elem_of_filter in Hin as [Hx0 Hin]. specialize (Hall x Hin).
  apply elem_of_app in Hall as [?|Hall]; [done|].
  apply elem_of_take in Hall as (m & Hm & Hlt').
  assert (NoDup todo) as Hnd by apply NoDup_filter, migration_names_NoDup.
  pose proof (NoDup_lookup _ _ _ _ Hnd Hm Hx). lia.
Qed.
End todo.
