(* ===== verification/PgMigrate.v ===== *)
(** * Package controlplane, migrate.go: transactional migrations under an advisory lock

    [Migrate] is a program over the statements it sends.  The advisory lock is part of
    the shared world; the transaction in progress belongs to the replica that holds
    the lock, the only one that begins transactions.  Every statement may fail, and a
    commit may take effect although its reply is lost.  The lock is held until it is
    released; [PgOverlap] is about a lock that is lost with its connection. *)
From stdpp Require Import sorting.
From S2P Require Import Prelude GoStrings Prog MigrationFiles.
#[local] Open Scope Z_scope.

(** ** The program *)

Inductive PgE : Type → Type :=
| PAcquire : PgE (result () ())
| PRelease : PgE ()
| PLock : PgE (result () ())                  (* pg_advisory_lock *)
| PUnlock : PgE ()                            (* deferred; its error is ignored *)
| PCreateLedger : PgE (result () ())
| PReadDir : PgE (result () (list DirEntry))
| PReadFile (name : string) : PgE (result () string)
| PBegin : PgE (result () ())
| PApplied (name : string) : PgE (result () bool)
| PExec (body : string) : PgE (result () ())
| PRecord (name : string) : PgE (result () ())
| PCommit : PgE (result () ())
| PRollback : PgE ().

Inductive migrate_err :=
| MAcquire | MLock | MLedger | MDir
| MRead (name : string) | MBegin (name : string) | MCheck (name : string)
| MApply (name : string) | MRecord (name : string) | MCommit (name : string).

(** [_ = tx.Rollback(ctx); return err] *)
Definition roll_back (a : result migrate_err ()) : Prog PgE (result migrate_err ()) :=
  _ ← Call PRollback Ret; Ret a.

(** One turn of the loop. *)
Definition migrate_one (name : string) : Prog PgE (result migrate_err ()) :=
  body ← Call (PReadFile name) Ret;
  match body with
  | Err _ => Ret (Err (MRead name))
  | Ok body =>
      b ← Call PBegin Ret;
      match b with
      | Err _ => Ret (Err (MBegin name))
      | Ok _ =>
          applied ← Call (PApplied name) Ret;
          match applied with
          | Err _ => roll_back (Err (MCheck name))
          | Ok true => roll_back (Ok ())
          | Ok false =>
              x ← Call (PExec body) Ret;
              match x with
              | Err _ => roll_back (Err (MApply name))
              | Ok _ =>
                  r ← Call (PRecord name) Ret;
                  match r with
                  | Err _ => roll_back (Err (MRecord name))
                  | Ok _ =>
                      c ← Call PCommit Ret;
                      match c with Err _ => Ret (Err (MCommit name)) | Ok _ => Ret (Ok ()) end
                  end
              end
          end
      end
  end.

Fixpoint migrate_all (names : list string) : Prog PgE (result migrate_err ()) :=
  match names with
  | [] => Ret (Ok ())
  | name :: names =>
      r ← migrate_one name;
      match r with Err e => Ret (Err e) | Ok _ => migrate_all names end
  end.

(** The part between lock and unlock. *)
Definition migrate_locked : Prog PgE (result migrate_err ()) :=
  l ← Call PCreateLedger Ret;
  match l with
  | Err _ => Ret (Err MLedger)
  | Ok _ =>
      entries ← Call PReadDir Ret;
      match entries with
      | Err _ => Ret (Err MDir)
      | Ok entries => migrate_all (migration_names entries)
      end
  end.

(** [Migrate(ctx, pool, dir)] *)
Definition Migrate : Prog PgE (result migrate_err ()) :=
  conn ← Call PAcquire Ret;
  match conn with
  | Err _ => Ret (Err MAcquire)
  | Ok _ =>
      l ← Call PLock Ret;
      match l with
      | Err _ => _ ← Call PRelease Ret; Ret (Err MLock)
      | Ok _ =>
          r ← migrate_locked;
          _ ← Call PUnlock Ret;
          _ ← Call PRelease Ret;
          Ret r
      end
  end.

(** ** The database *)

Record PgDB := {
  ledger : option (list string);        (* schema_migrations, oldest first *)
  schema : list string;                 (* the migration bodies committed so far *)
  tx : option (list string * list string) (* names recorded and bodies run in it *)
}.
Definition with_tx (d : PgDB) (t : option (list string * list string)) : PgDB :=
  {| ledger := d.(ledger); schema := d.(schema); tx := t |}.
Definition recorded (d : PgDB) : list string := default [] d.(ledger).
Definition commit_tx (d : PgDB) (t : list string * list string) : PgDB :=
  {| ledger := Some (recorded d ++ t.1); schema := d.(schema) ++ t.2; tx := None |}.

Section semantics.
(** The directory; [runs bodies body]: [body] runs on the schema [bodies] left;
    [faults]: whether statements may also fail for no reason of the model. *)
Context (entries : list DirEntry) (content : gmap string string).
Context (runs : list string → string → bool) (faults : bool).

Definition pg_step (X : Type) (e : PgE X) (d : PgDB) (a : X) (d' : PgDB) : Prop :=
  match e in PgE X return X → Prop with
  | PRelease | PUnlock => λ _, d' = d
  | PAcquire | PLock => λ a, d' = d ∧ (a = Ok () ∨ (faults ∧ a = Err ()))
  | PCreateLedger => λ a,
      let created := {| ledger := Some (recorded d); schema := d.(schema); tx := d.(tx) |} in
      (a = Ok () ∧ d' = created) ∨ (faults ∧ a = Err () ∧ (d' = d ∨ d' = created))
  | PReadDir => λ a, d' = d ∧ (a = Ok entries ∨ (faults ∧ a = Err ()))
  | PReadFile name => λ a, d' = d ∧
      (a = match content !! name with Some body => Ok body | None => Err () end ∨ (faults ∧ a = Err ()))
  | PBegin => λ a, (a = Ok () ∧ d' = with_tx d (Some ([], []))) ∨ (faults ∧ a = Err () ∧ d' = d)
  | PApplied name => λ a, d' = d ∧
      (a = match d.(ledger), d.(tx) with
           | Some l, Some (r, _) => Ok (bool_decide (name ∈ l ++ r))
           | _, _ => Err ()
           end ∨ (faults ∧ a = Err ()))
  | PExec body => λ a,
      match d.(tx) with
      | Some (r, b) =>
          if runs (d.(schema) ++ b) body
          then (a = Ok () ∧ d' = with_tx d (Some (r, b ++ [body]))) ∨ (faults ∧ a = Err () ∧ d' = d)
          else a = Err () ∧ d' = d
      | None => a = Err () ∧ d' = d
      end
  | PRecord name => λ a,
      match d.(ledger), d.(tx) with
      | Some l, Some (r, b) =>
          if bool_decide (name ∈ l ++ r) then a = Err () ∧ d' = d
          else (a = Ok () ∧ d' = with_tx d (Some (r ++ [name], b))) ∨ (faults ∧ a = Err () ∧ d' = d)
      | _, _ => a = Err () ∧ d' = d
      end
  | PCommit => λ a,
      match d.(tx) with
      | Some t =>
          (a = Ok () ∧ d' = commit_tx d t) ∨
          (faults ∧ a = Err () ∧ (d' = commit_tx d t ∨ d' = with_tx d None))
      | None => a = Err () ∧ d' = d
      end
  | PRollback => λ _, d' = with_tx d None
  end a.

(** The replicas' world: the database, and whether the advisory lock is held.
    [pg_advisory_lock] waits until it is free. *)
Definition pg_sem : semantics PgE (PgDB * bool) :=
  λ X e w a w',
    match e in PgE X return X → Prop with
    | PLock => λ a, (a = Ok () ∧ w.2 = false ∧ w' = (w.1, true)) ∨ (faults ∧ a = Err () ∧ w' = w)
    | PUnlock => λ _, w' = (w.1, false)
    | e => λ a, pg_step _ e w.1 a w'.1 ∧ w'.2 = w.2
    end a.
End semantics.

(** ** The abstract specification: a set of files applied in order, each once *)

Section correctness.
Context (entries : list DirEntry) (content : gmap string string).
Context (runs : list string → string → bool) (faults : bool).
(** The ledger and the schema the replicas find. *)
Context (L0 S0 : list string).

Abbreviation todo := (todo entries L0).
Definition body_of (name : string) : string := default "" (content !! name).

(** [n] of the missing migrations are applied: the whole state of the specification. *)
Definition applied_upto (n : nat) (d : PgDB) : Prop :=
  recorded d = L0 ++ take n todo ∧ d.(schema) = S0 ++ (body_of <$> take n todo).
Definition applied_some (d : PgDB) : Prop := ∃ n, applied_upto n d.
Definition complete (d : PgDB) : Prop := applied_upto (length todo) d.

Context (Hnames : NoDup (e_Name <$> entries)).
Context (Hcontent : ∀ name, name ∈ migration_names entries → is_Some (content !! name)).
(** Each missing migration runs on the schema the earlier ones leave. *)
Context (Hruns : faults = false → ∀ n name, todo !! n = Some name →
  runs (S0 ++ (body_of <$> take n todo)) (body_of name) = true).

Abbreviation step := (pg_step entries content runs faults).

(** Running inside the critical section: every state is a state of the specification,
    and the ledger only grows. *)
Definition inner {X} (e : PgE X) : bool :=
  match e with PAcquire | PRelease | PLock | PUnlock => false | _ => true end.
Fixpoint iwp {A} (p : Prog PgE A) (Q : A → PgDB → Prop) (d : PgDB) : Prop :=
  match p with
  | Ret a => Q a d
  | Call e k => inner e = true ∧ ∀ x d', step _ e d x d' →
      applied_some d' ∧ recorded d `prefix_of` recorded d' ∧ iwp (k x) Q d'
  end.

Lemma iwp_bind {A B} (p : Prog PgE A) (f : A → Prog PgE B) Q d :
  iwp p (λ a, iwp (f a) Q) d → iwp (mbind f p) Q d.
Proof.
  revert d. induction p as [a|X e k IH]; intros d; [done|]. intros [He Hk]. split; [done|].
  intros x d' Hx. destruct (Hk x d' Hx) as (? & ? & ?). split_and!; [done..|]. by apply IH.
Qed.

Lemma iwp_mono {A} (p : Prog PgE A) (Q Q' : A → PgDB → Prop) d :
  (∀ a d, Q a d → Q' a d) → iwp p Q d → iwp p Q' d.
Proof.
  intros HQ. revert d. induction p as [a|X e k IH]; intros d; [apply HQ|].
  intros [He Hk]. split; [done|]. intros x d' Hx. destruct (Hk x d' Hx) as (? & ? & ?).
  split_and!; [done..|]. by apply IH.
Qed.

(** A call that leaves the committed part as it is. *)
Lemma iwp_call {X A} (e : PgE X) (k : X → Prog PgE A) Q d :
  inner e = true → applied_some d →
  (∀ x d', step _ e d x d' →
    recorded d' = recorded d ∧ d'.(schema) = d.(schema) ∧ iwp (k x) Q d') →
  iwp (Call e k) Q d.
Proof.
  intros He [n [Hr Hs]] Hk. split; [done|]. intros x d' Hx.
  destruct (Hk x d' Hx) as (Hr' & Hs' & H). split_and!; [|by rewrite Hr'|done].
  exists n. split; congruence.
Qed.

(** The state between two transactions. *)
Definition settled (d : PgDB) : Prop := applied_some d ∧ d.(tx) = None ∧ is_Some d.(ledger).

Lemma settled_rollback d :
  applied_some d → is_Some d.(ledger) → settled (with_tx d None).
Proof. by intros [n Hn] Hl; split; [exists n|]. Qed.

Lemma iwp_roll_back a d (Q : result migrate_err () → PgDB → Prop) :
  applied_some d → is_Some d.(ledger) → (settled (with_tx d None) → Q a (with_tx d None)) →
  iwp (roll_back a) Q d.
Proof.
  intros Hd Hl HQ. unfold roll_back. rewrite bind_Call. apply iwp_call; [done..|].
  intros [] d' ->. split_and!; [done..|]. rewrite bind_Ret. by apply HQ, settled_rollback.
Qed.

Lemma faulty_not_healthy (P : Prop) : Is_true faults → faults = false → P.
Proof. by intros ? ->. Qed.

(** What one turn of the loop guarantees. *)
Definition one_done (name : string) (d : PgDB) (a : result migrate_err ()) (d' : PgDB) : Prop :=
  settled d' ∧ recorded d `prefix_of` recorded d' ∧ (a = Ok () → name ∈ recorded d') ∧
  (faults = false → a = Ok ()).

(** The transaction that applies a missing migration. *)
Lemma iwp_apply name n d l :
  applied_upto n d → d.(ledger) = Some l → todo !! n = Some name → name ∉ l →
  iwp (x ← Call (PExec (body_of name)) Ret;
       match x with
       | Err _ => roll_back (Err (MApply name))
       | Ok _ =>
           r ← Call (PRecord name) Ret;
           match r with
           | Err _ => roll_back (Err (MRecord name))
           | Ok _ =>
               c ← Call PCommit Ret;
               match c with Err _ => Ret (Err (MCommit name)) | Ok _ => Ret (Ok ()) end
           end
       end) (one_done name d) (with_tx d (Some ([], []))).
Proof.
  intros [Hr Hs] Hl Hn Hname.
  assert (recorded d = l) as Hrec by (unfold recorded; by rewrite Hl).
  assert (∀ t, applied_some (with_tx d t)) as Hsome by by exists n.
  assert (∀ t e, Is_true faults → iwp (roll_back (Err e)) (one_done name d) (with_tx d t)) as Hback.
  { intros t e Hf. apply iwp_roll_back; [apply Hsome|simpl; by rewrite Hl|]. intros Hset.
    split_and!; [done|done|done|by apply faulty_not_healthy]. }
  rewrite bind_Call. apply iwp_call; [done|apply Hsome|]. intros x d1 Hx. simpl in Hx.
  rewrite app_nil_r in Hx. rewrite bind_Ret. destruct (runs (schema d) (body_of name)) eqn:Hrun; cycle 1.
  { destruct Hx as [-> ->]. split_and!; [done..|]. apply Hback.
    destruct faults eqn:Hf; [done|]. rewrite Hs, (Hruns eq_refl n name Hn) in Hrun. done. }
  destruct Hx as [[-> ->]|(Hf & -> & ->)]; [|split_and!; [done..|]; by apply Hback].
  split_and!; [done..|]. rewrite bind_Call.
  apply iwp_call; [done|by exists n|]. intros r d2 Hx. simpl in Hx.
  rewrite Hl, app_nil_r, bool_decide_false in Hx by done. rewrite bind_Ret.
  destruct Hx as [[-> ->]|(Hf & -> & ->)]; [|split_and!; [done..|]; by apply (Hback _ _ Hf)].
  split_and!; [done..|]. rewrite bind_Call. split; [done|]. intros c d3 Hx. simpl in Hx.
  set (d' := commit_tx (with_tx (with_tx (with_tx d (Some ([], []))) (Some ([], [] ++ [body_of name])))
    (Some ([] ++ [name], [] ++ [body_of name]))) ([] ++ [name], [] ++ [body_of name])) in *.
  assert (recorded d' = recorded d ++ [name]) as Hr' by done.
  assert (applied_upto (S n) d') as Hup.
  { split; rewrite (take_S_r _ _ _ Hn).
    - rewrite Hr', Hr. by rewrite app_assoc.
    - simpl. rewrite Hs, fmap_app, app_assoc. done. }
  assert (recorded d `prefix_of` recorded d') as Hpre by (rewrite Hr'; by eexists).
  assert (settled d') as Hset by by split; [eexists|split; [|by eexists]].
  assert (∀ c, (faults = false → c = Ok ()) → one_done name d c d') as Hd'.
  { intros c' Hc'. split_and!; [done..| |done]. intros _. rewrite Hr'. apply elem_of_app. right. left. }
  destruct Hx as [[-> ->]|(Hf & -> & [->| ->])]; rewrite bind_Ret.
  - split_and!; [by eexists|exact Hpre|]. by apply Hd'.
  - split_and!; [by eexists|exact Hpre|]. apply Hd'. by apply faulty_not_healthy.
  - split_and!; [apply Hsome|done|].
    split_and!; [|done|done|by apply faulty_not_healthy].
    split; [by exists n|]. split; [done|]. simpl. by rewrite Hl.
Qed.

Lemma iwp_migrate_one done name rest d :
  migration_names entries = done ++ name :: rest → settled d →
  (∀ x, x ∈ done → x ∈ recorded d) → iwp (migrate_one name) (one_done name d) d.
Proof.
  intros Hsplit [Hd [Htx [l Hl]]] Hdone. pose proof Hd as [n Hn].
  assert (recorded d = l) as Hrec by (unfold recorded; by rewrite Hl).
  assert (∀ a, (a = Ok () → name ∈ recorded d) → (faults = false → a = Ok ()) → one_done name d a d)
    as Hstay.
  { intros a Ha Hf. unfold one_done. split_and!; [|done..]. by split; [|split; [|by eexists]]. }
  destruct (Hcontent name) as [body Hbody].
  { rewrite Hsplit. apply elem_of_app. right. left. }
  unfold migrate_one. rewrite bind_Call. apply iwp_call; [done..|]. intros x d1 [-> Hx].
  split_and!; [done..|]. rewrite bind_Ret, Hbody in *.
  destruct Hx as [-> |[Hf ->]]; [|apply Hstay; [done|by apply faulty_not_healthy]].
  assert (body = body_of name) as -> by (unfold body_of; by rewrite Hbody).
  rewrite bind_Call. apply iwp_call; [done..|]. intros x d1 Hx. rewrite bind_Ret.
  destruct Hx as [[-> ->]|(Hf & -> & ->)];
    [|split_and!; [done..|]; apply Hstay; [done|by apply faulty_not_healthy]].
  split_and!; [done..|]. rewrite bind_Call. apply iwp_call; [done|by exists n|].
  intros x d1 [-> Hx]. split_and!; [done..|]. rewrite bind_Ret.
  assert (∀ a, (a = Ok () → name ∈ recorded d) → (faults = false → a = Ok ()) →
    iwp (roll_back a) (one_done name d) (with_tx d (Some ([], [])))) as Hback.
  { intros a Ha Hf. apply iwp_roll_back; [by exists n|simpl; by rewrite Hl|]. intros Hset.
    unfold one_done. by split_and!. }
  simpl in Hx. rewrite Hl, app_nil_r in Hx.
  destruct Hx as [-> |[Hf ->]]; [|apply Hback; [done|by apply faulty_not_healthy]].
  case_bool_decide as Hin; [apply Hback; [|done]; by rewrite Hrec|].
  eapply iwp_apply; [exact Hn|done| |done].
  destruct Hn as [Hr _]. eapply next_todo; [exact Hnames|exact Hsplit|..]; rewrite <-Hr; [done|by rewrite Hrec].
Qed.

(** What the critical section guarantees. *)
Definition all_done (a : result migrate_err ()) (d : PgDB) : Prop :=
  applied_some d ∧ d.(tx) = None ∧ (a = Ok () → complete d) ∧ (faults = false → a = Ok ()).

Lemma settled_complete d :
  settled d → (∀ x, x ∈ migration_names entries → x ∈ recorded d) → complete d.
Proof.
  intros [[n [Hr Hs]] _] Hall. assert (length todo ≤ n)%nat as Hn.
  { eapply todo_complete; [done|]. intros x Hx. rewrite <-Hr. by apply Hall. }
  unfold complete, applied_upto. rewrite (take_ge todo n Hn) in Hr, Hs. by rewrite firstn_all.
Qed.

Lemma iwp_migrate_all done rest d :
  migration_names entries = done ++ rest → settled d →
  (∀ x, x ∈ done → x ∈ recorded d) → iwp (migrate_all rest) all_done d.
Proof.
  revert done d. induction rest as [|name rest IH]; intros done d Hsplit Hset Hdone; cbn [migrate_all].
  { destruct Hset as (Hd & Htx & Hl). unfold all_done. split_and!; [done|done| |done]. intros _.
    apply settled_complete; [done|]. by rewrite Hsplit, app_nil_r. }
  apply iwp_bind. eapply iwp_mono; [|by eapply iwp_migrate_one].
  intros a d' (Hset' & [l Hpre] & Hok & Hf). destruct a as [[]|e].
  - apply (IH (done ++ [name])); [by rewrite <-app_assoc|done|].
    intros x [Hx| ->%list_elem_of_singleton]%elem_of_app; [|by apply Hok].
    rewrite Hpre. apply elem_of_app. left. by apply Hdone.
  - unfold all_done. destruct Hset' as (Hd' & Htx' & _). split_and!; done.
Qed.

Lemma iwp_migrate_locked d :
  applied_some d → d.(tx) = None → iwp migrate_locked all_done d.
Proof.
  intros Hd Htx. unfold migrate_locked. rewrite bind_Call.
  apply iwp_call; [done..|]. intros x d1 Hx.
  assert (∀ e, Is_true faults → applied_some d1 → d1.(tx) = None → all_done (Err e) d1) as Herr.
  { intros e Hf ? ?. unfold all_done. split_and!; [done..|by apply faulty_not_healthy]. }
  assert (recorded d1 = recorded d ∧ schema d1 = schema d ∧ tx d1 = tx d) as (Hr & Hs & Ht)
    by (destruct Hx as [[_ ->]|(_ & _ & [->| ->])]; done).
  assert (applied_some d1) as Hd1 by (destruct Hd as [n [? ?]]; exists n; split; congruence).
  rewrite Ht, Htx in Herr. split_and!; [done..|]. rewrite bind_Ret.
  destruct Hx as [[-> ->]|(Hf & -> & _)]; [|by apply Herr].
  rewrite bind_Call. apply iwp_call; [done..|]. intros x d1 [-> Hx]. split_and!; [done..|].
  rewrite bind_Ret. destruct Hx as [-> |[Hf ->]]; [|by apply Herr].
  apply (iwp_migrate_all []); [done| |by intros x ?%elem_of_nil].
  split; [done|]. split; [done|]. by eexists.
Qed.

(** ** Replicas: the lock makes the critical sections exclusive *)

(** Where a replica is: outside the lock, knowing or not that all migrations are
    applied, or inside with the database to itself. *)
Inductive where_ := Outside (known : bool) | Inside (d : PgDB).

Fixpoint safe (p : Prog PgE (result migrate_err ())) (v : where_) : Prop :=
  match p with
  | Ret a => ∃ known, v = Outside known ∧ (a = Ok () → known = true) ∧ (faults = false → a = Ok ())
  | Call e k =>
      match e in PgE X return (X → where_ → Prop) → Prop with
      | PLock => λ sub, ∃ known, v = Outside known ∧
          (∀ d, applied_some d → d.(tx) = None → sub (Ok ()) (Inside d)) ∧
          (Is_true faults → sub (Err ()) v)
      | PUnlock => λ sub, ∃ d known, v = Inside d ∧ applied_some d ∧ d.(tx) = None ∧
          (known = true → complete d) ∧ sub () (Outside known)
      | PAcquire => λ sub, ∃ known, v = Outside known ∧ sub (Ok ()) v ∧ (Is_true faults → sub (Err ()) v)
      | PRelease => λ sub, ∃ known, v = Outside known ∧ sub () v
      | e => λ sub, ∃ d, v = Inside d ∧ ∀ x d', step _ e d x d' →
          applied_some d' ∧ recorded d `prefix_of` recorded d' ∧ sub x (Inside d')
      end (λ x v, safe (k x) v)
  end.

Lemma safe_bind_inside {A} (p : Prog PgE A) (f : A → Prog PgE (result migrate_err ())) d :
  iwp p (λ a d', safe (f a) (Inside d')) d → safe (mbind f p) (Inside d).
Proof.
  revert d. induction p as [a|X e k IH]; intros d; [done|]. intros [He Hk].
  destruct e; try done; exists d; (split; [done|]); intros x d' Hx;
    destruct (Hk x d' Hx) as (? & ? & ?); (split_and!; [done..|]); by apply IH.
Qed.

Lemma safe_Migrate known : safe Migrate (Outside known).
Proof.
  exists known. split; [done|]. split; cycle 1.
  { intros Hf. exists known. split_and!; [done|done|by apply faulty_not_healthy]. }
  exists known. split; [done|]. split; cycle 1.
  { intros Hf. exists known. split; [done|]. exists known.
    split_and!; [done|done|by apply faulty_not_healthy]. }
  intros d Hd Htx. change (safe (mbind (λ r, _ ← Call PUnlock Ret; _ ← Call PRelease Ret; Ret r)
    migrate_locked) (Inside d)).
  apply safe_bind_inside. eapply iwp_mono; [|by apply iwp_migrate_locked].
  intros a d' (Hd' & Htx' & Hc & Hf). exists d', (is_ok a). split_and!; [done..| |].
  - destruct a as [[]|]; [auto|done].
  - exists (is_ok a). split; [done|]. exists (is_ok a). split_and!; [done| |done]. by intros ->.
Qed.

Lemma complete_grows d d' :
  complete d → applied_some d' → recorded d `prefix_of` recorded d' → complete d'.
Proof.
  intros [Hr _] [n [Hr' Hs']] [l Hl]. rewrite firstn_all in Hr.
  assert (take n todo = todo) as Ht.
  { rewrite Hr', Hr in Hl. rewrite <-app_assoc in Hl. apply app_inv_head in Hl.
    apply (f_equal length) in Hl. rewrite length_take, length_app in Hl. apply take_ge. lia. }
  rewrite Ht in *. unfold complete, applied_upto. by rewrite firstn_all.
Qed.

Definition outside (v : where_) : Prop := match v with Outside _ => True | Inside _ => False end.

(** The invariant of the replicas: at most one is inside, and it sees the database. *)
Record pool_ok (c : list (Prog PgE (result migrate_err ())) * (PgDB * bool)) (vs : list where_) : Prop := {
  ok_safe : Forall2 safe c.1 vs;
  ok_spec : applied_some c.2.1;
  ok_free : c.2.2 = false → c.2.1.(tx) = None;
  ok_inside i d : vs !! i = Some (Inside d) → c.2.2 = true ∧ d = c.2.1;
  ok_held : c.2.2 = true → ∃ i d, vs !! i = Some (Inside d);
  ok_one i j d d' : vs !! i = Some (Inside d) → vs !! j = Some (Inside d') → i = j;
  ok_known : Outside true ∈ vs → complete c.2.1
}.

(** Replica [i] moves from [v] to [v'] while the world moves to [w']. *)
Lemma pool_ok_move ps w vs i v k w' v' :
  pool_ok (ps, w) vs → vs !! i = Some v → safe k v' → applied_some w'.1 →
  recorded w.1 `prefix_of` recorded w'.1 →
  (w'.2 = false → w'.1.(tx) = None) →
  match v' with
  | Outside known => (known = true → complete w'.1) ∧
      ((w' = w ∧ outside v) ∨ ∃ d, v = Inside d ∧ w' = (w.1, false))
  | Inside d => w'.2 = true ∧ d = w'.1 ∧ (w.2 = false ∨ ∃ d, v = Inside d)
  end →
  pool_ok (<[i:=k]> ps, w') (<[i:=v']> vs).
Proof.
  intros [Hs Hspec Hfree Hin Hheld Hone Hknown] Hv Hk Hspec' Hpre Hfree' Hv'. simpl in *.
  assert (i < length vs)%nat as Hi by by eapply lookup_lt_Some.
  assert (∀ j d, j ≠ i → vs !! j = Some (Inside d) → ∃ known, v' = Outside known ∧ w' = w) as Hother.
  { intros j d Hne Hj. destruct (Hin j d Hj) as [Hlock ->]. destruct v' as [known|d'].
    - destruct Hv' as [_ [[-> _]|(d0 & -> & _)]]; [by exists known|]. by destruct (Hne (Hone _ _ _ _ Hj Hv)).
    - destruct Hv' as (_ & _ & [?|[d0 ->]]); [congruence|]. by destruct (Hne (Hone _ _ _ _ Hj Hv)). }
  split; simpl.
  - by apply Forall2_insert.
  - done.
  - done.
  - intros j d Hj. destruct (decide (j = i)) as [->|Hne].
    + rewrite list_lookup_insert_eq in Hj by done. injection Hj as ->. by destruct Hv' as (? & ? & _).
    + rewrite list_lookup_insert_ne in Hj by done. destruct (Hother j d Hne Hj) as (known & -> & ->).
      by apply (Hin j).
  - intros Hlock. destruct v' as [known|d']; [|exists i, d'; by apply list_lookup_insert_eq].
    destruct Hv' as [_ [[-> Hout]|(d0 & -> & ->)]]; [|done]. destruct (Hheld Hlock) as (j & d & Hj).
    exists j, d. rewrite list_lookup_insert_ne; [done|]. intros <-. rewrite Hv in Hj.
    by injection Hj as ->.
  - intros j j' d d' Hj Hj'.
    destruct (decide (j = i)) as [->|Hne], (decide (j' = i)) as [->|Hne'];
      rewrite ?list_lookup_insert_eq in Hj by done; rewrite ?list_lookup_insert_eq in Hj' by done;
      rewrite ?list_lookup_insert_ne in Hj by done; rewrite ?list_lookup_insert_ne in Hj' by done;
      [done| | |by eapply Hone].
    + destruct (Hother j' d' Hne' Hj') as (? & -> & _). done.
    + destruct (Hother j d Hne Hj) as (? & -> & _). done.
  - intros Hin'. apply list_elem_of_lookup in Hin' as [j Hj].
    destruct (decide (j = i)) as [->|Hne].
    + rewrite list_lookup_insert_eq in Hj by done. injection Hj as ->. by apply Hv'.
    + rewrite list_lookup_insert_ne in Hj by done. eapply complete_grows; [|done|exact Hpre].
      apply Hknown. by eapply list_elem_of_lookup_2.
Qed.

Lemma pool_ok_step c l c' vs :
  pool_step (pg_sem entries content runs faults) c l c' → pool_ok c vs → ∃ vs', pool_ok c' vs'.
Proof.
  intros Hstep Hok. inversion Hstep as [ps w i X e k x w' Hi Hx]; subst.
  pose proof Hok as [Hs Hspec Hfree Hin Hheld Hone Hknown]. simpl in *.
  destruct (Forall2_lookup_l _ _ _ _ _ Hs Hi) as (v & Hv & Hsafe).
  assert (∀ known, v = Outside known → w' = w → safe (k x) v →
    ∃ vs', pool_ok (<[i:=k x]> ps, w') vs') as Hstay.
  { intros known -> -> Hk. exists (<[i:=Outside known]> vs).
    apply (pool_ok_move _ _ _ _ _ _ _ _ Hok Hv); [done..|]. split; [|left; done].
    intros ->. apply Hknown. by eapply list_elem_of_lookup_2. }
  assert (w'.2 = w.2 → step X e w.1 x w'.1 →
    (∃ d, v = Inside d ∧ ∀ x d', step X e d x d' →
      applied_some d' ∧ recorded d `prefix_of` recorded d' ∧ safe (k x) (Inside d')) →
    ∃ vs', pool_ok (<[i:=k x]> ps, w') vs') as Hinner.
  { intros Hlock Hstep' (d & -> & Hk). destruct (Hin i d Hv) as [Hw ->].
    destruct (Hk _ _ Hstep') as (Hd' & Hpre & Hk').
    exists (<[i:=Inside w'.1]> vs). apply (pool_ok_move _ _ _ _ _ _ _ _ Hok Hv); [done..| |].
    - by rewrite Hlock, Hw.
    - rewrite Hlock, Hw. split_and!; [done..|]. right. by eexists. }
  clear Hstep. destruct w as [d lock], w' as [d' lock'].
  destruct e; cbn in Hsafe, Hx; try (destruct Hx; by apply Hinner).
  - destruct Hx as [[-> Hx] ->], Hsafe as (known & -> & Hk1 & Hk2).
    apply (Hstay known); [done..|]. destruct Hx as [-> |[Hf ->]]; auto.
  - destruct Hx as [-> ->], Hsafe as (known & -> & Hk). destruct x; by apply (Hstay known).
  - destruct Hsafe as (known & -> & Hk1 & Hk2).
    destruct Hx as [(-> & -> & [= -> ->])|(Hf & -> & [= -> ->])]; [|apply (Hstay known); auto].
    exists (<[i:=Inside d]> vs). apply (pool_ok_move _ _ _ _ _ _ _ _ Hok Hv); try done; auto.
  - destruct Hsafe as (d0 & known & -> & Hd & Htx & Hc & Hk). destruct (Hin i d0 Hv) as [_ ->].
    injection Hx as -> ->. exists (<[i:=Outside known]> vs). destruct x.
    apply (pool_ok_move _ _ _ _ _ _ _ _ Hok Hv); try done. split; [done|]. right. by eexists.
Qed.

Lemma pool_ok_run c log c' vs :
  pool_run (pg_sem entries content runs faults) c log c' → pool_ok c vs → ∃ vs', pool_ok c' vs'.
Proof.
  intros Hrun. revert vs. induction Hrun as [c|c l c1 ls c2 Hstep _ IH]; intros vs Hok; [by exists vs|].
  destruct (pool_ok_step _ _ _ _ Hstep Hok) as [vs1 Hok1]. by apply (IH vs1).
Qed.

Lemma pool_ok_init n d0 :
  recorded d0 = L0 → d0.(schema) = S0 → d0.(tx) = None →
  pool_ok (replicate n Migrate, (d0, false)) (replicate n (Outside false)).
Proof.
  intros HL HS Htx. split; simpl; try done.
  - apply Forall2_replicate, safe_Migrate.
  - exists 0%nat. split; rewrite ?take_0, ?app_nil_r; done.
  - intros i d [? _]%lookup_replicate. done.
  - intros i j d d' [? _]%lookup_replicate. done.
  - intros [? _]%elem_of_replicate. done.
Qed.

(** A replica that answered nil has seen every migration applied. *)
Lemma pool_ok_nil c vs i :
  pool_ok c vs → c.1 !! i = Some (Ret (Ok ())) → complete c.2.1.
Proof.
  intros Hok Hi. destruct (Forall2_lookup_l _ _ _ _ _ (ok_safe _ _ Hok) Hi) as (v & Hv & Hsafe).
  destruct Hsafe as (known & -> & Hk & _). rewrite (Hk eq_refl) in Hv.
  apply (ok_known _ _ Hok). by eapply list_elem_of_lookup_2.
Qed.

(** Some call of an inner program is always answered. *)
Lemma step_total X (e : PgE X) d : inner e = true → ∃ a d', step X e d a d'.
Proof.
  intros He. destruct e; try done; simpl.
  - eexists _, _. by left.
  - eexists _, _. split; [done|by left].
  - eexists _, _. split; [done|by left].
  - eexists _, _. by left.
  - eexists _, _. split; [done|by left].
  - destruct (tx d) as [[r b]|]; [destruct (runs _ _)|]; eexists _, _; by try left.
  - destruct (ledger d), (tx d) as [[r b]|]; try case_bool_decide; eexists _, _; by try left.
  - destruct (tx d); eexists _, _; by try left.
  - by eexists (), _.
Qed.

(** A pool that cannot move has finished. *)
Lemma pool_ok_stuck c vs :
  pool_ok c vs → (∀ l c', ¬ pool_step (pg_sem entries content runs faults) c l c') →
  ∀ i p, c.1 !! i = Some p → ∃ a, p = Ret a ∧ (faults = false → a = Ok ()).
Proof.
  destruct c as [ps [d lock]]. intros Hok Hstuck.
  assert (∀ i p v, ps !! i = Some p → vs !! i = Some v → safe p v →
    (v = Inside d ∧ lock = true) ∨ (outside v ∧ lock = false) → ∃ a, p = Ret a ∧ outside v) as Hfin.
  { intros i p v Hi Hv Hsafe Hcase. destruct p as [a|X e k].
    { exists a. by destruct Hsafe as (known & -> & _). }
    exfalso.
    assert (∀ x w', pg_sem entries content runs faults X e (d, lock) x w' → False) as Hno.
    { intros x w' Hx. apply (Hstuck (i, Ev e x) (<[i:=k x]> ps, w')). by constructor. }
    assert (inner e = true → False) as Hinner.
    { intros He. destruct (step_total X e d He) as (a & d' & Hx).
      apply (Hno a (d', lock)). destruct e; try done; by split. }
    destruct e; try (by apply Hinner); simpl in Hsafe.
    - apply (Hno (Ok ()) (d, lock)). split; [|done]. split; [done|by left].
    - by apply (Hno () (d, lock)).
    - destruct Hsafe as (known & -> & _). destruct Hcase as [[[=] _]|[_ ->]].
      apply (Hno (Ok ()) (d, true)). by left.
    - by apply (Hno () (d, false)). }
  pose proof Hok as [Hs Hspec Hfree Hin Hheld Hone Hknown]. simpl in *.
  assert (lock = false) as ->.
  { destruct lock; [|done]. destruct (Hheld eq_refl) as (j & dj & Hj).
    destruct (Forall2_lookup_r _ _ _ _ _ Hs Hj) as (p & Hp & Hsafe).
    destruct (Hin j dj Hj) as [_ ->]. destruct (Hfin j p _ Hp Hj Hsafe) as (a & _ & Hout); [by left|done]. }
  intros i p Hi. destruct (Forall2_lookup_l _ _ _ _ _ Hs Hi) as (v & Hv & Hsafe).
  destruct (Hfin i p v Hi Hv Hsafe) as (a & -> & _).
  - right. split; [|done]. destruct v as [known|dv]; [done|]. by destruct (Hin i dv Hv).
  - exists a. split; [done|]. by destruct Hsafe as (known & _ & _ & ?).
Qed.
End correctness.

(** ** Properties *)

(** C35: the migration runner refines the forward-only sequence of its files: whatever
    fails or crashes, and however many replicas start at once, the ledger is what it
    was plus a prefix of the missing files in name order, and the schema is exactly
    the bodies of those files run once each in that order; a replica that returned nil
    has seen all of them applied. *)
Theorem migrations_refine_the_sequence entries content runs d0 n log c :
  NoDup (e_Name <$> entries) →
  (∀ name, name ∈ migration_names entries → is_Some (content !! name)) →
  d0.(tx) = None →
  pool_run (pg_sem entries content runs true) (replicate n Migrate, (d0, false)) log c →
  applied_some entries content (recorded d0) d0.(schema) c.2.1 ∧
  ∀ i, c.1 !! i = Some (Ret (Ok ())) → complete entries content (recorded d0) d0.(schema) c.2.1.
Proof.
  intros Hnd Hcontent Htx Hrun.
  assert (true = false → ∀ n name, todo entries (recorded d0) !! n = Some name →
    runs (d0.(schema) ++ (body_of content <$> take n (todo entries (recorded d0))))
      (body_of content name) = true) as Hruns by done.
  destruct (pool_ok_run _ _ _ _ _ _ _ _ _ _ Hrun
    (pool_ok_init _ _ _ _ _ _ Hnd Hcontent Hruns n d0 eq_refl eq_refl Htx)) as [vs Hok].
  split; [apply Hok|]. intros i Hi. by eapply pool_ok_nil.
Qed.

(** C36: concurrent replicas all come up: on a healthy database, with any number of
    replicas migrating at once, no interleaving goes on forever and every one that
    can go no further has ended with nil in every replica and, if there is one, all
    migrations applied.  No replica waits forever for the lock or fails because
    another one got there first. *)
Theorem replicas_come_up entries content runs d0 n :
  NoDup (e_Name <$> entries) →
  (∀ name, name ∈ migration_names entries → is_Some (content !! name)) →
  d0.(tx) = None →
  (∀ m name, todo entries (recorded d0) !! m = Some name →
    runs (d0.(schema) ++ (body_of content <$> take m (todo entries (recorded d0))))
      (body_of content name) = true) →
  let sem := pg_sem entries content runs false in
  let start := (replicate n Migrate, (d0, false)) in
  Acc (λ c' c, ∃ l, pool_step sem c l c') start ∧
  ∀ log c, pool_run sem start log c → (∀ l c', ¬ pool_step sem c l c') →
    c.1 = replicate n (Ret (Ok ())) ∧
    (n ≠ 0%nat → complete entries content (recorded d0) d0.(schema) c.2.1).
Proof.
  intros Hnd Hcontent Htx Hruns sem start. split; [apply pool_step_acc|]. intros log c Hrun Hstuck.
  destruct (pool_ok_run _ _ _ _ _ _ _ _ _ _ Hrun
    (pool_ok_init _ _ _ false _ _ Hnd Hcontent (λ _, Hruns) n d0 eq_refl eq_refl Htx)) as [vs Hok].
  assert (∀ i p, c.1 !! i = Some p → p = Ret (Ok ())) as Hall.
  { intros i p Hi. destruct (pool_ok_stuck _ _ _ _ _ _ _ _ Hok Hstuck i p Hi) as (a & -> & Ha).
    by rewrite Ha. }
  assert (length c.1 = n) as Hlen by (rewrite (pool_run_length _ _ _ _ Hrun); apply length_replicate).
  split.
  - apply list_eq_same_length with n; [by rewrite length_replicate|done|].
    intros i p q _ Hp Hq. apply lookup_replicate in Hq as [-> _]. by eapply Hall.
  - intros Hn. destruct (c.1 !! 0%nat) as [p|] eqn:Hp.
    + pose proof (Hall _ _ Hp) as ->. by eapply pool_ok_nil.
    + apply lookup_ge_None in Hp. lia.
Qed.

(** ** Witnesses *)

Definition toy_entries : list DirEntry :=
  [{| e_Name := "0001_a.sql"; e_IsDir := false |}; {| e_Name := "0002_b.sql"; e_IsDir := false |}].
Definition toy_content : gmap string string :=
  <["0001_a.sql" := "CREATE TABLE a"]> {[ "0002_b.sql" := "CREATE TABLE b" ]}.
(** A table can be created once. *)
Definition toy_runs (bodies : list string) (body : string) : bool := bool_decide (body ∉ bodies).
Definition toy_cold : PgDB := {| ledger := None; schema := []; tx := None |}.

Lemma toy_names_NoDup : NoDup (e_Name <$> toy_entries).
Proof. apply (bool_decide_unpack _). vm_compute. exact I. Defined.
Lemma toy_content_total name :
  name ∈ migration_names toy_entries → is_Some (toy_content !! name).
Proof.
  change (migration_names toy_entries) with ["0001_a.sql"; "0002_b.sql"].
  intros [->|[->|[]%elem_of_nil]%elem_of_cons]%elem_of_cons; by eexists.
Defined.

(** Two replicas; the first one's commit takes effect but its reply is lost. *)
Definition toy_lost_commit : list (nat * event PgE) :=
  pair 0%nat <$>
  [Ev PAcquire (Ok ()); Ev PLock (Ok ()); Ev PCreateLedger (Ok ()); Ev PReadDir (Ok toy_entries);
   Ev (PReadFile "0001_a.sql") (Ok "CREATE TABLE a"); Ev PBegin (Ok ());
   Ev (PApplied "0001_a.sql") (Ok false); Ev (PExec "CREATE TABLE a") (Ok ());
   Ev (PRecord "0001_a.sql") (Ok ()); Ev PCommit (Err ()); Ev PUnlock (); Ev PRelease ()].
Definition toy_half : PgDB :=
  {| ledger := Some ["0001_a.sql"]; schema := ["CREATE TABLE a"]; tx := None |}.

Lemma toy_lost_commit_run :
  pool_run (pg_sem toy_entries toy_content toy_runs true) (replicate 2 Migrate, (toy_cold, false))
    toy_lost_commit ([Ret (Err (MCommit "0001_a.sql")); Migrate], (toy_half, false)).
Proof.
  unfold toy_lost_commit. rewrite !fmap_cons.
  set (ledgered := {| ledger := Some []; schema := []; tx := None |}).
  pool_tick to (toy_cold, false); [split; [split; [done|by left]|done]|].
  pool_tick to (toy_cold, true); [by left|].
  pool_tick to (ledgered, true); [split; [by left|done]|].
  do 2 (pool_tick to (ledgered, true); [split; [split; [done|by left]|done]|]).
  pool_tick to (with_tx ledgered (Some ([], [])), true); [split; [by left|done]|].
  pool_tick to (with_tx ledgered (Some ([], [])), true); [split; [split; [done|by left]|done]|].
  pool_tick to (with_tx ledgered (Some ([], ["CREATE TABLE a"])), true); [split; [by left|done]|].
  pool_tick to (with_tx ledgered (Some (["0001_a.sql"], ["CREATE TABLE a"])), true);
    [split; [by left|done]|].
  pool_tick to (toy_half, true); [split; [right; split_and!; [done|done|by left]|done]|].
  do 2 (pool_tick to (toy_half, false); [done|]). apply pool_done.
Defined.

Lemma migrations_refine_the_sequence_witness :
  applied_some toy_entries toy_content [] [] toy_half ∧
  ∀ i, ([Ret (Err (MCommit "0001_a.sql")); Migrate]) !! i = Some (Ret (Ok ())) →
    complete toy_entries toy_content [] [] toy_half.
Proof.
  exact (migrations_refine_the_sequence toy_entries toy_content toy_runs toy_cold 2 toy_lost_commit
    ([Ret (Err (MCommit "0001_a.sql")); Migrate], (toy_half, false))
    toy_names_NoDup toy_content_total eq_refl toy_lost_commit_run).
Defined.

Lemma replicas_come_up_witness :
  let sem := pg_sem toy_entries toy_content toy_runs false in
  let start := (replicate 3 Migrate, (toy_cold, false)) in
  Acc (λ c' c, ∃ l, pool_step sem c l c') start ∧
  ∀ log c, pool_run sem start log c → (∀ l c', ¬ pool_step sem c l c') →
    c.1 = replicate 3 (Ret (Ok ())) ∧
    (3%nat ≠ 0%nat → complete toy_entries toy_content [] [] c.2.1).
Proof.
  apply (replicas_come_up toy_entries toy_content toy_runs toy_cold 3 toy_names_NoDup
    toy_content_total eq_refl).
  change (todo toy_entries (recorded toy_cold)) with ["0001_a.sql"; "0002_b.sql"].
  intros [|[|[|m]]] name [= <-]; reflexivity.
Defined.
