(* ===== verification/PgOverlap.v ===== *)
(** * Migrations without the advisory lock

    The lock of [PgMigrate] belongs to one connection and the transactions run on
    others: when the connection that holds it drops, Postgres frees the lock while its
    replica goes on, and the transactions of two replicas may overlap.  Here the lock
    excludes nobody, every replica has a transaction of its own, and any of them may be
    dropped at any time.  The transactions and the primary key of schema_migrations alone
    still make the schema a prefix of the sorted files, each applied once. *)
From S2P Require Import Prelude GoStrings Prog MigrationFiles PgMigrate.
#[local] Open Scope Z_scope.

(** The committed tables, and the open transaction of each replica: the names it has
    recorded and the bodies it has run. *)
Record Sessions := { o_db : PgDB; o_tx : gmap nat (list string * list string) }.
Definition set_open (i : nat) (t : list string * list string) (w : Sessions) : Sessions :=
  {| o_db := w.(o_db); o_tx := <[i := t]> w.(o_tx) |}.
Definition dropped (i : nat) (w : Sessions) : Sessions :=
  {| o_db := w.(o_db); o_tx := delete i w.(o_tx) |}.
Definition committed (i : nat) (t : list string * list string) (w : Sessions) : Sessions :=
  {| o_db := commit_tx w.(o_db) t; o_tx := delete i w.(o_tx) |}.

#[local] Ltac open_txs := cbn [o_tx dropped set_open committed].

Section overlap.
Context (entries : list DirEntry) (content : gmap string string) (runs : list string → string → bool).

(** A statement that fails, possibly with its connection. *)
Definition failed (i : nat) (a : result () ()) (w w' : Sessions) : Prop :=
  a = Err () ∧ (w' = w ∨ w' = dropped i w).

(** The statements of replica [i].  Recording a name that another open transaction has
    recorded waits for that transaction to end. *)
Definition over_step (i : nat) (X : Type) (e : PgE X) (w : Sessions) (a : X) (w' : Sessions) : Prop :=
  match e in PgE X return X → Prop with
  | PAcquire | PLock | PRelease | PUnlock => λ _, w' = w
  | PCreateLedger => λ a,
      w' = {| o_db := {| ledger := Some (recorded w.(o_db)); schema := w.(o_db).(schema); tx := None |};
              o_tx := w.(o_tx) |} ∨ (a = Err () ∧ w' = w)
  | PReadDir => λ a, w' = w ∧ (a = Ok entries ∨ a = Err ())
  | PReadFile name => λ a, w' = w ∧ (a = Err () ∨ ∃ body, content !! name = Some body ∧ a = Ok body)
  | PBegin => λ a, (a = Ok () ∧ w' = set_open i ([], []) w) ∨ failed i a w w'
  | PApplied name => λ a,
      (∃ l r b, w.(o_db).(ledger) = Some l ∧ w.(o_tx) !! i = Some (r, b) ∧
         a = Ok (bool_decide (name ∈ (l ++ r))) ∧ w' = w) ∨
      (a = Err () ∧ (w' = w ∨ w' = dropped i w))
  | PExec body => λ a,
      (a = Ok () ∧ ∃ r b, w.(o_tx) !! i = Some (r, b) ∧ runs (schema w.(o_db) ++ b) body ∧
         w' = set_open i (r, b ++ [body]) w) ∨ failed i a w w'
  | PRecord name => λ a,
      (a = Ok () ∧ ∃ l r b, w.(o_db).(ledger) = Some l ∧ w.(o_tx) !! i = Some (r, b) ∧ (name ∉ l ++ r) ∧
         (∀ j r' b', j ≠ i → w.(o_tx) !! j = Some (r', b') → name ∉ r') ∧
         w' = set_open i (r ++ [name], b) w) ∨ failed i a w w'
  | PCommit => λ a,
      (∃ t, w.(o_tx) !! i = Some t ∧ w' = committed i t w) ∨ (a = Err () ∧ w' = dropped i w)
  | PRollback => λ _, w' = dropped i w
  end a.

(** Replicas whose calls interleave; a transaction may be dropped between them. *)
Inductive over_run : list (Prog PgE (result migrate_err ())) * Sessions →
    list (Prog PgE (result migrate_err ())) * Sessions → Prop :=
| over_done c : over_run c c
| over_call ps w i X (e : PgE X) k a w' c :
    ps !! i = Some (Call e k) → over_step i X e w a w' → over_run (<[i := k a]> ps, w') c →
    over_run (ps, w) c
| over_drop ps w i c : over_run (ps, dropped i w) c → over_run (ps, w) c.

Context (L0 S0 : list string).
Context (Hnames : NoDup (e_Name <$> entries)).
Abbreviation todo := (todo entries L0).
Abbreviation applied_upto := (applied_upto entries content L0 S0).
Abbreviation body_of := (body_of content).

(** An open transaction has recorded nothing, or the next file, whose body it has run;
    only one has recorded. *)
Record sound (w : Sessions) (n : nat) : Prop := {
  so_applied : applied_upto n w.(o_db);
  so_open i r b : w.(o_tx) !! i = Some (r, b) → r ≠ [] →
    ∃ name, r = [name] ∧ b = [body_of name] ∧ todo !! n = Some name;
  so_one i j r b r' b' : w.(o_tx) !! i = Some (r, b) → w.(o_tx) !! j = Some (r', b') →
    r ≠ [] → r' ≠ [] → i = j
}.

Lemma sound_dropped w n i : sound w n → sound (dropped i w) n.
Proof.
  intros [Ha Ho H1]. split; [done|..].
  - open_txs. intros j r b [_ Hj]%lookup_delete_Some. by eapply Ho.
  - open_txs. intros j j' r b r' b' [_ Hj]%lookup_delete_Some [_ Hj']%lookup_delete_Some. by eapply H1.
Qed.
Lemma sound_nothing w n i b : sound w n → sound (set_open i ([], b) w) n.
Proof.
  intros [Ha Ho H1]. split; [done|..].
  - open_txs. intros j r b' [[_ [= <- <-]]|[_ Hj]]%lookup_insert_Some; [done|]. by eapply Ho.
  - open_txs. intros j j' r b1 r' b2 [[_ [= <- <-]]|[_ Hj]]%lookup_insert_Some [[_ [= <- <-]]|[_ Hj']]%lookup_insert_Some;
      [done..|]. by eapply H1.
Qed.
Lemma sound_record w n i name :
  sound w n → todo !! n = Some name →
  (∀ j r b, j ≠ i → w.(o_tx) !! j = Some (r, b) → name ∉ r) →
  sound (set_open i ([name], [body_of name]) w) n.
Proof.
  intros [Ha Ho H1] Hn Hothers.
  assert (∀ j r b, j ≠ i → w.(o_tx) !! j = Some (r, b) → r = []) as Hnone.
  { intros j r b Hne Hj. destruct (decide (r = [])) as [|Hr]; [done|].
    destruct (Ho _ _ _ Hj Hr) as (name' & -> & _ & Hn'). rewrite Hn in Hn'. injection Hn' as <-.
    destruct (Hothers _ _ _ Hne Hj). left. }
  split; [done|..].
  - open_txs. intros j r b [[_ [= <- <-]]|[Hne Hj]]%lookup_insert_Some Hr; [by exists name|].
    by rewrite (Hnone j r b) in Hr.
  - open_txs. intros j j' r b r' b' [[<- _]|[Hne Hj]]%lookup_insert_Some [[<- _]|[Hne' Hj']]%lookup_insert_Some Hr Hr'; [done|..].
    + by rewrite (Hnone j' r' b') in Hr'.
    + by rewrite (Hnone j r b) in Hr.
    + by eapply H1.
Qed.
Lemma sound_commit w n i name :
  sound w n → w.(o_tx) !! i = Some ([name], [body_of name]) → sound (committed i ([name], [body_of name]) w) (S n).
Proof.
  intros [[Hr Hs] Ho H1] Hi. destruct (Ho _ _ _ Hi) as (name' & [= <-] & _ & Hn); [done|].
  assert (∀ j r b, delete i w.(o_tx) !! j = Some (r, b) → r = []) as Hnone.
  { intros j r b [Hne Hj]%lookup_delete_Some. destruct (decide (r = [])); [done|].
    destruct Hne. by eapply H1. }
  split.
  - split; rewrite (take_S_r _ _ _ Hn); simpl.
    + change (recorded (commit_tx _ _)) with (recorded w.(o_db) ++ [name]). by rewrite Hr, app_assoc.
    + rewrite Hs, fmap_app, app_assoc. done.
  - cbn [o_tx committed]. intros j r b Hj Hne. by rewrite (Hnone _ _ _ Hj) in Hne.
  - cbn [o_tx committed]. intros j j' r b r' b' Hj _ Hne. by rewrite (Hnone _ _ _ Hj) in Hne.
Qed.

(** ** A replica among others *)

Abbreviation ledger_of w := (w.(o_db).(ledger)).
Definition invariant (w : Sessions) : Prop := ∃ n, sound w n.
Definition grows (w w' : Sessions) : Prop :=
  invariant w' ∧ recorded w.(o_db) `prefix_of` recorded w'.(o_db) ∧ (is_Some (ledger_of w) → is_Some (ledger_of w')).
(** What replica [i] can rely on while it waits, and what its own step must keep. *)
Definition others (i : nat) (w w' : Sessions) : Prop :=
  grows w w' ∧ (w'.(o_tx) !! i = w.(o_tx) !! i ∨ w'.(o_tx) !! i = None).
Definition own (i : nat) (w w' : Sessions) : Prop :=
  grows w w' ∧ ∀ j, j ≠ i → w'.(o_tx) !! j = w.(o_tx) !! j.

Lemma grows_refl w : invariant w → grows w w.
Proof. by split. Qed.
Lemma grows_trans w w' w'' : grows w w' → grows w' w'' → grows w w''.
Proof. intros (_ & H1 & L1) (Hi & H2 & L2). split_and!; [done|by etrans|auto]. Qed.
Lemma others_refl i w : invariant w → others i w w.
Proof. intros Hi. split; [by apply grows_refl|by left]. Qed.
Lemma others_trans i w w' w'' : others i w w' → others i w' w'' → others i w w''.
Proof.
  intros [G1 H1] [G2 H2]. split; [by eapply grows_trans|].
  destruct H2 as [-> |H2]; [done|by right].
Qed.
Lemma own_others i j w w' : own i w w' → j ≠ i → others j w w'.
Proof. intros [G H] Hne. split; [done|]. left. by apply H. Qed.

(** [p] keeps the invariant when run by replica [i], and ends with [Q], whatever the
    others do. *)
Fixpoint swp {A} (i : nat) (p : Prog PgE A) (Q : A → Sessions → Prop) (w : Sessions) : Prop :=
  match p with
  | Ret a => ∀ w1, others i w w1 → Q a w1
  | Call e k => ∀ w1 x w2, others i w w1 → over_step i _ e w1 x w2 → own i w1 w2 ∧ swp i (k x) Q w2
  end.

Lemma swp_later {A} i (p : Prog PgE A) Q w w1 : swp i p Q w → others i w w1 → swp i p Q w1.
Proof.
  destruct p as [a|X e k]; simpl.
  - intros H Hw w2 H2. apply H. by eapply others_trans.
  - intros H Hw w2 x w3 H2. apply H. by eapply others_trans.
Qed.
Lemma swp_wait {A} i (p : Prog PgE A) Q w : (∀ w1, others i w w1 → swp i p Q w1) → swp i p Q w.
Proof.
  destruct p as [a|X e k]; simpl; intros H.
  - intros w1 Hw. apply (H w1 Hw), others_refl. apply Hw.
  - intros w1 x w2 Hw. apply (H w1 Hw), others_refl. apply Hw.
Qed.
Lemma swp_bind {A B} i (p : Prog PgE A) (f : A → Prog PgE B) Q w :
  swp i p (λ a, swp i (f a) Q) w → swp i (mbind f p) Q w.
Proof.
  revert w. induction p as [a|X e k IH]; intros w; [apply swp_wait|]. intros H w1 x w2 Hw Hx.
  destruct (H w1 x w2 Hw Hx) as [Ho Hk]. split; [done|]. by apply IH.
Qed.
Lemma swp_mono {A} i (p : Prog PgE A) (Q Q' : A → Sessions → Prop) w :
  (∀ a w, Q a w → Q' a w) → swp i p Q w → swp i p Q' w.
Proof.
  intros HQ. revert w. induction p as [a|X e k IH]; intros w; simpl; [by eauto|].
  intros H w1 x w2 Hw Hx. destruct (H w1 x w2 Hw Hx) as [Ho Hk]. split; [done|]. by apply IH.
Qed.

(** *** Steps *)

Lemma own_same i w : invariant w → own i w w.
Proof. intros Hi. split; [by apply grows_refl|done]. Qed.
Lemma own_tx i w w' :
  invariant w' → w'.(o_db) = w.(o_db) → (∀ j, j ≠ i → w'.(o_tx) !! j = w.(o_tx) !! j) → own i w w'.
Proof. intros Hi Hd Htx. split; [|done]. unfold grows. by rewrite Hd. Qed.
Lemma own_dropped i w : invariant w → own i w (dropped i w).
Proof.
  intros [n Hn]. apply own_tx; [exists n; by apply sound_dropped|done|]. intros j Hne. simpl.
  by rewrite lookup_delete_ne.
Qed.
Lemma own_failed i a w w' : invariant w → failed i a w w' → own i w w'.
Proof. intros Hi [_ [->| ->]]; [by apply own_same|by apply own_dropped]. Qed.
Lemma own_set_open i t w : invariant (set_open i t w) → own i w (set_open i t w).
Proof. intros Hi. apply own_tx; [done|done|]. intros j Hne. simpl. by rewrite lookup_insert_ne. Qed.

(** All of [done] is in the ledger. *)
Definition known (done : list string) (w : Sessions) : Prop := ∀ x, x ∈ done → x ∈ recorded w.(o_db).
Lemma known_grows done w w' : known done w → grows w w' → known done w'.
Proof. intros Hk (_ & [l Hl] & _) x Hx. rewrite Hl. apply elem_of_app. left. by apply Hk. Qed.

Lemma swp_roll_back i a done (Q : result migrate_err () → Sessions → Prop) w :
  known done w → (∀ w', known done w' → Q a w') → swp i (roll_back a) Q w.
Proof.
  intros Hk HQ. unfold roll_back. rewrite bind_Call. intros w1 [] w2 [Hw _] ->.
  pose proof (own_dropped i w1 (proj1 Hw)) as Ho. split; [done|]. rewrite bind_Ret. intros w3 [Hw3 _].
  apply HQ. eapply known_grows; [|exact Hw3]. eapply known_grows; [|exact (proj1 Ho)].
  by eapply known_grows.
Qed.

(** *** The program *)

(** The transaction of [i] is [t], or was dropped. *)
Definition mine (i : nat) (t : list string * list string) (w : Sessions) : Prop :=
  ∀ t', w.(o_tx) !! i = Some t' → t' = t.
Lemma mine_others i t w w' : mine i t w → others i w w' → mine i t w'.
Proof. intros Hm [_ [Htx|Htx]] t' Ht'; rewrite Htx in Ht'; [by apply Hm|done]. Qed.

Definition one_known (name : string) (done : list string) (a : result migrate_err ()) (w : Sessions) : Prop :=
  known done w ∧ (a = Ok () → name ∈ recorded w.(o_db)).

Lemma swp_fail i name done e w :
  known done w → swp i (roll_back (Err e)) (one_known name done) w.
Proof. intros Hk. eapply swp_roll_back; [exact Hk|]. by intros w' Hk'. Qed.

Lemma invariant_recorded i name done rest w l :
  migration_names entries = done ++ name :: rest → invariant w → known done w →
  ledger_of w = Some l → name ∉ l →
  (∀ j r b, j ≠ i → w.(o_tx) !! j = Some (r, b) → name ∉ r) →
  invariant (set_open i ([name], [body_of name]) w).
Proof.
  intros Hsplit [n Hn] Hk Hl Hname Hothers. exists n. apply sound_record; [done| |done].
  destruct Hn as [[Hr _] _ _]. assert (recorded w.(o_db) = l) as Hrec by (unfold recorded; by rewrite Hl).
  eapply next_todo; [exact Hnames|exact Hsplit|..]; rewrite <-Hr; [done|by rewrite Hrec].
Qed.

Lemma swp_commit i name done w :
  known done w → mine i ([name], [body_of name]) w →
  swp i (c ← Call PCommit Ret; match c with Err _ => Ret (Err (MCommit name)) | Ok _ => Ret (Ok ()) end)
    (one_known name done) w.
Proof.
  intros Hk Hm. rewrite bind_Call. intros w1 c w2 Hw Hx. simpl in Hx.
  pose proof (mine_others _ _ _ _ Hm Hw) as Hm1. pose proof (known_grows _ _ _ Hk (proj1 Hw)) as Hk1.
  destruct Hx as [(t & Ht & ->)|[-> ->]].
  - pose proof (Hm1 t Ht) as ->. destruct Hw as [[[n Hn] _] _].
    assert (own i w1 (committed i ([name], [body_of name]) w1)) as Ho.
    { split; [|intros j Hne; simpl; by rewrite lookup_delete_ne].
      split; [exists (S n); by apply sound_commit|]. split; [by eexists|by eexists]. }
    split; [done|]. rewrite bind_Ret.
    assert (∀ w3, others i (committed i ([name], [body_of name]) w1) w3 → known done w3 ∧ name ∈ recorded w3.(o_db)) as Hend.
    { intros w3 [Hg _]. split; [by eapply known_grows, Hg; eapply known_grows, Ho|].
      destruct Hg as (_ & [l ->] & _). apply elem_of_app. left. simpl. apply elem_of_app. right. left. }
    destruct c; intros w3 [? ?]%Hend; by split.
  - pose proof (own_dropped i w1 (proj1 (proj1 Hw))) as Ho. split; [done|]. rewrite bind_Ret.
    intros w3 [Hg _]. split; [|done]. eapply known_grows, Hg. by eapply known_grows, Ho.
Qed.

Lemma swp_apply i name done rest w :
  migration_names entries = done ++ name :: rest → known done w → mine i ([], []) w →
  swp i (x ← Call (PExec (body_of name)) Ret;
     match x with
     | Err _ => roll_back (Err (MApply name))
     | Ok _ =>
         r ← Call (PRecord name) Ret;
         match r with
         | Err _ => roll_back (Err (MRecord name))
         | Ok _ =>
             c ← Call PCommit Ret;
             match c with Err _ => Ret (Err (MCommit name)) | Ok _ => Ret (Ok ()) end
         end
     end) (one_known name done) w.
Proof.
  intros Hsplit Hk Hm. rewrite bind_Call. intros w1 x w2 Hw Hx. simpl in Hx.
  pose proof (mine_others _ _ _ _ Hm Hw) as Hm1. pose proof (known_grows _ _ _ Hk (proj1 Hw)) as Hk1.
  pose proof (proj1 (proj1 Hw)) as Hi1. rewrite bind_Ret. destruct Hx as [(-> & r & b & Htx & _ & ->)|Hf]; cycle 1.
  { pose proof (own_failed _ _ _ _ Hi1 Hf) as Ho. split; [done|]. destruct Hf as [-> _].
    apply swp_fail. by eapply known_grows, Ho. }
  pose proof (Hm1 _ Htx) as [= -> ->]. destruct Hi1 as [n Hn].
  pose proof (own_set_open i ([], [] ++ [body_of name]) w1 ltac:(exists n; by apply sound_nothing)) as Ho.
  split; [done|]. rewrite bind_Call. intros w3 y w4 Hw3 Hy. simpl in Hy.
  pose proof (known_grows _ _ _ (known_grows _ _ _ Hk1 (proj1 Ho)) (proj1 Hw3)) as Hk3.
  assert (mine i ([], [body_of name]) w3) as Hm3.
  { eapply mine_others; [|exact Hw3]. intros t'. simpl. rewrite lookup_insert_eq. by intros [= <-]. }
  pose proof (proj1 (proj1 Hw3)) as Hi3. rewrite bind_Ret.
  destruct Hy as [(-> & l & r & b & Hl & Htx3 & Hname & Hothers & ->)|Hf]; cycle 1.
  { pose proof (own_failed _ _ _ _ Hi3 Hf) as Ho'. split; [done|]. destruct Hf as [-> _].
    apply swp_fail. by eapply known_grows, Ho'. }
  pose proof (Hm3 _ Htx3) as [= -> ->]. rewrite app_nil_r in Hname.
  pose proof (own_set_open i ([name], [body_of name]) w3
    ltac:(by eapply invariant_recorded)) as Ho'. split; [done|].
  apply swp_commit; [by eapply known_grows, Ho'|]. intros t'. simpl. rewrite lookup_insert_eq. by intros [= <-].
Qed.

Lemma swp_migrate_one i done name rest w :
  migration_names entries = done ++ name :: rest → known done w →
  swp i (migrate_one name) (one_known name done) w.
Proof.
  intros Hsplit Hk. unfold migrate_one. rewrite bind_Call. intros w1 body w2 Hw [-> Hbody].
  pose proof (proj1 (proj1 Hw)) as Hi. split; [by apply own_same|]. rewrite bind_Ret.
  pose proof (known_grows _ _ _ Hk (proj1 Hw)) as Hk1.
  destruct Hbody as [->|(body' & Hbody & ->)].
  { intros w3 [Hg _]. split; [by eapply known_grows|done]. }
  assert (body' = body_of name) as -> by (unfold PgMigrate.body_of; by rewrite Hbody). clear Hbody Hw Hk w.
  rewrite bind_Call. intros w b w2 Hw Hb. simpl in Hb. rewrite bind_Ret.
  pose proof (known_grows _ _ _ Hk1 (proj1 Hw)) as Hk. pose proof (proj1 (proj1 Hw)) as Hi2.
  destruct Hb as [[-> ->]|Hf]; cycle 1.
  { pose proof (own_failed _ _ _ _ Hi2 Hf) as Ho. split; [done|]. destruct Hf as [-> _].
    intros w3 [Hg _]. split; [|done]. eapply known_grows, Hg. by eapply known_grows, Ho. }
  destruct Hi2 as [n Hn]. pose proof (own_set_open i ([], []) w ltac:(exists n; by apply sound_nothing)) as Ho.
  split; [done|]. rewrite bind_Call. intros w3 x w4 Hw3 Hx. simpl in Hx. rewrite bind_Ret.
  pose proof (known_grows _ _ _ (known_grows _ _ _ Hk (proj1 Ho)) (proj1 Hw3)) as Hk3.
  pose proof (proj1 (proj1 Hw3)) as Hi3.
  assert (mine i ([], []) w3) as Hm.
  { eapply mine_others; [|exact Hw3]. intros t'. simpl. rewrite lookup_insert_eq. by intros [= <-]. }
  destruct Hx as [(l & r & b & Hl & Htx & -> & ->)|[-> Hx]]; cycle 1.
  { pose proof (own_failed i (Err ()) _ _ Hi3 (conj eq_refl Hx)) as Ho'. split; [done|].
    apply swp_fail. by eapply known_grows, Ho'. }
  pose proof (Hm _ Htx) as [= -> ->]. rewrite app_nil_r. split; [by apply own_same|].
  case_bool_decide as Hin; [|by eapply swp_apply].
  eapply (swp_roll_back _ _ (name :: done)).
  - intros y [->|Hy]%elem_of_cons; [unfold recorded; by rewrite Hl|by apply Hk3].
  - intros w' Hk'. split; [intros y Hy|intros _]; apply Hk'; [by right|left].
Qed.

Definition all_known (a : result migrate_err ()) (w : Sessions) : Prop :=
  a = Ok () → known (migration_names entries) w.

Lemma swp_migrate_all i done rest w :
  migration_names entries = done ++ rest → known done w → swp i (migrate_all rest) all_known w.
Proof.
  revert done w. induction rest as [|name rest IH]; intros done w Hsplit Hk; cbn [migrate_all].
  { intros w1 [Hg _] _. rewrite Hsplit, app_nil_r. by eapply known_grows. }
  apply swp_bind. eapply swp_mono; [|by eapply swp_migrate_one].
  intros a w' [Hk' Hok]. destruct a as [[]|e]; [|done].
  apply (IH (done ++ [name])); [by rewrite <-app_assoc|].
  intros x [Hx| ->%list_elem_of_singleton]%elem_of_app; [by apply Hk'|by apply Hok].
Qed.

(** A call that leaves the world as it is, or fails. *)
Lemma swp_created i w1 w2 a :
  invariant w1 → over_step i _ PCreateLedger w1 a w2 → own i w1 w2.
Proof.
  intros [n [[Hr Hs] Ho H1]] [->|[_ ->]]; [|apply own_same; by exists n].
  split; [|done]. split; [by exists n|]. split; [done|by eexists].
Qed.

Lemma swp_migrate_locked i w : swp i migrate_locked all_known w.
Proof.
  unfold migrate_locked. rewrite bind_Call. intros w1 a w2 Hw Hx. split; [by eapply swp_created, Hx; apply Hw|].
  rewrite bind_Ret. destruct a as [[]|e]; [|done]. rewrite bind_Call. intros w3 es w4 Hw3 [-> Hes].
  split; [apply own_same, Hw3|]. rewrite bind_Ret. destruct Hes as [->| ->]; [|done].
  apply (swp_migrate_all _ []); [done|]. by intros x ?%elem_of_nil.
Qed.

Lemma swp_Migrate i w : swp i Migrate all_known w.
Proof.
  assert (∀ (r : result migrate_err ()) w, all_known r w →
    swp i (_ ← Call PUnlock Ret; _ ← Call PRelease Ret; Ret r) all_known w) as Hend.
  { intros r w0 Hr. rewrite bind_Call. intros w1 [] w2 Hw1 ->. split; [apply own_same, Hw1|].
    rewrite bind_Ret, bind_Call. intros w3 [] w4 Hw3 ->. split; [apply own_same, Hw3|].
    intros w5 Hw5 Hok. eapply known_grows, Hw5. eapply known_grows, Hw3. eapply known_grows, Hw1. by apply Hr. }
  unfold Migrate. rewrite bind_Call. intros w1 a w2 Hw1 ->. split; [apply own_same, Hw1|]. rewrite bind_Ret.
  destruct a as [[]|e]; [|done]. rewrite bind_Call. intros w3 l w4 Hw3 ->. split; [apply own_same, Hw3|].
  rewrite bind_Ret. destruct l as [[]|e]; cycle 1.
  { rewrite bind_Call. intros w5 [] w6 Hw5 ->. split; [apply own_same, Hw5|]. done. }
  apply swp_bind. eapply swp_mono; [|apply swp_migrate_locked]. intros r w0 Hr. by apply Hend.
Qed.

(** ** Every interleaving *)

Lemma over_run_safe c c' :
  over_run c c' → invariant c.2 → (∀ i p, c.1 !! i = Some p → swp i p all_known c.2) →
  invariant c'.2 ∧ ∀ i p, c'.1 !! i = Some p → swp i p all_known c'.2.
Proof.
  induction 1 as [c|ps w i X e k a w' c Hi Hx _ IH|ps w i c _ IH]; simpl in *; intros Hinv Hall; [done| |].
  - destruct (Hall _ _ Hi w a w' (others_refl i w Hinv) Hx) as [Ho Hk]. apply IH; [apply Ho|].
    intros j p [(<- & <- & _)|[Hne Hj]]%list_lookup_insert_Some; [done|].
    eapply swp_later; [by apply Hall|]. by eapply own_others.
  - pose proof (own_dropped i w Hinv) as Ho. apply IH; [apply Ho|]. intros j p Hj.
    eapply swp_later; [by apply Hall|]. destruct (decide (j = i)) as [->|Hne]; [|by eapply own_others].
    split; [apply Ho|]. right. simpl. apply lookup_delete_eq.
Qed.

(** Whatever the advisory lock does: however the statements of any number of replicas
    interleave, with overlapping transactions, dropped connections, crashes and lost
    replies, the ledger and the schema are always those of a prefix of the missing files
    in order, each applied once; and a replica that returned nil leaves all of them. *)
Theorem overlapping_migrations_refine_the_sequence n w ps w' :
  applied_upto 0 w.(o_db) → w.(o_tx) = ∅ → over_run (replicate n Migrate, w) (ps, w') →
  ∃ m, applied_upto m w'.(o_db) ∧ ((∃ i, ps !! i = Some (Ret (Ok ()))) → (length todo ≤ m)%nat).
Proof.
  intros Hw Htx Hrun. apply over_run_safe in Hrun as [[m Hm] Hall]; simpl in *.
  - exists m. destruct Hm as [Hm Ho H1]. split; [done|]. intros [i Hi].
    assert (invariant w') as Hinv by by exists m.
    pose proof (Hall _ _ Hi w' (others_refl i w' Hinv) eq_refl) as Hk.
    destruct Hm as [Hr _]. eapply todo_complete; [done|]. intros x Hx. rewrite <-Hr. by apply Hk.
  - exists 0%nat. split; [done|..]; rewrite Htx; [by intros ? ? ? ?%lookup_empty_Some|by intros ? ? ? ? ? ? ?%lookup_empty_Some].
  - intros i p [-> _]%lookup_replicate. apply swp_Migrate.
Qed.
End overlap.
