(* ===== verification/ChMigrate.v ===== *)
(** * Package clickhouse, migrate.go: the ledgered, statement-wise migrations

    ClickHouse has neither transactions nor a lock here: each statement is an atomic
    call that may fail, having taken effect or not.  The ledger is a plain table, so a
    name can be in it twice. *)
From stdpp Require Import sorting.
From S2P Require Import Prelude GoStrings Prog MigrationFiles.
#[local] Open Scope Z_scope.

Inductive ChE : Type → Type :=
| MCreateLedger : ChE (result () ())
| MQueryApplied : ChE (result () (list string * bool))   (* rows, and whether they end in an error *)
| MReadDir : ChE (result () (list DirEntry))
| MReadFile (name : string) : ChE (result () string)
| MExec (stmt : string) : ChE (result () ())
| MRecord (name : string) : ChE (result () ()).

Inductive ch_err :=
| ChLedger | ChApplied | ChDir | ChRead (name : string) | ChExec (name : string) | ChRecord (name : string).

(** The statements of a file. *)
Definition statements (body : string) : list string :=
  filter (λ s, s ≠ "") (TrimSpace <$> Split body ";").

Example statements_ex :
  statements "CREATE TABLE a; ;ALTER TABLE a;" = ["CREATE TABLE a"; "ALTER TABLE a"].
Proof. reflexivity. Qed.

(** [appliedMigrations(ctx, conn)] *)
Definition appliedMigrations : Prog ChE (result ch_err (list string)) :=
  rows ← Call MQueryApplied Ret;
  match rows with
  | Ok (names, false) => Ret (Ok names)
  | _ => Ret (Err ChApplied)
  end.

Fixpoint exec_all (name : string) (stmts : list string) : Prog ChE (result ch_err ()) :=
  match stmts with
  | [] => Ret (Ok ())
  | stmt :: stmts =>
      x ← Call (MExec stmt) Ret;
      match x with Err _ => Ret (Err (ChExec name)) | Ok _ => exec_all name stmts end
  end.

(** A file that is not in the ledger. *)
Definition ch_apply (name : string) : Prog ChE (result ch_err ()) :=
  body ← Call (MReadFile name) Ret;
  match body with
  | Err _ => Ret (Err (ChRead name))
  | Ok body =>
      x ← exec_all name (statements body);
      match x with
      | Err e => Ret (Err e)
      | Ok _ =>
          r ← Call (MRecord name) Ret;
          match r with Err _ => Ret (Err (ChRecord name)) | Ok _ => Ret (Ok ()) end
      end
  end.

Fixpoint ch_migrate_all (applied names : list string) : Prog ChE (result ch_err ()) :=
  match names with
  | [] => Ret (Ok ())
  | name :: names =>
      if bool_decide (name ∈ applied) then ch_migrate_all applied names
      else
        r ← ch_apply name;
        match r with Err e => Ret (Err e) | Ok _ => ch_migrate_all applied names end
  end.

(** [Migrate(ctx, conn, dir)] *)
Definition ch_Migrate : Prog ChE (result ch_err ()) :=
  l ← Call MCreateLedger Ret;
  match l with
  | Err _ => Ret (Err ChLedger)
  | Ok _ =>
      applied ← appliedMigrations;
      match applied with
      | Err e => Ret (Err e)
      | Ok applied =>
          entries ← Call MReadDir Ret;
          match entries with
          | Err _ => Ret (Err ChDir)
          | Ok entries => ch_migrate_all applied (migration_names entries)
          end
      end
  end.

(** ** The server *)

Record ChDB := {
  ch_ledger : list string;
  ch_log : list string                  (* the statements that took effect, oldest first *)
}.
Definition ch_executed (d : ChDB) (stmt : string) : ChDB :=
  {| ch_ledger := d.(ch_ledger); ch_log := d.(ch_log) ++ [stmt] |}.
Definition ch_recorded (d : ChDB) (name : string) : ChDB :=
  {| ch_ledger := d.(ch_ledger) ++ [name]; ch_log := d.(ch_log) |}.

Section server.
Context (entries : list DirEntry) (content : gmap string string) (faults : bool).

Definition ch_sem : semantics ChE ChDB :=
  λ X e d a d',
    match e in ChE X return X → Prop with
    | MCreateLedger => λ a, d' = d ∧ (a = Ok () ∨ (faults ∧ a = Err ()))
    | MQueryApplied => λ a, d' = d ∧
        ((∃ rows, a = Ok (rows, false) ∧ ∀ x, x ∈ rows ↔ x ∈ d.(ch_ledger)) ∨
         (faults ∧ (a = Err () ∨ ∃ rows, a = Ok (rows, true))))
    | MReadDir => λ a, d' = d ∧ (a = Ok entries ∨ (faults ∧ a = Err ()))
    | MReadFile name => λ a, d' = d ∧
        (a = match content !! name with Some body => Ok body | None => Err () end ∨ (faults ∧ a = Err ()))
    | MExec stmt => λ a, (a = Ok () ∧ d' = ch_executed d stmt) ∨
        (faults ∧ a = Err () ∧ (d' = d ∨ d' = ch_executed d stmt))
    | MRecord name => λ a, (a = Ok () ∧ d' = ch_recorded d name) ∨
        (faults ∧ a = Err () ∧ (d' = d ∨ d' = ch_recorded d name))
    end a.

(** ** What a sequence of runs leaves behind *)

Context (L0 : list string).
Abbreviation todo := (todo entries L0).
Definition stmts_of (name : string) : list string := statements (default "" (content !! name)).

(** [attempted k l]: the statements [l] are those of the first [k] missing files, each
    run to its end once, after any number of broken-off attempts at that file; then
    broken-off attempts at file [k]. *)
Inductive attempted : nat → list string → Prop :=
| attempted_none : attempted 0 []
| attempted_broken k l name p :
    attempted k l → todo !! k = Some name → p `prefix_of` stmts_of name → attempted k (l ++ p)
| attempted_done k l name :
    attempted k l → todo !! k = Some name → attempted (S k) (l ++ stmts_of name).

Lemma attempted_le k l : attempted k l → (k ≤ length todo)%nat.
Proof.
  induction 1 as [|k l name p _ IH Hk _|k l name _ IH Hk]; [lia|done|].
  apply lookup_lt_Some in Hk. lia.
Qed.

Context (log0 : list string).
Definition reached (k : nat) (d : ChDB) : Prop :=
  d.(ch_ledger) = L0 ++ take k todo ∧ ∃ l, attempted k l ∧ d.(ch_log) = log0 ++ l.

Lemma exec_all_exec name stmts d tr a d' :
  exec ch_sem (exec_all name stmts) d tr a d' →
  d'.(ch_ledger) = d.(ch_ledger) ∧ ∃ p, p `prefix_of` stmts ∧ d'.(ch_log) = d.(ch_log) ++ p ∧
  match a with Ok _ => p = stmts | Err _ => Is_true faults end.
Proof.
  revert d tr. induction stmts as [|stmt stmts IH]; intros d tr; cbn [exec_all].
  { intros (_ & -> & ->). split; [done|]. exists []. by rewrite app_nil_r. }
  rewrite bind_Call. intros (x & d1 & tr1 & Hx & _ & H). rewrite bind_Ret in H.
  destruct Hx as [[-> ->]|(Hf & -> & Hd)].
  - apply IH in H as (Hl & p & Hp & Hlog & Ha). split; [done|]. exists (stmt :: p).
    split_and!; [by apply prefix_cons| |by destruct a; subst].
    rewrite Hlog. simpl. by rewrite <-app_assoc.
  - destruct H as (_ & -> & ->). destruct Hd as [->| ->]; (split; [done|]).
    + exists []. rewrite app_nil_r. split_and!; [apply prefix_nil|done..].
    + exists [stmt]. split_and!; [by exists stmts|done..].
Qed.

Context (Hnames : NoDup (e_Name <$> entries)).
Context (Hcontent : ∀ name, name ∈ migration_names entries → is_Some (content !! name)).

Lemma ch_apply_exec k name d tr a d' :
  reached k d → todo !! k = Some name → exec ch_sem (ch_apply name) d tr a d' →
  match a with
  | Ok _ => reached (S k) d'
  | Err _ => Is_true faults ∧ (reached k d' ∨ reached (S k) d')
  end.
Proof.
  intros (HL & l & Hatt & Hlog) Hk. unfold ch_apply. rewrite bind_Call.
  intros (x & d1 & tr1 & [-> Hx] & _ & H). rewrite bind_Ret in H.
  assert (name ∈ migration_names entries) as Hin.
  { apply list_elem_of_lookup_2, list_elem_of_filter in Hk. by destruct Hk. }
  destruct (Hcontent name Hin) as [body Hbody]. rewrite Hbody in Hx.
  assert (statements body = stmts_of name) as Hst by (unfold stmts_of; by rewrite Hbody).
  destruct Hx as [-> |[Hf ->]]; cycle 1.
  { destruct H as (_ & -> & ->). split; [done|]. left. split; [done|]. by exists l. }
  apply exec_bind in H as (tr2 & x & d2 & tr3 & Hexec & H & _).
  apply exec_all_exec in Hexec as (HL2 & p & Hp & Hlog2 & Hx). rewrite Hst in *.
  assert (reached k d2) as Hd2.
  { split; [congruence|]. exists (l ++ p). split; [by eapply attempted_broken|].
    by rewrite Hlog2, Hlog, app_assoc. }
  destruct x as [[]|e]; [|destruct H as (_ & -> & ->); by split; [|left]].
  assert (reached (S k) (ch_recorded d2 name)) as Hd3.
  { split; simpl.
    - by rewrite HL2, HL, (take_S_r _ _ _ Hk), app_assoc.
    - exists (l ++ p). split; [|by rewrite Hlog2, Hlog, app_assoc]. subst p. by eapply attempted_done. }
  rewrite bind_Call in H. destruct H as (x & d3 & tr4 & Hr & _ & H). rewrite bind_Ret in H.
  destruct Hr as [[-> ->]|(Hf & -> & [->| ->])]; destruct H as (_ & -> & ->);
    [done|by split; [|left]|by split; [|right]].
Qed.

(** The loop, from file [k] on: [done] are the names already passed. *)
Lemma ch_migrate_all_exec applied done rest k0 k d tr a d' :
  migration_names entries = done ++ rest → (∀ x, x ∈ applied ↔ x ∈ L0 ++ take k0 todo) →
  reached k d → (k0 ≤ k)%nat → (∀ x, x ∈ done → x ∈ L0 ++ take k todo) →
  (∀ x, x ∈ take k todo → x ∈ take k0 todo ∨ x ∈ done) →
  exec ch_sem (ch_migrate_all applied rest) d tr a d' →
  match a with
  | Ok _ => reached (length todo) d'
  | Err _ => Is_true faults ∧ ∃ k', (k ≤ k')%nat ∧ reached k' d'
  end.
Proof.
  intros Hsplit Happ. revert done k d tr Hsplit.
  induction rest as [|name rest IH]; intros done k d tr Hsplit Hd Hk Hdone Hnew; cbn [ch_migrate_all].
  { intros (_ & -> & ->). rewrite app_nil_r in Hsplit. rewrite <-Hsplit in Hdone.
    pose proof Hd as (_ & l & Hatt%attempted_le & _).
    pose proof (todo_complete _ _ Hnames _ Hdone). by replace (length todo) with k by lia. }
  assert (∀ k', (k ≤ k')%nat → ∀ x, x ∈ L0 ++ take k todo → x ∈ L0 ++ take k' todo) as Hgrow.
  { intros k' Hk' x [?|Hx]%elem_of_app; apply elem_of_app; [by left|right].
    apply elem_of_take in Hx as (m & Hm & Hlt). apply elem_of_take. exists m. split; [done|lia]. }
  case_bool_decide as Hin.
  - apply (IH (done ++ [name])); [by rewrite <-app_assoc|done|done| |].
    + intros x [Hx| ->%list_elem_of_singleton]%elem_of_app; [by apply Hdone|].
      rewrite Happ, elem_of_app in Hin. rewrite elem_of_app. destruct Hin as [?|Hin]; [by left|right].
      apply elem_of_take in Hin as (m & Hm & Hlt). apply elem_of_take. exists m. split; [done|lia].
    + intros x Hx. destruct (Hnew x Hx); [by left|right]. by apply elem_of_app; left.
  - rewrite Happ in Hin. apply not_elem_of_app in Hin as [Hin0 Hin].
    assert (todo !! k = Some name) as Htodo.
    { eapply next_todo; [exact Hnames|exact Hsplit|done|]. apply not_elem_of_app. split; [done|].
      intros Hx. destruct (Hnew name Hx) as [?|Hd0]; [done|].
      pose proof (migration_names_NoDup _ Hnames) as Hnd. rewrite Hsplit in Hnd.
      apply NoDup_app in Hnd as (_ & Hnd & _). destruct (Hnd name Hd0). left. }
    intros (tr1 & x & d1 & tr2 & Hx & H & _)%exec_bind.
    pose proof (ch_apply_exec _ _ _ _ _ _ Hd Htodo Hx) as Hx'. destruct x as [[]|e].
    + apply (IH (done ++ [name]) (S k)) in H; [|by rewrite <-app_assoc|done|lia| |].
      * destruct a as [[]|e]; [done|]. destruct H as (Hf & k' & Hk' & Hd'). split; [done|].
        exists k'. split; [lia|done].
      * intros y [Hy| ->%list_elem_of_singleton]%elem_of_app.
        -- apply (Hgrow (S k)); [lia|]. by apply Hdone.
        -- apply elem_of_app. right. rewrite (take_S_r _ _ _ Htodo). apply elem_of_app. right. left.
      * intros y Hy. rewrite (take_S_r _ _ _ Htodo) in Hy.
        apply elem_of_app in Hy as [Hy| ->%list_elem_of_singleton].
        -- destruct (Hnew y Hy); [by left|right]. by apply elem_of_app; left.
        -- right. apply elem_of_app. right. left.
    + destruct H as (_ & -> & ->). destruct Hx' as [Hf [Hd'|Hd']]; (split; [done|]).
      * by exists k.
      * exists (S k). split; [lia|done].
Qed.

(** A whole run from any reached state. *)
Lemma ch_Migrate_exec k d tr a d' :
  reached k d → exec ch_sem ch_Migrate d tr a d' →
  match a with
  | Ok _ => reached (length todo) d'
  | Err _ => Is_true faults ∧ ∃ k', (k ≤ k')%nat ∧ reached k' d'
  end.
Proof.
  intros Hd. unfold ch_Migrate. rewrite bind_Call.
  intros (x & d1 & tr1 & [-> Hx] & _ & H). rewrite bind_Ret in H.
  destruct Hx as [-> |[Hf ->]]; [|destruct H as (_ & -> & ->); split; [done|by exists k]].
  unfold appliedMigrations in H. rewrite bind_Call, bind_Call in H.
  destruct H as (x & d1 & tr2 & [-> Hx] & _ & H). rewrite bind_Ret in H.
  destruct Hx as [(rows & -> & Hrows)|(Hf & Hx)]; cycle 1.
  { assert (a = Err ChApplied ∧ d' = d) as [-> ->].
    { destruct Hx as [->|[rows ->]]; rewrite bind_Ret in H; by destruct H as (_ & -> & ->). }
    split; [done|by exists k]. }
  rewrite bind_Ret, bind_Call in H. destruct H as (x & d1 & tr3 & [-> Hx] & _ & H).
  rewrite bind_Ret in H.
  destruct Hx as [-> |[Hf ->]]; [|destruct H as (_ & -> & ->); split; [done|by exists k]].
  destruct Hd as [HL Hd]. apply (ch_migrate_all_exec rows [] _ k k) in H; [done|done| |by split|lia| |].
  - intros x. by rewrite Hrows, HL.
  - by intros x ?%elem_of_nil.
  - by left.
Qed.
End server.

(** Runs one after another, whatever each ends in. *)
Inductive ch_runs (entries : list DirEntry) (content : gmap string string) :
    ChDB → list (result ch_err ()) → ChDB → Prop :=
| ch_runs_none d : ch_runs entries content d [] d
| ch_runs_more d a d1 results d2 tr :
    exec (ch_sem entries content true) ch_Migrate d tr a d1 →
    ch_runs entries content d1 results d2 → ch_runs entries content d (a :: results) d2.

(** ** Properties *)

(** C37: a migration is recorded only after all its statements succeeded, and a broken
    run is resumed at the file it broke in: after any sequence of runs, each failing
    anywhere, the ledger holds a prefix of the missing files once each in name order,
    and the statements that took effect are those files' in full, each after any
    number of broken-off attempts at that file alone; once a run returns nil all
    files are recorded. *)
Theorem ch_runs_resume entries content d0 results d :
  NoDup (e_Name <$> entries) →
  (∀ name, name ∈ migration_names entries → is_Some (content !! name)) →
  ch_runs entries content d0 results d →
  ∃ k l, d.(ch_ledger) = d0.(ch_ledger) ++ take k (todo entries d0.(ch_ledger)) ∧
    d.(ch_log) = d0.(ch_log) ++ l ∧ attempted entries content d0.(ch_ledger) k l ∧
    (Ok () ∈ results → k = length (todo entries d0.(ch_ledger))).
Proof.
  intros Hnd Hcontent Hruns.
  set (inv k d := reached entries content d0.(ch_ledger) d0.(ch_log) k d).
  assert (∀ k d1, inv k d1 → ch_runs entries content d1 results d →
    ∃ k', inv k' d ∧ (k ≤ k')%nat ∧
      (Ok () ∈ results → k' = length (todo entries d0.(ch_ledger)))) as Hinv.
  { clear Hruns. intros k d1 Hd1 Hruns. revert k Hd1.
    induction Hruns as [d|d a d1 results d2 tr Hexec Hruns IH]; intros k Hd.
    { exists k. split_and!; [done..|]. by intros ?%elem_of_nil. }
    pose proof (ch_Migrate_exec _ _ _ _ _ Hnd Hcontent k d tr a d1 Hd Hexec) as Ha.
    destruct a as [[]|e].
    - destruct (IH _ Ha) as (k' & Hk' & Hle & _). exists k'.
      pose proof Hk' as (_ & l & Hatt%attempted_le & _).
      pose proof Hd as (_ & l' & Hatt'%attempted_le & _).
      split_and!; [done|lia|]. intros _. lia.
    - destruct Ha as (_ & k1 & Hle1 & Hd1). destruct (IH _ Hd1) as (k' & Hk' & Hle & Hres).
      exists k'. split_and!; [done|lia|]. intros [[=]|Hin]%elem_of_cons. by apply Hres. }
  destruct (Hinv 0%nat d0) as (k & (HL & l & Hatt & Hlog) & _ & Hres); [|done|].
  - split; [by rewrite take_0, app_nil_r|]. exists []. split; [constructor|by rewrite app_nil_r].
  - by exists k, l.
Qed.

(** ** The race the ledger does not close *)

Definition race_name : string := "0001_events.sql".
Definition race_entries : list DirEntry := [{| e_Name := race_name; e_IsDir := false |}].
Definition race_body : string := "INSERT INTO backfill SELECT 1;".
Definition race_stmt : string := "INSERT INTO backfill SELECT 1".
Definition race_content : gmap string string := {[ race_name := race_body ]}.
Definition ch_cold : ChDB := {| ch_ledger := []; ch_log := [] |}.

Definition race_start : list (event ChE) := [Ev MCreateLedger (Ok ()); Ev MQueryApplied (Ok ([], false))].
Definition race_rest : list (event ChE) :=
  [Ev MReadDir (Ok race_entries); Ev (MReadFile race_name) (Ok race_body);
   Ev (MExec race_stmt) (Ok ()); Ev (MRecord race_name) (Ok ())].

(** Without a lock, two replicas that start together on a cold server both run the
    file and both record it, although the comment on [Migrate] promises exactly once. *)
Theorem ch_replicas_apply_twice :
  pool_run (ch_sem race_entries race_content false) ([ch_Migrate; ch_Migrate], ch_cold)
    ((pair 0%nat <$> race_start) ++ (pair 1%nat <$> race_start) ++
     (pair 0%nat <$> race_rest) ++ (pair 1%nat <$> race_rest))
    ([Ret (Ok ()); Ret (Ok ())],
     {| ch_ledger := [race_name; race_name]; ch_log := [race_stmt; race_stmt] |}).
Proof.
  unfold race_start, race_rest. rewrite !fmap_cons. cbn [app fmap list_fmap].
  set (ran := ch_executed ch_cold race_stmt). set (one := ch_recorded ran race_name).
  do 2 (pool_tick to ch_cold; [split; [done|by left]|];
        pool_tick to ch_cold; [split; [done|left; by exists []]|]).
  do 2 (pool_tick to ch_cold; [split; [done|by left]|]).
  pool_tick to ran; [by left|]. pool_tick to one; [by left|].
  do 2 (pool_tick to one; [split; [done|by left]|]).
  pool_tick to (ch_executed one race_stmt); [by left|].
  pool_tick to (ch_recorded (ch_executed one race_stmt) race_name); [by left|]. apply pool_done.
Qed.

(** ** Witnesses *)

Definition two_entries : list DirEntry :=
  [{| e_Name := "0001_a.sql"; e_IsDir := false |}; {| e_Name := "0002_b.sql"; e_IsDir := false |}].
Definition two_content : gmap string string :=
  <["0001_a.sql" := "CREATE a;ALTER a"]> {[ "0002_b.sql" := "CREATE b" ]}.

(** A first run breaks at its second statement, which did take effect; the second
    run repeats the file and finishes. *)
Definition broken : ChDB := {| ch_ledger := []; ch_log := ["CREATE a"; "ALTER a"] |}.
Definition finished : ChDB := {|
  ch_ledger := ["0001_a.sql"; "0002_b.sql"];
  ch_log := ["CREATE a"; "ALTER a"; "CREATE a"; "ALTER a"; "CREATE b"] |}.

Lemma two_runs :
  ch_runs two_entries two_content ch_cold [Err (ChExec "0001_a.sql"); Ok ()] finished.
Proof.
  eapply (ch_runs_more _ _ _ _ broken); [|eapply (ch_runs_more _ _ _ _ finished); [|apply ch_runs_none]].
  - eexists (Ok ()), ch_cold, _. split_and!; [split; [done|by left]|reflexivity|].
    eexists (Ok ([], false)), ch_cold, _. split_and!; [split; [done|left; by exists []]|reflexivity|].
    eexists (Ok two_entries), ch_cold, _. split_and!; [split; [done|by left]|reflexivity|].
    eexists (Ok "CREATE a;ALTER a"), ch_cold, _. split_and!; [split; [done|by left]|reflexivity|].
    eexists (Ok ()), (ch_executed ch_cold "CREATE a"), _. split_and!; [by left|reflexivity|].
    eexists (Err ()), broken, _. split_and!; [right; split_and!; [done|done|by right]|reflexivity|].
    done.
  - eexists (Ok ()), broken, _. split_and!; [split; [done|by left]|reflexivity|].
    eexists (Ok ([], false)), broken, _. split_and!; [split; [done|left; by exists []]|reflexivity|].
    eexists (Ok two_entries), broken, _. split_and!; [split; [done|by left]|reflexivity|].
    eexists (Ok "CREATE a;ALTER a"), broken, _. split_and!; [split; [done|by left]|reflexivity|].
    eexists (Ok ()), (ch_executed broken "CREATE a"), _. split_and!; [by left|reflexivity|].
    eexists (Ok ()), _, _. split_and!; [by left|reflexivity|].
    eexists (Ok ()), _, _. split_and!; [by left|reflexivity|].
    eexists (Ok "CREATE b"), _, _. split_and!; [split; [done|by left]|reflexivity|].
    eexists (Ok ()), _, _. split_and!; [by left|reflexivity|].
    eexists (Ok ()), _, _. split_and!; [by left|reflexivity|]. done.
Defined.

Lemma ch_runs_resume_witness :
  ∃ k l, finished.(ch_ledger) = [] ++ take k (todo two_entries []) ∧
    finished.(ch_log) = [] ++ l ∧ attempted two_entries two_content [] k l ∧
    (Ok () ∈ [Err (ChExec "0001_a.sql"); Ok ()] → k = length (todo two_entries [])).
Proof.
  apply (ch_runs_resume two_entries two_content ch_cold
    [Err (ChExec "0001_a.sql"); Ok ()] finished); [|  |apply two_runs].
  - apply (bool_decide_unpack _). vm_compute. exact I.
  - change (migration_names two_entries) with ["0001_a.sql"; "0002_b.sql"].
    intros name [->|[->|[]%elem_of_nil]%elem_of_cons]%elem_of_cons; by eexists.
Defined.
