(* ===== verification/Boundaries.v ===== *)
(** * Command checkboundaries: the import rules of the monorepo

    [main] runs `go list` per workspace module, decodes the packages it prints and
    checks each one's imports.  The go command is an effect; json.Decoder is an
    interface that hands out one object at a time. *)
From S2P Require Import Prelude GoStrings Prog.
#[local] Open Scope Z_scope.

Definition modulePrefix : string := "github.com/dhiazfathra/event-tracking/".

Record pkgInfo := {
  ImportPath : string;
  Imports : list string;
  TestImports : list string;
  XTestImports : list string
}.

(** ** The rules *)

(** [mergedImports(p)] *)
Definition mergedImports (p : pkgInfo) : list string :=
  (([] ++ p.(Imports)) ++ p.(TestImports)) ++ p.(XTestImports).

(** [serviceOf(path)] *)
Definition serviceOf (path : string) : string :=
  match CutPrefix path (modulePrefix +:+ "services/") with
  | None => ""
  | Some rest => before_first rest "/"
  end.

(** [isPkg(path)] *)
Definition isPkg (path : string) : bool := HasPrefix path (modulePrefix +:+ "pkg/").

(** The reports about one import. *)
Definition import_violations (pkg imp : string) : list string :=
  let self := serviceOf pkg in
  let other := serviceOf imp in
  (if negb (bool_decide (self = "")) && negb (bool_decide (other = "")) &&
      negb (bool_decide (other = self))
   then [pkg +:+ " imports " +:+ imp +:+ " (services/* may not import each other)"] else []) ++
  (if isPkg pkg && negb (bool_decide (other = ""))
   then [pkg +:+ " imports " +:+ imp +:+ " (pkg/* may not import services/*)"] else []).

(** [violations(pkg, imports)] *)
Definition violations (pkg : string) (imports : list string) : list string :=
  imports ≫= import_violations pkg.

(** ** Listing the packages *)

(** [go list -m -f {{.Dir}}] and [go list -json ./...] in a directory: the output. *)
Inductive GoListE : Type → Type :=
| GListModules : GoListE (result () string)
| GListPackages (dir : string) : GoListE (result () string).

(** [dec.Decode(&p)] on what is left of the output. *)
Inductive decoded := DecodeEOF | DecodeErr | DecodePkg (p : pkgInfo) (rest : string).
Class PkgDecoder := Decode : string → decoded.
(** Decoding an object consumes input. *)
Class PkgDecoderLaws (D : PkgDecoder) :=
  Decode_consumes s p rest : Decode s = DecodePkg p rest → (String.length rest < String.length s)%nat.

Section checker.
Context `{D : PkgDecoder}.

(** The decoding loop; [None] when [fuel] runs out. *)
Fixpoint decode_loop (fuel : nat) (out : string) : option (result () (list pkgInfo)) :=
  match fuel with
  | O => None
  | S fuel =>
      match Decode out with
      | DecodeEOF => Some (Ok [])
      | DecodeErr => Some (Err ())
      | DecodePkg p rest =>
          match decode_loop fuel rest with
          | None => None
          | Some (Err e) => Some (Err e)
          | Some (Ok pkgs) => Some (Ok (p :: pkgs))
          end
      end
  end.

Definition decode_all (out : string) : result () (list pkgInfo) :=
  default (Err ()) (decode_loop (S (String.length out)) out).

Fixpoint list_dirs (dirs : list string) : Prog GoListE (result () (list pkgInfo)) :=
  match dirs with
  | [] => Ret (Ok [])
  | dir :: dirs =>
      out ← Call (GListPackages dir) Ret;
      match out with
      | Err _ => Ret (Err ())
      | Ok out =>
          match decode_all out with
          | Err _ => Ret (Err ())
          | Ok pkgs =>
              rest ← list_dirs dirs;
              match rest with Err _ => Ret (Err ()) | Ok rest => Ret (Ok (pkgs ++ rest)) end
          end
      end
  end.

(** [listPackages()] *)
Definition listPackages : Prog GoListE (result () (list pkgInfo)) :=
  dirs ← Call GListModules Ret;
  match dirs with Err _ => Ret (Err ()) | Ok dirs => list_dirs (Fields dirs) end.

(** [main()]: the exit code and the violations it prints. *)
Definition check_main : Prog GoListE (Z * list string) :=
  pkgs ← listPackages;
  match pkgs with
  | Err _ => Ret (2, [])
  | Ok pkgs =>
      let all := pkgs ≫= (λ p, violations p.(ImportPath) (mergedImports p)) in
      Ret (if bool_decide (all = []) then (0, []) else (1, all))
  end.
End checker.

(** ** The rules as relations *)

(** [path] is the package of service [s], or one below it. *)
Definition in_service (path s : string) : Prop :=
  s ≠ "" ∧ has_byte "/" s = false ∧
  ∃ tail, path = (modulePrefix +:+ "services/") +:+ tail ∧
    (tail = s ∨ ∃ rest, tail = s +:+ String "/" rest).
Definition in_pkg (path : string) : Prop := ∃ rest, path = (modulePrefix +:+ "pkg/") +:+ rest.

(** An import that breaks a rule. *)
Definition breach (pkg imp : string) : Prop :=
  ∃ t, in_service imp t ∧ (in_pkg pkg ∨ ∃ s, in_service pkg s ∧ s ≠ t).

Lemma Cut_None s sep : Cut s sep = None → has_byte sep s = false.
Proof.
  induction s as [|c s IH]; [done|]. simpl. case_decide as Hc; [done|].
  destruct (Cut s sep) as [[a b]|]; [done|]. intros _. by rewrite bool_decide_false, IH.
Qed.

Lemma before_first_spec s a :
  before_first s "/" = a ↔
  has_byte "/" a = false ∧ (s = a ∨ ∃ rest, s = a +:+ String "/" rest).
Proof.
  unfold before_first. destruct (Cut s "/") as [[b rest]|] eqn:Hc.
  - apply Cut_Some in Hc as [-> Hb]. split.
    + intros <-. split; [done|]. right. by exists rest.
    + intros [Ha [Heq|[rest' Heq]]].
      * rewrite <-Heq, has_byte_app in Ha. simpl in Ha. by rewrite orb_true_r in Ha.
      * pose proof (proj2 (Cut_Some _ _ b rest) (conj eq_refl Hb)) as H1.
        pose proof (proj2 (Cut_Some _ _ a rest') (conj eq_refl Ha)) as H2.
        rewrite Heq in H1. rewrite H1 in H2. by injection H2.
  - pose proof (Cut_None _ _ Hc) as Hs. split; [intros <-; by split; [|left]|].
    intros [Ha [->|[rest ->]]]; [done|].
    rewrite has_byte_app in Hs. simpl in Hs. by rewrite orb_true_r in Hs.
Qed.

Lemma app_inj_string (p a b : string) : p +:+ a = p +:+ b → a = b.
Proof.
  intros H. pose proof (proj2 (CutPrefix_Some _ p a) eq_refl) as Ha.
  rewrite H, (proj2 (CutPrefix_Some _ p b) eq_refl) in Ha. by injection Ha.
Qed.

Lemma serviceOf_spec path s : serviceOf path = s ∧ s ≠ "" ↔ in_service path s.
Proof.
  unfold serviceOf, in_service. destruct (CutPrefix path _) as [tail|] eqn:Hc.
  - apply CutPrefix_Some in Hc as ->. rewrite before_first_spec. split.
    + intros [[Hs Htail] Hne]. split_and!; [done|done|]. by exists tail.
    + intros (Hne & Hs & tail' & Heq & Htail). split; [|done]. split; [done|].
      apply app_inj_string in Heq as ->. done.
  - split; [by intros [<- ?]|]. intros (_ & _ & tail & Heq & _).
    apply CutPrefix_Some in Heq. congruence.
Qed.

Lemma isPkg_spec path : isPkg path = true ↔ in_pkg path.
Proof. apply HasPrefix_spec. Qed.

(** The rules as the code tests them. *)
Lemma breach_spec pkg imp :
  breach pkg imp ↔ serviceOf imp ≠ "" ∧
    (isPkg pkg = true ∨ (serviceOf pkg ≠ "" ∧ serviceOf pkg ≠ serviceOf imp)).
Proof.
  unfold breach. setoid_rewrite <-serviceOf_spec. setoid_rewrite <-isPkg_spec. naive_solver.
Qed.
#[export] Instance breach_dec pkg imp : Decision (breach pkg imp).
Proof.
  destruct (decide (serviceOf imp ≠ "" ∧
    (isPkg pkg = true ∨ (serviceOf pkg ≠ "" ∧ serviceOf pkg ≠ serviceOf imp)))) as [H|H];
    [left|right]; by rewrite breach_spec.
Defined.

(** The line that reports a breach: both packages, and the rule. *)
Definition reported (pkg_imp : string * string) (line : string) : Prop :=
  (in_pkg pkg_imp.1 ∧
    line = pkg_imp.1 +:+ " imports " +:+ pkg_imp.2 +:+ " (pkg/* may not import services/*)") ∨
  ((∃ s, in_service pkg_imp.1 s) ∧
    line = pkg_imp.1 +:+ " imports " +:+ pkg_imp.2 +:+ " (services/* may not import each other)").

(** No package is under both pkg/ and services/. *)
Lemma isPkg_serviceOf path : isPkg path = true → serviceOf path = "".
Proof.
  intros [rest ->]%isPkg_spec. destruct (decide (serviceOf ((modulePrefix +:+ "pkg/") +:+ rest) = ""))
    as [|Hne]; [done|exfalso].
  destruct (proj1 (serviceOf_spec _ _) (conj eq_refl Hne)) as (_ & _ & tail & Heq & _).
  rewrite !app_assoc_string in Heq. by apply app_inj_string in Heq.
Qed.

(** One line for a breach, none for another import. *)
Lemma import_violations_lines pkg imp :
  Forall2 reported (if decide (breach pkg imp) then [(pkg, imp)] else []) (import_violations pkg imp).
Proof.
  destruct (decide (breach pkg imp)) as [Hb|Hb]; rewrite breach_spec in Hb; unfold import_violations.
  - destruct Hb as [Ho [Hp|[Hs Hne]]].
    + rewrite (isPkg_serviceOf _ Hp), Hp, bool_decide_true, (bool_decide_false _ Ho) by done. simpl.
      apply Forall2_cons. split; [|done]. left. split; [by apply isPkg_spec|done].
    + destruct (isPkg pkg) eqn:Hp; [by apply isPkg_serviceOf in Hp|].
      rewrite (bool_decide_false _ Hs), (bool_decide_false _ Ho), (bool_decide_false (serviceOf imp = _)) by done.
      simpl. apply Forall2_cons. split; [|done]. right. split; [|done].
      exists (serviceOf pkg). by apply serviceOf_spec.
  - destruct (isPkg pkg); repeat case_bool_decide; simpl; naive_solver.
Qed.

(** The imports of packages, with the packages; and those that break a rule. *)
Definition all_imports (pkgs : list pkgInfo) : list (string * string) :=
  pkgs ≫= λ p, pair p.(ImportPath) <$> p.(Imports) ++ p.(TestImports) ++ p.(XTestImports).
Definition breaches (pkgs : list pkgInfo) : list (string * string) :=
  base.filter (λ pi, breach pi.1 pi.2) (all_imports pkgs).

Lemma violations_lines pkg imports :
  Forall2 reported (base.filter (λ pi, breach pi.1 pi.2) (pair pkg <$> imports)) (violations pkg imports).
Proof.
  induction imports as [|imp imports IH]; [constructor|]. unfold violations.
  rewrite bind_cons, fmap_cons, filter_cons. cbn [fst snd].
  pose proof (import_violations_lines pkg imp) as Hl. destruct (decide (breach pkg imp)).
  - change (?x :: ?l) with ([x] ++ l). by apply Forall2_app.
  - apply Forall2_nil_inv_l in Hl as ->. exact IH.
Qed.

Lemma all_violations_lines pkgs :
  Forall2 reported (breaches pkgs) (pkgs ≫= λ p, violations p.(ImportPath) (mergedImports p)).
Proof.
  unfold breaches, all_imports. induction pkgs as [|p pkgs IH]; [constructor|].
  rewrite !bind_cons, filter_app. apply Forall2_app; [|done].
  unfold mergedImports. rewrite app_nil_l, <-app_assoc. apply violations_lines.
Qed.

(** ** The decoding loop *)

(** [out] is a sequence of objects, the packages, and then its end. *)
Inductive decodes `{D : PkgDecoder} : string → list pkgInfo → Prop :=
| decodes_end out : Decode out = DecodeEOF → decodes out []
| decodes_more out p rest pkgs :
    Decode out = DecodePkg p rest → decodes rest pkgs → decodes out (p :: pkgs).

Section decoding.
Context `{D : PkgDecoder} `{L : !PkgDecoderLaws D}.

Lemma decode_loop_total fuel out : (String.length out < fuel)%nat → is_Some (decode_loop fuel out).
Proof.
  revert out. induction fuel as [|fuel IH]; intros out Hf; [lia|]. simpl.
  destruct (Decode out) as [| |p rest] eqn:Hd; [by eexists..|].
  apply Decode_consumes in Hd. destruct (IH rest) as [[pkgs|e] ->]; [lia|by eexists..].
Qed.

Lemma decode_loop_sound fuel out pkgs :
  decode_loop fuel out = Some (Ok pkgs) → decodes out pkgs.
Proof.
  revert out pkgs. induction fuel as [|fuel IH]; intros out pkgs; simpl; [done|].
  destruct (Decode out) as [| |p rest] eqn:Hd; [intros [= <-]; by constructor|done|].
  destruct (decode_loop fuel rest) as [[ps|e]|] eqn:Hl; [|done..]. intros [= <-].
  by eapply decodes_more, IH.
Qed.

Lemma decode_loop_complete fuel out pkgs :
  decodes out pkgs → (String.length out < fuel)%nat → decode_loop fuel out = Some (Ok pkgs).
Proof.
  intros Hdec. revert fuel. induction Hdec as [out Hd|out p rest pkgs Hd _ IH];
    intros [|fuel] Hf; try lia; simpl; rewrite Hd; [done|].
  apply Decode_consumes in Hd. by rewrite IH by lia.
Qed.

Lemma decode_all_spec out pkgs : decode_all out = Ok pkgs ↔ decodes out pkgs.
Proof.
  unfold decode_all. split.
  - destruct (decode_loop_total (S (String.length out)) out) as [r Hr]; [lia|].
    rewrite Hr. simpl. intros ->. by eapply decode_loop_sound.
  - intros Hdec. by rewrite (decode_loop_complete _ _ _ Hdec) by lia.
Qed.

(** A listing of the directories [dirs]: what each printed, and what it decodes to. *)
Definition listed (dirs outs : list string) (pkgs : list (list pkgInfo))
    (tr : list (event GoListE)) : Prop :=
  tr = zip_with (λ dir out, Ev (GListPackages dir) (Ok out)) dirs outs ∧
  length outs = length dirs ∧ Forall2 decodes outs pkgs.

Lemma list_dirs_exec dirs tr r :
  exec any_env (list_dirs dirs) tt tr r tt →
  match r with
  | Ok pkgs => ∃ outs pkgss, listed dirs outs pkgss tr ∧ pkgs = concat pkgss
  | Err _ => ∃ dir a, Ev (GListPackages dir) a ∈ tr ∧
      match a with Ok out => ¬ ∃ pkgs, decodes out pkgs | Err _ => True end
  end.
Proof.
  revert tr r. induction dirs as [|dir dirs IH]; intros tr r; cbn [list_dirs].
  { intros (-> & -> & _). by exists [], []. }
  rewrite bind_Call. intros (out & [] & tr1 & _ & -> & H). rewrite bind_Ret in H.
  destruct out as [out|[]]; [|destruct H as (-> & -> & _); exists dir, (Err ()); by split; [left|]].
  destruct (decode_all out) as [pkgs|e] eqn:Hd; cycle 1.
  { destruct H as (-> & -> & _). exists dir, (Ok out). split; [by left|].
    intros [pkgs Hp%decode_all_spec]. congruence. }
  apply exec_bind in H as (tr2 & rest & [] & tr3 & H & Hret & ->). apply IH in H.
  destruct rest as [rest|e]; destruct Hret as (-> & -> & _); rewrite app_nil_r.
  - destruct H as (outs & pkgss & (-> & Hlen & Hdec) & ->).
    exists (out :: outs), (pkgs :: pkgss). split; [|done]. split_and!; [done|simpl; lia|].
    constructor; [by apply decode_all_spec|done].
  - destruct H as (d & a & Hin & Ha). exists d, a. split; [by right|done].
Qed.
End decoding.

(** ** Properties *)

(** C38: the checker is exact: it exits 2 only if the listing failed; otherwise every
    module of the workspace was listed and its output decoded to the end, and what it
    prints is one line for each import of a package, in its own, its test or its external
    test imports, that breaks a rule: in the order of the listing, naming both packages
    and the rule, and no other line.  It exits 0 when there is no breach and 1 when there
    is one. *)
Theorem check_main_exact `{D : PkgDecoder} `{L : !PkgDecoderLaws D} tr code report :
  exec any_env check_main tt tr (code, report) tt →
  (code = 2 ∧ report = [] ∧ ((tr = [Ev GListModules (Err ())]) ∨
    ∃ dir a, Ev (GListPackages dir) a ∈ tr ∧
      match a with Ok out => ¬ ∃ pkgs, decodes out pkgs | Err _ => True end)) ∨
  ∃ dirs outs pkgss tr', tr = Ev GListModules (Ok dirs) :: tr' ∧ listed (Fields dirs) outs pkgss tr' ∧
    Forall2 reported (breaches (concat pkgss)) report ∧
    code = if bool_decide (breaches (concat pkgss) = []) then 0 else 1.
Proof.
  intros (tr1 & r & [] & tr2 & Hlist & H & ->)%exec_bind. unfold listPackages in Hlist.
  rewrite bind_Call in Hlist. destruct Hlist as (dirs & [] & tr3 & _ & -> & Hlist).
  rewrite bind_Ret in Hlist. destruct dirs as [dirs|[]]; cycle 1.
  { destruct Hlist as (-> & -> & _). destruct H as (-> & [= -> ->] & _). left. split_and!; [done..|]. by left. }
  apply list_dirs_exec in Hlist. destruct r as [pkgs|e]; cycle 1.
  { destruct H as (-> & [= -> ->] & _). rewrite app_nil_r. left. split_and!; [done..|]. right.
    destruct Hlist as (dir & a & Hin & Ha). exists dir, a. split; [by right|done]. }
  destruct Hlist as (outs & pkgss & Hl & ->). right.
  exists dirs, outs, pkgss, tr3. destruct H as (-> & Hret & _). rewrite app_nil_r.
  pose proof (all_violations_lines (concat pkgss)) as Hlines.
  destruct (concat pkgss ≫= _) as [|v all] eqn:Hall; injection Hret as -> ->.
  - apply Forall2_nil_inv_r in Hlines as Hnil. by rewrite bool_decide_true.
  - rewrite bool_decide_false; [done|]. intros Hnil. rewrite Hnil in Hlines. by inversion Hlines.
Qed.

(** ** Witnesses *)

(** One object per letter: a clean package, and one that reaches into a service. *)
Definition toy_pkg (imp : string) : pkgInfo := {|
  ImportPath := modulePrefix +:+ "pkg/tenant"; Imports := ["fmt"]; TestImports := [];
  XTestImports := [imp] |}.
Definition toy_reach : string := modulePrefix +:+ "services/ingest/internal/quota".
#[export] Instance ToyDecoder : PkgDecoder := λ s,
  match s with
  | "" => DecodeEOF
  | String "c" rest => DecodePkg (toy_pkg (modulePrefix +:+ "pkg/limits")) rest
  | String "b" rest => DecodePkg (toy_pkg toy_reach) rest
  | _ => DecodeErr
  end.
#[export] Instance ToyDecoderLaws : PkgDecoderLaws ToyDecoder.
Proof.
  intros [|c s] p rest; [done|]. unfold Decode, ToyDecoder.
  repeat case_match; try done; intros [= _ <-]; simpl; lia.
Qed.

Definition toy_go (X : Type) (e : GoListE X) (w : unit) : X * unit :=
  match e with
  | GListModules => (Ok "/src/pkg /src/tools", w)
  | GListPackages dir => (Ok (if bool_decide (dir = "/src/pkg") then "cb" else "c"), w)
  end.
Definition toy_go_trace : list (event GoListE) :=
  [Ev GListModules (Ok "/src/pkg /src/tools"); Ev (GListPackages "/src/pkg") (Ok "cb");
   Ev (GListPackages "/src/tools") (Ok "c")].

Lemma check_main_exact_witness :
  let report := import_violations (modulePrefix +:+ "pkg/tenant") toy_reach in
  exec any_env (check_main (D:=ToyDecoder)) tt toy_go_trace (1, report) tt ∧
  ((1 = 2 ∧ report = [] ∧ ((toy_go_trace = [Ev GListModules (Err ())]) ∨
    ∃ dir a, Ev (GListPackages dir) a ∈ toy_go_trace ∧
      match a with Ok out => ¬ ∃ pkgs, decodes out pkgs | Err _ => True end)) ∨
  ∃ dirs outs pkgss tr', toy_go_trace = Ev GListModules (Ok dirs) :: tr' ∧
    listed (Fields dirs) outs pkgss tr' ∧ Forall2 reported (breaches (concat pkgss)) report ∧
    1 = if bool_decide (breaches (concat pkgss) = []) then 0 else 1).
Proof.
  intros report.
  assert (exec any_env (check_main (D:=ToyDecoder)) tt toy_go_trace (1, report) tt) as H.
  { apply (run_exec_any toy_go (check_main (D:=ToyDecoder)) tt _ _ tt). vm_compute. reflexivity. }
  split; [exact H|]. exact (check_main_exact (D:=ToyDecoder) _ _ _ H).
Defined.
