(* ===== verification/System.v ===== *)
(** * The ingest service as a whole

    [World] is the state behind POST /v1/batch: Redis with its clock, the offset
    table and the events table; [db] is the control plane, which the endpoint only
    reads.  [prod_sem] wires every call of the handler to the definition of the
    component that serves it, as services/ingest/cmd/main.go does.  The theorems are
    about any number of requests whose calls interleave on one world. *)
From S2P Require Import Prelude GoStrings GoTime Prog Limits Proto Validate Jwx Json.
From S2P Require Import Token Verify Legacy Redis Quota Enrich Http Batch BatchFacts.
From S2P Require Import ControlPlane Insert.
#[local] Open Scope Z_scope.

(** ** Redis with its clock *)

(** The clock, in ms, that moves as time passes for the keys. *)
Definition Timed (R : RedisLib) : RedisLib := {|
  Redis := Z * R.(@Redis);
  rd_get k r := rd_get k r.2;
  rd_ttl k r := rd_ttl k r.2;
  rd_incrby k n r := (λ zr, (zr.1, (r.1, zr.2))) <$> rd_incrby k n r.2;
  rd_expire k s r := (r.1, rd_expire k s r.2);
  rd_set k v ttl r := (r.1, rd_set k v ttl r.2);
  rd_getdel k r := ((rd_getdel k r.2).1, (r.1, (rd_getdel k r.2).2));
  rd_elapse d r := (r.1 + d, rd_elapse d r.2);
  lua_tonumber s := lua_tonumber s
|}.

#[local] Obligation Tactic := idtac.
Program Definition TimedLaws {R : RedisLib} (L : RedisLaws R) : RedisLaws (Timed R) := {|
  rd_view (r : @Redis (Timed R)) k := @rd_view R L r.2 k
|}.
Next Obligation. intros R L k r. apply (@rd_get_view R L). Qed.
Next Obligation. intros R L k r. apply (@rd_ttl_view R L). Qed.
Next Obligation.
  intros R L k n r Hk Hn. destruct (@rd_incrby_new R L k n r.2 Hk Hn) as (r' & Hi & Hr').
  exists (r.1, r'). simpl. by rewrite Hi.
Qed.
Next Obligation.
  intros R L k n r z ttl Hk Hz Hn Hzn.
  destruct (@rd_incrby_old R L k n r.2 z ttl Hk Hz Hn Hzn) as (r' & Hi & Hr').
  exists (r.1, r'). simpl. by rewrite Hi.
Qed.
Next Obligation.
  intros R L k n r z ttl Hk Hz Hn Hzn. simpl. by rewrite (@rd_incrby_overflow R L k n r.2 z ttl).
Qed.
Next Obligation.
  intros R L k n r z r' j H Hj. simpl in H. apply fmap_Some in H as ([y r2] & Hi & [= _ ->]).
  by eapply (@rd_incrby_frame R L).
Qed.
Next Obligation. intros R L k s r j Hs. by apply (@rd_expire_view R L). Qed.
Next Obligation. intros R L k v ttl r j Ht. by apply (@rd_set_view R L). Qed.
Next Obligation. intros R L k v ttl r j. apply (@rd_set_value R L). Qed.
Next Obligation. intros R L k r j. apply (@rd_getdel_view R L). Qed.
Next Obligation. intros R L d r k Hd. by apply (@rd_elapse_view R L). Qed.
Next Obligation. intros R L z Hz. by apply (@lua_tonumber_int R L). Qed.

(** ** What others do to Redis between two calls *)

Section quiet.
Context {R : RedisLib} {L : RedisLaws R}.

Lemma elapse_view_ext d r r' k :
  0 ≤ d → rd_view r k = rd_view r' k → rd_view (rd_elapse d r) k = rd_view (rd_elapse d r') k.
Proof. intros Hd H. by rewrite !rd_elapse_view, H. Qed.
Lemma elapse_view_add d d' r k :
  0 ≤ d → 0 ≤ d' → rd_view (rd_elapse d' (rd_elapse d r)) k = rd_view (rd_elapse (d + d') r) k.
Proof.
  intros Hd Hd'. rewrite !rd_elapse_view by lia.
  destruct (rd_view r k) as [[v [t|]]|]; [|done|done].
  destruct (decide (d < t)); destruct (decide (d + d' < t)); try lia; [| |done].
  - rewrite decide_True by lia. do 3 f_equal. lia.
  - by rewrite decide_False by lia.
Qed.
(** [quiet r r']: nothing happened to the quota keys, or they aged. *)
Definition quiet (r r' : @Redis (Timed R)) : Prop :=
  (r'.1 = r.1 ∧ ∀ k, quota_key k → rd_view r'.2 k = rd_view r.2 k) ∨
  ∃ d, 0 ≤ d ∧ r'.1 = r.1 + d ∧ ∀ k, quota_key k → rd_view r'.2 k = rd_view (rd_elapse d r.2) k.

Lemma quiet_trans r r' r'' : quiet r r' → quiet r' r'' → quiet r r''.
Proof.
  intros [[H1 V1]|(d & Hd & H1 & V1)] [[H2 V2]|(d' & Hd' & H2 & V2)].
  - left. split; [congruence|]. intros k Hk. by rewrite V2, V1.
  - right. exists d'. split_and!; [done|congruence|]. intros k Hk. rewrite V2 by done.
    apply elapse_view_ext; [done|by apply V1].
  - right. exists d. split_and!; [done|congruence|]. intros k Hk. by rewrite V2, V1.
  - right. exists (d + d'). split_and!; [lia|lia|]. intros k Hk. rewrite V2 by done.
    rewrite <-elapse_view_add by done. apply elapse_view_ext; [done|by apply V1].
Qed.

End quiet.

(** ** The wiring *)

Section system.
Context {J : JWX} {U : UUIDLib} {Z0 : Gzip} {C : BatchCodec} {R : RedisLib} {L : RedisLaws R}.
Context (db : DB) (skew : Z).

Record World := {
  w_redis : Z * @Redis R;
  w_offsets : PgOffsets;
  w_table : list (gmap string cell)
}.

(** What happens between two calls of the endpoint: time passes, and others use
    Redis without touching its quota keys. *)
Definition meanwhile (w w' : World) : Prop :=
  quiet w.(w_redis) w'.(w_redis) ∧ w'.(w_offsets) = w.(w_offsets) ∧ w'.(w_table) = w.(w_table).

Lemma meanwhile_refl w : meanwhile w w.
Proof. split; [by left|done]. Qed.
Lemma meanwhile_trans w w' w'' : meanwhile w w' → meanwhile w' w'' → meanwhile w w''.
Proof.
  intros (H1 & H2 & H3) (H1' & H2' & H3'). split; [by eapply quiet_trans|]. split; congruence.
Qed.
Lemma meanwhile_table w w' : meanwhile w w' → w'.(w_table) = w.(w_table).
Proof. by intros (_ & _ & ?). Qed.

(** A quota call is made while the clocks of the pod and of Redis agree on the
    receipt time in its keys. *)
Definition prompt_call {X} (e : QuotaE X) (c c' : Z) : Prop :=
  match e with
  | EAllow rk dk _ _ _ _ _ =>
      ∃ cl now, rk = rateKey cl now ∧ dk = dayKey cl now ∧ in_time skew now c ∧ in_time skew now c'
  | EClientRate _ _ => True
  end.

(** [legacyResolver.Resolve(ctx, key)] *)
Definition Resolve (key : string) : result db_err (string * string) := ResolveLegacy db key.

(** The answers of the services. *)
Definition prod_call (X : Type) (e : IngestE X) (w : World) (a : X) (w' : World) : Prop :=
  match e in IngestE X return X → Prop with
  | INow => λ t, w' = w ∧ 0 ≤ year_of t < 10000
  | IKey _ => λ _, w' = w
  | ILegacy e => λ a, w' = w ∧
      match e in LegacyE X return X → Prop with
      | EResolve key => λ a, match a with Ok tm => Resolve key = Ok tm | Err _ => True end
      end a
  | IOnLegacyUse _ _ | IOnClockSkew _ _ => λ _, w' = w
  | ILimitsFor t tier => λ a, w' = w ∧
      match a with Ok lim => LimitsFor db t tier = Ok lim | Err _ => True end
  | IQuota e => λ a,
      w'.(w_offsets) = w.(w_offsets) ∧ w'.(w_table) = w.(w_table) ∧
      quota_sem (R:=Timed R) _ e w.(w_redis) a w'.(w_redis) ∧
      prompt_call e w.(w_redis).1 w'.(w_redis).1
  | IGetOrSet k c => λ a,
      w'.(w_redis) = w.(w_redis) ∧ w'.(w_table) = w.(w_table) ∧
      ((a = Ok (GetOrSet k c w.(w_offsets)).1 ∧ w'.(w_offsets) = (GetOrSet k c w.(w_offsets)).2) ∨
       (a = Err () ∧
        (w'.(w_offsets) = w.(w_offsets) ∨ w'.(w_offsets) = (GetOrSet k c w.(w_offsets)).2)))
  | IInsert rows => λ a,
      w'.(w_redis) = w.(w_redis) ∧ w'.(w_offsets) = w.(w_offsets) ∧
      ∃ tr res, exec click_sem (InsertEvents rows) {| table := w.(w_table); batch := None |} tr res
                  {| table := w'.(w_table); batch := None |} ∧
        a = match res with Ok u => Ok u | Err _ => Err () end
  end a.

(** The sweep of the session offsets and the passing of its time show only to the next
    call of the endpoint. *)
Definition with_offsets (w : World) (offsets : PgOffsets) : World :=
  {| w_redis := w.(w_redis); w_offsets := offsets; w_table := w.(w_table) |}.
Definition prod_sem : semantics IngestE World :=
  λ X e w a w', ∃ w1 offsets, meanwhile w w1 ∧ aged w1.(w_offsets) offsets ∧
    prod_call X e (with_offsets w1 offsets) a w'.

Lemma prod_sem_now X e w a w' : prod_call X e w a w' → prod_sem X e w a w'.
Proof.
  intros H. exists w, w.(w_offsets). split; [apply meanwhile_refl|]. split; [apply rtc_refl|]. by destruct w.
Qed.

Definition quota_answer {X} (e : QuotaE X) : X → Prop :=
  match e in QuotaE X return X → Prop with
  | EAllow _ _ _ _ _ _ _ => λ a, ∀ res, a = Some res → res.1 = 1 → res = (1, "")
  | EClientRate _ _ => λ _, True
  end.
Definition prod_answer (X : Type) (e : IngestE X) : X → Prop :=
  match e in IngestE X return X → Prop with
  | INow => λ t, 0 ≤ year_of t < 10000
  | ILegacy e => match e in LegacyE X return X → Prop with
      | EResolve key => λ a, match a with Ok tm => Resolve key = Ok tm | Err _ => True end end
  | ILimitsFor t tier => λ a, match a with Ok lim => LimitsFor db t tier = Ok lim | Err _ => True end
  | IQuota e => quota_answer e
  | _ => λ _, True
  end.

Lemma allowScript_answer `{R' : RedisLib} rk dk n rps daily rt dt r res :
  (allowScript rk dk n rps daily rt dt r).1 = Some res → res.1 = 1 → res = (1, "").
Proof. unfold allowScript. intros. repeat case_match; naive_solver. Qed.

Lemma prod_answers X (e : IngestE X) w a w' : prod_sem X e w a w' → prod_answer X e a.
Proof.
  intros (w1 & offs & _ & _ & Ha). destruct e; simpl in *; try done; try by destruct Ha.
  destruct Ha as (_ & _ & Hq & _). destruct e; [|done]. intros res -> Hres.
  apply served_answer in Hq as [Hq|[r0 Hq]]; [done|]. simpl in Hq. symmetry in Hq.
  by apply (allowScript_answer (R':=Timed R)) in Hq.
Qed.

Lemma prod_answerable X (e : IngestE X) : ∃ a, prod_answer X e a.
Proof.
  destruct e as [|Y e|Y e| | |Y e| | |]; simpl; try by eexists (Err ()).
  - by exists 0.
  - destruct e. by exists (Err ErrUnknownKID).
  - destruct e. by exists (Err ()).
  - by exists tt.
  - destruct e; by exists None.
  - by exists tt.
Qed.

(** ** One request: what it stores it has paid for *)

(** Rows of a tenant received on a UTC day, before and after storage. *)
Definition received_on (t : string) (d : Z) (row : Row) : bool :=
  bool_decide (row.(row_TenantID) = t ∧ unix_day row.(row_TSReceived) = d).
Definition stored_on (t : string) (d : Z) (row : gmap string cell) : bool :=
  match row !! "tenant_id", row !! "ts_received" with
  | Some (CText t'), Some (CTime ts) => bool_decide (t' = t ∧ unix_day ts = d)
  | _, _ => false
  end.
Definition count (t : string) (d : Z) (table : list (gmap string cell)) : nat :=
  length (filter (λ row, stored_on t d row = true) table).

Lemma stored_on_stored t d row : stored_on t d (stored row) = received_on t d row.
Proof. unfold stored_on. by destruct (stored_columns row) as (-> & _ & -> & _). Qed.

Lemma count_app t d l l' : count t d (l ++ l') = (count t d l + count t d l')%nat.
Proof. unfold count. by rewrite filter_app, length_app. Qed.
Lemma count_sublist t d l l' : l `sublist_of` l' → (count t d l ≤ count t d l')%nat.
Proof.
  unfold count. induction 1 as [|row l l' _ IH|row l l' _ IH]; [done|..]; rewrite !filter_cons;
    repeat case_decide; simpl; lia.
Qed.
Lemma count_stored t d rows :
  count t d (stored <$> rows) = length (filter (λ row, received_on t d row = true) rows).
Proof.
  unfold count. induction rows as [|row rows IH]; [done|]. rewrite fmap_cons, !filter_cons.
  rewrite stored_on_stored. case_decide; simpl; by rewrite IH.
Qed.

Context (t : string) (at_ : Time) (B : Z) (Hat : 0 ≤ year_of at_ < 10000).
Context (Hlim : ∀ tier lim, LimitsFor db t tier = Ok lim → 0 < lim.(DailyEvents) ≤ B).

Definition the_day : string := "q:{" +:+ t +:+ "}:" +:+ FormatDate at_.

Lemma the_day_key cl now :
  0 ≤ year_of now < 10000 → dayKey cl now = the_day ↔ cl.(TenantID) = t ∧ unix_day now = unix_day at_.
Proof.
  intros Hy. by apply (dayKey_inj cl now
    {| TenantID := t; InstallID := ""; Scope := ""; TrustTier := 0 |} at_).
Qed.

Definition paid_by (qc : QuotaCall) : nat :=
  if bool_decide (qc_day_key qc = the_day ∧ qc_answer qc = Some (1, "")) then Z.to_nat (qc_n qc) else 0.
Definition gain (ev : event IngestE) : nat := from_option paid_by 0%nat (as_quota ev).
Definition cost (ev : event IngestE) : nat :=
  from_option (λ ra, count t (unix_day at_) (stored <$> ra.1)) 0%nat (as_insert ev).

Lemma sum_gain tr : sum_list_with gain tr = sum_list_with paid_by (quota_calls tr).
Proof. apply sum_list_with_omap. Qed.
Lemma sum_cost tr :
  sum_list_with cost tr = sum_list_with (λ ra, count t (unix_day at_) (stored <$> ra.1)) (inserts tr).
Proof. apply (sum_list_with_omap _ (λ ra : list Row * result () (), count t (unix_day at_) (stored <$> ra.1))). Qed.

Definition answered (tr : list (event IngestE)) : Prop :=
  Forall (λ ev, prod_answer _ ev.(ev_call) ev.(ev_answer)) tr.

Lemma count_rows claims now offs valid :
  count t (unix_day at_) (stored <$> (rows_of claims now offs valid).*1) =
    if bool_decide (claims.(TenantID) = t ∧ unix_day now = unix_day at_) then length valid else 0%nat.
Proof.
  rewrite count_stored. destruct (rows_of_facts claims now offs valid) as [_ Hrows].
  assert (length (rows_of claims now offs valid).*1 = length valid) as Hlen
    by (unfold rows_of; by rewrite !length_fmap).
  revert Hrows Hlen. generalize (rows_of claims now offs valid).*1 as rows. intros rows Hrows <-.
  induction Hrows as [|row rows (Ht & _ & _ & Hr) _ IH]; [by case_bool_decide|].
  assert (received_on t (unix_day at_) row =
    bool_decide (claims.(TenantID) = t ∧ unix_day now = unix_day at_)) as Hrec
    by (unfold received_on; by rewrite Ht, Hr).
  rewrite filter_cons. destruct (decide (received_on t (unix_day at_) row = true)) as [Hd|Hd];
    rewrite Hrec in Hd; cbn [length]; rewrite IH; by case_bool_decide.
Qed.

(** At every point of a request, the rows of the day it has written are covered by the
    units the quota admitted for the day. *)
Lemma request_covered order d r pre post resp :
  batch_outcome order d r (pre ++ post) resp → answered (pre ++ post) →
  (sum_list_with cost pre ≤ sum_list_with gain pre)%nat.
Proof.
  intros Hout Hans. rewrite sum_cost, sum_gain.
  destruct (outcome_inserts order _ _ _ _ Hout) as [(Hno & _)|H].
  { unfold inserts in *. rewrite omap_app in Hno. apply app_eq_nil in Hno as [-> _]. simpl. lia. }
  destruct H as (now & claims & isLegacy & req & rejected & valid & rows & accepted & a & _ & Hst).
  destruct (stored_calls order _ _ _ _ _ _ _ _ _ _ _ _ _ Hst)
    as (pre' & lim & res & Heq & Hno & Hres & Hq & offs & ->).
  assert (0 ≤ year_of now < 10000) as Hy.
  { destruct Hst as [(tra & tro & lim' & res' & _ & _ & _ & Htr) _ _ _].
    rewrite Htr in Hans. by apply Forall_cons in Hans as [? _]. }
  destruct post as [|last post' _] using rev_ind.
  - rewrite app_nil_r in *. subst pre. unfold inserts, quota_calls in *. rewrite !omap_app, Hno, Hq. simpl.
    rewrite count_rows. unfold paid_by. simpl.
    assert (res = (1, "")) as ->.
    { unfold answered in Hans; rewrite Forall_forall in Hans.
      assert (∃ ev, ev ∈ pre' ∧ as_quota ev = Some {| qc_rate_key := rateKey claims now; qc_day_key := dayKey claims now;
        qc_n := chargeUnits valid; qc_rps := RPS (effective_limits isLegacy lim);
        qc_daily := DailyEvents (effective_limits isLegacy lim); qc_answer := Some res |}) as (ev & Hev & Has).
      { apply list_elem_of_omap. rewrite Hq. left. }
      specialize (Hans ev). destruct ev as [X e x]. unfold as_quota in Has. simpl in *.
      destruct e; try done. destruct e; [|done]. injection Has. intros -> _ _ _ _ _.
      apply Hans; [|done..]. apply elem_of_app. by left. }
    case_bool_decide as Hk; [|lia]. rewrite (bool_decide_true _) by (split; [by apply the_day_key|done]).
    unfold chargeUnits. case_bool_decide; lia.
  - rewrite app_assoc in Heq. apply app_inj_tail in Heq as [<- _].
    unfold inserts in *. rewrite omap_app in Hno. apply app_eq_nil in Hno as [-> _]. simpl. lia.
Qed.

(** A quota call of the endpoint: within a batch's size, with the windows of the code,
    and for the day's key under the tenant's limit. *)
Definition charge_ok (ev : event IngestE) : Prop :=
  match ev.(ev_call) with
  | IQuota e =>
      match e with
      | EAllow rk dk n rps daily rt dt =>
          1 ≤ n ≤ MaxEventsPerBatch ∧ rt = 2 ∧ dt = SecondsInt (48 * Hour) ∧
          (dk = the_day → 0 < daily ≤ B)
      | EClientRate _ _ => False
      end
  | _ => True
  end.

Lemma auth_charges tr : Forall is_auth tr → Forall charge_ok tr.
Proof. intros H. eapply Forall_impl; [exact H|]. intros [X e a]. unfold is_auth, charge_ok. simpl. by destruct e. Qed.
Lemma enrich_charges tr : Forall is_enrich tr → Forall charge_ok tr.
Proof. intros H. eapply Forall_impl; [exact H|]. intros [X e a]. unfold is_enrich, charge_ok. simpl. by destruct e. Qed.

Lemma quota_event_ok claims isLegacy lim n now a :
  0 ≤ year_of now < 10000 → LimitsFor db claims.(TenantID) claims.(TrustTier) = Ok lim →
  1 ≤ n ≤ MaxEventsPerBatch → charge_ok (quota_event claims (effective_limits isLegacy lim) n now a).
Proof.
  intros Hy Hl Hn. unfold charge_ok. simpl. split_and!; [lia|lia|done|done|].
  intros [Ht _]%the_day_key; [|done]. rewrite Ht in Hl. apply Hlim in Hl. by destruct isLegacy.
Qed.

Lemma request_charges order d r tr resp :
  batch_outcome order d r tr resp → answered tr → Forall charge_ok tr.
Proof.
  destruct 1 as [now tra e isLegacy Ha|now tra claims isLegacy resp Ha Hd|
    now tra claims isLegacy req rejected valid trb resp Ha Hd Hv Hout]; intros Hans.
  - constructor; [done|]. by eapply auth_charges, auth_exec_calls.
  - constructor; [done|]. by eapply auth_charges, auth_exec_calls.
  - assert (0 ≤ year_of now < 10000) as Hy by by apply Forall_cons in Hans as [? _].
    assert (answered trb) as Hb.
    { unfold answered in Hans. rewrite Forall_cons, !Forall_app in Hans. by destruct Hans as (_ & _ & _ & ?). }
    constructor; [done|]. apply Forall_app. split; [by eapply auth_charges, auth_exec_calls|].
    apply Forall_app. split.
    { unfold legacy_events. destruct (isLegacy && d_OnLegacyUse d); by repeat constructor. }
    assert (1 ≤ chargeUnits valid ≤ MaxEventsPerBatch) as Hn.
    { pose proof (validate_all_length order 0 (Events req)) as Hlen. rewrite Hv in Hlen. simpl in Hlen.
      pose proof (decode_length _ _ Hd). unfold chargeUnits. change MaxEventsPerBatch with 500 in *.
      case_bool_decide; lia. }
    destruct Hout as [e|lim|lim res Hal|lim res trs resp Hal Hs]; [by repeat constructor|..];
      apply Forall_cons in Hb as [Hlim' _]; simpl in Hlim'; (constructor; [done|]);
      (constructor; [by apply quota_event_ok|]); [constructor..|].
    destruct Hs as [tro (He & _)|tro rows accepted e (He & _)|tro rows accepted u (He & _)];
      rewrite ?Forall_app; repeat split; by repeat constructor || apply enrich_charges.
Qed.

(** ** The pool: what the quota admitted stays within the budget *)

#[local] Instance timed_laws : RedisLaws (Timed R) := TimedLaws L.

(** A history of quota runs, as of the clock of a state of Redis. *)
Definition history (qlog : list Run) (r : Z * @Redis R) : Prop :=
  quota_run (R:=Timed R) skew qlog r.1 r.
Definition selected (x : Run) : bool :=
  bool_decide (x.(x_cl).(TenantID) = t ∧ unix_day x.(x_now) = unix_day at_).
Definition within_limit (x : Run) : Prop := selected x = true → 0 < x.(x_lim).(DailyEvents) ≤ B.

Lemma consume_clock key n ttl (r r' : @Redis (Timed R)) :
  consume (R:=Timed R) key n ttl r = Some r' → r'.1 = r.1.
Proof.
  unfold consume. simpl. destruct (rd_incrby key n r.2) as [[z r1]|]; simpl; [|done]. by intros [= <-].
Qed.
Lemma allowScript_clock rk dk n rps daily rt dt (r : @Redis (Timed R)) :
  (allowScript (R:=Timed R) rk dk n rps daily rt dt r).2.1 = r.1.
Proof.
  unfold allowScript.
  destruct (over_limit _ (lua_counter rk r) _) as [[|]|]; try done.
  destruct (over_limit _ (lua_counter dk r) _) as [[|]|]; try done.
  destruct (consume rk _ _ r) as [r1|] eqn:H1; [|done]. apply consume_clock in H1.
  destruct (consume dk _ _ r1) as [r2|] eqn:H2; [|done]. apply consume_clock in H2.
  simpl. congruence.
Qed.

Definition allow_op cl lim n now : @Redis (Timed R) → option (Z * string) * @Redis (Timed R) :=
  run_allow_script (R:=Timed R) cl lim n now.

Lemma allow_op_clock cl lim n now r : (allow_op cl lim n now r).2.1 = r.1.
Proof. apply allowScript_clock. Qed.
Lemma allow_clock cl lim n now r a r' :
  served (R:=Timed R) (allow_op cl lim n now) None r a r' → r.1 ≤ r'.1.
Proof.
  induction 1 as [r|r|r x r' _ IH|d r x r' Hd _ IH]; simpl in *; [|lia| |lia].
  - rewrite allow_op_clock. lia.
  - by rewrite allow_op_clock in IH.
Qed.

(** One call of the client is some runs of the script, the last of which may be
    reported. *)
Lemma served_history cl lim n now qlog r a r' :
  served (R:=Timed R) (allow_op cl lim n now) None r a r' →
  1 ≤ n ≤ MaxEventsPerBatch → in_time skew now r.1 → in_time skew now r'.1 → history qlog r →
  ∃ runs, history (runs ++ qlog) r' ∧
    Forall (λ x, x.(x_cl) = cl ∧ x.(x_lim) = lim ∧ x.(x_n) = n ∧ x.(x_now) = now) runs ∧
    (a = Some (1, "") → Exists (λ x, admitted x.(x_res) = true) runs).
Proof.
  intros Hserved Hn Ht Ht' Hh.
  assert (∀ qlog r, in_time skew now r.1 → history qlog r → ∃ x, history (x :: qlog) (allow_op cl lim n now r).2 ∧
    (x_cl x = cl ∧ x_lim x = lim ∧ x_n x = n ∧ x_now x = now) ∧ x_res x = (allow_op cl lim n now r).1) as Hrun.
  { clear -Hn. intros qlog r Ht Hh.
    exists {| x_cl := cl; x_lim := lim; x_n := n; x_now := now; x_clock := r.1;
              x_res := (allow_op cl lim n now r).1 |}.
    split; [|done]. unfold history. rewrite allow_op_clock.
    eapply run_allow; [exact Hh|exact Hn|exact Ht|]. apply surjective_pairing. }
  induction Hserved as [r|r|r a r' Hs IH|d r a r' Hd Hs IH] in qlog, Ht, Ht', Hh |- *.
  - destruct (Hrun qlog r Ht Hh) as (x & Hx & Hf & Hres). exists [x]. split; [done|]. split; [by apply Forall_singleton|].
    intros Ha. left. by rewrite Hres, Ha.
  - exists []. split; [done|]. by split; [constructor|].
  - destruct (Hrun qlog r Ht Hh) as (x & Hx & Hf & _).
    destruct (IH (x :: qlog)) as (runs & Hr & Hfr & Ha); [|done|done|].
    { by rewrite allow_op_clock. }
    exists (runs ++ [x]). rewrite <-app_assoc. split; [done|].
    split; [apply Forall_app; split; [done|by apply Forall_singleton]|].
    intros Hok. apply Exists_app. left. by apply Ha.
  - apply allow_clock in Hs as Hle. simpl in Hle.
    destruct (IH qlog) as (runs & Hr); [|done| |by exists runs].
    + destruct Ht as [H1 Hy], Ht' as [H2 _]. split; [|done]. simpl. unfold Millisecond in *. lia.
    + by apply run_wait.
Qed.

Definition run_ok (x : Run) : Prop := 0 ≤ x.(x_n) ∧ within_limit x.

Lemma meanwhile_history qlog w w' :
  meanwhile w w' → history qlog w.(w_redis) → history qlog w'.(w_redis).
Proof.
  intros [[[Hc Hv]|(d & Hd & Hc & Hv)] _] Hh; unfold history; rewrite Hc.
  - by eapply run_other.
  - by eapply run_other; [apply run_wait|].
Qed.

(** A call of the endpoint extends the history of the quota by the units it gains. *)
Lemma step_history X (e : IngestE X) w a w' qlog :
  prod_sem X e w a w' → charge_ok (Ev e a) → history qlog w.(w_redis) → Forall run_ok qlog →
  ∃ qlog', history qlog' w'.(w_redis) ∧ Forall run_ok qlog' ∧
    spent selected qlog + Z.of_nat (gain (Ev e a)) ≤ spent selected qlog'.
Proof.
  intros (w1 & offs & Hm & _ & Hcall) Hok Hh%(meanwhile_history _ _ _ Hm) Hq. clear w Hm.
  destruct e as [|Y e|Y e| | |Y e| | |]; simpl in Hcall;
    try (exists qlog; split_and!; [by first [by subst|by destruct Hcall as [-> _]]|done|];
         unfold gain; simpl; lia).
  destruct e as [rk dk n rps daily rt dt|]; [|done].
  destruct Hok as (Hn & -> & -> & Hdaily). destruct Hcall as (_ & _ & Hs & cl & now & -> & -> & Ht & Ht').
  destruct (served_history cl {| DailyEvents := daily; RPS := rps; LegacyRPS := 0 |} n now
    qlog _ _ _ Hs Hn Ht Ht' Hh) as (runs & Hr & Hf & Ha).
  assert (∀ x, x ∈ runs → selected x = true ↔ dayKey cl now = the_day) as Hsel.
  { rewrite Forall_forall in Hf. intros x Hx. destruct (Hf x Hx) as (Hc & _ & _ & Hw).
    unfold selected. rewrite Hc, Hw, bool_decide_eq_true. symmetry. apply the_day_key, Ht. }
  assert (Forall run_ok runs) as Hruns.
  { rewrite Forall_forall in Hf |- *. intros x Hx. destruct (Hf x Hx) as (_ & Hl & Hxn & _). split; [lia|].
    intros Hs'%Hsel; [|done]. rewrite Hl. by apply Hdaily. }
  exists (runs ++ qlog). split; [done|]. split; [by apply Forall_app|].
  rewrite spent_app. unfold gain. simpl. unfold paid_by. simpl.
  assert (∀ x, x ∈ runs → 0 ≤ x.(x_n)) as Hpos.
  { rewrite Forall_forall in Hruns. intros x Hx. by apply Hruns. }
  pose proof (spent_nonneg selected runs Hpos).
  case_bool_decide as Hk; [|lia]. destruct Hk as [Hk Hans].
  apply Exists_exists in Ha as (x & Hx & Hadm); [|done].
  pose proof (spent_one selected runs x Hpos Hx (proj2 (Hsel x Hx) Hk) Hadm) as Hone.
  rewrite Forall_forall in Hf. destruct (Hf x Hx) as (_ & _ & Hxn & _). lia.
Qed.

(** A call adds to the table at most what it costs. *)
Lemma step_table X (e : IngestE X) w a w' :
  prod_sem X e w a w' →
  ∃ new, w'.(w_table) = w.(w_table) ++ new ∧ (count t (unix_day at_) new ≤ cost (Ev e a))%nat.
Proof.
  intros (w1 & offs & <-%meanwhile_table & _ & Hcall).
  destruct e as [|Y e|Y e| | |Y e| | |rows]; simpl in Hcall;
    try (exists []; rewrite app_nil_r; split;
         [by first [by subst|by destruct Hcall as [-> _]|by destruct Hcall as (_ & -> & _)]|apply Nat.le_0_l]).
  destruct Hcall as (_ & _ & tr & res & [_ Hx]%InsertEvents_exec & ->). simpl in Hx.
  destruct res as [u|err]; [by exists (stored <$> rows)|].
  destruct Hx as (_ & new & Ht & [Hnew _] & _). exists new. split; [done|]. by apply count_sublist.
Qed.

Lemma pool_ledger (c c' : list (Prog IngestE Response) * World) log qlog :
  pool_run prod_sem c log c' → Forall (λ l, charge_ok l.2) log →
  history qlog c.2.(w_redis) → Forall run_ok qlog →
  ∃ qlog' new, history qlog' c'.2.(w_redis) ∧ Forall run_ok qlog' ∧
    spent selected qlog + Z.of_nat (total gain log) ≤ spent selected qlog' ∧
    c'.2.(w_table) = c.2.(w_table) ++ new ∧ (count t (unix_day at_) new ≤ total cost log)%nat.
Proof.
  intros Hrun. revert qlog. unfold total.
  induction Hrun as [c|c l c1 ls c2 Hstep _ IH]; simpl; intros qlog Hok Hh Hq.
  - exists qlog, []. rewrite app_nil_r. split_and!; [done|done|lia|done|done].
  - apply Forall_cons in Hok as [Hl Hls]. inversion Hstep as [ps w i X e k a w' Hi Ha]; subst. simpl in *.
    destruct (step_history _ _ _ _ _ _ Ha Hl Hh Hq) as (q1 & Hh1 & Hq1 & Hs1).
    destruct (step_table _ _ _ _ _ Ha) as (new1 & Ht1 & Hc1).
    destruct (IH q1 Hls Hh1 Hq1) as (q2 & new2 & Hh2 & Hq2 & Hs2 & Ht2 & Hc2).
    exists q2, (new1 ++ new2). rewrite Ht2, Ht1, <-app_assoc, count_app. split_and!; [done|done|lia|done|lia].
Qed.

(** Rows of the day are bounded by the budget, for a pool of batch requests and of
    programs that make no calls. *)
Lemma pool_within_budget ps w log ps' w' :
  pool_run prod_sem (ps, w) log (ps', w') →
  (∀ p, p ∈ ps → (∃ order d r, p = NewBatch order d r) ∨ ∃ a, p = Ret a) →
  (∀ k, quota_key k → rd_view w.(w_redis).2 k = None) → skew ≤ 12 * Hour → 0 ≤ B < 2 ^ 52 →
  ∃ new, w'.(w_table) = w.(w_table) ++ new ∧ Z.of_nat (count t (unix_day at_) new) ≤ B.
Proof.
  intros Hrun Hps Hfresh Hskew HB.
  assert (∀ i p tr a, ps !! i = Some p → exec (rely prod_answer) p tt tr a tt →
    tr = [] ∨ answered tr ∧ ∃ order d r, batch_outcome order d r tr a) as Hreq.
  { intros i p tr a Hi Hx. destruct (Hps p) as [(order & d & r & ->)|[b ->]];
      [by eapply list_elem_of_lookup_2| |by left; destruct Hx].
    right. split; [by apply exec_rely in Hx|]. exists order, d, r. by apply NewBatch_exec, (exec_any (rely prod_answer) _ tt _ _ tt). }
  assert (total cost log ≤ total gain log)%nat as Hcov.
  { apply (pool_covered prod_sem prod_answer cost gain ps w log ps' w' prod_answers prod_answerable); [|done].
    intros i p pre post a Hi Hx.
    destruct (Hreq _ _ _ _ Hi Hx) as [[-> _]%app_eq_nil|(Hans & order & d & r & Hout)]; [done|].
    by eapply request_covered. }
  assert (Forall (λ l, charge_ok l.2) log) as Hok.
  { apply (pool_every prod_sem prod_answer charge_ok ps w log ps' w' prod_answers prod_answerable); [|done].
    intros i p tr a Hi Hx. destruct (Hreq _ _ _ _ Hi Hx) as [->|(Hans & order & d & r & Hout)]; [constructor|].
    by eapply request_charges. }
  destruct (pool_ledger (ps, w) (ps', w') log [] Hrun Hok) as (qlog & new & Hh & Hq & Hs & Ht & Hc).
  { by apply run_start. }
  { constructor. }
  exists new. split; [done|].
  pose proof (daily_budget_never_exceeded (R:=Timed R) skew B qlog _ _ t (unix_day at_) Hskew Hh HB) as Hb.
  unfold spent at 1 in Hs. simpl in Hs. fold selected in Hb.
  assert (spent selected qlog ≤ B); [apply Hb|lia].
  intros x Hx Htx Hdx. rewrite Forall_forall in Hq. apply (Hq x Hx). by apply bool_decide_eq_true.
Qed.

(** the daily budget is a bound on what is stored: with any number of batch requests
    interleaving over one Redis, offset store and events table, with faults, lost
    replies and pauses, the rows written to storage for a tenant and a day of receipt
    never exceed the tenant's daily limit. *)
Theorem stored_within_daily_budget ps w log ps' w' :
  pool_run prod_sem (ps, w) log (ps', w') →
  (∀ p, p ∈ ps → ∃ order d r, p = NewBatch order d r) →
  (∀ k, quota_key k → rd_view w.(w_redis).2 k = None) → skew ≤ 12 * Hour → 0 ≤ B < 2 ^ 52 →
  ∃ new, w'.(w_table) = w.(w_table) ++ new ∧ Z.of_nat (count t (unix_day at_) new) ≤ B.
Proof.
  intros Hrun Hps. apply (pool_within_budget _ _ _ _ _ Hrun). intros p Hp. left. by apply Hps.
Qed.

(** The table grows by one chunk per insert, in order: all its rows, or a part of them
    when the insert failed. *)
Definition chunk_of (ra : list Row * result () ()) (chunk : list (gmap string cell)) : Prop :=
  chunk = stored <$> ra.1 ∨ (is_ok ra.2 = false ∧ partly_written (stored <$> ra.1) chunk).
Lemma chunk_rows ra chunk row : chunk_of ra chunk → row ∈ chunk → ∃ r, row = stored r ∧ r ∈ ra.1.
Proof.
  intros Hch Hrow. apply list_elem_of_fmap. destruct Hch as [->|(_ & Hsub & _)]; [done|].
  by apply (sublist_subseteq _ _ Hsub).
Qed.

Lemma pool_table (c c' : list (Prog IngestE Response) * World) log :
  pool_run prod_sem c log c' →
  ∃ chunks, c'.2.(w_table) = c.2.(w_table) ++ concat chunks ∧ Forall2 chunk_of (inserts log.*2) chunks.
Proof.
  unfold inserts. induction 1 as [c|c l c1 ls c2 Hstep _ (chunks & Ht & Hf)].
  { exists []. by rewrite app_nil_r. }
  inversion Hstep as [ps w i X e k a w' Hi (w1 & offs & Hw%meanwhile_table & _ & Hcall)]; subst.
  rewrite fmap_cons. cbn [snd] in *. rewrite Ht, <-Hw. clear Ht Hw Hstep Hi.
  destruct e as [|Y e|Y e| | |Y e| | |rows]; simpl in Hcall;
    try (exists chunks; split; [f_equal; by first [by subst|by destruct Hcall as [-> _]|by destruct Hcall as (_ & -> & _)]|done]).
  destruct Hcall as (_ & _ & tr & res & [_ Hx]%InsertEvents_exec & ->). simpl in Hx.
  assert (∃ chunk, w'.(w_table) = w1.(w_table) ++ chunk ∧
    chunk_of (rows, match res with Ok u => Ok u | Err _ => Err () end) chunk) as (chunk & Hx' & Hch).
  { destruct res as [u|err]; [by exists (stored <$> rows); split; [|left]|].
    destruct Hx as (_ & new & Hx & Hnew & _). exists new. split; [done|]. by right. }
  rewrite Hx'. exists (chunk :: chunks). simpl. rewrite app_assoc. split; [done|]. by constructor.
Qed.

(** A successful insert is a block of the table. *)
Lemma acked_block (ps ps' : list (Prog IngestE Response)) w w' log i rows (u : ()) :
  pool_run prod_sem (ps, w) log (ps', w') → (rows, Ok u) ∈ inserts (calls_of i log) →
  ∃ before after, w'.(w_table) = w.(w_table) ++ before ++ (stored <$> rows) ++ after.
Proof.
  intros Hrun Hin.
  assert ((rows, Ok u) ∈ inserts log.*2) as Hin'.
  { unfold inserts in *. apply list_elem_of_omap in Hin as (ev & Hev%calls_of_elem & Has).
    apply list_elem_of_omap. exists ev. split; [|done]. apply list_elem_of_fmap. by exists (i, ev). }
  destruct (pool_table _ _ _ Hrun) as (chunks & Ht & Hf). simpl in Ht.
  apply list_elem_of_split in Hin' as (l1 & l2 & Hl). rewrite Hl in Hf.
  apply Forall2_app_inv_l in Hf as (c1 & c2 & _ & Hf & ->).
  apply Forall2_cons_inv_l in Hf as (chunk & c3 & [-> |[[=] _]] & _ & ->).
  rewrite concat_app in Ht. simpl in Ht.
  by exists (concat c1), (concat c3).
Qed.

(** C5: an acknowledged batch is in the events table: whatever else runs on the system,
    when a request has been answered 200 the table has gained, as one block, the rows
    of exactly the ids reported as accepted, and the ids of the request are those and
    the rejected ones. *)
Theorem acknowledged_is_in_the_table order d r ps w log ps' w' i resp :
  (∀ i m, order i m ≡ₚ map_to_list m) →
  pool_run prod_sem (ps, w) log (ps', w') →
  ps !! i = Some (NewBatch order d r) → ps' !! i = Some (Ret resp) → w_status resp = StatusOK →
  ∃ now req rejected rows before after,
    w'.(w_table) = w.(w_table) ++ before ++ (stored <$> rows) ++ after ∧
    decode_batch r = Ok req ∧
    Marshal_BatchResponse {| ReceivedAt := UnixMilli now; Accepted := row_EventID <$> rows;
                             Rejected := rejected |} = Some (w_body resp) ∧
    Event_GetEventId <$> req.(Events) ≡ₚ (row_EventID <$> rows) ++ (rej_EventId <$> rejected).
Proof.
  intros Horder Hrun Hp Ha Hok.
  pose proof (pool_local _ _ _ _ _ _ _ _ _ Hrun Hp Ha) as Hexec%NewBatch_exec.
  destruct (outcome_acked order Horder _ _ _ _ Hexec Hok)
    as (now & req & rejected & rows & u & Hd & Hins & Hm & Hperm).
  destruct (acked_block _ _ _ _ _ i rows u Hrun) as (before & after & Ht);
    [rewrite Hins; left|].
  by exists now, req, rejected, rows, before, after.
Qed.
End system.

(** ** Witnesses: two deliveries of a batch of two events under a limit of three a day *)
From S2P Require Import ToyJwx BatchProps.

Definition toy_db : DB := {|
  tenants := {[ "t1" := ModeDualAccept ]};
  client_ids := {[ "c1" := {| c_tenant := "t1"; c_revoked := false;
                              c_legacy_hash := Some (Crypto.Sum256 "wk_live_abc") |} ]};
  quotas := {[ "t1" := {| q_daily := 3; q_rps0 := 50; q_rps1 := 10; q_rps_legacy := 5 |} ]};
  installs := ∅ |}.
Definition sys_clock : Z := toy_received `div` Millisecond.
Definition sys_claims : Claims :=
  {| TenantID := "t1"; InstallID := legacy_install_id "wk_live_abc"; Scope := ScopeWriteEvents; TrustTier := 1 |}.
Definition sys_start : World (R:=ToyRedis) :=
  {| w_redis := (sys_clock, ∅); w_offsets := {| pg_rows := ∅; pg_now := toy_received |}; w_table := [] |}.

(** The services without faults. *)
Definition sys_world (X : Type) (e : IngestE (J:=ToyJWX) X) (w : World (R:=ToyRedis)) : X * World (R:=ToyRedis) :=
  match e in IngestE X return X * World with
  | INow => (toy_received, w)
  | IKey e => (match e in KeyE X return X with EKey _ _ => Err ErrUnknownKID end, w)
  | ILegacy e => (match e in LegacyE X return X with
                  | EResolve key => match Resolve toy_db key with Ok tm => Ok tm | Err _ => Err () end
                  end, w)
  | IOnLegacyUse _ _ | IOnClockSkew _ _ => (tt, w)
  | ILimitsFor t tier => (match LimitsFor toy_db t tier with Ok lim => Ok lim | Err _ => Err () end, w)
  | IQuota e =>
      let out := quota_exec (R:=Timed ToyRedis) e w.(w_redis) in
      (out.1, {| w_redis := out.2; w_offsets := w.(w_offsets); w_table := w.(w_table) |})
  | IGetOrSet k c =>
      let out := GetOrSet k c w.(w_offsets) in
      (Ok out.1, {| w_redis := w.(w_redis); w_offsets := out.2; w_table := w.(w_table) |})
  | IInsert rows =>
      (Ok tt, {| w_redis := w.(w_redis); w_offsets := w.(w_offsets);
                 w_table := w.(w_table) ++ (stored <$> rows) |})
  end.

(** Its quota calls carry the keys of the caller at the receipt of the delivery. *)
Definition sys_prompt (cl : Claims) (ev : event (IngestE (J:=ToyJWX))) : bool :=
  match ev.(ev_call) with
  | IQuota e =>
      match e with
      | EAllow rk dk _ _ _ _ _ =>
          bool_decide (rk = rateKey cl toy_received ∧ dk = dayKey cl toy_received)
      | EClientRate _ _ => false
      end
  | _ => true
  end.
Definition sys_ok (w : World (R:=ToyRedis)) : Prop := w.(w_redis).1 = sys_clock.

Lemma sys_in_time : in_time (500 * Millisecond) toy_received sys_clock.
Proof. split; [by vm_compute|]. vm_compute. split; [by intros|done]. Qed.

Lemma sys_world_sem cl X (e : IngestE (J:=ToyJWX) X) w x w' :
  sys_ok w → sys_world X e w = (x, w') → sys_prompt cl (Ev e x) = true →
  prod_sem (R:=ToyRedis) toy_db (500 * Millisecond) X e w x w' ∧ sys_ok w'.
Proof.
  intros Hw Hx Hp.
  enough (prod_call (R:=ToyRedis) toy_db (500 * Millisecond) X e w x w' ∧ sys_ok w') as [? ?]
    by (split; [by apply prod_sem_now|done]).
  destruct e as [|Y e|Y e| | |Y e| | |rows]; cbn [sys_world prod_call] in *.
  - injection Hx as <- <-. split; [split; [done|]; by vm_compute|done].
  - by destruct e; injection Hx as <- <-.
  - destruct e as [key]. revert Hx. generalize (Resolve toy_db key) as r. clear Hp. intros [tm|err] Hx; injection Hx as <- <-; by split.
  - by injection Hx as <- <-.
  - revert Hx. generalize (LimitsFor toy_db tenantID tier) as r. intros [lim|err] [= <- <-]; done.
  - destruct e as [rk dk n rps daily rt dt|]; [|done]. injection Hx as <- <-.
    cbn [sys_prompt ev_call] in Hp. apply bool_decide_eq_true in Hp as [-> ->]. cbn [prompt_call].
    assert ((allowScript (R:=Timed ToyRedis) (rateKey cl toy_received)
      (dayKey cl toy_received) n rps daily rt dt (w_redis w)).2.1 = sys_clock) as Hc
      by by rewrite allowScript_clock.
    split; [|by unfold sys_ok]. cbn [w_offsets w_table w_redis]. split; [done|]. split; [done|]. split.
    { refine (served_now (R:=Timed ToyRedis) (quota_exec (EAllow (rateKey cl toy_received)
        (dayKey cl toy_received) n rps daily rt dt)) _ _). }
    exists cl, toy_received. split; [done|]. split; [done|]. rewrite Hw.
    split; [exact sys_in_time|]. pose proof sys_in_time as Ht. rewrite <-Hc in Ht. exact Ht.
  - injection Hx as <- <-. split; [|done]. split; [done|]. split; [done|]. by left.
  - by injection Hx as <- <-.
  - injection Hx as <- <-. split; [|done]. split; [done|]. split; [done|].
    destruct (InsertEvents_runs rows (w_table w)) as [tr Htr]. by exists tr, (Ok ()).
Qed.

Definition sys_delivery : Prog (IngestE (J:=ToyJWX)) Response :=
  NewBatch toy_order toy_deps (toy_request "gzip" "z:batch").
Definition sys_run1 := run sys_world sys_delivery sys_start.
Definition sys_run2 := run sys_world sys_delivery sys_run1.2.
Definition sys_log := log_after sys_world 0 [sys_delivery; sys_delivery] sys_start.

(** The first delivery is stored, the second one is over the daily limit. *)
Definition sys_checked : bool :=
  bool_decide ((w_status sys_run1.1.2, w_status sys_run2.1.2) = (StatusOK, StatusTooManyRequests)) &&
  forallb (λ l, sys_prompt sys_claims l.2) sys_log &&
  bool_decide (count "t1" (unix_day toy_received) sys_run2.2.(w_table) = 2%nat).
Lemma sys_facts :
  (w_status sys_run1.1.2, w_status sys_run2.1.2) = (StatusOK, StatusTooManyRequests) ∧
  forallb (λ l, sys_prompt sys_claims l.2) sys_log = true ∧
  count "t1" (unix_day toy_received) sys_run2.2.(w_table) = 2%nat.
Proof.
  assert (sys_checked = true) as H by (vm_compute; reflexivity). unfold sys_checked in H.
  apply andb_prop in H as [[H1 H2]%andb_prop H3].
  exact (conj (bool_decide_eq_true_1 _ H1) (conj H2 (bool_decide_eq_true_1 _ H3))).
Qed.
Lemma sys_accepted : w_status sys_run1.1.2 = StatusOK.
Proof. exact (f_equal fst (proj1 sys_facts)). Qed.

Lemma sys_pool :
  pool_run (prod_sem (R:=ToyRedis) toy_db (500 * Millisecond)) ([sys_delivery; sys_delivery], sys_start) sys_log
    ([Ret sys_run1.1.2; Ret sys_run2.1.2], sys_run2.2).
Proof.
  exact (det_pool sys_world _ (sys_prompt sys_claims) sys_ok [sys_delivery; sys_delivery] sys_start
    (sys_world_sem sys_claims) (proj1 (proj2 sys_facts)) eq_refl).
Qed.

Lemma stored_within_daily_budget_witness :
  count "t1" (unix_day toy_received) sys_run2.2.(w_table) = 2%nat ∧
  ∃ new, sys_run2.2.(w_table) = [] ++ new ∧ Z.of_nat (count "t1" (unix_day toy_received) new) ≤ 3.
Proof.
  split; [exact (proj2 (proj2 sys_facts))|].
  apply (stored_within_daily_budget (R:=ToyRedis) (U:=ToyUUID) (Z0:=ToyGzip) (C:=ToyCodec) toy_db (500 * Millisecond) "t1" toy_received 3)
    with (ps := [sys_delivery; sys_delivery]) (w := sys_start) (log := sys_log)
         (ps' := [Ret sys_run1.1.2; Ret sys_run2.1.2]).
  - by vm_compute.
  - intros tier lim. unfold LimitsFor. simpl. by case_bool_decide; intros [= <-].
  - exact sys_pool.
  - intros p Hp. exists toy_order, toy_deps, (toy_request "gzip" "z:batch").
    by repeat (apply elem_of_cons in Hp as [->|Hp]; [done|]); apply elem_of_nil in Hp.
  - done.
  - by vm_compute.
  - done.
Defined.

Lemma acknowledged_is_in_the_table_witness :
  w_status sys_run1.1.2 = StatusOK ∧
  ∃ now req rejected rows before after,
    sys_run2.2.(w_table) = [] ++ before ++ (stored <$> rows) ++ after ∧
    decode_batch (toy_request "gzip" "z:batch") = Ok req ∧
    Marshal_BatchResponse {| ReceivedAt := UnixMilli now; Accepted := row_EventID <$> rows;
                             Rejected := rejected |} = Some (w_body sys_run1.1.2) ∧
    Event_GetEventId <$> req.(Events) ≡ₚ (row_EventID <$> rows) ++ (rej_EventId <$> rejected).
Proof.
  split; [exact sys_accepted|].
  apply (acknowledged_is_in_the_table (R:=ToyRedis) toy_db (500 * Millisecond) toy_order toy_deps
    (toy_request "gzip" "z:batch") [sys_delivery; sys_delivery] sys_start sys_log
    [Ret sys_run1.1.2; Ret sys_run2.1.2] sys_run2.2 0 sys_run1.1.2 toy_order_ok sys_pool);
    [done|done|exact sys_accepted].
Defined.
