(* ===== verification/Storage.v ===== *)
(** * What ends up in the events table

    [row_story] traces every row of the table back through the pool of requests to the
    event, the credential and the offset it was made of.  From there: every row fits
    the columns of the table, and a query sees an acknowledged event once, however
    often its client sent it. *)
From S2P Require Import Prelude GoStrings GoTime Prog Limits Proto Validate Jwx Json.
From S2P Require Import Token Verify Legacy Redis Quota Enrich Http Batch BatchFacts.
From S2P Require Import ControlPlane Insert Table System.
#[local] Open Scope Z_scope.

Section storage.
Context {J : JWX} {U : UUIDLib} {Z0 : Gzip} {C : BatchCodec} {R : RedisLib} {L : RedisLaws R}.
Context (db : DB) (skew : Z).

(** A batch request, with the map orders of its run; and a pool of them. *)
Definition any_order (order : nat → gmap string (option Value) → list (string * option Value)) : Prop :=
  ∀ i m, order i m ≡ₚ map_to_list m.
Record posted := {
  q_order : nat → gmap string (option Value) → list (string * option Value);
  q_deps : Deps;
  q_request : Request
}.
Definition serve_batch (q : posted) : Prog IngestE Response :=
  NewBatch q.(q_order) q.(q_deps) q.(q_request).
(** The pool has slots for requests of other kinds, which the batch endpoint never
    sees. *)
Definition not_a_batch : Response := {| w_status := 0; w_headers := ∅; w_body := "" |}.
Definition serve_slot (q : option posted) : Prog IngestE Response :=
  match q with Some q => serve_batch q | None => Ret not_a_batch end.
Definition orders_ok (qs : list (option posted)) : Prop := ∀ q, Some q ∈ qs → any_order q.(q_order).

(** ** Tracing a row *)

(** The insert ends its request. *)
Lemma insert_ends order d r pre post resp rows a :
  batch_outcome order d r (pre ++ post) resp → (rows, a) ∈ inserts pre → post = [].
Proof.
  intros Hout Hin. destruct (outcome_inserts order _ _ _ _ Hout) as [(Hno & _)|H].
  { unfold inserts in *. rewrite omap_app in Hno. apply app_eq_nil in Hno as [Hno _].
    rewrite Hno in Hin. by apply elem_of_nil in Hin. }
  destruct H as (now & claims & isLegacy & req & rejected & valid & rows' & accepted & a' & _ & Hst).
  destruct (stored_calls order _ _ _ _ _ _ _ _ _ _ _ _ _ Hst) as (pre' & lim & res & Heq & Hno & _).
  destruct post as [|last post' _] using rev_ind; [done|exfalso].
  rewrite app_assoc in Heq. apply app_inj_tail in Heq as [<- _].
  unfold inserts in *. rewrite omap_app in Hno. apply app_eq_nil in Hno as [Hno _].
  rewrite Hno in Hin. by apply elem_of_nil in Hin.
Qed.

(** The request behind an insert of the pool. *)
Lemma pool_insert qs w log ps' w' rows a :
  pool_run (prod_sem (R:=R) db skew) (serve_slot <$> qs, w) log (ps', w') → orders_ok qs → (rows, a) ∈ inserts log.*2 →
  ∃ i q resp now claims isLegacy req rejected valid accepted,
    qs !! i = Some (Some q) ∧ any_order q.(q_order) ∧
    BatchFacts.stored q.(q_order) q.(q_deps) q.(q_request) (calls_of i log) resp now claims isLegacy req rejected valid rows accepted a.
Proof.
  intros Hrun Hps Hin. unfold inserts in Hin. apply list_elem_of_omap in Hin as (ev & Hev & Has).
  apply list_elem_of_fmap in Hev as ([i ev'] & -> & Hev). simpl in Has.
  destruct (qs !! i) as [slot|] eqn:Hq; cycle 1.
  { apply calls_of_elem in Hev. rewrite (pool_local_none _ _ _ _ _ _ _ Hrun) in Hev;
      [by apply elem_of_nil in Hev|]. by rewrite list_lookup_fmap, Hq. }
  assert ((serve_slot <$> qs) !! i = Some (serve_slot slot)) as Hp by (by rewrite list_lookup_fmap, Hq).
  destruct (pool_run_complete _ (prod_answer db) _ w log ps' w' i _ (prod_answers db skew)
    (prod_answerable db) Hrun Hp) as (tr & resp & Hexec).
  destruct slot as [q|]; cycle 1.
  { destruct Hexec as (Hnil & _). apply app_eq_nil in Hnil as [Hnil _].
    apply calls_of_elem in Hev. rewrite Hnil in Hev. by apply elem_of_nil in Hev. }
  pose proof (Hps q ltac:(by eapply list_elem_of_lookup_2)) as Horder.
  destruct q as [order d r]. simpl in Horder.
  apply (exec_any (rely (prod_answer db)) _ tt _ _ tt), NewBatch_exec in Hexec.
  assert ((rows, a) ∈ inserts (calls_of i log)) as Hi
    by (apply list_elem_of_omap; exists ev'; by rewrite calls_of_elem).
  rewrite (insert_ends order d r _ tr resp rows a Hexec Hi), app_nil_r in Hexec.
  destruct (outcome_inserts order _ _ _ _ Hexec) as [(Hno & _)|H].
  { rewrite Hno in Hi. by apply elem_of_nil in Hi. }
  destruct H as (now & claims & isLegacy & req & rejected & valid & rows' & accepted & a' & Heq & Hst).
  rewrite Heq in Hi. apply list_elem_of_singleton in Hi as [= -> ->].
  by exists i, {| q_order := order; q_deps := d; q_request := r |}, resp, now, claims, isLegacy, req,
    rejected, valid, accepted.
Qed.

(** Where a row comes from: a request of the pool, whose credential was verified and
    whose session had an offset. *)
Record row_story (qs : list (option posted)) (log : list (nat * event IngestE))
    (row : Row) : Prop := {
  rs_story : ∃ i q now claims isLegacy tra req e o clamped,
    qs !! i = Some (Some q) ∧
    (i, Ev INow now) ∈ log ∧
    exec any_env (VerifyOrLegacy (F:=IngestE) q.(q_deps).(d_Verifier)
      q.(q_request).(r_Authorization) now) tt tra (Ok claims, isLegacy) tt ∧
    (∀ ev, ev ∈ tra → (i, ev) ∈ log) ∧
    decode_batch q.(q_request) = Ok req ∧ e ∈ req.(Events) ∧ storable e ∧
    enrich_Row e claims o now = (row, clamped) ∧
    (i, Ev (IGetOrSet (session_key claims e) (CandidateOffset req.(SentAt) now)) (Ok o)) ∈ log
}.

Lemma insert_story qs w log ps' w' rows a :
  pool_run (prod_sem (R:=R) db skew) (serve_slot <$> qs, w) log (ps', w') → orders_ok qs → (rows, a) ∈ inserts log.*2 →
  Forall (row_story qs log) rows.
Proof.
  intros Hrun Hps Hin. destruct (pool_insert _ _ _ _ _ _ _ Hrun Hps Hin)
    as (i & q & resp & now & claims & isLegacy & req & rejected & valid & accepted &
        Hp & Horder & [(tra & tro & lim & res & Hauth & _ & He & Htr) Hd Hv _]).
  pose proof (validate_all_spec q.(q_order) Horder 0 (Events req)) as Hval. rewrite Hv in Hval.
  destruct Hval as (Hstor & Hsub & _). rewrite Forall_forall in Hstor.
  assert (∀ ev, ev ∈ Ev INow now :: tra ++ tro → (i, ev) ∈ log) as Hlog.
  { intros ev Hev. apply calls_of_elem. rewrite Htr. set_solver. }
  destruct He as (_ & _ & _ & _ & offs & _ & -> & Hall & Hfrom & _).
  apply Forall_forall. intros row Hrow. split.
  apply list_elem_of_fmap in Hrow as ([row' c] & -> & Hrow).
  unfold rows_of in Hrow. apply list_elem_of_fmap in Hrow as (e & Hre & Hev).
  destruct (Hall e Hev) as [o Ho]. rewrite Ho in Hre.
  exists i, q, now, claims, isLegacy, tra, req, e, o, c.
  split_and!; [done|apply Hlog; left|done| |done|by apply Hsub|by apply Hstor|done|].
  - intros ev Hin'. apply Hlog. set_solver.
  - destruct (Hfrom _ _ Ho) as [Hn|Hn]; [done|]. unfold offset_calls in Hn.
    apply list_elem_of_omap in Hn as ([X f b] & Hev' & Hof). apply Hlog. right. apply elem_of_app. right.
    unfold as_offset in Hof. simpl in Hof. destruct f; simpl in Hof; try done. by injection Hof as -> -> ->.
Qed.

(** Every row of the table was there, or has its story. *)
Lemma table_story qs w log ps' w' row :
  pool_run (prod_sem (R:=R) db skew) (serve_slot <$> qs, w) log (ps', w') → orders_ok qs → row ∈ w'.(w_table) →
  row ∈ w.(w_table) ∨ ∃ r, row = stored r ∧ row_story qs log r.
Proof.
  intros Hrun Hps Hin. destruct (pool_table _ _ _ _ _ Hrun) as (chunks & Ht & Hf). simpl in Ht.
  rewrite Ht in Hin. apply elem_of_app in Hin as [Hin|Hin]; [by left|right].
  apply list_elem_of_concat in Hin as (chunk & Hrow & Hc).
  apply list_elem_of_lookup in Hc as [n Hn].
  destruct (Forall2_lookup_r _ _ _ _ _ Hf Hn) as ([rows a] & Hr & Hch).
  destruct (chunk_rows _ _ _ Hch Hrow) as (r & -> & Hr'). exists r. split; [done|].
  pose proof (insert_story _ _ _ _ _ rows a Hrun Hps) as Hall. rewrite Forall_forall in Hall.
  apply Hall; [by eapply list_elem_of_lookup_2|done].
Qed.

(** ** Types *)

Lemma authenticated_tier v bearer now tr claims isLegacy :
  exec any_env (VerifyOrLegacy (F:=IngestE) v bearer now) tt tr (Ok claims, isLegacy) tt →
  claims.(TrustTier) = 0 ∨ claims.(TrustTier) = 1.
Proof.
  intros H%VerifyOrLegacy_exec.
  inversion H as [tr' c _ Hv| |t mode _ _|]; subst; [|by right].
  apply Verify_Ok in Hv as (hdr & k & tok & _ & _ & _ & _ & _ & [_ _ _ _ _ _ _ (f & _ & Ht & _)]). done.
Qed.

Lemma decode_body r req : decode_batch r = Ok req → ∃ body, Unmarshal_BatchRequest body = Some req.
Proof.
  unfold decode_batch. destruct (readBody r) as [body|[]]; [|done..].
  destruct (Unmarshal_BatchRequest body) as [req'|] eqn:Hu; [|done].
  case_bool_decide; [done|]. intros [= <-]. by exists body.
Qed.

(** C9: the table stays well typed: whatever batch requests interleave, with whatever
    faults, every row they add has a fitting value for each column of the schema and
    for no other: a UUID, times in the range of DateTime64, tiers of a byte; nothing a
    client sends can make the server refuse the batch or store something else.  Clocks
    are those of the years 1901 to 2298, and protobuf's uint64 is one. *)
Theorem table_stays_well_typed qs w log ps' w' :
  pool_run (prod_sem (R:=R) db skew) (serve_slot <$> qs, w) log (ps', w') → orders_ok qs →
  Forall well_typed w.(w_table) →
  (∀ i now, (i, Ev INow now) ∈ log → sane_clock now) →
  (∀ body req e, Unmarshal_BatchRequest body = Some req → e ∈ req.(Events) →
     0 ≤ Event_GetSeq e < 2 ^ 64) →
  Forall well_typed w'.(w_table).
Proof.
  intros Hrun Hps Hw Hclock Hseq. apply Forall_forall. intros row Hrow.
  destruct (table_story _ _ _ _ _ _ Hrun Hps Hrow) as [Hold|(r & -> & [Hr])].
  { rewrite Forall_forall in Hw. by apply Hw. }
  destruct Hr as (i & q & now & claims & isLegacy & tra & req & e & o & c & _ & Hnow &
    Hauth & _ & Hd & He & Hst & Hrow' & _).
  destruct (decode_body _ _ Hd) as [body Hbody].
  eapply enriched_row_typed; [exact Hst|by eapply Hseq|by eapply authenticated_tier| |exact Hrow'].
  by eapply Hclock.
Qed.

(** ** Once *)

(** What a call of the endpoint does to the session offsets, with what happens before. *)
Lemma prod_offsets X (e : IngestE X) w x w' :
  prod_sem (R:=R) db skew X e w x w' →
  ∃ offsets, aged w.(w_offsets) offsets ∧
    (w'.(w_offsets) = offsets ∨ ∃ k c, w'.(w_offsets) = (Postgres_GetOrSet k c offsets).2) ∧
    ∀ k c o, as_offset (Ev e x) = Some (k, c, Ok o) →
      o = (Postgres_GetOrSet k c offsets).1 ∧ w'.(w_offsets) = (Postgres_GetOrSet k c offsets).2.
Proof.
  intros (w1 & offsets & (_ & Ho & _) & Haged & Hcall). rewrite Ho in Haged. exists offsets.
  split; [done|]. destruct e; simpl in *;
    try (split; [left; by first [by subst|by destruct Hcall as [-> _]|by destruct Hcall as (_ & -> & _)|by destruct Hcall as (-> & _)]|done]).
  destruct Hcall as (_ & _ & H). split.
  - destruct H as [[_ ->]|[_ [->| ->]]]; [right; by eexists _, _|by left|right; by eexists _, _].
  - intros k' c' o' [= <- <- ->]. by destruct H as [[[= ->] ->]|[[=] _]].
Qed.

(** All answered offsets of one session in a run of at most 30 days of Postgres's clock
    are the one the table ends with. *)
Lemma pool_session_offset (ps ps' : list (Prog IngestE Response)) w log w' i ev k cand o :
  pool_run (prod_sem (R:=R) db skew) (ps, w) log (ps', w') → (i, ev) ∈ log →
  as_offset ev = Some (k, cand, Ok o) →
  w'.(w_offsets).(pg_now) ≤ w.(w_offsets).(pg_now) + retention →
  os_view w'.(w_offsets) !! k = Some o.
Proof.
  intros Hrun Hin Hev. apply remembers_view. set (since := w.(w_offsets).(pg_now)).
  assert (∀ X (e : IngestE X) w x w', prod_sem (R:=R) db skew X e w x w' →
    since ≤ w.(w_offsets).(pg_now) → since ≤ w'.(w_offsets).(pg_now)) as Hclock.
  { intros X e w0 x w1 (offs & Haged%aged_keeps & Hw1 & _)%prod_offsets Hle. destruct Haged as [Hle' _].
    destruct Hw1 as [->|(k' & c' & ->)]; simpl; lia. }
  apply (pool_run_knowing _ (λ w, since ≤ w.(w_offsets).(pg_now))) in Hrun;
    [|intros X e w0 x w1 Hle Hs; by eapply Hclock|done].
  refine (pool_event _ (λ w, remembers since k o w.(w_offsets)) (λ ev, as_offset ev = Some (k, cand, Ok o))
    _ _ _ _ _ _ _ Hrun Hin Hev).
  - intros X e w0 x w1 [(offs & [Hle _]%aged_keeps & _ & Hans)%prod_offsets Hs] [-> ->]%Hans.
    apply remembers_call. lia.
  - intros X e w0 x w1 Hr [(offs & Haged & Hw1 & _)%prod_offsets _].
    pose proof (remembers_aged _ _ _ _ _ Hr Haged) as Hr'.
    destruct Hw1 as [->|(k' & c' & ->)]; [done|by apply remembers_GetOrSet].
Qed.

(** The text of a row's column. *)
Definition has_text (c s : string) (row : gmap string cell) : bool :=
  bool_decide (row !! c = Some (CText s)).
Lemma has_text_id r s : has_text "event_id" s (stored r) = true ↔ r.(row_EventID) = s.
Proof.
  unfold has_text. change (stored r !! "event_id") with (Some (CText r.(row_EventID))).
  rewrite bool_decide_eq_true. split; [by intros [= ->]|by intros ->].
Qed.
Lemma has_text_tenant r s : has_text "tenant_id" s (stored r) = true ↔ r.(row_TenantID) = s.
Proof.
  unfold has_text. change (stored r !! "tenant_id") with (Some (CText r.(row_TenantID))).
  rewrite bool_decide_eq_true. split; [by intros [= ->]|by intros ->].
Qed.

(** A row dated by the receipt of its batch instead of by its device. *)
Definition dated_by_receipt (row : gmap string cell) : bool :=
  bool_decide (row !! "ts" = row !! "ts_received").

(** The acknowledged row itself. *)
Lemma acknowledged_row qs q w log ps' w' i resp req e :
  pool_run (prod_sem (R:=R) db skew) (serve_slot <$> qs, w) log (ps', w') → orders_ok qs →
  qs !! i = Some (Some q) → ps' !! i = Some (Ret resp) → w_status resp = StatusOK →
  decode_batch q.(q_request) = Ok req → e ∈ req.(Events) → storable e →
  ∃ t claims isLegacy tra r0,
    exec any_env (VerifyOrLegacy (F:=IngestE) q.(q_deps).(d_Verifier) q.(q_request).(r_Authorization) t)
      tt tra (Ok claims, isLegacy) tt ∧
    stored r0 ∈ w'.(w_table) ∧ r0.(row_EventID) = Event_GetEventId e ∧ r0.(row_TenantID) = claims.(TenantID).
Proof.
  intros Hrun Hps Hq Ha Hok Hd He Hst.
  pose proof (Hps q ltac:(by eapply list_elem_of_lookup_2)) as Horder.
  assert ((serve_slot <$> qs) !! i = Some (serve_batch q)) as Hp by (by rewrite list_lookup_fmap, Hq).
  pose proof (pool_local _ _ _ _ _ _ _ _ _ Hrun Hp Ha) as Hexec%NewBatch_exec.
  destruct (outcome_inserts q.(q_order) _ _ _ _ Hexec) as [(_ & Hno & _)|H]; [done|].
  destruct H as (now & claims & isLegacy & req' & rejected & valid & rows & accepted & a & Hins & Hsto).
  destruct Hsto as [(tra & tro & lim & res & Hauth & _ & Hen & _) Hd' Hv Hresp].
  rewrite Hd in Hd'. injection Hd' as <-.
  destruct Hen as (_ & _ & _ & -> & offs & _ & -> & _).
  destruct a as [u|err]; [|by rewrite Hresp in Hok].
  pose proof (validate_all_spec q.(q_order) Horder 0 (Events req)) as Hval. rewrite Hv in Hval.
  destruct Hval as (_ & _ & _ & _ & Hall).
  destruct (rows_of_facts claims now offs valid) as [Hids Hrows].
  assert (Event_GetEventId e ∈ row_EventID <$> (rows_of claims now offs valid).*1) as Hid.
  { rewrite Hids. apply list_elem_of_fmap. exists e. auto. }
  apply list_elem_of_fmap in Hid as (r0 & Hid & Hrow).
  exists now, claims, isLegacy, tra, r0. split; [done|]. split; cycle 1.
  { split; [done|]. rewrite Forall_forall in Hrows. by apply Hrows. }
  assert (((rows_of claims now offs valid).*1, Ok u) ∈ inserts (calls_of i log)) as Hin
    by (rewrite Hins; left).
  destruct (acked_block db skew _ _ _ _ _ i _ u Hrun Hin) as (before & after & ->).
  apply elem_of_app. right. apply elem_of_app. right. apply elem_of_app. left.
  apply list_elem_of_fmap. by exists r0.
Qed.

Lemma enriched_received e claims o now r c : enrich_Row e claims o now = (r, c) → r.(row_TSReceived) = now.
Proof. unfold enrich_Row. destruct (Correct _ _ _). by intros [= <- _]. Qed.

(** A row made of [e], with the offset its session has at the end unless it was dated
    by its receipt. *)
Definition made_of (e : option Event) (w' : World (R:=R)) (r0 : Row) : Prop :=
  ∃ claims o now c, enrich_Row e claims o now = (r0, c) ∧
    (dated_by_receipt (stored r0) = false →
      os_view w'.(w_offsets) !! session_key claims e = Some o ∧
      r0.(row_TS) = FromUnixMilli (add64 (Event_GetTsClient e) o)).

Lemma event_rows qs w log ps' w' e row :
  pool_run (prod_sem (R:=R) db skew) (serve_slot <$> qs, w) log (ps', w') → orders_ok qs →
  (∀ q' req' e', Some q' ∈ qs → decode_batch q'.(q_request) = Ok req' → e' ∈ req'.(Events) →
     Event_GetEventId e' = Event_GetEventId e → e' = e) →
  (∀ row, row ∈ w.(w_table) → has_text "event_id" (Event_GetEventId e) row = false) →
  w'.(w_offsets).(pg_now) ≤ w.(w_offsets).(pg_now) + 30 * Day →
  row ∈ w'.(w_table) → has_text "event_id" (Event_GetEventId e) row = true →
  ∃ r0 j received, row = stored r0 ∧ made_of e w' r0 ∧
    (j, Ev INow received) ∈ log ∧ r0.(row_TSReceived) = received.
Proof.
  intros Hrun Hps Hids Hfresh Hclock Hin Hid.
  destruct (table_story _ _ _ _ _ _ Hrun Hps Hin) as [Hold|(r0 & -> & [Hr])].
  { by rewrite (Hfresh _ Hold) in Hid. }
  destruct Hr as (j & q' & now & claims & isLegacy & tra & req' & e' & o & c & Hj & Hnow &
    _ & _ & Hd' & He' & _ & Hrow & Hoff).
  apply enrich_Row_clamped in Hrow as Hcl. destruct Hcl as (_ & _ & Hide & _).
  apply has_text_id in Hid. rewrite Hide in Hid. apply list_elem_of_lookup_2 in Hj.
  pose proof (Hids _ _ _ Hj Hd' He' Hid) as ->.
  exists r0, j, now. split_and!; [done| |done|by eapply enriched_received]. exists claims, o, now, c. split; [done|]. intros Hdt. split.
  - exact (pool_session_offset _ _ _ _ _ _ _ _ _ _ Hrun Hoff eq_refl Hclock).
  - unfold enrich_Row in Hrow.
    destruct (Correct_spec (Event_GetTsClient e) o now) as [[_ Hc]|[_ Hc]];
      rewrite Hc in Hrow; injection Hrow as <- _; [done|].
    apply bool_decide_eq_false in Hdt. by destruct Hdt.
Qed.

(** Two such rows of one tenant and one time have one key and one partition; and two
    that were not dated by their receipt have one time. *)
Lemma made_of_alike e w' r1 r2 :
  made_of e w' r1 → made_of e w' r2 → r1.(row_TenantID) = r2.(row_TenantID) →
  (r1.(row_TS) = r2.(row_TS) → full_key (stored r1) = full_key (stored r2)) ∧
  (dated_by_receipt (stored r1) = false → dated_by_receipt (stored r2) = false → r1.(row_TS) = r2.(row_TS)).
Proof.
  intros (cl1 & o1 & now1 & c1 & (Ht1 & Hn1 & Hi1 & _)%enrich_Row_clamped & Hv1)
    (cl2 & o2 & now2 & c2 & (Ht2 & Hn2 & Hi2 & _)%enrich_Row_clamped & Hv2) Ht. split.
  - intros Hts. unfold full_key. rewrite !order_key_stored, !partition_key_stored. by rewrite Ht, Hn1, Hn2, Hts, Hi1, Hi2.
  - intros [Hk1 ->]%Hv1 [Hk2 ->]%Hv2. unfold session_key in Hk1, Hk2.
    rewrite <-Ht1, Ht, Ht2, Hk2 in Hk1. by injection Hk1 as ->.
Qed.

(** The rows of an event that a query sees. *)
Definition of_event (tenant id : string) (row : gmap string cell) : bool :=
  has_text "tenant_id" tenant row && has_text "event_id" id row.
Lemma of_event_stored tenant id r :
  of_event tenant id (stored r) = true ↔ r.(row_TenantID) = tenant ∧ r.(row_EventID) = id.
Proof. unfold of_event. by rewrite andb_true_iff, has_text_id, has_text_tenant. Qed.
Lemma of_event_key tenant id row row' :
  order_key row = order_key row' → of_event tenant id row' = true → of_event tenant id row = true.
Proof.
  unfold of_event, has_text. rewrite !andb_true_iff, !bool_decide_eq_true. intros Hk [H1 H2].
  split; eapply order_key_text; eauto; unfold order_by; set_solver.
Qed.


(** What a query sees of an event, when every row of it in the table is [made_of] it. *)
Lemma seen_rows `{F : Merging} {FL : MergingLaws F} e w' r0 tenant at_ :
  (∀ row, row ∈ w'.(w_table) → has_text "event_id" (Event_GetEventId e) row = true →
     ∃ r, row = stored r ∧ made_of e w' r) →
  stored r0 ∈ w'.(w_table) → r0.(row_EventID) = Event_GetEventId e → r0.(row_TenantID) = tenant →
  expired at_ (stored r0) = false →
  let seen := base.filter (λ row, of_event tenant (Event_GetEventId e) row = true) (final at_ w'.(w_table)) in
  seen ≠ [] ∧ NoDup ((λ row, row !! "ts") <$> seen) ∧
  (length (base.filter (λ row, dated_by_receipt row = false) seen) ≤ 1)%nat.
Proof.
  intros Hstory Hin Hid Ht Hlive seen.
  assert (∀ row, row ∈ seen → ∃ r, row = stored r ∧ made_of e w' r ∧ r.(row_TenantID) = tenant) as Hseen.
  { intros row [Hof Hrow%final_from]%list_elem_of_filter. pose proof Hof as [_ Hi]%andb_true_iff.
    destruct (Hstory _ Hrow Hi) as (r & -> & Hm). exists r. split_and!; [done..|].
    by apply of_event_stored in Hof as [? _]. }
  assert (NoDup (full_key <$> seen)) as Hnd.
  { eapply sublist_NoDup; [apply (final_NoDup at_)|]. apply fmap_sublist, sublist_filter. }
  split_and!.
  - destruct (final_covers at_ _ _ Hin Hlive) as (row & Hrow & Hk & _). intros Hnil.
    assert (row ∈ seen) as Hin'.
    { apply list_elem_of_filter. split; [|done]. eapply of_event_key; [exact Hk|]. by apply of_event_stored. }
    rewrite Hnil in Hin'. by apply elem_of_nil in Hin'.
  - eapply NoDup_fmap_finer; [exact Hnd|]. intros row1 row2 H1 H2 Hts.
    destruct (Hseen _ H1) as (r1 & -> & Hm1 & Ht1), (Hseen _ H2) as (r2 & -> & Hm2 & Ht2).
    rewrite !stored_ts in Hts. injection Hts as Hts.
    apply (made_of_alike e w' r1 r2 Hm1 Hm2); [congruence|done].
  - apply (NoDup_fmap_alike full_key).
    { eapply sublist_NoDup; [exact Hnd|]. apply fmap_sublist, sublist_filter. }
    intros row1 row2 [Hd1 H1]%list_elem_of_filter [Hd2 H2]%list_elem_of_filter.
    destruct (Hseen _ H1) as (r1 & -> & Hm1 & Ht1), (Hseen _ H2) as (r2 & -> & Hm2 & Ht2).
    destruct (made_of_alike e w' r1 r2 Hm1 Hm2) as [Hkey Hdate]; [congruence|]. by apply Hkey, Hdate.
Qed.

(** C3: what a query sees of an acknowledged event.  The event is first sent in this run
    (no earlier row has its id), its id names it alone, and the run takes at most 30 days
    on Postgres's clock, within which no sweep of quiet sessions forgets an offset.  When
    a batch with the event was answered 200, then whatever else interleaves, and however
    many times the client sent the event, in whatever batches, through any pods,
    answered or not, a query with FINAL, at any time up to 362 days after the receipts,
    sees the event under the tenant of the credential: at least one row, made from the
    event; never two of one time; at most one that is dated by the device's clock.  So an
    event none of whose rows was dated by its receipt, because its time was out of the
    window, is seen exactly once.  (A delivery that was clamped is seen besides, once per
    time of receipt.) *)
Theorem acknowledged_event_is_seen_once `{F : Merging} {FL : MergingLaws F}
    qs q w log ps' w' i resp req e at_ :
  pool_run (prod_sem (R:=R) db skew) (serve_slot <$> qs, w) log (ps', w') → orders_ok qs →
  qs !! i = Some (Some q) → ps' !! i = Some (Ret resp) → w_status resp = StatusOK →
  decode_batch q.(q_request) = Ok req → e ∈ req.(Events) → storable e →
  (∀ q' req' e', Some q' ∈ qs → decode_batch q'.(q_request) = Ok req' → e' ∈ req'.(Events) →
     Event_GetEventId e' = Event_GetEventId e → e' = e) →
  (∀ row, row ∈ w.(w_table) → has_text "event_id" (Event_GetEventId e) row = false) →
  w'.(w_offsets).(pg_now) ≤ w.(w_offsets).(pg_now) + 30 * Day →
  (∀ j received, (j, Ev INow received) ∈ log → at_ < received + 362 * Day) →
  ∃ t claims isLegacy tra,
    exec any_env (VerifyOrLegacy (F:=IngestE) q.(q_deps).(d_Verifier) q.(q_request).(r_Authorization) t)
      tt tra (Ok claims, isLegacy) tt ∧
    let seen := base.filter (λ row, of_event claims.(TenantID) (Event_GetEventId e) row = true)
      (final at_ w'.(w_table)) in
    seen ≠ [] ∧
    (∀ row, row ∈ seen → ∃ claims' o now r clamped,
       claims'.(TenantID) = claims.(TenantID) ∧ enrich_Row e claims' o now = (r, clamped) ∧ row = stored r) ∧
    NoDup ((λ row, row !! "ts") <$> seen) ∧
    (length (base.filter (λ row, dated_by_receipt row = false) seen) ≤ 1)%nat ∧
    ((∀ row, row ∈ seen → dated_by_receipt row = false) → ∃ row, seen = [row]).
Proof.
  intros Hrun Hps Hq Ha Hok Hd He Hst Hids Hfresh Hclock Hat.
  assert (∀ row, row ∈ w'.(w_table) → has_text "event_id" (Event_GetEventId e) row = true →
    ∃ r0 j received, row = stored r0 ∧ made_of e w' r0 ∧ (j, Ev INow received) ∈ log ∧ r0.(row_TSReceived) = received)
    as Hstory by (intros; by eapply event_rows).
  destruct (acknowledged_row _ _ _ _ _ _ _ _ _ _ Hrun Hps Hq Ha Hok Hd He Hst)
    as (t & claims & isLegacy & tra & r0 & Hauth & Hin0 & Hid0 & Ht0).
  exists t, claims, isLegacy, tra. split; [done|]. intros seen.
  assert (expired at_ (stored r0) = false) as Hlive.
  { destruct (Hstory _ Hin0) as (r & j & now & -> & (cl & o & n & c & Hrow & _) & Hnow & Hrec); [by apply has_text_id|].
    eapply enriched_row_kept; [exact Hrow|]. rewrite <-(enriched_received _ _ _ _ _ _ Hrow), Hrec. by eapply Hat. }
  destruct (seen_rows e w' r0 claims.(TenantID) at_) as (Hne & Hnd & Hone); [|done..|].
  { intros row Hin Hid. destruct (Hstory row Hin Hid) as (r & _ & _ & -> & Hm & _). by exists r. }
  fold seen in Hne, Hnd, Hone. split_and!; [done| |done|done|].
  - intros row [Hof Hin%final_from]%list_elem_of_filter. pose proof Hof as [_ Hid]%andb_true_iff.
    destruct (Hstory row Hin Hid) as (r & _ & _ & -> & (cl & o & n & c & Hrow & _) & _).
    exists cl, o, n, r, c. split_and!; [|done..]. apply of_event_stored in Hof as [<- _].
    by apply enrich_Row_clamped in Hrow as [? _].
  - intros Hdev. assert (base.filter (λ row, dated_by_receipt row = false) seen = seen) as Hall.
    { clear -Hdev. induction seen as [|row l IH]; [done|]. rewrite filter_cons, decide_True by (apply Hdev; left).
      f_equal. apply IH. intros row' Hin. apply Hdev. by right. }
    rewrite Hall in Hone. destruct seen as [|row [|row' l]]; [done|by exists row|simpl in Hone; lia].
Qed.
End storage.


(** ** Witnesses: one event delivered twice *)
From S2P Require Import ToyJwx BatchProps.

Definition once_batch : BatchRequest :=
  {| SentAt := UnixMilli toy_received - 1000; Events := [toy_late; toy_invalid] |}.
Definition OnceCodec : BatchCodec := {|
  Unmarshal_BatchRequest body := if bool_decide (body = "batch") then Some once_batch else None;
  Marshal_BatchResponse resp := Some (Join resp.(Accepted) " ")
|}.
Definition once_request : Request := toy_request "gzip" "z:batch".
Definition once_posted : posted (J:=ToyJWX) :=
  {| q_order := toy_order; q_deps := toy_deps; q_request := once_request |}.
Definition once_delivery : Prog (IngestE (J:=ToyJWX)) Response := serve_batch (C:=OnceCodec) once_posted.
Definition once_slots : list (option (posted (J:=ToyJWX))) := [Some once_posted; Some once_posted].
Definition once_run1 := run sys_world once_delivery sys_start.
Definition once_run2 := run sys_world once_delivery once_run1.2.
Definition once_log := log_after sys_world 0 [once_delivery; once_delivery] sys_start.

Definition once_clock (ev : event (IngestE (J:=ToyJWX))) : bool :=
  match ev.(ev_call) in IngestE X return X → bool with
  | INow => λ t, bool_decide (t = toy_received)
  | _ => λ _, true
  end ev.(ev_answer).

(** A query half a year later. *)
Definition once_query : Time := toy_received + 180 * Day.

(** Both deliveries are acknowledged; the table has two rows, a query sees one. *)
Definition once_checked : bool :=
  bool_decide ((w_status once_run1.1.2, w_status once_run2.1.2, length (w_table once_run2.2),
    length (final once_query (w_table once_run2.2))) = (StatusOK, StatusOK, 2%nat, 1%nat)) &&
  forallb (λ l, sys_prompt sys_claims l.2) once_log &&
  forallb (λ row, negb (dated_by_receipt row)) once_run2.2.(w_table) &&
  forallb (λ l, once_clock l.2) once_log.
Lemma once_facts :
  (w_status once_run1.1.2, w_status once_run2.1.2, length (w_table once_run2.2),
    length (final once_query (w_table once_run2.2))) = (StatusOK, StatusOK, 2%nat, 1%nat) ∧
  forallb (λ l, sys_prompt sys_claims l.2) once_log = true ∧
  forallb (λ row, negb (dated_by_receipt row)) once_run2.2.(w_table) = true ∧
  forallb (λ l, once_clock l.2) once_log = true.
Proof.
  assert (once_checked = true) as H by (vm_compute; reflexivity). unfold once_checked in H.
  apply andb_prop in H as [[[H1 H2]%andb_prop H3]%andb_prop H4].
  exact (conj (bool_decide_eq_true_1 _ H1) (conj H2 (conj H3 H4))).
Qed.
Lemma once_two_rows : length once_run2.2.(w_table) = 2%nat.
Proof. exact (f_equal (λ x, x.1.2) (proj1 once_facts)). Qed.
Lemma once_accepted : w_status once_run1.1.2 = StatusOK.
Proof. exact (f_equal (λ x, x.1.1.1) (proj1 once_facts)). Qed.

Lemma once_pool :
  pool_run (prod_sem (R:=ToyRedis) System.toy_db (500 * Millisecond))
    (serve_slot (C:=OnceCodec) <$> once_slots, sys_start) once_log
    ([Ret once_run1.1.2; Ret once_run2.1.2], once_run2.2).
Proof.
  exact (det_pool sys_world _ (sys_prompt sys_claims) sys_ok [once_delivery; once_delivery] sys_start
    (sys_world_sem sys_claims) (proj1 (proj2 once_facts)) eq_refl).
Qed.

Lemma once_orders : orders_ok once_slots.
Proof.
  intros q. unfold once_slots. rewrite !elem_of_cons.
  intros [[= ->]|[[= ->]|[]%elem_of_nil]]; exact toy_order_ok.
Qed.

Lemma once_late : storable toy_late.
Proof.
  apply (validate_None (map_to_list (Event_GetProps toy_late)) toy_late (Permutation_refl _)).
  vm_compute. reflexivity.
Qed.

Lemma once_decoded : decode_batch (C:=OnceCodec) once_request = Ok once_batch.
Proof. by vm_compute. Qed.

Lemma once_events req e :
  decode_batch (C:=OnceCodec) once_request = Ok req → e ∈ req.(Events) → e = toy_late ∨ e = toy_invalid.
Proof.
  rewrite once_decoded. intros [= <-]. cbn [Events once_batch]. rewrite !elem_of_cons.
  by intros [->|[->|?%elem_of_nil]]; [left|right|].
Qed.

Lemma once_times j now : (j, Ev INow now) ∈ once_log → now = toy_received.
Proof.
  destruct once_facts as (_ & _ & _ & Hall). intros Hin. rewrite forallb_forall in Hall.
  apply list_elem_of_In, Hall in Hin. exact (bool_decide_eq_true_1 _ Hin).
Qed.

Lemma once_same_clock :
  once_run2.2.(w_offsets).(pg_now) ≤ sys_start.(w_offsets).(pg_now) + 30 * Day.
Proof. vm_compute. discriminate. Qed.

Lemma acknowledged_event_is_seen_once_witness :
  length once_run2.2.(w_table) = 2%nat ∧
  ∃ claims row, base.filter (λ row, of_event claims.(TenantID) (Event_GetEventId toy_late) row = true)
    (final once_query once_run2.2.(w_table)) = [row].
Proof.
  split; [exact once_two_rows|].
  destruct (acknowledged_event_is_seen_once (U:=ToyUUID) (Z0:=ToyGzip) (C:=OnceCodec) (R:=ToyRedis) System.toy_db (500 * Millisecond)
    once_slots once_posted sys_start once_log [Ret once_run1.1.2; Ret once_run2.1.2]
    once_run2.2 0 once_run1.1.2 once_batch toy_late once_query once_pool once_orders eq_refl eq_refl)
    as (t & claims & isLegacy & tra & _ & _ & _ & _ & _ & Hexact).
  - exact once_accepted.
  - exact once_decoded.
  - left.
  - exact once_late.
  - intros q req e Hq Hd He Hid. assert (q = once_posted) as ->
      by (revert Hq; unfold once_slots; rewrite !elem_of_cons; by intros [[= ->]|[[= ->]|?%elem_of_nil]]).
    destruct (once_events _ _ Hd He) as [->| ->]; [done|by vm_compute in Hid].
  - intros row Hrow. by apply elem_of_nil in Hrow.
  - exact once_same_clock.
  - intros j received Hin. by rewrite (once_times _ _ Hin).
  - exists claims. apply Hexact. intros row [_ Hrow%final_from]%list_elem_of_filter.
    destruct once_facts as (_ & _ & Hall & _). rewrite forallb_forall in Hall. apply list_elem_of_In, Hall in Hrow.
    by apply negb_true_iff.
Defined.

Lemma table_stays_well_typed_witness :
  length once_run2.2.(w_table) = 2%nat ∧ Forall well_typed once_run2.2.(w_table).
Proof.
  split; [exact once_two_rows|].
  apply (table_stays_well_typed (U:=ToyUUID) (Z0:=ToyGzip) (C:=OnceCodec) (R:=ToyRedis) System.toy_db (500 * Millisecond) once_slots
    sys_start once_log [Ret once_run1.1.2; Ret once_run2.1.2] once_run2.2 once_pool once_orders).
  - constructor.
  - intros i now ->%once_times. by vm_compute.
  - intros body req e Hu. cbn [OnceCodec Unmarshal_BatchRequest] in Hu. case_bool_decide; [|done].
    injection Hu as <-. cbn [Events once_batch]. rewrite !elem_of_cons. by intros [->|[->|?%elem_of_nil]].
Defined.
