(* ===== verification/Service.v ===== *)
(** * The service: its POST endpoints on one world

    services/ingest/cmd/main.go puts the token exchange, the challenges and the batch
    endpoint on one mux, one Redis and one Postgres.  [service_sem] is that world; a
    pool of requests of all kinds runs on it.  The batch endpoint sees the others only
    as the time and the foreign keys of [System.meanwhile] ([project_pool]), so what was
    proved of it alone holds of the service. *)
From S2P Require Import Prelude GoStrings GoTime Prog Embed Limits Proto Validate Crypto Jwx Json.
From S2P Require Import Token Verify Legacy Redis Quota Enrich Http Batch BatchFacts.
From S2P Require Import ControlPlane Attest TokenEndpoint Insert Table System Storage.
#[local] Open Scope Z_scope.

(** ** Requests *)

Inductive ServiceE `{J : JWX} : Type → Type :=
| SBatch {X} (e : IngestE X) : ServiceE X
| SToken {X} (e : TokenE X) : ServiceE X.
#[export] Instance service_batch `{J : JWX} : SubEffect IngestE ServiceE := λ X e, SBatch e.
#[export] Instance service_token `{J : JWX} : SubEffect TokenE ServiceE := λ X e, SToken e.

(** The routes that call something. *)
Inductive posting `{J : JWX} :=
| PostBatch (q : posted)
| PostToken (r : Request)
| PostChallenge (r : Request).

Section handlers.
Context `{J : JWX} `{U : UUIDLib} `{Z0 : Gzip} `{C : BatchCodec} `{T : TokenCodec}.

Definition handle (td : TokenDeps) (q : posting) : Prog ServiceE Response :=
  match q with
  | PostBatch q => lift (serve_batch q)
  | PostToken r => lift (NewToken td r)
  | PostChallenge r => lift (NewChallenge td r)
  end.
End handlers.

(** ** What the other endpoint does to the batch endpoint's Redis *)

Section quiet.
Context {R : RedisLib} {L : RedisLaws R}.

(** A command on keys that are not quota keys, with its waits and repetitions. *)
Lemma served_quiet {X} (op : @Redis (Timed R) → X * @Redis (Timed R)) failed r x r' :
  (∀ r, (op r).2.1 = r.1 ∧ ∀ k, quota_key k → rd_view (op r).2.2 k = rd_view r.2 k) →
  served (R:=Timed R) op failed r x r' → quiet r r'.
Proof.
  intros Hop. induction 1 as [r|r|r x r' _ IH|d r x r' Hd _ IH].
  - left. apply Hop.
  - by left.
  - eapply quiet_trans; [left; apply Hop|done].
  - eapply quiet_trans; [|done]. right. exists d. done.
Qed.

Lemma other_key p k c q : p = String c q → c ≠ "r"%char → c ≠ "q"%char →
  HasPrefix k p = true → ¬ quota_key k.
Proof.
  intros -> Hr Hq Hk [H|H]; by rewrite (HasPrefix_conflict k (String c q) _ c _ q _ eq_refl eq_refl) in H.
Qed.
Lemma throttle_key_free k :
  HasPrefix k "rl:token:" = true ∨ HasPrefix k "rl:challenge:" = true → ¬ quota_key k.
Proof.
  intros [Hk|Hk] [H|H]; apply HasPrefix_spec in Hk as [s ->]; by apply HasPrefix_spec in H as [? ?].
Qed.

Lemma client_rate_clock key ttl (r : @Redis (Timed R)) :
  (clientRateScript (R:=Timed R) key ttl r).2.1 = r.1.
Proof.
  destruct r as [c r]. unfold clientRateScript. simpl.
  destruct (rd_incrby key 1 r) as [[n r2]|]; simpl; [|done]. by destruct (_ || _).
Qed.

(** The token endpoints leave the quota keys alone. *)
Lemma token_quiet `{J : JWX} d X (e : TokenE X) r x r' :
  Millisecond ≤ d.(td_TTL) → own_keys d X e → token_sem (R:=Timed R) X e r x r' → quiet r r'.
Proof.
  intros Httl He H. destruct e as [|c|X [rk dk n rps daily rt dt|key ttl]|X e|X e|]; simpl in *;
    try (subst; by left); try done.
  - destruct He as [Hk Ht]. apply throttle_key_free in Hk.
    eapply served_quiet; [|exact H]. intros [c r1]. cbn [quota_exec]. split.
    + apply client_rate_clock.
    + intros k Hq. apply (clientRateScript_frame (R:=Timed R) (L:=TimedLaws L) key ttl (c, r1) k Ht). by intros ->.
  - destruct e as [n|k v ttl|k]; simpl in *.
    + left. by destruct H as [-> _].
    + destruct He as [Hk ->]. eapply served_quiet; [|exact H]. intros [c r1]. split; [done|].
      intros j Hj. simpl. rewrite rd_set_view, decide_False; [done| |done]. intros ->.
      by apply (other_key "att:{" k "a" "tt:{") in Hj.
    + eapply served_quiet; [|exact H]. intros [c r1]. split; [done|].
      intros j Hj. simpl. destruct (rd_getdel_view k r1 j) as [_ ->].
      rewrite decide_False; [done|]. intros ->. by apply (other_key "att:{" k "a" "tt:{") in Hj.
Qed.
End quiet.

(** ** The world *)

Section service.
Context {J : JWX} {U : UUIDLib} {Z0 : Gzip} {C : BatchCodec} {T : TokenCodec}.
Context {R : RedisLib} {L : RedisLaws R} (skew : Z) (td : TokenDeps).

Record State := { s_world : World (R:=R); s_db : DB }.

(** The answers of the services to the token endpoints.  A lost reply of the install
    statement may have taken effect. *)
Definition token_call (X : Type) (e : TokenE X) (s : State) (a : X) (s' : State) : Prop :=
  s'.(s_world).(w_offsets) = s.(s_world).(w_offsets) ∧
  s'.(s_world).(w_table) = s.(s_world).(w_table) ∧
  token_sem (R:=Timed R) X e s.(s_world).(w_redis) a s'.(s_world).(w_redis) ∧
  match e in TokenE X return X → Prop with
  | TResolveTenant clientID => λ a, s'.(s_db) = s.(s_db) ∧
      match a with Ok t => ResolveTenant s.(s_db) clientID = Ok t | Err _ => True end
  | TIssueInstall t platform subject key tier => λ a,
      (∃ newID id, IssueInstall s.(s_db) t platform subject key tier newID = Ok (id, s'.(s_db)) ∧
         (a = Ok id ∨ a = Err ())) ∨
      (a = Err () ∧ s'.(s_db) = s.(s_db))
  | _ => λ _, s'.(s_db) = s.(s_db)
  end a.

Definition service_sem : semantics ServiceE State := λ X e s a s',
  match e in ServiceE X return X → Prop with
  | SBatch e => λ a, prod_sem s.(s_db) skew _ e s.(s_world) a s'.(s_world) ∧ s'.(s_db) = s.(s_db)
  | SToken e => λ a, ∃ w, meanwhile s.(s_world) w ∧
      token_call _ e {| s_world := w; s_db := s.(s_db) |} a s'
  end a.

(** ** The batch endpoint's view *)

(** The tables the batch endpoint reads. *)
Definition same_static (db db' : DB) : Prop :=
  db'.(tenants) = db.(tenants) ∧ db'.(client_ids) = db.(client_ids) ∧ db'.(quotas) = db.(quotas).

Lemma prod_sem_static db db' X (e : IngestE X) w a w' :
  same_static db db' → prod_sem (R:=R) db' skew X e w a w' → prod_sem (R:=R) db skew X e w a w'.
Proof.
  intros (Ht & Hc & Hq) (w1 & offs & Hm & Haged & H). exists w1, offs. split; [done|]. split; [done|].
  destruct e; try done; simpl in *.
  - destruct H as [-> H]. split; [done|]. destruct e as [key]. destruct a; [|done].
    unfold Resolve, ResolveLegacy in *. by rewrite Ht, Hc in H.
  - destruct H as [-> H]. split; [done|]. destruct a; [|done].
    unfold LimitsFor in *. by rewrite Hq in H.
Qed.

Lemma IssueInstall_static db t p s k tier newID id db' :
  IssueInstall db t p s k tier newID = Ok (id, db') → same_static db db'.
Proof.
  unfold IssueInstall. destruct (select_one _ _) as [[i row]|]; [by intros [= <- <-]|].
  case_bool_decide; [done|]. destruct (negb _); [done|]. by intros [= <- <-].
Qed.

Lemma service_static X (e : ServiceE X) s a s' :
  service_sem X e s a s' → same_static s.(s_db) s'.(s_db).
Proof.
  destruct e as [X e|X e]; simpl.
  - by intros [_ ->].
  - intros (w & _ & _ & _ & _ & H). destruct e; simpl in H; try (by rewrite H).
    + by destruct H as [-> _].
    + destruct H as [(newID & id & H & _)|[_ ->]]; [|done]. by eapply IssueInstall_static.
Qed.

Lemma same_static_trans db db' db'' : same_static db db' → same_static db' db'' → same_static db db''.
Proof. intros (? & ? & ?) (? & ? & ?). split_and!; congruence. Qed.

(** To the batch endpoint the other requests are nothing. *)
Definition batch_call (X : Type) (f : ServiceE X) : option (IngestE X) :=
  match f with SBatch e => Some e | SToken _ => None end.
#[export] Instance service_part : Part IngestE ServiceE :=
  {| part := batch_call; part_inject := λ X (e : IngestE X), eq_refl (Some e) |}.

Definition batch_slot (q : posting) : option posted :=
  match q with PostBatch q => Some q | _ => None end.
Definition batch_part (q : posting) : Prog IngestE Response := serve_slot (batch_slot q).

Definition service_own (X : Type) (f : ServiceE X) : Prop :=
  match f with SBatch _ => True | SToken e => own_keys td _ e end.

Lemma handle_own q : guarantees (λ _ _ _, True) service_own (handle td q).
Proof.
  destruct q as [q|r|r]; cbn [handle].
  - apply (lift_guarantees (λ _ _ _, True) (λ _ _, True)); [by apply guarantees_trivial|done|done].
  - apply (lift_guarantees (λ _ _ _, True) (own_keys td)); [|done|done]. apply (serve_guarantees td (AskToken r)).
  - apply (lift_guarantees (λ _ _ _, True) (own_keys td)); [|done|done]. apply (serve_guarantees td (AskChallenge r)).
Qed.

(** A finished batch request has finished in the batch endpoint's view, alike. *)
Definition ends_alike (qs : list posting) (i : nat) (resp : Response) (p : Prog IngestE Response) : Prop :=
  match qs !! i with Some (PostBatch _) => p = Ret resp | _ => True end.

Lemma handle_aligned qs : aligned (ends_alike qs) (handle td <$> qs) (batch_part <$> qs).
Proof.
  split; [by rewrite !length_fmap|]. intros i q p Hq Hp.
  rewrite list_lookup_fmap in Hq. rewrite list_lookup_fmap in Hp. destruct (qs !! i) as [r|] eqn:Hr; [|done].
  injection Hq as <-. injection Hp as <-.
  destruct r as [r|r|r]; cbn [handle batch_part batch_slot serve_slot].
  - apply runs_part_lift; [by intros X e []|]. intros a. unfold ends_alike. by rewrite Hr.
  - apply runs_part_apart; [|intros a; unfold ends_alike; by rewrite Hr].
    apply (lift_guarantees (λ _ _ _, True) (λ _ _, True)); [by apply guarantees_trivial| |done].
    intros X e _. split; [by intros []|reflexivity].
  - apply runs_part_apart; [|intros a; unfold ends_alike; by rewrite Hr].
    apply (lift_guarantees (λ _ _ _, True) (λ _ _, True)); [by apply guarantees_trivial| |done].
    intros X e _. split; [by intros []|reflexivity].
Qed.

#[export] Instance meanwhile_preorder : PreOrder (meanwhile (R:=R)).
Proof. split; [exact meanwhile_refl|exact meanwhile_trans]. Qed.

(** A call of the service is a call of the batch endpoint or happens meanwhile. *)
Lemma service_call db X (f : ServiceE X) s a s' :
  Millisecond ≤ td.(td_TTL) → service_own X f → same_static db s.(s_db) → service_sem X f s a s' →
  match part f with
  | Some e => prod_sem (R:=R) db skew X e s.(s_world) a s'.(s_world)
  | None => meanwhile s.(s_world) s'.(s_world)
  end.
Proof.
  intros Httl Hown Hst H. destruct f as [X e|X e]; simpl in *.
  - destruct H as [H _]. by eapply prod_sem_static.
  - destruct H as (w & Hm & Ho & Ht & Hr & _). etrans; [exact Hm|]. split; [|done].
    by eapply token_quiet.
Qed.

Lemma project_pool qs s log ps' s' :
  Millisecond ≤ td.(td_TTL) → pool_run service_sem (handle td <$> qs, s) log (ps', s') →
  ∃ ps w, pool_run (prod_sem (R:=R) s.(s_db) skew) (batch_part <$> qs, s.(s_world))
      (omap (part_event (E:=IngestE)) log) (ps, w) ∧
    meanwhile w s'.(s_world) ∧ aligned (ends_alike qs) ps' ps.
Proof.
  intros Httl Hrun.
  apply (pool_run_knowing _ (λ s1, same_static s.(s_db) s1.(s_db))) in Hrun; [|
    intros X f s1 a s2 H1 H2%service_static; by eapply same_static_trans|done].
  eapply (pool_part_slack _ (prod_sem s.(s_db) skew) s_world service_own meanwhile);
    [| |exact Hrun|apply handle_aligned| |done].
  - intros X e v v1 x v2 Hm (w1 & offs & Hm' & Hc). exists w1, offs. split; [by etrans|done].
  - intros X f s1 x s2 Hown [Hs Hst]. by eapply service_call.
  - apply Forall_fmap, Forall_true. apply handle_own.
Qed.

(** ** Properties *)

(** C6: the service refines the batch system: whatever token, challenge and batch
    requests interleave, the calls of the batch requests among them are a run of the
    batch endpoint alone, on the same offsets and table, with the same responses; the
    other endpoints do nothing to its quota keys but let them age. *)
Theorem service_refines_system qs s log ps' s' :
  Millisecond ≤ td.(td_TTL) → pool_run service_sem (handle td <$> qs, s) log (ps', s') →
  ∃ ps w,
    pool_run (prod_sem (R:=R) s.(s_db) skew) (serve_slot <$> (batch_slot <$> qs), s.(s_world))
      (omap (part_event (E:=IngestE)) log) (ps, w) ∧
    w.(w_table) = s'.(s_world).(w_table) ∧ w.(w_offsets) = s'.(s_world).(w_offsets) ∧
    quiet w.(w_redis) s'.(s_world).(w_redis) ∧
    ∀ i q resp, qs !! i = Some (PostBatch q) → ps' !! i = Some (Ret resp) → ps !! i = Some (Ret resp).
Proof.
  intros Httl Hrun. destruct (project_pool _ _ _ _ _ Httl Hrun) as (ps & w & Hrun' & (Hq & Ho & Ht) & Hlen & Hal).
  exists ps, w. split; [by rewrite <-list_fmap_compose|]. split_and!; [done..|].
  intros i q resp Hi Hresp. assert (is_Some (ps !! i)) as [p Hp].
  { apply lookup_lt_is_Some. rewrite <-Hlen. by eapply lookup_lt_Some. }
  specialize (Hal _ _ _ Hresp Hp). unfold ends_alike in Hal. simpl in Hal. rewrite Hi in Hal. congruence.
Qed.

(** C4: the daily budget is a bound on what the service stores: with any number of
    requests of all kinds interleaving over one Redis, control plane, offset store and
    events table, with faults, lost replies and pauses, the rows written for a tenant
    and a day of receipt never exceed the tenant's daily limit. *)
Theorem service_within_daily_budget qs s log ps' s' t at_ B :
  Millisecond ≤ td.(td_TTL) → pool_run service_sem (handle td <$> qs, s) log (ps', s') →
  0 ≤ year_of at_ < 10000 →
  (∀ tier lim, LimitsFor s.(s_db) t tier = Ok lim → 0 < lim.(DailyEvents) ≤ B) →
  (∀ k, quota_key k → rd_view s.(s_world).(w_redis).2 k = None) → skew ≤ 12 * Hour → 0 ≤ B < 2 ^ 52 →
  ∃ new, s'.(s_world).(w_table) = s.(s_world).(w_table) ++ new ∧
    Z.of_nat (count t (unix_day at_) new) ≤ B.
Proof.
  intros Httl Hrun Hat Hlim Hfresh Hskew HB.
  destruct (project_pool _ _ _ _ _ Httl Hrun) as (ps & w & Hrun' & (_ & _ & Ht) & _).
  rewrite Ht. eapply (pool_within_budget s.(s_db) skew t at_ B Hat Hlim); [exact Hrun'| |done..].
  intros p Hp. apply list_elem_of_fmap in Hp as (q & -> & _).
  destruct q as [q|r|r]; [left; by eexists _, _, _|right; by eexists..].
Qed.
End service.

(** ** Witnesses: a challenge, its exchange, and a batch with the token it bought *)
From S2P Require Import ToyJwx BatchProps.

Definition svc_req (challenge : string) : TokenRequest := {|
  ClientId := "c1"; Platform := "ios"; Attestation := "blob"; Challenge := challenge; DeviceHint := "dev" |}.
Definition svc_nonce : string := RawURLEncode (repeat 0 32).
Definition SvcTokenCodec : TokenCodec := {|
  Unmarshal_TokenRequest body :=
    if bool_decide (body = "challenge") then Some (svc_req "")
    else if bool_decide (body = "token") then Some (svc_req svc_nonce) else None;
  Marshal_TokenResponse resp := Some resp.(AccessToken)
|}.

(** The services without faults; the attestor answers [att]. *)
Definition svc_redis (r : @Redis (Timed ToyRedis)) (s : State (R:=ToyRedis)) : State (R:=ToyRedis) :=
  {| s_world := {| w_redis := r; w_offsets := s.(s_world).(w_offsets); w_table := s.(s_world).(w_table) |};
     s_db := s.(s_db) |}.
Definition svc_world (att : string * bool) (X : Type) (f : ServiceE (J:=ToyJWX) X) (s : State (R:=ToyRedis)) :
    X * State (R:=ToyRedis) :=
  match f in ServiceE X return X * State with
  | SBatch e => match e in IngestE X return X * State with
      | IKey e => (match e in KeyE X return X with EKey _ _ => Ok toy_key end, s)
      | e => let out := sys_world _ e s.(s_world) in (out.1, {| s_world := out.2; s_db := s.(s_db) |})
      end
  | SToken e => match e in TokenE X return X * State with
      | TNow => (toy_received, s)
      | TResolveTenant c => (match ResolveTenant s.(s_db) c with Ok t => Ok t | Err _ => Err () end, s)
      | TQuota e => let out := quota_exec (R:=Timed ToyRedis) e s.(s_world).(w_redis) in (out.1, svc_redis out.2 s)
      | TChallenges e => match e in AttestE X return X * State with
          | ARandom n => (Ok (repeat 0 n), s)
          | ASet k v ttl => let out := set_op (R:=Timed ToyRedis) k v ttl s.(s_world).(w_redis) in
              (out.1, svc_redis out.2 s)
          | AGetDel k => let out := getdel_op (R:=Timed ToyRedis) k s.(s_world).(w_redis) in
              (out.1, svc_redis out.2 s)
          end
      | TAttestor e => (match e in AttestorE X return X with AVerify _ _ _ => att end, s)
      | TIssueInstall t p sub k tier =>
          match IssueInstall s.(s_db) t p sub k tier [1; 2] with
          | Ok (id, db) => (Ok id, {| s_world := s.(s_world); s_db := db |})
          | Err _ => (Err (), s)
          end
      end
  end.
Definition svc_prompt (cl : Claims) (ev : event (ServiceE (J:=ToyJWX))) : bool :=
  match ev.(ev_call) in ServiceE X return X → bool with
  | SBatch e => λ x, sys_prompt cl (Ev e x)
  | SToken _ => λ _, true
  end ev.(ev_answer).
Definition svc_ok (s : State (R:=ToyRedis)) : Prop :=
  sys_ok s.(s_world) ∧ same_static System.toy_db s.(s_db).

Lemma svc_redis_ok r s : r.1 = s.(s_world).(w_redis).1 → svc_ok s → svc_ok (svc_redis r s).
Proof. intros Hr [Hs Hst]. split; [|done]. unfold sys_ok in *. by rewrite <-Hs. Qed.

Lemma svc_batch_sem cl X (e : IngestE (J:=ToyJWX)  X) s x w' :
  svc_ok s → sys_world X e s.(s_world) = (x, w') → sys_prompt cl (Ev e x) = true →
  prod_sem (R:=ToyRedis) s.(s_db) (500 * Millisecond) X e s.(s_world) x w' ∧ sys_ok w'.
Proof.
  intros [Hs (Ht & Hc & Hq)] Hx Hp. destruct (sys_world_sem cl X e _ _ _ Hs Hx Hp) as [H Hok].
  split; [|done]. eapply prod_sem_static; [|exact H]. by split_and!.
Qed.

Lemma svc_world_sem att cl X (f : ServiceE (J:=ToyJWX) X) s x s' :
  svc_ok s → svc_world att X f s = (x, s') → svc_prompt cl (Ev f x) = true →
  service_sem (R:=ToyRedis) (500 * Millisecond) X f s x s' ∧ svc_ok s'.
Proof.
  intros Hok Hx Hp. destruct f as [X e|X e].
  - assert (∀ w' : World (R:=ToyRedis), sys_ok w' → svc_ok {| s_world := w'; s_db := s.(s_db) |}) as Hs.
    { intros w' Hw. by destruct Hok. }
    change (sys_prompt cl (Ev e x) = true) in Hp.
    destruct e as [|Y e|Y e| | |Y e| | |]; cbn [svc_world] in Hx;
      try (destruct (sys_world _ _ s.(s_world)) as [y w'] eqn:Hw; cbn [fst snd] in Hx; injection Hx as <- <-;
           destruct (svc_batch_sem cl _ _ s _ _ Hok Hw Hp) as [H Hw']; split; [split; [exact H|done]|by apply Hs]).
    injection Hx as <- <-. split; [|done]. split; [|done]. by apply prod_sem_now.
  - enough (token_call (R:=ToyRedis) X e s x s' ∧ svc_ok s') as [H ?].
    { split; [|done]. exists s.(s_world). split; [apply meanwhile_refl|]. by destruct s. }
    unfold token_call. destruct e as [|c|Y e|Y e|Y e|t p sub k tier]; cbn [svc_world] in Hx.
    + by injection Hx as <- <-.
    + injection Hx as <- <-. split; [|done]. split_and!; [done..|].
      by destruct (ResolveTenant _ _).
    + injection Hx as <- <-. split.
      * split_and!; [done..| |done]. destruct e; exact (served_now (R:=Timed ToyRedis) (quota_exec _) _ _).
      * apply svc_redis_ok; [|done]. destruct e; [apply (allowScript_clock (R:=ToyRedis))|apply (client_rate_clock (R:=ToyRedis))].
    + destruct e as [n|k v ttl|k]; injection Hx as <- <-.
      * split; [|done]. split_and!; [done..| |done]. split; [done|]. split; [by rewrite repeat_length|].
        apply Forall_forall. intros b ->%list_elem_of_In%repeat_spec. by vm_compute.
      * split; [|by apply svc_redis_ok]. split_and!; [done..| |done].
        exact (served_now (R:=Timed ToyRedis) (set_op k v ttl) (Err ()) _).
      * split; [|by apply svc_redis_ok]. split_and!; [done..| |done].
        exact (served_now (R:=Timed ToyRedis) (getdel_op k) (Err ()) _).
    + destruct e. by injection Hx as <- <-.
    + destruct (IssueInstall _ _ _ _ _ _ _) as [[id db]|err] eqn:Hi; injection Hx as <- <-.
      * split; [split_and!; [done..|left; exists [1; 2], id; by split; [|left]]|].
        split; [apply Hok|]. eapply same_static_trans; [apply Hok|]. by eapply IssueInstall_static.
      * split; [|done]. split_and!; [done..|by right].
Qed.

(** The attestor's answer, and the wiring of the endpoints. *)
Record Setting := {
  st_att : string * bool; st_token : TokenDeps (J:=ToyJWX); st_batch : Deps (J:=ToyJWX)
}.

Section toy_run.
Context (st : Setting).

Definition svc_serve (q : posting (J:=ToyJWX)) : Prog (ServiceE (J:=ToyJWX)) Response :=
  handle (U:=ToyUUID) (Z0:=ToyGzip) (C:=ToyCodec) (T:=SvcTokenCodec) st.(st_token) q.
Definition svc_start : State (R:=ToyRedis) := {| s_world := sys_start; s_db := System.toy_db |}.
Definition svc_run1 := run (svc_world st.(st_att)) (svc_serve (PostChallenge (toy_token_request "challenge"))) svc_start.
Definition svc_run2 := run (svc_world st.(st_att)) (svc_serve (PostToken (toy_token_request "token"))) svc_run1.2.
Definition svc_posted : posted (J:=ToyJWX) := {|
  q_order := toy_order; q_deps := st.(st_batch);
  q_request := {| r_Authorization := "Bearer " +:+ svc_run2.1.2.(w_body); r_ContentEncoding := "gzip";
                  r_Body := {| s_bytes := "z:batch"; s_end := EOF |} |} |}.
Definition svc_run3 := run (svc_world st.(st_att)) (svc_serve (PostBatch svc_posted)) svc_run2.2.
Definition svc_requests : list posting :=
  [PostChallenge (toy_token_request "challenge"); PostToken (toy_token_request "token"); PostBatch svc_posted].
Definition svc_log := log_after (svc_world st.(st_att)) 0 (svc_serve <$> svc_requests) svc_start.

(** The caller of the batch. *)
Definition svc_caller : Claims :=
  {| TenantID := "t1"; InstallID := "ins_0102"; Scope := ScopeWriteEvents;
     TrustTier := if st.(st_att).2 : bool then 0 else 1 |}.
Definition svc_responses : list (Prog (ServiceE (J:=ToyJWX)) Response) :=
  [Ret svc_run1.1.2; Ret svc_run2.1.2; Ret svc_run3.1.2].

Lemma svc_pool :
  forallb (λ l, svc_prompt svc_caller l.2) svc_log = true →
  pool_run (service_sem (R:=ToyRedis) (500 * Millisecond)) (svc_serve <$> svc_requests, svc_start)
    svc_log (svc_responses, svc_run3.2).
Proof.
  intros Hp. exact (det_pool (svc_world st.(st_att)) _ (svc_prompt svc_caller) svc_ok (svc_serve <$> svc_requests) svc_start
    (svc_world_sem st.(st_att) svc_caller) Hp (conj eq_refl (conj eq_refl (conj eq_refl eq_refl)))).
Qed.
End toy_run.

(** An attested client: its token is of tier 0. *)
Definition svc_attested : Setting :=
  {| st_att := ("subject", true); st_token := toy_token_deps; st_batch := toy_deps |}.
Definition svc_end : State (R:=ToyRedis) := (svc_run3 svc_attested).2.
Lemma svc_attested_pool :
  pool_run (service_sem (R:=ToyRedis) (500 * Millisecond)) (svc_serve svc_attested <$> svc_requests svc_attested, svc_start)
    (svc_log svc_attested) (svc_responses svc_attested, svc_end).
Proof. apply svc_pool. by vm_compute. Qed.

Lemma service_refines_system_witness :
  length svc_end.(s_world).(w_table) = 2%nat ∧
  ∃ ps w,
    pool_run (prod_sem (R:=ToyRedis) System.toy_db (500 * Millisecond))
      (serve_slot (U:=ToyUUID) (Z0:=ToyGzip) (C:=ToyCodec) <$> (batch_slot <$> svc_requests svc_attested), sys_start)
      (omap (part_event (E:=IngestE)) (svc_log svc_attested)) (ps, w) ∧
    w.(w_table) = svc_end.(s_world).(w_table) ∧ w.(w_offsets) = svc_end.(s_world).(w_offsets) ∧
    quiet w.(w_redis) svc_end.(s_world).(w_redis) ∧
    ∀ i q resp, svc_requests svc_attested !! i = Some (PostBatch q) →
      svc_responses svc_attested !! i = Some (Ret resp) → ps !! i = Some (Ret resp).
Proof.
  split; [by vm_compute|].
  apply (service_refines_system (R:=ToyRedis) (T:=SvcTokenCodec) (500 * Millisecond) toy_token_deps
    (svc_requests svc_attested) svc_start); [by vm_compute|exact svc_attested_pool].
Defined.

Lemma service_within_daily_budget_witness :
  count "t1" (unix_day toy_received) svc_end.(s_world).(w_table) = 2%nat ∧
  ∃ new, svc_end.(s_world).(w_table) = [] ++ new ∧ Z.of_nat (count "t1" (unix_day toy_received) new) ≤ 3.
Proof.
  split; [by vm_compute|].
  apply (service_within_daily_budget (R:=ToyRedis) (T:=SvcTokenCodec) (C:=ToyCodec) (500 * Millisecond) toy_token_deps
    (svc_requests svc_attested) svc_start (svc_log svc_attested) (svc_responses svc_attested) svc_end "t1" toy_received 3).
  - by vm_compute.
  - exact svc_attested_pool.
  - by vm_compute.
  - intros tier lim. unfold LimitsFor. simpl. by case_bool_decide; intros [= <-].
  - done.
  - by vm_compute.
  - done.
Defined.
