(* ===== verification/Jwks.v ===== *)
(** * The key set between the endpoints: published, fetched, cached

    The verifiers of the batch endpoint learn the minter's key from
    GET /.well-known/jwks.json of the same service.  [full_sem] is the world of
    [Service] with that path in it: the signing_keys table, the handler that publishes
    it, the fetch, and the cache of each replica.  A key a verifier is given for the
    minter's kid is the minter's; while the set can be fetched, it is given one. *)
From S2P Require Import Prelude GoStrings GoTime Prog Embed Crypto Jwx Json Http.
From S2P Require Import Token Verify Legacy Redis Quota Enrich Batch ControlPlane Keys Attest TokenEndpoint.
From S2P Require Import Insert System Service.
#[local] Open Scope Z_scope.

(** [jwk.Fetch] given the response to its GET.  It refuses any status but 200, and a
    key set reads back with the keys it was written with. *)
Class SetFetch `{J : JWX} := jwk_Fetch : Response → option JSet.
Class SetFetchLaws (J : JWX) (S : SetCodec) (T : SetFetch) := {
  fetch_status r s : jwk_Fetch r = Some s → w_status r = StatusOK;
  fetch_lookup set r s kid :
    w_body r = Encode_JWKS set → jwk_Fetch r = Some s → LookupKeyID s kid = LookupKeyID set kid
}.

(** GET /.well-known/jwks.json *)
Definition jwks_handler `{J : JWX} `{K : !JWK} `{S : !SetCodec} : Prog KeysE Response :=
  set ← PublicJWKS; Ret (NewJWKS set).

(** Rotation overlaps keys: a published key stays published.  No statement of the
    service retires one. *)
Definition rotated (keys keys' : gmap string KeyRow) : Prop :=
  ∀ kid row, keys !! kid = Some row → row.(k_retired) = false →
    ∃ row', keys' !! kid = Some row' ∧ row'.(k_retired) = false ∧ row'.(k_public) = row.(k_public).
#[export] Instance rotated_preorder : PreOrder rotated.
Proof.
  split; [by intros keys kid row; exists row|]. intros k1 k2 k3 H1 H2 kid row Hk Hr.
  destruct (H1 _ _ Hk Hr) as (row2 & Hk2 & Hr2 & <-). by apply H2.
Qed.

Lemma keys_sem_rotated genuine X (e : KeysE X) keys x keys' :
  keys_sem genuine X e keys x keys' → rotated keys keys'.
Proof. intros H kid row Hk Hr. exists row. split; [by eapply keys_sem_keeps|done]. Qed.

(** ** The cache while sets are good *)

Section cache.
Context `{J : JWX} {W : Type} (H : semantics FetchE W) (I : W → Prop) (good : JSet → Prop) (outages : Prop).

(** As the code leaves it when no fetch fails. *)
Definition settled (v : Verifier) : Prop :=
  (v.(v_set) = None ∧ v.(v_lastRefetch) = zeroTime) ∨
  (is_Some v.(v_set) ∧ v.(v_lastRefetch) = v.(v_fetchedAt)).
Record cache_good (v : Verifier) : Prop := {
  cg_set s : v.(v_set) = Some s → good s;
  cg_settled : ¬ outages → settled v
}.

(** What one resolution of [kid] at [now] comes to. *)
Record resolved (kid : string) (now : Time) (rv : result VerifyErr JKey * Verifier) : Prop := {
  res_cache : cache_good rv.2;
  res_key k : rv.1 = Ok k → ∃ s, good s ∧ jwks_lookup (Some s) kid = Some k;
  res_live : ¬ outages → kid ≠ "" → 0 ≤ now → (∀ s, good s → is_Some (jwks_lookup (Some s) kid)) →
    is_ok rv.1 = true
}.

Context (Hfetch : ∀ w a w', I w → H _ EFetch w a w' → I w' ∧ match a with Some s => good s | None => outages end).

Lemma new_cache_good issuer audience : cache_good (NewVerifier issuer audience).
Proof. split; [done|]. intros _. by left. Qed.
Lemma fetched_good v s now : good s → cache_good (set_fetched (set_lastRefetch v now) s now).
Proof. intros Hs. split; [by intros s' [= <-]|]. intros _. right. by split. Qed.
Lemma failed_good v now : outages → cache_good v → cache_good (set_lastRefetch v now).
Proof. intros Hout [Hset _]. by split. Qed.

Lemma wp_refetch v now w :
  I w → wp H (refetchLocked v now) (λ _ bv w', I w' ∧
    ((∃ s, good s ∧ bv = (true, set_fetched (set_lastRefetch v now) s now)) ∨
     (outages ∧ bv = (false, set_lastRefetch v now)))) w.
Proof.
  intros HI. unfold refetchLocked. rewrite bind_call. intros a w' Ha.
  destruct (Hfetch _ _ _ HI Ha) as [HI' Hg]. destruct a as [s|]; split; eauto.
Qed.

(** A hit. *)
Lemma resolved_hit v kid now k :
  cache_good v → jwks_lookup v.(v_set) kid = Some k → resolved kid now (Ok k, v).
Proof.
  intros Hv Hk. split; [done| |done]. intros k' [= <-]. destruct (v_set v) as [s|] eqn:Hs; [|done].
  exists s. split; [by eapply cg_set|done].
Qed.
(** A miss, from a set that is good. *)
Lemma resolved_miss v kid now e :
  cache_good v → (¬ outages → is_Some v.(v_set)) → jwks_lookup v.(v_set) kid = None →
  resolved kid now (Err e, v).
Proof.
  intros Hv Hset Hk. split; [done|done|]. intros Hout _ _ Hall. destruct (Hset Hout) as [s Hs].
  destruct (Hall s) as [k Hk']; [by eapply cg_set|]. congruence.
Qed.

Lemma wp_lookup_good v kid now w :
  I w → cache_good v → (¬ outages → is_Some v.(v_set)) →
  wp H (key_lookup v kid now) (λ _ rv w', I w' ∧ resolved kid now rv) w.
Proof.
  intros HI Hv Hset. unfold key_lookup. destruct (jwks_lookup (v_set v) kid) as [k|] eqn:Hk.
  { split; [done|]. by apply resolved_hit. }
  destruct (may_refetch v now); [|split; [done|]; by apply resolved_miss].
  apply wp_bind. eapply wp_mono; [|by apply wp_refetch].
  intros tr bv w' [HI' [(s & Hs & ->)|[Hout ->]]].
  - pose proof (fetched_good v s now Hs) as Hg. cbn [v_set set_fetched].
    destruct (jwks_lookup (Some s) kid) as [k|] eqn:Hk'; (split; [done|]).
    + by apply resolved_hit.
    + apply resolved_miss; [done| |done]. by eexists.
  - split; [done|]. apply resolved_miss; [by apply failed_good|by intros ?|done].
Qed.

(** A cache that is refused a fetch has no set to refresh. *)
Lemma settled_waits v now :
  settled v → older_than v now jwksTTL = true → may_refetch v now = false → v.(v_set) = None ∧ now < 0.
Proof.
  intros Hv Hold Hno. apply not_true_iff_false in Hno. rewrite may_refetch_true in Hno.
  destruct Hv as [[Hs Hl]|[Hs Hl]]; rewrite Hl in Hno.
  - split; [done|]. unfold zeroTime, jwksMinRefetch, Second in *. lia.
  - apply not_false_iff_true in Hold. rewrite older_than_TTL in Hold.
    destruct Hold. split; [done|]. unfold jwksTTL, jwksMinRefetch, Minute, Second in *. lia.
Qed.

Lemma wp_key_good v kid now w :
  I w → cache_good v → wp H (key v kid now) (λ _ rv w', I w' ∧ resolved kid now rv) w.
Proof.
  intros HI Hv. unfold key. case_bool_decide as Hkid; [by split; [done|split]|].
  destruct (older_than v now jwksTTL) eqn:Hold; cycle 1.
  { apply older_than_TTL in Hold as [Hs _]. by apply wp_lookup_good. }
  destruct (may_refetch v now) eqn:Hm.
  - apply wp_bind. eapply wp_mono; [|by apply wp_refetch].
    intros tr bv w' [HI' [(s & Hs & ->)|[Hout ->]]]; cbn [negb andb].
    + apply wp_lookup_good; [done|by apply fetched_good|]. by eexists.
    + destruct (older_than (set_lastRefetch v now) now (jwksTTL + jwksStaleGrace)).
      * split; [done|]. split; [|done|done]. by split.
      * apply wp_lookup_good; [done|by apply failed_good|]. by intros ?.
  - rewrite bind_Ret. cbn [negb andb]. destruct (older_than v now (jwksTTL + jwksStaleGrace)) eqn:Hg.
    + split; [done|]. split; [|done|].
      * split; [done|]. intros Hout. left. split; [done|].
        destruct (cg_settled _ Hv Hout) as [[_ ?]|[[s Hs] _]]; [done|].
        destruct (settled_waits v now (cg_settled _ Hv Hout) Hold Hm). congruence.
      * intros Hout _ Hnow. destruct (settled_waits v now (cg_settled _ Hv Hout) Hold Hm). lia.
    + apply older_than_grace in Hg as [Hs _]. by apply wp_lookup_good.
Qed.

Lemma key_resolves v kid now w tr rv w' :
  I w → cache_good v → exec H (key v kid now) w tr rv w' → I w' ∧ resolved kid now rv.
Proof. intros HI Hv. apply (proj1 (wp_exec _ _ _ _) (wp_key_good v kid now w HI Hv)). Qed.
End cache.

(** ** The world with its keys *)

Section full.
Context {J : JWX} {JL : JWXLaws J} {K : JWK} {KL : JWKLaws J JL K}.
Context {S : SetCodec} {F : SetFetch} {FL : SetFetchLaws J S F}.
Context {R : RedisLib} {L : RedisLaws R} (skew : Z) (outages : Prop).

(** A fetch asks the handler, on the table as it is by then.  It fails only if there
    are [outages]. *)
Definition fetch_sem : semantics FetchE (gmap string KeyRow) := λ X e keys a keys',
  rotated keys keys' ∧
  match e in FetchE X return X → Prop with
  | EFetch => λ a,
      match a with
      | Some s => ∃ tr resp, exec (keys_sem ed25519_pair) jwks_handler keys' tr resp keys' ∧ jwk_Fetch resp = Some s
      | None => outages
      end
  end a.

(** The world of the service, the signing keys, and the verifiers of the replicas. *)
Record Full := { f_state : State (R:=R); f_keys : gmap string KeyRow; f_caches : list Verifier }.

(** A request looks its key up at the replica it reached. *)
Definition key_call (X : Type) (e : KeyE X) (s : Full) (a : X) (s' : Full) : Prop :=
  match e in KeyE X return X → Prop with
  | EKey kid now => λ a,
      ∃ i v v' keys tr, s.(f_caches) !! i = Some v ∧ rotated s.(f_keys) keys ∧
        exec fetch_sem (key v kid now) keys tr (a, v') s'.(f_keys) ∧ s'.(f_caches) = <[i:=v']> s.(f_caches)
  end a.

Definition keys_kept (s s' : Full) : Prop := rotated s.(f_keys) s'.(f_keys) ∧ s'.(f_caches) = s.(f_caches).
Definition full_sem : semantics ServiceE Full := λ X e s a s',
  service_sem (R:=R) skew X e s.(f_state) a s'.(f_state) ∧
  match e in ServiceE X return X → Prop with
  | SBatch e =>
      match e in IngestE X return X → Prop with
      | IKey e => λ a, key_call _ e s a s'
      | _ => λ _, keys_kept s s'
      end
  | SToken _ => λ _, keys_kept s s'
  end a.

(** The service is a projection of this world. *)
Lemma full_service {A} (ps ps' : list (Prog ServiceE A)) s log s' :
  pool_run full_sem (ps, s) log (ps', s') →
  pool_run (service_sem (R:=R) skew) (ps, s.(f_state)) log (ps', s'.(f_state)).
Proof. apply (pool_map full_sem _ f_state). by intros X e w x w' [H _]. Qed.

(** ** The minter's key *)

(** The table publishes the other half of the minter's key. *)
Definition holds_key (m : Minter) (keys : gmap string KeyRow) : Prop :=
  m.(m_kid) ≠ "" ∧
  ∃ row priv, keys !! m.(m_kid) = Some row ∧ row.(k_retired) = false ∧
    ed25519_pair row.(k_public) priv ∧ jwk_Import_private priv = Some m.(m_key).
Definition publishes (m : Minter) (s : JSet) : Prop :=
  ∃ k, jwks_lookup (Some s) m.(m_kid) = Some k ∧ keypair m.(m_key) k.

Lemma holds_key_rotated m keys keys' : holds_key m keys → rotated keys keys' → holds_key m keys'.
Proof.
  intros [Hkid (row & priv & Hk & Hr & Hp & Hi)] Hrot. split; [done|].
  destruct (Hrot _ _ Hk Hr) as (row' & Hk' & Hr' & Hpub). exists row', priv. by rewrite Hpub.
Qed.

Lemma published_key m keys tr resp keys' s :
  holds_key m keys → exec (keys_sem ed25519_pair) jwks_handler keys tr resp keys' → jwk_Fetch resp = Some s →
  publishes m s.
Proof.
  intros [_ (row & priv & Hk & Hr & Hp & Hi)] Hexec Hs. unfold jwks_handler in Hexec.
  apply exec_bind in Hexec as (tr1 & set & keys1 & tr2 & Hset & (_ & -> & _) & _).
  pose proof (fetch_status _ _ Hs) as Hok. destruct set as [set|e]; [|done].
  destruct (PublicJWKS_lookup _ _ _ _ _ m.(m_kid) Hset) as [Hl Himp]. destruct (Himp _ Hk Hr) as [pk Hpk].
  rewrite Hk, Hr, Hpk in Hl. simpl in Hl.
  exists (signing_jwk m.(m_kid) pk). split.
  - apply (jwks_lookup_signing _ _ row.(k_public)); [done|]. by rewrite (fetch_lookup set (NewJWKS (Ok set)) _ _ eq_refl Hs).
  - unfold signing_jwk. do 2 apply set_pair. by eapply import_pair.
Qed.

Section invariant.
Context (m : Minter).

Record keys_inv (s : Full) : Prop := {
  ki_table : holds_key m s.(f_keys);
  ki_caches : Forall (cache_good (publishes m) outages) s.(f_caches)
}.

(** What the lookups of the minter's kid answer. *)
Definition minter_told (ev : event ServiceE) : Prop :=
  match ev.(ev_call) in ServiceE X return X → Prop with
  | SBatch e =>
      match e in IngestE X return X → Prop with
      | IKey e =>
          match e in KeyE X return X → Prop with
          | EKey kid now => λ a, kid = m.(m_kid) →
              (∀ k, a = Ok k → keypair m.(m_key) k) ∧ (¬ outages → 0 ≤ now → is_ok a = true)
          end
      | _ => λ _, True
      end
  | SToken _ => λ _, True
  end ev.(ev_answer).

Lemma keys_kept_inv s s' : keys_inv s → keys_kept s s' → keys_inv s'.
Proof.
  intros [Ht Hc] [Hrot Hs]. split; [by eapply holds_key_rotated|]. by rewrite Hs.
Qed.

Lemma key_call_inv X (e : KeyE X) s a s' :
  keys_inv s → key_call X e s a s' → keys_inv s' ∧ minter_told (Ev (SBatch (IKey e)) a).
Proof.
  intros [Ht Hc]. destruct e as [kid now]. intros (i & v & v' & keys & tr & Hv & Hrot & Hexec & Hs).
  pose proof (holds_key_rotated _ _ _ Ht Hrot) as Ht'.
  rewrite Forall_forall in Hc. pose proof (Hc v ltac:(by eapply list_elem_of_lookup_2)) as Hg.
  eapply (key_resolves fetch_sem (holds_key m) (publishes m) outages) in Hexec as [Hend [Hcache Hkey Hlive]];
    [|clear -FL KL|exact Ht'|exact Hg]; cycle 1.
  { intros w x w' Hw [Hr Hx]. pose proof (holds_key_rotated _ _ _ Hw Hr) as Hw'. split; [done|].
    destruct x as [s|]; [|done]. destruct Hx as (tr & resp & Hx & Hs). by eapply published_key. }
  split.
  - split; [done|]. rewrite Hs. apply Forall_insert; [by apply Forall_forall|done].
  - intros Hkid. subst kid. split.
    + intros k Hk. destruct (Hkey k Hk) as (s0 & (k' & Hl & Hp) & Hl'). congruence.
    + intros Hout Hnow. apply Hlive; [done|by destruct Ht|done|]. intros s0 (k & Hl & _). by eexists.
Qed.

Lemma full_step X (f : ServiceE X) s a s' :
  keys_inv s → full_sem X f s a s' → keys_inv s' ∧ minter_told (Ev f a).
Proof.
  intros Hi [_ H]. destruct f as [X e|X e]; [|by split; [by eapply keys_kept_inv|]].
  destruct e; try (by split; [by eapply keys_kept_inv|]). by eapply key_call_inv.
Qed.

(** In every run, the key a lookup of the minter's kid answers is the minter's, and it
    answers one while the set can be fetched. *)
Lemma minter_key_told {A} (c c' : list (Prog ServiceE A) * Full) log i ev :
  pool_run full_sem c log c' → keys_inv c.2 → (i, ev) ∈ log → minter_told ev.
Proof.
  intros Hrun Hi Hin.
  apply (pool_run_knowing _ keys_inv) in Hrun; [|intros X f s a s' H1 H2; by eapply full_step|done].
  apply (pool_answers _ minter_told) in Hrun; [|intros X f s a s' [H1 H2]; by eapply full_step].
  rewrite Forall_forall in Hrun. exact (Hrun _ Hin).
Qed.
End invariant.

(** As the start-up leaves it ([Main.serving_replicas_agree]): the minter signs with the
    active key of the table, and the verifiers are new. *)
Record booted (m : Minter) (keys : gmap string KeyRow) (caches : list Verifier) : Prop := {
  bt_keys : keys_ok ed25519_pair keys;
  bt_minter : ∃ sk issuer audience ttl, select_active keys = Some sk ∧ sk.(KID) ≠ "" ∧
    NewMinter sk.(KID) sk.(Private) issuer audience ttl = Some m;
  bt_caches : Forall (λ v, ∃ issuer audience, v = NewVerifier issuer audience) caches
}.

Lemma booted_inv m s : booted m s.(f_keys) s.(f_caches) → keys_inv m s.
Proof.
  intros [[_ Hall] (sk & issuer & audience & ttl & Hsk & Hkid & Hm) Hc].
  destruct (select_active_Some _ _ Hsk) as (row & Hrow & Ha & Hpriv). split.
  - unfold NewMinter in Hm. destruct (jwk_Import_private _) as [key|] eqn:Hkey; [|done]. injection Hm as <-.
    split; [done|]. exists row, sk.(Private). split_and!; [done| | |done].
    + unfold is_active in Ha. by destruct (k_active row), (k_retired row).
    + rewrite <-Hpriv. by apply (Hall _ _ Hrow).
  - eapply Forall_impl; [exact Hc|]. intros v (iss & aud & ->). apply new_cache_good.
Qed.
End full.

(** ** The run of [Service]'s witnesses, on this world *)
From S2P Require Import ToyJwx BatchProps.

#[export] Instance ToyKey_eq_dec : EqDecision ToyKey.
Proof. solve_decision. Defined.
#[export] Instance ToyKey_countable : Countable ToyKey.
Proof.
  apply (inj_countable' (λ k, (k.(tk_material), k.(tk_kid), k.(tk_use), k.(tk_kty), k.(tk_crv)))
    (λ '(m, i, u, t, c), {| tk_material := m; tk_kid := i; tk_use := u; tk_kty := t; tk_crv := c |})).
  by intros [].
Defined.

(** A set is the text of its encoding as a number. *)
#[export] Instance ToySetCodec : SetCodec (J:=ToyJWX) := λ set : list ToyKey, pos_bits (encode set).
#[export] Instance ToySetFetch : SetFetch (J:=ToyJWX) := λ r,
  if bool_decide (w_status r = StatusOK) then decode (A:=list ToyKey) (bits_pos (w_body r)) else None.
#[export] Instance ToySetFetchLaws : SetFetchLaws ToyJWX ToySetCodec ToySetFetch.
Proof.
  split; unfold jwk_Fetch, ToySetFetch.
  - intros r s. by case_bool_decide.
  - intros set r s kid ->. case_bool_decide; [|done]. unfold Encode_JWKS, ToySetCodec.
    rewrite bits_pos_bits, decode_encode. by intros [= <-].
Qed.

Definition full_keys : gmap string KeyRow :=
  {[ "k1" := {| k_public := "k1"; k_private := "k1"; k_active := true; k_retired := false |} ]}.
#[export] Instance KeyRow_eq_dec : EqDecision KeyRow.
Proof. solve_decision. Defined.
(** A table whose handler can be fetched from. *)
Definition fetchable (keys : gmap string KeyRow) : bool :=
  let out := run (keys_step ("", "")) (jwks_handler (J:=ToyJWX)) keys in
  bool_decide (is_Some (jwk_Fetch out.1.2)) && bool_decide (out.2 = keys).
Definition fetch_world (X : Type) (e : FetchE (J:=ToyJWX) X) (keys : gmap string KeyRow) :
    X * gmap string KeyRow :=
  match e with
  | EFetch => (jwk_Fetch (run (keys_step ("", "")) jwks_handler keys).1.2, keys)
  end.

Definition full_state (s : Full (R:=ToyRedis)) (st : State (R:=ToyRedis)) : Full (R:=ToyRedis) :=
  {| f_state := st; f_keys := s.(f_keys); f_caches := s.(f_caches) |}.
Definition full_world (att : string * bool) (X : Type) (f : ServiceE (J:=ToyJWX) X) (s : Full (R:=ToyRedis)) :
    X * Full (R:=ToyRedis) :=
  match f in ServiceE X return X * Full with
  | SBatch e =>
      match e in IngestE X return X * Full with
      | IKey e =>
          match e in KeyE X return X * Full with
          | EKey kid now =>
              let out := run fetch_world (key (default toy_verifier (head s.(f_caches))) kid now) s.(f_keys) in
              (out.1.2.1, {| f_state := s.(f_state); f_keys := out.2; f_caches := <[0%nat := out.1.2.2]> s.(f_caches) |})
          end
      | e => let out := svc_world att _ (SBatch e) s.(f_state) in (out.1, full_state s out.2)
      end
  | SToken e => let out := svc_world att _ (SToken e) s.(f_state) in (out.1, full_state s out.2)
  end.

Definition full_ok (s : Full (R:=ToyRedis)) : Prop :=
  svc_ok s.(f_state) ∧ fetchable s.(f_keys) = true ∧ length s.(f_caches) = 1%nat.

Lemma fetch_world_sem X (e : FetchE (J:=ToyJWX) X) keys x keys' :
  fetchable keys = true → fetch_world X e keys = (x, keys') → true = true →
  fetch_sem (JL:=ToyJWXLaws) False X e keys x keys' ∧ fetchable keys' = true.
Proof.
  intros Hf Hx _. pose proof Hf as [Hs Hend]%andb_prop. destruct e.
  pose proof (f_equal snd Hx) as Hk. apply (f_equal fst) in Hx.
  cbn [fetch_world fst snd] in Hx, Hk. subst x keys'. split; [|done]. split; [done|].
  apply bool_decide_eq_true in Hs as [s Hs]. apply bool_decide_eq_true in Hend.
  rewrite Hs. exists (run (keys_step ("", "")) jwks_handler keys).1.1,
    (run (keys_step ("", "")) jwks_handler keys).1.2. split; [|done].
  pose proof (run_exec (keys_step ("", "")) (jwks_handler (J:=ToyJWX)) keys) as Hrun. rewrite Hend in Hrun.
  eapply exec_weaken; [|exact Hrun].
  intros X e w x w'. by apply keys_step_sem.
Qed.

Lemma fetched_run v kid now keys :
  fetchable keys = true →
  let out := run fetch_world (key v kid now) keys in
  exec (fetch_sem (JL:=ToyJWXLaws) False) (key v kid now) keys out.1.1 (out.1.2.1, out.1.2.2) out.2 ∧
  fetchable out.2 = true.
Proof.
  intros Hkeys out. rewrite <-surjective_pairing.
  eapply (det_exec fetch_world (fetch_sem False) (λ _, true) (λ w, fetchable w = true));
    [exact fetch_world_sem| |by apply forallb_forall|done].
  unfold out. by destruct (run fetch_world (key v kid now) keys) as [[]].
Qed.

Lemma full_world_sem att cl X (f : ServiceE (J:=ToyJWX) X) s x s' :
  full_ok s → full_world att X f s = (x, s') → svc_prompt cl (Ev f x) = true →
  full_sem (JL:=ToyJWXLaws) (R:=ToyRedis) (500 * Millisecond) False X f s x s' ∧ full_ok s'.
Proof.
  intros (Hok & Hkeys & Hlen) Hx Hp.
  assert (∀ Y (g : ServiceE (J:=ToyJWX) Y) y, (let out := svc_world att _ g s.(f_state) in
      (out.1, full_state s out.2)) = (y, s') → svc_prompt cl (Ev g y) = true →
    service_sem (R:=ToyRedis) (500 * Millisecond) Y g s.(f_state) y s'.(f_state) ∧ keys_kept s s' ∧ full_ok s') as Hsvc.
  { intros Y g y [= <- <-] Hg. destruct (svc_world att Y g s.(f_state)) as [z st] eqn:Hst.
    destruct (svc_world_sem att cl _ _ _ _ _ Hok Hst Hg) as [? ?]. by split_and!. }
  destruct f as [X e|X e]; [|destruct (Hsvc _ _ _ Hx Hp) as (? & ? & ?); by split_and!].
  destruct e as [|Y e|Y e| | |Y e| | |];
    try (destruct (Hsvc _ _ _ Hx Hp) as (? & ? & ?); by split_and!).
  destruct e as [kid now]. cbn [full_world] in Hx.
  destruct (f_caches s) as [|v [|]] eqn:Hv; [done| |done]. cbn [head default] in Hx.
  injection Hx as <- <-. cbn [f_state f_keys f_caches].
  destruct (fetched_run v kid now s.(f_keys) Hkeys) as [Hexec Hend].
  split; [|split_and!; [done|exact Hend|done]]. split.
  - split; [|done]. by apply prod_sem_now.
  - exists 0%nat. do 4 eexists. split; [by rewrite Hv|]. split; [done|]. split; [exact Hexec|]. by rewrite Hv.
Qed.

Section full_run.
Context (st : Setting) (keys : gmap string KeyRow).

Definition full_start : Full (R:=ToyRedis) :=
  {| f_state := svc_start; f_keys := keys; f_caches := [st.(st_batch).(d_Verifier)] |}.
Definition full_run1 := run (full_world st.(st_att)) (svc_serve st (PostChallenge (toy_token_request "challenge"))) full_start.
Definition full_run2 := run (full_world st.(st_att)) (svc_serve st (PostToken (toy_token_request "token"))) full_run1.2.
Definition full_run3 := run (full_world st.(st_att)) (svc_serve st (PostBatch (svc_posted st))) full_run2.2.
Definition full_log := log_after (full_world st.(st_att)) 0 (svc_serve st <$> svc_requests st) full_start.
Definition full_responses : list (Prog (ServiceE (J:=ToyJWX)) Response) :=
  [Ret full_run1.1.2; Ret full_run2.1.2; Ret full_run3.1.2].

Lemma full_pool :
  fetchable keys = true → forallb (λ l, svc_prompt (svc_caller st) l.2) full_log = true →
  pool_run (full_sem (JL:=ToyJWXLaws) (R:=ToyRedis) (500 * Millisecond) False)
    (svc_serve st <$> svc_requests st, full_start) full_log (full_responses, full_run3.2).
Proof.
  intros Hf Hp. exact (det_pool (full_world st.(st_att)) _ (svc_prompt (svc_caller st)) full_ok (svc_serve st <$> svc_requests st)
    full_start (full_world_sem st.(st_att) (svc_caller st)) Hp
    (conj (conj eq_refl (conj eq_refl (conj eq_refl eq_refl))) (conj Hf eq_refl))).
Qed.
End full_run.

Lemma full_booted : booted (JL:=ToyJWXLaws) toy_minter full_keys [toy_verifier].
Proof.
  split.
  - split; [|by apply map_Forall_singleton]. intros k k' r r' H H' _ _. unfold full_keys in H, H'.
    by apply lookup_singleton_Some in H as [<- _], H' as [<- _].
  - exists {| KID := "k1"; Private := "k1" |}, "iss", "aud", (3600 * Second). split; [reflexivity|done].
  - repeat constructor. by exists "iss", "aud".
Qed.
