(* ===== verification/Provenance.v ===== *)
(** * Where a row's credential comes from

    Everything a row says of its origin is server-side: the tenant, the install and
    the tier of a row of the events table are those of a legacy write key of the
    control plane, or those one exchange of the same service gave out, with the calls
    that exchange made.  The chain runs through both endpoints, the signed token in
    between, the published key that checks it, and the installs table. *)
From S2P Require Import Prelude GoStrings GoTime Prog Embed Limits Proto Validate Crypto Jwx Json.
From S2P Require Import Token Verify Legacy Redis Quota Enrich Http Batch BatchFacts.
From S2P Require Import ControlPlane Keys Attest TokenEndpoint Insert Table System Storage Service Jwks.
#[local] Open Scope Z_scope.

(** ** One exchange of the service *)

Section exchange.
Context {J : JWX} {U : UUIDLib} {Z0 : Gzip} {C : BatchCodec} {T : TokenCodec}.
Context {R : RedisLib} {L : RedisLaws R} (skew : Z) (td : TokenDeps).

(** The exchange behind a token response. *)
Lemma exchange_story qs s log ps' s' j r resp :
  pool_run (service_sem (R:=R) skew) (handle td <$> qs, s) log (ps', s') →
  qs !! j = Some (PostToken r) → ps' !! j = Some (Ret resp) → w_status resp = StatusOK →
  ∃ req t sub tier mid id now token exp,
    decode_token r = Ok req ∧
    (j, Ev (SToken (TResolveTenant req.(ClientId))) (Ok t)) ∈ log ∧
    tier_calls req sub tier mid ∧ (∀ ev, ev ∈ mid → (j, lift_event (F:=ServiceE) ev) ∈ log) ∧
    (j, Ev (SToken (TIssueInstall t req.(Platform) sub (deviceKey req) tier)) (Ok id)) ∈ log ∧
    (j, Ev (SToken TNow) now) ∈ log ∧
    Mint td.(td_Minter) {| TenantID := t; InstallID := id; Scope := ScopeWriteEvents;
                           TrustTier := tier |} now = Some (token, exp) ∧
    Marshal_TokenResponse {| AccessToken := token; ExpiresIn := exp; tok_TrustTier := tier |} =
      Some (w_body resp).
Proof.
  intros Hrun Hq Hresp Hok.
  pose proof (pool_local _ _ _ _ _ _ j (handle td (PostToken r)) resp Hrun) as Hexec.
  rewrite list_lookup_fmap, Hq in Hexec. specialize (Hexec eq_refl Hresp). cbn [handle] in Hexec.
  apply lift_exec in Hexec as (tr & Heq & Hexec). apply NewToken_exec in Hexec.
  assert (∀ ev, ev ∈ tr → (j, lift_event (F:=ServiceE) ev) ∈ log) as Hlog.
  { intros ev Hev. apply calls_of_elem. rewrite Heq. by apply list_elem_of_fmap_2. }
  destruct Hexec as [tr resp Href| |req t pre sub tier mid id now Hd Hp Hm]; [|done|].
  { destruct Href as [resp Hd| | |]; try done. apply decode_token_refusal in Hd. by rewrite Hd in Hok. }
  unfold token_respond in *. destruct (Mint _ _ _) as [[token exp]|] eqn:Hmint; [|done].
  destruct (Marshal_TokenResponse _) as [out|] eqn:Hout; [|done].
  exists req, t, sub, tier, mid, id, now, token, exp. split_and!; [done| |done| | | |done|done].
  - apply (Hlog (Ev _ _)). left.
  - intros ev Hev. apply Hlog. right. apply elem_of_app; right. apply elem_of_app. by left.
  - apply (Hlog (Ev _ _)). right. apply elem_of_app; right. apply elem_of_app; right. left.
  - apply (Hlog (Ev _ _)). right. apply elem_of_app; right. apply elem_of_app; right. right. left.
Qed.
End exchange.

Lemma tier_calls_tier req s tier mid : tier_calls req s tier mid → tier = 0 ∨ tier = 1.
Proof. intros []; auto. Qed.

(** ** The installs table and the signed claims *)

Section facts.
Context {J : JWX} {R : RedisLib} {L : RedisLaws R} (skew : Z).

Lemma service_db X (f : ServiceE X) (s s' : State (R:=R)) a :
  service_sem skew X f s a s' →
  s'.(s_db) = s.(s_db) ∨
  ∃ t p sub k tier newID id, IssueInstall s.(s_db) t p sub k tier newID = Ok (id, s'.(s_db)).
Proof.
  destruct f as [X e|X e]; simpl; [by intros [_ ->]; left|].
  intros (w & _ & _ & _ & _ & H). destruct e; simpl in H; try by left.
  - left. by destruct H.
  - destruct H as [(newID & id & H & _)|[_ H]]; [right|by left]. by eexists _, _, _, _, _, _, _.
Qed.

Lemma service_installs_ok X (f : ServiceE X) (s s' : State (R:=R)) a :
  installs_ok s.(s_db).(installs) → service_sem skew X f s a s' → installs_ok s'.(s_db).(installs).
Proof.
  intros Hok [->|(t & p & sub & k & tier & newID & id & H)]%service_db; [done|].
  by eapply IssueInstall_preserves.
Qed.

(** The answers the control plane gives the token endpoints. *)
Definition issued_as (t sub k id : string) (ev : event ServiceE) : Prop :=
  match ev.(ev_call) in ServiceE X return X → Prop with
  | SToken e => match e in TokenE X return X → Prop with
      | TIssueInstall t' _ sub' k' _ => λ a, a = Ok id ∧ (t', sub', k') = (t, sub, k)
      | _ => λ _, False end
  | SBatch _ => λ _, False
  end ev.(ev_answer).
Definition resolves_in (db : DB) (ev : event ServiceE) : Prop :=
  match ev.(ev_call) in ServiceE X return X → Prop with
  | SToken e => match e in TokenE X return X → Prop with
      | TResolveTenant c => λ a, ∀ t, a = Ok t → ResolveTenant db c = Ok t
      | _ => λ _, True end
  | SBatch _ => λ _, True
  end ev.(ev_answer).

(** An issued install stays the identity it was issued to. *)
Lemma install_kept {A} (c c' : list (Prog ServiceE A) * State (R:=R)) log j t p sub k tier id :
  pool_run (service_sem skew) c log c' → installs_ok c.2.(s_db).(installs) →
  (j, Ev (SToken (TIssueInstall t p sub k tier)) (Ok id)) ∈ log →
  ∃ row, c'.2.(s_db).(installs) !! id = Some row ∧ identity_of row = presented t sub k.
Proof.
  intros Hrun Hok Hin.
  apply (pool_run_knowing _ (λ s, installs_ok s.(s_db).(installs))) in Hrun;
    [|intros X f s a s'; apply service_installs_ok|done].
  eapply (pool_event _ (λ s : State, ∃ row, s.(s_db).(installs) !! id = Some row ∧
    identity_of row = presented t sub k) (issued_as t sub k id)); [| |exact Hrun|exact Hin|done].
  - intros X f s a s' [H Hs] Hev. unfold issued_as in Hev. destruct f as [|X e]; [done|].
    destruct e; simpl in *; try done. destruct Hev as [-> [= -> -> ->]].
    destruct H as (w & _ & _ & _ & _ & [(newID & id' & H & [[= ->]|[=]])|[[=] _]]).
    destruct (IssueInstall_spec _ _ _ _ _ _ _ _ _ Hs H) as (row & Hrow & _ & -> & _).
    exists row. split; [apply lookup_insert_eq|done].
  - intros X f s a s' (row & Hrow & Hid) [[->|(t' & p' & sub' & k' & tier' & newID & id' & H)]%service_db Hs];
      [by exists row|].
    destruct (IssueInstall_keeps _ _ _ _ _ _ _ _ _ _ _ Hs H Hrow) as (row' & Hrow' & Hid').
    exists row'. split; [done|congruence].
Qed.

Lemma tenant_resolved {A} (c c' : list (Prog ServiceE A) * State (R:=R)) log j client t :
  pool_run (service_sem skew) c log c' → (j, Ev (SToken (TResolveTenant client)) (Ok t)) ∈ log →
  ResolveTenant c.2.(s_db) client = Ok t.
Proof.
  intros Hrun Hin. apply (pool_run_knowing _ (λ s, same_static c.2.(s_db) s.(s_db))) in Hrun;
    [|intros X f s a s' H1 H2%service_static; by eapply same_static_trans|done].
  apply (pool_answers _ (resolves_in c.2.(s_db))) in Hrun.
  - rewrite Forall_forall in Hrun. exact (Hrun _ Hin t eq_refl).
  - intros X f s a s' [H (_ & Hc & _)]. unfold resolves_in. destruct f as [|X e]; [done|].
    destruct e; try done. simpl in *. destruct H as (w & _ & _ & _ & _ & _ & H). intros t' ->.
    unfold ResolveTenant in *. simpl in H. by rewrite Hc in H.
Qed.
End facts.

Lemma minted_claims `{J : JWX} `{JL : !JWXLaws J} v m c now raw exp k tok now' c' :
  Mint m c now = Some (raw, exp) → keypair m.(m_key) k → jwt_Parse raw k = Some tok →
  accepted v tok now' c' → c.(TrustTier) = 0 ∨ c.(TrustTier) = 1 →
  c'.(TenantID) = c.(TenantID) ∧ c'.(InstallID) = c.(InstallID) ∧ c'.(TrustTier) = c.(TrustTier).
Proof.
  unfold Mint. intros Hmint Hpair Htok Hacc Htier.
  destruct (jwt_Sign _ _ _) as [raw'|] eqn:Hsign; [|done]. injection Hmint as -> _.
  rewrite (sign_parse_token _ _ _ _ _ Hsign Hpair) in Htok. injection Htok as <-.
  destruct Hacc as [_ _ _ _ _ [Ht _] [Hi _] (f & Hf & Hz & Heq)].
  cbn [wire_token tok_claims mint_token] in *. rewrite lookup_fmap in Ht, Hi, Hf. simplify_map_eq.
  split_and!; [done|done|]. destruct Htier as [H|H], Hz as [H'|H']; rewrite H, H' in *; done.
Qed.

Lemma batch_event_in_log `{J : JWX} (i : nat) (ev : event IngestE) (log : list (nat * event ServiceE)) :
  (i, ev) ∈ omap (part_event (E:=IngestE) (F:=ServiceE)) log → (i, lift_event (F:=ServiceE) ev) ∈ log.
Proof.
  intros ([j [X f x]] & Hin & Hev)%list_elem_of_omap. unfold part_event in Hev. simpl in Hev.
  destruct f as [X e|X e]; simpl in Hev; [|done]. by injection Hev as -> <-.
Qed.

Lemma enrich_Row_claims `{U : UUIDLib} e c o now r clamped :
  enrich_Row e c o now = (r, clamped) →
  r.(row_TenantID) = c.(TenantID) ∧ r.(row_InstallID) = c.(InstallID) ∧ r.(row_TrustTier) = c.(TrustTier).
Proof. unfold enrich_Row. destruct (Correct _ _ _) as [ts cl]. by intros [= <- _]. Qed.

(** ** The chain *)

Section provenance.
Context {J : JWX} {JL : JWXLaws J} {K : JWK} {KL : JWKLaws J JL K}.
Context {S : SetCodec} {F : SetFetch} {FL : SetFetchLaws J S F}.
Context {U : UUIDLib} {Z0 : Gzip} {C : BatchCodec} {T : TokenCodec}.
Context {R : RedisLib} {L : RedisLaws R} (skew : Z) (outages : Prop) (earlier : Claims → Prop) (td : TokenDeps).

(** The credential of a batch request. *)
Definition credential (q : posted) : string := stripBearer q.(q_request).(r_Authorization).

(** A token that an exchange of the run responded with. *)
Definition handed_out (qs : list posting) (ps' : list (Prog ServiceE Response)) (raw : string) : Prop :=
  ∃ j r resp out,
    qs !! j = Some (PostToken r) ∧ ps' !! j = Some (Ret resp) ∧ w_status resp = StatusOK ∧
    Marshal_TokenResponse out = Some (w_body resp) ∧ out.(AccessToken) = raw.

(** A token that the service had handed out before the run, with the same key; [earlier]
    says for what claims there were any. *)
Definition outstanding (raw : string) (c : Claims) : Prop :=
  earlier c ∧ (c.(TrustTier) = 0 ∨ c.(TrustTier) = 1) ∧
  ∃ at_ expires_in, Mint td.(td_Minter) c at_ = Some (raw, expires_in).

(** The signature scheme does its work: a batch shows a token that checks against a key
    it was given only if the service gave that token out; a response has one reading. *)
Record unforged (qs : list posting) (log : list (nat * event ServiceE))
    (ps' : list (Prog ServiceE Response)) : Prop := {
  uf_tokens i q kid now k tok :
    qs !! i = Some (PostBatch q) → (i, Ev (SBatch (IKey (EKey kid now))) (Ok k)) ∈ log →
    jwt_Parse (credential q) k = Some tok →
    handed_out qs ps' (credential q) ∨ ∃ c, outstanding (credential q) c;
  uf_readable m m' out :
    Marshal_TokenResponse m = Some out → Marshal_TokenResponse m' = Some out →
    m.(AccessToken) = m'.(AccessToken)
}.

(** What stands behind the tenant, install and tier of a row: a legacy key of the
    control plane, an exchange and the install it got, or a token from before. *)
Inductive origin (qs : list posting) (log : list (nat * event ServiceE)) (db db' : DB) (row : Row) : Prop :=
| from_key i q mode :
    qs !! i = Some (PostBatch q) →
    ResolveLegacy db (credential q) = Ok (row.(row_TenantID), mode) →
    mode = ModeDualAccept ∨ mode = ModeDeprecating →
    row.(row_InstallID) = legacy_install_id (credential q) → row.(row_TrustTier) = 1 →
    origin qs log db db' row
| from_exchange j r req subject mid install :
    qs !! j = Some (PostToken r) → decode_token r = Ok req →
    ResolveTenant db req.(ClientId) = Ok row.(row_TenantID) →
    tier_calls req subject row.(row_TrustTier) mid →
    (∀ ev, ev ∈ mid → (j, lift_event ev) ∈ log) →
    db'.(installs) !! row.(row_InstallID) = Some install →
    identity_of install = presented row.(row_TenantID) subject (deviceKey req) →
    origin qs log db db' row
| from_earlier i q c :
    qs !! i = Some (PostBatch q) → outstanding (credential q) c →
    row.(row_TenantID) = c.(TenantID) → row.(row_InstallID) = c.(InstallID) →
    row.(row_TrustTier) = c.(TrustTier) → origin qs log db db' row.

Lemma claims_origin qs s log ps' s' i q now tra claims isLegacy row :
  pool_run (service_sem (R:=R) skew) (handle td <$> qs, s) log (ps', s') →
  installs_ok s.(s_db).(installs) → unforged qs log ps' →
  (∀ i ev, (i, ev) ∈ log → minter_told outages td.(td_Minter) ev) → qs !! i = Some (PostBatch q) →
  exec any_env (VerifyOrLegacy (F:=IngestE) q.(q_deps).(d_Verifier) q.(q_request).(r_Authorization) now)
    tt tra (Ok claims, isLegacy) tt →
  (∀ ev, ev ∈ tra → (i, lift_event (F:=ServiceE) ev) ∈ log) →
  (∀ key tm, Ev (ILegacy (EResolve key)) (Ok tm) ∈ tra → ResolveLegacy s.(s_db) key = Ok tm) →
  row.(row_TenantID) = claims.(TenantID) → row.(row_InstallID) = claims.(InstallID) →
  row.(row_TrustTier) = claims.(TrustTier) → origin qs log s.(s_db) s'.(s_db) row.
Proof.
  intros Hrun Hdb [Htokens Hread] Hkeys Hq Hexec Hlog Hleg Ht Hi Htier. apply VerifyOrLegacy_exec in Hexec.
  inversion Hexec as [tr c _ Hv| |t mode _ Hm|]; subst.
  - apply Verify_Ok in Hv as (hdr & k & tok & Hhdr & _ & _ & -> & Htok & Hacc).
    pose proof (Hlog _ ltac:(left)) as Hkey. 
    change (jwt_Parse (credential q) k = Some tok) in Htok. change (jws_Parse (credential q) = Some [hdr]) in Hhdr.
    destruct (Htokens _ _ _ _ _ _ Hq Hkey Htok)
      as [(j & r & resp & out & Hr & Hresp & Hok & Hout & Hraw)|(c0 & Hc0)]; cycle 1.
    { pose proof Hc0 as (_ & Htier0 & at_ & exp & Hmint). rewrite (minted_headers _ _ _ _ _ Hmint) in Hhdr.
      injection Hhdr as <-. destruct (Hkeys _ _ Hkey eq_refl) as [Hpair _]. specialize (Hpair k eq_refl).
      destruct (minted_claims _ _ _ _ _ _ _ _ _ _ Hmint Hpair Htok Hacc Htier0) as (H1 & H2 & H3).
      eapply from_earlier; [exact Hq|exact Hc0|congruence..]. }
    destruct (exchange_story _ _ _ _ _ _ _ _ _ _ Hrun Hr Hresp Hok)
      as (req & t & sub & tier & mid & id & at_ & token & exp & Hd & Hres & Hcalls & Hmid & Hins & _ & Hmint & Hbody).
    pose proof (Hread _ _ _ Hout Hbody) as Ht0. cbn [AccessToken] in Ht0. rewrite <-Hraw, Ht0 in Htok, Hhdr.
    rewrite (minted_headers _ _ _ _ _ Hmint) in Hhdr. injection Hhdr as <-.
    destruct (Hkeys _ _ Hkey eq_refl) as [Hpair _]. specialize (Hpair k eq_refl).
    destruct (minted_claims _ _ _ _ _ _ _ _ _ _ Hmint Hpair Htok Hacc) as (H1 & H2 & H3);
      [by eapply tier_calls_tier|]. cbn [TenantID InstallID TrustTier] in *.
    destruct (install_kept _ _ _ _ _ _ _ _ _ _ _ Hrun Hdb Hins) as (irow & Hrow & Hid).
    eapply from_exchange; [exact Hr|exact Hd|..].
    + rewrite Ht, H1. exact (tenant_resolved _ _ _ _ _ _ _ Hrun Hres).
    + rewrite Htier, H3. exact Hcalls.
    + exact Hmid.
    + rewrite Hi, H2. exact Hrow.
    + rewrite Ht, H1. exact Hid.
  - eapply from_key; [exact Hq|..|exact Hm|exact Hi|exact Htier]. rewrite Ht. apply Hleg. left.
Qed.

Section run.
Context (qs : list posting) (s s' : Full (R:=R)) (log : list (nat * event ServiceE)) (ps' : list (Prog ServiceE Response)).
Abbreviation db := s.(f_state).(s_db).
Abbreviation db' := s'.(f_state).(s_db).
Abbreviation table s := s.(f_state).(s_world).(w_table).

(** What the start-up leaves: the minter's key, new verifiers, the lifetime of challenges. *)
Record started : Prop := {
  sd_booted : booted td.(td_Minter) s.(f_keys) s.(f_caches);
  sd_ttl : Millisecond ≤ td.(td_TTL)
}.
(** A run of the whole service. *)
Record service_run : Prop := {
  sr_run : pool_run (full_sem (R:=R) skew outages) (handle td <$> qs, s) log (ps', s');
  sr_orders q : PostBatch q ∈ qs → any_order q.(q_order);
  sr_installs : installs_ok db.(installs);
  sr_unforged : unforged qs log ps'
}.

Lemma row_origin_known row :
  started → service_run → row ∈ table s' → row ∈ table s ∨ ∃ r, row = stored r ∧ origin qs log db db' r.
Proof.
  intros [Hboot Httl] [Hfull Horder Hdb Huf] Hrow. pose proof (full_service _ _ _ _ _ _ _ Hfull) as Hrun.
  assert (∀ i ev, (i, ev) ∈ log → minter_told outages td.(td_Minter) ev) as Hkeys.
  { intros i ev. by apply (minter_key_told skew outages td.(td_Minter) _ _ _ _ _ Hfull), booted_inv. }
  destruct (project_pool _ _ _ _ _ _ _ Httl Hrun) as (ps & w & Hrun' & Hm & _).
  rewrite (meanwhile_table _ _ Hm) in Hrow.
  rewrite (list_fmap_compose batch_slot serve_slot qs : batch_part <$> qs = _) in Hrun'.
  assert (orders_ok (batch_slot <$> qs)) as Hok.
  { intros q (q' & Hq' & Hin)%list_elem_of_fmap. destruct q'; try done. injection Hq' as ->. by apply Horder. }
  destruct (table_story _ _ _ _ _ _ _ _ Hrun' Hok Hrow) as [Hold|(r & -> & Hstory)]; [by left|].
  right. exists r. split; [done|].
  destruct Hstory as [(i & q & now & claims & isLegacy & tra & req & e & o & cl & Hq & _ & Hexec & Htra & _ & _ & _ & Hr & _)].
  apply enrich_Row_claims in Hr as (H1 & H2 & H3).
  rewrite list_lookup_fmap in Hq. destruct (qs !! i) as [[q'| |]|] eqn:Hqi; try done. injection Hq as ->.
  eapply claims_origin; [exact Hrun|exact Hdb|exact Huf|exact Hkeys|exact Hqi|exact Hexec| | |exact H1|exact H2|exact H3].
  - intros ev Hev. by apply batch_event_in_log, Htra.
  - intros key tm Hev%Htra.
    apply (pool_answers _ (λ ev, prod_answer db _ ev.(ev_call) ev.(ev_answer))) in Hrun';
      [|intros X f w0 x w0'; apply prod_answers].
    rewrite Forall_forall in Hrun'. exact (Hrun' _ Hev).
Qed.

(** ** Properties *)

(** C1: no row speaks for itself: whatever requests of all kinds interleave, with faults,
    lost replies and JWKS outages, every row the run adds has the tenant, install and
    tier of a legacy key that resolves and is not cut off, or those of an exchange of
    the run: the tenant its client id resolves to, the tier its attestation earned it,
    and an install that is still, at the end, the identity it presented; or, if tokens
    were outstanding when the run began, those of one of them.  Nobody forges
    signatures. *)
Theorem rows_have_provenance row :
  started → service_run → row ∈ table s' → row ∈ table s ∨ ∃ r, row = stored r ∧ origin qs log db db' r.
Proof. apply row_origin_known. Qed.

(** C10: as main.go wires it, nothing is Tier 0: with the attestor that never verifies,
    every row the service stores, by whatever interleaving, has trust tier 1; tokens from
    before are such too. *)
Theorem noop_attestor_means_tier1 :
  started → service_run → table s = [] → (∀ c, earlier c → c.(TrustTier) = 1) →
  (∀ j platform blob challenge v,
     (j, Ev (SToken (TAttestor (AVerify platform blob challenge))) v) ∈ log →
     v = Noop _ (AVerify platform blob challenge)) →
  Forall (λ row, row !! "trust_tier" = Some (CUInt 1)) (table s').
Proof.
  intros Hst Hrun Hempty Hearlier Hnoop. apply Forall_forall. intros row Hrow.
  destruct (row_origin_known _ Hst Hrun Hrow) as [Hold|(r & -> & Ho)].
  { rewrite Hempty in Hold. by apply elem_of_nil in Hold. }
  change (stored r !! "trust_tier") with (Some (CUInt r.(row_TrustTier))). do 2 f_equal.
  destruct Ho as [| j rq req sub mid irow _ _ _ Hcalls Hmid _ _|i q c _ (Hc & _) _ _ ->];
    [done| |by apply Hearlier].
  remember (row_TrustTier r) as tier eqn:Htier. destruct Hcalls as [sub _| | |]; try done.
  discriminate (Hnoop j _ _ _ _ (Hmid _ ltac:(right; left))).
Qed.
End run.
End provenance.

(** ** Witnesses: an attested and an unattested client *)
From S2P Require Import ToyJwx BatchProps.

Lemma full_unforged st keys :
  w_status (full_run2 st keys).1.2 = StatusOK →
  bool_decide (credential (svc_posted st) = w_body (full_run2 st keys).1.2) = true →
  unforged (J:=ToyJWX) (T:=SvcTokenCodec) (λ _, False) st.(st_token) (svc_requests st) (full_log st keys) (full_responses st keys).
Proof.
  intros Hok Hbody%bool_decide_eq_true. split.
  - intros i q kid now k tok Hq _ _. assert (q = svc_posted st) as ->.
    { apply list_elem_of_lookup_2 in Hq. unfold svc_requests in Hq. rewrite !elem_of_cons in Hq.
      by destruct Hq as [[=]|[[=]|[[=]|?%elem_of_nil]]]. }
    left. exists 1%nat, (toy_token_request "token"), (full_run2 st keys).1.2,
      {| AccessToken := w_body (full_run2 st keys).1.2; ExpiresIn := 0; tok_TrustTier := 0 |}.
    split; [reflexivity|]. split; [reflexivity|]. split; [exact Hok|]. split; [reflexivity|]. by symmetry.
  - intros m m' out [= <-] [= H]. by symmetry.
Qed.

Lemma svc_orders st q : PostBatch q ∈ svc_requests st → any_order q.(q_order).
Proof.
  unfold svc_requests. rewrite !elem_of_cons.
  intros [[=]|[[=]|[[= ->]|?%elem_of_nil]]]; [exact toy_order_ok|done].
Qed.
Lemma svc_installs_ok : installs_ok svc_start.(s_db).(installs).
Proof. split; [intros ? ? ? ? [=]|intros ? ? [=]]. Qed.

(** What makes a toy run one of the service, but for its start-up. *)
Definition full_checked (st : Setting) (keys : gmap string KeyRow) : bool :=
  fetchable keys && forallb (λ l, svc_prompt (svc_caller st) l.2) (full_log st keys) &&
  bool_decide (w_status (full_run2 st keys).1.2 = StatusOK) &&
  bool_decide (credential (svc_posted st) = w_body (full_run2 st keys).1.2).

Lemma full_service_run st keys :
  full_checked st keys = true →
  service_run (JL:=ToyJWXLaws) (R:=ToyRedis) (U:=ToyUUID) (Z0:=ToyGzip) (C:=ToyCodec) (T:=SvcTokenCodec)
    (500 * Millisecond) False (λ _, False) st.(st_token) (svc_requests st) (full_start st keys) (full_run3 st keys).2
    (full_log st keys) (full_responses st keys).
Proof.
  intros [[[Hf Hp]%andb_prop Hok]%andb_prop Hcred]%andb_prop. split.
  - exact (full_pool st keys Hf Hp).
  - apply svc_orders.
  - exact svc_installs_ok.
  - apply full_unforged; [exact (bool_decide_eq_true_1 _ Hok)|exact Hcred].
Qed.

Lemma toy_started att :
  started (JL:=ToyJWXLaws) toy_token_deps
    (full_start {| st_att := att; st_token := toy_token_deps; st_batch := toy_deps |} full_keys).
Proof. split; [exact full_booted|by vm_compute]. Qed.

(** The attested client's run. *)
Definition full_end : Full (R:=ToyRedis) := (full_run3 svc_attested full_keys).2.

(** The first row of the batch, with the attested install. *)
Definition full_row : gmap string cell := default ∅ (head full_end.(f_state).(s_world).(w_table)).

Lemma rows_have_provenance_witness :
  full_row !! "trust_tier" = Some (CUInt 0) ∧
  (full_row ∈ [] ∨ ∃ r, full_row = stored r ∧
    origin (Z0:=ToyGzip) (T:=SvcTokenCodec) (λ _, False) toy_token_deps (svc_requests svc_attested) (full_log svc_attested full_keys)
      System.toy_db full_end.(f_state).(s_db) r).
Proof.
  split; [by vm_compute|].
  apply (rows_have_provenance (JL:=ToyJWXLaws) (R:=ToyRedis) (U:=ToyUUID) (C:=ToyCodec) (500 * Millisecond) False (λ _, False)
    toy_token_deps (svc_requests svc_attested) (full_start svc_attested full_keys) full_end (full_log svc_attested full_keys)
    (full_responses svc_attested full_keys)).
  - apply toy_started.
  - apply (full_service_run svc_attested full_keys). vm_compute. reflexivity.
  - assert (∀ l : list (gmap string cell), length l = 2%nat → default ∅ (head l) ∈ l) as Hhead
      by (intros [|row l]; [done|left]).
    apply Hhead. by vm_compute.
Defined.

(** The client without an attestation. *)
Definition svc_plain : Setting := {| st_att := ("", false); st_token := toy_token_deps; st_batch := toy_deps |}.
Definition is_noop (ev : event (ServiceE (J:=ToyJWX))) : bool :=
  match ev.(ev_call) in ServiceE X return X → bool with
  | SToken e => match e in TokenE X return X → bool with
      | TAttestor e => match e in AttestorE X return X → bool with
          | AVerify _ _ _ => λ v, bool_decide (v = ("", false))
          end
      | _ => λ _, true end
  | SBatch _ => λ _, true
  end ev.(ev_answer).

Lemma noop_attestor_means_tier1_witness :
  length (full_run3 svc_plain full_keys).2.(f_state).(s_world).(w_table) = 2%nat ∧
  Forall (λ row, row !! "trust_tier" = Some (CUInt 1)) (full_run3 svc_plain full_keys).2.(f_state).(s_world).(w_table).
Proof.
  split; [by vm_compute|].
  apply (noop_attestor_means_tier1 (JL:=ToyJWXLaws) (R:=ToyRedis) (U:=ToyUUID) (C:=ToyCodec) (Z0:=ToyGzip)
    (T:=SvcTokenCodec) (500 * Millisecond) False (λ _, False) toy_token_deps (svc_requests svc_plain) (full_start svc_plain full_keys)
    (full_run3 svc_plain full_keys).2 (full_log svc_plain full_keys) (full_responses svc_plain full_keys)).
  - apply toy_started.
  - apply (full_service_run svc_plain full_keys). vm_compute. reflexivity.
  - done.
  - done.
  - assert (forallb (λ l, is_noop l.2) (full_log svc_plain full_keys) = true) as Hall by (by vm_compute).
    intros j platform blob challenge v Hin. rewrite forallb_forall in Hall.
    apply list_elem_of_In, Hall in Hin. exact (bool_decide_eq_true_1 _ Hin).
Defined.
