(* ===== verification/Accepted.v ===== *)
(** * What a client gets for its token

    The other direction of [Provenance]: the token an exchange gave out works at the
    batch endpoint, whatever else goes on, while the key set can be fetched and the
    token is in time; and what its batches store is under the exchange's tenant,
    install and tier.  The service is the one [Main] starts. *)
From S2P Require Import Prelude GoStrings GoTime Prog Embed Proto Validate Crypto Jwx Json Http.
From S2P Require Import Token Verify Legacy Redis Quota Enrich Batch BatchFacts ControlPlane Keys Attest TokenEndpoint.
From S2P Require Import Insert Table System Storage Service Jwks Provenance MigrationFiles PgMigrate ChMigrate Main.
#[local] Open Scope Z_scope.

(** No install has the empty id: a new one starts with [ins_]. *)
Lemma IssueInstall_named db t p s k tier newID id db' :
  db.(installs) !! "" = None → IssueInstall db t p s k tier newID = Ok (id, db') →
  db'.(installs) !! "" = None.
Proof.
  intros Hn. unfold IssueInstall. destruct (select_one _ _) as [[i row]|] eqn:Hs.
  - intros [= <- <-]. apply select_one_Some in Hs as [Hi _]. cbn [installs set_installs].
    rewrite lookup_insert_ne; [done|]. by intros ->; rewrite Hn in Hi.
  - case_bool_decide; [done|]. destruct (negb _); [done|]. intros [= <- <-]. cbn [installs set_installs].
    by rewrite lookup_insert_ne.
Qed.

Section accepted.
Context {J : JWX} {JL : JWXLaws J} {K : JWK} {KL : JWKLaws J JL K}.
Context {S : SetCodec} {F : SetFetch} {FL : SetFetchLaws J S F}.
Context {U : UUIDLib} {Z0 : Gzip} {C : BatchCodec} {T : TokenCodec}.
Context {R : RedisLib} {L : RedisLaws R} (skew : Z) (outages : Prop) (earlier : Claims → Prop).

Lemma installs_named {A} (c c' : list (Prog ServiceE A) * State (R:=R)) log :
  pool_run (service_sem skew) c log c' → c.2.(s_db).(installs) !! "" = None →
  c'.2.(s_db).(installs) !! "" = None.
Proof.
  apply (pool_invariant _ (λ s, s.(s_db).(installs) !! "" = None)).
  intros X f s a s' Hn [->|(t & p & sub & k & tier & newID & id & H)]%service_db; [done|].
  by eapply IssueInstall_named.
Qed.

(** An insert of a batch request, among the calls of the service. *)
Lemma insert_of_batch (tr : list (event IngestE)) rows a :
  Ev (E:=ServiceE) (SBatch (IInsert rows)) a ∈ lift_event (F:=ServiceE) <$> tr → (rows, a) ∈ inserts tr.
Proof.
  intros (ev & Hev & Hin)%list_elem_of_fmap.
  apply (f_equal (λ ev, part_event (E:=IngestE) (0%nat, ev))) in Hev.
  change (Some (0%nat, Ev (IInsert rows) a) = part_event (0%nat, lift_event (F:=ServiceE) ev)) in Hev.
  assert (part_event (E:=IngestE) (0%nat, lift_event (F:=ServiceE) ev) = Some (0%nat, ev)) as Hpart by by destruct ev.
  rewrite Hpart in Hev. apply (inj Some), (f_equal snd) in Hev. cbn [snd] in Hev. subst ev.
  apply list_elem_of_omap. by exists (Ev (IInsert rows) a).
Qed.

Section run.
Context (td : TokenDeps) (qs : list posting) (s s' : Full (R:=R)) (log : list (nat * event ServiceE)) (ps' : list (Prog ServiceE Response)).
Abbreviation db := s.(f_state).(s_db).

(** The names in the control plane are not empty. *)
Definition named : Prop :=
  (∀ client t, ResolveTenant db client = Ok t → t ≠ "") ∧ db.(installs) !! "" = None.

(** Batch [i] comes in time for the token of exchange [j]. *)
Definition in_lifetime (j i : nat) : Prop :=
  ∀ minted received, (j, Ev (SToken TNow) minted) ∈ log → (i, Ev (SBatch INow) received) ∈ log →
    0 ≤ received ∧ minted - clockSkew ≤ received ≤ wire_time (minted + td.(td_Minter).(m_ttl)) + clockSkew.

(** The claims an exchange is given out for. *)
Definition exchanged (j : nat) (r : Request) (claims : Claims) : Prop :=
  ∃ req subject mid, decode_token r = Ok req ∧
    ResolveTenant db req.(ClientId) = Ok claims.(TenantID) ∧
    tier_calls req subject claims.(TrustTier) mid ∧ (∀ ev, ev ∈ mid → (j, lift_event ev) ∈ log) ∧
    (j, Ev (SToken (TIssueInstall claims.(TenantID) req.(Platform) subject (deviceKey req) claims.(TrustTier)))
       (Ok claims.(InstallID))) ∈ log.

(** Batch [q], number [i], shows the token that exchange [r], number [j], gave out, in time. *)
Record token_shown (j : nat) (r : Request) (i : nat) (q : posted) : Prop := {
  ts_exchange : qs !! j = Some (PostToken r);
  ts_token : ∃ resp out, ps' !! j = Some (Ret resp) ∧ w_status resp = StatusOK ∧
    Marshal_TokenResponse out = Some (w_body resp) ∧
    q.(q_request).(r_Authorization) = "Bearer " +:+ out.(AccessToken);
  ts_batch : qs !! i = Some (PostBatch q);
  ts_time : in_lifetime j i
}.

(** It is let in, and what it stores belongs to the exchange. *)
Definition honoured (j : nat) (r : Request) (i : nat) (resp : Response) : Prop :=
  ∃ claims, exchanged j r claims ∧ w_status resp ≠ StatusUnauthorized ∧
    ∀ rows a, (i, Ev (SBatch (IInsert rows)) a) ∈ log → Forall (carries claims) rows.

(** The verifier's answer to a token in time. *)
Lemma token_verifies m claims minted raw exp v received tra auth isLegacy i :
  keys_inv outages m s → pool_run (full_sem skew outages) (handle td <$> qs, s) log (ps', s') → ¬ outages →
  Mint m claims minted = Some (raw, exp) →
  exec any_env (VerifyOrLegacy (F:=IngestE) v ("Bearer " +:+ raw) received) tt tra (auth, isLegacy) tt →
  (∀ ev, ev ∈ tra → (i, lift_event (F:=ServiceE) ev) ∈ log) → 0 ≤ received →
  accepted v (wire_token (mint_token m claims minted)) received claims → auth = Ok claims.
Proof.
  intros Hinv Hrun Hout Hmint Hexec Hlog Hpos Hacc.
  destruct (minted_run _ _ _ _ _ _ _ _ _ _ Hmint Hexec) as (a & -> & Hres).
  pose proof (Hlog _ ltac:(left)) as Hin.
  destruct (minter_key_told _ _ _ _ _ _ _ _ Hrun Hinv Hin eq_refl) as [Hpair Hlive].
  specialize (Hlive Hout Hpos). cbn in Hpair, Hlive. destruct a as [pk|e]; [|done].
  rewrite (Hres pk eq_refl (Hpair pk eq_refl)). by apply check_claims_spec.
Qed.

Lemma token_is_accepted j r i q resp :
  started td s → service_run skew outages earlier td qs s s' log ps' → ¬ outages → named → token_shown j r i q →
  td.(td_Minter).(m_issuer) = q.(q_deps).(d_Verifier).(v_issuer) →
  td.(td_Minter).(m_audience) = q.(q_deps).(d_Verifier).(v_audience) → ps' !! i = Some (Ret resp) →
  honoured j r i resp.
Proof.
  intros [Hboot _] [Hfull _ Hdb [_ Hread]] Hout [Htn Hin] [Hr (respj & out & Hrespj & Hok & Hbodyj & Hcred) Hq Hlife]
    Hiss Haud Hresp.
  pose proof (full_service _ _ _ _ _ _ _ Hfull) as Hrun.
  destruct (exchange_story _ _ _ _ _ _ _ _ _ _ Hrun Hr Hrespj Hok)
    as (req & t & sub & tier & mid & id & minted & token & exp & Hd & Hres & Hcalls & Hmid & Hins & Hnow & Hmint & Hbody).
  rewrite (Hread _ _ _ Hbodyj Hbody) in Hcred. cbn [AccessToken] in Hcred.
  set (claims := {| TenantID := t; InstallID := id; Scope := ScopeWriteEvents; TrustTier := tier |}) in *.
  pose proof (tenant_resolved _ _ _ _ _ _ _ Hrun Hres) as Ht. cbn [snd] in Ht.
  exists claims. split; [by exists req, sub, mid|].
  pose proof (pool_local _ _ _ _ _ _ i (handle td (PostBatch q)) resp Hrun) as Hexec.
  rewrite list_lookup_fmap, Hq in Hexec. specialize (Hexec eq_refl Hresp). cbn [handle] in Hexec.
  apply lift_exec in Hexec as (tr & Heq & Hexec). apply NewBatch_exec in Hexec.
  assert (∀ ev, ev ∈ tr → (i, lift_event (F:=ServiceE) ev) ∈ log) as Hlog.
  { intros ev Hev. apply calls_of_elem. rewrite Heq. by apply list_elem_of_fmap_2. }
  destruct (outcome_authentication _ _ _ _ _ Hexec)
    as (received & tra & auth & isLegacy & rest & -> & Hauth & Hthen).
  destruct (Hlife minted received Hnow (Hlog _ ltac:(left))) as [Hpos Htime].
  rewrite Hcred in Hauth.
  eapply (token_verifies td.(td_Minter) claims) in Hauth; [| |exact Hfull|exact Hout|exact Hmint| |exact Hpos|].
  - destruct (Hthen claims Hauth) as [Hst Hrows]. split; [exact Hst|]. intros rows a Hev.
    apply (Hrows rows a), insert_of_batch. rewrite <-Heq. by apply calls_of_elem.
  - by apply booted_inv.
  - intros ev Hev. apply Hlog. right. apply elem_of_app. by left.
  - apply minted_accepted; cbn [TenantID InstallID TrustTier Scope claims]; [done|done| | |done|by eapply tier_calls_tier|done].
    + by eapply Htn.
    + destruct (install_kept _ _ _ _ _ _ _ _ _ _ _ Hrun Hdb Hins) as (irow & Hrow & _).
      pose proof (installs_named _ _ _ Hrun Hin) as Hnone. intros ->. by rewrite Hnone in Hrow.
Qed.
End run.

(** C2: a token works: let any number of replicas start up on shared databases, with
    whatever failures, and one of them begin to serve.  While the key set can be
    fetched, whatever token, challenge and batch requests then interleave on that
    world, with faults, lost replies, key rotations and several replicas' key caches, a
    batch that shows the token of a finished exchange within its lifetime is never
    answered 401, and every row it inserts carries the tenant the exchange's client id
    resolves to, the install it was issued, and the tier it earned. *)
Theorem exchanged_token_is_accepted entries ch_entries content ch_content runs n w0 started_log started_ps w k srv
    ended qs s s' log ps' j r i q resp :
  NoDup (e_Name <$> entries) →
  (∀ name, name ∈ migration_names entries → is_Some (content !! name)) →
  w0.(m_pg).2 = false → w0.(m_pg).1.(tx) = None →
  keys_ok ed25519_pair w0.(m_keys) → w0.(m_keys) !! "" = None →
  pool_run (main_sem entries ch_entries content ch_content runs ed25519_pair) (replicate n main, w0)
    started_log (started_ps, w) →
  (k, Ev (MServe srv) ended) ∈ started_log →
  s.(f_keys) = w.(m_keys) → Forall (λ v, ∃ issuer audience, v = NewVerifier issuer audience) s.(f_caches) →
  service_run skew outages earlier srv.(s_token) qs s s' log ps' → ¬ outages → named s →
  token_shown srv.(s_token) qs log ps' j r i q → q.(q_deps) = srv.(s_batch) → ps' !! i = Some (Ret resp) →
  honoured s log j r i resp.
Proof.
  intros Hnd Hcontent Hlock Htx Hk0 Hname Hmain Hserve Hkeys Hcaches Hrun Hout Hnamed Hshown Hdeps Hresp.
  destruct (serving_replica _ _ _ _ _ _ _ _ _ _ _ _ _ _ Hnd Hcontent Hlock Htx Hk0 Hname Hmain Hserve)
    as (_ & Hk & sk & issuer & audience & Hsk & Hkid & Hm & Hv & Httl).
  assert (started srv.(s_token) s) as Hst.
  { split; [|by rewrite Httl]. rewrite Hkeys. split; [done| |done]. by exists sk, issuer, audience, (45 * Minute). }
  assert (srv.(s_token).(td_Minter).(m_issuer) = issuer ∧ srv.(s_token).(td_Minter).(m_audience) = audience) as [Hi Ha].
  { unfold NewMinter in Hm. destruct (jwk_Import_private _); [|done]. by injection Hm as <-. }
  eapply token_is_accepted; [exact Hst|exact Hrun|exact Hout|exact Hnamed|exact Hshown| | |exact Hresp];
    by rewrite Hdeps, Hv.
Qed.
End accepted.

(** ** Witness: the client of [Service]'s witnesses, at the replica of [Main]'s *)
From S2P Require Import ToyJwx BatchProps.

Definition boot_srv : Server (J:=ToyJWX) :=
  wire ":8080" "localhost:6379" "http://127.0.0.1:8080/.well-known/jwks.json" "https://issuer.local" "https://ingest.local"
    {| m_kid := "kid-1"; m_key := toy_raw_key "p1"; m_issuer := "https://issuer.local";
       m_audience := "https://ingest.local"; m_ttl := 45 * Minute |}.
#[local] Instance toy_JKey_eq_dec : EqDecision (JKey (JWX:=ToyJWX)) := ToyKey_eq_dec.
#[local] Instance toy_JSet_eq_dec : EqDecision (JSet (JWX:=ToyJWX)) := list_eq_dec (A:=ToyKey).
#[local] Instance toy_Minter_eq_dec : EqDecision (Minter (J:=ToyJWX)).
Proof. solve_decision. Defined.
#[local] Instance toy_TokenDeps_eq_dec : EqDecision (TokenDeps (J:=ToyJWX)).
Proof. solve_decision. Defined.
#[local] Instance toy_Verifier_eq_dec : EqDecision (Verifier (J:=ToyJWX)).
Proof. solve_decision. Defined.
#[local] Instance toy_Deps_eq_dec : EqDecision (Deps (J:=ToyJWX)).
Proof. solve_decision. Defined.
#[local] Instance toy_Server_eq_dec : EqDecision (Server (J:=ToyJWX)).
Proof. solve_decision. Defined.
#[local] Instance serve_end_eq_dec : EqDecision serve_end.
Proof. solve_decision. Defined.

Lemma boot_srv_served : Ev (MServe boot_srv) Signalled ∈ boot_run.1.1.
Proof.
  assert (bool_decide (head (omap served_with boot_run.1.1) = Some (boot_srv, Signalled)) = true) as Hs
    by (vm_compute; reflexivity).
  apply bool_decide_eq_true_1 in Hs. apply head_Some_elem_of, list_elem_of_omap in Hs as ([X f x] & Hev & Has).
  destruct f; try discriminate Has. injection Has as -> ->. exact Hev.
Qed.

Definition boot_setting : Setting :=
  {| st_att := ("subject", true); st_token := boot_srv.(s_token); st_batch := boot_srv.(s_batch) |}.
Abbreviation boot_keys := boot_run.2.(m_keys).

(** Every clock of the run stands at [toy_received]. *)
Definition full_clock (ev : event (ServiceE (J:=ToyJWX))) : bool :=
  match ev.(ev_call) in ServiceE X return X → bool with
  | SBatch e => match e in IngestE X return X → bool with
      | INow => λ t, bool_decide (t = toy_received) | _ => λ _, true end
  | SToken e => match e in TokenE X return X → bool with
      | TNow => λ t, bool_decide (t = toy_received) | _ => λ _, true end
  end ev.(ev_answer).

Definition boot_checked : bool :=
  full_checked boot_setting boot_keys &&
  bool_decide ((w_status (full_run2 boot_setting boot_keys).1.2, w_status (full_run3 boot_setting boot_keys).1.2) =
    (StatusOK, StatusOK)) &&
  bool_decide (w_body (full_run2 boot_setting boot_keys).1.2 = w_body (svc_run2 boot_setting).1.2) &&
  forallb (λ l, full_clock l.2) (full_log boot_setting boot_keys).
Lemma boot_facts :
  full_checked boot_setting boot_keys = true ∧
  (w_status (full_run2 boot_setting boot_keys).1.2, w_status (full_run3 boot_setting boot_keys).1.2) =
    (StatusOK, StatusOK) ∧
  w_body (full_run2 boot_setting boot_keys).1.2 = w_body (svc_run2 boot_setting).1.2 ∧
  forallb (λ l, full_clock l.2) (full_log boot_setting boot_keys) = true.
Proof.
  assert (boot_checked = true) as H by (vm_compute; reflexivity). unfold boot_checked in H.
  apply andb_prop in H as [[[H1 H2]%andb_prop H3]%andb_prop H4].
  exact (conj H1 (conj (bool_decide_eq_true_1 _ H2) (conj (bool_decide_eq_true_1 _ H3) H4))).
Qed.

Lemma boot_in_time : in_lifetime boot_srv.(s_token) (full_log boot_setting boot_keys) 1 2.
Proof.
  intros minted received Hm Hr. pose proof (proj2 (proj2 (proj2 boot_facts))) as Hall. rewrite forallb_forall in Hall.
  apply list_elem_of_In, Hall in Hm, Hr.
  assert (minted = toy_received) as -> by exact (bool_decide_eq_true_1 _ Hm).
  assert (received = toy_received) as -> by exact (bool_decide_eq_true_1 _ Hr).
  split; [by vm_compute|]. split; apply Z.leb_le; vm_compute; reflexivity.
Qed.

Lemma boot_shown :
  token_shown (T:=SvcTokenCodec) boot_srv.(s_token) (svc_requests boot_setting) (full_log boot_setting boot_keys)
    (full_responses boot_setting boot_keys) 1 (toy_token_request "token") 2 (svc_posted boot_setting).
Proof.
  split; [reflexivity| |reflexivity|exact boot_in_time].
  exists (full_run2 boot_setting boot_keys).1.2,
    {| AccessToken := w_body (full_run2 boot_setting boot_keys).1.2; ExpiresIn := 0; tok_TrustTier := 0 |}.
  split; [reflexivity|]. split; [exact (f_equal fst (proj1 (proj2 boot_facts)))|]. split; [reflexivity|].
  cbn [AccessToken]. rewrite (proj1 (proj2 (proj2 boot_facts))). reflexivity.
Qed.

Lemma full_named st keys : named (full_start st keys).
Proof.
  split; [|done]. intros client t. cbn [f_state full_start s_db svc_start].
  unfold ResolveTenant, System.toy_db. cbn [client_ids].
  destruct (_ !! client) as [row|] eqn:Hc; [|done]. apply lookup_singleton_Some in Hc as [_ <-]. by intros [= <-].
Qed.

Lemma exchanged_token_is_accepted_witness :
  w_status (full_run3 boot_setting boot_keys).1.2 = StatusOK ∧
  honoured (Z0:=ToyGzip) (T:=SvcTokenCodec) (full_start boot_setting boot_keys) (full_log boot_setting boot_keys)
    1 (toy_token_request "token") 2 (full_run3 boot_setting boot_keys).1.2.
Proof.
  split; [exact (f_equal snd (proj1 (proj2 boot_facts)))|].
  apply (exchanged_token_is_accepted (JL:=ToyJWXLaws) (R:=ToyRedis) (U:=ToyUUID) (C:=ToyCodec) (T:=SvcTokenCodec)
    (500 * Millisecond) False (λ _, False) toy_entries [] toy_content ∅ toy_runs 1 boot_start (pair 0%nat <$> boot_run.1.1)
    [Ret boot_run.1.2] boot_run.2 0 boot_srv Signalled (svc_requests boot_setting) (full_start boot_setting boot_keys)
    (full_run3 boot_setting boot_keys).2 (full_log boot_setting boot_keys) (full_responses boot_setting boot_keys)
    1 (toy_token_request "token") 2 (svc_posted boot_setting)).
  - apply toy_names_NoDup.
  - apply toy_content_total.
  - done.
  - done.
  - split; [intros ? ? ? ? [=]|apply map_Forall_empty].
  - done.
  - apply (exec_pool _ [main (J:=ToyJWX)] 0 main); [done|apply boot_runs].
  - apply list_elem_of_fmap. exists (Ev (MServe boot_srv) Signalled). split; [done|exact boot_srv_served].
  - reflexivity.
  - repeat constructor. by eexists _, _.
  - apply (full_service_run boot_setting boot_keys). exact (proj1 boot_facts).
  - by intros [].
  - apply full_named.
  - exact boot_shown.
  - reflexivity.
  - reflexivity.
Defined.
